(* ===== verification/_CoqProject ===== *)
-Q . S2P
Prelude.v
TdsFrame.v
TdsHandshake.v
Regex.v
TdsClassify.v
TdsPool.v
TdsMux.v
TdsSession.v
GoStrings.v
GoTrim.v
GoEncoding.v
GoJson.v
GoFloat.v
GoTime.v
Json.v
PolicyEngine.v
IamImport.v
IamWorld.v
IamCompile.v
StatementEngine.v
IamAuthz.v
AwsAction.v
IamDecide.v
IamRbac.v
AslData.v
AslChoice.v
AslTypes.v
AslEngine.v
AslRun.v
GoNet.v
CfnGraph.v
CfnTemplate.v
CfnResolve.v
CfnReads.v
CfnPlan.v
AuditChain.v
AuditShip.v
AuditVerify.v
LanAlloc.v
LanClient.v
LanExpose.v
ResourcePolicy.v
SnsFilter.v
DynItem.v
DynExpr.v
DynCond.v
DynUpdate.v
DynUpdateSpec.v
DynUpdateAlias.v
DynGuard.v
DynQuery.v
DynStore.v
DynPages.v
DynTxn.v
DynAccess.v
VtlSyntax.v
VtlParse.v
VtlEval.v
VtlTemplate.v
VtlBlocks.v
VtlFrame.v
JsonText.v
AppValue.v
AppSubscribe.v
AppDeliver.v
AppCache.v
AppCacheSafe.v
