(* ===== verification/Prelude.v ===== *)
(** * open-infra

    open-infra is a self-hosted cloud: AWS-shaped front doors over Kubernetes.  Most of its two hundred
    thousand lines of Go are handlers that translate requests and call other services; what decides anything
    is in a few packages, and those are modelled here, translated from their source.

    ** Parts

    - The SQL Server proxy, src/tds-proxy.  TdsFrame and TdsHandshake are tds/frame.go and tds/handshake.go
      (packets, PRELOGIN, LOGIN7); Regex and TdsClassify are classify/classify.go (which client batches pin a
      backend to their session); TdsPool is pool/pool.go (the backend pool, as a step relation over
      concurrent sessions); TdsMux is txmultiplex.go (a backend handed back between transactions);
      TdsSession is handle, acquireUsable and relaySession of main.go.  A session borrows from the pool,
      classifies what it relays, and returns or discards what it borrowed.
    - Authorization.  PolicyEngine is src/policyengine/engine.go (statements compiled to Cedar text and the
      decision over Cedar's answer); IamImport is importaws.go (AWS documents to statements); StatementEngine
      is the class of engines the front doors rely on, with the two instances.  IamWorld, IamCompile and
      IamAuthz are src/console-api/internal/iamauthz (principal.go, world.go, grant.go; compile.go;
      iamauthz.go, trust.go): from stored policies to one decision with boundaries, session policies and a
      cache of engines.  AwsAction is internal/awsaction (Kubernetes verbs to IAM actions); IamDecide and
      IamRbac are internal/iamcompile (match.go, compile.go, operator.go): from a principal's policies to
      generated RBAC that grants no more than the evaluator.
    - State machines, src/statemachine.  AslData is jsonpath.go, AslChoice choice.go, AslTypes asl.go,
      AslEngine engine.go and parallelmap.go (one step of one engine of the tree of engines), AslRun what
      every schedule of those steps does.
    - CloudFormation, src/cfn.  CfnTemplate is template.go, CfnResolve intrinsics.go (the resolver as a state
      monad), CfnGraph graph.go, CfnPlan BuildPlanForStack of plan.go, which resolves each resource and
      orders what is included; CfnReads is what resolution reads.
    - The audit trail.  AuditChain is src/console-api/internal/auditchain;
      AuditShip is the shipper of cmd/audit-offsite/main.go, which reads the log and extends the chain, and
      AuditVerify its verifier, which reads the bucket back and compares it with an anchor.
    - LAN exposure, src/lan-expose.  LanAlloc is alloc.go, LanClient k8s.go, LanExpose reconcile.go and the
      configuration of main.go: a sweep is a program of calls to the Kubernetes API whose answers are arbitrary.
    - Deliveries.  ResourcePolicy is src/cfn/resourcepolicy with resource_policy.go of the AWS shim (queue and
      topic policies), SnsFilter src/cfn/snsfilter with sns_filter.go (which subscription gets a message).
    - DynamoDB, src/dynamodb and the DynamoDB door of the AWS shim.  DynItem is dynamodb.go's values and keys
      with marshal.go; DynExpr the expression language of expr.go with its grammar in DynCond; DynUpdate the
      update clauses over a heap of shared arrays, DynUpdateSpec and DynUpdateAlias what they mean on plain
      values, DynGuard conditional updates; DynQuery queries, scans and MemStore, DynPages their pages and
      DynStore the table the store refines; DynTxn dynamo_transact.go, and DynAccess serve of dynamo.go with
      dynamo_accounts.go and account_scope.go (whose tables a request reaches).
    - Mapping templates, src/vtl.  VtlSyntax is parse.go (tokens and the parser of expressions, with its
      round trip in VtlParse), VtlEval expr.go (a state monad over the maps and lists that a template shares
      with its caller; what the host supplies is the class Host), VtlTemplate vtl.go (scanning, the tree of
      blocks, rendering), VtlBlocks the grammar of blocks and VtlFrame what a rendering changes.
    - AppSync, src/open-appsync/internal.  AppSubscribe is the package subscription with the connections of
      server/subscription_ws.go and the publisher of server.go; AppDeliver is who an event reaches.  AppCache
      is cache/cache.go with resolution through it in graphql/execute.go; AppCacheSafe is what it serves.
      AppValue is their values and identities.
    - Prelude, GoStrings, GoTrim, GoEncoding, GoJson, JsonText, GoFloat, GoTime, GoNet and Json hold what the packages use
      of Go and its standard library.

    A definition has the name of the function it translates; a method [T.m] is [m].  Where one function is
    modelled in pieces, the pieces are composed as the code composes them in a definition of the function's
    name.

    ** What is shown

    - TDS: reassembly of every byte stream, whole or truncated; no message makes a decoder panic; a batch
      that leaves session state is pinned; a backend is held by one session at a time, and the ceiling on
      connections holds in every reachable state; every borrowed slot is accounted for when a session ends;
      what is handed back is clean; encryption is never downgraded.
    - Authorization: the compiled engine decides as the statements read, fails closed, and a boundary
      intersects; the imported document means what the AWS document says where it is imported, and narrows
      where it is not; the evaluator decides as AWS's order of evaluation does; session policies and
      unsupported conditions only narrow; the cache is transparent; generated RBAC never widens, stays in the
      account's namespaces, and leaves the operator's surface to operators.
    - State machines: paths read back what is written through them; choices are deterministic; validated
      documents never lose their way; no execution is stuck; Map keeps to its concurrency; an execution
      without cycles ends on every schedule.
    - CloudFormation: the order is the topological one and fails exactly on cycles; a resolved value depends
      only on recorded reads; resolution and planning end; a plan creates a resource after what it reads.
    - Audit: chains with one head hold one evidence; what is built verifies; incremental verification gives
      the full verdict; over any writes, rotations and crashes every complete record is shipped
      once and in order; disposal after retention is told from removal.
    - LAN exposure: a sweep touches only what it owns, gives no address twice, preserves foreign routes, and
      changes nothing once settled; what is written reads back.
    - Deliveries: an accepted queue policy or filter decides as its document reads; no policy is public;
      another account needs a policy that lets it in; a filter set call by call can always be applied.
    - DynamoDB: conditions are evaluated as their grammar reads; an update of independent clauses has one
      meaning, is guarded by its condition and keeps the key; the store answers as a table of plain items
      though lists share arrays; pages cover a query; a transaction is all or nothing; a request reaches only
      tables of its own account that were checked.
    - Templates: the parser answers every text and reads back what is printed; the block tree is the one of
      the grammar; a rendering changes nothing of its caller's but what put, #set and #foreach name, and does
      not depend on the order of maps.
    - AppSync: an event reaches only callers who were let in, and exactly the subscriptions that want it; a
      cached response is its caller's own and not stale, and the cache is bounded.

    ** Fuel, bounds, integers

    Recursion that is not structural has fuel, and a theorem that the fuel is enough: the reader of TDS
    messages takes the length of the stream; regular expressions are matched by derivatives; the resolver's
    fuel grows with the template and [CfnReads.resolve_ends] shows it never runs out; Kahn's loop takes the
    number of resources; the interpreter of state machines needs none, since a step does one state; a
    template's loops take the length of what they read.  int64 arithmetic wraps ([Prelude.int64]); float64 is SpecFloat with the precision and rounding of Go; bytes and addresses are
    integers of their width.

    ** Parameters and hypotheses

    Code outside src/ is a parameter of the section that uses it, with what is relied on of it as named
    hypotheses: Cedar ([PolicyEngine], that its answer is of the policies it is given), SHA-1 and SHA-256
    (digests of their length; what is shown of edited evidence speaks of collisions among the texts that
    were hashed), math.Pow, the %v of a float, the reader of IPv6 text.  The answers of the network, of
    Kubernetes and of the object store are inputs, universally quantified.  Each theorem with such a
    hypothesis has an instance at concrete functions.

    ** Abstractions

    A Go map is a gmap where order does not matter and an association list in iteration order where it does;
    strings are byte sequences; decoding of JSON and YAML text is an input; error values keep their case and
    lose their wording; logging and metrics are left out; a step of a session, of the pool or of an engine
    between two blocking calls is atomic.  Functions a caller installs on the resolver are pure.

    ** Not modelled

    The API shim and the console server (request parsing around the packages above); the CloudFormation
    translators and deploy; the Task state's HTTP calls and the state-machine controller; the GraphQL
    engine of AppSync, its data sources and its JetStream bus; the MongoDB store behind DynamoDB (a driver) with its streams and backups; apply-sink, the feature store and the optimiser (SQL, Redis and job running);
    MFA, signing and X.509 (libraries); Kubernetes clients; the TypeScript console and the manifests. *)

From Stdlib Require Import ZArith.
From stdpp Require Export base list numbers strings gmap.
From Stdlib Require Export Lia.

#[local] Open Scope Z_scope.

(** ** Tactics *)

Create HintDb oi.
Create Rewrite HintDb len.

(** Case analysis on the scrutinee of a [match] or [if] in the goal or in a hypothesis. *)
Ltac case_goal :=
  match goal with
  | |- context [match ?x with _ => _ end] => destruct x eqn:?
  end.

Ltac case_hyp :=
  match goal with
  | H : context [match ?x with _ => _ end] |- _ => destruct x eqn:?
  end.

(** Boolean tests on [Z] as the propositions they decide, in every hypothesis. *)
Ltac bool_to_prop :=
  repeat match goal with
  | H : (_ && _)%bool = true |- _ => apply andb_true_iff in H as [? ?]
  | H : (_ || _)%bool = false |- _ => apply orb_false_iff in H as [? ?]
  | H : negb _ = true |- _ => apply negb_true_iff in H
  | H : negb _ = false |- _ => apply negb_false_iff in H
  | H : (_ <? _) = true |- _ => apply Z.ltb_lt in H
  | H : (_ <? _) = false |- _ => apply Z.ltb_ge in H
  | H : (_ <=? _) = true |- _ => apply Z.leb_le in H
  | H : (_ <=? _) = false |- _ => apply Z.leb_gt in H
  | H : (_ =? _) = true |- _ => apply Z.eqb_eq in H
  | H : (_ =? _) = false |- _ => apply Z.eqb_neq in H
  | H : (_ =? _)%string = true |- _ => apply String.eqb_eq in H
  | H : (_ =? _)%string = false |- _ => apply String.eqb_neq in H
  end.

(** ** Fallible results

    A Go function with an [error] result is a value of [res]; the dereference of an index or a slice
    bound out of range, which panics in Go, is [None] of an [option]. *)

Inductive res (E A : Type) : Type :=
| Ok (a : A)
| Err (e : E).
Arguments Ok {E A} _.
Arguments Err {E A} _.

#[export] Instance res_ret E : MRet (res E) := fun A a => Ok a.
#[export] Instance res_bind E : MBind (res E) :=
  fun A B f m => match m with Ok a => f a | Err e => Err e end.
#[export] Instance res_fmap E : FMap (res E) :=
  fun A B f m => match m with Ok a => Ok (f a) | Err e => Err e end.

Definition is_ok {E A} (r : res E A) : bool := match r with Ok _ => true | Err _ => false end.

Lemma res_bind_Ok {E A B} (m : res E A) (f : A → res E B) b :
  m ≫= f = Ok b ↔ ∃ a, m = Ok a ∧ f a = Ok b.
Proof.
  split; [| by intros (a & -> & H)].
  destruct m as [a|e]; [intros H; by exists a | done].
Qed.

Lemma mapM_res_Ok {E A B} (f : A → res E B) l k :
  mapM f l = Ok k ↔ Forall2 (λ a b, f a = Ok b) l k.
Proof.
  revert k. induction l as [|a l IH]; intros k; cbn [mapM].
  - split; [intros [= <-]; constructor | by inversion 1].
  - split.
    + intros (b & Hb & (k' & Hk & [= <-])%res_bind_Ok)%res_bind_Ok.
      constructor; [done | by apply IH].
    + inversion 1 as [|? b ? k' Hb Hk]; subst.
      apply res_bind_Ok. exists b. split; [done|].
      apply res_bind_Ok. exists k'. split; [by apply IH | done].
Qed.

Lemma mapM_res_ex {E A B} (f : A → res E B) l :
  (∃ k, mapM f l = Ok k) ↔ Forall (λ a, ∃ b, f a = Ok b) l.
Proof.
  split.
  - intros [k H%mapM_res_Ok]. induction H; constructor; eauto.
  - induction 1 as [|a l [b Hb] _ [k Hk]]; [by exists []|]. exists (b :: k).
    apply mapM_res_Ok. constructor; [done|by apply mapM_res_Ok].
Qed.

Lemma res_bind_ex {E A B} (m : res E A) (f : A → res E B) (P : Prop) :
  (∀ a, m = Ok a → (∃ b, f a = Ok b) ↔ P) → (∃ b, m ≫= f = Ok b) ↔ (∃ a, m = Ok a) ∧ P.
Proof.
  intros H. destruct m as [a|e]; cbn.
  - rewrite (H a eq_refl). split; [by eauto|naive_solver].
  - split; [by intros [? [=]]|by intros [[? [=]] _]].
Qed.

(** ** Machine integers *)

(** Go's int64 (and int): two's complement, wrapping. *)
Definition is_int64 (n : Z) : Prop := - 2 ^ 63 ≤ n < 2 ^ 63.
Definition int64 (n : Z) : Z := (n + 2 ^ 63) mod 2 ^ 64 - 2 ^ 63.

Lemma int64_id n : is_int64 n → int64 n = n.
Proof. unfold is_int64, int64. intros H. rewrite Z.mod_small; lia. Qed.

Lemma int64_range n : is_int64 (int64 n).
Proof. unfold is_int64, int64. pose proof (Z.mod_pos_bound (n + 2 ^ 63) (2 ^ 64) ltac:(lia)). lia. Qed.

(** ** Lists *)

Lemma filter_none {A} (P : A → Prop) {DP : ∀ x, Decision (P x)} (l : list A) : filter P l = [] ↔ ∀ x, x ∈ l → ¬ P x.
Proof.
  split; [intros H x Hx HP; by eapply (filter_nil_not_elem_of P)|]. intros H.
  destruct (filter P l) as [|x k] eqn:E; [done|]. assert (Hx : x ∈ filter P l) by (rewrite E; by left).
  apply list_elem_of_filter in Hx as [HP Hx]. by destruct (H x).
Qed.

Lemma elem_of_flat_map {A B} (f : A → list B) l y : y ∈ flat_map f l ↔ ∃ x, x ∈ l ∧ y ∈ f x.
Proof. rewrite list_elem_of_In, in_flat_map. by setoid_rewrite list_elem_of_In. Qed.

Lemma Forall2_existsb {A B} (f : A → bool) (g : B → bool) l k : Forall2 (λ a b, f a = g b) l k → existsb f l = existsb g k.
Proof. induction 1 as [|a b l k H _ IH]; [done|]. cbn. by rewrite H, IH. Qed.

Lemma Forall2_forallb {A B} (f : A → bool) (g : B → bool) l k : Forall2 (λ a b, f a = g b) l k → forallb f l = forallb g k.
Proof. induction 1 as [|a b l k H _ IH]; [done|]. cbn. by rewrite H, IH. Qed.

Lemma existsb_same {A} (f g : A → bool) l : (∀ a, f a = g a) → existsb f l = existsb g l.
Proof. intros H. induction l as [|a l IH]; [done|]. cbn. by rewrite H, IH. Qed.

Lemma existsb_map {A B} (g : A → B) (f : B → bool) l : existsb f (map g l) = existsb (λ a, f (g a)) l.
Proof. induction l as [|a l IH]; [done|]. cbn. by rewrite IH. Qed.

Lemma forallb_concat {A} (f : A → bool) l : forallb f (concat l) = forallb (forallb f) l.
Proof. induction l as [|k l IH]; [done|]. cbn. by rewrite forallb_app, IH. Qed.

Lemma forallb_same {A} (f g : A → bool) l : (∀ a, f a = g a) → forallb f l = forallb g l.
Proof. intros H. induction l as [|a l IH]; [done|]. cbn. by rewrite H, IH. Qed.

(** A loop that may fail. *)
Definition foldM {E A B} (f : A → B → res E A) (l : list B) (a : A) : res E A := foldl (λ acc b, a ← acc; f a b) (Ok a) l.

Lemma foldM_cons {E A B} (f : A → B → res E A) x l a : foldM f (x :: l) a = f a x ≫= foldM f l.
Proof.
  unfold foldM. cbn [foldl]. change (Ok a ≫= λ a, f a x) with (f a x). destruct (f a x) as [b|e]; [done|]. cbn.
  induction l as [|y l IH]; [done|exact IH].
Qed.

(** ** Byte strings as lists of integers *)

(** A byte is an integer in [0, 256). *)
Definition is_byte (b : Z) : Prop := 0 ≤ b < 256.
Abbreviation bytes := (list Z).
Definition wf_bytes (bs : bytes) : Prop := Forall is_byte bs.

(** Go's [len]. *)
Definition len {A} (l : list A) : Z := Z.of_nat (length l).

(** [l[i]]: [None] is Go's index-out-of-range panic. *)
Definition index {A} (l : list A) (i : Z) : option A :=
  if (0 <=? i) && (i <? len l) then l !! Z.to_nat i else None.

(** [l[lo:hi]] and [l[lo:]]: [None] is Go's slice-bounds panic. *)
Definition slice {A} (l : list A) (lo hi : Z) : option (list A) :=
  if (0 <=? lo) && (lo <=? hi) && (hi <=? len l)
  then Some (take (Z.to_nat (hi - lo)) (drop (Z.to_nat lo) l)) else None.

Definition slice_from {A} (l : list A) (lo : Z) : option (list A) := slice l lo (len l).

Lemma len_nonneg {A} (l : list A) : 0 ≤ len l.
Proof. unfold len. lia. Qed.
Lemma len_nil {A} : len (@nil A) = 0.
Proof. done. Qed.
Lemma len_cons {A} (x : A) l : len (x :: l) = 1 + len l.
Proof. unfold len. cbn [length]. lia. Qed.
Lemma len_app {A} (l k : list A) : len (l ++ k) = len l + len k.
Proof. unfold len. rewrite length_app. lia. Qed.
Lemma len_drop {A} (l : list A) n : len (drop n l) = len l - Z.of_nat (Nat.min n (length l)).
Proof. unfold len. rewrite length_drop. lia. Qed.
Lemma len_take {A} (l : list A) n : len (take n l) = Z.of_nat (Nat.min n (length l)).
Proof. unfold len. rewrite length_take. lia. Qed.

#[export] Hint Rewrite @len_nil @len_cons @len_app @len_drop @len_take : len.

Lemma index_is_Some {A} (l : list A) i : 0 ≤ i < len l → is_Some (index l i).
Proof.
  intros Hi. unfold index.
  rewrite (proj2 (andb_true_iff _ _)) by (rewrite Z.leb_le, Z.ltb_lt; lia).
  apply lookup_lt_is_Some. unfold len in Hi. lia.
Qed.

Lemma slice_is_Some {A} (l : list A) lo hi :
  0 ≤ lo → lo ≤ hi → hi ≤ len l → ∃ s, slice l lo hi = Some s ∧ len s = hi - lo.
Proof.
  intros H1 H2 H3. unfold slice.
  rewrite (proj2 (Z.leb_le 0 lo)), (proj2 (Z.leb_le lo hi)), (proj2 (Z.leb_le hi (len l))) by lia.
  eexists. split; [done|]. unfold len in *. rewrite length_take, length_drop. lia.
Qed.

Lemma slice_from_is_Some {A} (l : list A) lo :
  0 ≤ lo ≤ len l → ∃ s, slice_from l lo = Some s ∧ len s = len l - lo.
Proof. intros. apply slice_is_Some; lia. Qed.

Lemma slice_from_len {A} (l : list A) lo s :
  slice_from l lo = Some s → 0 ≤ lo ≤ len l ∧ len s = len l - lo.
Proof.
  unfold slice_from, slice. case_match eqn:E; [|done]. intros [= <-]. bool_to_prop.
  unfold len in *. rewrite length_take, length_drop. lia.
Qed.

Lemma slice_app_exact {A} (a b c : list A) :
  slice (a ++ b ++ c) (len a) (len a + len b) = Some b.
Proof.
  unfold slice. rewrite !len_app.
  pose proof (len_nonneg a). pose proof (len_nonneg b). pose proof (len_nonneg c).
  rewrite (proj2 (Z.leb_le 0 (len a))), (proj2 (Z.leb_le (len a) (len a + len b))),
    (proj2 (Z.leb_le (len a + len b) (len a + (len b + len c)))) by lia.
  f_equal. unfold len. rewrite Nat2Z.id, drop_app_length.
  replace (Z.to_nat _) with (length b) by lia. by rewrite take_app_length.
Qed.

Lemma slice_wf (l : bytes) lo hi s : wf_bytes l → slice l lo hi = Some s → wf_bytes s.
Proof.
  unfold slice. case_match; [|done]. intros Hl [= <-].
  by apply Forall_take, Forall_drop.
Qed.

Lemma index_wf (l : bytes) i b : wf_bytes l → index l i = Some b → is_byte b.
Proof.
  unfold index. case_match; [|done]. intros Hl Hb. by apply (Forall_lookup_1 _ _ _ _ Hl Hb).
Qed.

(** ** Machine words in byte strings (encoding/binary) *)

Definition uint16_le (b : bytes) : option Z :=
  match b with b0 :: b1 :: _ => Some (b0 + Z.shiftl b1 8) | _ => None end.
Definition uint16_be (b : bytes) : option Z :=
  match b with b0 :: b1 :: _ => Some (b1 + Z.shiftl b0 8) | _ => None end.
Definition uint32_le (b : bytes) : option Z :=
  match b with
  | b0 :: b1 :: b2 :: b3 :: _ =>
      Some (b0 + Z.shiftl b1 8 + Z.shiftl b2 16 + Z.shiftl b3 24)
  | _ => None
  end.

Lemma uint16_le_is_Some b : 2 ≤ len b → is_Some (uint16_le b).
Proof. destruct b as [|? [|? ?]]; rewrite ?len_cons, ?len_nil; [lia|lia|eauto]. Qed.
Lemma uint16_be_is_Some b : 2 ≤ len b → is_Some (uint16_be b).
Proof. destruct b as [|? [|? ?]]; rewrite ?len_cons, ?len_nil; [lia|lia|eauto]. Qed.
Lemma uint32_le_is_Some b : 4 ≤ len b → is_Some (uint32_le b).
Proof.
  destruct b as [|? [|? [|? [|? ?]]]]; rewrite ?len_cons, ?len_nil; [lia..|eauto].
Qed.

Lemma uint32_le_len b n : uint32_le b = Some n → 4 ≤ len b.
Proof.
  destruct b as [|? [|? [|? [|? b]]]]; [done..|]. rewrite !len_cons. pose proof (len_nonneg b). lia.
Qed.

Lemma uint16_le_range b n : wf_bytes b → uint16_le b = Some n → 0 ≤ n < 2 ^ 16.
Proof.
  unfold uint16_le, wf_bytes, is_byte. do 2 (destruct b as [|? b]; [done|]).
  rewrite !Forall_cons. intros (? & ? & _) [= <-]. rewrite Z.shiftl_mul_pow2 by lia. lia.
Qed.
Lemma uint16_be_range b n : wf_bytes b → uint16_be b = Some n → 0 ≤ n < 2 ^ 16.
Proof.
  unfold uint16_be, wf_bytes, is_byte. do 2 (destruct b as [|? b]; [done|]).
  rewrite !Forall_cons. intros (? & ? & _) [= <-]. rewrite Z.shiftl_mul_pow2 by lia. lia.
Qed.
Lemma uint32_le_range b n : wf_bytes b → uint32_le b = Some n → 0 ≤ n < 2 ^ 32.
Proof.
  unfold uint32_le, wf_bytes, is_byte. do 4 (destruct b as [|? b]; [done|]).
  rewrite !Forall_cons. intros (? & ? & ? & ? & _) [= <-]. rewrite !Z.shiftl_mul_pow2 by lia. lia.
Qed.

(** Bit fields: a shifted high part and a low part that fits below it. *)
Lemma lor_shiftl_add a b n :
  0 ≤ n → 0 ≤ b < 2 ^ n → Z.lor (Z.shiftl a n) b = a * 2 ^ n + b.
Proof.
  intros Hn Hb. rewrite <- Z.shiftl_mul_pow2, <- Z.add_lor_land by done.
  enough (Z.land (Z.shiftl a n) b = 0) as -> by lia.
  apply Z.bits_inj'. intros i Hi. rewrite Z.land_spec, Z.bits_0, Z.shiftl_spec by done.
  destruct (decide (i < n)).
  - by rewrite Z.testbit_neg_r by lia.
  - rewrite <- (Z.mod_small b (2 ^ n)) by done. rewrite Z.mod_pow2_bits_high by lia.
    by rewrite andb_false_r.
Qed.
