(* ===== verification/TdsFrame.v ===== *)
(** * TDS framing (tds-proxy/tds/frame.go, ReadMessage of handshake.go)

    The 8-byte packet header, messages reassembled from packets, and the text and procedure identity
    read out of a request body.  A connection is the list of bytes still to be read from it, ended by
    EOF.  A decoder that could panic on an out-of-range index returns an [option]. *)

From S2P Require Import Prelude.
From stdpp Require Import pretty.
#[local] Open Scope Z_scope.

(** ** Packet and message types *)

Definition TypeSQLBatch : Z := 0x01.
Definition TypePreTDS7Login : Z := 0x02.
Definition TypeRPC : Z := 0x03.
Definition TypeTabular : Z := 0x04.
Definition TypeAttention : Z := 0x06.
Definition TypeBulkLoad : Z := 0x07.
Definition TypeFedAuth : Z := 0x08.
Definition TypeTxMgr : Z := 0x0E.
Definition TypeLogin7 : Z := 0x10.
Definition TypeSSPI : Z := 0x11.
Definition TypePreLogin : Z := 0x12.

Definition statusEOM : Z := 0x01.
Definition headerLen : Z := 8.

Record Packet := mkPacket {
  pType : Z;
  pStatus : Z;
  pRaw : bytes;   (* the entire packet, header and payload *)
  pBody : bytes;  (* payload only *)
}.

Definition EOM (p : Packet) : bool := negb (Z.land (pStatus p) statusEOM =? 0).

(** ** Reading packets *)

Inductive io_error :=
| EOF
| UnexpectedEOF
| ImplausibleLength (n : Z).

(** io.ReadFull of [n] bytes: what it returns and what is left to read. *)
Definition read_full (n : Z) (r : bytes) : res io_error bytes * bytes :=
  if n <=? len r then (Ok (take (Z.to_nat n) r), drop (Z.to_nat n) r)
  else (Err (match r with [] => EOF | _ => UnexpectedEOF end), []).

(** [h] always holds the [headerLen] bytes ReadFull returned, so [!!!] never meets its default. *)
Definition ReadPacket (r : bytes) : res io_error Packet * bytes :=
  match read_full headerLen r with
  | (Err e, r') => (Err e, r')
  | (Ok h, r') =>
      let length := h !!! 3%nat + Z.shiftl (h !!! 2%nat) 8 in
      if (length <? headerLen) || (Z.shiftl 1 20 <? length)
      then (Err (ImplausibleLength length), r')
      else
        match read_full (length - headerLen) r' with
        | (Err e, r'') => (Err e, r'')
        | (Ok b, r'') =>
            (Ok {| pType := h !!! 0%nat; pStatus := h !!! 1%nat;
                   pRaw := h ++ b; pBody := drop (Z.to_nat headerLen) (h ++ b) |}, r'')
        end
  end.

(** ** Reassembling messages *)

Record Message := mkMessage {
  mType : Z;
  mBody : bytes;
  mRaw : bytes;
  mErr : option io_error;
  mRest : bytes;  (* what is left on the connection *)
}.

Fixpoint ReadMessage_loop (fuel : nat) (msgType : Z) (body raw : bytes) (r : bytes)
    : option Message :=
  match fuel with
  | O => None
  | S fuel =>
      match ReadPacket r with
      | (Err e, r') => Some (mkMessage msgType body raw (Some e) r')
      | (Ok p, r') =>
          let msgType := if len raw =? 0 then pType p else msgType in
          let body := body ++ pBody p in
          let raw := raw ++ pRaw p in
          if EOM p then Some (mkMessage msgType body raw None r')
          else ReadMessage_loop fuel msgType body raw r'
      end
  end.

(** Each packet takes at least [headerLen] bytes, so the length of the input is fuel enough
    ([ReadMessage_total]). *)
Definition ReadMessage (r : bytes) : option Message :=
  ReadMessage_loop (S (length r)) 0 [] [] r.

(** ** Text *)

(** A string decoded from UTF-16 is the list of its runes. *)
Abbreviation text := (list Z).
Definition tx (s : string) : text := (λ a, Z.of_N (Ascii.N_of_ascii a)) <$> String.list_ascii_of_string s.

Fixpoint utf16_units (b : bytes) : list Z :=
  match b with
  | b0 :: b1 :: b => (b0 + Z.shiftl b1 8) :: utf16_units b
  | _ => []
  end.

(** unicode/utf16's Decode: a lone surrogate becomes U+FFFD. *)
Fixpoint utf16_decode (s : list Z) : text :=
  match s with
  | [] => []
  | r :: s' =>
      if (r <? 0xd800) || (0xe000 <=? r) then r :: utf16_decode s'
      else
        match s' with
        | r2 :: s'' =>
            if (r <? 0xdc00) && (0xdc00 <=? r2) && (r2 <? 0xe000)
            then (Z.lor (Z.shiftl (r - 0xd800) 10) (r2 - 0xdc00) + 0x10000) :: utf16_decode s''
            else 0xfffd :: utf16_decode s'
        | [] => [0xfffd]
        end
  end.

Definition decodeUTF16LE (b : bytes) : text :=
  if len b <? 2 then [] else utf16_decode (utf16_units b).

(** The length in bytes of a Go string holding these runes (UTF-8). *)
Definition rune_len (r : Z) : Z :=
  if r <? 0x80 then 1 else if r <? 0x800 then 2 else if r <? 0x10000 then 3 else 4.
Definition text_len (t : text) : Z := foldr (λ r n, rune_len r + n) 0 t.

Definition hex_digit (d : Z) : text :=
  if d <? 10 then [48 + d] else [97 + (d - 10)].

Definition TypeName (t : Z) : text :=
  if t =? TypeSQLBatch then tx "SQLBatch"
  else if t =? TypeRPC then tx "RPC"
  else if t =? TypeTabular then tx "Response"
  else if t =? TypeAttention then tx "Attention"
  else if t =? TypeBulkLoad then tx "BulkLoad"
  else if t =? TypeTxMgr then tx "TxMgr"
  else if t =? TypeLogin7 then tx "Login7"
  else if t =? TypePreLogin then tx "PreLogin"
  else if t =? TypeSSPI then tx "SSPI"
  else tx "0x" ++ hex_digit (Z.shiftr t 4) ++ hex_digit (Z.land t 15).

(** ** Request bodies *)

Definition allHeadersLen (body : bytes) : option Z :=
  if len body <? 4 then Some 0
  else
    b ← slice body 0 4;
    total ← uint32_le b;
    Some (if (4 <=? total) && (total <=? len body) && (total <? Z.shiftl 1 16) then total else 0).

Definition BatchText (body : bytes) : option text :=
  off ← allHeadersLen body;
  let off := if len body <? off then 0 else off in
  b ← slice_from body off;
  Some (decodeUTF16LE b).

Definition procIDName (id : Z) : text :=
  if id =? 1 then tx "sp_cursor"
  else if id =? 2 then tx "sp_cursoropen"
  else if id =? 3 then tx "sp_cursorprepare"
  else if id =? 4 then tx "sp_cursorexecute"
  else if id =? 5 then tx "sp_cursorprepexec"
  else if id =? 6 then tx "sp_cursorunprepare"
  else if id =? 7 then tx "sp_cursorfetch"
  else if id =? 8 then tx "sp_cursoroption"
  else if id =? 9 then tx "sp_cursorclose"
  else if id =? 10 then tx "sp_executesql"
  else if id =? 11 then tx "sp_prepare"
  else if id =? 12 then tx "sp_execute"
  else if id =? 13 then tx "sp_prepexec"
  else if id =? 14 then tx "sp_prepexecrpc"
  else if id =? 15 then tx "sp_unprepare"
  else tx ("procid:" +:+ pretty id).

Definition RPCProc (body : bytes) : option text :=
  off ← allHeadersLen body;
  if len body <? off + 2 then Some []
  else
    p ← slice_from body off;
    b ← slice p 0 2;
    nameLen ← uint16_le b;
    if nameLen =? 0xFFFF then
      if len p <? 4 then Some []
      else b ← slice p 2 4; id ← uint16_le b; Some (procIDName id)
    else if len p <? 2 + nameLen * 2 then Some []
    else b ← slice p 2 (2 + nameLen * 2); Some (decodeUTF16LE b).

(** ** Transaction-manager requests *)

Definition TMBeginXact : Z := 5.
Definition TMPromoteXact : Z := 6.
Definition TMCommitXact : Z := 7.
Definition TMRollbackXact : Z := 8.
Definition TMSaveXact : Z := 9.

(** [Some None] is the code's [(0, false)]. *)
Definition TxMgrRequestType (body : bytes) : option (option Z) :=
  off ← allHeadersLen body;
  if (off =? 0) || (len body <? off + 2) then Some None
  else b ← slice body off (off + 2); rt ← uint16_le b; Some (Some rt).

(** ** Reading one packet *)

Lemma read_full_Ok n r b r' :
  0 ≤ n → read_full n r = (Ok b, r') ↔ r = b ++ r' ∧ len b = n.
Proof.
  intros Hn. unfold read_full. case_match eqn:E; bool_to_prop.
  - split.
    + intros [= <- <-]. rewrite take_drop. split; [done|].
      unfold len in *. rewrite length_take. lia.
    + intros [-> Hb]. unfold len in *.
      rewrite take_app_length', drop_app_length' by lia. done.
  - split; [done|]. intros [-> Hb]. rewrite len_app in E. pose proof (len_nonneg r'). lia.
Qed.

(** What ReadPacket accepts: the header's length field is the packet's length. *)
Record wf_packet (p : Packet) : Prop := {
  wp_len : headerLen ≤ len (pRaw p) ≤ 2 ^ 20;
  wp_type : pRaw p !! 0%nat = Some (pType p);
  wp_status : pRaw p !! 1%nat = Some (pStatus p);
  wp_length : pRaw p !!! 3%nat + Z.shiftl (pRaw p !!! 2%nat) 8 = len (pRaw p);
  wp_body : pBody p = drop (Z.to_nat headerLen) (pRaw p);
}.

Lemma header_lookup (h b : bytes) i :
  len h = headerLen → (i < 8)%nat → (h ++ b) !!! i = h !!! i.
Proof.
  intros Hh Hi. apply lookup_total_app_l. unfold len, headerLen in Hh. lia.
Qed.

Lemma header_lookup_Some (h : bytes) i :
  len h = headerLen → (i < 8)%nat → h !! i = Some (h !!! i).
Proof.
  intros Hh Hi. apply list_lookup_lookup_total_lt. unfold len, headerLen in Hh. lia.
Qed.

Lemma ReadPacket_sound r p r' :
  ReadPacket r = (Ok p, r') → wf_packet p ∧ r = pRaw p ++ r'.
Proof.
  unfold ReadPacket. destruct (read_full headerLen r) as [[h|] r1] eqn:Eh; [|done].
  apply read_full_Ok in Eh as [-> Hh]; [|done].
  case_match eqn:El; [done|]. bool_to_prop.
  destruct (read_full _ r1) as [[b|] r2] eqn:Eb; [|done].
  apply read_full_Ok in Eb as [-> Hb]; [|lia]. intros [= <- <-]; cbn.
  split; [|by rewrite app_assoc]. split; cbn.
  - rewrite len_app, Hb, Hh. change (Z.shiftl 1 20) with (2 ^ 20) in *. lia.
  - rewrite lookup_app_l; [by apply header_lookup_Some; [|lia]|]. unfold len, headerLen in Hh; lia.
  - rewrite lookup_app_l; [by apply header_lookup_Some; [|lia]|]. unfold len, headerLen in Hh; lia.
  - rewrite !header_lookup, len_app by (done || lia). lia.
  - done.
Qed.

Lemma ReadPacket_complete p r :
  wf_packet p → ReadPacket (pRaw p ++ r) = (Ok p, r).
Proof.
  intros [Hlen Ht Hs Hl Hb]. destruct p as [ty st raw body]; cbn in *.
  assert (∃ h b, raw = h ++ b ∧ len h = headerLen) as (h & b & -> & Hh).
  { exists (take 8 raw), (drop 8 raw). rewrite take_drop. split; [done|].
    unfold len, headerLen in *. rewrite length_take. lia. }
  unfold ReadPacket. rewrite <- app_assoc.
  rewrite (proj2 (read_full_Ok headerLen (h ++ b ++ r) h (b ++ r) ltac:(done)) (conj eq_refl Hh)).
  rewrite !header_lookup in Hl by (done || lia). rewrite Hl.
  rewrite (proj2 (Z.ltb_ge _ headerLen)), (proj2 (Z.ltb_ge (Z.shiftl 1 20) _)) by
    (change (Z.shiftl 1 20) with (2 ^ 20); lia).
  cbn [orb]. rewrite (proj2 (read_full_Ok (len (h ++ b) - headerLen) (b ++ r) b r ltac:(lia)));
    [|split; [done|]; rewrite len_app; lia].
  rewrite lookup_app_l in Ht, Hs by (unfold len, headerLen in Hh; lia).
  rewrite header_lookup_Some in Ht, Hs by (done || lia).
  injection Ht as ->. injection Hs as ->. by rewrite <- Hb.
Qed.

(** Packets are read and relayed verbatim: ReadPacket returns [p] exactly when the connection starts
    with the bytes of a well-formed [p]. *)
Lemma ReadPacket_iff r p r' :
  ReadPacket r = (Ok p, r') ↔ wf_packet p ∧ r = pRaw p ++ r'.
Proof.
  split; [apply ReadPacket_sound|]. intros [Hp ->]. by apply ReadPacket_complete.
Qed.

(** ** Reading one message *)

Definition raws (ps : list Packet) : bytes := concat (pRaw <$> ps).
Definition bodies (ps : list Packet) : bytes := concat (pBody <$> ps).

(** A message: well-formed packets, the last and only the last with the EOM bit. *)
Inductive is_message : list Packet → Prop :=
| msg_last p : wf_packet p → EOM p = true → is_message [p]
| msg_more p ps : wf_packet p → EOM p = false → is_message ps → is_message (p :: ps).

Lemma wf_packet_nonempty p : wf_packet p → (len (pRaw p) =? 0) = false.
Proof. intros [H _ _ _ _]. unfold headerLen in H. apply Z.eqb_neq. lia. Qed.

Lemma app_not_empty (raw : bytes) p : wf_packet p → (len (raw ++ pRaw p) =? 0) = false.
Proof.
  intros [H _ _ _ _]. unfold headerLen in H. pose proof (len_nonneg raw).
  apply Z.eqb_neq. rewrite len_app. lia.
Qed.

Lemma ReadMessage_loop_total fuel ty body raw r :
  (length r < fuel)%nat → is_Some (ReadMessage_loop fuel ty body raw r).
Proof.
  revert ty body raw r. induction fuel as [|fuel IH]; intros ty body raw r Hf; [lia|].
  cbn [ReadMessage_loop]. destruct (ReadPacket r) as [[p|e] r'] eqn:E; [|eauto].
  apply ReadPacket_sound in E as [Hp ->]. destruct (EOM p); [eauto|].
  apply IH. rewrite length_app in Hf.
  destruct Hp as [Hlen _ _ _ _]. unfold len, headerLen in Hlen. lia.
Qed.

Lemma ReadMessage_loop_complete ps rest :
  is_message ps → ∀ fuel ty body raw,
  (length ps <= fuel)%nat →
  ReadMessage_loop fuel ty body raw (raws ps ++ rest)
  = Some (mkMessage (if len raw =? 0 then default ty (pType <$> head ps) else ty)
            (body ++ bodies ps) (raw ++ raws ps) None rest).
Proof.
  induction 1 as [p Hp He|p ps Hp He Hps IH]; intros fuel ty body raw Hf;
    (destruct fuel as [|fuel]; [cbn in Hf; lia|]); unfold raws, bodies in *; cbn.
  - rewrite !app_nil_r, (ReadPacket_complete p rest Hp), He. by case_match.
  - rewrite <- app_assoc, (ReadPacket_complete p _ Hp), He.
    rewrite IH by (cbn in Hf; lia). rewrite app_not_empty by done.
    rewrite <- !app_assoc. by case_match.
Qed.

Lemma ReadMessage_loop_sound fuel ty body raw r m :
  ReadMessage_loop fuel ty body raw r = Some m → mErr m = None →
  ∃ ps, is_message ps ∧ r = raws ps ++ mRest m.
Proof.
  revert ty body raw r. induction fuel as [|fuel IH]; intros ty body raw r; [done|].
  cbn [ReadMessage_loop]. destruct (ReadPacket r) as [[p|e] r'] eqn:E.
  2: { by intros [= <-]. }
  apply ReadPacket_sound in E as [Hp ->]. destruct (EOM p) eqn:He.
  - intros [= <-] _. exists [p]. cbn. unfold raws; cbn. rewrite app_nil_r.
    split; [by constructor|done].
  - intros Hl Hm. destruct (IH _ _ _ _ Hl Hm) as (ps & Hps & ->).
    exists (p :: ps). split; [by constructor|]. unfold raws; cbn. by rewrite <- app_assoc.
Qed.

Lemma is_message_length ps : is_message ps → (length ps <= length (raws ps))%nat.
Proof.
  unfold raws.
  induction 1 as [p Hp|p ps Hp _ _ IH]; cbn; rewrite length_app;
    destruct Hp as [Hlen _ _ _ _]; unfold len, headerLen in Hlen; lia.
Qed.

(** ReadMessage always returns (its loop ends on every connection), and it returns a message
    without an error exactly when the connection starts with that message's packets: the bodies in
    order, the raw bytes verbatim, the type of the first packet, and the rest of the connection
    untouched. *)
Theorem ReadMessage_correct (r : bytes) :
  (∃ m, ReadMessage r = Some m) ∧
  (∀ ty body raw rest,
     ReadMessage r = Some (mkMessage ty body raw None rest) ↔
     ∃ ps, is_message ps ∧ r = raw ++ rest ∧ raw = raws ps ∧ body = bodies ps
           ∧ head (pType <$> ps) = Some ty).
Proof.
  split; [apply ReadMessage_loop_total; lia|]. intros ty body raw rest.
  assert (Hc : ∀ ps, is_message ps → r = raws ps ++ rest →
    ReadMessage r = Some (mkMessage (default 0 (pType <$> head ps)) (bodies ps) (raws ps) None rest)).
  { intros ps Hps ->. unfold ReadMessage. rewrite ReadMessage_loop_complete with (ps := ps); [done..|].
    apply is_message_length in Hps. rewrite length_app. lia. }
  assert (Hh : ∀ ps, is_message ps → head (pType <$> ps) = Some (default 0 (pType <$> head ps))).
  { by destruct 1. }
  split.
  - intros H. destruct (ReadMessage_loop_sound _ _ _ _ _ _ H eq_refl) as (ps & Hps & Hr).
    cbn in Hr. rewrite (Hc ps Hps Hr) in H. injection H as <- <- <-.
    exists ps. by rewrite Hh.
  - intros (ps & Hps & -> & -> & -> & Hty). rewrite (Hc ps Hps eq_refl).
    rewrite (Hh ps Hps) in Hty. by injection Hty as ->.
Qed.

(** ** UTF-16 *)

(** The reference encoder: a valid rune (no surrogate, at most U+10FFFF) as one or two units. *)
Definition valid_rune (r : Z) : Prop := 0 ≤ r < 0xd800 ∨ 0xe000 ≤ r < 0x110000.

Definition rune_units (r : Z) : list Z :=
  if r <? 0x10000 then [r]
  else [0xd800 + Z.shiftr (r - 0x10000) 10; 0xdc00 + Z.land (r - 0x10000) 0x3ff].

Definition unit_bytes (u : Z) : bytes := [u mod 256; Z.shiftr u 8].

Definition encodeUTF16LE (t : text) : bytes := concat (unit_bytes <$> concat (rune_units <$> t)).

Lemma utf16_units_bytes us : utf16_units (concat (unit_bytes <$> us)) = us.
Proof.
  induction us as [|u us IH]; cbn -[Z.shiftr Z.shiftl Z.modulo]; [done|]. rewrite IH. f_equal.
  rewrite Z.shiftl_mul_pow2, Z.shiftr_div_pow2 by lia.
  change (2 ^ 8) with 256. pose proof (Z.div_mod u 256). lia.
Qed.

Lemma shiftr10 r : Z.shiftr r 10 = r / 1024.
Proof. by rewrite Z.shiftr_div_pow2 by lia. Qed.
Lemma land_3ff r : Z.land r 0x3ff = r mod 1024.
Proof. change 0x3ff with (Z.ones 10). by rewrite Z.land_ones by lia. Qed.

Lemma utf16_decode_rune r us : valid_rune r → utf16_decode (rune_units r ++ us) = r :: utf16_decode us.
Proof.
  intros Hr. unfold rune_units. destruct (Z.ltb_spec r 0x10000).
  - cbn [app utf16_decode]. replace (_ || _) with true; [done|].
    symmetry. apply orb_true_iff. rewrite Z.ltb_lt, Z.leb_le. unfold valid_rune in Hr. lia.
  - assert (Hd : 0 ≤ (r - 0x10000) / 1024 < 1024).
    { unfold valid_rune in Hr. split; [apply Z.div_pos; lia | apply Z.div_lt_upper_bound; lia]. }
    assert (Hm : 0 ≤ (r - 0x10000) mod 1024 < 1024) by (apply Z.mod_pos_bound; lia).
    cbn [app utf16_decode]. rewrite shiftr10, land_3ff.
    replace ((_ <? 0xd800) || _) with false.
    2: { symmetry. apply orb_false_iff. rewrite Z.ltb_ge, Z.leb_gt. lia. }
    replace (_ && _ && _) with true.
    2: { symmetry. rewrite !andb_true_iff, !Z.ltb_lt, Z.leb_le. lia. }
    f_equal. rewrite lor_shiftl_add by (change (2 ^ 10) with 1024; lia). change (2 ^ 10) with 1024.
    pose proof (Z.div_mod (r - 0x10000) 1024). lia.
Qed.

Lemma decode_encode t : Forall valid_rune t → decodeUTF16LE (encodeUTF16LE t) = t.
Proof.
  intros Ht. assert (H : utf16_decode (utf16_units (encodeUTF16LE t)) = t).
  { unfold encodeUTF16LE. rewrite utf16_units_bytes.
    induction Ht as [|r t Hr Ht IH]; [done|]. cbn [fmap list_fmap concat].
    by rewrite utf16_decode_rune, IH. }
  unfold decodeUTF16LE. case_match eqn:E; [|done]. apply Z.ltb_lt in E.
  rewrite <- H. by destruct (encodeUTF16LE t) as [|? [|? ?]]; rewrite ?len_cons in E;
    [|done|pose proof (len_nonneg l); lia].
Qed.

(** ** ALL_HEADERS *)

Lemma allHeadersLen_spec body :
  ∃ n, allHeadersLen body = Some n ∧ (n = 0 ∨ 4 ≤ n ≤ len body ∧ n < 2 ^ 16).
Proof.
  unfold allHeadersLen. destruct (Z.ltb_spec (len body) 4); [by eauto|].
  destruct (slice_is_Some body 0 4) as (b & -> & Hb); [lia..|]. cbn.
  destruct (uint32_le_is_Some b) as [total ->]; [lia|]. cbn.
  eexists. split; [done|]. case_match eqn:E; [|by left]. bool_to_prop. right.
  change (Z.shiftl 1 16) with (2 ^ 16) in *. lia.
Qed.

(** A well-formed ALL_HEADERS block: its first four bytes are its own length. *)
Definition is_all_headers (h : bytes) : Prop :=
  uint32_le h = Some (len h) ∧ 4 ≤ len h < 2 ^ 16.

Lemma allHeadersLen_block h b : is_all_headers h → allHeadersLen (h ++ b) = Some (len h).
Proof.
  intros [Hu Hl]. unfold allHeadersLen. pose proof (len_nonneg b).
  rewrite (proj2 (Z.ltb_ge _ _)) by (rewrite len_app; lia).
  do 4 (destruct h as [|? h]; [done|]). cbn in Hu. injection Hu as Hu.
  rewrite (slice_app_exact [] [z; z0; z1; z2] (h ++ b) : slice ((z :: z0 :: z1 :: z2 :: h) ++ b) 0 4 = _).
  cbn [mbind option_bind uint32_le]. rewrite Hu, len_app.
  set (n := len _) in *.
  rewrite (proj2 (Z.leb_le 4 n)), (proj2 (Z.leb_le n (n + len b))), (proj2 (Z.ltb_lt n _)) by
    (change (Z.shiftl 1 16) with (2 ^ 16); lia).
  done.
Qed.

Lemma slice_from_app {A} (a b : list A) : slice_from (a ++ b) (len a) = Some b.
Proof.
  unfold slice_from. rewrite len_app. rewrite <- (app_nil_r b) at 1. apply slice_app_exact.
Qed.

(** the SQL text a client put in a batch is the text the classifier reads: for every valid text
    and every ALL_HEADERS block, BatchText of the encoded message returns that text. *)
Theorem BatchText_roundtrip (h : bytes) (t : text)
    (Hh : is_all_headers h) (Ht : Forall valid_rune t) :
  BatchText (h ++ encodeUTF16LE t) = Some t.
Proof.
  unfold BatchText. rewrite allHeadersLen_block by done. cbn [mbind option_bind].
  rewrite (proj2 (Z.ltb_ge _ _)) by (rewrite len_app; pose proof (len_nonneg (encodeUTF16LE t)); lia).
  rewrite slice_from_app. cbn. by rewrite decode_encode.
Qed.

Example BatchText_roundtrip_witness :
  is_all_headers [6; 0; 0; 0; 0; 0] ∧ Forall valid_rune [83; 0x1f600; 49] ∧
  BatchText ([6; 0; 0; 0; 0; 0] ++ encodeUTF16LE [83; 0x1f600; 49]) = Some [83; 0x1f600; 49].
Proof.
  assert (H1 : is_all_headers [6; 0; 0; 0; 0; 0]) by (split; [reflexivity|vm_compute; split; [discriminate|reflexivity]]).
  assert (H2 : Forall valid_rune [83; 0x1f600; 49]) by
    (repeat constructor; unfold valid_rune; lia).
  split; [exact H1|]. split; [exact H2|]. exact (BatchText_roundtrip _ _ H1 H2).
Defined.

(** no request body makes the body decoders panic: every index and slice BatchText, RPCProc and
    TxMgrRequestType take is in range, whatever the client sent. *)
Theorem body_decoders_total (body : bytes) (Hb : wf_bytes body) :
  is_Some (BatchText body) ∧ is_Some (RPCProc body) ∧ is_Some (TxMgrRequestType body).
Proof.
  destruct (allHeadersLen_spec body) as (n & Hn & Hr).
  pose proof (len_nonneg body). unfold BatchText, RPCProc, TxMgrRequestType. rewrite Hn.
  cbn [mbind option_bind]. split_and!.
  - destruct (Z.ltb_spec (len body) n); edestruct (slice_from_is_Some body) as (b & -> & _);
      [|by eauto| |by eauto]; lia.
  - case_match eqn:E; [by eauto|]. apply Z.ltb_ge in E.
    destruct (slice_from_is_Some body n) as (p & Hp & Hlp); [lia|]. rewrite Hp. cbn.
    assert (wf_bytes p) by (by eapply slice_wf).
    destruct (slice_is_Some p 0 2) as (b & Hb2 & Hlb); [lia..|]. rewrite Hb2. cbn.
    destruct (uint16_le_is_Some b) as [k Hk]; [lia|]. rewrite Hk. cbn.
    apply uint16_le_range in Hk; [|by eapply slice_wf].
    destruct (Z.eqb_spec k 0xffff).
    + case_match eqn:E4; [by eauto|]. apply Z.ltb_ge in E4.
      destruct (slice_is_Some p 2 4) as (b' & -> & Hb'); [lia..|]. cbn.
      destruct (uint16_le_is_Some b') as [? ->]; [lia|]. by eauto.
    + case_match eqn:E4; [by eauto|]. apply Z.ltb_ge in E4.
      destruct (slice_is_Some p 2 (2 + k * 2)) as (b' & -> & Hb'); [lia..|]. by eauto.
  - case_match eqn:E; [by eauto|]. bool_to_prop.
    destruct (slice_is_Some body n (n + 2)) as (b' & -> & Hb'); [lia..|]. cbn.
    destruct (uint16_le_is_Some b') as [? ->]; [lia|]. by eauto.
Qed.

Example body_decoders_total_witness :
  wf_bytes [255; 255; 10; 0] ∧
  is_Some (BatchText [255; 255; 10; 0]) ∧ is_Some (RPCProc [255; 255; 10; 0]) ∧
  is_Some (TxMgrRequestType [255; 255; 10; 0]).
Proof.
  assert (H : wf_bytes [255; 255; 10; 0]) by (repeat constructor; unfold is_byte; lia).
  split; [exact H|]. exact (body_decoders_total _ H).
Defined.
