(* ===== verification/TdsHandshake.v ===== *)
(** * The TDS handshake (tds-proxy/tds/handshake.go)

    The RESETCONNECTION bit, PRELOGIN option tables, and what the pool reads out of a client's LOGIN7.
    Every index and slice of attacker-controlled bytes is an [option]: [None] is a Go panic (or a loop
    that outlives its fuel), and the totality theorems rule both out. *)

From S2P Require Import Prelude TdsFrame.
#[local] Open Scope Z_scope.

(** ** RESETCONNECTION *)

Definition statusResetConnection : Z := 0x08.

Definition WithResetConnection (raw : bytes) : bytes :=
  if len raw <? headerLen then raw
  else alter (λ s, Z.lor s statusResetConnection) 1%nat raw.

(** ** PRELOGIN *)

Definition EncryptOff : Z := 0x00.
Definition EncryptOn : Z := 0x01.
Definition EncryptNotSup : Z := 0x02.
Definition EncryptReq : Z := 0x03.

Definition preloginOptEncryption : Z := 0x01.
Definition preloginOptMARS : Z := 0x04.

Definition BuildPreloginResponseEnc (enc : Z) : bytes :=
  let verOff := 11 in
  let encOff := verOff + 6 in
  let payload :=
    [0x00; 0x00; verOff; 0x00; 0x06;
     0x01; 0x00; encOff; 0x00; 0x01;
     0xFF;
     0x10; 0x00; 0x03; 0xE8; 0x00; 0x00;
     enc] in
  let total := headerLen + len payload in
  [TypeTabular; statusEOM; Z.shiftr total 8 mod 256; total mod 256; 0; 0; 1; 0] ++ payload.

Definition BuildPreloginResponse : bytes := BuildPreloginResponseEnc EncryptNotSup.

Definition BuildClientPrelogin : bytes :=
  <[0%nat := TypePreLogin]> (BuildPreloginResponseEnc EncryptNotSup).

(** The scan PreloginEncryption and PreloginRequestsMARS share: walk the 5-byte option entries from [i]
    and hand the offset and length of the first entry with token [opt] to [k]; [dflt] when the table
    ends, or is cut short, before it. *)
Fixpoint prelogin_scan {A} (fuel : nat) (body : bytes) (i opt : Z) (dflt : A)
    (k : Z → Z → option A) : option A :=
  match fuel with
  | O => None
  | S fuel =>
      if len body <=? i then Some dflt
      else
        tok ← index body i;
        if tok =? 0xFF then Some dflt
        else if len body <? i + 5 then Some dflt
        else
          b1 ← index body (i + 1); b2 ← index body (i + 2);
          b3 ← index body (i + 3); b4 ← index body (i + 4);
          let off := Z.lor (Z.shiftl b1 8) b2 in
          let ln := Z.lor (Z.shiftl b3 8) b4 in
          if tok =? opt then k off ln
          else prelogin_scan fuel body (i + 5) opt dflt k
  end.

Definition PreloginEncryption (body : bytes) : option Z :=
  prelogin_scan (S (length body)) body 0 preloginOptEncryption EncryptNotSup
    (λ off ln,
       if (1 <=? ln) && (0 <=? off) && (off <? len body) then index body off
       else Some EncryptNotSup).

Definition PreloginRequestsMARS (body : bytes) : option bool :=
  prelogin_scan (S (length body)) body 0 preloginOptMARS false
    (λ off ln,
       if (1 <=? ln) && (0 <=? off) && (off <? len body)
       then b ← index body off; Some (b =? 0x01)
       else Some false).

(** ** LOGIN7 *)

Record Login7Info := mkLogin7 {
  liUser : text;
  liDatabase : text;
  liPassField : bytes;
  liIntegrated : bool;
  liFedAuth : bool;
  liProfile : Z;
}.

(** hash/fnv's 64-bit FNV-1a. *)
Definition fnv_offset : Z := 14695981039346656037.
Definition fnv_prime : Z := 1099511628211.
Definition fnv_write (h : Z) (bs : bytes) : Z :=
  fold_left (λ h b, (Z.lxor h b * fnv_prime) mod 2 ^ 64) bs h.

(** The loop of LoginProfile over the FeatureExt block, from offset [p]. *)
Fixpoint profile_features (fuel : nat) (h : Z) (body : bytes) (p : Z) : option Z :=
  match fuel with
  | O => None
  | S fuel =>
      if negb ((0 <=? p) && (p <? len body)) then Some h
      else
        id ← index body p;
        if id =? 0xFF then Some (fnv_write h [0xFF])
        else if len body <? p + 5 then Some h
        else
          b ← slice_from body (p + 1); dl ← uint32_le b;
          if (dl <? 0) || (len body <? p + 5 + dl) then Some h
          else
            f ← slice body p (p + 5 + dl);
            profile_features fuel (fnv_write h f) body (p + (5 + dl))
  end.

Definition LoginProfile (body : bytes) : option Z :=
  h ← (if 36 <=? len body then
         a ← slice body 4 12; b ← slice body 24 28; c ← slice body 32 36;
         Some (fnv_write (fnv_write (fnv_write fnv_offset a) b) c)
       else Some fnv_offset);
  if len body <? 58 then Some h
  else
    flags ← index body 27;
    if Z.land flags 0x10 =? 0 then Some h
    else
      b ← slice_from body 56; ptr ← uint16_le b;
      if (0 <=? ptr) && (ptr + 4 <=? len body) then
        b ← slice_from body ptr; blk ← uint32_le b;
        profile_features (S (length body)) h body blk
      else Some h.

(** The loop of fedAuth over the FeatureExt block, from offset [p]. *)
Fixpoint fedAuth_loop (fuel : nat) (body : bytes) (p : Z) : option bool :=
  match fuel with
  | O => None
  | S fuel =>
      if len body <=? p then Some true
      else
        id ← index body p;
        if id =? 0xFF then Some false
        else if id =? 0x02 then Some true
        else if len body <? p + 5 then Some true
        else
          b ← slice_from body (p + 1); dlen ← uint32_le b;
          if (dlen <? 0) || (len body <? p + 5 + dlen) then Some true
          else fedAuth_loop fuel body (p + (5 + dlen))
  end.

Definition fedAuth (body : bytes) : option bool :=
  if len body <? 58 then Some false
  else
    flags ← index body 27;
    if Z.land flags 0x10 =? 0 then Some false
    else
      b ← slice_from body 56; ptr ← uint16_le b;
      if (ptr <? 0) || (len body <? ptr + 4) then Some true
      else
        b ← slice_from body ptr; block ← uint32_le b;
        if (block <? 0) || (len body <=? block) then Some true
        else fedAuth_loop (S (length body)) body block.

(** ParseLogin7's [str] closure; the inner [None] is its [ok = false]. *)
Definition login_str (body : bytes) (ibOff cchOff : Z) : option (option (text * bytes)) :=
  b ← slice_from body ibOff; ib ← uint16_le b;
  b ← slice_from body cchOff; cch ← uint16_le b;
  let n := cch * 2 in
  if (ib <? 0) || (n <? 0) || (len body <? ib + n) then Some None
  else s ← slice body ib (ib + n); Some (Some (decodeUTF16LE s, s)).

Definition ParseLogin7 (body : bytes) : option (option Login7Info) :=
  if len body <? 72 then Some None
  else
    user ← login_str body 40 42;
    pass ← login_str body 44 46;
    db ← login_str body 68 70;
    match user, pass, db with
    | Some (user, _), Some (_, pass), Some (db, _) =>
        f2 ← index body 25;
        fed ← fedAuth body;
        prof ← LoginProfile body;
        Some (Some (mkLogin7 user db pass (negb (Z.land f2 0x80 =? 0)) fed prof))
    | _, _, _ => Some None
    end.

(** ** RESETCONNECTION: properties *)

Definition reset_packet (p : Packet) : Packet :=
  {| pType := pType p; pStatus := Z.lor (pStatus p) statusResetConnection;
     pRaw := alter (λ s, Z.lor s statusResetConnection) 1%nat (pRaw p); pBody := pBody p |}.

Lemma reset_packet_EOM p : EOM (reset_packet p) = EOM p.
Proof.
  unfold EOM, reset_packet; cbn. rewrite Z.land_lor_distr_l.
  by change (Z.land statusResetConnection statusEOM) with 0; rewrite Z.lor_0_r.
Qed.

Lemma len_alter {A} (f : A → A) i (l : list A) : len (alter f i l) = len l.
Proof. unfold len. by rewrite length_alter. Qed.

Lemma reset_packet_wf p : wf_packet p → wf_packet (reset_packet p).
Proof.
  intros [Hl Ht Hs Hlen Hb]. split; cbn.
  - by rewrite len_alter.
  - by rewrite list_lookup_alter_ne.
  - by rewrite list_lookup_alter, Hs.
  - rewrite !list_lookup_total_alt, !list_lookup_alter_ne by lia.
    rewrite len_alter, <- !list_lookup_total_alt. done.
  - rewrite drop_alter by (change (Z.to_nat headerLen) with 8%nat; lia). done.
Qed.

Lemma WithReset_raws p ps :
  wf_packet p → WithResetConnection (raws (p :: ps)) = raws (reset_packet p :: ps).
Proof.
  intros [Hl _ _ _ _]. unfold WithResetConnection, raws; cbn.
  pose proof (len_nonneg (concat (pRaw <$> ps))).
  rewrite (proj2 (Z.ltb_ge _ _)) by (rewrite len_app; lia).
  rewrite alter_app_l; [done|]. unfold len, headerLen in Hl. lia.
Qed.

Lemma is_message_reset p ps : is_message (p :: ps) → is_message (reset_packet p :: ps).
Proof.
  inversion 1; subst; constructor; rewrite ?reset_packet_EOM; auto using reset_packet_wf.
Qed.

(** asking for RESETCONNECTION changes nothing the backend sees but the reset request: the
    rewritten message has the length, type and body of the original, and the bytes of every packet but
    the status byte of the first one, whose RESETCONNECTION bit is set. *)
Theorem WithResetConnection_message (r : bytes) (ty : Z) (body raw rest : bytes)
    (Hm : ReadMessage r = Some (mkMessage ty body raw None rest)) :
  ReadMessage (WithResetConnection raw ++ rest)
    = Some (mkMessage ty body (WithResetConnection raw) None rest) ∧
  (∃ s, raw !! 1%nat = Some s ∧
        WithResetConnection raw = <[1%nat := Z.lor s statusResetConnection]> raw).
Proof.
  apply ReadMessage_correct in Hm as (ps & Hps & -> & -> & -> & Hty).
  destruct ps as [|p ps]; [by inversion Hps|].
  assert (Hp : wf_packet p) by (by inversion Hps). split.
  - rewrite (WithReset_raws p ps Hp). apply ReadMessage_correct.
    exists (reset_packet p :: ps). split_and!; [by apply is_message_reset|done..].
  - exists (pStatus p). pose proof (wp_status _ Hp) as Hs.
    assert (Hr : raws (p :: ps) !! 1%nat = Some (pStatus p)).
    { unfold raws; cbn. by apply lookup_app_l_Some. }
    split; [done|]. unfold WithResetConnection.
    destruct (wp_len _ Hp) as [Hl _]. rewrite (proj2 (Z.ltb_ge _ _)).
    2: { unfold raws; cbn. rewrite len_app. pose proof (len_nonneg (concat (pRaw <$> ps))). lia. }
    apply list_eq. intros [|[|i]].
    + by rewrite list_lookup_alter_ne, list_lookup_insert_ne.
    + rewrite list_lookup_alter, Hr, list_lookup_insert_eq; [done|].
      by apply lookup_lt_is_Some.
    + by rewrite list_lookup_alter_ne, list_lookup_insert_ne.
Qed.

Example WithResetConnection_message_witness :
  ReadMessage [1; 1; 0; 9; 0; 0; 1; 0; 65; 7]
    = Some (mkMessage 1 [65] [1; 1; 0; 9; 0; 0; 1; 0; 65] None [7]) ∧
  ReadMessage (WithResetConnection [1; 1; 0; 9; 0; 0; 1; 0; 65] ++ [7])
    = Some (mkMessage 1 [65] (WithResetConnection [1; 1; 0; 9; 0; 0; 1; 0; 65]) None [7]).
Proof.
  assert (H : ReadMessage [1; 1; 0; 9; 0; 0; 1; 0; 65; 7]
    = Some (mkMessage 1 [65] [1; 1; 0; 9; 0; 0; 1; 0; 65] None [7])) by reflexivity.
  split; [exact H|]. exact (proj1 (WithResetConnection_message _ _ _ _ _ H)).
Defined.

(** ** PRELOGIN: properties *)

Lemma prelogin_scan_total {A} fuel body i opt (dflt : A) k :
  (∀ off ln, is_Some (k off ln)) → 0 ≤ i → (0 < fuel)%nat → len body - i < Z.of_nat fuel →
  is_Some (prelogin_scan fuel body i opt dflt k).
Proof.
  intros Hk. revert i. induction fuel as [|fuel IH]; intros i Hi Hp Hf; [lia|]. cbn [prelogin_scan].
  destruct (Z.leb_spec (len body) i); [by eauto|].
  destruct (index_is_Some body i) as [tok ->]; [lia|]. cbn.
  case_match; [by eauto|]. destruct (Z.ltb_spec (len body) (i + 5)); [by eauto|].
  destruct (index_is_Some body (i + 1)) as [? ->]; [lia|].
  destruct (index_is_Some body (i + 2)) as [? ->]; [lia|].
  destruct (index_is_Some body (i + 3)) as [? ->]; [lia|].
  destruct (index_is_Some body (i + 4)) as [? ->]; [lia|]. cbn.
  case_match; [apply Hk|]. apply IH; lia.
Qed.

Lemma PreloginEncryption_total body : is_Some (PreloginEncryption body).
Proof.
  apply prelogin_scan_total; [|lia|lia|unfold len; lia]. intros off ln.
  case_match; [|by eauto]. bool_to_prop. by apply index_is_Some.
Qed.

Lemma PreloginRequestsMARS_total body : is_Some (PreloginRequestsMARS body).
Proof.
  apply prelogin_scan_total; [|lia|lia|unfold len; lia]. intros off ln.
  case_match; [|by eauto]. bool_to_prop.
  destruct (index_is_Some body off) as [? ->]; [lia|]. by eauto.
Qed.

(** the PRELOGIN answer the proxy builds is one well-formed TDS message, for any ENCRYPTION answer:
    a peer that reads it gets a server reply whose option table says exactly that answer and does not
    grant MARS, and nothing of what follows on the connection is consumed. *)
Theorem BuildPreloginResponse_roundtrip (enc : Z) (rest : bytes) :
  ∃ body,
    ReadMessage (BuildPreloginResponseEnc enc ++ rest)
      = Some (mkMessage TypeTabular body (BuildPreloginResponseEnc enc) None rest) ∧
    PreloginEncryption body = Some enc ∧
    PreloginRequestsMARS body = Some false.
Proof.
  set (p := mkPacket TypeTabular statusEOM (BuildPreloginResponseEnc enc)
              (drop 8 (BuildPreloginResponseEnc enc))).
  exists (pBody p). split; [|done]. apply ReadMessage_correct. exists [p].
  unfold raws, bodies; cbn [fmap list_fmap concat]. rewrite !app_nil_r.
  split_and!; [|done..]. constructor; [|done]. split; [|done..].
  split; vm_compute; discriminate.
Qed.

(** ** LOGIN7: totality *)

(** Reading a little-endian word at an offset that leaves room for it. *)
Lemma read_u32_at body p :
  wf_bytes body → 0 ≤ p → p + 4 ≤ len body →
  ∃ b n, slice_from body p = Some b ∧ uint32_le b = Some n ∧ 0 ≤ n < 2 ^ 32.
Proof.
  intros Hw Hp Hl. destruct (slice_from_is_Some body p) as (b & Hb & Hlb); [lia|].
  destruct (uint32_le_is_Some b) as [n Hn]; [lia|]. exists b, n. split_and!; try done;
    eapply uint32_le_range in Hn; try lia; by eapply slice_wf.
Qed.

Lemma read_u16_at body p :
  wf_bytes body → 0 ≤ p → p + 2 ≤ len body →
  ∃ b n, slice_from body p = Some b ∧ uint16_le b = Some n ∧ 0 ≤ n < 2 ^ 16.
Proof.
  intros Hw Hp Hl. destruct (slice_from_is_Some body p) as (b & Hb & Hlb); [lia|].
  destruct (uint16_le_is_Some b) as [n Hn]; [lia|]. exists b, n. split_and!; try done;
    eapply uint16_le_range in Hn; try lia; by eapply slice_wf.
Qed.

(** Step over one [index], [slice_from] or word read whose range follows by [lia]. *)
Ltac read_step :=
  match goal with
  | |- context [index ?b ?i] =>
      let x := fresh "x" in let H := fresh "Hx" in
      destruct (index_is_Some b i) as [x H]; [lia|]; rewrite H; cbn [mbind option_bind]
  | |- context [slice_from ?b ?i] =>
      let c := fresh "c" in let Hc := fresh "Hc" in let Hlc := fresh "Hlc" in
      destruct (slice_from_is_Some b i) as (c & Hc & Hlc); [lia|];
      assert (wf_bytes c) by (eapply slice_wf; [|exact Hc]; done);
      rewrite Hc; cbn [mbind option_bind]
  | |- context [uint32_le ?c] =>
      let n := fresh "n" in let Hn := fresh "Hn" in
      destruct (uint32_le_is_Some c) as [n Hn]; [lia|];
      rewrite Hn; cbn [mbind option_bind]; apply uint32_le_range in Hn as ?; [|done]
  | |- context [uint16_le ?c] =>
      let n := fresh "n" in let Hn := fresh "Hn" in
      destruct (uint16_le_is_Some c) as [n Hn]; [lia|];
      rewrite Hn; cbn [mbind option_bind]; apply uint16_le_range in Hn as ?; [|done]
  | |- context [slice ?b ?lo ?hi] =>
      let s := fresh "s" in let Hs := fresh "Hs" in
      destruct (slice_is_Some b lo hi) as (s & Hs & _); [lia..|];
      rewrite Hs; cbn [mbind option_bind]
  end.

Lemma fedAuth_loop_total fuel body p :
  wf_bytes body → 0 ≤ p → (0 < fuel)%nat → len body - p < Z.of_nat fuel →
  is_Some (fedAuth_loop fuel body p).
Proof.
  intros Hw. revert p. induction fuel as [|fuel IH]; intros p Hp Hf0 Hf; [lia|].
  cbn [fedAuth_loop]. destruct (Z.leb_spec (len body) p); [by eauto|].
  read_step. case_match; [by eauto|]. case_match; [by eauto|].
  destruct (Z.ltb_spec (len body) (p + 5)); [by eauto|]. do 2 read_step.
  case_match eqn:E; [by eauto|]. bool_to_prop. apply IH; lia.
Qed.

Lemma fedAuth_total body : wf_bytes body → is_Some (fedAuth body).
Proof.
  intros Hw. unfold fedAuth. destruct (Z.ltb_spec (len body) 58); [by eauto|].
  read_step. case_match; [by eauto|]. do 2 read_step.
  case_match eqn:E; [by eauto|]. bool_to_prop. do 2 read_step.
  case_match eqn:E'; [by eauto|]. bool_to_prop. apply fedAuth_loop_total; [done|lia..|unfold len; lia].
Qed.

Lemma profile_features_total fuel h body p :
  wf_bytes body → (0 < fuel)%nat → len body - p < Z.of_nat fuel →
  is_Some (profile_features fuel h body p).
Proof.
  intros Hw. revert h p. induction fuel as [|fuel IH]; intros h p Hf0 Hf; [lia|].
  cbn [profile_features]. case_match eqn:E; [by eauto|]. bool_to_prop. read_step.
  case_match; [by eauto|]. destruct (Z.ltb_spec (len body) (p + 5)); [by eauto|]. do 2 read_step.
  case_match eqn:E'; [by eauto|]. bool_to_prop. read_step. apply IH; lia.
Qed.

Lemma LoginProfile_total body : wf_bytes body → is_Some (LoginProfile body).
Proof.
  intros Hw. unfold LoginProfile.
  set (h := if 36 <=? len body then _ else _).
  assert (is_Some h) as [h' ->].
  { unfold h. destruct (Z.leb_spec 36 (len body)); [|by eauto]. do 3 read_step. by eauto. }
  cbn [mbind option_bind]. destruct (Z.ltb_spec (len body) 58); [by eauto|].
  read_step. case_match; [by eauto|]. do 2 read_step.
  case_match eqn:E; [|by eauto]. bool_to_prop. do 2 read_step.
  apply profile_features_total; [done|lia|]. unfold len in *. lia.
Qed.

Lemma login_str_total body ibOff cchOff :
  wf_bytes body → 0 ≤ ibOff → ibOff + 2 ≤ len body → 0 ≤ cchOff → cchOff + 2 ≤ len body →
  is_Some (login_str body ibOff cchOff).
Proof.
  intros Hw ????. unfold login_str. do 4 read_step.
  case_match eqn:E; [by eauto|]. bool_to_prop. read_step. by eauto.
Qed.

Lemma ParseLogin7_total body : wf_bytes body → is_Some (ParseLogin7 body).
Proof.
  intros Hb. destruct (fedAuth_total body Hb) as [fed Hfed].
  destruct (LoginProfile_total body Hb) as [prof Hprof].
  unfold ParseLogin7. destruct (Z.ltb_spec (len body) 72); [by eauto|].
  destruct (login_str_total body 40 42) as [u ->]; [done|lia..|].
  destruct (login_str_total body 44 46) as [pw ->]; [done|lia..|].
  destruct (login_str_total body 68 70) as [db ->]; [done|lia..|]. cbn [mbind option_bind].
  destruct u as [[? ?]|], pw as [[? ?]|], db as [[? ?]|]; try by eauto.
  read_step. rewrite Hfed. cbn. rewrite Hprof. by eauto.
Qed.

(** no handshake message makes the proxy panic or loop: PreloginEncryption, PreloginRequestsMARS
    and ParseLogin7 (with fedAuth and LoginProfile inside it) return on every byte string a client can
    send, and every index and slice they take is in range. *)
Theorem handshake_decoders_total (body : bytes) (Hb : wf_bytes body) :
  is_Some (PreloginEncryption body) ∧ is_Some (PreloginRequestsMARS body) ∧
  is_Some (fedAuth body) ∧ is_Some (LoginProfile body) ∧ is_Some (ParseLogin7 body).
Proof.
  split_and!; eauto using PreloginEncryption_total, PreloginRequestsMARS_total, fedAuth_total,
    LoginProfile_total, ParseLogin7_total.
Qed.

Example handshake_decoders_total_witness :
  wf_bytes (replicate 80 255) ∧ is_Some (ParseLogin7 (replicate 80 255)).
Proof.
  assert (H : wf_bytes (replicate 80 255)) by (apply Forall_replicate; unfold is_byte; lia).
  split; [exact H|]. apply (handshake_decoders_total _ H).
Defined.

(** ** LOGIN7: federated authentication *)

(** The FeatureExt block read from offset [p]: the feature ids up to a terminator, every feature
    inside the payload. *)
Inductive feature_chain (body : bytes) : Z → list Z → Prop :=
| fc_end p : index body p = Some 0xFF → feature_chain body p []
| fc_feature p id b dlen ids :
    index body p = Some id → id ≠ 0xFF →
    slice_from body (p + 1) = Some b → uint32_le b = Some dlen →
    p + 5 + dlen ≤ len body →
    feature_chain body (p + (5 + dlen)) ids →
    feature_chain body p (id :: ids).

Definition announces_features (body : bytes) : Prop :=
  58 ≤ len body ∧ ∃ flags, index body 27 = Some flags ∧ Z.land flags 0x10 ≠ 0.

(** The offset of the FeatureExt block, through the DWORD that ExtensionOffset points at. *)
Definition feature_block (body : bytes) (block : Z) : Prop :=
  ∃ b ptr c, slice_from body 56 = Some b ∧ uint16_le b = Some ptr ∧
             slice_from body ptr = Some c ∧ uint32_le c = Some block.

Lemma index_range {A} (l : list A) i x : index l i = Some x → 0 ≤ i < len l.
Proof. unfold index. case_match eqn:E; [|done]. bool_to_prop. lia. Qed.

Lemma fedAuth_loop_false fuel body p :
  wf_bytes body → 0 ≤ p → (0 < fuel)%nat → len body - p < Z.of_nat fuel →
  fedAuth_loop fuel body p = Some false ↔ ∃ ids, feature_chain body p ids ∧ 0x02 ∉ ids.
Proof.
  intros Hw. revert p. induction fuel as [|fuel IH]; intros p Hp Hf0 Hf; [lia|].
  assert (Hin : ∀ ids, feature_chain body p ids → p < len body).
  { intros ids. by inversion 1; subst; edestruct (index_range body p); eauto. }
  cbn [fedAuth_loop]. destruct (Z.leb_spec (len body) p).
  { split; [done|]. intros (ids & Hc & _). apply Hin in Hc. lia. }
  read_step. destruct (Z.eqb_spec x 0xFF) as [->|Hne].
  { split; [|done]. exists []. split; [by constructor|]. set_solver. }
  destruct (Z.eqb_spec x 0x02) as [->|Hne2].
  { split; [done|]. intros (ids & Hc & Hn). inversion Hc; simplify_eq. set_solver. }
  destruct (Z.ltb_spec (len body) (p + 5)).
  { split; [done|]. intros (ids & Hc & _). inversion Hc; simplify_eq.
    apply uint32_le_range in H4; [lia|]. by eapply slice_wf. }
  destruct (read_u32_at body (p + 1)) as (b & dlen & Hb & Hd & Hr); [done|lia..|].
  rewrite Hb. cbn [mbind option_bind]. rewrite Hd. cbn [mbind option_bind].
  destruct (Z.ltb_spec dlen 0); [lia|]. cbn [orb].
  destruct (Z.ltb_spec (len body) (p + 5 + dlen)).
  { split; [done|]. intros (ids & Hc & _). inversion Hc; simplify_eq. lia. }
  rewrite IH by lia. split.
  - intros (ids & Hc & Hn). exists (x :: ids). split; [by econstructor|]. set_solver.
  - intros (ids & Hc & Hn). inversion Hc; simplify_eq. exists ids0. split; [done|]. set_solver.
Qed.

(** fedAuth fails safe: it reports a login as not federated exactly when no FeatureExt block is
    announced, or the announced block is well formed up to its terminator and holds no FEDAUTH
    feature.  Every truncated, unterminated or out-of-range block is refused. *)
Theorem fedAuth_fails_safe (body : bytes) (Hw : wf_bytes body) :
  fedAuth body = Some false ↔
  ¬ announces_features body ∨
  ∃ block ids, feature_block body block ∧ feature_chain body block ids ∧ 0x02 ∉ ids.
Proof.
  unfold fedAuth, announces_features. destruct (Z.ltb_spec (len body) 58).
  { split; [|done]. intros _. left. lia. }
  destruct (index_is_Some body 27) as [flags Hfl]; [lia|]. rewrite Hfl. cbn [mbind option_bind].
  destruct (Z.eqb_spec (Z.land flags 0x10) 0) as [Hz|Hz].
  { split; [|done]. intros _. left. intros (_ & fl & Hf & Hn). simplify_eq. }
  destruct (read_u16_at body 56) as (b & ptr & Hb & Hptr & Hr); [done|lia..|].
  rewrite Hb. cbn [mbind option_bind]. rewrite Hptr. cbn [mbind option_bind].
  assert (Hann : ∀ P : Prop, (¬ (58 ≤ len body ∧ ∃ f, Some flags = Some f ∧ Z.land f 0x10 ≠ 0) ∨ P) ↔ P).
  { intros P. split; [|by right]. intros [Hn|]; [|done]. exfalso. apply Hn. eauto. }
  rewrite Hann. unfold feature_block.
  assert (Hblk : ∀ block, (∃ b' ptr' c, slice_from body 56 = Some b' ∧ uint16_le b' = Some ptr' ∧
            slice_from body ptr' = Some c ∧ uint32_le c = Some block) →
          ∃ c, slice_from body ptr = Some c ∧ uint32_le c = Some block ∧ ptr + 4 ≤ len body).
  { intros block (b' & ptr' & c & ? & ? & Hc & Hu). simplify_eq. exists c. split_and!; [done..|].
    apply uint32_le_len in Hu. apply slice_from_len in Hc. lia. }
  destruct (Z.ltb_spec ptr 0); [lia|]. cbn [orb].
  destruct (Z.ltb_spec (len body) (ptr + 4)).
  { split; [done|]. intros (block & ids & (c & _ & _ & ?)%Hblk & _). lia. }
  destruct (read_u32_at body ptr) as (c & block & Hc & Hu & Hr'); [done|lia..|].
  rewrite Hc. cbn [mbind option_bind]. rewrite Hu. cbn [mbind option_bind].
  destruct (Z.ltb_spec block 0); [lia|]. cbn [orb].
  assert (Hiff : fedAuth_loop (S (length body)) body block = Some false ↔
    ∃ block' ids, (∃ b' ptr' c', slice_from body 56 = Some b' ∧ uint16_le b' = Some ptr' ∧
      slice_from body ptr' = Some c' ∧ uint32_le c' = Some block') ∧
      feature_chain body block' ids ∧ 0x02 ∉ ids).
  { rewrite fedAuth_loop_false by (done || lia || (unfold len; lia)). split.
    - intros (ids & ? & ?). exists block, ids. split; [by exists b, ptr, c|done].
    - intros (block' & ids & (c' & ? & ? & _)%Hblk & ? & ?). simplify_eq. eauto. }
  destruct (Z.leb_spec (len body) block); [|exact Hiff].
  rewrite <- Hiff. cbn [fedAuth_loop]. by rewrite (proj2 (Z.leb_le _ _)).
Qed.

Example fedAuth_fails_safe_witness :
  wf_bytes (replicate 80 255) ∧ (fedAuth (replicate 80 255) = Some false ↔
    ¬ announces_features (replicate 80 255) ∨
    ∃ block ids, feature_block (replicate 80 255) block ∧
      feature_chain (replicate 80 255) block ids ∧ 0x02 ∉ ids).
Proof.
  assert (H : wf_bytes (replicate 80 255)) by (apply Forall_replicate; unfold is_byte; lia).
  split; [exact H|]. exact (fedAuth_fails_safe _ H).
Defined.
