(* ===== verification/Regex.v ===== *)
(** * Go's regexp, for the patterns the TDS classifier uses

    Leftmost-first matching over the runes of a text: literals and classes, concatenation, alternation,
    greedy repetition, the multi-line [^] and the ASCII word boundary [\b].  The matcher lists the
    positions a pattern can reach from a position, preferred first; [steps_spec] relates it to the
    declarative [matches], and the substring lemmas are what the classifier's proofs use. *)

From S2P Require Import Prelude TdsFrame.
#[local] Open Scope Z_scope.

Inductive re :=
| RSet (f : Z → bool)
| RCat (a b : re)
| RAlt (a b : re)
| REps
| RStar (a : re)
| RBol
| RWordB.

(** A position in a text: the rune before it and the runes after it. *)
Abbreviation pos := (option Z * list Z)%type.

(** [\w]: an ASCII word character. *)
Definition is_word (c : Z) : bool :=
  ((48 <=? c) && (c <=? 57)) || ((65 <=? c) && (c <=? 90)) || ((97 <=? c) && (c <=? 122)) || (c =? 95).
Definition opt_word (c : option Z) : bool := from_option is_word false c.

Definition at_bol (p : pos) : bool := match p.1 with None => true | Some c => c =? 10 end.
Definition at_wordb (p : pos) : bool := negb (eqb (opt_word p.1) (opt_word (head p.2))).

(** ** The matcher *)

Fixpoint star_steps (f : pos → list pos) (n : nat) (p : pos) : list pos :=
  match n with
  | O => [p]
  | S n =>
      (List.filter (λ q, Nat.ltb (length q.2) (length p.2)) (f p) ≫= star_steps f n) ++ [p]
  end.

Fixpoint steps (r : re) (p : pos) : list pos :=
  match r with
  | RSet f => match p.2 with c :: rest => if f c then [(Some c, rest)] else [] | [] => [] end
  | RCat a b => steps a p ≫= steps b
  | RAlt a b => steps a p ++ steps b p
  | REps => [p]
  | RStar a => star_steps (steps a) (length p.2) p
  | RBol => if at_bol p then [p] else []
  | RWordB => if at_wordb p then [p] else []
  end.

(** The positions of a text, leftmost first. *)
Fixpoint positions (prev : option Z) (t : list Z) : list pos :=
  (prev, t) :: match t with [] => [] | c :: t => positions (Some c) t end.

Definition nonempty {A} (l : list A) : bool := match l with [] => false | _ => true end.

(** MatchString. *)
Definition MatchString (r : re) (t : text) : bool :=
  existsb (λ p, nonempty (steps r p)) (positions None t).

(** ** Patterns *)

(** The runes that (?i) folds with the ASCII letter [c]: its other case, and U+017F with [s] and
    U+212A with [k]. *)
Definition fold_eq (c d : Z) : bool :=
  (c =? d)
  || ((97 <=? c) && (c <=? 122) && (d =? c - 32))
  || ((65 <=? c) && (c <=? 90) && (d =? c + 32))
  || (((c =? 115) || (c =? 83)) && (d =? 0x17f))
  || (((c =? 107) || (c =? 75)) && (d =? 0x212a)).

Fixpoint lit_runes (t : text) : re :=
  match t with [] => REps | c :: t => RCat (RSet (fold_eq c)) (lit_runes t) end.

(** A case-insensitive literal. *)
Definition lit (s : string) : re := lit_runes (tx s).

(** [\s]: tab, newline, form feed, carriage return, space. *)
Definition is_space_re (c : Z) : bool := (c =? 9) || (c =? 10) || (c =? 12) || (c =? 13) || (c =? 32).
Definition sp : re := RSet is_space_re.
Definition plus (r : re) : re := RCat r (RStar r).
Definition opt (r : re) : re := RAlt r REps.
(** [.] under (?s). *)
Definition dot_all : re := RSet (λ _, true).
(** [a-z_] under (?i). *)
Definition ident_char : re :=
  RSet (λ c, ((97 <=? c) && (c <=? 122)) || ((65 <=? c) && (c <=? 90)) || (c =? 95)
             || (c =? 0x17f) || (c =? 0x212a)).
Definition word_char : re := RSet is_word.

Fixpoint seq_re (rs : list re) : re :=
  match rs with [] => REps | [r] => r | r :: rs => RCat r (seq_re rs) end.

(** FindStringSubmatch's first group, for a pattern [pre(grp)] that ends in its group: the leftmost
    match of [pre], extended by the preferred match of [grp]. *)
Definition first_group (pre grp : re) (p : pos) : option text :=
  head (steps pre p ≫= λ q, (λ e : pos, take (length q.2 - length e.2) q.2) <$> steps grp q).

Definition FindGroup (pre grp : re) (t : text) : option text :=
  head (omap (first_group pre grp) (positions None t)).

(** ** Declarative matching *)

Inductive matches : re → pos → pos → Prop :=
| m_set f prev c rest : f c = true → matches (RSet f) (prev, c :: rest) (Some c, rest)
| m_cat a b p q s : matches a p q → matches b q s → matches (RCat a b) p s
| m_alt_l a b p q : matches a p q → matches (RAlt a b) p q
| m_alt_r a b p q : matches b p q → matches (RAlt a b) p q
| m_eps p : matches REps p p
| m_star_nil a p : matches (RStar a) p p
| m_star_cons a p q s :
    matches a p q → (length q.2 < length p.2)%nat → matches (RStar a) q s → matches (RStar a) p s
| m_bol p : at_bol p = true → matches RBol p p
| m_wordb p : at_wordb p = true → matches RWordB p p.

Lemma steps_sound r p q : q ∈ steps r p → matches r p q.
Proof.
  revert p q. induction r as [f|a IHa b IHb|a IHa b IHb| |a IHa| |]; intros p q; cbn [steps].
  - destruct p as [prev [|c rest]]; cbn; [set_solver|]. case_match; [|set_solver].
    intros ->%list_elem_of_singleton. by constructor.
  - intros (s & Hq & Hs)%list_elem_of_bind. econstructor; eauto.
  - rewrite elem_of_app. intros [?|?]; [apply m_alt_l|apply m_alt_r]; auto.
  - intros ->%list_elem_of_singleton. constructor.
  - generalize (length p.2) as n. intros n. revert p. induction n as [|n IHn]; intros p; cbn.
    { intros ->%list_elem_of_singleton. constructor. }
    rewrite elem_of_app, list_elem_of_bind, list_elem_of_singleton.
    intros [(s & Hq & Hs)| ->]; [|constructor].
    apply list_elem_of_In, filter_In in Hs as [Hs Hlt]. apply Nat.ltb_lt in Hlt.
    econstructor; [apply IHa, list_elem_of_In, Hs|done|by apply IHn].
  - case_match; [|set_solver]. intros ->%list_elem_of_singleton. by constructor.
  - case_match; [|set_solver]. intros ->%list_elem_of_singleton. by constructor.
Qed.

Lemma star_steps_complete f a n p q :
  (∀ p q, matches a p q → q ∈ f p) → matches (RStar a) p q → (length p.2 <= n)%nat →
  q ∈ star_steps f n p.
Proof.
  intros Hf Hm. remember (RStar a) as r eqn:Er. revert n.
  induction Hm as [| | | | |a' p|a' p x s Hm1 _ Hlt Hm2 IH| |]; simplify_eq; intros n Hn.
  - destruct n; cbn; set_solver.
  - destruct n as [|n]; [lia|]. cbn. rewrite elem_of_app. left.
    apply list_elem_of_bind. exists x. split; [apply IH; [done|lia]|].
    apply list_elem_of_In, filter_In. split; [|by apply Nat.ltb_lt]. by apply list_elem_of_In, Hf.
Qed.

Lemma steps_complete r p q : matches r p q → q ∈ steps r p.
Proof.
  revert p q. induction r as [f|a IHa b IHb|a IHa b IHb| |a IHa| |]; intros p q Hm; cbn [steps].
  - inversion Hm as [? ? ? ? Hf| | | | | | | |]; subst; cbn. rewrite Hf. set_solver.
  - inversion Hm; subst. apply list_elem_of_bind. eauto.
  - inversion Hm; subst; apply elem_of_app; auto.
  - inversion Hm; set_solver.
  - by apply star_steps_complete with (a := a).
  - inversion Hm as [| | | | | | |? Hb|]; subst. rewrite Hb. set_solver.
  - inversion Hm as [| | | | | | | |? Hb]; subst. rewrite Hb. set_solver.
Qed.

(** The matcher computes exactly the declarative relation. *)
Lemma steps_spec r p q : q ∈ steps r p ↔ matches r p q.
Proof. split; [apply steps_sound|apply steps_complete]. Qed.

Lemma positions_app prev t1 t2 :
  (match rev t1 with [] => prev | c :: _ => Some c end, t2) ∈ positions prev (t1 ++ t2).
Proof.
  revert prev. induction t1 as [|c t1 IH]; intros prev; cbn.
  - destruct t2; cbn; set_solver.
  - apply list_elem_of_further. specialize (IH (Some c)).
    destruct (rev t1) as [|d l]; cbn; done.
Qed.

(** A pattern matches a text when it matches from some position in it. *)
Lemma MatchString_intro r t1 t2 q :
  matches r (match rev t1 with [] => None | c :: _ => Some c end, t2) q →
  MatchString r (t1 ++ t2) = true.
Proof.
  intros Hm. apply existsb_exists. eexists. split; [apply list_elem_of_In, positions_app|].
  apply steps_complete in Hm. by destruct (steps r _); [set_solver|].
Qed.

Lemma MatchString_mono r r' t :
  (∀ p q, matches r p q → matches r' p q) → MatchString r t = true → MatchString r' t = true.
Proof.
  intros Hr. unfold MatchString. rewrite !existsb_exists. intros (p & Hp & Hn). exists p.
  split; [done|]. destruct (steps r p) as [|q l] eqn:E; [done|].
  assert (Hq : matches r' p q) by (apply Hr, steps_sound; rewrite E; set_solver).
  apply steps_complete in Hq. by destruct (steps r' p); [set_solver|].
Qed.

Lemma matches_assoc a b c p q : matches (RCat a (RCat b c)) p q → matches (RCat (RCat a b) c) p q.
Proof.
  inversion 1 as [|? ? ? x ? Ha Hbc| | | | | | |]; subst.
  inversion Hbc as [|? ? ? y ? Hb Hc| | | | | | |]; subst. eauto using matches.
Qed.

(** ** Literals and repetitions inside a text *)

Definition last_rune (prev : option Z) (t : text) : option Z :=
  match rev t with [] => prev | c :: _ => Some c end.

Lemma last_rune_cons prev c t : last_rune prev (c :: t) = last_rune (Some c) t.
Proof.
  unfold last_rune. cbn. destruct (rev t) as [|d l] eqn:E; cbn; [done|]. done.
Qed.

(** [w] spells the literal up to case. *)
Definition folds (t w : text) : Prop := Forall2 (λ c d, fold_eq c d = true) t w.

Lemma matches_lit t w prev rest :
  folds t w → matches (lit_runes t) (prev, w ++ rest) (last_rune prev w, rest).
Proof.
  intros H. revert prev. induction H as [|c d t w Hc _ IH]; intros prev; cbn [lit_runes app].
  - constructor.
  - econstructor; [by constructor|]. rewrite last_rune_cons. apply IH.
Qed.

Lemma matches_star f w prev rest :
  Forall (λ c, f c = true) w →
  matches (RStar (RSet f)) (prev, w ++ rest) (last_rune prev w, rest).
Proof.
  intros H. revert prev. induction H as [|c w Hc _ IH]; intros prev; cbn [app].
  - constructor.
  - econstructor; [by constructor|cbn; lia|]. rewrite last_rune_cons. apply IH.
Qed.

Lemma matches_plus f w prev rest :
  w ≠ [] → Forall (λ c, f c = true) w →
  matches (plus (RSet f)) (prev, w ++ rest) (last_rune prev w, rest).
Proof.
  intros Hn H. destruct H as [|c w Hc Hw]; [done|]. cbn [app].
  econstructor; [by constructor|]. rewrite last_rune_cons. by apply matches_star.
Qed.

Definition blank (w : text) : Prop := w ≠ [] ∧ Forall (λ c, is_space_re c = true) w.

Lemma matches_blank w prev rest :
  blank w → matches (plus sp) (prev, w ++ rest) (last_rune prev w, rest).
Proof. intros [? ?]. by apply matches_plus. Qed.
