(* ===== verification/TdsClassify.v ===== *)
(** * The pin classifier (tds-proxy/classify/classify.go)

    Decides, for one client message, whether it leaves session state on the backend that makes the
    connection unsafe to hand to another client. *)

From S2P Require Import Prelude TdsFrame Regex.
#[local] Open Scope Z_scope.

Record Verdict := mkVerdict {
  vPin : bool;
  vReason : text;
  vPrelude : bool;
  vTxn : bool;
  vImplicitTxn : bool;
}.

Definition multiplexable : Verdict := mkVerdict false [] false false false.

(** A verdict that pins, for [Verdict{Pin: true, Reason: …}]. *)
Definition pin (reason : text) : Verdict := mkVerdict true reason false false false.

(** ** The pin-triggering patterns *)

(** [(?im)^\s*set\s+([a-z_]+)], up to its group *)
Definition reSetOption_pre : re := seq_re [RBol; RStar sp; lit "set"; plus sp].
Definition reSetOption : re := RCat reSetOption_pre (plus ident_char).
(** [(?is)set\s+transaction\s+isolation\s+level] *)
Definition reIsolation : re :=
  seq_re [lit "set"; plus sp; lit "transaction"; plus sp; lit "isolation"; plus sp; lit "level"].
(** [(?is)set\s+context_info] *)
Definition reContextI : re := seq_re [lit "set"; plus sp; lit "context_info"].
(** [(?is)create\s+table\s+#] *)
Definition reTempTable : re := seq_re [lit "create"; plus sp; lit "table"; plus sp; lit "#"].
(** [(?is)declare\s+.*\s+cursor\b] *)
Definition reCursor : re :=
  seq_re [lit "declare"; plus sp; RStar dot_all; plus sp; lit "cursor"; RWordB].
(** [(?im)^\s*use\s+\w] *)
Definition reUseDB : re := seq_re [RBol; RStar sp; lit "use"; plus sp; word_char].
(** [(?is)begin\s+tran(saction)?\b] *)
Definition reBeginTran : re :=
  seq_re [lit "begin"; plus sp; lit "tran"; opt (lit "saction"); RWordB].
(** [(?is)sp_getapplock] *)
Definition reAppLock : re := lit "sp_getapplock".
(** [(?im)^\s*waitfor\s] *)
Definition reWaitFor : re := seq_re [RBol; RStar sp; lit "waitfor"; sp].
(** [(?is)sp_set_session_context] *)
Definition reSetContext : re := lit "sp_set_session_context".
(** [(?is)set\s+implicit_transactions\s+on\b] *)
Definition reImplicitTx : re :=
  seq_re [lit "set"; plus sp; lit "implicit_transactions"; plus sp; lit "on"; RWordB].

Definition maxStatementBytes : Z := 16 * 1024.

(** ** SET-only batches *)

(** strings.FieldsFunc at [;] and newline: the maximal runs of other runes, empty ones dropped. *)
Fixpoint fields_func (f : Z → bool) (cur : text) (t : text) : list text :=
  match t with
  | [] => match cur with [] => [] | _ => [rev cur] end
  | c :: t =>
      if f c then match cur with [] => fields_func f [] t | _ => rev cur :: fields_func f [] t end
      else fields_func f (c :: cur) t
  end.

(** unicode.IsSpace *)
Definition is_space (c : Z) : bool :=
  ((9 <=? c) && (c <=? 13)) || (c =? 32) || (c =? 0x85) || (c =? 0xa0) || (c =? 0x1680)
  || ((0x2000 <=? c) && (c <=? 0x200a)) || (c =? 0x2028) || (c =? 0x2029) || (c =? 0x202f)
  || (c =? 0x205f) || (c =? 0x3000).

Fixpoint trim_left (t : text) : text :=
  match t with c :: t' => if is_space c then trim_left t' else t | [] => [] end.
Definition TrimSpace (t : text) : text := rev (trim_left (rev (trim_left t))).

(** The loop of isSetOnly over the statements, with [found]. *)
Fixpoint set_only_loop (found : bool) (stmts : list text) : bool :=
  match stmts with
  | [] => found
  | raw :: stmts =>
      let stmt := TrimSpace raw in
      match stmt with
      | [] => set_only_loop found stmts
      | _ =>
          if MatchString reContextI stmt || MatchString reSetContext stmt then false
          else if MatchString reIsolation stmt || MatchString reSetOption stmt
          then set_only_loop true stmts
          else false
      end
  end.

Definition isSetOnly (t : text) : bool :=
  set_only_loop false (fields_func (λ r, (r =? 59) || (r =? 10)) [] t).

(** ** SQL batches *)

Definition classifyBatch (t : text) : Verdict :=
  if maxStatementBytes <? text_len t then pin (tx "statement text > 16KB")
  else if MatchString reIsolation t then
    mkVerdict true (tx "SET TRANSACTION ISOLATION LEVEL") (isSetOnly t) false false
  else if MatchString reContextI t || MatchString reSetContext t then
    pin (tx "session context (CONTEXT_INFO)")
  else if MatchString reTempTable t then pin (tx "temp table (#" ++ [0x2026] ++ tx ")")
  else if MatchString reCursor t then pin (tx "cursor")
  else if MatchString reUseDB t then pin (tx "USE database (context change)")
  else if MatchString reBeginTran t then
    mkVerdict true (tx "explicit transaction") false true false
  else if MatchString reAppLock t then pin (tx "session-scoped applock")
  else if MatchString reWaitFor t then pin (tx "WAITFOR")
  else
    match FindGroup reSetOption_pre (plus ident_char) t with
    | Some m1 =>
        mkVerdict true (tx "SET session option (" ++ m1 ++ tx ")") (isSetOnly t) false
          (MatchString reImplicitTx t)
    | None => multiplexable
    end.

(** ** RPCs *)

Definition readOnlyCatalogRPC : list text :=
  tx <$> ["sp_column_privileges"; "sp_column_privileges_ex";
          "sp_columns"; "sp_columns_ex"; "sp_columns_100";
          "sp_databases";
          "sp_datatype_info"; "sp_datatype_info_100";
          "sp_fkeys"; "sp_pkeys";
          "sp_server_info";
          "sp_special_columns"; "sp_special_columns_100";
          "sp_sproc_columns"; "sp_sproc_columns_100";
          "sp_statistics"; "sp_statistics_100";
          "sp_stored_procedures";
          "sp_table_privileges"; "sp_table_privileges_ex";
          "sp_tables"; "sp_tables_ex"]%string.

(** unicode.ToLower, as far as the names compared with can tell: the ASCII letters, and the two other
    runes whose lower case is ASCII (U+0130, U+212A).  Any other rune lowers to a non-ASCII rune, which
    no name below holds; it is left as it is. *)
Definition to_lower (c : Z) : Z :=
  if (65 <=? c) && (c <=? 90) then c + 32
  else if c =? 0x130 then 105 else if c =? 0x212a then 107 else c.

(** Everything after the last [.], the whole text when there is none. *)
Fixpoint after_last_dot (t : text) : text :=
  match t with
  | [] => []
  | c :: t' => if existsb (Z.eqb 46) t' then after_last_dot t' else if c =? 46 then t' else t
  end.

Definition normalizeProc (proc : text) : text :=
  let p := to_lower <$> TrimSpace proc in
  List.filter (λ c, negb ((c =? 91) || (c =? 93))) (after_last_dot p).

(** [name] is one of the names of a [case]. *)
Definition one_of (name : text) (names : list string) : bool :=
  bool_decide (name ∈ tx <$> names).

Definition classifyRPC (proc : text) : Verdict :=
  if bool_decide (proc = []) then pin (tx "unparseable RPC (fail-safe)")
  else
    let name := normalizeProc proc in
    if one_of name ["sp_executesql"; "sp_execute"; "sp_unprepare"; "sp_cursorclose";
                    "sp_cursorunprepare"]%string then multiplexable
    else if bool_decide (name ∈ readOnlyCatalogRPC) then multiplexable
    else if one_of name ["sp_prepare"; "sp_prepexec"; "sp_prepexecrpc"]%string then
      pin (tx "server-side prepared handle (" ++ name ++ tx ")")
    else if one_of name ["sp_cursor"; "sp_cursoropen"; "sp_cursorprepare"; "sp_cursorprepexec";
                         "sp_cursorexecute"; "sp_cursorfetch"; "sp_cursoroption"]%string then
      pin (tx "cursor (" ++ name ++ tx ")")
    else pin (tx "unrecognized RPC (" ++ proc ++ tx ", fail-safe)").

(** ** Messages *)

(** [None] is a panic of the body decoders, which [body_decoders_total] excludes. *)
Definition Classify (msgType : Z) (body : bytes) : option Verdict :=
  if msgType =? TypeSQLBatch then classifyBatch <$> BatchText body
  else if msgType =? TypeRPC then classifyRPC <$> RPCProc body
  else if msgType =? TypeBulkLoad then Some (pin (tx "bulk load stream"))
  else if msgType =? TypeTxMgr then
    Some (mkVerdict true (tx "transaction manager request (explicit txn/savepoint)") false true false)
  else if (msgType =? TypeLogin7) || (msgType =? TypePreLogin) || (msgType =? TypeSSPI)
          || (msgType =? TypeFedAuth) || (msgType =? TypeAttention) then Some multiplexable
  else Some (pin (tx "unrecognized message type " ++ TypeName msgType)).

(** ** SQL batches: properties *)

Definition pin_patterns : list re :=
  [reIsolation; reContextI; reSetContext; reTempTable; reCursor; reUseDB; reBeginTran; reAppLock; reWaitFor].

Lemma FindGroup_None_iff pre grp t :
  FindGroup pre grp t = None ↔ MatchString (RCat pre grp) t = false.
Proof.
  unfold FindGroup, MatchString. induction (positions None t) as [|p ps IH]; [done|]. cbn [omap list_omap existsb].
  assert (Hp : first_group pre grp p = None ↔ nonempty (steps (RCat pre grp) p) = false).
  { unfold first_group. cbn [steps]. induction (steps pre p) as [|q qs IHq]; [done|]. cbn.
    destruct (steps grp q) as [|e es]; cbn; [apply IHq|done]. }
  destruct (first_group pre grp p) eqn:E1, (nonempty _) eqn:E2; cbn; try tauto.
  - by destruct Hp as [_ Hp]; specialize (Hp eq_refl).
  - by destruct Hp as [Hp _]; specialize (Hp eq_refl).
Qed.

Lemma classifyBatch_unpinned t :
  vPin (classifyBatch t) = false →
  text_len t ≤ maxStatementBytes ∧ Forall (λ r, MatchString r t = false) (reSetOption :: pin_patterns).
Proof.
  unfold classifyBatch, pin_patterns.
  repeat case_match; try done; intros _; bool_to_prop; split; [lia|].
  match goal with H : FindGroup _ _ _ = None |- _ => apply FindGroup_None_iff in H end.
  repeat constructor; done.
Qed.

Lemma pinned_by r t :
  r ∈ reSetOption :: pin_patterns → MatchString r t = true → vPin (classifyBatch t) = true.
Proof.
  intros Hr Hm. destruct (vPin (classifyBatch t)) eqn:E; [done|].
  apply classifyBatch_unpinned in E as [_ Hall]. rewrite Forall_forall in Hall.
  rewrite (Hall r Hr) in Hm. done.
Qed.

(** ** Batches that leave session state *)

(** The words of [s], in any letter case. *)
Definition word (s : string) (w : text) : Prop := folds (tx s) w.

(** The next rune, if any, is no ASCII word character. *)
Definition word_end (t : text) : Prop := opt_word (head t) = false.

(** A line starts here, after optional white space. *)
Definition line_start (pre : text) : Prop :=
  ∃ p b, pre = p ++ b ∧ Forall (λ c, is_space_re c = true) b ∧
         (p = [] ∨ ∃ p', p = p' ++ [10]).

(** SQL that leaves state on the session: temp tables, cursors, explicit transactions, application
    locks, session context and session options, a change of database, anywhere in a batch. *)
Inductive leaves_state : text → Prop :=
| ls_temp_table pre c b1 t b2 post :
    word "create" c → blank b1 → word "table" t → blank b2 →
    leaves_state (pre ++ c ++ b1 ++ t ++ b2 ++ 35 :: post)
| ls_cursor pre d b1 mid b2 c post :
    word "declare" d → blank b1 → blank b2 → word "cursor" c → word_end post →
    leaves_state (pre ++ d ++ b1 ++ mid ++ b2 ++ c ++ post)
| ls_begin_tran pre b b1 t post :
    word "begin" b → blank b1 → (word "tran" t ∨ word "transaction" t) → word_end post →
    leaves_state (pre ++ b ++ b1 ++ t ++ post)
| ls_applock pre a post : word "sp_getapplock" a → leaves_state (pre ++ a ++ post)
| ls_session_context pre a post : word "sp_set_session_context" a → leaves_state (pre ++ a ++ post)
| ls_context_info pre s b1 c post :
    word "set" s → blank b1 → word "context_info" c → leaves_state (pre ++ s ++ b1 ++ c ++ post)
| ls_isolation pre s b1 t b2 i b3 l post :
    word "set" s → blank b1 → word "transaction" t → blank b2 → word "isolation" i →
    blank b3 → word "level" l →
    leaves_state (pre ++ s ++ b1 ++ t ++ b2 ++ i ++ b3 ++ l ++ post)
| ls_use pre u b1 d post :
    line_start pre → word "use" u → blank b1 → is_word d = true →
    leaves_state (pre ++ u ++ b1 ++ d :: post)
| ls_set pre s b1 o post :
    line_start pre → word "set" s → blank b1 → (97 ≤ o ≤ 122 ∨ 65 ≤ o ≤ 90 ∨ o = 95) →
    leaves_state (pre ++ s ++ b1 ++ o :: post).

Lemma MatchString_line_start r pre t :
  line_start pre → (∀ prev, ∃ q, matches r (prev, t) q) →
  MatchString (RCat RBol (RCat (RStar sp) r)) (pre ++ t) = true.
Proof.
  intros (p & b & -> & Hb & Hp) Hr. destruct (Hr (last_rune (last_rune None p) b)) as [q Hq].
  rewrite <- app_assoc. apply MatchString_intro with (q := q).
  econstructor; [|econstructor; [by apply matches_star|exact Hq]]. constructor.
  destruct Hp as [->|[p' ->]]; [done|]. unfold at_bol, last_rune; cbn [fst]. by rewrite List.rev_app_distr.
Qed.

Lemma MatchString_anywhere r pre t :
  (∀ prev, ∃ q, matches r (prev, t) q) → MatchString r (pre ++ t) = true.
Proof.
  intros Hr. destruct (Hr (match rev pre with [] => None | c :: _ => Some c end)) as [q Hq].
  by eapply MatchString_intro.
Qed.

Lemma fold_eq_word c d : is_word c = true → c ≠ 115 → c ≠ 83 → c ≠ 107 → c ≠ 75 →
  fold_eq c d = true → is_word d = true.
Proof.
  unfold fold_eq, is_word. rewrite !orb_true_iff, !andb_true_iff, !orb_true_iff, !Z.leb_le, !Z.eqb_eq. lia.
Qed.

Lemma last_rune_app prev a b : last_rune prev (a ++ b) = last_rune (last_rune prev a) b.
Proof.
  revert prev. induction a as [|c a IH]; intros prev; [done|].
  cbn [app]. by rewrite !last_rune_cons.
Qed.

(** A word that ends in [n] or [r] leaves the matcher at a word boundary when no word character
    follows. *)
Lemma word_boundary prev t w post c :
  folds (t ++ [c]) w → is_word c = true → c ≠ 115 → c ≠ 83 → c ≠ 107 → c ≠ 75 → word_end post →
  matches RWordB (last_rune prev w, post) (last_rune prev w, post).
Proof.
  intros Hf Hc ???? Hp. apply Forall2_app_inv_l in Hf as (w1 & w2 & _ & Hw2 & ->).
  inversion Hw2 as [|? d ? k Hd Hk]; subst. inversion Hk; subst.
  constructor. unfold at_wordb; cbn. rewrite Hp, last_rune_app. unfold last_rune at 1; cbn.
  by rewrite (fold_eq_word c d).
Qed.

Ltac match_words :=
  repeat match goal with
  | |- matches (RCat _ _) _ _ => eapply m_cat
  | H : word _ ?w |- matches (lit _) (_, ?w ++ _) _ => apply matches_lit; exact H
  | H : blank ?w |- matches (plus sp) (_, ?w ++ _) _ => apply matches_blank; exact H
  end.

Lemma reSetOption_assoc p q :
  matches (RCat RBol (RCat (RStar sp) (RCat (lit "set") (RCat (plus sp) (plus ident_char))))) p q →
  matches reSetOption p q.
Proof.
  unfold reSetOption, reSetOption_pre; cbn [seq_re]. intros Hm.
  apply matches_assoc. inversion Hm as [|? ? ? x ? Ha Hm1| | | | | | |]; subst.
  econstructor; [exact Ha|]. apply matches_assoc.
  inversion Hm1 as [|? ? ? y ? Hb Hm2| | | | | | |]; subst.
  econstructor; [exact Hb|]. by apply matches_assoc.
Qed.

Lemma leaves_state_pins (t : text) : leaves_state t → vPin (classifyBatch t) = true.
Proof.
  destruct 1.
  - apply (pinned_by reTempTable); [unfold pin_patterns; set_solver|].
    apply MatchString_anywhere. intros prev. eexists. unfold reTempTable; cbn [seq_re].
    match_words. apply (matches_lit [35] [35]). by repeat constructor.
  - apply (pinned_by reCursor); [unfold pin_patterns; set_solver|].
    apply MatchString_anywhere. intros prev. eexists. unfold reCursor; cbn [seq_re].
    match_words; [by apply (matches_star _ mid), Forall_true|match_words..].
    by apply (word_boundary _ (tx "curso") _ _ 114).
  - apply (pinned_by reBeginTran); [unfold pin_patterns; set_solver|].
    apply MatchString_anywhere. intros prev. unfold reBeginTran; cbn [seq_re].
    match goal with H : _ ∨ _ |- _ => destruct H as [Ht|Ht] end.
    + eexists. match_words; [apply m_alt_r, m_eps|]. by apply (word_boundary _ (tx "tra") _ _ 110).
    + pose proof Ht as Ht'. apply (Forall2_app_inv_l _ (tx "tran") (tx "saction")) in Ht as (t1 & t2 & Hx1 & Hx2 & ->).
      rewrite <- app_assoc. eexists. match_words; [apply matches_lit, Hx1|apply m_alt_l, matches_lit, Hx2|].
      rewrite <- last_rune_app. by apply (word_boundary _ (tx "transactio") _ _ 110).
  - apply (pinned_by reAppLock); [unfold pin_patterns; set_solver|].
    apply MatchString_anywhere. intros prev. eexists. unfold reAppLock. match_words.
  - apply (pinned_by reSetContext); [unfold pin_patterns; set_solver|].
    apply MatchString_anywhere. intros prev. eexists. unfold reSetContext. match_words.
  - apply (pinned_by reContextI); [unfold pin_patterns; set_solver|].
    apply MatchString_anywhere. intros prev. eexists. unfold reContextI; cbn [seq_re]. match_words.
  - apply (pinned_by reIsolation); [unfold pin_patterns; set_solver|].
    apply MatchString_anywhere. intros prev. eexists. unfold reIsolation; cbn [seq_re]. match_words.
  - apply (pinned_by reUseDB); [unfold pin_patterns; set_solver|].
    apply MatchString_line_start; [done|]. intros prev. eexists. match_words. by constructor.
  - apply (pinned_by reSetOption); [set_solver|].
    eapply MatchString_mono, MatchString_line_start; [apply reSetOption_assoc|done|].
    intros prev. eexists. match_words. econstructor; [|constructor]. constructor.
    rewrite !orb_true_iff, !andb_true_iff, !Z.leb_le, !Z.eqb_eq. lia.
Qed.

(** every batch that leaves session state (a temp table, a cursor, an explicit transaction, an
    application lock, session context, a session option, a change of database) pins the backend,
    wherever in the batch the statement stands and however it is cased and spaced. *)
Theorem classifyBatch_pins_state (t : text) (Ht : leaves_state t) : vPin (classifyBatch t) = true.
Proof. by apply leaves_state_pins. Qed.

Example classifyBatch_pins_state_witness :
  leaves_state (tx "SELECT 1; Begin  TRAN") ∧ vPin (classifyBatch (tx "SELECT 1; Begin  TRAN")) = true.
Proof.
  assert (H : leaves_state (tx "SELECT 1; " ++ tx "Begin" ++ tx "  " ++ tx "TRAN" ++ [])).
  { apply ls_begin_tran; [by repeat constructor|split; [done|by repeat constructor]|
      left; by repeat constructor|done]. }
  split; [exact H|]. exact (classifyBatch_pins_state _ H).
Defined.

(** ** RPCs and messages: properties *)

(** The procedures that leave no session state. *)
Definition stateless_proc (name : text) : Prop :=
  name ∈ tx <$> ["sp_executesql"; "sp_execute"; "sp_unprepare"; "sp_cursorclose"; "sp_cursorunprepare"]%string
  ∨ name ∈ readOnlyCatalogRPC.

Lemma classifyRPC_unpinned proc :
  vPin (classifyRPC proc) = false ↔ proc ≠ [] ∧ stateless_proc (normalizeProc proc).
Proof.
  unfold classifyRPC, stateless_proc, one_of. split.
  - repeat case_bool_decide; try done; tauto.
  - intros [Hne Hs]. rewrite (bool_decide_eq_false_2 _ Hne). by repeat case_bool_decide; try tauto.
Qed.

(** the classifier fails safe: the only messages it lets share a backend are control messages that
    carry no client work, batches of at most 16 KB with none of the state-leaving statements, and calls
    of a listed procedure that leaves no state.  Anything else, an unknown message type or procedure
    included, pins. *)
Theorem Classify_fails_safe (msgType : Z) (body : bytes) (v : Verdict)
    (Hv : Classify msgType body = Some v) (Hp : vPin v = false) :
  msgType ∈ [TypeLogin7; TypePreLogin; TypeSSPI; TypeFedAuth; TypeAttention] ∨
  (msgType = TypeSQLBatch ∧
   ∃ t, BatchText body = Some t ∧ ¬ leaves_state t ∧ text_len t ≤ maxStatementBytes) ∨
  (msgType = TypeRPC ∧
   ∃ proc, RPCProc body = Some proc ∧ proc ≠ [] ∧ stateless_proc (normalizeProc proc)).
Proof.
  unfold Classify in Hv. destruct (Z.eqb_spec msgType TypeSQLBatch).
  { right; left. destruct (BatchText body) as [t|]; [|done]. injection Hv as <-.
    split; [done|]. exists t. split_and!; [done| |].
    - intros Hl. by rewrite leaves_state_pins in Hp.
    - by apply classifyBatch_unpinned in Hp as [? _]. }
  destruct (Z.eqb_spec msgType TypeRPC).
  { right; right. destruct (RPCProc body) as [proc|]; [|done]. injection Hv as <-.
    apply classifyRPC_unpinned in Hp. eauto. }
  left. repeat case_match; simplify_eq; try done. bool_to_prop.
  repeat match goal with H : _ || _ = true |- _ => apply orb_true_iff in H as [H|H] end;
    bool_to_prop; subst; set_solver.
Qed.

Example Classify_fails_safe_witness :
  Classify TypeSQLBatch (encodeUTF16LE (tx "SELECT 1")) = Some multiplexable ∧
  ∃ t, BatchText (encodeUTF16LE (tx "SELECT 1")) = Some t ∧ ¬ leaves_state t.
Proof.
  assert (H : Classify TypeSQLBatch (encodeUTF16LE (tx "SELECT 1")) = Some multiplexable) by reflexivity.
  split; [exact H|].
  destruct (Classify_fails_safe _ _ _ H eq_refl) as [Hc|[(_ & t & Ht & Hl & _)|[Hc _]]].
  - exfalso. vm_compute in Hc. repeat (apply elem_of_cons in Hc as [Hc|Hc]; [discriminate Hc|]).
    by apply elem_of_nil in Hc.
  - by exists t.
  - discriminate Hc.
Defined.

(** ** The login prelude *)

Definition statements (t : text) : list text :=
  TrimSpace <$> fields_func (λ r, (r =? 59) || (r =? 10)) [] t.

Definition is_set_statement (stmt : text) : bool :=
  (MatchString reIsolation stmt || MatchString reSetOption stmt)
  && negb (MatchString reContextI stmt || MatchString reSetContext stmt).

Lemma set_only_loop_spec found ss :
  set_only_loop found ss = true ↔
  Forall (λ s, TrimSpace s = [] ∨ is_set_statement (TrimSpace s) = true) ss ∧
  (found = true ∨ Exists (λ s, TrimSpace s ≠ []) ss).
Proof.
  revert found. induction ss as [|s ss IH]; intros found; cbn [set_only_loop].
  { rewrite Exists_nil, Forall_nil. tauto. }
  rewrite Forall_cons, Exists_cons. unfold is_set_statement.
  destruct (TrimSpace s) as [|c s'] eqn:Es; [rewrite IH; naive_solver|].
  generalize (MatchString reContextI (c :: s') || MatchString reSetContext (c :: s')) as ctx.
  generalize (MatchString reIsolation (c :: s') || MatchString reSetOption (c :: s')) as set.
  intros set ctx. specialize (IH true). assert (c :: s' ≠ []) by done.
  destruct ctx, set; cbn [negb andb]; [..|rewrite IH|]; clear IH; intuition congruence.
Qed.

(** only a batch of SET statements can be a login prelude: when the verdict says Prelude, every
    non-empty statement of the batch (split at semicolons and newlines) sets the isolation level or a
    session option, none touches the session context, and there is at least one. *)
Theorem prelude_is_set_only (t : text) (Hp : vPrelude (classifyBatch t) = true) :
  Forall (λ s, s = [] ∨ is_set_statement s = true) (statements t) ∧
  Exists (λ s, s ≠ []) (statements t).
Proof.
  assert (H : isSetOnly t = true).
  { revert Hp. unfold classifyBatch. repeat case_match; done. }
  unfold isSetOnly in H. apply set_only_loop_spec in H as [Hf [|He]]; [done|].
  unfold statements. by rewrite Forall_fmap, Exists_fmap.
Qed.

Example prelude_is_set_only_witness :
  vPrelude (classifyBatch (tx "SET NOCOUNT ON; set language us_english")) = true ∧
  Exists (λ s, s ≠ []) (statements (tx "SET NOCOUNT ON; set language us_english")).
Proof.
  assert (H : vPrelude (classifyBatch (tx "SET NOCOUNT ON; set language us_english")) = true) by
    (vm_compute; reflexivity).
  split; [exact H|]. exact (proj2 (prelude_is_set_only _ H)).
Defined.

(** A statement separator is optional in T-SQL, and [reIsolation] is tested first and anywhere in a
    statement: a single statement that sets the isolation level and then begins a transaction is a
    poolable prelude, with Txn and ImplicitTxn both clear. *)
Definition iso_begin_tran : text := tx "SET TRANSACTION ISOLATION LEVEL READ COMMITTED BEGIN TRAN".

Lemma iso_begin_tran_leaves : leaves_state iso_begin_tran.
Proof.
  apply (ls_begin_tran (tx "SET TRANSACTION ISOLATION LEVEL READ COMMITTED ") (tx "BEGIN") (tx " ") (tx "TRAN") []);
    [by repeat constructor|split; [done|by repeat constructor]|left; by repeat constructor|done].
Qed.

Lemma isolation_hides_begin_tran :
  classifyBatch iso_begin_tran
  = mkVerdict true (tx "SET TRANSACTION ISOLATION LEVEL") true false false.
Proof. vm_compute. reflexivity. Qed.

(** The same order hides SET IMPLICIT_TRANSACTIONS ON behind an isolation level in one batch. *)
Lemma isolation_hides_implicit_transactions :
  let t := tx "SET IMPLICIT_TRANSACTIONS ON; SET TRANSACTION ISOLATION LEVEL READ COMMITTED" in
  MatchString reImplicitTx t = true ∧
  classifyBatch t = mkVerdict true (tx "SET TRANSACTION ISOLATION LEVEL") true false false.
Proof. vm_compute. done. Qed.
