(* ===== verification/TdsPool.v ===== *)
(** * The backend pool (tds-proxy/pool/pool.go)

    Per credential key: the returned-clean backends waiting for reuse, and the free slots.  A Go channel
    is its buffered contents; the two selects of Acquire are two operations, so that other goroutines may
    act between them; and the system of many sessions sharing the pool is a step relation. *)

From S2P Require Import Prelude TdsFrame.
#[local] Open Scope Z_scope.

Record Backend := mkBackend { beConn : Z; beFresh : bool }.

Record sub := mkSub {
  sIdle : list Backend;
  sTokens : Z;
  sLoginResp : option bytes;  (* None until the Once has run *)
}.

Record Pool := mkPool {
  pSubs : gmap text sub;
  pMax : Z;
  pPrelogin : option bytes;
  pClosed : list Z;  (* the connections Discard has closed *)
}.

Definition New (maxPerKey : Z) : Pool :=
  mkPool ∅ (if maxPerKey <? 1 then 1 else maxPerKey) None [].

Definition subFor (key : text) (p : Pool) : sub :=
  default (mkSub [] (pMax p) None) (pSubs p !! key).

Definition set_sub (key : text) (s : sub) (p : Pool) : Pool :=
  mkPool (<[key := s]> (pSubs p)) (pMax p) (pPrelogin p) (pClosed p).

Definition set_idle (l : list Backend) (s : sub) : sub := mkSub l (sTokens s) (sLoginResp s).
Definition set_tokens (n : Z) (s : sub) : sub := mkSub (sIdle s) n (sLoginResp s).

(** ** Acquire *)

Inductive acquired := Warm (be : Backend) | Cold | TimedOut.

(** The first, non-blocking select: a warm idle backend, if there is one. *)
Definition Acquire_try (key : text) (p : Pool) : option acquired * Pool :=
  let s := subFor key p in
  match sIdle s with
  | b :: rest => (Some (Warm b), set_sub key (set_idle rest s) p)
  | [] => (None, set_sub key s p)
  end.

(** The cases of the second, blocking select; when several are ready Go picks any of them. *)
Inductive select_case := CaseIdle | CaseToken | CaseTimeout.

Definition Acquire_select (key : text) (c : select_case) (p : Pool) : option (acquired * Pool) :=
  let s := subFor key p in
  match c with
  | CaseIdle =>
      match sIdle s with b :: rest => Some (Warm b, set_sub key (set_idle rest s) p) | [] => None end
  | CaseToken =>
      if 0 <? sTokens s then Some (Cold, set_sub key (set_tokens (sTokens s - 1) s) p) else None
  | CaseTimeout => Some (TimedOut, p)
  end.

(** ** Return and Discard *)

Definition Discard (key : text) (be : option Backend) (p : Pool) : Pool :=
  let p := match be with
           | Some b => mkPool (pSubs p) (pMax p) (pPrelogin p) (beConn b :: pClosed p)
           | None => p
           end in
  let s := subFor key p in
  if sTokens s <? pMax p then set_sub key (set_tokens (sTokens s + 1) s) p else set_sub key s p.

Definition Return (key : text) (be : Backend) (p : Pool) : Pool :=
  let be := mkBackend (beConn be) false in
  let s := subFor key p in
  if len (sIdle s) <? pMax p then set_sub key (set_idle (sIdle s ++ [be]) s) p
  else Discard key (Some be) (set_sub key s p).

(** ** Captured handshake responses *)

Definition CaptureLogin (key : text) (resp : bytes) (p : Pool) : Pool :=
  let s := subFor key p in
  match sLoginResp s with
  | Some _ => set_sub key s p
  | None => set_sub key (mkSub (sIdle s) (sTokens s) (Some resp)) p
  end.

Definition LoginResp (key : text) (p : Pool) : option bytes := sLoginResp (subFor key p).

Definition CapturePrelogin (resp : bytes) (p : Pool) : Pool :=
  match pPrelogin p with
  | Some _ => p
  | None => mkPool (pSubs p) (pMax p) (Some resp) (pClosed p)
  end.

Definition Prelogin (p : Pool) : option bytes := pPrelogin p.

(** ** Many sessions on one pool *)

(** What a session has borrowed: a backend, or the slot of one it is still to open. *)
Abbreviation loan := (text * option Backend)%type.

Record Sys := mkSys {
  sysPool : Pool;
  sysWaiting : list text;  (* sessions blocked in the second select, by key *)
  sysLoans : list loan;
}.

Definition conns (bs : list Backend) : list Z := beConn <$> bs.
Definition loan_conns (ls : list loan) : list Z := omap (λ l, beConn <$> l.2) ls.
Definition idle_conns (p : Pool) : list Z :=
  map_to_list (pSubs p) ≫= λ ks, conns (sIdle ks.2).

Inductive step : Sys → Sys → Prop :=
| st_try_warm p w ls key b p' :
    Acquire_try key p = (Some (Warm b), p') →
    step (mkSys p w ls) (mkSys p' w ((key, Some b) :: ls))
| st_try_empty p w ls key p' :
    Acquire_try key p = (None, p') →
    step (mkSys p w ls) (mkSys p' (key :: w) ls)
| st_select_warm p w1 w2 ls key c b p' :
    Acquire_select key c p = Some (Warm b, p') →
    step (mkSys p (w1 ++ key :: w2) ls) (mkSys p' (w1 ++ w2) ((key, Some b) :: ls))
| st_select_cold p w1 w2 ls key c p' :
    Acquire_select key c p = Some (Cold, p') →
    step (mkSys p (w1 ++ key :: w2) ls) (mkSys p' (w1 ++ w2) ((key, None) :: ls))
| st_select_timeout p w1 w2 ls key c p' :
    Acquire_select key c p = Some (TimedOut, p') →
    step (mkSys p (w1 ++ key :: w2) ls) (mkSys p' (w1 ++ w2) ls)
| st_open p w l1 l2 key conn :
    (* net.Dial and login succeed: a connection no one has had before *)
    conn ∉ idle_conns p → conn ∉ loan_conns (l1 ++ l2) → conn ∉ pClosed p →
    step (mkSys p w (l1 ++ (key, None) :: l2))
         (mkSys p w (l1 ++ (key, Some (mkBackend conn true)) :: l2))
| st_return p w l1 l2 key b :
    step (mkSys p w (l1 ++ (key, Some b) :: l2)) (mkSys (Return key b p) w (l1 ++ l2))
| st_discard p w l1 l2 key ob :
    step (mkSys p w (l1 ++ (key, ob) :: l2)) (mkSys (Discard key ob p) w (l1 ++ l2))
| st_capture p w ls key resp :
    step (mkSys p w ls) (mkSys (CaptureLogin key resp p) w ls).

Inductive reachable (maxPerKey : Z) : Sys → Prop :=
| r_init : reachable maxPerKey (mkSys (New maxPerKey) [] [])
| r_step s s' : reachable maxPerKey s → step s s' → reachable maxPerKey s'.

(** ** The invariant *)

(** The loans of one key. *)
Definition loans_of (key : text) (ls : list loan) : list loan := filter (λ l, l.1 = key) ls.

Record inv (s : Sys) : Prop := {
  inv_max : 1 ≤ pMax (sysPool s);
  inv_tokens k : 0 ≤ sTokens (subFor k (sysPool s));
  inv_slots k :
    len (sIdle (subFor k (sysPool s))) + sTokens (subFor k (sysPool s)) + len (loans_of k (sysLoans s))
    = pMax (sysPool s);
  inv_nodup : NoDup (idle_conns (sysPool s) ++ loan_conns (sysLoans s) ++ pClosed (sysPool s));
}.

#[local] Arguments loans_of : simpl never.
#[local] Arguments loan_conns : simpl never.
#[local] Arguments idle_conns : simpl never.

(** ** Lookups after an update *)

Lemma subFor_set_eq k s p : subFor k (set_sub k s p) = s.
Proof. unfold subFor, set_sub; cbn. by rewrite lookup_insert_eq. Qed.
Lemma subFor_set_ne k k' s p : k ≠ k' → subFor k' (set_sub k s p) = subFor k' p.
Proof. intros. unfold subFor, set_sub; cbn. by rewrite lookup_insert_ne. Qed.

(** The idle connections of every other key. *)
Definition other_idle (k : text) (p : Pool) : list Z :=
  map_to_list (delete k (pSubs p)) ≫= λ ks, conns (sIdle ks.2).

Lemma idle_conns_split k p : idle_conns p ≡ₚ conns (sIdle (subFor k p)) ++ other_idle k p.
Proof.
  unfold idle_conns, other_idle, subFor. destruct (pSubs p !! k) as [s|] eqn:E; cbn.
  - by rewrite <- (map_to_list_delete _ _ _ E).
  - by rewrite delete_id.
Qed.

Lemma other_idle_set k s p : other_idle k (set_sub k s p) = other_idle k p.
Proof. unfold other_idle, set_sub; cbn. by rewrite delete_insert_eq. Qed.

Lemma idle_conns_set k s p : idle_conns (set_sub k s p) ≡ₚ conns (sIdle s) ++ other_idle k p.
Proof. by rewrite (idle_conns_split k), subFor_set_eq, other_idle_set. Qed.

Lemma len_loans_mid k key o l1 l2 :
  len (loans_of k (l1 ++ (key, o) :: l2))
  = len (loans_of k (l1 ++ l2)) + (if decide (key = k) then 1 else 0).
Proof.
  unfold loans_of. rewrite !filter_app, filter_cons. cbn.
  case_decide; rewrite !len_app, ?len_cons; lia.
Qed.

Lemma len_loans_cons k key o l :
  len (loans_of k ((key, o) :: l)) = len (loans_of k l) + (if decide (key = k) then 1 else 0).
Proof. apply (len_loans_mid k key o [] l). Qed.

Lemma loan_conns_mid key o l1 l2 :
  loan_conns (l1 ++ (key, o) :: l2)
  ≡ₚ (match o with Some b => [beConn b] | None => [] end) ++ loan_conns (l1 ++ l2).
Proof.
  unfold loan_conns. rewrite !omap_app. cbn. destruct o as [b|]; cbn; [|done].
  by rewrite <- Permutation_middle.
Qed.

(** The effect of an update of one key's subpool, on everything the invariant mentions. *)
Lemma inv_update k s' p w ls p' w' ls' :
  inv (mkSys p w ls) →
  pMax p' = pMax p → subFor k p' = s' → (∀ k', k ≠ k' → subFor k' p' = subFor k' p) →
  other_idle k p' = other_idle k p →
  0 ≤ sTokens s' →
  len (sIdle s') + sTokens s' + len (loans_of k ls') =
    len (sIdle (subFor k p)) + sTokens (subFor k p) + len (loans_of k ls) →
  (∀ k', k ≠ k' → len (loans_of k' ls') = len (loans_of k' ls)) →
  conns (sIdle s') ++ loan_conns ls' ++ pClosed p'
    ≡ₚ conns (sIdle (subFor k p)) ++ loan_conns ls ++ pClosed p →
  inv (mkSys p' w' ls').
Proof.
  intros [Hm Ht Hs Hn] Hmax Hsub Hother Hoi Htok Hslots Hloans Hperm. cbn in *.
  split; cbn.
  - lia.
  - intros k'. destruct (decide (k = k')) as [<-|Hne]; [by rewrite Hsub|]. by rewrite Hother.
  - intros k'. rewrite Hmax. destruct (decide (k = k')) as [<-|Hne].
    + specialize (Hs k). rewrite Hsub. lia.
    + by rewrite Hother, Hloans.
  - rewrite (idle_conns_split k), Hsub, Hoi. rewrite (idle_conns_split k) in Hn.
    assert (Hmove : ∀ a b c : list Z, (a ++ b) ++ c ≡ₚ b ++ a ++ c).
    { intros a b c. by rewrite (Permutation_app_comm a b), app_assoc. }
    rewrite Hmove, Hperm. by rewrite Hmove in Hn.
Qed.

(** The single-key operations, by cases on the state of the key's subpool. *)
Ltac one_key k :=
  eapply (inv_update k); [eassumption|..]; cbn [sysPool pMax set_sub pClosed];
  [ done | by rewrite subFor_set_eq | by intros; rewrite subFor_set_ne | by rewrite other_idle_set | .. ];
  cbn [sIdle sTokens set_idle set_tokens].

Lemma other_loans k k' o ls : k ≠ k' → len (loans_of k' ((k, o) :: ls)) = len (loans_of k' ls).
Proof. intros. rewrite len_loans_cons, decide_False by done. lia. Qed.
Lemma other_loans_mid k k' o l1 l2 :
  k ≠ k' → len (loans_of k' (l1 ++ l2)) = len (loans_of k' (l1 ++ (k, o) :: l2)).
Proof. intros. rewrite len_loans_mid, decide_False by done. lia. Qed.

Lemma inv_waiting p w w' ls : inv (mkSys p w ls) → inv (mkSys p w' ls).
Proof. by intros [? ? ? ?]; split. Qed.

Lemma inv_touch k p w ls : inv (mkSys p w ls) → inv (mkSys (set_sub k (subFor k p) p) w ls).
Proof.
  intros Hi. pose proof Hi as [_ Ht _ _]. by one_key k.
Qed.

Lemma inv_warm k b rest p w ls :
  inv (mkSys p w ls) → sIdle (subFor k p) = b :: rest →
  inv (mkSys (set_sub k (set_idle rest (subFor k p)) p) w ((k, Some b) :: ls)).
Proof.
  intros Hi Hb. pose proof Hi as [_ Ht _ _]. one_key k.
  - apply Ht.
  - rewrite len_loans_cons, decide_True, Hb, len_cons by done. lia.
  - intros. by apply other_loans.
  - rewrite Hb. cbn. rewrite (loan_conns_mid k (Some b) [] ls). cbn.
    by rewrite <- Permutation_middle.
Qed.

Lemma inv_cold k p w ls :
  inv (mkSys p w ls) → 0 < sTokens (subFor k p) →
  inv (mkSys (set_sub k (set_tokens (sTokens (subFor k p) - 1) (subFor k p)) p) w ((k, None) :: ls)).
Proof.
  intros Hi Hb. one_key k.
  - lia.
  - rewrite len_loans_cons, decide_True by done. lia.
  - intros. by apply other_loans.
  - by rewrite (loan_conns_mid k None [] ls).
Qed.

(** A loan is out, so a token is missing and the idle queue has room. *)
Lemma loan_room k o l1 l2 p w :
  inv (mkSys p w (l1 ++ (k, o) :: l2)) →
  sTokens (subFor k p) < pMax p ∧ len (sIdle (subFor k p)) < pMax p.
Proof.
  intros [_ Ht Hs _]. specialize (Hs k). specialize (Ht k). cbn in *.
  rewrite len_loans_mid, decide_True in Hs by done.
  pose proof (len_nonneg (loans_of k (l1 ++ l2))). pose proof (len_nonneg (sIdle (subFor k p))). lia.
Qed.

Lemma inv_return k b p w l1 l2 :
  inv (mkSys p w (l1 ++ (k, Some b) :: l2)) → inv (mkSys (Return k b p) w (l1 ++ l2)).
Proof.
  intros Hi. destruct (loan_room _ _ _ _ _ _ Hi) as [_ Hroom]. pose proof Hi as [_ Ht _ _].
  unfold Return. rewrite (proj2 (Z.ltb_lt _ _)) by done. one_key k.
  - apply Ht.
  - rewrite len_loans_mid, decide_True, len_app, len_cons, len_nil by done. lia.
  - intros. by apply other_loans_mid.
  - unfold conns. rewrite fmap_app, loan_conns_mid. cbn. rewrite <- !app_assoc. by cbn.
Qed.

Lemma inv_discard k ob p w l1 l2 :
  inv (mkSys p w (l1 ++ (k, ob) :: l2)) → inv (mkSys (Discard k ob p) w (l1 ++ l2)).
Proof.
  intros Hi. destruct (loan_room _ _ _ _ _ _ Hi) as [Hroom _]. pose proof Hi as [_ Ht _ _].
  specialize (Ht k). cbn in Ht. unfold Discard.
  destruct ob as [b|]; cbn [pMax];
    rewrite (proj2 (Z.ltb_lt _ _)) by done; one_key k; cbn [pClosed];
    try (intros; by apply other_loans_mid);
    change (subFor k (mkPool (pSubs p) _ _ _)) with (subFor k p);
    rewrite ?len_loans_mid, ?decide_True by done; try lia; rewrite loan_conns_mid; [|done].
  cbn. by rewrite <- !Permutation_middle.
Qed.

Lemma inv_open k conn p w l1 l2 :
  conn ∉ idle_conns p → conn ∉ loan_conns (l1 ++ l2) → conn ∉ pClosed p →
  inv (mkSys p w (l1 ++ (k, None) :: l2)) →
  inv (mkSys p w (l1 ++ (k, Some (mkBackend conn true)) :: l2)).
Proof.
  intros H1 H2 H3 [Hm Ht Hs Hn]. split; cbn in *; [done..| |].
  - intros k'. rewrite <- (Hs k'), !len_loans_mid. done.
  - rewrite loan_conns_mid in Hn |- *. cbn in *. rewrite <- Permutation_middle.
    apply NoDup_cons. split; [|done]. by rewrite !not_elem_of_app.
Qed.

Lemma inv_capture k resp p w ls : inv (mkSys p w ls) → inv (mkSys (CaptureLogin k resp p) w ls).
Proof.
  intros Hi. pose proof Hi as [_ Ht _ _]. unfold CaptureLogin.
  destruct (sLoginResp _); [by apply inv_touch|]. by one_key k.
Qed.

Lemma Acquire_select_inv key c p w ls a p' :
  inv (mkSys p w ls) → Acquire_select key c p = Some (a, p') →
  inv (mkSys p' w (match a with
                   | Warm b => (key, Some b) :: ls | Cold => (key, None) :: ls | TimedOut => ls
                   end)).
Proof.
  intros Hi. unfold Acquire_select. destruct c.
  - destruct (sIdle _) as [|b rest] eqn:E; [done|]. intros [= <- <-]. by apply inv_warm.
  - case_match eqn:E; [|done]. apply Z.ltb_lt in E. intros [= <- <-]. by apply inv_cold.
  - by intros [= <- <-].
Qed.

Lemma inv_step s s' : step s s' → inv s → inv s'.
Proof.
  destruct 1 as [p w ls k b p' Ht|p w ls k p' Ht|p w1 w2 ls k c b p' Ht|p w1 w2 ls k c p' Ht
    |p w1 w2 ls k c p' Ht| | | |]; intros Hi;
    try (eapply inv_waiting in Hi; apply (Acquire_select_inv _ _ _ _ _ _ _ Hi Ht));
    eauto using inv_return, inv_discard, inv_open, inv_capture.
  - unfold Acquire_try in Ht. destruct (sIdle _) eqn:E; [done|]. injection Ht as <- <-.
    by apply inv_warm.
  - unfold Acquire_try in Ht. destruct (sIdle _) eqn:E; [|done]. injection Ht as <-.
    by eapply inv_waiting, inv_touch.
Qed.

Lemma inv_init maxPerKey : inv (mkSys (New maxPerKey) [] []).
Proof.
  set (m := pMax (New maxPerKey)).
  assert (Hm : 1 ≤ m) by (unfold m, New; cbn; destruct (Z.ltb_spec maxPerKey 1); lia).
  assert (Hsub : ∀ k, subFor k (New maxPerKey) = mkSub [] m None) by done.
  split; cbn [sysPool sysLoans]; [done|intros; rewrite Hsub; cbn [sTokens]; lia| |constructor].
  intros k. rewrite Hsub. change (loans_of k []) with (@nil loan).
  unfold len; cbn [length sIdle sTokens]. fold m. lia.
Qed.

Lemma reachable_inv maxPerKey s : reachable maxPerKey s → inv s.
Proof. induction 1; eauto using inv_init, inv_step. Qed.

(** ** Properties *)

(** The open backend connections of a key: idle ones and loans (a reserved slot counts). *)
Definition open_backends (k : text) (s : Sys) : Z :=
  len (sIdle (subFor k (sysPool s))) + len (loans_of k (sysLoans s)).

(** C12: the connection ceiling: however sessions interleave, at most pool-max backends (and at least
    one slot, whatever was configured) are ever open for a credential key, counting those being opened. *)
Theorem pool_connection_ceiling (maxPerKey : Z) (s : Sys) (k : text)
    (Hr : reachable maxPerKey s) :
  open_backends k s ≤ Z.max 1 maxPerKey.
Proof.
  pose proof (reachable_inv _ _ Hr) as [_ Ht Hs _]. specialize (Hs k). specialize (Ht k).
  assert (Hm : pMax (sysPool s) = Z.max 1 maxPerKey).
  { clear -Hr. induction Hr as [|s s' _ IH Hst]; [unfold New; cbn; destruct (Z.ltb_spec maxPerKey 1); lia|].
    rewrite <- IH. destruct Hst; cbn in *; try done.
    all: unfold Acquire_try, Acquire_select, Return, Discard, CaptureLogin in *;
      repeat case_match; simplify_eq; done. }
  unfold open_backends. lia.
Qed.

(** C4: exclusive use: a live backend connection is in one place, idle in one pool or on loan to one
    session, and a connection the pool closed is neither idle nor on loan.  In particular two sessions
    never hold the same backend, and Acquire never hands out a closed one. *)
Theorem pool_exclusive (maxPerKey : Z) (s : Sys) (Hr : reachable maxPerKey s) :
  NoDup (loan_conns (sysLoans s)) ∧
  (∀ c, c ∈ loan_conns (sysLoans s) → c ∉ idle_conns (sysPool s) ∧ c ∉ pClosed (sysPool s)) ∧
  (∀ c, c ∈ pClosed (sysPool s) → c ∉ idle_conns (sysPool s)).
Proof.
  pose proof (reachable_inv _ _ Hr) as [_ _ _ Hn].
  rewrite !NoDup_app in Hn. set_solver.
Qed.

(** the capacity branches are never taken: when a session gives back what it borrowed, Return
    always finds room in the idle queue, so it never closes a clean backend, and Discard always finds a
    missing token, so no slot is lost. *)
Theorem pool_never_full (maxPerKey : Z) (p : Pool) (w : list text) (ls : list loan) (k : text)
    (ob : option Backend)
    (Hr : reachable maxPerKey (mkSys p w ls)) (Hl : (k, ob) ∈ ls) :
  pClosed (match ob with Some b => Return k b p | None => p end) = pClosed p ∧
  sTokens (subFor k (Discard k ob p)) = sTokens (subFor k p) + 1.
Proof.
  apply list_elem_of_split in Hl as (l1 & l2 & ->).
  apply reachable_inv in Hr. destruct (loan_room _ _ _ _ _ _ Hr) as [Ht Hi]. split.
  - destruct ob as [b|]; [|done]. unfold Return. by rewrite (proj2 (Z.ltb_lt _ _)).
  - unfold Discard. destruct ob as [b|]; cbn [pMax];
      change (subFor k (mkPool (pSubs p) _ _ _)) with (subFor k p);
      by rewrite (proj2 (Z.ltb_lt _ _)), subFor_set_eq.
Qed.

(** A reachable state: one session has opened connection 7 for its key and returned it, a second one
    has borrowed it. *)
Definition demo_key : text := tx "k".
Definition demo_sys : Sys :=
  mkSys (mkPool {[ demo_key := mkSub [] 0 None ]} 1 None []) []
    [(demo_key, Some (mkBackend 7 false))].

Lemma demo_reachable : reachable 1 demo_sys.
Proof.
  eapply r_step; [eapply r_step; [eapply r_step; [eapply r_step; [eapply r_step; [apply r_init|]|]|]|]|].
  - eapply (st_try_empty (New 1) [] [] demo_key). reflexivity.
  - eapply (st_select_cold _ [] [] [] demo_key CaseToken). reflexivity.
  - eapply (st_open _ _ [] [] demo_key 7); vm_compute; by inversion 1.
  - apply (st_return _ _ [] [] demo_key).
  - eapply (st_try_warm _ _ _ demo_key). reflexivity.
Qed.

Example pool_connection_ceiling_witness :
  reachable 1 demo_sys ∧ open_backends demo_key demo_sys ≤ 1.
Proof. split; [exact demo_reachable|]. exact (pool_connection_ceiling 1 _ demo_key demo_reachable). Defined.

Example pool_exclusive_witness : reachable 1 demo_sys ∧ NoDup (loan_conns (sysLoans demo_sys)).
Proof. split; [exact demo_reachable|]. exact (proj1 (pool_exclusive 1 _ demo_reachable)). Defined.

Example pool_never_full_witness :
  (demo_key, Some (mkBackend 7 false)) ∈ sysLoans demo_sys ∧
  sTokens (subFor demo_key (Discard demo_key (Some (mkBackend 7 false)) (sysPool demo_sys))) = 1.
Proof.
  assert (H : (demo_key, Some (mkBackend 7 false)) ∈ sysLoans demo_sys) by constructor.
  split; [exact H|]. exact (proj2 (pool_never_full 1 _ _ _ demo_key _ demo_reachable H)).
Defined.
