(* ===== verification/TdsMux.v ===== *)
(** * Per-transaction multiplexing (tds-proxy/txmultiplex.go)

    The session loop that hands its backend back to the pool between transactions.  What the network and
    the pool do is an input of each iteration; what the session does to backends is its trace. *)

From S2P Require Import Prelude TdsFrame TdsHandshake Regex TdsClassify TdsPool.
#[local] Open Scope Z_scope.

(** isClientWork of main.go. *)
Definition isClientWork (t : Z) : bool :=
  (t =? TypeSQLBatch) || (t =? TypeRPC) || (t =? TypeBulkLoad) || (t =? TypeTxMgr).

(** ** State, inputs and trace *)

(** The local variables of txMultiplexRelay. *)
Record Mux := mkMux {
  held : option Backend;
  needReset : bool;
  sticky : bool;
  sawReal : bool;
  txnDepth : Z;
  prelude : list bytes;
}.

Definition initMux (first : Backend) (firstNeedReset : bool) : Mux :=
  mkMux (Some first) firstNeedReset false false 0 [].

(** What ReadMessage returns for the client: a request, or an error (the client closed). *)
Inductive client_read := Request (mType : Z) (body raw : bytes) | Closed.

(** What the pool and the network answer during one iteration. *)
Record Env := mkEnv {
  eAcquire : option (Backend * bool);  (* reacquireBackend: the backend and its needReset, or not ok *)
  ePrelude : nat → bool;               (* writing and draining the n-th prelude message succeeds *)
  eWrite : bool;                       (* writing the request succeeds *)
  eRelay : bool;                       (* relayResponseSync *)
}.

Inductive action :=
| Borrowed (b : Backend)
| Replayed (b : Backend) (raw : bytes)             (* a prelude message written by applyPrelude *)
| Forwarded (b : Backend) (mType : Z) (body raw : bytes)  (* the client's request, as written *)
| Returned (b : Backend)
| Discarded (b : Backend).

(** How an iteration ends. [Panic] is a Go panic, excluded by [mux_step_total]. *)
Inductive outcome := Continue (s : Mux) | Exit | Panic.

(** ** applyPrelude *)

(** The messages written, and whether all of them were answered. *)
Fixpoint applyPrelude (b : Backend) (msgs : list bytes) (reset : bool) (n : nat) (ok : nat → bool)
    : list action * bool * bool :=
  match msgs with
  | [] => ([], reset, true)
  | msg :: msgs =>
      let out := if reset then WithResetConnection msg else msg in
      if ok n then
        let '(acts, reset', r) := applyPrelude b msgs false (S n) ok in
        (Replayed b out :: acts, reset', r)
      else ([Replayed b out], false, false)
  end.

(** ** One iteration *)

(** The deferred hand-over when the function returns still holding a backend. *)
Definition deferred (b : option Backend) (sticky : bool) : list action :=
  match b with
  | None => []
  | Some b => if sticky then [Discarded b] else [Returned b]
  end.

Definition set_sticky (s : Mux) : Mux :=
  mkMux (held s) (needReset s) true (sawReal s) (txnDepth s) (prelude s).
Definition set_real (d : Z) (s : Mux) : Mux :=
  mkMux (held s) (needReset s) (sticky s) true d (prelude s).

(** The transaction depth after a transaction-manager request. *)
Definition tm_track (rt : option Z) (d : Z) : Z :=
  match rt with
  | Some rt =>
      if rt =? TMBeginXact then d + 1
      else if rt =? TMCommitXact then (if 0 <? d then d - 1 else d)
      else if rt =? TMRollbackXact then 0
      else d
  | None => d + 1
  end.

(** "Classify and update session state". *)
Definition classify_update (mType : Z) (body raw : bytes) (s : Mux) : option Mux :=
  if isClientWork mType then
    v ← Classify mType body;
    let preludeExempt := vPrelude v && negb (sawReal s) in
    if vImplicitTxn v then Some (set_sticky s)
    else if vPin v && vTxn v && (mType =? TypeTxMgr) then
      rt ← TxMgrRequestType body;
      Some (set_real (tm_track rt (txnDepth s)) s)
    else if vPin v && vTxn v then Some (set_sticky s)
    else if vPin v && negb preludeExempt then Some (set_sticky s)
    else if vPin v && preludeExempt then
      Some (mkMux (held s) (needReset s) (sticky s) (sawReal s) (txnDepth s) (prelude s ++ [raw]))
    else Some (set_real (txnDepth s) s)
  else Some s.

(** "Release the backend at a safe boundary". *)
Definition release (b : Backend) (s : Mux) : list action * Mux :=
  if sawReal s && negb (sticky s) && (txnDepth s =? 0)
  then ([Returned b], mkMux None false (sticky s) (sawReal s) (txnDepth s) (prelude s))
  else ([], s).

(** Forward, relay, classify and release, on the held backend [b]. *)
Definition serve (b : Backend) (mType : Z) (body raw : bytes) (e : Env) (s : Mux)
    : list action * outcome :=
  let out := if needReset s then WithResetConnection raw else raw in
  let s := mkMux (held s) false (sticky s) (sawReal s) (txnDepth s) (prelude s) in
  if negb (eWrite e) then ([Forwarded b mType body out; Discarded b], Exit)
  else if negb (eRelay e) then ([Forwarded b mType body out; Discarded b], Exit)
  else
    match classify_update mType body raw s with
    | None => ([Forwarded b mType body out], Panic)
    | Some s =>
        let '(acts, s) := release b s in
        (Forwarded b mType body out :: acts, Continue s)
    end.

Definition mux_step (s : Mux) (r : client_read) (e : Env) : list action * outcome :=
  match r with
  | Closed => (deferred (held s) (sticky s), Exit)
  | Request mType body raw =>
      match held s with
      | Some b => serve b mType body raw e s
      | None =>
          match eAcquire e with
          | None => ([], Exit)
          | Some (b, reset) =>
              let '(acts, reset, ok) := applyPrelude b (prelude s) reset 0 (ePrelude e) in
              if ok then
                let s := mkMux (Some b) reset (sticky s) (sawReal s) (txnDepth s) (prelude s) in
                let '(acts', o) := serve b mType body raw e s in
                (Borrowed b :: acts ++ acts', o)
              else (Borrowed b :: acts ++ [Discarded b], Exit)
          end
      end
  end.

(** ** Sessions *)

(** [session s0 acts o]: from [s0], some iterations ran with trace [acts] and ended as [o]. *)
Inductive session (s0 : Mux) : list action → outcome → Prop :=
| ses_start : session s0 [] (Continue s0)
| ses_step acts s r e acts' o :
    session s0 acts (Continue s) → mux_step s r e = (acts', o) → session s0 (acts ++ acts') o.

(** ** Reading a trace *)

Definition borrowed (acts : list action) : list Backend :=
  omap (λ a, match a with Borrowed b => Some b | _ => None end) acts.
Definition handed_back (acts : list action) : list Backend :=
  omap (λ a, match a with Returned b | Discarded b => Some b | _ => None end) acts.

(** The requests forwarded since the backend was borrowed. *)
Definition track_request (cur : list (Z * bytes)) (a : action) : list (Z * bytes) :=
  match a with
  | Borrowed _ => []
  | Forwarded _ mType body _ => cur ++ [(mType, body)]
  | _ => cur
  end.
Definition since_borrow (acts : list action) : list (Z * bytes) := fold_left track_request acts [].

(** The transaction nesting on a fresh backend after these requests, as the transaction-manager
    protocol opens and closes transactions. *)
Definition tm_request (d : Z) (r : Z * bytes) : Z :=
  if r.1 =? TypeTxMgr then match TxMgrRequestType r.2 with Some rt => tm_track rt d | None => d end else d.
Definition tm_depth (reqs : list (Z * bytes)) : Z := fold_left tm_request reqs 0.

(** A request that does not by itself bind the session to its backend: no client work, a
    transaction-manager request, or a message that leaves nothing (or is a SET-only prelude). *)
Definition releasable (r : Z * bytes) : Prop :=
  isClientWork r.1 = false ∨ r.1 = TypeTxMgr ∨
  ∃ v, Classify r.1 r.2 = Some v ∧ (vPin v = false ∨ vPrelude v = true) ∧ vImplicitTxn v = false.

Lemma borrowed_app a b : borrowed (a ++ b) = borrowed a ++ borrowed b.
Proof. apply omap_app. Qed.
Lemma handed_back_app a b : handed_back (a ++ b) = handed_back a ++ handed_back b.
Proof. apply omap_app. Qed.

Lemma handed_back_borrow b acts : handed_back (Borrowed b :: acts) = handed_back acts.
Proof. done. Qed.
Lemma borrowed_borrow b acts : borrowed (Borrowed b :: acts) = b :: borrowed acts.
Proof. done. Qed.

(** ** What applyPrelude writes *)

(** The messages as written: the reset bit on the first one. *)
Definition mark_first (reset : bool) (msgs : list bytes) : list bytes :=
  match msgs with
  | m :: ms => (if reset then WithResetConnection m else m) :: ms
  | [] => []
  end.

Lemma applyPrelude_trace b msgs reset n ok acts reset' r :
  applyPrelude b msgs reset n ok = (acts, reset', r) →
  ∃ k, acts = Replayed b <$> take k (mark_first reset msgs) ∧
       (r = true → k = length msgs ∧ reset' = match msgs with [] => reset | _ => false end).
Proof.
  revert reset n acts reset' r. induction msgs as [|m ms IH]; intros reset n acts reset' r; cbn.
  { intros [= <- <- <-]. by exists 0%nat. }
  destruct (ok n).
  - destruct (applyPrelude b ms false (S n) ok) as [[acts1 reset1] r1] eqn:E. intros [= <- <- <-].
    destruct (IH _ _ _ _ _ E) as (k & -> & Hk). exists (S k). cbn. split.
    + by destruct ms.
    + intros Hr. destruct (Hk Hr) as [-> ->]. split; [done|]. by destruct ms.
  - intros [= <- <- <-]. by exists 1%nat.
Qed.

Lemma applyPrelude_silent b msgs reset n ok acts reset' r :
  applyPrelude b msgs reset n ok = (acts, reset', r) →
  borrowed acts = [] ∧ handed_back acts = [] ∧ ∀ cur, fold_left track_request acts cur = cur.
Proof.
  intros (k & -> & _)%applyPrelude_trace.
  induction (take k (mark_first reset msgs)) as [|m ms IH]; [done|]. cbn. tauto.
Qed.

(** ** The session invariant *)

Record minv (first : Backend) (acts : list action) (s : Mux) : Prop := {
  mi_none : held s = None → sawReal s = true ∧ sticky s = false ∧ txnDepth s = 0;
  mi_nonneg : 0 ≤ txnDepth s;
  mi_owned : handed_back acts ++ option_list (held s) ≡ₚ first :: borrowed acts;
  mi_depth : txnDepth s = tm_depth (since_borrow acts);
  mi_clean : sticky s = false → Forall releasable (since_borrow acts);
}.

Lemma tm_track_nonneg rt d : 0 ≤ d → 0 ≤ tm_track rt d.
Proof.
  unfold tm_track. intros. destruct rt as [rt|]; [|lia].
  repeat case_match; bool_to_prop; lia.
Qed.

(** What classify_update may do, whatever the message. *)
Lemma classify_update_spec mType body raw s s' :
  classify_update mType body raw s = Some s' → 0 ≤ txnDepth s →
  held s' = held s ∧ 0 ≤ txnDepth s' ∧ txnDepth s' = tm_request (txnDepth s) (mType, body) ∧
  (sticky s = true → sticky s' = true) ∧ (sticky s' = false → releasable (mType, body)) ∧
  needReset s' = needReset s.
Proof.
  unfold classify_update, releasable, tm_request. cbn [fst snd]. intros H Hd.
  destruct (isClientWork mType) eqn:Ew.
  2: { injection H as <-. split_and!; try tauto; try done. destruct (Z.eqb_spec mType TypeTxMgr); [subst|]; done. }
  destruct (Classify mType body) as [v|] eqn:Ev; [|done]. cbn in H.
  destruct (Z.eqb_spec mType TypeTxMgr) as [->|Hne].
  - injection Ev as <-. cbn in H. destruct (TxMgrRequestType body) as [rt|]; [|done].
    injection H as <-. cbn. split_and!; eauto using tm_track_nonneg.
  - rewrite andb_false_r in H.
    repeat case_match; simplify_eq; cbn; bool_to_prop; split_and!; try done;
      intros _; right; right; exists v; split_and!; auto.
    all: destruct (vPin v) eqn:?, (vPrelude v) eqn:?, (sawReal s) eqn:?; cbn in *; auto; done.
Qed.

Lemma serve_inv first acts b mType body raw e s acts' o :
  minv first acts s → held s = Some b → serve b mType body raw e s = (acts', o) →
  match o with
  | Continue s' => minv first (acts ++ acts') s'
  | Exit => handed_back (acts ++ acts') ≡ₚ first :: borrowed (acts ++ acts')
  | Panic => True
  end.
Proof.
  intros [Hn Hd Ho Hdep Hcl] Hh. rewrite Hh in Ho. cbn in Ho. unfold serve.
  destruct (eWrite e); cbn [negb].
  2: { intros [= <- <-]. by rewrite handed_back_app, borrowed_app, app_nil_r. }
  destruct (eRelay e); cbn [negb].
  2: { intros [= <- <-]. by rewrite handed_back_app, borrowed_app, app_nil_r. }
  destruct (classify_update _ _ _ _) as [s1|] eqn:Ec; [|by intros [= <- <-]].
  apply classify_update_spec in Ec as (Hheld & Hnn & Hdepth & Hst & Hrel & _); [|done]. cbn in *.
  assert (Hcur : ∀ acts'' x, since_borrow (acts ++ Forwarded b mType body x :: acts'')
                 = fold_left track_request acts'' (since_borrow acts ++ [(mType, body)])).
  { intros. unfold since_borrow. by rewrite fold_left_app. }
  assert (Htm : txnDepth s1 = tm_depth (since_borrow acts ++ [(mType, body)])).
  { unfold tm_depth in *. by rewrite fold_left_app, <- Hdep. }
  assert (Hf : sticky s1 = false → Forall releasable (since_borrow acts ++ [(mType, body)])).
  { intros Hs. apply Forall_app. split; [|by constructor; [apply Hrel|]].
    apply Hcl. destruct (sticky s); [by rewrite Hst in Hs|done]. }
  unfold release. destruct (sawReal s1 && negb (sticky s1) && (txnDepth s1 =? 0)) eqn:Er;
    intros [= <- <-]; (split; cbn; rewrite ?Hcur; cbn; try done).
  - bool_to_prop. by intros _.
  - rewrite handed_back_app, borrowed_app, !app_nil_r. done.
  - by rewrite Hheld, Hh.
  - rewrite Hheld, Hh, handed_back_app, borrowed_app, !app_nil_r. done.
Qed.

Lemma session_inv first r0 acts o :
  session (initMux first r0) acts o →
  match o with
  | Continue s => minv first acts s
  | Exit => handed_back acts ≡ₚ first :: borrowed acts
  | Panic => True
  end.
Proof.
  induction 1 as [|acts s r e acts' o _ IH Hs].
  { by split. }
  destruct r as [mType body raw|]; cbn in Hs.
  2: { injection Hs as <- <-. destruct IH as [_ _ Ho _ _].
       rewrite handed_back_app, borrowed_app.
       destruct (held s) as [b|]; [destruct (sticky s)|]; cbn in *; by rewrite ?app_nil_r in *. }
  destruct (held s) as [b|] eqn:Hh; [by eapply serve_inv|].
  destruct (eAcquire e) as [[b reset]|].
  2: { injection Hs as <- <-. destruct IH as [_ _ Ho _ _]. rewrite Hh in Ho.
       by rewrite !app_nil_r in *. }
  destruct (applyPrelude b (prelude s) reset 0 (ePrelude e)) as [[pacts reset'] ok] eqn:Ep.
  apply applyPrelude_silent in Ep as (Hb & Hhb & Hcur).
  destruct IH as [Hn Hd Ho Hdep Hcl]. destruct (Hn Hh) as (Hsaw & Hsticky & H0).
  rewrite Hh in Ho. cbn in Ho. rewrite app_nil_r in Ho.
  destruct ok.
  - set (s1 := mkMux (Some b) _ _ _ _ _) in Hs.
    destruct (serve b mType body raw e s1) as [acts'' o'] eqn:Es. injection Hs as <- <-.
    assert (Hcur1 : since_borrow (acts ++ Borrowed b :: pacts) = []).
    { unfold since_borrow. rewrite fold_left_app. cbn. apply Hcur. }
    assert (Hs1 : minv first (acts ++ Borrowed b :: pacts) s1).
    { split; rewrite ?Hcur1; cbn; try done.
      rewrite handed_back_app, borrowed_app, handed_back_borrow, borrowed_borrow, Hhb, Hb, app_nil_r, Ho.
      done. }
    replace (acts ++ Borrowed b :: pacts ++ acts'') with ((acts ++ Borrowed b :: pacts) ++ acts'')
      by (by rewrite <- app_assoc).
    by apply (serve_inv _ _ _ _ _ _ _ _ _ _ Hs1 eq_refl Es).
  - injection Hs as <- <-.
    rewrite handed_back_app, borrowed_app, handed_back_borrow, borrowed_borrow, handed_back_app,
      borrowed_app, Hhb, Hb, Ho. done.
Qed.

(** ** Properties *)

(** every backend a session borrowed is given back exactly once, returned or discarded, by the
    time the session ends, on every path (client close, failed write, dead backend, pool timeout); and
    while the session runs it owes exactly the backend it holds. *)
Theorem mux_gives_back (first : Backend) (r0 : bool) (acts : list action) (o : outcome)
    (Hs : session (initMux first r0) acts o) :
  match o with
  | Continue s => handed_back acts ++ option_list (held s) ≡ₚ first :: borrowed acts
  | Exit => handed_back acts ≡ₚ first :: borrowed acts
  | Panic => True
  end.
Proof. apply session_inv in Hs. destruct o; [by destruct Hs|done..]. Qed.

Lemma serve_returned b mType body raw e s acts' s' :
  serve b mType body raw e s = (acts', Continue s') →
  (∃ b', Returned b' ∈ acts') →
  sticky s' = false ∧ sawReal s' = true ∧ txnDepth s' = 0 ∧ held s' = None.
Proof.
  unfold serve. destruct (eWrite e), (eRelay e); cbn; try done.
  destruct (classify_update _ _ _ _) as [s1|]; [|done]. unfold release.
  destruct (_ && _) eqn:E; intros [= <- <-]; cbn; [by bool_to_prop|]. intros (b' & Hb).
  exfalso. set_solver.
Qed.

Lemma mux_step_returned s r e acts' s' :
  mux_step s r e = (acts', Continue s') → (∃ b, Returned b ∈ acts') →
  sticky s' = false ∧ sawReal s' = true ∧ txnDepth s' = 0 ∧ held s' = None.
Proof.
  destruct r as [mType body raw|]; cbn; [|done]. destruct (held s) as [b|].
  { apply serve_returned. }
  destruct (eAcquire e) as [[b reset]|]; [|done].
  destruct (applyPrelude _ _ _ _ _) as [[pacts reset'] ok] eqn:Ep. destruct ok; [|done].
  destruct (serve _ _ _ _ _ _) as [acts'' o] eqn:Es. intros [= <- ->] (b' & Hb).
  apply (serve_returned _ _ _ _ _ _ _ _ Es). exists b'.
  apply applyPrelude_trace in Ep as (k & -> & _).
  apply elem_of_cons in Hb as [?|Hb]; [done|]. apply elem_of_app in Hb as [Hb|Hb]; [|done].
  by apply list_elem_of_fmap in Hb as (? & ? & _).
Qed.


(** while a transaction is open, or the session is sticky, the session keeps its one backend: the
    next request is forwarded to the backend it holds and no other is borrowed; and a sticky backend is
    never returned to the pool, whatever happens. *)
Theorem mux_affinity (first : Backend) (r0 : bool) (acts acts' : list action) (s : Mux)
    (r : client_read) (e : Env) (o : outcome)
    (Hs : session (initMux first r0) acts (Continue s))
    (Hopen : 0 < txnDepth s ∨ sticky s = true)
    (Hstep : mux_step s r e = (acts', o)) :
  ∃ b, held s = Some b ∧ borrowed acts' = [] ∧
       (∀ b' t body raw, Forwarded b' t body raw ∈ acts' → b' = b) ∧
       (sticky s = true → ∀ b', Returned b' ∉ acts') ∧
       (∀ s', o = Continue s' → 0 < txnDepth s' ∨ sticky s' = true → held s' = Some b).
Proof.
  pose proof (session_inv _ _ _ _ Hs) as [Hn Hd _ _ _].
  destruct (held s) as [b|] eqn:Hh.
  2: { destruct (Hn eq_refl) as (_ & Hst & H0). destruct Hopen as [?|?]; [lia|congruence]. }
  exists b. split; [done|]. destruct r as [mType body raw|]; cbn in Hstep.
  2: { rewrite Hh in Hstep. injection Hstep as <- <-.
       split_and!; destruct (sticky s); cbn; try done; set_solver. }
  rewrite Hh in Hstep. unfold serve in Hstep.
  destruct (eWrite e), (eRelay e); cbn in Hstep;
    try (injection Hstep as <- <-; split_and!; try done; set_solver).
  destruct (classify_update _ _ _ _) as [s1|] eqn:Ec.
  2: { injection Hstep as <- <-; split_and!; try done; set_solver. }
  apply classify_update_spec in Ec as (Hheld & Hnn & _ & Hst & _); [|done]. cbn in *.
  unfold release in Hstep. destruct (_ && _) eqn:Er; injection Hstep as <- <-.
  - bool_to_prop. split_and!; [done|set_solver| |].
    + intros Hs1. rewrite Hst in *; done.
    + intros s' [= <-] [?|?]; cbn in *; [lia|congruence].
  - split_and!; [done|set_solver|set_solver|]. intros s' [= <-] _. by rewrite Hheld.
Qed.

(** a backend borrowed in mid-session is prepared as the first one was: the session's captured
    login prelude is replayed to it message by message, in order, before the request that needed it,
    and the first message it receives carries RESETCONNECTION exactly when it was a warm one. *)
Theorem mux_reborrow_prepared (s : Mux) (mType : Z) (body raw : bytes) (e : Env) (b : Backend)
    (reset : bool) (Hheld : held s = None) (Hacq : eAcquire e = Some (b, reset))
    (Hok : ∀ n, ePrelude e n = true) :
  ∃ acts o out,
    mux_step s (Request mType body raw) e
      = (Borrowed b :: (Replayed b <$> take (length (prelude s)) out) ++
         (Forwarded b mType body (List.last out []) :: acts), o) ∧
    out = mark_first reset (prelude s ++ [raw]) ∧
    (∀ b' t bd rw, Forwarded b' t bd rw ∉ acts) ∧ (∀ b' rw, Replayed b' rw ∉ acts).
Proof.
  cbn. rewrite Hheld, Hacq.
  destruct (applyPrelude b (prelude s) reset 0 (ePrelude e)) as [[pacts reset'] ok] eqn:Ep.
  assert (ok = true) as ->.
  { clear -Ep Hok. revert Ep. generalize (prelude s) reset pacts reset' ok 0%nat.
    induction l as [|m ms IH]; cbn; intros reset0 acts0 reset1 ok0 n; [by intros [= _ _ <-]|].
    rewrite Hok. destruct (applyPrelude b ms false (S n) (ePrelude e)) as [[? ?] ?] eqn:E.
    intros [= _ _ <-]. by eapply IH. }
  apply applyPrelude_trace in Ep as (k & -> & Hk). destruct (Hk eq_refl) as [-> ->]. clear Hk.
  set (out := mark_first reset (prelude s ++ [raw])).
  assert (Hpre : take (length (prelude s)) (mark_first reset (prelude s)) = take (length (prelude s)) out).
  { unfold out. destruct (prelude s) as [|m ms]; [done|]. cbn. f_equal.
    by rewrite take_app_length, take_ge. }
  assert (Hlast : List.last out [] = if (match prelude s with [] => reset | _ => false end)
                                     then WithResetConnection raw else raw).
  { unfold out. destruct (prelude s) as [|m ms]; [done|]. cbn [mark_first app].
    by rewrite app_comm_cons, List.last_last. }
  unfold serve; cbn [needReset]. rewrite <- Hlast, Hpre.
  destruct (eWrite e), (eRelay e); cbn [negb];
    try (eexists [Discarded b], _, out; split_and!; [done|done|set_solver|set_solver]).
  destruct (classify_update _ _ _ _) as [s1|];
    [|by eexists [], _, out; split_and!; [done|done|set_solver|set_solver]].
  destruct (release b s1) as [acts s2] eqn:Er. exists acts. eexists _, out.
  split_and!; [done|done|..]; unfold release in Er; case_match; simplify_eq; set_solver.
Qed.

(** No input makes the session panic, as long as the bytes it reads are bytes. *)
Lemma Classify_total mType body : wf_bytes body → is_Some (Classify mType body).
Proof.
  intros Hw. destruct (body_decoders_total body Hw) as ([t Ht] & [p Hp] & _).
  unfold Classify. rewrite Ht, Hp. cbn. repeat case_match; eauto.
Qed.

(** Neither a request nor the pool can make an iteration panic. *)
Lemma mux_step_total s r e acts o :
  match r with Request _ body _ => wf_bytes body | Closed => True end →
  mux_step s r e = (acts, o) → o ≠ Panic.
Proof.
  intros Hw. assert (Hserve : ∀ b t body raw s acts o, wf_bytes body →
    serve b t body raw e s = (acts, o) → o ≠ Panic).
  { clear. intros b t body raw s acts o Hw. unfold serve.
    destruct (eWrite e), (eRelay e); cbn; try by intros [= <- <-].
    destruct (classify_update _ _ _ _) as [s1|] eqn:Ec.
    { destruct (release b s1). by intros [= <- <-]. }
    exfalso. revert Ec. unfold classify_update. destruct (Classify_total t body Hw) as [v ->].
    destruct (body_decoders_total body Hw) as (_ & _ & [rt ->]). cbn. repeat case_match; done. }
  destruct r as [t body raw|]; cbn; [|by intros [= <- <-]].
  destruct (held s); [by apply Hserve|]. destruct (eAcquire e) as [[b reset]|]; [|by intros [= <- <-]].
  destruct (applyPrelude _ _ _ _ _) as [[pacts reset'] ok]. destruct ok; [|by intros [= <- <-]].
  destruct (serve _ _ _ _ _ _) as [acts' o'] eqn:Es. intros [= <- <-]. by eapply Hserve.
Qed.

(** ** A concrete session *)

(** One packet with the EOM bit. *)
Definition one_packet (t : Z) (body : bytes) : bytes :=
  let n := headerLen + len body in
  [t; statusEOM; Z.shiftr n 8; n mod 256; 0; 0; 1; 0] ++ body.
Definition no_headers : bytes := [4; 0; 0; 0].
Definition batch (s : text) : client_read :=
  Request TypeSQLBatch (no_headers ++ encodeUTF16LE s) (one_packet TypeSQLBatch (no_headers ++ encodeUTF16LE s)).
Definition tm (rt : Z) : client_read :=
  Request TypeTxMgr (no_headers ++ [rt; 0]) (one_packet TypeTxMgr (no_headers ++ [rt; 0])).

Definition demo_backend (c : Z) : Backend := mkBackend c false.
Definition demo_env : Env := mkEnv (Some (demo_backend 8, true)) (λ _, true) true true.

(** Iterate with the same environment. *)
Fixpoint mux_run (s : Mux) (rs : list client_read) (e : Env) : list action * outcome :=
  match rs with
  | [] => ([], Continue s)
  | r :: rs =>
      match mux_step s r e with
      | (acts, Continue s) => let '(acts', o) := mux_run s rs e in (acts ++ acts', o)
      | res => res
      end
  end.

Lemma mux_run_session s0 acts0 s rs e acts o :
  session s0 acts0 (Continue s) → mux_run s rs e = (acts, o) → session s0 (acts0 ++ acts) o.
Proof.
  revert acts0 s acts o. induction rs as [|r rs IH]; intros acts0 s acts o Hs; cbn.
  { intros [= <- <-]. by rewrite app_nil_r. }
  destruct (mux_step s r e) as [acts1 o1] eqn:E. pose proof (ses_step _ _ _ _ _ _ _ Hs E) as Hs1.
  destruct o1 as [s1| |]; [|by intros [= <- <-]..].
  destruct (mux_run s1 rs e) as [acts2 o2] eqn:E2. intros [= <- <-].
  rewrite app_assoc. by eapply IH.
Qed.

Lemma mux_run_init b r0 rs e acts o :
  mux_run (initMux b r0) rs e = (acts, o) → session (initMux b r0) acts o.
Proof. intros H. by apply (mux_run_session _ [] _ _ _ _ _ (ses_start _) H). Qed.

(** The last iteration of a run. *)
Definition demo_state (rs : list client_read) : Mux :=
  match mux_run (initMux (demo_backend 7) false) rs demo_env with
  | (_, Continue s) => s
  | _ => initMux (demo_backend 0) false
  end.
Definition demo_acts (rs : list client_read) : list action :=
  fst (mux_run (initMux (demo_backend 7) false) rs demo_env).

Definition demo_prefix : list client_read :=
  [batch (tx "SET NOCOUNT ON"); tm TMBeginXact; batch (tx "UPDATE t SET a = 1")].

Lemma demo_session :
  session (initMux (demo_backend 7) false) (demo_acts demo_prefix) (Continue (demo_state demo_prefix)).
Proof. apply (mux_run_init _ _ demo_prefix demo_env). vm_compute. reflexivity. Qed.

Lemma demo_commit :
  mux_step (demo_state demo_prefix) (tm TMCommitXact) demo_env
  = ([Forwarded (demo_backend 7) TypeTxMgr (no_headers ++ [TMCommitXact; 0])
        (one_packet TypeTxMgr (no_headers ++ [TMCommitXact; 0])); Returned (demo_backend 7)],
     Continue (demo_state (demo_prefix ++ [tm TMCommitXact]))).
Proof. vm_compute. reflexivity. Qed.

Lemma demo_session_commit :
  session (initMux (demo_backend 7) false) (demo_acts (demo_prefix ++ [tm TMCommitXact; Closed])) Exit.
Proof. apply (mux_run_init _ _ (demo_prefix ++ [tm TMCommitXact; Closed]) demo_env). vm_compute. reflexivity. Qed.

Example mux_gives_back_witness :
  session (initMux (demo_backend 7) false) (demo_acts (demo_prefix ++ [tm TMCommitXact; Closed])) Exit ∧
  handed_back (demo_acts (demo_prefix ++ [tm TMCommitXact; Closed]))
    ≡ₚ demo_backend 7 :: borrowed (demo_acts (demo_prefix ++ [tm TMCommitXact; Closed])).
Proof. split; [exact demo_session_commit|]. exact (mux_gives_back _ _ _ _ demo_session_commit). Defined.


Example mux_affinity_witness :
  0 < txnDepth (demo_state demo_prefix) ∧ ∃ b, held (demo_state demo_prefix) = Some b.
Proof.
  assert (H : 0 < txnDepth (demo_state demo_prefix)) by (vm_compute; reflexivity).
  split; [exact H|].
  destruct (mux_affinity _ _ _ _ _ _ _ _ demo_session (or_introl H) demo_commit) as (b & Hb & _).
  exists b. exact Hb.
Defined.

Example mux_reborrow_prepared_witness :
  held (demo_state (demo_prefix ++ [tm TMCommitXact])) = None ∧
  ∃ acts o, mux_step (demo_state (demo_prefix ++ [tm TMCommitXact])) (tm TMBeginXact) demo_env = (acts, o).
Proof.
  assert (H : held (demo_state (demo_prefix ++ [tm TMCommitXact])) = None) by (vm_compute; reflexivity).
  split; [exact H|].
  destruct (mux_reborrow_prepared _ TypeTxMgr (no_headers ++ [TMBeginXact; 0])
    (one_packet TypeTxMgr (no_headers ++ [TMBeginXact; 0])) demo_env (demo_backend 8) true
    H eq_refl (λ _, eq_refl)) as (acts & o & out & Hs & _).
  eexists _, o. exact Hs.
Defined.

(** ** Two ways an open transaction reaches the pool *)

(** A client that leaves in mid-transaction: the deferred hand-over only looks at [sticky], so the
    backend goes back to the pool with its transaction open. *)
Lemma close_returns_open_transaction :
  let acts := demo_acts (demo_prefix ++ [Closed]) in
  session (initMux (demo_backend 7) false) acts Exit ∧
  List.last acts (Borrowed (demo_backend 0)) = Returned (demo_backend 7) ∧
  tm_depth (since_borrow acts) = 1.
Proof.
  split; [|vm_compute; done].
  apply (mux_run_init _ _ (demo_prefix ++ [Closed]) demo_env). vm_compute. reflexivity.
Qed.

(** A BEGIN TRAN that follows SET TRANSACTION ISOLATION LEVEL in one statement is taken for the login
    prelude, so the backend is returned to the pool after the next statement, in mid-transaction. *)
Lemma raw_begin_tran_released :
  let rs := [batch iso_begin_tran; batch (tx "UPDATE t SET a = 1")] in
  session (initMux (demo_backend 7) false) (demo_acts rs) (Continue (demo_state rs)) ∧
  List.last (demo_acts rs) (Borrowed (demo_backend 0)) = Returned (demo_backend 7) ∧
  leaves_state iso_begin_tran ∧ sticky (demo_state rs) = false.
Proof.
  split; [apply (mux_run_init _ _ [batch iso_begin_tran; batch (tx "UPDATE t SET a = 1")] demo_env);
          vm_compute; reflexivity|].
  split; [vm_compute; reflexivity|]. split; [apply iso_begin_tran_leaves|vm_compute; reflexivity].
Qed.
