(* ===== verification/TdsSession.v ===== *)
(** * One client session (tds-proxy/main.go)

    The handshake decisions of handle, the credential key, the borrowing of a usable backend, and the
    session-level relay that decides whether the backend goes back to the pool. *)

From S2P Require Import Prelude TdsFrame TdsHandshake Regex TdsClassify TdsPool TdsMux.
From stdpp Require Import pretty.
#[local] Open Scope Z_scope.

(** ** PRELOGIN *)

(** How handle answers the client's PRELOGIN. *)
Inductive prelogin_answer :=
| AnswerEncryptOn    (* strict: TLS is already established *)
| TunnelTLS          (* answer ENCRYPT_REQ and run the TLS handshake inside PRELOGIN packets *)
| Refuse             (* the client requires TLS and there is no certificate *)
| AnswerPlaintext.

Definition prelogin_switch (tlsTerminated hasTLSConfig : bool) (clientEnc : Z) : prelogin_answer :=
  if tlsTerminated then AnswerEncryptOn
  else if hasTLSConfig && ((clientEnc =? EncryptOn) || (clientEnc =? EncryptReq)) then TunnelTLS
  else if clientEnc =? EncryptReq then Refuse
  else AnswerPlaintext.

(** The PRELOGIN forwarded to the backend. *)
Definition backendPre (tlsTerminated : bool) (preRaw : bytes) : bytes :=
  if tlsTerminated then BuildClientPrelogin else preRaw.

(** ** The credential key *)

(** [%x] of a 64-bit integer. *)
Fixpoint hex_go (fuel : nat) (n : Z) : text :=
  match fuel with
  | O => []
  | S fuel => if n <? 16 then hex_digit n else hex_go fuel (n / 16) ++ hex_digit (n mod 16)
  end.
Definition hex64 (n : Z) : text := hex_go 16 n.

Definition poolKey (backendAddr : text) (info : Login7Info) : text :=
  let h := fnv_write fnv_offset (liPassField info) in
  backendAddr ++ [124] ++ liUser info ++ [124] ++ liDatabase info ++ [124]
    ++ hex64 h ++ [124] ++ hex64 (liProfile info).

(** From the client's LOGIN7 message to the pool key: [Some None] is a refused session. *)
Definition login_key (backendAddr : text) (lType : Z) (lBody : bytes) : option (option text) :=
  if negb (lType =? TypeLogin7) then Some None
  else
    r ← ParseLogin7 lBody;
    match r with
    | None => Some None
    | Some info =>
        if liIntegrated info then Some None
        else if liFedAuth info then Some None
        else Some (Some (poolKey backendAddr info))
    end.

(** ** Borrowing a usable backend *)

(** acquireUsable, given what Acquire and probeIdle answer on each try: its result, and the dead
    backends it discarded. *)
Fixpoint acquireUsable_loop (tries : nat) (outs : nat → acquired * bool) (n : nat)
    : acquired * list Backend :=
  match tries with
  | O => (TimedOut, [])
  | S tries =>
      match outs n with
      | (TimedOut, _) => (TimedOut, [])
      | (Cold, _) => (Cold, [])
      | (Warm b, alive) =>
          if alive then (Warm b, [])
          else let '(r, dead) := acquireUsable_loop tries outs (S n) in (r, b :: dead)
      end
  end.

Definition acquireUsable (outs : nat → acquired * bool) : acquired * list Backend :=
  acquireUsable_loop 4 outs 0.

(** ** The session relay *)

(** The local state of relaySession's client goroutine, and what it wrote to the backend. *)
Record Relay := mkRelay {
  rFirst : bool;
  rAtBoundary : bool;
  rType : Z;
  rBuf : bytes;
  rPinned : bool;
  rReasons : list text;  (* also the [seen] set *)
  rSawRealBatch : bool;
  rReqCount : Z;
  rWritten : bytes;
}.

Definition initRelay : Relay := mkRelay true true 0 [] false [] false 0 [].

(** A completed message: count it, classify it. *)
Definition relay_message (st : Relay) (mType : Z) (buf : bytes) : option Relay :=
  if isClientWork mType then
    v ← Classify mType buf;
    let pins := vPin v && negb (vPrelude v && negb (rSawRealBatch st)) in
    Some (mkRelay (rFirst st) true mType []
            (rPinned st || pins)
            (if pins && negb (bool_decide (vReason v ∈ rReasons st))
             then rReasons st ++ [vReason v] else rReasons st)
            (rSawRealBatch st || ((mType =? TypeSQLBatch) && negb (vPin v)))
            (rReqCount st + 1) (rWritten st))
  else Some (mkRelay (rFirst st) true mType [] (rPinned st) (rReasons st) (rSawRealBatch st)
               (rReqCount st) (rWritten st)).

(** One packet from the client, written to the backend without error. *)
Definition relay_packet (needReset : bool) (st : Relay) (p : Packet) : option Relay :=
  let raw := if rFirst st && needReset then WithResetConnection (pRaw p) else pRaw p in
  let mType := if len (rBuf st) =? 0 then pType p else rType st in
  let buf := rBuf st ++ pBody p in
  let st := mkRelay false false mType buf (rPinned st) (rReasons st) (rSawRealBatch st)
              (rReqCount st) (rWritten st ++ raw) in
  if EOM p then relay_message st mType buf else Some st.

Fixpoint relay_packets (needReset : bool) (st : Relay) (ps : list Packet) : option Relay :=
  match ps with
  | [] => Some st
  | p :: ps => st ← relay_packet needReset st p; relay_packets needReset st ps
  end.

(** How the session ended: which goroutine finished first, and the responses relayed by then. *)
Inductive relay_end :=
| ClientDone (respCount : Z)  (* reading from the client failed: it closed *)
| WriteFailed                 (* writing a packet to the backend failed *)
| BackendDone.

(** relaySession's result: pinned, reasons, returnable.  When the client goroutine ends on a read
    error, [cleanClose] is [rAtBoundary]; when a write fails it is false. *)
Definition relay_result (st : Relay) (e : relay_end) : bool * list text * bool :=
  match e with
  | ClientDone respCount =>
      if rAtBoundary st && (rReqCount st =? respCount)
      then (rPinned st, rReasons st, negb (rPinned st))
      else (rPinned st, rReasons st, false)
  | WriteFailed | BackendDone => (rPinned st, rReasons st, false)
  end.

Definition relaySession (needReset : bool) (ps : list Packet) (e : relay_end)
    : option (bool * list text * bool) :=
  st ← relay_packets needReset initRelay ps; Some (relay_result st e).

(** ** The PRELOGIN answer *)

(** a client is never silently downgraded: if it requires encryption the proxy never continues in
    plaintext, with a certificate neither does a client that asks for it, and a plaintext answer is
    given only before any TLS is established. *)
Theorem prelogin_no_downgrade (tlsTerminated hasTLSConfig : bool) (clientEnc : Z)
    (Hp : prelogin_switch tlsTerminated hasTLSConfig clientEnc = AnswerPlaintext) :
  tlsTerminated = false ∧ clientEnc ≠ EncryptReq ∧ (hasTLSConfig = true → clientEnc ≠ EncryptOn).
Proof.
  unfold prelogin_switch in Hp. destruct tlsTerminated; [done|]. split; [done|].
  destruct (Z.eqb_spec clientEnc EncryptOn), (Z.eqb_spec clientEnc EncryptReq), hasTLSConfig;
    cbn in Hp; naive_solver.
Qed.

Example prelogin_no_downgrade_witness :
  prelogin_switch false true EncryptOff = AnswerPlaintext ∧ EncryptOff ≠ EncryptReq.
Proof.
  assert (H : prelogin_switch false true EncryptOff = AnswerPlaintext) by reflexivity.
  split; [exact H|]. exact (proj1 (proj2 (prelogin_no_downgrade _ _ _ H))).
Defined.

(** ** The credential key separates credentials *)

Definition hex_value (d : Z) : Z := if d <? 97 then d - 48 else d - 97 + 10.
Definition unhex (t : text) : Z := fold_left (λ acc d, acc * 16 + hex_value d) t 0.

Lemma unhex_digit acc d :
  0 ≤ d < 16 → fold_left (λ acc d, acc * 16 + hex_value d) (hex_digit d) acc = acc * 16 + d.
Proof.
  intros Hd. unfold hex_digit, hex_value. destruct (Z.ltb_spec d 10); cbn.
  - destruct (Z.ltb_spec (48 + d) 97); lia.
  - destruct (Z.ltb_spec (97 + (d - 10)) 97); lia.
Qed.

Lemma unhex_go fuel n : 0 ≤ n < 16 ^ Z.of_nat fuel → unhex (hex_go fuel n) = n.
Proof.
  unfold unhex. revert n. induction fuel as [|fuel IH]; intros n Hn.
  { change (16 ^ Z.of_nat 0) with 1 in Hn. cbn. lia. }
  cbn [hex_go]. destruct (Z.ltb_spec n 16); [rewrite unhex_digit; lia|].
  rewrite fold_left_app, IH, unhex_digit.
  - pose proof (Z.div_mod n 16). lia.
  - by apply Z.mod_pos_bound.
  - rewrite Nat2Z.inj_succ, Z.pow_succ_r in Hn by lia.
    split; [apply Z.div_pos; lia|apply Z.div_lt_upper_bound; lia].
Qed.

Definition is_uint64 (n : Z) : Prop := 0 ≤ n < 2 ^ 64.

Lemma hex64_inj n m : is_uint64 n → is_uint64 m → hex64 n = hex64 m → n = m.
Proof.
  unfold hex64, is_uint64. intros Hn Hm Heq. apply (f_equal unhex) in Heq.
  by rewrite !unhex_go in Heq by (change (16 ^ Z.of_nat 16) with (2 ^ 64); lia).
Qed.

Lemma fnv_write_uint64 h bs : is_uint64 h → is_uint64 (fnv_write h bs).
Proof.
  unfold fnv_write. revert h. induction bs as [|b bs IH]; intros h Hh; cbn; [done|].
  apply IH. by apply Z.mod_pos_bound.
Qed.

Lemma app_sep_inj (c : Z) (a b x y : text) :
  c ∉ a → c ∉ b → a ++ [c] ++ x = b ++ [c] ++ y → a = b ∧ x = y.
Proof.
  revert b. induction a as [|d a IH]; intros [|e b]; cbn; intros Ha Hb Heq.
  - by injection Heq.
  - injection Heq as -> _. set_solver.
  - injection Heq as -> _. set_solver.
  - injection Heq as -> Heq. destruct (IH b) as [-> ->]; set_solver.
Qed.

Lemma hex_no_sep n : 124 ∉ hex64 n.
Proof.
  unfold hex64. generalize 16%nat. intros fuel. revert n. induction fuel as [|fuel IH]; intros n; cbn; [set_solver|].
  assert (Hd : ∀ d, d < 16 → 124 ∉ hex_digit d).
  { intros d Hd. unfold hex_digit. destruct (Z.ltb_spec d 10); rewrite list_elem_of_singleton; lia. }
  destruct (Z.ltb_spec n 16); [by apply Hd|]. rewrite elem_of_app. intros [?|?]; [by eapply IH|].
  eapply Hd; [|done]. by apply Z.mod_pos_bound.
Qed.

Lemma profile_features_uint64 fuel h body p r :
  is_uint64 h → profile_features fuel h body p = Some r → is_uint64 r.
Proof.
  revert h p. induction fuel as [|fuel IH]; intros h p Hh; cbn [profile_features]; [done|].
  case_match; [by intros [= <-]|]. intros (id & _ & Hr)%bind_Some. revert Hr.
  case_match; [intros [= <-]; by apply (fnv_write_uint64 h [0xFF])|].
  case_match; [by intros [= <-]|]. intros (b & _ & (dl & _ & Hr)%bind_Some)%bind_Some. revert Hr.
  case_match; [by intros [= <-]|]. intros (f & _ & Hr)%bind_Some.
  eapply IH; [|exact Hr]. by apply fnv_write_uint64.
Qed.

Lemma fnv_offset_uint64 : is_uint64 fnv_offset.
Proof. by vm_compute. Qed.

Lemma LoginProfile_uint64 body r : LoginProfile body = Some r → is_uint64 r.
Proof.
  unfold LoginProfile. intros (h & Hh & Hr)%bind_Some.
  assert (Hu : is_uint64 h).
  { clear Hr. pose proof fnv_offset_uint64. revert Hh. destruct (36 <=? len body); [|by intros [= <-]].
    intros (a & _ & (b & _ & (c & _ & [= <-])%bind_Some)%bind_Some)%bind_Some.
    by repeat apply fnv_write_uint64. }
  clear Hh. revert Hr. case_match; [by intros [= <-]|]. intros (fl & _ & Hr)%bind_Some. revert Hr.
  case_match; [by intros [= <-]|]. intros (b & _ & (ptr & _ & Hr)%bind_Some)%bind_Some. revert Hr.
  case_match; [|by intros [= <-]]. intros (c & _ & (blk & _ & Hr)%bind_Some)%bind_Some.
  by eapply profile_features_uint64.
Qed.

(** The logins that get a key. *)
Lemma login_key_Some addr lType lBody key :
  login_key addr lType lBody = Some (Some key) →
  ∃ info, lType = TypeLogin7 ∧ ParseLogin7 lBody = Some (Some info) ∧
          liIntegrated info = false ∧ liFedAuth info = false ∧ is_uint64 (liProfile info) ∧
          key = poolKey addr info.
Proof.
  unfold login_key. destruct (Z.eqb_spec lType TypeLogin7); cbn; [|done].
  destruct (ParseLogin7 lBody) as [[info|]|] eqn:Ep; cbn; [|done..].
  destruct (liIntegrated info) eqn:Ei; [done|]. destruct (liFedAuth info) eqn:Ef; [done|].
  intros [= <-]. exists info. split_and!; try done. revert Ep. unfold ParseLogin7.
  case_match; [done|]. intros (u & _ & (pw & _ & (db & _ & Hr)%bind_Some)%bind_Some)%bind_Some.
  revert Hr. destruct u as [[??]|], pw as [[??]|], db as [[??]|]; try done.
  intros (f & _ & (fed & _ & (prof & Hprof & [= <-])%bind_Some)%bind_Some)%bind_Some.
  cbn. by eapply LoginProfile_uint64.
Qed.

(** sessions share backends only with their own credentials: a login with integrated or federated
    authentication gets no key at all, and two accepted logins with the same key, whose user and
    database names hold no separator, have the same user, database, wire-format profile and password
    hash. *)
Theorem login_key_separates (addr : text) (t1 t2 : Z) (b1 b2 : bytes) (key : text)
    (H1 : login_key addr t1 b1 = Some (Some key)) (H2 : login_key addr t2 b2 = Some (Some key)) :
  ∃ i1 i2, ParseLogin7 b1 = Some (Some i1) ∧ ParseLogin7 b2 = Some (Some i2) ∧
    liIntegrated i1 = false ∧ liFedAuth i1 = false ∧
    (124 ∉ liUser i1 → 124 ∉ liUser i2 → 124 ∉ liDatabase i1 → 124 ∉ liDatabase i2 →
     liUser i1 = liUser i2 ∧ liDatabase i1 = liDatabase i2 ∧ liProfile i1 = liProfile i2 ∧
     fnv_write fnv_offset (liPassField i1) = fnv_write fnv_offset (liPassField i2)).
Proof.
  apply login_key_Some in H1 as (i1 & _ & Hp1 & Hi1 & Hf1 & Hu1 & Hk1).
  apply login_key_Some in H2 as (i2 & _ & Hp2 & _ & _ & Hu2 & Hk2).
  exists i1, i2. split_and!; try done. intros ????. unfold poolKey in *.
  rewrite Hk1 in Hk2. apply app_inv_head in Hk2. injection Hk2 as Hk2.
  apply app_sep_inj in Hk2 as [-> Hk2]; [|done..].
  apply app_sep_inj in Hk2 as [-> Hk2]; [|done..].
  apply app_sep_inj in Hk2 as [Hh Hk2]; [|apply hex_no_sep..].
  pose proof fnv_offset_uint64.
  split_and!; try done; apply hex64_inj; try done; by apply fnv_write_uint64.
Qed.

(** The separator is not escaped: a user name or database name with a ["|"] can collide. *)
Lemma poolKey_collision :
  let i1 := mkLogin7 (tx "a|b") (tx "c") [1; 2] false false 0 in
  let i2 := mkLogin7 (tx "a") (tx "b|c") [1; 2] false false 0 in
  poolKey (tx "db:1433") i1 = poolKey (tx "db:1433") i2 ∧ liUser i1 ≠ liUser i2.
Proof. vm_compute. done. Qed.

Lemma login_key_separates_witness :
  let b := replicate 72 0 in
  ∃ key, login_key (tx "db") TypeLogin7 b = Some (Some key) ∧
  ∃ i1 i2, ParseLogin7 b = Some (Some i1) ∧ ParseLogin7 b = Some (Some i2) ∧
    liIntegrated i1 = false ∧ liFedAuth i1 = false ∧
    (124 ∉ liUser i1 → 124 ∉ liUser i2 → 124 ∉ liDatabase i1 → 124 ∉ liDatabase i2 →
     liUser i1 = liUser i2 ∧ liDatabase i1 = liDatabase i2 ∧ liProfile i1 = liProfile i2 ∧
     fnv_write fnv_offset (liPassField i1) = fnv_write fnv_offset (liPassField i2)).
Proof.
  eexists. split; [vm_compute; reflexivity|].
  eapply (login_key_separates (tx "db") TypeLogin7 TypeLogin7 (replicate 72 0) (replicate 72 0));
    vm_compute; reflexivity.
Defined.

(** ** Borrowing *)

(** acquireUsable only hands out a backend whose probe answered alive (or a slot to open a fresh
    one), gives every dead one it met back to Discard, in order, and makes at most four attempts. *)
Theorem acquireUsable_alive (outs : nat → acquired * bool) (r : acquired) (dead : list Backend)
    (H : acquireUsable outs = (r, dead)) :
  (length dead ≤ 4)%nat ∧
  (∀ i b, dead !! i = Some b → outs i = (Warm b, false)) ∧
  match r with
  | Warm b => outs (length dead) = (Warm b, true)
  | Cold => ∃ a, outs (length dead) = (Cold, a)
  | TimedOut => length dead = 4%nat ∨ ∃ a, outs (length dead) = (TimedOut, a)
  end.
Proof.
  enough (G : ∀ tries n r dead, acquireUsable_loop tries outs n = (r, dead) →
    (length dead ≤ tries)%nat ∧
    (∀ i b, dead !! i = Some b → outs (n + i)%nat = (Warm b, false)) ∧
    match r with
    | Warm b => outs (n + length dead)%nat = (Warm b, true)
    | Cold => ∃ a, outs (n + length dead)%nat = (Cold, a)
    | TimedOut => length dead = tries ∨ ∃ a, outs (n + length dead)%nat = (TimedOut, a)
    end) by exact (G 4%nat 0%nat r dead H).
  clear. induction tries as [|tries IH]; intros n r dead; cbn [acquireUsable_loop].
  { intros [= <- <-]. cbn. split_and!; [lia|done|by left]. }
  destruct (outs n) as [[b| |] alive] eqn:En; cbn; cycle 1.
  1-2: intros [= <- <-]; cbn; rewrite Nat.add_0_r; split_and!; [lia|done|eauto].
  destruct alive; [intros [= <- <-]; cbn; rewrite Nat.add_0_r; split_and!; [lia|done|done]|].
  destruct (acquireUsable_loop tries outs (S n)) as [r' dead'] eqn:El. intros [= <- <-].
  apply IH in El as (Hl & Hd & Hr). cbn. split_and!; [lia| |].
  - intros [|i] b'; cbn.
    + intros [= <-]. by rewrite Nat.add_0_r.
    + intros Hi. rewrite <- Nat.add_succ_comm. by apply Hd.
  - destruct r'; rewrite <- Nat.add_succ_comm; [done|done|]. destruct Hr as [->|?]; eauto.
Qed.

Definition probe_script (n : nat) : acquired * bool :=
  match n with O => (Warm (mkBackend 3 false), false) | _ => (Cold, false) end.

Lemma acquireUsable_alive_witness :
  acquireUsable probe_script = (Cold, [mkBackend 3 false]) ∧
  (length [mkBackend 3 false] ≤ 4)%nat.
Proof.
  assert (H : acquireUsable probe_script = (Cold, [mkBackend 3 false])) by reflexivity.
  split; [exact H|]. exact (proj1 (acquireUsable_alive _ _ _ H)).
Defined.

(** ** The relay's verdict *)

(** The messages a sequence of packets carries, given the type and bytes already gathered. *)
Fixpoint messages (ty : Z) (buf : bytes) (ps : list Packet) : list (Z * bytes) :=
  match ps with
  | [] => []
  | p :: ps =>
      let ty := if len buf =? 0 then pType p else ty in
      let buf := buf ++ pBody p in
      if EOM p then (ty, buf) :: messages ty [] ps else messages ty buf ps
  end.

Definition at_boundary (ps : list Packet) : bool :=
  match last ps with Some p => EOM p | None => true end.

(** What the client sent, with the reset bit on its first packet of a reused backend. *)
Definition forwarded (needReset : bool) (ps : list Packet) : bytes :=
  match ps with
  | p :: ps => (if needReset then WithResetConnection (pRaw p) else pRaw p) ++ concat (pRaw <$> ps)
  | [] => []
  end.

(** A session is clean when every request is multiplexable, or a prelude before the first batch that is. *)
Fixpoint clean_from (saw : bool) (ms : list (Z * bytes)) : Prop :=
  match ms with
  | [] => True
  | (ty, b) :: ms =>
      if isClientWork ty then
        ∃ v, Classify ty b = Some v ∧ (vPin v = false ∨ vPrelude v = true ∧ saw = false) ∧
             clean_from (saw || ((ty =? TypeSQLBatch) && negb (vPin v))) ms
      else clean_from saw ms
  end.

Definition requests (ms : list (Z * bytes)) : list (Z * bytes) := filter (λ m, isClientWork m.1) ms.

(** The pin decision of one request against [clean_from]. *)
Lemma clean_step (pinned saw : bool) (v : Verdict) (P : Verdict → Prop) :
  pinned || vPin v && negb (vPrelude v && negb saw) = false ∧ P v ↔
  pinned = false ∧ ∃ v', Some v = Some v' ∧ (vPin v' = false ∨ vPrelude v' = true ∧ saw = false) ∧ P v'.
Proof.
  split.
  - intros [Hb HP]. apply orb_false_iff in Hb as [-> Hb]. split; [done|]. exists v. split_and!; [done| |done].
    destruct (vPin v), (vPrelude v), saw; naive_solver.
  - intros (-> & v' & [= <-] & Hv & HP). split; [|done].
    destruct (vPin v), (vPrelude v), saw; naive_solver.
Qed.

#[local] Arguments Classify : simpl never.
#[local] Arguments isClientWork : simpl never.
#[local] Arguments Z.eqb : simpl never.

Lemma relay_packets_spec needReset ps st st' :
  rFirst st = false → relay_packets needReset st ps = Some st' →
  let ms := messages (rType st) (rBuf st) ps in
  rWritten st' = rWritten st ++ concat (pRaw <$> ps) ∧
  rReqCount st' = rReqCount st + len (requests ms) ∧
  (rPinned st' = false ↔ rPinned st = false ∧ clean_from (rSawRealBatch st) ms) ∧
  rAtBoundary st' = match last ps with Some p => EOM p | None => rAtBoundary st end.
Proof.
  revert st. induction ps as [|p ps IH]; intros st Hf; cbn [relay_packets].
  { intros [= <-]. cbn. rewrite app_nil_r. split_and!; [done|unfold len; cbn; lia|naive_solver|done]. }
  intros (s & Hs & Hr)%bind_Some. unfold relay_packet in Hs. rewrite Hf in Hs. cbn [andb] in Hs.
  cbn [messages]. set (ty := if len (rBuf st) =? 0 then _ else _) in *.
  assert (Hlast : ∀ b, match last (p :: ps) with Some p => EOM p | None => b end
                       = match last ps with Some q => EOM q | None => EOM p end).
  { intros b. rewrite last_cons. by destruct (last ps). }
  rewrite Hlast. cbn [fmap list_fmap concat]. rewrite app_assoc.
  destruct (EOM p) eqn:He.
  - unfold relay_message in Hs. cbn in Hs. destruct (isClientWork ty) eqn:Hw.
    + apply bind_Some in Hs as (v & Hv & [= <-]).
      apply IH in Hr as (Hwr & Hn & Hp & Hb); [|done]. cbn in Hwr, Hn, Hp, Hb.
      split_and!; [done| | |done].
      * rewrite Hn. unfold requests. rewrite filter_cons_True by (cbn; by rewrite Hw).
        unfold len. cbn. lia.
      * rewrite Hp. cbn [clean_from]. rewrite Hw, Hv.
        exact (clean_step (rPinned st) (rSawRealBatch st) v
                 (λ v, clean_from (rSawRealBatch st || (ty =? TypeSQLBatch) && negb (vPin v)) (messages ty [] ps))).
    + injection Hs as <-. apply IH in Hr as (Hwr & Hn & Hp & Hb); [|done]. cbn in Hwr, Hn, Hp, Hb.
      split_and!; [done| | |done].
      * rewrite Hn. unfold requests. rewrite filter_cons_False by (cbn; rewrite Hw; exact id). done.
      * rewrite Hp. cbn [clean_from]. by rewrite Hw.
  - injection Hs as <-. by apply IH in Hr as (Hwr & Hn & Hp & Hb).
Qed.

(** what relaySession does to a session: the backend receives the client's packets byte for byte,
    except for the reset bit on the first packet of a reused backend; the backend is declared
    returnable exactly when the client left between two messages, every request has been answered, and
    every request was poolable (or a prelude before the first poolable batch). *)
Theorem relaySession_returnable (needReset : bool) (ps : list Packet) (n : Z) (st : Relay)
    (H : relay_packets needReset initRelay ps = Some st) :
  let ms := messages 0 [] ps in
  rWritten st = forwarded needReset ps ∧
  ((relay_result st (ClientDone n)).2 = true ↔
   at_boundary ps = true ∧ n = len (requests ms) ∧ clean_from false ms) ∧
  ((relay_result st (ClientDone n)).1.1 = false ↔ clean_from false ms) ∧
  (relay_result st WriteFailed).2 = false ∧ (relay_result st BackendDone).2 = false.
Proof.
  enough (G : rWritten st = forwarded needReset ps ∧ rReqCount st = len (requests (messages 0 [] ps)) ∧
    (rPinned st = false ↔ clean_from false (messages 0 [] ps)) ∧ rAtBoundary st = at_boundary ps).
  { destruct G as (Hw & Hn & Hp & Hb). cbn. rewrite Hb, Hn. split_and!; try done.
    - destruct (at_boundary ps), (Z.eqb_spec (len (requests (messages 0 [] ps))) n); cbn;
        rewrite ?negb_true_iff, ?Hp; naive_solver.
    - by destruct (at_boundary ps && _). }
  destruct ps as [|p ps].
  { injection H as <-. by cbn. }
  set (p' := mkPacket (pType p) (pStatus p)
               (if needReset then WithResetConnection (pRaw p) else pRaw p) (pBody p)).
  assert (H' : relay_packets needReset (mkRelay false true 0 [] false [] false 0 []) (p' :: ps) = Some st).
  { rewrite <- H. unfold initRelay. cbn [relay_packets]. unfold relay_packet. cbn.
    by destruct needReset. }
  apply relay_packets_spec in H' as (Hw & Hn & Hp & Hb); [|done]. cbn in Hw, Hp, Hn.
  split_and!; [done|done|naive_solver|]. rewrite Hb. unfold at_boundary. rewrite !last_cons.
  by destruct (last ps).
Qed.

Definition relay_demo : list Packet :=
  let body := [22; 0; 0; 0] ++ [115; 0; 101; 0; 108; 0] in
  [mkPacket TypeSQLBatch 1 ([TypeSQLBatch; 1; 0; 18; 0; 0; 0; 0] ++ body) body].

Lemma relaySession_returnable_witness :
  ∃ st, relay_packets true initRelay relay_demo = Some st ∧
        rWritten st = forwarded true relay_demo ∧ rWritten st ≠ forwarded false relay_demo.
Proof.
  eexists. assert (H : ∃ st, relay_packets true initRelay relay_demo = Some st) by (eexists; vm_compute; reflexivity).
  split; [vm_compute; reflexivity|].
  split; [|vm_compute; congruence].
  exact (proj1 (relaySession_returnable true relay_demo 1 _ eq_refl)).
Defined.

(** ** The whole session *)

(** What the network answers during one session: [None] and [false] are errors. *)
Record SessionIO := mkIO {
  ioPeek : option Z;                          (* the client's first byte *)
  ioStrict : bool;                            (* the TLS-first handshake *)
  ioPrelogin : option (Z * bytes * bytes);    (* ReadMessage: type, body, raw *)
  ioAnswer : bool;                            (* writing the PRELOGIN answer *)
  ioTunnel : bool;                            (* the tunneled handshake and its SetDone *)
  ioLogin : option (Z * bytes * bytes);
  ioAcquire : nat → acquired * bool;          (* Acquire and probeIdle, per try *)
  ioLoginResp : option bytes;                 (* LoginResp of the key *)
  ioWriteLogin : bool;
  ioDial : option Z;
  ioBackendPre : bool;
  ioBackendPreReply : bool;
  ioBackendLogin : bool;
  ioBackendLoginReply : option bytes;
  ioClientLogin : bool;
  ioRelay : Backend → bool → bool;            (* relaySession's [returnable] *)
}.

(** What the session does: to the client, to the backend and to the pool. *)
Inductive event :=
| ToClient (b : bytes)
| ToBackend (b : bytes)
| TookWarm (b : Backend)
| TookSlot
| GaveBack (b : Backend)            (* pool.Return *)
| Dropped (b : option Backend)      (* pool.Discard *)
| Captured (resp : bytes)
| Relayed (b : Backend) (needReset : bool).

(** Step 0: TLS-first clients.  [None] ends the session. *)
Definition preface (hasTLSConfig : bool) (io : SessionIO) : option bool :=
  if hasTLSConfig then
    first ← ioPeek io;
    if first =? 0x16 then (if ioStrict io then Some true else None) else Some false
  else Some false.

(** Step 1: the PRELOGIN exchange: what is written, and whether TLS is up afterwards. *)
Definition prelogin_exchange (hasTLSConfig : bool) (synthPrelogin : bytes) (tlsTerminated : bool)
    (io : SessionIO) (clientEnc : Z) : list event * option bool :=
  match prelogin_switch tlsTerminated hasTLSConfig clientEnc with
  | AnswerEncryptOn =>
      ([ToClient (BuildPreloginResponseEnc EncryptOn)], if ioAnswer io then Some tlsTerminated else None)
  | TunnelTLS =>
      ([ToClient (BuildPreloginResponseEnc EncryptReq)],
       if ioAnswer io then (if ioTunnel io then Some true else None) else None)
  | Refuse => ([], None)
  | AnswerPlaintext => ([ToClient synthPrelogin], if ioAnswer io then Some tlsTerminated else None)
  end.

(** Step 3, cold: open a backend, replay PRELOGIN and LOGIN7 on it, and capture its answer. *)
Definition cold_open (pre lRaw : bytes) (io : SessionIO) : list event * option Backend :=
  match ioDial io with
  | None => ([Dropped None], None)
  | Some conn =>
      if negb (ioBackendPre io) then ([ToBackend pre; Dropped None], None)
      else if negb (ioBackendPreReply io) then ([ToBackend pre; Dropped None], None)
      else if negb (ioBackendLogin io) then ([ToBackend pre; ToBackend lRaw; Dropped None], None)
      else
        match ioBackendLoginReply io with
        | None => ([ToBackend pre; ToBackend lRaw; Dropped None], None)
        | Some loginRaw =>
            if negb (ioClientLogin io)
            then ([ToBackend pre; ToBackend lRaw; ToClient loginRaw; Dropped None], None)
            else ([ToBackend pre; ToBackend lRaw; ToClient loginRaw; Captured loginRaw],
                  Some (mkBackend conn true))
        end
  end.

(** Step 3, warm: replay the captured login answer to the client. *)
Definition warm_reuse (b : Backend) (io : SessionIO) : list event * option Backend :=
  match ioLoginResp io with
  | None => ([Dropped (Some b)], None)
  | Some resp =>
      if ioWriteLogin io then ([ToClient resp], Some b) else ([ToClient resp; Dropped (Some b)], None)
  end.

(** Steps 4 and 5: relay, then return or discard. *)
Definition relay_and_release (b : Backend) (reset : bool) (io : SessionIO) : list event :=
  [Relayed b reset; if ioRelay io b reset then GaveBack b else Dropped (Some b)].

Definition borrow_and_relay (pre lRaw : bytes) (io : SessionIO) : list event :=
  let '(r, dead) := acquireUsable (ioAcquire io) in
  let evicted := dead ≫= λ b, [TookWarm b; Dropped (Some b)] in
  match r with
  | TimedOut => evicted
  | Warm b =>
      let '(evs, ob) := warm_reuse b io in
      evicted ++ TookWarm b :: evs ++ match ob with Some b => relay_and_release b true io | None => [] end
  | Cold =>
      let '(evs, ob) := cold_open pre lRaw io in
      evicted ++ TookSlot :: evs ++ match ob with Some b => relay_and_release b false io | None => [] end
  end.

(** handle, with per-transaction multiplexing off; [None] is a Go panic. *)
Definition handle (hasTLSConfig : bool) (synthPrelogin : bytes) (backendAddr : text) (io : SessionIO)
    : option (list event) :=
  match preface hasTLSConfig io with
  | None => Some []
  | Some tls =>
      match ioPrelogin io with
      | None => Some []
      | Some (pType, preBody, preRaw) =>
          if negb (pType =? TypePreLogin) then Some []
          else
            mars ← PreloginRequestsMARS preBody;
            clientEnc ← PreloginEncryption preBody;
            let '(evs, r) := prelogin_exchange hasTLSConfig synthPrelogin tls io clientEnc in
            match r, ioLogin io with
            | Some tls, Some (lType, lBody, lRaw) =>
                key ← login_key backendAddr lType lBody;
                match key with
                | None => Some evs
                | Some key => Some (evs ++ borrow_and_relay (backendPre tls preRaw) lRaw io)
                end
            | _, _ => Some evs
            end
      end
  end.

(** Slots taken from the pool and slots given back to it. *)
Definition is_take (e : event) : bool :=
  match e with TookWarm _ | TookSlot => true | _ => false end.
Definition is_give (e : event) : bool :=
  match e with GaveBack _ | Dropped _ => true | _ => false end.
Definition takes (evs : list event) : nat := length (filter is_take evs).
Definition gives (evs : list event) : nat := length (filter is_give evs).

Lemma takes_app a b : takes (a ++ b) = (takes a + takes b)%nat.
Proof. unfold takes. by rewrite filter_app, length_app. Qed.
Lemma gives_app a b : gives (a ++ b) = (gives a + gives b)%nat.
Proof. unfold gives. by rewrite filter_app, length_app. Qed.

(** The events of a session that balances its slots and only returns what its relay released. *)
Definition accounted (io : SessionIO) (evs : list event) : Prop :=
  takes evs = gives evs ∧
  ∀ b, GaveBack b ∈ evs → ∃ r, Relayed b r ∈ evs ∧ ioRelay io b r = true.

Lemma accounted_app io a b : accounted io a → accounted io b → accounted io (a ++ b).
Proof.
  intros [Ha Ra] [Hb Rb]. split; [rewrite takes_app, gives_app; lia|].
  intros be [H|H]%elem_of_app; [apply Ra in H|apply Rb in H];
    destruct H as (r & Hin & Hr); exists r; rewrite elem_of_app; auto.
Qed.

Lemma relay_accounted io evs e b r :
  takes [e] = 1%nat → gives [e] = 0%nat → (∀ x, e ≠ GaveBack x) →
  takes evs = 0%nat → gives evs = 0%nat → (∀ x, GaveBack x ∉ evs) →
  accounted io (e :: evs ++ relay_and_release b r io).
Proof.
  intros Ht Hg He Htevs Hgevs Hno. change (e :: evs ++ relay_and_release b r io) with
    ([e] ++ evs ++ relay_and_release b r io). split.
  - rewrite !takes_app, !gives_app, Ht, Hg, Htevs, Hgevs. unfold relay_and_release.
    by destruct (ioRelay io b r).
  - intros x. rewrite !elem_of_app. unfold relay_and_release.
    destruct (ioRelay io b r) eqn:E; set_solver.
Qed.

Lemma borrow_and_relay_accounted pre lRaw io : accounted io (borrow_and_relay pre lRaw io).
Proof.
  unfold borrow_and_relay. destruct (acquireUsable (ioAcquire io)) as [r dead] eqn:Ea. clear Ea.
  assert (Hd : accounted io (dead ≫= λ b, [TookWarm b; Dropped (Some b)])).
  { induction dead as [|b dead IH]; [split; [done|set_solver]|].
    change (accounted io ([TookWarm b; Dropped (Some b)] ++ (dead ≫= λ b, [TookWarm b; Dropped (Some b)]))).
    apply accounted_app; [split; [done|set_solver]|exact IH]. }
  destruct r as [b| |]; [| |exact Hd].
  - unfold warm_reuse. destruct (ioLoginResp io) as [resp|]; [destruct (ioWriteLogin io)|];
      apply accounted_app; try done; [apply relay_accounted; try done; set_solver|..];
      (split; [done|set_solver]).
  - unfold cold_open.
    repeat case_match; simplify_eq; apply accounted_app; try done;
      try (apply relay_accounted; try done; set_solver); (split; [done|set_solver]).
Qed.


Definition io_demo : SessionIO :=
  mkIO None false (Some (TypePreLogin, BuildClientPrelogin, [])) true false
    (Some (TypeLogin7, replicate 72 0, replicate 80 1)) (λ _, (Cold, false)) None true
    (Some 7) true true true (Some [4; 1]) true (λ _ _, true).

