(* ===== verification/GoStrings.v ===== *)
(** * Go strings

    What the control-plane packages use of Go's strings, strconv and utf8 packages, over [string] (a Go
    string is a sequence of bytes, as a [String.string] is), and wildcard patterns. *)

From Stdlib Require Export Ascii String.
From stdpp Require Export pretty.
From S2P Require Import Prelude.
#[local] Open Scope string_scope.
#[local] Open Scope Z_scope.

#[global] Arguments String.append !_ _ : simpl nomatch.

(** ** strings *)

Fixpoint sdrop (n : nat) (s : string) : string :=
  match n, s with
  | S n, String _ s => sdrop n s
  | _, _ => s
  end.

(** strings.HasPrefix and strings.CutPrefix. *)
Definition HasPrefix (s p : string) : bool := String.prefix p s.
Definition CutPrefix (s p : string) : option string :=
  if HasPrefix s p then Some (sdrop (String.length p) s) else None.
Definition TrimPrefix (s p : string) : string := default s (CutPrefix s p).

Fixpoint contains_char (c : ascii) (s : string) : bool :=
  match s with
  | "" => false
  | String d s => Ascii.eqb c d || contains_char c s
  end.

(** strings.ContainsAny. *)
Fixpoint ContainsAny (s chars : string) : bool :=
  match s with
  | "" => false
  | String d s => contains_char d chars || ContainsAny s chars
  end.

(** strings.Cut: around the first instance of [sep]; strings.Contains. *)
Fixpoint Cut (s sep : string) : option (string * string) :=
  match CutPrefix s sep with
  | Some rest => Some ("", rest)
  | None =>
      match s with
      | "" => None
      | String c s => '(a, b) ← Cut s sep; Some (String c a, b)
      end
  end.
Definition Contains (s sub : string) : bool := bool_decide (is_Some (Cut s sub)).

(** strings.Split on one byte. *)
Fixpoint Split (s : string) (sep : ascii) : list string :=
  match s with
  | "" => [""]
  | String c s =>
      if Ascii.eqb c sep then "" :: Split s sep
      else match Split s sep with
           | a :: l => String c a :: l
           | [] => [String c ""]
           end
  end.

(** strings.ReplaceAll of one byte. *)
Fixpoint ReplaceByte (s : string) (c : ascii) (by_ : string) : string :=
  match s with
  | "" => ""
  | String d s => (if Ascii.eqb d c then by_ else String d "") +:+ ReplaceByte s c by_
  end.

(** strings.Join. *)
Definition Join (xs : list string) (sep : string) : string := String.concat sep xs.

(** Go's order on strings, for sort.Strings. *)
Definition string_le (a b : string) : Prop := String.leb a b = true.
#[export] Instance string_le_dec : RelDecision string_le.
Proof. intros a b. unfold string_le. apply _. Defined.

Definition byte_of (c : ascii) : Z := Z.of_N (N_of_ascii c).
Definition ascii_of (b : Z) : ascii := ascii_of_N (Z.to_N b).

Definition in_range (lo hi : ascii) (c : ascii) : bool :=
  (byte_of lo <=? byte_of c) && (byte_of c <=? byte_of hi).

(** strings.ToLower, on the letters whose lower case is ASCII (U+0130 and the Kelvin sign among them);
    other letters are left as they are, which no comparison with an ASCII word can tell. *)
Definition lower_byte (c : ascii) : ascii :=
  if in_range "A" "Z" c then ascii_of (byte_of c + 32) else c.
Definition bytes_are (s : string) (bs : list Z) : bool :=
  HasPrefix s (string_of_list_ascii (map ascii_of bs)).
Fixpoint ToLower (s : string) : string :=
  match s with
  | "" => ""
  | String c rest =>
      match rest with
      | String _ rest2 =>
          if bytes_are s [0xC4; 0xB0] then String "i" (ToLower rest2)
          else match rest2 with
               | String _ rest3 =>
                   if bytes_are s [0xE2; 0x84; 0xAA] then String "k" (ToLower rest3)
                   else String (lower_byte c) (ToLower rest)
               | "" => String (lower_byte c) (ToLower rest)
               end
      | "" => String (lower_byte c) (ToLower rest)
      end
  end.

(** strings.EqualFold of an ASCII word: letters fold to lower case, and the long s and the Kelvin sign to
    s and k. *)
Fixpoint fold_case (s : string) : string :=
  match s with
  | "" => ""
  | String c rest =>
      match rest with
      | String _ rest2 =>
          if bytes_are s [0xC5; 0xBF] then String "s" (fold_case rest2)
          else match rest2 with
               | String _ rest3 =>
                   if bytes_are s [0xE2; 0x84; 0xAA] then String "k" (fold_case rest3)
                   else String (lower_byte c) (fold_case rest)
               | "" => String (lower_byte c) (fold_case rest)
               end
      | "" => String (lower_byte c) (fold_case rest)
      end
  end.
Definition EqualFold (a s : string) : bool := String.eqb (fold_case a) (fold_case s).

Fixpoint forall_char (f : ascii → bool) (s : string) : bool :=
  match s with "" => true | String c s => f c && forall_char f s end.

(** ** strconv *)

Definition is_digit (c : ascii) : bool := in_range "0" "9" c.

Fixpoint digits (s : string) (acc : Z) : option Z :=
  match s with
  | "" => Some acc
  | String c s => if is_digit c then digits s (acc * 10 + (byte_of c - 48)) else None
  end.

(** strconv.ParseInt(s, 10, 64); [None] is an error. *)
Definition ParseInt (s : string) : option Z :=
  let '(neg, body) :=
    match s with
    | String c rest =>
        if Ascii.eqb c "-" then (true, rest) else if Ascii.eqb c "+" then (false, rest) else (false, s)
    | "" => (false, s)
    end in
  match body with
  | "" => None
  | _ =>
      n ← digits body 0;
      let n := if (neg : bool) then - n else n in
      if (- 2 ^ 63 <=? n) && (n <? 2 ^ 63) then Some n else None
  end.

(** strconv.FormatInt(n, 10) of an int64. *)
Fixpoint format_digits (fuel : nat) (n : Z) : string :=
  match fuel with
  | O => ""
  | S fuel => (if n <? 10 then "" else format_digits fuel (n / 10)) +:+ String (ascii_of (48 + n mod 10)) ""
  end.
Definition FormatInt (n : Z) : string :=
  if n <? 0 then String "-" (format_digits 20 (- n)) else format_digits 20 n.

Definition is_cont (b : Z) : bool := (0x80 <=? b) && (b <=? 0xBF).

(** utf8.DecodeRuneInString of a non-empty string: the rune and its width; an invalid encoding is
    (0xFFFD, 1). *)
Definition decode_rune (c : ascii) (s : string) : Z * nat :=
  let b0 := byte_of c in
  let at_ n := match String.get n s with Some c => byte_of c | None => 0 end in
  let b1 := at_ 0%nat in let b2 := at_ 1%nat in let b3 := at_ 2%nat in
  if b0 <? 0x80 then (b0, 1%nat)
  else if (0xC2 <=? b0) && (b0 <=? 0xDF) && is_cont b1
  then ((b0 - 0xC0) * 64 + (b1 - 0x80), 2%nat)
  else if (0xE0 <=? b0) && (b0 <=? 0xEF) && is_cont b1 && is_cont b2
          && negb ((b0 =? 0xE0) && (b1 <? 0xA0)) && negb ((b0 =? 0xED) && (0xA0 <=? b1))
  then ((b0 - 0xE0) * 4096 + (b1 - 0x80) * 64 + (b2 - 0x80), 3%nat)
  else if (0xF0 <=? b0) && (b0 <=? 0xF4) && is_cont b1 && is_cont b2 && is_cont b3
          && negb ((b0 =? 0xF0) && (b1 <? 0x90)) && negb ((b0 =? 0xF4) && (0x90 <=? b1))
  then ((b0 - 0xF0) * 262144 + (b1 - 0x80) * 4096 + (b2 - 0x80) * 64 + (b3 - 0x80), 4%nat)
  else (0xFFFD, 1%nat).

Definition hexdig (d : Z) : string :=
  String (ascii_of (if d <? 10 then 48 + d else 87 + d)) "".
Fixpoint hexn (n : nat) (v : Z) : string :=
  match n with O => "" | S n => hexn n (v / 16) +:+ hexdig (v mod 16) end.

Definition backslash : ascii := ascii_of 92.
Definition dquote : ascii := ascii_of 34.

Fixpoint stake (n : nat) (s : string) : string :=
  match n, s with
  | S n, String c s => String c (stake n s)
  | _, _ => ""
  end.

(** unicode.IsSpace. *)
Definition is_space_rune (r : Z) : bool :=
  ((9 <=? r) && (r <=? 13)) || (r =? 32) || (r =? 0x85) || (r =? 0xA0) || (r =? 0x1680)
  || ((0x2000 <=? r) && (r <=? 0x200A)) || (r =? 0x2028) || (r =? 0x2029) || (r =? 0x202F)
  || (r =? 0x205F) || (r =? 0x3000).

(** The runes of a string, as the substrings that encode them. *)
Fixpoint runes (fuel : nat) (s : string) : list (Z * string) :=
  match fuel, s with
  | S fuel, String c rest =>
      let '(r, w) := decode_rune c rest in
      (r, String c (stake (w - 1) rest)) :: runes fuel (sdrop (w - 1) rest)
  | _, _ => []
  end.
Fixpoint drop_spaces (l : list (Z * string)) : list (Z * string) :=
  match l with
  | (r, s) :: l' => if is_space_rune r then drop_spaces l' else l
  | [] => []
  end.

(** strings.TrimSpace. *)
Definition TrimSpace (s : string) : string :=
  String.concat "" (map snd (rev (drop_spaces (rev (drop_spaces (runes (String.length s) s)))))).

(** What encoding/json writes and reads back: each invalid byte becomes U+FFFD. *)
Definition json_string (s : string) : string :=
  String.concat "" (map (λ rs, if (fst rs =? 0xFFFD) && bool_decide (String.length (snd rs) = 1%nat)
                               then string_of_list_ascii (map ascii_of [0xEF; 0xBF; 0xBD]) else snd rs)
    (runes (String.length s) s)).

Example strings_ex :
  ToLower "AdMin" = "admin" ∧ EqualFold "aws:SourceIp" "AWS:sourceip" = true ∧
  TrimSpace "  a b " = "a b" ∧ json_string "key" = "key" ∧
  json_string (String (ascii_of 255) "a") = string_of_list_ascii (map ascii_of [0xEF; 0xBF; 0xBD; 97]).
Proof. vm_compute. done. Qed.

(** strconv.Quote (fmt's [%q]).  [IsPrint] is strconv.IsPrint on runes above 0x7F. *)
Section Quote.
Context (IsPrint : Z → bool).

Definition quote_rune (c : ascii) (s : string) : string :=
  let '(r, w) := decode_rune c s in
  let esc x := String backslash (String x "") in
  if (r =? 0xFFFD) && bool_decide (w = 1%nat) then String backslash ("x" +:+ hexn 2 (byte_of c))
  else if (r =? 34) || (r =? 92) then esc c
  else if (if r <? 0x80 then (32 <=? r) && (r <? 127) else IsPrint r)
  then String c (stake (w - 1) s)
  else if r =? 7 then esc "a"%char else if r =? 8 then esc "b"%char else if r =? 12 then esc "f"%char
  else if r =? 10 then esc "n"%char else if r =? 13 then esc "r"%char else if r =? 9 then esc "t"%char
  else if r =? 11 then esc "v"%char
  else if (r <? 32) || (r =? 127) then String backslash ("x" +:+ hexn 2 r)
  else if r <? 0x10000 then String backslash ("u" +:+ hexn 4 r)
  else String backslash ("U" +:+ hexn 8 r).

Fixpoint quote_body (fuel : nat) (s : string) : string :=
  match fuel, s with
  | S fuel, String c rest =>
      quote_rune c rest +:+ quote_body fuel (sdrop (snd (decode_rune c rest) - 1) rest)
  | _, _ => ""
  end.

Definition Quote (s : string) : string :=
  String dquote (quote_body (String.length s) s +:+ String dquote "").
End Quote.

Example Quote_ex :
  Quote (λ _, true) (String "a" (String dquote (String (ascii_of 10) "b")))
  = String dquote ("a" +:+ String backslash (String dquote "") +:+ String backslash "nb")
      +:+ String dquote "".
Proof. vm_compute. reflexivity. Qed.

(** ** Wildcard patterns *)

(** Whether [s] matches [p], in which ["*"] stands for any sequence of bytes. *)
Fixpoint like (p s : string) : bool :=
  match p with
  | "" => String.eqb s ""
  | String c p' =>
      if Ascii.eqb c "*"
      then (fix star (s : string) : bool :=
              like p' s || match s with "" => false | String _ s => star s end) s
      else match s with
           | "" => false
           | String d s => Ascii.eqb c d && like p' s
           end
  end.

(** The declarative reading of a pattern. *)
Inductive matches_glob : string → string → Prop :=
| mg_nil : matches_glob "" ""
| mg_byte c p s : c ≠ "*"%char → matches_glob p s → matches_glob (String c p) (String c s)
| mg_star p a s : matches_glob p s → matches_glob (String "*" p) (a +:+ s).

Lemma like_spec p s : like p s = true ↔ matches_glob p s.
Proof.
  revert s. induction p as [|c p IH]; intros s; cbn [like].
  - rewrite String.eqb_eq. split; [intros ->; constructor | by inversion 1].
  - destruct (Ascii.eqb_spec c "*") as [->|Hc].
    + split.
      * induction s as [|d s IHs]; cbn; intros H; apply orb_true_iff in H as [H|H]; try done.
        { apply (mg_star _ ""). by apply IH. }
        { apply (mg_star _ ""). by apply IH. }
        { apply IHs in H. inversion H as [| |? a s' Hm]; subst; [done|].
          by apply (mg_star _ (String d a)). }
      * inversion 1 as [|????|? a s' Hm]; subst; [done|]. apply IH in Hm.
        induction a as [|d a IHa].
        { change ("" +:+ s') with s'. destruct s'; cbn; by rewrite Hm. }
        { change (String d a +:+ s') with (String d (a +:+ s')). apply orb_true_iff. right.
          apply IHa. apply mg_star. by apply IH. }
    + destruct s as [|d s]; [split; [done|by inversion 1; subst]|].
      rewrite andb_true_iff, Ascii.eqb_eq, IH. split.
      * intros [-> H]. by constructor.
      * inversion 1; subst; done.
Qed.

Lemma contains_char_false_cons c d s :
  contains_char c (String d s) = false ↔ c ≠ d ∧ contains_char c s = false.
Proof. cbn. rewrite orb_false_iff, Ascii.eqb_neq. done. Qed.

Lemma like_literal p s : contains_char "*" p = false → like p s = String.eqb p s.
Proof.
  revert s. induction p as [|c p IH]; intros s Hp.
  { cbn. by destruct s. }
  apply contains_char_false_cons in Hp as [Hc Hp]. cbn [like].
  destruct (Ascii.eqb_spec c "*"); [congruence|]. destruct s as [|d s]; [done|]. cbn [String.eqb].
  rewrite IH by done. by destruct (Ascii.eqb c d).
Qed.

Lemma like_prefix p s :
  contains_char "*" p = false → like (p +:+ "*") s = true ↔ ∃ rest, s = p +:+ rest.
Proof.
  revert s. induction p as [|c p IH]; intros s Hp.
  - rewrite like_spec. cbn. split; [by eauto|]. intros _.
    replace s with (s +:+ "") by (clear; induction s; cbn; congruence).
    apply mg_star. constructor.
  - apply contains_char_false_cons in Hp as [Hc Hp]. cbn [String.append like].
    destruct (Ascii.eqb_spec c "*"); [congruence|]. destruct s as [|d s].
    { split; [done|]. by intros [? [=]]. }
    rewrite andb_true_iff, Ascii.eqb_eq, IH by done. split.
    + intros [-> [r ->]]. by exists r.
    + intros [r [= -> ->]]. eauto.
Qed.

(** ** Prefixes *)

Lemma CutPrefix_spec s p r : CutPrefix s p = Some r ↔ s = p +:+ r.
Proof.
  unfold CutPrefix, HasPrefix. revert s. induction p as [|c p IH]; intros s; cbn.
  - destruct s; cbn; split; congruence.
  - destruct s as [|d s]; [done|]. cbn. destruct (ascii_dec c d) as [<-|Hne].
    + rewrite IH. split; [by intros ->|by intros [= ->]].
    + split; [done|]. intros [= -> ->]. done.
Qed.

Lemma append_nil_r s : s +:+ "" = s.
Proof. induction s; cbn; congruence. Qed.
Lemma append_assoc a b c : (a +:+ b) +:+ c = a +:+ (b +:+ c).
Proof. induction a; cbn; congruence. Qed.
Lemma append_inj_l a b c : a +:+ b = a +:+ c → b = c.
Proof. induction a; cbn; [done|]. intros [= H]. auto. Qed.

(** ** Cut *)

Lemma CutPrefix_None_iff s p : CutPrefix s p = None ↔ ∀ r, s ≠ p +:+ r.
Proof.
  split.
  - intros H r ->. assert (Hs : CutPrefix (p +:+ r) p = Some r) by by apply CutPrefix_spec. congruence.
  - intros H. destruct (CutPrefix s p) as [r|] eqn:E; [|done].
    apply CutPrefix_spec in E. by destruct (H r).
Qed.

Lemma HasPrefix_spec s p : HasPrefix s p = true ↔ ∃ r, s = p +:+ r.
Proof.
  pose proof (CutPrefix_spec s p) as H. unfold CutPrefix in H. destruct (HasPrefix s p).
  - split; [intros _|done]. eexists. by apply H.
  - split; [done|]. intros [r Hr]. by apply H in Hr.
Qed.

Lemma Cut_unfold s sep :
  Cut s sep = match CutPrefix s sep with
              | Some rest => Some ("", rest)
              | None => match s with
                        | "" => None
                        | String c s => '(a, b) ← Cut s sep; Some (String c a, b)
                        end
              end.
Proof. by destruct s. Qed.

Lemma Cut_spec s sep a b : Cut s sep = Some (a, b) → s = a +:+ sep +:+ b.
Proof.
  revert a. induction s as [|c s IH]; intros a; rewrite Cut_unfold.
  - destruct (CutPrefix "" sep) as [r|] eqn:E; [|done]. intros [= <- <-]. by apply CutPrefix_spec in E.
  - destruct (CutPrefix (String c s) sep) as [r|] eqn:E.
    + intros [= <- <-]. by apply CutPrefix_spec in E.
    + intros ([a' b'] & Hc & [= <- <-])%bind_Some. cbn. f_equal. by apply IH.
Qed.

(** Without the separator's first byte before it, the cut is the one written. *)
Lemma Cut_app_first c sep a b :
  contains_char c a = false → Cut (a +:+ String c sep +:+ b) (String c sep) = Some (a, b).
Proof.
  induction a as [|d a IH]; intros Ha; rewrite Cut_unfold.
  - change ("" +:+ String c sep +:+ b) with (String c sep +:+ b).
    by rewrite (proj2 (CutPrefix_spec _ _ _) eq_refl).
  - apply contains_char_false_cons in Ha as [Hd Ha]. change (String d a +:+ String c sep +:+ b) with
      (String d (a +:+ String c sep +:+ b)).
    rewrite (proj2 (CutPrefix_None_iff _ _)); [by rewrite (IH Ha)|]. by intros r [= ->].
Qed.

Lemma Cut_None_char c s : Cut s (String c "") = None ↔ contains_char c s = false.
Proof.
  induction s as [|d s IH]; rewrite Cut_unfold.
  - done.
  - cbn [contains_char]. destruct (Ascii.eqb_spec c d) as [->|Hne].
    + rewrite (proj2 (CutPrefix_spec (String d s) (String d "") s) eq_refl). done.
    + rewrite (proj2 (CutPrefix_None_iff _ _)) by (by intros r [= ->]). cbn [orb]. rewrite <- IH.
      destruct (Cut s (String c "")) as [[a b]|]; cbn; done.
Qed.

Lemma Cut_char_before c s a b : Cut s (String c "") = Some (a, b) → contains_char c a = false.
Proof.
  revert a. induction s as [|d s IH]; intros a; rewrite Cut_unfold; [done|].
  destruct (CutPrefix (String d s) (String c "")) as [r|] eqn:E; [by intros [= <- _]|].
  intros ([a' b'] & Hc & [= <- <-])%bind_Some. apply contains_char_false_cons. split; [|by eapply IH].
  intros ->. apply CutPrefix_None_iff with (r := s) in E. done.
Qed.

Lemma contains_char_append c a b : contains_char c (a +:+ b) = contains_char c a || contains_char c b.
Proof. induction a as [|d a IH]; cbn; [done|]. by rewrite IH, orb_assoc. Qed.

(** Two ways of writing a typed name agree when neither the type nor the rest of one holds a colon. *)
Lemma typed_inj a x b y :
  contains_char ":" b = false → contains_char ":" y = false →
  a +:+ "::" +:+ x = b +:+ "::" +:+ y → a = b ∧ x = y.
Proof.
  revert b. induction a as [|c a IH]; intros [|d b] Hb Hy; cbn.
  - by intros [= ->].
  - intros [= <- _]. done.
  - intros [= -> He]. exfalso. destruct a as [|c' a]; cbn in He; [injection He as He2|injection He as He1 He2].
    + subst y. done.
    + subst c' y. rewrite contains_char_append in Hy. cbn in Hy. by rewrite orb_true_r in Hy.
  - intros [= -> He]. apply contains_char_false_cons in Hb as [_ Hb].
    destruct (IH b Hb Hy He) as [-> ->]. done.
Qed.

(** strings.SplitN on one byte. *)
Fixpoint SplitN (s : string) (sep : ascii) (n : nat) : list string :=
  match n with
  | O => []
  | S O => [s]
  | S n =>
      match Cut s (String sep "") with
      | Some (a, b) => a :: SplitN b sep n
      | None => [s]
      end
  end.

(** strings.Count of one byte. *)
Fixpoint CountByte (c : ascii) (s : string) : nat :=
  match s with "" => O | String d s => ((if Ascii.eqb c d then 1 else 0) + CountByte c s)%nat end.

(** What precedes the first [sep] (the whole string without one): the first result of strings.Cut. *)
Definition before (s sep : string) : string := match Cut s sep with Some (a, _) => a | None => s end.

(** What follows the last byte [c]: s[strings.LastIndex(s, c)+1:]. *)
Fixpoint after_last (c : ascii) (s : string) : string :=
  match s with
  | "" => ""
  | String _ rest => if contains_char c s then after_last c rest else s
  end.

Definition HasSuffix (s suf : string) : bool :=
  (String.length suf <=? String.length s)%nat &&
  String.eqb (sdrop (String.length s - String.length suf) s) suf.

(** ** Integers *)

Lemma byte_of_ascii_of b : 0 ≤ b < 256 → byte_of (ascii_of b) = b.
Proof.
  intros Hb. unfold byte_of, ascii_of. rewrite N_ascii_embedding by lia. lia.
Qed.

Lemma digits_app s c acc :
  is_digit c = true →
  digits (s +:+ String c "") acc = match digits s acc with
                                   | Some m => Some (m * 10 + (byte_of c - 48))
                                   | None => None
                                   end.
Proof.
  intros Hc. revert acc. induction s as [|d s IH]; intros acc; cbn; [by rewrite Hc|].
  destruct (is_digit d); [apply IH|done].
Qed.

Lemma digit_char d : 0 ≤ d < 10 → is_digit (ascii_of (48 + d)) = true ∧ byte_of (ascii_of (48 + d)) = 48 + d.
Proof.
  intros Hd. rewrite byte_of_ascii_of by lia. split; [|done]. unfold is_digit, in_range.
  rewrite byte_of_ascii_of by lia. apply andb_true_iff. rewrite !Z.leb_le.
  change (byte_of "0") with 48. change (byte_of "9") with 57. lia.
Qed.

Lemma digits_format fuel n : 0 ≤ n < 10 ^ Z.of_nat fuel → fuel ≠ O → digits (format_digits fuel n) 0 = Some n.
Proof.
  revert n. induction fuel as [|fuel IH]; intros n Hn Hf; [done|]. cbn [format_digits].
  assert (Hm : 0 ≤ n mod 10 < 10) by by apply Z.mod_pos_bound.
  destruct (digit_char (n mod 10) Hm) as [Hd Hb].
  destruct (Z.ltb_spec n 10).
  - change ("" +:+ ?x) with x. cbn [digits]. rewrite Hd, Hb, Z.mod_small by lia. f_equal. lia.
  - assert (Hq : 0 ≤ n / 10 < 10 ^ Z.of_nat fuel).
    { rewrite Nat2Z.inj_succ, Z.pow_succ_r in Hn by lia.
      split; [apply Z.div_pos; lia|apply Z.div_lt_upper_bound; lia]. }
    assert (H1 : 1 ≤ n / 10) by (clear -H; apply Z.div_le_lower_bound; lia).
    assert (Hf' : fuel ≠ O) by (intros ->; change (10 ^ Z.of_nat 0) with 1 in Hq; clear -Hq H1; lia).
    specialize (IH (n / 10) Hq Hf'). rewrite digits_app by done.
    rewrite IH, Hb. f_equal. clear -Hm. pose proof (Z.div_mod n 10). lia.
Qed.

Lemma format_digits_nonempty fuel n : fuel ≠ O → format_digits fuel n ≠ "".
Proof.
  destruct fuel as [|fuel]; [done|]. intros _. cbn [format_digits].
  by destruct (if n <? 10 then _ else _).
Qed.

Lemma format_digits_head fuel n : fuel ≠ O → ∃ c s, format_digits fuel n = String c s ∧ is_digit c = true.
Proof.
  revert n. induction fuel as [|fuel IH]; intros n Hf; [done|]. cbn [format_digits].
  destruct (digit_char (n mod 10)) as [Hd _]; [by apply Z.mod_pos_bound|].
  destruct (n <? 10); [by eexists _, _|]. destruct fuel as [|fuel]; [by eexists _, _|].
  destruct (IH (n / 10) ltac:(done)) as (c & s & -> & Hc). by eexists _, _.
Qed.

(** ParseInt reads back what FormatInt writes. *)
Lemma ParseInt_FormatInt n : - 2 ^ 63 <= n < 2 ^ 63 → ParseInt (FormatInt n) = Some n.
Proof.
  intros Hn. assert (Hbound : 2 ^ 63 < 10 ^ Z.of_nat 20) by (vm_compute; done).
  assert (Hrange : (- 2 ^ 63 <=? n) && (n <? 2 ^ 63) = true)
    by (rewrite andb_true_iff, Z.leb_le, Z.ltb_lt; lia).
  assert (H20 : 20%nat ≠ O) by discriminate.
  unfold FormatInt. destruct (Z.ltb_spec n 0).
  - pose proof (digits_format 20 (- n) ltac:(lia) H20) as Hd.
    pose proof (format_digits_nonempty 20 (- n) H20) as Hne. revert Hd Hne.
    generalize (format_digits 20 (- n)). intros D Hd Hne. clear Hbound. destruct D as [|c s]; [by destruct Hne|].
    unfold ParseInt. change (Ascii.eqb "-" "-") with true. cbv iota beta. rewrite Hd.
    cbn [mbind option_bind]. by rewrite Z.opp_involutive, Hrange.
  - pose proof (digits_format 20 n ltac:(lia) H20) as Hd.
    pose proof (format_digits_head 20 n H20) as Hh. revert Hd Hh.
    generalize (format_digits 20 n). intros D Hd (c & s & -> & Hc). clear Hbound. unfold ParseInt.
    destruct (Ascii.eqb_spec c "-") as [->|_]; [done|]. destruct (Ascii.eqb_spec c "+") as [->|_]; [done|].
    cbv iota beta. rewrite Hd. cbn [mbind option_bind]. by rewrite Hrange.
Qed.

(** strings.ReplaceAll, of a non-empty string. *)
Fixpoint ReplaceAll_go (fuel : nat) (s old new : string) : string :=
  match fuel with
  | O => s
  | S fuel =>
      match Cut s old with
      | Some (a, b) => a +:+ new +:+ ReplaceAll_go fuel b old new
      | None => s
      end
  end.
Definition ReplaceAll (s old new : string) : string := ReplaceAll_go (S (String.length s)) s old new.

Definition TrimSuffix (s suf : string) : string :=
  if HasSuffix s suf then stake (String.length s - String.length suf) s else s.

(** strings.ToUpper of the first byte. *)
Definition upper_first (s : string) : string :=
  match s with
  | "" => ""
  | String c s => String (if in_range "a" "z" c then ascii_of (byte_of c - 32) else c) s
  end.

(** strings.FieldsFunc on single bytes. *)
Definition FieldsFunc (is_sep : ascii → bool) (s : string) : list string :=
  filter (λ f, f ≠ "") ((fix go (s : string) : list string :=
    match s with
    | "" => [""]
    | String c s =>
        if is_sep c then "" :: go s
        else match go s with a :: l => String c a :: l | [] => [String c ""] end
    end) s).

Example ReplaceAll_ex :
  ReplaceAll "arn:{a}:{a}x" "{a}" "" = "arn::x" ∧ ReplaceAll "aaa" "aa" "b" = "ba" ∧
  TrimSuffix "policies" "ies" = "polic" ∧ upper_first "pods" = "Pods" ∧
  FieldsFunc (λ c, Ascii.eqb c "-"%char) "a--bc-" = ["a"; "bc"].
Proof. vm_compute. done. Qed.

(** ** Occurrences *)

Lemma length_append (a b : string) : String.length (a +:+ b) = (String.length a + String.length b)%nat.
Proof. induction a as [|c a IH]; cbn; [done|]. by rewrite IH. Qed.

Lemma append_split (x y z w : string) :
  x +:+ y = z +:+ w → (String.length x <= String.length z)%nat → ∃ t, z = x +:+ t ∧ y = t +:+ w.
Proof.
  revert z. induction x as [|c x IH]; intros z; cbn; [by exists z|].
  destruct z as [|d z]; cbn; [lia|]. intros [= -> H] Hl. destruct (IH z H) as (t & -> & ->); [lia|]. by exists t.
Qed.

Lemma sdrop_append (a b : string) : sdrop (String.length a) (a +:+ b) = b.
Proof. induction a as [|c a IH]; cbn; [by destruct b|done]. Qed.

Lemma stake_append (a b : string) : stake (String.length a) (a +:+ b) = a.
Proof. induction a as [|c a IH]; cbn; [by destruct b|by rewrite IH]. Qed.

Lemma stake_sdrop n (s : string) : (n <= String.length s)%nat → s = stake n s +:+ sdrop n s ∧ String.length (stake n s) = n.
Proof.
  revert s. induction n as [|n IH]; intros s; [by destruct s|]. destruct s as [|c s]; cbn; [lia|].
  intros H. destruct (IH s) as [H1 H2]; [lia|]. by rewrite <- H1, H2.
Qed.

Lemma HasSuffix_spec s suf : HasSuffix s suf = true ↔ ∃ a, s = a +:+ suf.
Proof.
  unfold HasSuffix. rewrite andb_true_iff, Nat.leb_le, String.eqb_eq. split.
  - intros [Hl Hd]. destruct (stake_sdrop (String.length s - String.length suf) s) as [H _]; [lia|].
    rewrite Hd in H. by eexists.
  - intros [a ->]. rewrite length_append. split; [lia|].
    replace (String.length a + String.length suf - String.length suf)%nat with (String.length a) by lia.
    apply sdrop_append.
Qed.

(** strings.Cut cuts at the first occurrence. *)
Lemma Cut_leftmost s m b after a s' :
  Cut s m = Some (b, after) → s = a +:+ m +:+ s' → ∃ t, after = t +:+ s'.
Proof.
  revert b a. induction s as [|c s IH]; intros b a; rewrite Cut_unfold.
  - destruct (CutPrefix "" m) as [r|] eqn:E; [|done]. intros [= <- <-] H. apply CutPrefix_spec in E.
    destruct m; [|done]. destruct a, s'; try done. cbn in E. exists "". by rewrite <- E.
  - destruct (CutPrefix (String c s) m) as [r|] eqn:E.
    + intros [= <- <-] H. apply CutPrefix_spec in E. rewrite E, <- append_assoc in H.
      apply append_split in H as (t & _ & ->); [by exists t|]. rewrite length_append. lia.
    + intros ([b0 r0] & Hc & [= <- <-])%bind_Some H. destruct a as [|d a].
      * by apply CutPrefix_None_iff with (r := s') in E.
      * injection H as -> H. by eapply IH.
Qed.

Lemma Cut_None_absent s m a s' : Cut s m = None → s ≠ a +:+ m +:+ s'.
Proof.
  revert a. induction s as [|c s IH]; intros a; rewrite Cut_unfold.
  - destruct (CutPrefix "" m) eqn:E; [done|]. intros _ H. destruct a; [|done].
    by apply CutPrefix_None_iff with (r := s') in E.
  - destruct (CutPrefix (String c s) m) eqn:E; [done|]. intros Hc H. destruct (Cut s m) as [[]|] eqn:Hc'; [done|].
    destruct a as [|d a]; [by apply CutPrefix_None_iff with (r := s') in E|]. injection H as -> H. by eapply IH.
Qed.

(** ** Patterns, piece by piece *)

Lemma like_star_app q s : like (String "*" q) s = true ↔ ∃ a s', s = a +:+ s' ∧ like q s' = true.
Proof.
  setoid_rewrite like_spec. split.
  - inversion 1 as [|????|? a s' Hm]; subst; [done|]. by exists a, s'.
  - intros (a & s' & -> & H). by constructor.
Qed.

Lemma like_literal_app p q s :
  contains_char "*" p = false → like (p +:+ q) s = true ↔ ∃ s', s = p +:+ s' ∧ like q s' = true.
Proof.
  revert s. induction p as [|c p IH]; intros s Hp.
  { cbn. split; [intros H; by exists s|by intros (s' & -> & H)]. }
  apply contains_char_false_cons in Hp as [Hc Hp]. cbn [String.append like].
  destruct (Ascii.eqb_spec c "*"); [congruence|]. destruct s as [|d s]; [split; [done|by intros (? & [=] & _)]|].
  rewrite andb_true_iff, Ascii.eqb_eq, IH by done. split.
  - intros [-> (s' & -> & H)]. by exists s'.
  - intros (s' & [= -> ->] & H). eauto.
Qed.

Lemma like_star_weaken q a s : like (String "*" q) s = true → like (String "*" q) (a +:+ s) = true.
Proof.
  rewrite !like_star_app. intros (b & s' & -> & H). exists (a +:+ b), s'. by rewrite append_assoc.
Qed.

(** A pattern that matches a literal "*" matches any sequence in its place. *)
Lemma like_subst p a b n : like p (a +:+ String "*" b) = true → like p (a +:+ n +:+ b) = true.
Proof.
  revert a. induction p as [|c p IH]; intros a; [by destruct a|].
  destruct (decide (c = "*"%char)) as [->|Hc].
  - rewrite !like_star_app. intros (x & s' & Hs & H).
    destruct (le_lt_dec (String.length x) (String.length a)) as [Hl|Hl].
    + symmetry in Hs. apply append_split in Hs as (t & -> & ->); [|done]. exists x, (t +:+ n +:+ b).
      rewrite append_assoc. split; [done|by apply IH].
    + apply append_split in Hs as (t & -> & Ht); [|lia]. rewrite length_append in Hl.
      destruct t as [|d t]; [cbn in Hl; lia|]. injection Ht as <- Ht.
      exists (a +:+ n +:+ t), s'. rewrite Ht, !append_assoc. done.
  - cbn [like]. destruct (Ascii.eqb_spec c "*"); [done|]. destruct a as [|d a]; cbn [String.append].
    + rewrite andb_true_iff, Ascii.eqb_eq. by intros [-> _].
    + rewrite !andb_true_iff. intros [Hd H]. split; [done|by apply IH].
Qed.

Lemma append_inj_r (a b c : string) : a +:+ c = b +:+ c → a = b.
Proof.
  intros H. assert (Hl : String.length a = String.length b).
  { apply (f_equal String.length) in H. rewrite !length_append in H. lia. }
  apply append_split in H as (t & -> & Hc); [|lia]. rewrite length_append in Hl.
  destruct t; [by rewrite append_nil_r|cbn in Hl; lia].
Qed.

Lemma prefixes_comparable (a b x y : string) : a +:+ x = b +:+ y → HasPrefix a b = true ∨ HasPrefix b a = true.
Proof.
  intros H. destruct (le_lt_dec (String.length a) (String.length b)) as [Hl|Hl].
  - apply append_split in H as (t & -> & _); [|done]. right. apply HasPrefix_spec. by exists t.
  - symmetry in H. apply append_split in H as (t & -> & _); [|lia]. left. apply HasPrefix_spec. by exists t.
Qed.

Lemma like_literal_suffix p suf s :
  contains_char "*" suf = false → like (p +:+ suf) s = true ↔ ∃ s', s = s' +:+ suf ∧ like p s' = true.
Proof.
  intros Hs. revert s. induction p as [|c p IH]; intros s.
  { cbn [String.append]. rewrite like_literal by done. rewrite String.eqb_eq. split.
    - intros <-. by exists "".
    - intros (s' & -> & H). cbn in H. apply String.eqb_eq in H as ->. done. }
  destruct (decide (c = "*"%char)) as [->|Hc].
  - change (String "*" p +:+ suf) with (String "*" (p +:+ suf)). setoid_rewrite like_star_app. setoid_rewrite IH. split.
    + intros (a & s1 & -> & s' & -> & H). exists (a +:+ s'). split; [by rewrite append_assoc|]. by exists a, s'.
    + intros (s' & -> & a & s1 & -> & H). exists a, (s1 +:+ suf). split; [by rewrite append_assoc|]. by exists s1.
  - change (String c p +:+ suf) with (String c (p +:+ suf)). cbn [like]. destruct (Ascii.eqb_spec c "*"); [done|]. split.
    + destruct s as [|d s]; [done|]. rewrite andb_true_iff, Ascii.eqb_eq, IH. intros [-> (s' & -> & H)].
      exists (String d s'). split; [done|]. by rewrite Ascii.eqb_refl.
    + intros ([|d s'] & -> & H); [done|]. change (String d s' +:+ suf) with (String d (s' +:+ suf)).
      apply andb_true_iff in H as [-> H]. cbn [andb]. apply IH. by exists s'.
Qed.

Lemma before_spec p c : ∃ rest, p = before p (String c "") +:+ rest ∧ contains_char c (before p (String c "")) = false ∧
  (rest = "" ∨ ∃ q, rest = String c q).
Proof.
  unfold before. destruct (Cut p (String c "")) as [[a b]|] eqn:E.
  - exists (String c b). split; [by apply Cut_spec in E|]. split; [by eapply Cut_char_before|]. right. by exists b.
  - exists "". rewrite append_nil_r. split; [done|]. split; [by apply Cut_None_char|by left].
Qed.

(** ** The order of strings *)

Lemma string_leb_trans a b c : String.leb a b = true → String.leb b c = true → String.leb a c = true.
Proof.
  unfold String.leb. revert b c. induction a as [|x a IH]; intros [|y b] [|z c]; cbn; try done.
  unfold Ascii.compare. destruct (N.compare_spec (N_of_ascii x) (N_of_ascii y)) as [E|L|G]; [|destruct (N.compare_spec (N_of_ascii y) (N_of_ascii z)) as [E'|L'|G']|done].
  - rewrite E. destruct (N_of_ascii y ?= N_of_ascii z)%N; [apply IH|done..].
  - by rewrite <- E', (proj2 (N.compare_lt_iff _ _) L).
  - by rewrite (proj2 (N.compare_lt_iff (N_of_ascii x) (N_of_ascii z)) ltac:(lia)).
  - done.
Qed.
