(* ===== verification/GoTrim.v ===== *)
(** * What trimming leaves

    strings.TrimSpace on text that is trimmed: it is idempotent, whatever bytes the text has, and leaves a text
    that begins and ends with printable ASCII as it is. *)

From S2P Require Import Prelude GoStrings.
#[local] Open Scope string_scope.
#[local] Open Scope Z_scope.
#[local] Open Scope list_scope.

(** ** Trimming again *)

Lemma is_cont_0 : is_cont 0 = false.
Proof. reflexivity. Qed.

(** A rune depends on its own bytes alone, and an invalid encoding stays invalid with less after it. *)
Lemma decode_rune_prefix c a b r w : decode_rune c (a +:+ b) = (r, w) → (w <= S (String.length a))%nat → decode_rune c a = (r, w).
Proof.
  intros H Hw. rewrite <- H. unfold decode_rune in *.
  destruct a as [|x1 [|x2 [|x3 a]]]; cbn [String.append String.get String.length] in *; [..|done];
    rewrite ?is_cont_0, ?andb_false_r; cbn [andb];
    repeat match goal with
    | |- context [if ?b then _ else _] => destruct b eqn:?
    end; try done; injection H as <- <-; lia.
Qed.

Definition text_of (l : list (Z * string)) : string := String.concat "" (map snd l).

Lemma text_of_cons x l : text_of (x :: l) = x.2 +:+ text_of l.
Proof. unfold text_of. destruct l as [|y l]; cbn; [by rewrite append_nil_r|done]. Qed.
Lemma text_of_app l k : text_of (l ++ k) = text_of l +:+ text_of k.
Proof. induction l as [|x l IH]; [done|]. cbn [app]. by rewrite !text_of_cons, IH, append_assoc. Qed.

(** Pieces that decode to their runes where they stand. *)
Inductive pieces : list (Z * string) → Prop :=
| pieces_nil : pieces []
| pieces_cons r c u l : decode_rune c (u +:+ text_of l) = (r, S (String.length u)) → pieces l → pieces ((r, String c u) :: l).

Lemma decode_width c s r w : decode_rune c s = (r, w) → (1 <= w <= S (String.length s))%nat.
Proof.
  unfold decode_rune. intros H.
  destruct s as [|x1 [|x2 [|x3 s]]]; cbn [String.get String.length] in *; rewrite ?is_cont_0, ?andb_false_r in H; cbn [andb] in H;
    repeat match type of H with context [if ?b then _ else _] => destruct b end; injection H as <- <-; lia.
Qed.

Lemma runes_pieces n s : (String.length s <= n)%nat → pieces (runes n s) ∧ text_of (runes n s) = s.
Proof.
  revert s. induction n as [|n IH]; intros [|c s] Hn; cbn in Hn; try lia; try (split; [constructor|done]).
  cbn [runes]. destruct (decode_rune c s) as [r w] eqn:Ed. pose proof (decode_width _ _ _ _ Ed) as Hw.
  destruct (stake_sdrop (w - 1) s ltac:(lia)) as [Hs Hl].
  destruct (IH (sdrop (w - 1) s)) as [Hp Ht].
  { apply (f_equal String.length) in Hs. rewrite length_append in Hs. lia. }
  split.
  - constructor; [|done]. rewrite Ht, <- Hs, Hl, Ed. f_equal. lia.
  - rewrite text_of_cons, Ht. cbn [snd]. cbn. by rewrite <- Hs.
Qed.

Lemma pieces_runes l n : pieces l → (String.length (text_of l) <= n)%nat → runes n (text_of l) = l.
Proof.
  intros Hl. revert n. induction Hl as [|r c u l Hd Hl IH]; intros n Hn; [by destruct n|]. rewrite text_of_cons in *. cbn [snd] in *.
  destruct n as [|n]; [cbn in Hn; lia|]. cbn [String.append runes]. cbn in Hn. rewrite length_append in Hn.
  rewrite Hd. replace (S (String.length u) - 1)%nat with (String.length u) by lia. rewrite stake_append, sdrop_append, IH by lia. done.
Qed.

Lemma pieces_app_inv l k : pieces (l ++ k) → pieces l ∧ pieces k.
Proof.
  induction l as [|[r s] l IH]; cbn [app]; [by split; [constructor|]|]. inversion 1 as [|? c u ? Hd Hp]; subst.
  destruct (IH Hp) as [Hl Hk]. split; [|done]. constructor; [|done]. rewrite text_of_app, <- append_assoc in Hd.
  eapply decode_rune_prefix; [exact Hd|]. rewrite length_append. lia.
Qed.

Lemma drop_spaces_suffix l : ∃ a, l = a ++ drop_spaces l.
Proof. induction l as [|[r s] l [a IH]]; [by exists []|]. cbn. destruct (is_space_rune r); [exists ((r, s) :: a); by rewrite IH at 1|by exists []]. Qed.

Lemma drop_spaces_idem l : drop_spaces (drop_spaces l) = drop_spaces l.
Proof. induction l as [|[r s] l IH]; [done|]. cbn. destruct (is_space_rune r) eqn:E; [done|]. cbn. by rewrite E. Qed.

(** The front stays trimmed when the end is. *)
Lemma drop_spaces_rev l : drop_spaces l = l → drop_spaces (rev (drop_spaces (rev l))) = rev (drop_spaces (rev l)).
Proof.
  intros Hl. destruct (drop_spaces_suffix (rev l)) as [a Ha]. apply (f_equal (@rev _)) in Ha. rewrite rev_involutive, rev_app_distr in Ha.
  set (k := rev (drop_spaces (rev l))) in *. destruct k as [|[r s] k]; [done|]. rewrite Ha in Hl. cbn in Hl |- *.
  destruct (is_space_rune r); [|done]. exfalso. destruct (drop_spaces_suffix (k ++ rev a)) as [b Hb].
  rewrite Hl in Hb. apply (f_equal length) in Hb. rewrite !length_app in Hb. cbn in Hb. rewrite length_app in Hb. lia.
Qed.

Lemma TrimSpace_idem s : TrimSpace (TrimSpace s) = TrimSpace s.
Proof.
  unfold TrimSpace at 2 3. change (String.concat "" (map snd ?l)) with (text_of l).
  destruct (runes_pieces (String.length s) s ltac:(lia)) as [Hp _]. set (l := runes (String.length s) s) in *.
  destruct (drop_spaces_suffix l) as [a Ha]. rewrite Ha in Hp. apply pieces_app_inv in Hp as [_ Hp].
  pose proof (drop_spaces_idem l) as Hi. set (l1 := drop_spaces l) in *.
  pose proof (drop_spaces_rev l1 Hi) as Hf. destruct (drop_spaces_suffix (rev l1)) as [b Hb].
  pose proof (f_equal (@rev _) Hb) as Hb'. rewrite rev_involutive, rev_app_distr in Hb'. rewrite Hb' in Hp. apply pieces_app_inv in Hp as [Hp _].
  set (k := rev (drop_spaces (rev l1))) in *. unfold TrimSpace. rewrite pieces_runes by (done || lia). rewrite Hf.
  assert (Hr : rev k = drop_spaces (rev l1)) by (unfold k; by rewrite rev_involutive).
  rewrite Hr, drop_spaces_idem, <- Hr, rev_involutive. done.
Qed.

(** ** Printable text *)

(** Printable ASCII, without the space. *)
Definition word (s : string) : Prop := s ≠ "" ∧ forall_char (in_range "!" "~") s = true.
#[global] Instance word_dec s : Decision (word s).
Proof. unfold word. apply _. Defined.
Definition is_ascii (c : ascii) : bool := in_range " " "~" c.

Lemma forall_char_app f a b : forall_char f (a +:+ b) = forall_char f a && forall_char f b.
Proof. induction a as [|c a IH]; [done|]. cbn. by rewrite IH, andb_assoc. Qed.

Lemma all_chars (f : ascii → bool) : forallb f (map (λ n, ascii_of_nat n) (seq 0 256)) = true → ∀ c, f c = true.
Proof.
  intros H c. rewrite forallb_forall in H. apply H, in_map_iff. exists (nat_of_ascii c).
  split; [apply ascii_nat_embedding|]. apply in_seq. pose proof (nat_ascii_bounded c). lia.
Qed.

Lemma word_ascii c : in_range "!" "~" c = true → is_ascii c = true.
Proof. intros H. pose proof (all_chars (λ c, implb (in_range "!" "~" c) (is_ascii c)) ltac:(vm_compute; reflexivity) c) as Hc. cbn in Hc. by rewrite H in Hc. Qed.

Lemma forall_char_impl (f g : ascii → bool) s : (∀ c, f c = true → g c = true) → forall_char f s = true → forall_char g s = true.
Proof. intros Hi. induction s as [|c s IH]; [done|]. cbn. intros [Hc Hs]%andb_true_iff. by rewrite (Hi _ Hc), IH. Qed.

Definition rune_of (c : ascii) : Z * string := (byte_of c, String c "").

Lemma decode_ascii c s : is_ascii c = true → decode_rune c s = (byte_of c, 1%nat).
Proof.
  intros H. pose proof (all_chars (λ c, implb (is_ascii c) (byte_of c <? 0x80)) ltac:(vm_compute; reflexivity) c) as Hc. cbn in Hc.
  rewrite H in Hc. cbn in Hc. unfold decode_rune. by rewrite Hc.
Qed.

Lemma runes_ascii s n : forall_char is_ascii s = true → (String.length s <= n)%nat → runes n s = map rune_of (list_ascii_of_string s).
Proof.
  revert n. induction s as [|c s IH]; intros [|n] Hs Hn; cbn in Hn; try lia; try done.
  cbn in Hs. apply andb_true_iff in Hs as [Hc Hs]. cbn [runes list_ascii_of_string map]. rewrite decode_ascii by done.
  cbn [Nat.sub]. replace (stake 0 s) with "" by (by destruct s). replace (sdrop 0 s) with s by (by destruct s).
  rewrite IH by (done || lia). done.
Qed.

Lemma drop_spaces_word c l : is_space_rune (byte_of c) = false → drop_spaces (map rune_of (c :: l)) = map rune_of (c :: l).
Proof. intros H. cbn. by rewrite H. Qed.

Lemma concat_chars l : String.concat "" (map snd (map rune_of l)) = string_of_list_ascii l.
Proof. induction l as [|c [|d l] IH]; [done..|]. cbn [map String.concat string_of_list_ascii snd rune_of] in *. cbn. f_equal. exact IH. Qed.

Lemma TrimSpace_ends c l d l' s :
  forall_char is_ascii s = true → list_ascii_of_string s = c :: l → list_ascii_of_string s = l' ++ [d] →
  is_space_rune (byte_of c) = false → is_space_rune (byte_of d) = false → TrimSpace s = s.
Proof.
  intros Hs Hc Hd Hcs Hds. unfold TrimSpace. rewrite runes_ascii by done. rewrite Hc, drop_spaces_word, <- Hc, Hd by done.
  rewrite <- map_rev, rev_unit, drop_spaces_word, <- rev_unit, <- map_rev, rev_involutive, concat_chars, <- Hd by done.
  apply string_of_list_ascii_of_string.
Qed.

Lemma list_ascii_app a b : list_ascii_of_string (a +:+ b) = list_ascii_of_string a ++ list_ascii_of_string b.
Proof. induction a as [|c a IH]; [done|]. cbn. by rewrite IH. Qed.
