(* ===== verification/GoEncoding.v ===== *)
(** * encoding/base64 and float64

    base64.StdEncoding, the conversions between integers and float64, and strconv.ParseFloat: decimal or
    hexadecimal, rounded to the nearest. *)

From S2P Require Import Prelude GoStrings.
From Stdlib Require Export SpecFloat.
#[local] Open Scope string_scope.
#[local] Open Scope Z_scope.
#[local] Open Scope list_scope.

(** ** base64.StdEncoding *)

Definition base64_char (n : Z) : ascii :=
  ascii_of (if n <? 26 then 65 + n else if n <? 52 then 97 + (n - 26) else if n <? 62 then 48 + (n - 52)
            else if n =? 62 then 43 else 47).
Definition base64_group (a b c : Z) : list Z :=
  let n := a * 65536 + b * 256 + c in [n / 262144; (n / 4096) mod 64; (n / 64) mod 64; n mod 64].
Fixpoint base64 (s : string) : string :=
  match s with
  | "" => ""
  | String a "" => string_of_list_ascii (map base64_char (take 2 (base64_group (byte_of a) 0 0))) +:+ "=="
  | String a (String b "") => string_of_list_ascii (map base64_char (take 3 (base64_group (byte_of a) (byte_of b) 0))) +:+ "="
  | String a (String b (String c s)) =>
      string_of_list_ascii (map base64_char (base64_group (byte_of a) (byte_of b) (byte_of c))) +:+ base64 s
  end.

(** A character's six bits. *)
Definition base64_value (c : ascii) : option Z :=
  if in_range "A" "Z" c then Some (byte_of c - 65)
  else if in_range "a" "z" c then Some (byte_of c - 97 + 26)
  else if is_digit c then Some (byte_of c - 48 + 52)
  else if Ascii.eqb c "+" then Some 62 else if Ascii.eqb c "/" then Some 63 else None.

(** Four characters, then the next four; the bits past the last byte are not looked at. *)
Fixpoint base64_quanta (s : string) : option string :=
  match s with
  | "" => Some ""
  | String a (String b (String c (String d s))) =>
      x ← base64_value a; y ← base64_value b;
      let n := x * 262144 + y * 4096 in
      if Ascii.eqb c "=" && Ascii.eqb d "=" then
        match s with "" => Some (String (ascii_of (n / 65536)) "") | _ => None end
      else
        z ← base64_value c;
        let n := n + z * 64 in
        if Ascii.eqb d "=" then
          match s with "" => Some (String (ascii_of (n / 65536)) (String (ascii_of ((n / 256) mod 256)) "")) | _ => None end
        else
          w ← base64_value d;
          let n := n + w in
          rest ← base64_quanta s;
          Some (String (ascii_of (n / 65536)) (String (ascii_of ((n / 256) mod 256)) (String (ascii_of (n mod 256)) rest)))
  | _ => None
  end.

(** DecodeString, which passes over line breaks. *)
Fixpoint no_breaks (s : string) : string :=
  match s with
  | "" => ""
  | String c s => if (byte_of c =? 10) || (byte_of c =? 13) then no_breaks s else String c (no_breaks s)
  end.
Definition base64_decode (s : string) : option string := base64_quanta (no_breaks s).

(** ** Conversions *)

(** float64(n). *)
Definition float_of (n : Z) : spec_float := binary_normalize 53 1024 n 0 false.

(** int64(f); [overflow] is what the conversion of a float64 outside int64 gives. *)
Definition int_of_float (overflow : spec_float → Z) (f : spec_float) : Z :=
  match f with
  | S754_finite s m e =>
      let n := if 0 <=? e then Zpos m * 2 ^ e else Zpos m / 2 ^ (- e) in
      let n := if s then - n else n in
      if (- 2 ^ 63 <=? n) && (n <? 2 ^ 63) then n else overflow f
  | S754_zero _ => 0
  | _ => overflow f
  end.

(** ** strconv.ParseFloat(s, 64) *)

(** The float64 nearest to n / d. *)
Definition round_ratio (neg : bool) (n d : Z) : spec_float :=
  if n =? 0 then S754_zero neg
  else
    let k := Z.max 0 (Z.log2 d - Z.log2 n + 66) in
    let q := Z.shiftl n k / d in
    let sticky := if Z.shiftl n k mod d =? 0 then 0 else 1 in
    let m := 2 * q + sticky in
    binary_normalize 53 1024 (if neg then - m else m) (- (k + 1)) neg.

Definition digit_of (hex : bool) (c : ascii) : option Z :=
  if is_digit c then Some (byte_of c - 48)
  else if hex && in_range "a" "f" (lower_byte c) then Some (byte_of (lower_byte c) - 87)
  else None.

(** The digits, the point and the underscores of a mantissa: its integer, how many of its digits are after
    the point, and the rest of the text. *)
Fixpoint mantissa (hex : bool) (s : string) (m : Z) (frac : Z) (dot some : bool) : option (Z * Z * string) :=
  match s with
  | "" => if some then Some (m, frac, "") else None
  | String c t =>
      if Ascii.eqb c "_" then mantissa hex t m frac dot some
      else if Ascii.eqb c "." && negb dot then mantissa hex t m frac true some
      else match digit_of hex c with
           | Some d => mantissa hex t (m * (if hex then 16 else 10) + d) (if dot then frac + 1 else frac) dot true
           | None => if some then Some (m, frac, s) else None
           end
  end.

(** The digits of an exponent, which is no more than five of them. *)
Fixpoint exponent (s : string) (e : Z) : option Z :=
  match s with
  | "" => Some e
  | String c t =>
      if Ascii.eqb c "_" then exponent t e
      else if is_digit c then exponent t (if e <? 10000 then e * 10 + (byte_of c - 48) else e)
      else None
  end.

Definition split_sign (s : string) : bool * string :=
  match s with
  | String c t => if Ascii.eqb c "-" then (true, t) else if Ascii.eqb c "+" then (false, t) else (false, s)
  | "" => (false, s)
  end.

(** underscoreOK: an underscore is between digits, or between the base's prefix and a digit. *)
Inductive was := WStart | WDigit | WUnderscore | WOther.
Fixpoint underscores (hex : bool) (s : string) (i : was) : bool :=
  match s with
  | "" => match i with WUnderscore => false | _ => true end
  | String c t =>
      match digit_of hex c with
      | Some _ => underscores hex t WDigit
      | None => if Ascii.eqb c "_" then match i with WDigit => underscores hex t WUnderscore | _ => false end
                else match i with WUnderscore => false | _ => underscores hex t WOther end
      end
  end.

Definition hex_prefix (s : string) : option string :=
  match s with
  | String z (String x (String c t)) => if Ascii.eqb z "0" && Ascii.eqb (lower_byte x) "x" then Some (String c t) else None
  | _ => None
  end.

(** [None] is an error: the text is no number, or one that is out of range. *)
Definition in_float_range (f : spec_float) : option spec_float :=
  match f with S754_infinity _ => None | _ => Some f end.
Definition ParseFloat (s : string) : option spec_float :=
  let '(neg, body) := split_sign s in
  if EqualFold body "inf" || EqualFold body "infinity" then Some (S754_infinity neg)
  else if EqualFold s "nan" then Some S754_nan
  else
    let '(hex, text) := match hex_prefix body with Some t => (true, t) | None => (false, body) end in
    '(m, frac, rest) ← mantissa hex text 0 0 false false;
    e ← match rest with
        | "" => if hex then None else Some 0
        | String c t =>
            if Ascii.eqb (lower_byte c) (if hex then "p" else "e") then
              let '(eneg, ds) := split_sign t in
              match ds with
              | String d _ => if is_digit d then e ← exponent ds 0; Some (if eneg then - e else e) else None
              | "" => None
              end
            else None
        end;
    if underscores hex text (if hex then WDigit else WStart) then
      let '(base, e) := if hex then (2, e - 4 * frac) else (10, e - frac) in
      in_float_range (if e <? 0 then round_ratio neg m (base ^ (- e))
                      else let n := m * base ^ e in binary_normalize 53 1024 (if neg then - n else n) 0 neg)
    else None.

Example ParseFloat_ex :
  ParseFloat "0.1" = Some (S754_finite false 7205759403792794 (-56)) ∧
  ParseFloat "-12" = Some (S754_finite true 6755399441055744 (-49)) ∧
  ParseFloat "1e400" = None ∧ ParseFloat "2_0.5e-1" = ParseFloat "2.05" ∧ ParseFloat "0x1.8p1" = ParseFloat "3" ∧
  ParseFloat "5e-324" = Some (S754_finite false 1 (-1074)) ∧ ParseFloat "2e-324" = Some (S754_zero false) ∧
  ParseFloat "9007199254740993" = Some (S754_finite false 4503599627370496 1) ∧
  ParseFloat "Infinity" = Some (S754_infinity false) ∧ ParseFloat "nan" = Some S754_nan ∧
  ParseFloat "price" = None ∧ ParseFloat "" = None ∧ ParseFloat "1e" = None ∧ ParseFloat "_1" = None ∧ ParseFloat "." = None.
Proof. vm_compute. repeat split. Qed.

(** ** What is encoded is read back *)

(** The six bits of a character, by cases. *)
Lemma below_64 (P : Z → bool) : forallb (λ k, P (Z.of_nat k)) (seq 0 64) = true → ∀ n, 0 ≤ n < 64 → P n = true.
Proof.
  intros Hall n Hn. rewrite forallb_forall in Hall. rewrite <-(Z2Nat.id n) by lia. apply Hall, in_seq. lia.
Qed.

Lemma base64_value_char n : 0 ≤ n < 64 → base64_value (base64_char n) = Some n.
Proof.
  intros Hn. pose proof (below_64 (λ n, bool_decide (base64_value (base64_char n) = Some n)) eq_refl n Hn) as H.
  exact (bool_decide_eq_true_1 _ H).
Qed.

Lemma base64_char_pad n : 0 ≤ n < 64 → Ascii.eqb (base64_char n) "=" = false.
Proof. intros Hn. by apply negb_true_iff, (below_64 (λ n, negb (Ascii.eqb (base64_char n) "="))). Qed.

Lemma no_breaks_char n s : 0 ≤ n < 64 → no_breaks (String (base64_char n) s) = String (base64_char n) (no_breaks s).
Proof.
  intros Hn. cbn [no_breaks].
  by rewrite (proj1 (negb_true_iff _) (below_64 (λ n, negb ((byte_of (base64_char n) =? 10) || (byte_of (base64_char n) =? 13))) eq_refl n Hn)).
Qed.

Lemma byte_of_range c : 0 ≤ byte_of c < 256.
Proof. unfold byte_of. pose proof (N_ascii_bounded c). lia. Qed.
Lemma ascii_of_byte_of c : ascii_of (byte_of c) = c.
Proof. unfold ascii_of, byte_of. rewrite N2Z.id. apply ascii_N_embedding. Qed.

Lemma base64_group_spec a b c : 0 ≤ a < 256 → 0 ≤ b < 256 → 0 ≤ c < 256 →
  ∃ w x y z, base64_group a b c = [w; x; y; z] ∧ 0 ≤ w < 64 ∧ 0 ≤ x < 64 ∧ 0 ≤ y < 64 ∧ 0 ≤ z < 64 ∧
    w * 262144 + x * 4096 + y * 64 + z = a * 65536 + b * 256 + c ∧ (c = 0 → z = 0) ∧ (b = 0 → c = 0 → y = 0).
Proof.
  intros Ha Hb Hc. do 4 eexists. split; [reflexivity|].
  set (n := a * 65536 + b * 256 + c). assert (0 ≤ n < 16777216) by lia.
  split_and!; try (Z.div_mod_to_equations; lia).
Qed.

Lemma ascii_of_three a b c n : n = byte_of a * 65536 + byte_of b * 256 + byte_of c →
  ascii_of (n / 65536) = a ∧ ascii_of ((n / 256) mod 256) = b ∧ ascii_of (n mod 256) = c.
Proof.
  intros ->. pose proof (byte_of_range a). pose proof (byte_of_range b). pose proof (byte_of_range c).
  split_and!; match goal with |- _ = ?c => rewrite <-(ascii_of_byte_of c) at 2 end; f_equal; Z.div_mod_to_equations; lia.
Qed.

Lemma base64_round_trip s : base64_decode (base64 s) = Some s.
Proof.
  unfold base64_decode. remember (String.length s) as n eqn:Hn. assert (Hle : (String.length s ≤ n)%nat) by lia. clear Hn.
  revert s Hle. induction n as [|n IH]; intros [|a [|b [|c s]]] Hle; cbn [String.length] in Hle; try lia; try done;
    cbn [base64]; pose proof (byte_of_range a) as Ha.
  - destruct (base64_group_spec (byte_of a) 0 0) as (w & x & y & z & -> & Hw & Hx & Hy & Hz & Hsum & Hz0 & Hy0); [lia..|].
    cbn [take map string_of_list_ascii String.append]. rewrite !no_breaks_char by done. change (no_breaks "==") with "==".
    cbn [base64_quanta]. rewrite !base64_value_char by done. cbn. rewrite Hz0, Hy0 in Hsum by done.
    destruct (ascii_of_three a (ascii_of 0) (ascii_of 0) (w * 262144 + x * 4096)) as (-> & _); [change (byte_of (ascii_of 0)) with 0; lia|done].
  - pose proof (byte_of_range b) as Hb.
    destruct (base64_group_spec (byte_of a) (byte_of b) 0) as (w & x & y & z & -> & Hw & Hx & Hy & Hz & Hsum & Hz0 & _); [lia..|].
    cbn [take map string_of_list_ascii String.append]. rewrite !no_breaks_char by done. change (no_breaks "=") with "=".
    cbn [base64_quanta]. rewrite !base64_value_char, base64_char_pad by done. cbn. rewrite Hz0 in Hsum by done.
    destruct (ascii_of_three a b (ascii_of 0) (w * 262144 + x * 4096 + y * 64)) as (-> & -> & _); [change (byte_of (ascii_of 0)) with 0; lia|done].
  - pose proof (byte_of_range b) as Hb. pose proof (byte_of_range c) as Hc.
    destruct (base64_group_spec (byte_of a) (byte_of b) (byte_of c)) as (w & x & y & z & -> & Hw & Hx & Hy & Hz & Hsum & _); [lia..|].
    cbn [map string_of_list_ascii String.append]. rewrite !no_breaks_char by done. cbn [base64_quanta].
    rewrite !base64_value_char, !base64_char_pad by done. cbn. rewrite IH by lia. cbn.
    by destruct (ascii_of_three a b c (w * 262144 + x * 4096 + y * 64 + z)) as (-> & -> & ->); [lia|].
Qed.
