(* ===== verification/GoJson.v ===== *)
(** * encoding/json, written

    What encoding/json writes for a string, and the order of the entries of a map, which fmt shares. *)

From S2P Require Import Prelude GoStrings.
#[local] Open Scope string_scope.
#[local] Open Scope Z_scope.
#[local] Open Scope list_scope.

(** A map's entries by ascending key, as fmt and encoding/json write them. *)
Fixpoint insert_entry (kv : string * string) (l : list (string * string)) : list (string * string) :=
  match l with
  | [] => [kv]
  | x :: l => if String.leb kv.1 x.1 then kv :: x :: l else x :: insert_entry kv l
  end.

(** encoding/json on a string: HTML's characters and the line separators are escaped too. *)
Definition json_rune (r : Z) (s : string) : string :=
  let esc x := String backslash (String x "") in
  if (r =? 34) || (r =? 92) then String backslash s
  else if r =? 8 then esc "b"%char else if r =? 12 then esc "f"%char else if r =? 10 then esc "n"%char
  else if r =? 13 then esc "r"%char else if r =? 9 then esc "t"%char
  else if (r <? 32) || (r =? 60) || (r =? 62) || (r =? 38) then String backslash ("u" +:+ hexn 4 r)
  else if (r =? 0x2028) || (r =? 0x2029) then String backslash ("u" +:+ hexn 4 r)
  else if (r =? 0xFFFD) && bool_decide (String.length s = 1%nat) then String backslash "ufffd"
  else s.
Definition json_quote (s : string) : string :=
  String dquote "" +:+ String.concat "" (map (λ rs, json_rune rs.1 rs.2) (runes (String.length s) s)) +:+ String dquote "".
