(* ===== verification/GoFloat.v ===== *)
(** * Floats as text

    strconv.FormatFloat(f, 'f', -1, 64) and the numbers of encoding/json: the fewest digits that are read
    back as the float. *)

From S2P Require Import Prelude GoStrings.
From S2P Require Export GoEncoding.
#[local] Open Scope string_scope.
#[local] Open Scope Z_scope.

(** A decimal: its digits as an integer, and the power of ten of the last one. *)
Abbreviation decimal := (Z * Z)%type.
(** The decimals around n / d with their last digit at 10^k, and how far the lower one is, over the
    second of the two numbers. *)
Definition around (n d k : Z) : Z * Z * Z :=
  let '(n, d) := if 0 <=? k then (n, d * 10 ^ k) else (n * 10 ^ (- k), d) in (n / d, n mod d, d).
Definition reads_as (f : spec_float) (x : decimal) : bool :=
  let '(c, k) := x in
  let g := if 0 <=? k then round_ratio false (c * 10 ^ k) 1 else round_ratio false c (10 ^ (- k)) in
  match SFcompare f g with Some Eq => true | _ => false end.
(** The decimal of k nearest to n / d that is read back; of two as near, the even one. *)
Definition nearest (f : spec_float) (n d k : Z) : option decimal :=
  let '(q, r, m) := around n d k in
  match reads_as f (q, k), reads_as f (q + 1, k) with
  | true, true => Some (if (2 * r <? m) || ((2 * r =? m) && Z.even q) then (q, k) else (q + 1, k))
  | true, false => Some (q, k)
  | false, true => Some (q + 1, k)
  | false, false => None
  end.
(** From the largest k down; the 17th digit is always enough. *)
Fixpoint shortest_from (fuel : nat) (f : spec_float) (n d k : Z) : decimal :=
  match nearest f n d k with
  | Some x => x
  | None => match fuel with O => (around n d k).1 | S fuel => shortest_from fuel f n d (k - 1) end
  end.
(** An upper bound of the decimal exponent of n / d, that is at most a few too many. *)
Definition exponent_of (n d : Z) : Z := (Z.log2 n - Z.log2 d + 1) * 30103 / 100000 + 1.
Fixpoint strip_zeros (fuel : nat) (x : decimal) : decimal :=
  match fuel with
  | O => x
  | S fuel => if x.1 mod 10 =? 0 then strip_zeros fuel (x.1 / 10, x.2 + 1) else x
  end.
Definition shortest (m : positive) (e : Z) : decimal :=
  let '(n, d) := if 0 <=? e then (Zpos m * 2 ^ e, 1) else (Zpos m, 2 ^ (- e)) in
  strip_zeros 20 (shortest_from 24 (S754_finite false m e) n d (exponent_of n d)).

(** The digits of an integer of any size. *)
Definition digits_of (n : Z) : string := pretty (Z.to_N n).
Fixpoint zeros (n : nat) : string := match n with O => "" | S n => String "0" (zeros n) end.

(** %f of a decimal: its digits with the point where it is. *)
Definition plain (x : decimal) : string :=
  let '(c, k) := x in
  let s := digits_of c in
  if 0 <=? k then s +:+ zeros (Z.to_nat k)
  else
    let frac := Z.to_nat (- k) in
    let s := zeros (S frac - String.length s) +:+ s in
    let whole := (String.length s - frac)%nat in
    stake whole s +:+ "." +:+ sdrop whole s.
(** %e of one, with an exponent of two digits at least. *)
Definition scientific (x : decimal) : string :=
  let '(c, k) := x in
  let s := digits_of c in
  let e := k + Z.of_nat (String.length s) - 1 in
  let mantissa := match s with String a "" => s | String a b => String a ("." +:+ b) | "" => "" end in
  let pad := if Z.abs e <? 10 then "0" else "" in
  mantissa +:+ (if e <? 0 then "e-" else "e+") +:+ pad +:+ digits_of (Z.abs e).

Definition sign (neg : bool) : string := if neg then "-" else "".
(** strconv.FormatFloat(f, 'f', -1, 64). *)
Definition FormatFloat (f : spec_float) : string :=
  match f with
  | S754_zero neg => sign neg +:+ "0"
  | S754_infinity neg => if neg then "-Inf" else "+Inf"
  | S754_nan => "NaN"
  | S754_finite neg m e => sign neg +:+ plain (shortest m e)
  end.
(** encoding/json on a float64: ES6's form, where an exponent of one digit is not padded. *)
Definition json_float (f : spec_float) : option string :=
  match f with
  | S754_infinity _ | S754_nan => None
  | S754_zero neg => Some (sign neg +:+ "0")
  | S754_finite neg m e =>
      let x := S754_finite false m e in
      let small := match SFcompare x (round_ratio false 1 1000000) with Some Lt => true | _ => false end in
      let large := match SFcompare x (float_of (10 ^ 21)) with Some Lt => false | _ => true end in
      let text := scientific (shortest m e) in
      Some (sign neg +:+
        if small || large then match Cut text "e-0" with Some (a, b) => a +:+ "e-" +:+ b | None => text end
        else plain (shortest m e))
  end.

Example FormatFloat_ex :
  map (λ s, FormatFloat (default S754_nan (ParseFloat s)))
    ["0.1"; "-2.5"; "1e21"; "1e300"; "5e-324"; "123456.789"; "0.000001"; "1e-7"; "1.7976931348623157e308"; "9007199254740993"; "-0"; "nan"; "5.684341886080802e-14"] =
    ["0.1"; "-2.5"; "1000000000000000000000"; "1" +:+ zeros 300; "0." +:+ zeros 323 +:+ "5"; "123456.789"; "0.000001"; "0.0000001";
     "17976931348623157" +:+ zeros 292; "9007199254740992"; "-0"; "NaN"; "0.00000000000005684341886080802"] ∧
  map (λ s, json_float (default S754_nan (ParseFloat s))) ["1e-7"; "1.5e21"; "1e20"; "2.5"; "0.000001"; "inf"; "-3.25e-10"; "1e300"] =
    [Some "1e-7"; Some "1.5e+21"; Some "100000000000000000000"; Some "2.5"; Some "0.000001"; None; Some "-3.25e-10"; Some "1e+300"].
Proof. vm_compute. done. Qed.
