(* ===== verification/GoTime.v ===== *)
(** * Instants and durations

    What the packages use of Go's time package: an instant is its nanoseconds since the Unix epoch,
    time.Parse(time.RFC3339, s) reads the format as the standard library does (its leniencies, a one-digit
    hour, a comma before the fraction and an offset of up to 24:60, included), and time.ParseDuration is
    read on the form h, m, s. *)

From S2P Require Import Prelude GoStrings.
#[local] Open Scope string_scope.
#[local] Open Scope Z_scope.

(** ** The calendar *)

Definition is_leap (y : Z) : bool :=
  (y mod 4 =? 0) && (negb (y mod 100 =? 0) || (y mod 400 =? 0)).

Definition daysIn (m y : Z) : Z :=
  if m =? 2 then (if is_leap y then 29 else 28)
  else if (m =? 4) || (m =? 6) || (m =? 9) || (m =? 11) then 30 else 31.

(** Days from 1970-01-01 to the given date of the proleptic Gregorian calendar. *)
Definition days_from_civil (y m d : Z) : Z :=
  let y := if m <=? 2 then y - 1 else y in
  let era := y / 400 in
  let yoe := y - era * 400 in
  let mp := (m + 9) mod 12 in
  let doy := (153 * mp + 2) / 5 + d - 1 in
  let doe := yoe * 365 + yoe / 4 - yoe / 100 + doy in
  era * 146097 + doe - 719468.

Definition second : Z := 1000000000.

(** ** time.Parse(time.RFC3339, s) *)

Definition digit_val (c : ascii) : Z := byte_of c - 48.

(** getnum with [fixed]: two digits, or one when not [fixed]. *)
Definition getnum (fixed : bool) (s : string) : option (Z * string) :=
  match s with
  | String a rest =>
      if is_digit a then
        match rest with
        | String b rest' =>
            if is_digit b then Some (digit_val a * 10 + digit_val b, rest')
            else if fixed then None else Some (digit_val a, rest)
        | "" => if fixed then None else Some (digit_val a, rest)
        end
      else None
  | "" => None
  end.

Definition skip (c : ascii) (s : string) : option string :=
  match s with
  | String d rest => if Ascii.eqb c d then Some rest else None
  | "" => None
  end.

Definition in_bounds (lo hi n : Z) : option Z := if (lo <=? n) && (n <=? hi) then Some n else None.

Definition year4 (s : string) : option (Z * string) :=
  '(a, s) ← getnum true s; '(b, s) ← getnum true s; Some (a * 100 + b, s).

(** The digits of a fraction: at most nine count. *)
Fixpoint fraction (n : nat) (acc : Z) (s : string) : Z * string :=
  match s with
  | String c rest =>
      if is_digit c then
        match n with
        | O => fraction O acc rest
        | S n => fraction n (acc * 10 + digit_val c) rest
        end
      else (acc * 10 ^ Z.of_nat n, s)
  | "" => (acc * 10 ^ Z.of_nat n, "")
  end.

Definition nanoseconds (s : string) : Z * string :=
  match s with
  | String p (String c rest) =>
      if (Ascii.eqb p "." || Ascii.eqb p ",") && is_digit c then fraction 9 0 (String c rest) else (0, s)
  | _ => (0, s)
  end.

(** The zone: its offset in seconds; nothing may follow. *)
Definition zone (s : string) : option Z :=
  match s with
  | String c rest =>
      if Ascii.eqb c "Z" then (if String.eqb rest "" then Some 0 else None)
      else if Ascii.eqb c "+" || Ascii.eqb c "-" then
        '(hr, s) ← getnum true rest; s ← skip ":" s; '(mm, s) ← getnum true s;
        hr ← in_bounds 0 24 hr; mm ← in_bounds 0 60 mm;
        if String.eqb s "" then Some ((if Ascii.eqb c "-" then -1 else 1) * (hr * 60 + mm) * 60) else None
      else None
  | "" => None
  end.

Definition ParseRFC3339 (s : string) : option Z :=
  '(year, s) ← year4 s; s ← skip "-" s;
  '(month, s) ← getnum true s; s ← skip "-" s; '(day, s) ← getnum true s; s ← skip "T" s;
  '(hour, s) ← getnum false s; s ← skip ":" s; '(mn, s) ← getnum true s; s ← skip ":" s;
  '(sec, s) ← getnum true s;
  month ← in_bounds 1 12 month; day ← in_bounds 1 (daysIn month year) day;
  hour ← in_bounds 0 23 hour; mn ← in_bounds 0 59 mn; sec ← in_bounds 0 59 sec;
  let '(ns, s) := nanoseconds s in
  off ← zone s;
  Some ((((days_from_civil year month day * 24 + hour) * 60 + mn) * 60 + sec - off) * second + ns).

Example ParseRFC3339_ex :
  ParseRFC3339 "2024-02-29T12:30:00Z" = Some (1709209800 * second) ∧
  ParseRFC3339 "2024-02-29T12:30:00.25+02:00" = Some (1709202600 * second + 250000000) ∧
  ParseRFC3339 "2023-02-29T12:30:00Z" = None ∧
  ParseRFC3339 "1970-01-01T00:00:00Z" = Some 0.
Proof. vm_compute. done. Qed.

(** ** t.UTC().Format(time.RFC3339), of the years 0 to 9999 *)

Definition civil_from_days (z : Z) : Z * Z * Z :=
  let z := z + 719468 in
  let era := z / 146097 in
  let doe := z mod 146097 in
  let yoe := (doe - doe / 1460 + doe / 36524 - doe / 146096) / 365 in
  let doy := doe - (365 * yoe + yoe / 4 - yoe / 100) in
  let mp := (5 * doy + 2) / 153 in
  let m := if mp <? 10 then mp + 3 else mp - 9 in
  (yoe + era * 400 + (if m <=? 2 then 1 else 0), m, doy - (153 * mp + 2) / 5 + 1).

Fixpoint pad (width : nat) (n : Z) : string :=
  match width with O => "" | S w => pad w (n / 10) +:+ String (ascii_of (48 + n mod 10)) "" end.

Definition FormatRFC3339 (t : Z) : string :=
  let secs := t / second in
  let '(y, m, d) := civil_from_days (secs / 86400) in
  let s := secs mod 86400 in
  pad 4 y +:+ "-" +:+ pad 2 m +:+ "-" +:+ pad 2 d +:+ "T" +:+ pad 2 (s / 3600) +:+ ":" +:+ pad 2 (s / 60 mod 60)
    +:+ ":" +:+ pad 2 (s mod 60) +:+ "Z".

Lemma FormatRFC3339_ex :
  FormatRFC3339 <$> ParseRFC3339 "2024-02-29T23:59:58Z" = Some "2024-02-29T23:59:58Z" ∧
  FormatRFC3339 <$> ParseRFC3339 "1999-12-31T00:00:09.5+01:00" = Some "1999-12-30T23:00:09Z".
Proof. split; vm_compute; reflexivity. Qed.

(** ** time.ParseDuration on whole hours, minutes and seconds *)

(** The decimal digits at the front of [s]. *)
Fixpoint lead_digits (acc : Z) (s : string) : Z * string :=
  match s with
  | String c rest => if is_digit c then lead_digits (acc * 10 + digit_val c) rest else (acc, s)
  | "" => (acc, "")
  end.

(** The optional group "digits then [u]", worth [unit] each; the string is unchanged when it is absent. *)
Definition unit_group (u : ascii) (unit : Z) (s : string) : Z * string :=
  match s with
  | String c _ =>
      if is_digit c then
        match lead_digits 0 s with
        | (n, String d rest) => if Ascii.eqb u d then (n * unit, rest) else (0, s)
        | (_, "") => (0, s)
        end
      else (0, s)
  | "" => (0, s)
  end.

(** The value of a string of the form ([0-9]+h)?([0-9]+m)?([0-9]+s)?, in nanoseconds; [None] for any other
    string. *)
Definition hms (s : string) : option Z :=
  let '(h, s) := unit_group "h" (3600 * second) s in
  let '(m, s) := unit_group "m" (60 * second) s in
  let '(sec, s) := unit_group "s" second s in
  if String.eqb s "" then Some (h + m + sec) else None.

Example hms_ex : hms "1h30m" = Some (5400 * second) ∧ hms "4h" = Some (14400 * second) ∧
  hms "30m1h" = None ∧ hms "" = Some 0 ∧ hms "5" = None.
Proof. vm_compute. done. Qed.

Lemma lead_digits_nonneg s acc : 0 ≤ acc → 0 ≤ (lead_digits acc s).1.
Proof.
  revert acc. induction s as [|c s IH]; intros acc Ha; cbn; [done|].
  destruct (is_digit c) eqn:Ed; [|done]. apply IH. unfold is_digit, in_range, digit_val in *.
  change (byte_of "0") with 48 in Ed. bool_to_prop. lia.
Qed.

Lemma unit_group_nonneg u unit s : 0 ≤ unit → 0 ≤ (unit_group u unit s).1.
Proof.
  intros Hu. unfold unit_group. destruct s as [|c s]; [done|]. destruct (is_digit c); [|done].
  pose proof (lead_digits_nonneg (String c s) 0 ltac:(lia)) as H.
  destruct (lead_digits 0 (String c s)) as [n [|d rest]]; [done|].
  destruct (Ascii.eqb u d); [|done]. cbn [fst] in *. nia.
Qed.

Lemma hms_nonneg s d : hms s = Some d → 0 ≤ d.
Proof.
  unfold hms, second. pose proof (unit_group_nonneg "h" (3600 * 1000000000) s ltac:(lia)) as H1.
  destruct (unit_group "h" _ s) as [h s1].
  pose proof (unit_group_nonneg "m" (60 * 1000000000) s1 ltac:(lia)) as H2.
  destruct (unit_group "m" _ s1) as [m s2].
  pose proof (unit_group_nonneg "s" 1000000000 s2 ltac:(lia)) as H3.
  destruct (unit_group "s" _ s2) as [x s3]. cbn in *. destruct (String.eqb s3 ""); [|done].
  intros [= <-]. lia.
Qed.
