(* ===== verification/Json.v ===== *)
(** * Decoded JSON

    What encoding/json decodes into an [any]: numbers are float64, an object is a Go map, whose iteration
    order is the order of the list. *)

From Stdlib Require Export SpecFloat.
From stdpp Require Import sorting.
From S2P Require Import Prelude GoStrings.
#[local] Open Scope string_scope.

Inductive json :=
| JNull
| JBool (b : bool)
| JNum (f : spec_float)
| JStr (s : string)
| JArr (l : list json)
| JObj (m : list (string * json)).

(** [m[k]] with the comma-ok form. *)
Fixpoint obj_get (m : list (string * json)) (k : string) : option json :=
  match m with
  | [] => None
  | (k', v) :: m => if String.eqb k' k then Some v else obj_get m k
  end.

Definition has_key (m : list (string * json)) (k : string) : bool :=
  match obj_get m k with Some _ => true | None => false end.

(** A map has each key once. *)
Definition wf_obj (m : list (string * json)) : Prop := NoDup m.*1.

(** [m[k]] without it: the zero value of [any] is nil. *)
Definition get (m : list (string * json)) (k : string) : json := default JNull (obj_get m k).

Definition strings_of (l : list json) : list string :=
  omap (λ v, match v with JStr s => Some s | _ => None end) l.

Lemma obj_get_elem m k v : wf_obj m → obj_get m k = Some v ↔ (k, v) ∈ m.
Proof.
  unfold wf_obj. induction m as [|[k' v'] m IH]; cbn.
  { intros _. split; [done|]. by intros ?%not_elem_of_nil. }
  intros [Hk Hnd]%NoDup_cons. rewrite elem_of_cons. destruct (String.eqb_spec k' k) as [->|Hne].
  - split; [intros [= ->]; by left|]. intros [[= ->]|Hin]; [done|]. destruct Hk.
    apply list_elem_of_fmap. by exists (k, v).
  - rewrite (IH Hnd). split; [by right|]. intros [[= -> _]|?]; done.
Qed.

(** Induction through arrays and objects. *)
Lemma json_nested_ind (P : json → Prop) :
  P JNull → (∀ b, P (JBool b)) → (∀ f, P (JNum f)) → (∀ s, P (JStr s)) →
  (∀ l, Forall P l → P (JArr l)) → (∀ m, Forall (λ kv, P kv.2) m → P (JObj m)) → ∀ j, P j.
Proof.
  intros Hn Hb Hf Hs Ha Ho. fix IH 1. intros [|b|f|s|l|m]; [done|apply Hb|apply Hf|apply Hs| |].
  - apply Ha. induction l as [|j l IHl]; constructor; [apply IH|exact IHl].
  - apply Ho. induction m as [|[k j] m IHm]; constructor; [apply IH|exact IHm].
Qed.

(** ** Members in the order of their keys *)

Definition by_key (m : list (string * json)) : list (string * json) :=
  map (λ k, (k, get m k)) (merge_sort string_le (map fst m)).

Lemma obj_get_key m k v : obj_get m k = Some v → k ∈ map fst m.
Proof.
  induction m as [|[k' v'] m IH]; [done|]. cbn. destruct (String.eqb_spec k' k) as [->|]; [left|]. intros H. right. by apply IH.
Qed.

Lemma elem_of_by_key m kv : kv ∈ by_key m ↔ kv.1 ∈ map fst m ∧ kv.2 = get m kv.1.
Proof.
  unfold by_key. rewrite list_elem_of_fmap. setoid_rewrite merge_sort_Permutation. destruct kv as [k v]; cbn. split.
  - by intros (x & [= -> ->] & Hx).
  - intros [Hk ->]. by exists k.
Qed.

Lemma by_key_member m k (g : json → bool) : g JNull = false → existsb (λ kv, String.eqb kv.1 k && g kv.2) (by_key m) = g (get m k).
Proof.
  intros Hg. apply eq_true_iff_eq. rewrite existsb_exists. split.
  - intros ([k' v'] & Hin%list_elem_of_In%elem_of_by_key & H). cbn in *. apply andb_true_iff in H as [->%String.eqb_eq H].
    destruct Hin as [_ ->]. done.
  - intros H. exists (k, get m k). cbn. rewrite String.eqb_refl. split; [|done]. apply list_elem_of_In, elem_of_by_key. split; [|done]. cbn.
    unfold get in H. destruct (obj_get m k) as [v|] eqn:E; [by eapply obj_get_key|]. cbn in H. congruence.
Qed.

Lemma forallb_by_key m (g : string → json → bool) : forallb (λ kv, g kv.1 kv.2) (by_key m) = forallb (λ k, g k (get m k)) (map fst m).
Proof.
  apply eq_true_iff_eq. rewrite !forallb_forall. setoid_rewrite <- list_elem_of_In. split.
  - intros H k Hk. exact (H (k, get m k) (proj2 (elem_of_by_key m (k, get m k)) (conj Hk eq_refl))).
  - intros H kv [Hk Hv]%elem_of_by_key. rewrite Hv. by apply H.
Qed.
