(* ===== verification/PolicyEngine.v ===== *)
(** * The fine-grained authorization engine (policyengine/engine.go)

    Statements compile to the text of a Cedar policy set.  The text is the rendering of a small syntax
    tree, and Cedar itself (github.com/cedar-policy/cedar-go) is a parameter, of which the theorems use
    that it evaluates a text it accepts by the documented semantics of what was rendered. *)

From stdpp Require Import sorting.
From S2P Require Import Prelude GoStrings.
#[local] Open Scope string_scope.
#[local] Open Scope Z_scope.
#[local] Open Scope list_scope.

(** ** Statements *)

Record KeyCondition := mkKey { kcKey : string; kcOp : string; kcValue : string; kcIfExists : bool }.
Record IPCondition := mkIP { ipKey : string; ipCIDR : string; ipNegate : bool }.
Record LikeCondition := mkLike { lkKey : string; lkPattern : string; lkNegate : bool }.
Record TimeCondition := mkTime { tcKey : string; tcOp : string; tcTarget : string }.

Definition Allow : string := "Allow".
Definition Deny : string := "Deny".
Definition KeyNull : string := "null".

Record Statement := mkStatement {
  sEffect : string;
  sActions : list string;
  sNotActions : list string;
  sResources : list string;
  sNotResources : list string;
  sCondition : gmap string string;
  sIPConditions : list IPCondition;
  sLikeConditions : list LikeCondition;
  sTimeConditions : list TimeCondition;
  sKeyConditions : list KeyCondition;
}.

(** The errors of compilation, by message. *)
Inductive engine_error :=
| ErrEffect (idx : nat) (got : string)
| ErrBoth (idx : nat) (axis : string)
| ErrEntry (idx : nat) (axis entry : string)
| ErrKeyName (idx : nat) (key : string)
| ErrNull (idx : nat) (key value : string)
| ErrBoolOp (idx : nat) (key op : string)
| ErrNotInt (idx : nat) (key value : string)
| ErrNumOp (idx : nat) (op : string)
| ErrIP (idx : nat)
| ErrLike (idx : nat)
| ErrTime (idx : nat)
| ErrTimeOp (idx : nat) (op : string)
| ErrKinds (idx : nat) (key prev k : string)
| ErrBoundary (e : engine_error)
| ErrCompile.

(** ** The syntax of the compiled policies

    Parentheses are explicit, so that [render] is the text the code builds. *)

Inductive term :=
| FieldEq (key value : string)            (* context.key == %q *)
| FieldLike (key pat : string)            (* context.key like %q *)
| CondLike (key pat : string)             (* context.key like, escaped by cedarPattern *)
| Cmp (key op lit : string)               (* context.key op lit, with a boolean or integer literal *)
| InRange (key cidr : string)
| TimeCmp (key op target : string)
| Has (key : string)
| TFalse
| Not (t : term)                          (* !( t ) *)
| Paren (t : term)
| All (ts : list term)                    (* joined by && *)
| AnyOf (ts : list term).                 (* joined by || *)

Inductive policy :=
| Clause (forbid : bool) (terms : list term)
| Guard (permits : list term).            (* the permission boundary *)

(** cedarPattern. *)
Definition cedarPattern (p : string) : string :=
  let p := ReplaceByte p backslash (String backslash (String backslash "")) in
  ReplaceByte p dquote (String backslash (String dquote "")).

Section Render.
Context (IsPrint : Z → bool).

Fixpoint render (t : term) : string :=
  match t with
  | FieldEq k v => "context." +:+ k +:+ " == " +:+ Quote IsPrint v
  | FieldLike k v => "context." +:+ k +:+ " like " +:+ Quote IsPrint v
  | CondLike k p =>
      "context." +:+ k +:+ " like " +:+ String dquote (cedarPattern p +:+ String dquote "")
  | Cmp k op lit => "context." +:+ k +:+ " " +:+ op +:+ " " +:+ lit
  | InRange k cidr => "ip(context." +:+ k +:+ ").isInRange(ip(" +:+ Quote IsPrint cidr +:+ "))"
  | TimeCmp k op target =>
      "datetime(context." +:+ k +:+ ") " +:+ op +:+ " datetime(" +:+ Quote IsPrint target +:+ ")"
  | Has k => "context has " +:+ k
  | TFalse => "false"
  | Not t => "!(" +:+ render t +:+ ")"
  | Paren t => "(" +:+ render t +:+ ")"
  | All ts => Join (map render ts) " && "
  | AnyOf ts => Join (map render ts) " || "
  end.

Definition newline : string := String (ascii_of 10) "".

Definition scope_head (effect : string) : string :=
  effect +:+ " (" +:+ newline +:+ "  principal," +:+ newline +:+ "  action," +:+ newline
    +:+ "  resource" +:+ newline +:+ ")".

Definition boundaryAnnotation : string := "openinfra".

Definition render_policy (p : policy) : string :=
  match p with
  | Clause forbid terms =>
      let clause := scope_head (if forbid then "forbid" else "permit") in
      (match terms with
       | [] => clause
       | _ => clause +:+ newline +:+ "when { " +:+ Join (map render terms) " && " +:+ " }"
       end) +:+ ";"
  | Guard permits =>
      let head := "@" +:+ boundaryAnnotation +:+ "(" +:+ String dquote ("boundary" +:+ String dquote ")")
                    +:+ newline +:+ scope_head "forbid" in
      match permits with
      | [] => head +:+ ";"
      | _ => head +:+ newline +:+ "unless { " +:+ Join (map render permits) " || " +:+ " };"
      end
  end.

Definition render_all (ps : list policy) : string :=
  String.concat "" (map (λ p, render_policy p +:+ newline) ps).
End Render.

(** ** Compiling the scope *)

Definition wildcard (xs : list string) : bool :=
  match xs with
  | [] => true
  | [x] => String.eqb x "*"
  | _ => false
  end.

Definition entry_term (field v : string) : term :=
  if contains_char "*" v then FieldLike field v else FieldEq field v.

(** matchAny and complementClause; [None] is the empty clause. *)
Definition matchAny (field : string) (values : list string) : option term :=
  if wildcard values then None
  else match map (entry_term field) values with
       | [t] => Some t
       | ts => Some (Paren (AnyOf ts))
       end.

Definition complementClause (field : string) (exclude : list string) : term :=
  if wildcard exclude then TFalse
  else match matchAny field exclude with
       | Some t => Not t
       | None => TFalse
       end.

(** The whole-bucket entry [e] names: not empty, without a key and without a wildcard. *)
Definition is_bucket_entry (e : string) : bool :=
  match CutPrefix e "Bucket::" with
  | Some name => negb (String.eqb name "") && negb (ContainsAny name "/*")
  | None => false
  end.

Definition withBucketObjects (entries : list string) : list string :=
  entries ++ map (λ e, e +:+ "/*") (filter is_bucket_entry entries).

Definition valid_entry (r : string) : bool :=
  String.eqb r "*" || String.eqb r "" || Contains r "::".

Definition scopeClause (field : string) (positive negative : list string) (idx : nat)
    (axis : string) (typed : bool) : res engine_error (option term) :=
  if negb (bool_decide (positive = [])) && negb (bool_decide (negative = [])) then Err (ErrBoth idx axis)
  else
    match (if typed then filter (λ r, valid_entry r = false) (positive ++ negative) else []) with
    | r :: _ => Err (ErrEntry idx (ToLower axis) r)
    | [] =>
        let positive := if typed then withBucketObjects positive else positive in
        let negative := if typed then withBucketObjects negative else negative in
        if negb (bool_decide (negative = [])) then Ok (Some (complementClause field negative))
        else Ok (matchAny field positive)
    end.

(** ** Key conditions *)

Definition is_ident_start (c : ascii) : bool :=
  in_range "A" "Z" c || in_range "a" "z" c || Ascii.eqb c "_".
Definition is_ident_char (c : ascii) : bool := is_ident_start c || is_digit c.

(** cedarIdent. *)
Definition cedarIdent (s : string) : bool :=
  match s with
  | "" => false
  | String c s => is_ident_start c && forall_char is_ident_char s
  end.

Definition kind (k : KeyCondition) : string :=
  if String.eqb (kcOp k) KeyNull then ""
  else if String.eqb (kcValue k) "true" || String.eqb (kcValue k) "false" then "bool"
  else "long".

Definition num_op (op : string) : bool :=
  existsb (String.eqb op) ["=="; "!="; "<"; "<="; ">"; ">="].

Definition cedarTerm (k : KeyCondition) (idx : nat) : res engine_error term :=
  if negb (cedarIdent (kcKey k)) then Err (ErrKeyName idx (kcKey k))
  else if String.eqb (kcOp k) KeyNull then
    if String.eqb (kcValue k) "true" then Ok (Not (Has (kcKey k)))
    else if String.eqb (kcValue k) "false" then Ok (Paren (Has (kcKey k)))
    else Err (ErrNull idx (kcKey k) (kcValue k))
  else
    _ ← (if String.eqb (kind k) "bool" then
           if negb (String.eqb (kcOp k) "==") && negb (String.eqb (kcOp k) "!=")
           then Err (ErrBoolOp idx (kcKey k) (kcOp k)) else Ok ()
         else
           match ParseInt (kcValue k) with
           | None => Err (ErrNotInt idx (kcKey k) (kcValue k))
           | Some _ => if num_op (kcOp k) then Ok () else Err (ErrNumOp idx (kcOp k))
           end);
    let test := Cmp (kcKey k) (kcOp k) (kcValue k) in
    if kcIfExists k || String.eqb (kcOp k) "!="
    then Ok (Paren (AnyOf [Not (Has (kcKey k)); test]))
    else Ok (Paren (All [Has (kcKey k); test])).

(** ** Compiling a statement *)

Definition sortedKeys (m : gmap string string) : list string := merge_sort string_le (map_to_list m).*1.

(** dedupe: the first occurrence of each key, in order. *)
Fixpoint dedupe_go (seen : list string) (xs : list string) : list string :=
  match xs with
  | [] => []
  | x :: xs => if bool_decide (x ∈ seen) then dedupe_go seen xs else x :: dedupe_go (x :: seen) xs
  end.
Definition dedupe (xs : list string) : list string := dedupe_go [] xs.

Definition is_bool_lit (v : string) : bool := String.eqb v "true" || String.eqb v "false".

Definition condition_terms (m : gmap string string) : list (term * string) :=
  map (λ k, let v := default "" (m !! k) in
            (if is_bool_lit v then Cmp k "==" v else FieldEq k v, k)) (sortedKeys m).

Definition negated (negate : bool) (t : term) : term := if negate then Not t else t.

Definition ip_term (idx : nat) (ip : IPCondition) : res engine_error (term * string) :=
  if String.eqb (ipKey ip) "" || String.eqb (ipCIDR ip) "" then Err (ErrIP idx)
  else Ok (negated (ipNegate ip) (InRange (ipKey ip) (ipCIDR ip)), ipKey ip).

Definition like_term (idx : nat) (lk : LikeCondition) : res engine_error (term * string) :=
  if String.eqb (lkKey lk) "" || String.eqb (lkPattern lk) "" then Err (ErrLike idx)
  else Ok (negated (lkNegate lk) (CondLike (lkKey lk) (lkPattern lk)), lkKey lk).

Definition time_op (op : string) : bool := existsb (String.eqb op) ["<"; "<="; ">"; ">="].

Definition time_term (idx : nat) (tc : TimeCondition) : res engine_error (term * string) :=
  if String.eqb (tcKey tc) "" || String.eqb (tcOp tc) "" || String.eqb (tcTarget tc) "" then Err (ErrTime idx)
  else if negb (time_op (tcOp tc)) then Err (ErrTimeOp idx (tcOp tc))
  else Ok (TimeCmp (tcKey tc) (tcOp tc) (tcTarget tc), tcKey tc).

(** The value conditions and the keys they read. *)
Definition value_terms (s : Statement) (idx : nat) : res engine_error (list (term * string)) :=
  ips ← mapM (ip_term idx) (sIPConditions s);
  likes ← mapM (like_term idx) (sLikeConditions s);
  times ← mapM (time_term idx) (sTimeConditions s);
  Ok (condition_terms (sCondition s) ++ ips ++ likes ++ times).

(** The guard of a forbid: it also fires when a key it reads is absent. *)
Definition guarded_value (forbid : bool) (value : list (term * string)) : list term :=
  match value with
  | [] => []
  | _ =>
      let joined := All (value.*1) in
      if forbid
      then [Paren (AnyOf [Not (All (map Has (dedupe (value.*2)))); Paren joined])]
      else [joined]
  end.

Definition toCedar (s : Statement) (idx : nat) : res engine_error policy :=
  forbid ← (if String.eqb (sEffect s) Allow then Ok false
            else if String.eqb (sEffect s) Deny then Ok true
            else Err (ErrEffect idx (sEffect s)));
  act ← scopeClause "action" (sActions s) (sNotActions s) idx "Action" false;
  rsc ← scopeClause "resource" (sResources s) (sNotResources s) idx "Resource" true;
  value ← value_terms s idx;
  keys ← mapM (λ kc, cedarTerm kc idx) (sKeyConditions s);
  Ok (Clause forbid (option_list act ++ option_list rsc ++ guarded_value forbid value ++ keys)).

(** ** The permission boundary *)

(** compileBoundary: [None] is the empty guard, of a boundary that allows everything. *)
Fixpoint boundary_permits (i : nat) (boundary : list Statement) : res engine_error (option (list term)) :=
  match boundary with
  | [] => Ok (Some [])
  | s :: rest =>
      if negb (String.eqb (sEffect s) Allow) then boundary_permits (S i) rest
      else
        match scopeClause "action" (sActions s) (sNotActions s) i "Action" false,
              scopeClause "resource" (sResources s) (sNotResources s) i "Resource" true with
        | Err e, _ | Ok _, Err e => Err (ErrBoundary e)
        | Ok act, Ok rsc =>
            match option_list act ++ option_list rsc with
            | [] => Ok None
            | ts =>
                more ← boundary_permits (S i) rest;
                Ok (match more with Some ps => Some (Paren (All ts) :: ps) | None => None end)
            end
        end
  end.

Definition compileBoundary (boundary : list Statement) : res engine_error (option policy) :=
  permits ← boundary_permits 0 boundary;
  Ok (match permits with Some ps => Some (Guard ps) | None => None end).

(** ** The engine *)

(** What a statement adds to keyKinds: the kinds of its key conditions, which must not disagree. *)
Fixpoint add_kinds (idx : nat) (kcs : list KeyCondition) (kinds : gmap string string)
    : res engine_error (gmap string string) :=
  match kcs with
  | [] => Ok kinds
  | kc :: kcs =>
      let k := kind kc in
      if String.eqb k "" then add_kinds idx kcs kinds
      else match kinds !! kcKey kc with
           | Some prev => if String.eqb prev k then add_kinds idx kcs (<[kcKey kc := k]> kinds)
                          else Err (ErrKinds idx (kcKey kc) prev k)
           | None => add_kinds idx kcs (<[kcKey kc := k]> kinds)
           end
  end.

Record compiled := mkCompiled {
  cPolicies : list policy;
  cIPKeys : gset string;
  cTimeKeys : gset string;
  cKeyKinds : gmap string string;
}.

Fixpoint compile_statements (idx : nat) (ss : list Statement) (c : compiled) : res engine_error compiled :=
  match ss with
  | [] => Ok c
  | s :: ss =>
      clause ← toCedar s idx;
      kinds ← add_kinds idx (sKeyConditions s) (cKeyKinds c);
      compile_statements (S idx) ss
        (mkCompiled (cPolicies c ++ [clause])
           (list_to_set (map ipKey (sIPConditions s)) ∪ cIPKeys c)
           (list_to_set (map tcKey (sTimeConditions s)) ∪ cTimeKeys c) kinds)
  end.

(** The statements and the guard, before the text is handed to Cedar. *)
Definition compile (ss : list Statement) (extra : option policy) : res engine_error compiled :=
  c ← compile_statements 0 ss (mkCompiled [] ∅ ∅ ∅);
  Ok (mkCompiled (cPolicies c ++ option_list extra) (cIPKeys c) (cTimeKeys c) (cKeyKinds c)).

(** Requests. *)
Record entity := mkEntity { eType : string; eID : string }.

(** The dynamic type of a value of [Context]: any other type is dropped. *)
Inductive any := AStr (s : string) | ABool (b : bool) | AInt (n : Z) | AInt64 (n : Z) | AOther.

Record Request := mkRequest {
  rqPrincipal : entity;
  rqAction : string;
  rqResource : entity;
  rqContext : gmap string any;
}.

Record Decision := mkDecision { dAllowed : bool; dReason : string; dExplicitDeny : bool }.

(** Cedar values and records. *)
Inductive value := VStr (s : string) | VBool (b : bool) | VLong (n : Z).
Abbreviation record := (gmap string value).

#[export] Instance value_eq_dec : EqDecision value.
Proof. solve_decision. Defined.

Definition entityType (t : string) : string := if String.eqb t "" then "Any" else t.

Definition to_record (ctx : gmap string any) : record :=
  omap (λ v, match v with
             | AStr s => Some (VStr s)
             | ABool b => Some (VBool b)
             | AInt n | AInt64 n => Some (VLong n)
             | AOther => None
             end) ctx.

Definition kind_ok (k : string) (v : value) : bool :=
  match v with
  | VBool _ => negb (String.eqb k "long")
  | VLong _ => negb (String.eqb k "bool")
  | VStr _ => negb (String.eqb k "bool") && negb (String.eqb k "long")
  end.

(** The keys of keyKinds whose attribute has another type; Go's loop meets one of them first. *)
Definition malformed_key (ctx : record) (k kd : string) : bool :=
  match ctx !! k with Some v => negb (kind_ok kd v) | None => false end.
Definition malformed (kinds : gmap string string) (ctx : record) : list string :=
  (filter (λ kk, malformed_key ctx kk.1 kk.2) (map_to_list kinds)).*1.

Record cedar_request := mkCedarRequest {
  crPrincipal : entity;
  crAction : entity;
  crResource : entity;
  crContext : record;
}.

Section Cedar.
(** Cedar's extension types: types.ParseIPAddr, isInRange, and types.ParseDatetime in milliseconds. *)
Context {IP : Type} (ParseIPAddr : string → option IP) (isInRange : IP → IP → bool).
Context (ParseDatetime : string → option Z).
(** cedar.NewPolicySetFromBytes, IsAuthorized (the decision and the ids of the diagnostic's reasons)
    and the "openinfra" annotation of the policy of an id. *)
Context {PolicySet : Type} (NewPolicySetFromBytes : string → option PolicySet).
Context (IsAuthorized : PolicySet → cedar_request → bool * list nat).
Context (Annotation : PolicySet → nat → option string).
Context (IsPrint : Z → bool).

Record Engine := mkEngine { ePS : PolicySet; eCompiled : compiled }.

Definition newEngine (ss : list Statement) (extra : option policy) : res engine_error Engine :=
  c ← compile ss extra;
  match NewPolicySetFromBytes (render_all IsPrint (cPolicies c)) with
  | Some ps => Ok (mkEngine ps c)
  | None => Err ErrCompile
  end.

Definition NewEngine (ss : list Statement) : res engine_error Engine := newEngine ss None.

Definition NewEngineWithBoundary (ss boundary : list Statement) : res engine_error Engine :=
  guard ← compileBoundary boundary; newEngine ss guard.

(** Collapse "present but unparseable" into "absent". *)
Definition keeps {A} (parse : string → option A) (v : value) : bool :=
  match v with VStr s => bool_decide (is_Some (parse s)) | _ => false end.
Definition sanitise {A} (parse : string → option A) (keys : gset string) (ctx : record) : record :=
  filter (λ kv, kv.1 ∈ keys → keeps parse kv.2 = true) ctx.

(** The context Cedar sees: sanitised, and with the reserved keys set last. *)
Definition cedar_context (e : Engine) (r : Request) (ctx : record) : record :=
  let ctx := sanitise ParseIPAddr (cIPKeys (eCompiled e)) ctx in
  let ctx := sanitise ParseDatetime (cTimeKeys (eCompiled e)) ctx in
  <["resource" := VStr (eType (rqResource r) +:+ "::" +:+ eID (rqResource r))]>
    (<["action" := VStr (rqAction r)]> ctx).

Definition Authorize (e : Engine) (r : Request) : Decision :=
  let ctx := to_record (rqContext r) in
  match malformed (cKeyKinds (eCompiled e)) ctx with
  | k :: _ => mkDecision false ("the request attribute " +:+ k +:+ " is malformed (denied)") false
  | [] =>
      let req := mkCedarRequest
        (mkEntity (entityType (eType (rqPrincipal r))) (eID (rqPrincipal r)))
        (mkEntity "Action" "perform")
        (mkEntity (entityType (eType (rqResource r))) (eID (rqResource r)))
        (cedar_context e r ctx) in
      let '(allow, reasons) := IsAuthorized (ePS e) req in
      if allow then mkDecision true "allowed by policy" false
      else
        match reasons with
        | [] => mkDecision false "no policy allows this action (default deny)" false
        | _ =>
            if existsb (λ id, negb (bool_decide (Annotation (ePS e) id = Some "boundary"))) reasons
            then mkDecision false "denied by an explicit forbid policy" true
            else mkDecision false "denied by the permission boundary (the action is outside it)" false
        end
  end.

(** ** Cedar's documented semantics, on the terms that are rendered

    A condition evaluates to a boolean or to an error ([None]): reading an absent attribute, an
    ordering or [like] on a value of another type, and an argument of [ip] or [datetime] that does not
    parse are errors; [&&] and [||] are lazy. *)

Definition lit_value (lit : string) : option value :=
  if String.eqb lit "true" then Some (VBool true)
  else if String.eqb lit "false" then Some (VBool false)
  else VLong <$> ParseInt lit.

Definition order_op (op : string) (a b : Z) : option bool :=
  if String.eqb op "<" then Some (a <? b)
  else if String.eqb op "<=" then Some (a <=? b)
  else if String.eqb op ">" then Some (b <? a)
  else if String.eqb op ">=" then Some (b <=? a)
  else None.

Definition cmp_values (op : string) (a b : value) : option bool :=
  if String.eqb op "==" then Some (bool_decide (a = b))
  else if String.eqb op "!=" then Some (bool_decide (a ≠ b))
  else match a, b with VLong a, VLong b => order_op op a b | _, _ => None end.

Definition as_string (v : value) : option string := match v with VStr s => Some s | _ => None end.

Fixpoint eval (c : record) (t : term) : option bool :=
  match t with
  | FieldEq k v => x ← c !! k; Some (bool_decide (x = VStr v))
  | FieldLike k p | CondLike k p => x ← c !! k; s ← as_string x; Some (like p s)
  | Cmp k op lit => x ← c !! k; l ← lit_value lit; cmp_values op x l
  | InRange k cidr =>
      x ← c !! k; s ← as_string x; a ← ParseIPAddr s; range ← ParseIPAddr cidr;
      Some (isInRange a range)
  | TimeCmp k op target =>
      x ← c !! k; s ← as_string x; a ← ParseDatetime s; b ← ParseDatetime target; order_op op a b
  | Has k => Some (bool_decide (is_Some (c !! k)))
  | TFalse => Some false
  | Not t => negb <$> eval c t
  | Paren t => eval c t
  | All ts =>
      (fix all (ts : list term) : option bool :=
         match ts with
         | [] => Some true
         | t :: ts => b ← eval c t; if b : bool then all ts else Some false
         end) ts
  | AnyOf ts =>
      (fix any (ts : list term) : option bool :=
         match ts with
         | [] => Some false
         | t :: ts => b ← eval c t; if b : bool then Some true else any ts
         end) ts
  end.

(** A policy is satisfied when its condition evaluates to true ([when]) or false ([unless]); one
    whose condition is an error is skipped. *)
Definition satisfied (c : record) (p : policy) : bool :=
  match p with
  | Clause _ terms => bool_decide (eval c (All terms) = Some true)
  | Guard permits => bool_decide (eval c (AnyOf permits) = Some false)
  end.
Definition is_forbid (p : policy) : bool :=
  match p with Clause forbid _ => forbid | Guard _ => true end.
Definition annotation (p : policy) : option string :=
  match p with Clause _ _ => None | Guard _ => Some "boundary" end.

Definition determining (forbid : bool) (ps : list policy) (c : record) (i : nat) : Prop :=
  ∃ p, ps !! i = Some p ∧ is_forbid p = forbid ∧ satisfied c p = true.

(** Cedar evaluates the policy set of the text [render_all ps] as the policies [ps]: forbid overrides
    permit, the default is deny, and the reasons are the policies that decided; policies are numbered
    in the order of the text. *)
Record cedar_reads (set : PolicySet) (ps : list policy) : Prop := {
  cr_decision rq b reasons : IsAuthorized set rq = (b, reasons) →
    b = true ↔ (∃ i, determining false ps (crContext rq) i) ∧
               ¬ (∃ i, determining true ps (crContext rq) i);
  cr_reasons rq reasons : IsAuthorized set rq = (false, reasons) →
    ∀ i, i ∈ reasons ↔ determining true ps (crContext rq) i;
  cr_annotation i p : ps !! i = Some p → Annotation set i = annotation p;
}.
End Cedar.

(** ** What a statement means

    The AWS reading of a statement, independent of its compilation. *)

Definition is_all (vs : list string) : Prop := vs = [].
Definition some_matches (vs : list string) (x : string) : Prop := ∃ v, v ∈ vs ∧ like v x = true.

(** A resource entry also covers the objects of the bucket it names. *)
Definition covers (e r : string) : Prop :=
  like e r = true ∨ (is_bucket_entry e = true ∧ ∃ key, r = e +:+ "/" +:+ key).
Definition some_covers (vs : list string) (r : string) : Prop := ∃ v, v ∈ vs ∧ covers v r.

Definition action_ok (s : Statement) (a : string) : Prop :=
  if bool_decide (sNotActions s = []) then sActions s = [] ∨ some_matches (sActions s) a
  else ¬ some_matches (sNotActions s) a.

Definition resource_ok (s : Statement) (r : string) : Prop :=
  if bool_decide (sNotResources s = []) then sResources s = [] ∨ some_covers (sResources s) r
  else ¬ some_covers (sNotResources s) r.

Definition boundary_covers (boundary : list Statement) (a r : string) : Prop :=
  ∃ s, s ∈ boundary ∧ sEffect s = Allow ∧ action_ok s a ∧ resource_ok s r.

Definition cond_value (v : string) : value :=
  if String.eqb v "true" then VBool true else if String.eqb v "false" then VBool false else VStr v.

(** A condition on a key that may be absent. *)
Definition key_holds (c : record) (kc : KeyCondition) : Prop :=
  match c !! kcKey kc with
  | None => if String.eqb (kcOp kc) KeyNull then kcValue kc = "true"
            else kcIfExists kc = true ∨ kcOp kc = "!="
  | Some v => if String.eqb (kcOp kc) KeyNull then kcValue kc = "false"
              else ∃ l, lit_value (kcValue kc) = Some l ∧ cmp_values (kcOp kc) v l = Some true
  end.

(** The keys the value conditions read. *)
Definition reads (s : Statement) (k : string) : Prop :=
  is_Some (sCondition s !! k) ∨ k ∈ map ipKey (sIPConditions s) ∨
  k ∈ map lkKey (sLikeConditions s) ∨ k ∈ map tcKey (sTimeConditions s).

Section Meaning.
Context {IP : Type} (ParseIPAddr : string → option IP) (isInRange : IP → IP → bool).
Context (ParseDatetime : string → option Z).

Definition ip_holds (c : record) (ip : IPCondition) : Prop :=
  ∃ s a range, c !! ipKey ip = Some (VStr s) ∧ ParseIPAddr s = Some a ∧
    ParseIPAddr (ipCIDR ip) = Some range ∧ isInRange a range = negb (ipNegate ip).
Definition like_holds (c : record) (lk : LikeCondition) : Prop :=
  ∃ s, c !! lkKey lk = Some (VStr s) ∧ like (lkPattern lk) s = negb (lkNegate lk).
Definition time_holds (c : record) (tc : TimeCondition) : Prop :=
  ∃ s a b, c !! tcKey tc = Some (VStr s) ∧ ParseDatetime s = Some a ∧
    ParseDatetime (tcTarget tc) = Some b ∧ order_op (tcOp tc) a b = Some true.

Definition value_holds (c : record) (s : Statement) : Prop :=
  (∀ k v, sCondition s !! k = Some v → c !! k = Some (cond_value v)) ∧
  Forall (ip_holds c) (sIPConditions s) ∧ Forall (like_holds c) (sLikeConditions s) ∧
  Forall (time_holds c) (sTimeConditions s).

(** An Allow needs its conditions to hold; a Deny also applies when a key they read is absent. *)
Definition applies (c : record) (a r : string) (s : Statement) : Prop :=
  action_ok s a ∧ resource_ok s r ∧
  (value_holds c s ∨ (sEffect s = Deny ∧ ∃ k, reads s k ∧ c !! k = None)) ∧
  Forall (key_holds c) (sKeyConditions s).
End Meaning.

(** ** The scope clauses *)

Lemma like_star_all x : like "*" x = true.
Proof. apply (like_prefix "" x); [done|by exists x]. Qed.

Lemma wildcard_spec vs : wildcard vs = true ↔ vs = [] ∨ vs = ["*"].
Proof.
  destruct vs as [|x [|y vs]]; cbn; [naive_solver| |naive_solver].
  rewrite String.eqb_eq. naive_solver.
Qed.

Lemma bucket_entry_spec e :
  is_bucket_entry e = true → contains_char "*" e = false.
Proof.
  unfold is_bucket_entry. destruct (CutPrefix e "Bucket::") as [name|] eqn:Ec; [|done].
  apply CutPrefix_spec in Ec as ->. intros [_ Hn]%andb_true_iff. cbn.
  apply negb_true_iff in Hn. induction name as [|c name IH]; [done|].
  cbn [contains_char ContainsAny] in *. apply orb_false_iff in Hn as [Hc Hn].
  rewrite IH by done. rewrite orb_false_r. apply Ascii.eqb_neq. by intros <-.
Qed.

Lemma some_matches_bucket vs r : some_matches (withBucketObjects vs) r ↔ some_covers vs r.
Proof.
  unfold some_matches, some_covers, covers, withBucketObjects. split.
  - intros (v & [Hv|Hv]%elem_of_app & Hl); [by eauto|].
    apply list_elem_of_fmap in Hv as (e & -> & [Hb Hin]%list_elem_of_filter). exists e. split; [done|].
    right. split; [by apply Is_true_eq_true|]. apply Is_true_eq_true in Hb.
    change (e +:+ "/*") with (e +:+ ("/" +:+ "*")) in Hl. rewrite <- append_assoc in Hl.
    apply like_prefix in Hl as [k ->].
    + exists k. by rewrite append_assoc.
    + rewrite contains_char_append, bucket_entry_spec by done. done.
  - intros (e & Hin & [Hl|(Hb & key & ->)]).
    + exists e. split; [by apply elem_of_app; left|done].
    + exists (e +:+ "/*"). split.
      * apply elem_of_app. right. apply list_elem_of_fmap. exists e. split; [done|].
        apply list_elem_of_filter. split; [by apply Is_true_eq_left|done].
      * change (e +:+ "/*") with (e +:+ ("/" +:+ "*")). rewrite <- append_assoc.
        apply like_prefix; [by rewrite contains_char_append, bucket_entry_spec|].
        exists key. by rewrite append_assoc.
Qed.

Lemma withBucketObjects_nil vs : withBucketObjects vs = [] ↔ vs = [].
Proof.
  unfold withBucketObjects. split; [|by intros ->]. by intros [-> _]%app_eq_nil.
Qed.

Lemma dedupe_go_elem seen xs k : k ∈ dedupe_go seen xs ↔ k ∈ xs ∧ k ∉ seen.
Proof.
  revert seen. induction xs as [|x xs IH]; intros seen; cbn [dedupe_go]; [set_solver|].
  case_bool_decide; [|destruct (decide (k = x))]; rewrite ?elem_of_cons, IH; set_solver.
Qed.

Lemma dedupe_elem xs k : k ∈ dedupe xs ↔ k ∈ xs.
Proof. unfold dedupe. rewrite dedupe_go_elem. set_solver. Qed.

Section Compile.
Context {IP : Type} (ParseIPAddr : string → option IP) (isInRange : IP → IP → bool).
Context (ParseDatetime : string → option Z).
#[local] Abbreviation eval := (eval ParseIPAddr isInRange ParseDatetime).
#[local] Abbreviation satisfied := (satisfied ParseIPAddr isInRange ParseDatetime).
#[local] Abbreviation value_holds := (value_holds ParseIPAddr isInRange ParseDatetime).
#[local] Abbreviation applies := (applies ParseIPAddr isInRange ParseDatetime).
Implicit Types (c : record) (t : term) (ts : list term).

Definition true_in c t : Prop := eval c t = Some true.

Lemma eval_All c ts : eval c (All ts) = Some true ↔ Forall (true_in c) ts.
Proof.
  cbn. induction ts as [|t ts IH]; [by split|]. rewrite Forall_cons, <- IH. unfold true_in.
  destruct (eval c t) as [[]|]; cbn; naive_solver.
Qed.

Lemma eval_All_total c ts :
  Forall (λ t, is_Some (eval c t)) ts → is_Some (eval c (All ts)).
Proof.
  cbn. induction 1 as [|t ts [b Hb] _ IH]; [by eauto|].
  rewrite Hb. cbn. destruct b; [exact IH|by eauto].
Qed.

(** A disjunction of terms that do not err is decided by the terms. *)
Lemma eval_AnyOf c ts :
  Forall (λ t, is_Some (eval c t)) ts →
  is_Some (eval c (AnyOf ts)) ∧ (eval c (AnyOf ts) = Some true ↔ Exists (true_in c) ts).
Proof.
  cbn. induction 1 as [|t ts [b Hb] _ [IHs IH]].
  { split; [by eauto|]. rewrite Exists_nil. done. }
  rewrite Exists_cons, <- IH. unfold true_in. rewrite Hb. cbn.
  destruct b; cbn; (split; [by eauto|naive_solver]).
Qed.

Lemma eval_Not c t : is_Some (eval c t) → (eval c (Not t) = Some true ↔ eval c t ≠ Some true).
Proof. intros [b Hb]. cbn. rewrite Hb. destruct b; cbn; split; congruence. Qed.

Lemma eval_bool c t : is_Some (eval c t) → (eval c t = Some false ↔ eval c t ≠ Some true).
Proof. intros [b Hb]. rewrite Hb. destruct b; split; congruence. Qed.

(** The terms of a scope clause never err, and decide the match. *)
Lemma entry_term_eval c field v x :
  c !! field = Some (VStr x) → eval c (entry_term field v) = Some (like v x).
Proof.
  intros Hx. unfold entry_term. destruct (contains_char "*" v) eqn:Es; cbn; rewrite Hx; cbn; [done|].
  f_equal. rewrite like_literal by done. destruct (String.eqb_spec v x) as [->|Hne].
  - by apply bool_decide_eq_true.
  - apply bool_decide_eq_false. congruence.
Qed.

Lemma entries_eval c field vs x :
  c !! field = Some (VStr x) →
  Forall (λ t, is_Some (eval c t)) (map (entry_term field) vs) ∧
  (Exists (true_in c) (map (entry_term field) vs) ↔ some_matches vs x).
Proof.
  intros Hx. split.
  - apply Forall_forall. intros t (v & -> & _)%list_elem_of_fmap.
    rewrite (entry_term_eval _ _ _ _ Hx). by eauto.
  - rewrite Exists_exists. unfold some_matches, true_in. split.
    + intros (t & (v & -> & Hv)%list_elem_of_fmap & Ht). rewrite (entry_term_eval _ _ _ _ Hx) in Ht.
      naive_solver.
    + intros (v & Hv & Hl). exists (entry_term field v). split; [by apply list_elem_of_fmap; eauto|].
      by rewrite (entry_term_eval _ _ _ _ Hx), Hl.
Qed.

Lemma matchAny_eval c field vs x :
  c !! field = Some (VStr x) →
  match matchAny field vs with
  | Some t => vs ≠ [] ∧ is_Some (eval c t) ∧ (true_in c t ↔ some_matches vs x)
  | None => vs = [] ∨ (some_matches vs x ∧ vs = ["*"])
  end.
Proof.
  intros Hx. unfold matchAny. destruct (wildcard vs) eqn:Ew.
  { apply wildcard_spec in Ew as [->| ->]; [by left|]. right. split; [|done].
    exists "*". split; [by left|apply like_star_all]. }
  destruct (entries_eval c field vs x Hx) as [Hs He].
  destruct vs as [|v [|v' vs]]; [done| |].
  - cbn [map] in *. split; [done|]. apply Forall_cons in Hs as [Hs _]. split; [done|].
    rewrite <- He, Exists_cons, Exists_nil. tauto.
  - destruct (eval_AnyOf _ _ Hs) as [Hs' He']. split; [done|]. split; [exact Hs'|].
    rewrite <- He, <- He'. done.
Qed.

Lemma complementClause_eval c field vs x :
  c !! field = Some (VStr x) → vs ≠ [] →
  is_Some (eval c (complementClause field vs)) ∧
  (true_in c (complementClause field vs) ↔ ¬ some_matches vs x).
Proof.
  intros Hx Hne. unfold complementClause. pose proof (matchAny_eval c field vs x Hx) as Hm.
  destruct (wildcard vs) eqn:Ew.
  { apply wildcard_spec in Ew as [->| ->]; [done|]. split; [by eauto|]. unfold true_in. cbn.
    split; [done|]. intros Hn. destruct Hn. exists "*". split; [by left|apply like_star_all]. }
  destruct (matchAny field vs) as [t|] eqn:Em.
  2: { unfold matchAny in Em. rewrite Ew in Em. by destruct vs as [|? [|? ?]]. }
  destruct Hm as (_ & Hs & Hm). unfold true_in in *. rewrite <- Hm. split; [|by apply eval_Not].
  destruct Hs as [b Hb]. cbn. rewrite Hb. by eauto.
Qed.

(** What a scope clause decides. *)
Definition scope_ok (pos neg : list string) (x : string) : Prop :=
  if bool_decide (neg = []) then pos = [] ∨ some_matches pos x else ¬ some_matches neg x.

Lemma scopeClause_eval c field pos neg idx axis typed ot x :
  c !! field = Some (VStr x) → scopeClause field pos neg idx axis typed = Ok ot →
  let pos := if typed then withBucketObjects pos else pos in
  let neg := if typed then withBucketObjects neg else neg in
  Forall (λ t, is_Some (eval c t)) (option_list ot) ∧
  (Forall (true_in c) (option_list ot) ↔ scope_ok pos neg x) ∧
  (ot = None → scope_ok pos neg x).
Proof.
  intros Hx. unfold scopeClause. destruct (negb _ && negb _) eqn:Eb; [done|].
  destruct (if typed then _ else _) as [|r l] eqn:Ef; [|done]. clear Ef Eb.
  set (p := if typed then withBucketObjects pos else pos).
  set (n := if typed then withBucketObjects neg else neg). unfold scope_ok.
  destruct (bool_decide_reflect (n = [])) as [Hn|Hn]; cbn; intros [= <-].
  - pose proof (matchAny_eval c field p x Hx) as Hm. destruct (matchAny field p) as [t|]; cbn.
    + destruct Hm as (Hp & Hs & Hm). rewrite !Forall_cons, !Forall_nil. split; [done|]. split; [naive_solver|done].
    + rewrite !Forall_nil. naive_solver.
  - destruct (complementClause_eval c field n x Hx Hn) as [Hs Hm].
    cbn. rewrite !Forall_cons, !Forall_nil. split; [done|]. split; [naive_solver|done].
Qed.

(** The action and resource clauses of a statement, together. *)
Lemma scope_terms_eval c s a r idx act rsc :
  c !! "action" = Some (VStr a) → c !! "resource" = Some (VStr r) →
  scopeClause "action" (sActions s) (sNotActions s) idx "Action" false = Ok act →
  scopeClause "resource" (sResources s) (sNotResources s) idx "Resource" true = Ok rsc →
  Forall (λ t, is_Some (eval c t)) (option_list act ++ option_list rsc) ∧
  (Forall (true_in c) (option_list act ++ option_list rsc) ↔ action_ok s a ∧ resource_ok s r).
Proof.
  intros Ha Hr (Hsa & Hea & _)%(scopeClause_eval _ _ _ _ _ _ _ _ _ Ha)
    (Hsr & Her & _)%(scopeClause_eval _ _ _ _ _ _ _ _ _ Hr).
  rewrite !Forall_app, Hea, Her. split; [done|]. unfold scope_ok, action_ok, resource_ok.
  rewrite (bool_decide_ext _ _ (withBucketObjects_nil (sNotResources s))).
  destruct (bool_decide (sNotResources s = []));
    by rewrite !some_matches_bucket, ?withBucketObjects_nil.
Qed.

(** Key conditions *)

Lemma eval_Has c k : eval c (Has k) = Some (bool_decide (is_Some (c !! k))).
Proof. done. Qed.

Lemma cedarTerm_eval c kc idx t : cedarTerm kc idx = Ok t → (true_in c t ↔ key_holds c kc).
Proof.
  unfold cedarTerm, key_holds, true_in. destruct (cedarIdent (kcKey kc)); cbn [negb]; [|done].
  destruct (String.eqb_spec (kcOp kc) KeyNull) as [Hop|Hop].
  { destruct (String.eqb_spec (kcValue kc) "true") as [->|]; [|destruct (String.eqb_spec (kcValue kc) "false") as [->|]; [|done]];
      intros [= <-]; cbn; destruct (c !! kcKey kc) as [v|]; cbn; naive_solver. }
  intros (u & _ & Ht)%res_bind_Ok. clear u. revert Ht.
  set (test := Cmp (kcKey kc) (kcOp kc) (kcValue kc)).
  assert (Htest : ∀ v, c !! kcKey kc = Some v →
    eval c test = Some true ↔ ∃ l, lit_value (kcValue kc) = Some l ∧ cmp_values (kcOp kc) v l = Some true).
  { intros v Hv. cbn. rewrite Hv. cbn. destruct (lit_value (kcValue kc)); cbn; naive_solver. }
  destruct (kcIfExists kc || String.eqb (kcOp kc) "!=") eqn:Ei; intros [= <-];
    cbn [PolicyEngine.eval]; destruct (c !! kcKey kc) as [v|] eqn:Ev; cbn -[test].
  - rewrite <- (Htest v eq_refl). destruct (eval c test) as [[]|]; cbn; naive_solver.
  - apply orb_true_iff in Ei as [Ei|Ei]; [naive_solver|]. apply String.eqb_eq in Ei. naive_solver.
  - rewrite <- (Htest v eq_refl). destruct (eval c test) as [[]|]; cbn; naive_solver.
  - apply orb_false_iff in Ei as [Ei1 Ei2]. apply String.eqb_neq in Ei2. naive_solver congruence.
Qed.

Lemma key_terms_eval c kcs idx ts :
  mapM (λ kc, cedarTerm kc idx) kcs = Ok ts → (Forall (true_in c) ts ↔ Forall (key_holds c) kcs).
Proof.
  intros H%mapM_res_Ok. induction H as [|kc t kcs ts Ht _ IH]; [by rewrite !Forall_nil|].
  by rewrite !Forall_cons, IH, (cedarTerm_eval c _ _ _ Ht).
Qed.

(** Value conditions *)

(** [tks] are terms, with their keys, that decide [P]. *)
Definition decides c (tks : list (term * string)) (P : Prop) (K : list string) : Prop :=
  (Forall (λ tk, true_in c tk.1) tks ↔ P) ∧ tks.*2 = K.

Lemma decides_mapM {A} c (f : A → res engine_error (term * string)) (holds : A → Prop) (key : A → string) xs tks :
  (∀ x tk, f x = Ok tk → (true_in c tk.1 ↔ holds x) ∧ tk.2 = key x) →
  mapM f xs = Ok tks → decides c tks (Forall holds xs) (map key xs).
Proof.
  intros Hf H%mapM_res_Ok. unfold decides.
  induction H as [|x tk xs tks Hx _ [IH1 IH2]]; [by rewrite !Forall_nil|].
  apply Hf in Hx as [Hx1 Hx2]. rewrite !Forall_cons, IH1, Hx1. cbn. by rewrite Hx2, IH2.
Qed.

Lemma decides_app c l k P Q K L : decides c l P K → decides c k Q L → decides c (l ++ k) (P ∧ Q) (K ++ L).
Proof. intros [H1 <-] [H2 <-]. split; [by rewrite Forall_app, H1, H2|by rewrite fmap_app]. Qed.

Lemma negated_eval c b t : true_in c (negated b t) ↔ eval c t = Some (negb b).
Proof.
  unfold true_in. destruct b; cbn; [|done]. destruct (eval c t) as [[]|]; cbn; naive_solver.
Qed.

Lemma as_string_Some v s : as_string v = Some s ↔ v = VStr s.
Proof. destruct v; cbn; naive_solver. Qed.

Lemma ip_term_eval c idx ip tk :
  ip_term idx ip = Ok tk →
  (true_in c tk.1 ↔ ip_holds ParseIPAddr isInRange c ip) ∧ tk.2 = ipKey ip.
Proof.
  unfold ip_term, ip_holds. destruct (_ || _); [done|]. intros [= <-]. split; [|done]. cbn [fst].
  rewrite negated_eval. cbn. split.
  - intros (x & Hx & (s & ->%as_string_Some & (a & Ha & (g & Hg & [= He])%bind_Some)%bind_Some)%bind_Some)%bind_Some.
    by exists s, a, g.
  - intros (s & a & g & -> & Ha & Hg & He). cbn. rewrite Ha. cbn. rewrite Hg. cbn. by f_equal.
Qed.

Lemma like_term_eval c idx lk tk :
  like_term idx lk = Ok tk → (true_in c tk.1 ↔ like_holds c lk) ∧ tk.2 = lkKey lk.
Proof.
  unfold like_term, like_holds. destruct (_ || _); [done|]. intros [= <-]. split; [|done]. cbn [fst].
  rewrite negated_eval. cbn. split.
  - intros (x & Hx & (s & ->%as_string_Some & [= He])%bind_Some)%bind_Some. by exists s.
  - intros (s & -> & He). cbn. by f_equal.
Qed.

Lemma time_term_eval c idx tc tk :
  time_term idx tc = Ok tk → (true_in c tk.1 ↔ time_holds ParseDatetime c tc) ∧ tk.2 = tcKey tc.
Proof.
  unfold time_term, time_holds, true_in. destruct (_ || _); [done|]. destruct (negb _); [done|].
  intros [= <-]. split; [|done]. cbn. split.
  - intros (x & Hx & (s & ->%as_string_Some & (a & Ha & (b & Hb & He)%bind_Some)%bind_Some)%bind_Some)%bind_Some.
    by exists s, a, b.
  - intros (s & a & b & -> & Ha & Hb & He). cbn. rewrite Ha. cbn. by rewrite Hb.
Qed.

Lemma sortedKeys_elem m k : k ∈ sortedKeys m ↔ is_Some (m !! k).
Proof.
  unfold sortedKeys. rewrite (merge_sort_Permutation _). rewrite list_elem_of_fmap. split.
  - intros ((k' & v) & -> & Hin%elem_of_map_to_list). by exists v.
  - intros [v Hv]. exists (k, v). split; [done|]. by apply elem_of_map_to_list.
Qed.

Lemma condition_terms_eval c m :
  decides c (condition_terms m) (∀ k v, m !! k = Some v → c !! k = Some (cond_value v)) (sortedKeys m).
Proof.
  unfold decides, condition_terms. split.
  2: { rewrite <- list_fmap_compose. apply list_fmap_id. }
  assert (Hk : ∀ k v, m !! k = Some v →
    true_in c (if is_bool_lit v then Cmp k "==" v else FieldEq k v) ↔ c !! k = Some (cond_value v)).
  { intros k v _. unfold true_in, is_bool_lit, cond_value.
    destruct (String.eqb_spec v "true") as [->|Ht]; [|destruct (String.eqb_spec v "false") as [->|Hf]];
      cbn; destruct (c !! k) as [x|]; cbn; try (split; congruence);
      (split; [by intros [= ->%bool_decide_eq_true_1]|intros [= ->]; by rewrite bool_decide_eq_true_2]). }
  rewrite Forall_forall. split.
  - intros H k v Hv. apply (Hk k v Hv). apply (H (_, k)). apply list_elem_of_fmap.
    exists k. rewrite Hv. split; [done|]. apply sortedKeys_elem. by exists v.
  - intros H tk (k & -> & [v Hv]%sortedKeys_elem)%list_elem_of_fmap. rewrite Hv. cbn.
    apply (Hk k v Hv). by apply H.
Qed.

Definition read_keys (s : Statement) : list string :=
  sortedKeys (sCondition s) ++ map ipKey (sIPConditions s) ++ map lkKey (sLikeConditions s)
    ++ map tcKey (sTimeConditions s).

Lemma read_keys_spec s k : k ∈ read_keys s ↔ reads s k.
Proof. unfold read_keys, reads. by rewrite !elem_of_app, sortedKeys_elem. Qed.

Lemma value_terms_eval c s idx value :
  value_terms s idx = Ok value → decides c value (value_holds c s) (read_keys s).
Proof.
  unfold value_terms, PolicyEngine.value_holds, read_keys.
  intros (ips & Hip & (lks & Hlk & (tms & Htm & [= <-])%res_bind_Ok)%res_bind_Ok)%res_bind_Ok.
  apply decides_app; [apply condition_terms_eval|].
  apply decides_app; [exact (decides_mapM c _ _ _ _ _ (ip_term_eval c idx) Hip)|].
  apply decides_app; [exact (decides_mapM c _ _ _ _ _ (like_term_eval c idx) Hlk)|].
  exact (decides_mapM c _ _ _ _ _ (time_term_eval c idx) Htm).
Qed.

Lemma has_all_eval c ks :
  is_Some (eval c (All (map Has ks))) ∧
  (eval c (All (map Has ks)) = Some true ↔ ∀ k, k ∈ ks → is_Some (c !! k)).
Proof.
  split.
  - cbn. induction ks as [|k ks IH]; [by eauto|]. cbn. destruct (bool_decide _); [exact IH|by eauto].
  - rewrite eval_All, Forall_forall. unfold true_in. split.
    + intros H k Hk. specialize (H (Has k)). rewrite eval_Has in H.
      apply (bool_decide_eq_true_1 (is_Some (c !! k))). apply (inj Some). apply H.
      apply list_elem_of_fmap. by exists k.
    + intros H t (k & -> & Hk)%list_elem_of_fmap. rewrite eval_Has. f_equal.
      apply bool_decide_eq_true_2. by apply H.
Qed.

Lemma guard_eval c t u b :
  eval c t = Some b →
  eval c (Paren (AnyOf [Not t; Paren u])) = Some true ↔ b = false ∨ eval c u = Some true.
Proof. cbn. intros ->. destruct b; cbn; [|naive_solver]. destruct (eval c u) as [[]|]; cbn; naive_solver. Qed.

Lemma guarded_value_eval c forbid value P K :
  decides c value P K → (value = [] → P) →
  Forall (true_in c) (guarded_value forbid value) ↔
  P ∨ (forbid = true ∧ ∃ k, k ∈ K ∧ c !! k = None).
Proof.
  intros [HP <-] Hnil. unfold guarded_value. destruct value as [|tk value].
  { rewrite Forall_nil. naive_solver. }
  set (tks := tk :: value) in *. clear Hnil.
  assert (Hj : true_in c (All tks.*1) ↔ P).
  { unfold true_in. rewrite eval_All, <- HP. by rewrite Forall_fmap. }
  destruct forbid; rewrite Forall_singleton; [|naive_solver].
  unfold true_in at 1. destruct (has_all_eval c (dedupe tks.*2)) as [[b Hb] Hall].
  assert (Habs : eval c (All (map Has (dedupe tks.*2))) = Some false ↔ ∃ k, k ∈ tks.*2 ∧ c !! k = None).
  { rewrite Hb in *. split.
    - intros [= ->]. destruct (decide (Exists (λ k, c !! k = None) tks.*2)) as [He|He].
      { by apply Exists_exists in He. }
      exfalso. enough (Some false = Some true) by done. apply Hall. intros k Hk. rewrite dedupe_elem in Hk.
      apply not_eq_None_Some. intros Hn. apply He, Exists_exists. by exists k.
    - intros (k & Hk & Hn). destruct b; [|done]. exfalso.
      destruct (proj1 Hall eq_refl k) as [v Hv]; [by apply dedupe_elem|congruence]. }
  rewrite (guard_eval c _ _ b Hb). fold (true_in c (All tks.*1)). rewrite Hj, <- Habs, Hb.
  destruct b; naive_solver.
Qed.

(** A compiled statement is satisfied exactly when the statement applies. *)
Lemma toCedar_satisfied c s idx p a r :
  toCedar s idx = Ok p → c !! "action" = Some (VStr a) → c !! "resource" = Some (VStr r) →
  (satisfied c p = true ↔ applies c a r s) ∧ annotation p = None ∧
  (sEffect s = Allow ∧ is_forbid p = false ∨ sEffect s = Deny ∧ is_forbid p = true).
Proof.
  unfold toCedar. intros (forbid & Hf & (act & Hact & (rsc & Hrsc & (value & Hvalue &
    (keys & Hkeys & [= <-])%res_bind_Ok)%res_bind_Ok)%res_bind_Ok)%res_bind_Ok)%res_bind_Ok Ha Hr.
  assert (Heff : sEffect s = Allow ∧ forbid = false ∨ sEffect s = Deny ∧ forbid = true).
  { destruct (String.eqb_spec (sEffect s) Allow); [injection Hf; auto|].
    destruct (String.eqb_spec (sEffect s) Deny); [injection Hf; auto|done]. }
  split_and!; [|done|done]. cbn [PolicyEngine.satisfied]. rewrite bool_decide_eq_true, eval_All, !Forall_app.
  destruct (scope_terms_eval c s a r idx act rsc Ha Hr Hact Hrsc) as [_ Hs].
  rewrite Forall_app in Hs. rewrite (key_terms_eval c _ _ _ Hkeys).
  rewrite (guarded_value_eval c forbid value _ _ (value_terms_eval c s idx value Hvalue)).
  2: { intros ->. by apply (value_terms_eval c s idx [] Hvalue). }
  unfold PolicyEngine.applies. setoid_rewrite read_keys_spec.
  assert (Allow ≠ Deny) by done. destruct Heff as [[He ->]|[He ->]]; rewrite He; naive_solver.
Qed.

(** ** The boundary *)

Lemma boundary_permits_eval c a r i bs ops :
  c !! "action" = Some (VStr a) → c !! "resource" = Some (VStr r) →
  boundary_permits i bs = Ok ops →
  match ops with
  | Some ts => Forall (λ t, is_Some (eval c t)) ts ∧ (Exists (true_in c) ts ↔ boundary_covers bs a r)
  | None => boundary_covers bs a r
  end.
Proof.
  intros Ha Hr. revert i ops. induction bs as [|s bs IH]; intros i ops; cbn [boundary_permits].
  { intros [= <-]. split; [done|]. rewrite Exists_nil. unfold boundary_covers. set_solver. }
  unfold boundary_covers in *.
  destruct (String.eqb_spec (sEffect s) Allow) as [He|He]; cbn [negb].
  2: { intros H%IH. destruct ops as [ts|]; [|set_solver]. destruct H as [Hs Hx]. split; [done|].
       rewrite Hx. split; intros (s' & Hin & Hs'); exists s'; set_solver. }
  destruct (scopeClause "action" _ _ _ _ _) as [act|] eqn:Hact; [|by destruct (scopeClause _ _ _ _ _ _)].
  destruct (scopeClause "resource" _ _ _ _ _) as [rsc|] eqn:Hrsc; [|done].
  destruct (scope_terms_eval c s a r i act rsc Ha Hr Hact Hrsc) as [Hsome Hok].
  destruct (option_list act ++ option_list rsc) as [|t ts].
  { intros [= <-]. exists s. split; [by left|]. split; [done|]. by apply Hok. }
  intros (more & Hmore & [= <-])%res_bind_Ok. apply IH in Hmore.
  assert (Ht : is_Some (eval c (Paren (All (t :: ts)))) ∧
               (true_in c (Paren (All (t :: ts))) ↔ action_ok s a ∧ resource_ok s r)).
  { rewrite <- Hok. split; [by apply (eval_All_total c (t :: ts))|apply (eval_All c (t :: ts))]. }
  destruct Ht as [Hsome' Ht]. destruct more as [ps|].
  - destruct Hmore as [Hs Hx]. split; [by constructor|]. rewrite Exists_cons, Ht, Hx. split.
    + intros [?|(s' & ? & ?)]; [by exists s; split; [left|]|by exists s'; split; [right|]].
    + intros (s' & [->|Hin]%elem_of_cons & ?); [naive_solver|right; by exists s'].
  - destruct Hmore as (s' & ? & ?). by exists s'; split; [right|].
Qed.

(** The guard is a forbid that fires exactly outside the boundary. *)
Lemma compileBoundary_satisfied c a r bs og :
  c !! "action" = Some (VStr a) → c !! "resource" = Some (VStr r) →
  compileBoundary bs = Ok og →
  match og with
  | Some p => is_forbid p = true ∧ annotation p = Some "boundary" ∧
              (satisfied c p = true ↔ ¬ boundary_covers bs a r) ∧
              (satisfied c p = false → boundary_covers bs a r)
  | None => boundary_covers bs a r
  end.
Proof.
  intros Ha Hr. unfold compileBoundary. intros (ops & H & [= <-])%res_bind_Ok.
  apply (boundary_permits_eval c a r) in H; [|done..]. destruct ops as [ts|]; [|done].
  destruct H as [Hs Hx]. cbn [PolicyEngine.satisfied].
  destruct (eval_AnyOf c ts Hs) as [Hs' Hx'].
  rewrite bool_decide_eq_true, bool_decide_eq_false, eval_bool, <- Hx, <- Hx' by done.
  split_and!; [done..|]. intros Hn. by destruct (decide (eval c (AnyOf ts) = Some true)).
Qed.
End Compile.

(** ** The engine's policies and keys *)

Lemma compile_statements_Ok idx ss c c' :
  compile_statements idx ss c = Ok c' →
  ∃ ps, cPolicies c' = cPolicies c ++ ps ∧ Forall2 (λ s p, ∃ i, toCedar s i = Ok p) ss ps ∧
    (∀ k, k ∈ cIPKeys c' ↔ k ∈ cIPKeys c ∨ ∃ s, s ∈ ss ∧ k ∈ map ipKey (sIPConditions s)) ∧
    (∀ k, k ∈ cTimeKeys c' ↔ k ∈ cTimeKeys c ∨ ∃ s, s ∈ ss ∧ k ∈ map tcKey (sTimeConditions s)).
Proof.
  revert idx c. induction ss as [|s ss IH]; intros idx c; cbn [compile_statements].
  { intros [= <-]. exists []. rewrite app_nil_r. split_and!; [done|constructor|set_solver..]. }
  intros (p & Hp & (kinds & _ & H)%res_bind_Ok)%res_bind_Ok.
  apply IH in H as (ps & Hps & Hall & Hip & Htm). cbn in *. exists (p :: ps). split_and!.
  - by rewrite Hps, <- app_assoc.
  - constructor; [by eauto|done].
  - intros k. rewrite Hip, elem_of_union, elem_of_list_to_set. setoid_rewrite elem_of_cons. naive_solver.
  - intros k. rewrite Htm, elem_of_union, elem_of_list_to_set. setoid_rewrite elem_of_cons. naive_solver.
Qed.

Lemma compile_Ok ss extra c :
  compile ss extra = Ok c →
  ∃ ps, cPolicies c = ps ++ option_list extra ∧ Forall2 (λ s p, ∃ i, toCedar s i = Ok p) ss ps ∧
    (∀ k, k ∈ cIPKeys c ↔ ∃ s, s ∈ ss ∧ k ∈ map ipKey (sIPConditions s)) ∧
    (∀ k, k ∈ cTimeKeys c ↔ ∃ s, s ∈ ss ∧ k ∈ map tcKey (sTimeConditions s)).
Proof.
  unfold compile. intros (c0 & (ps & Hps & Hall & Hip & Htm)%compile_statements_Ok & [= <-])%res_bind_Ok.
  cbn in *. exists ps. rewrite Hps. split_and!; [done|done|set_solver..].
Qed.

Lemma add_kinds_Ok idx kcs kinds kinds' :
  add_kinds idx kcs kinds = Ok kinds' →
  kinds ⊆ kinds' ∧ ∀ kc, kc ∈ kcs → kind kc ≠ "" → kinds' !! kcKey kc = Some (kind kc).
Proof.
  revert kinds. induction kcs as [|kc kcs IH]; intros kinds; cbn [add_kinds].
  { intros [= <-]. split; [done|set_solver]. }
  destruct (String.eqb_spec (kind kc) "") as [He|Hne].
  { intros [Hsub Hk]%IH. split; [done|]. intros kc' [->|Hin]%elem_of_cons; [done|by apply Hk]. }
  assert (Hins : kinds !! kcKey kc = None ∨ kinds !! kcKey kc = Some (kind kc) →
    add_kinds idx kcs (<[kcKey kc := kind kc]> kinds) = Ok kinds' →
    kinds ⊆ kinds' ∧ ∀ kc', kc' ∈ kc :: kcs → kind kc' ≠ "" → kinds' !! kcKey kc' = Some (kind kc')).
  { intros Hl [Hsub Hk]%IH. split.
    - etrans; [|exact Hsub]. destruct Hl as [Hl|Hl]; [by apply insert_subseteq|by rewrite insert_id].
    - intros kc' [->|Hin]%elem_of_cons; [|by apply Hk]. intros _.
      eapply lookup_weaken; [|exact Hsub]. by rewrite lookup_insert_eq. }
  destruct (kinds !! kcKey kc) as [prev|] eqn:Ep; [|by apply Hins; left].
  destruct (String.eqb_spec prev (kind kc)) as [->|]; [|done]. by apply Hins; right.
Qed.

Lemma compile_kinds ss extra cc s kc :
  compile ss extra = Ok cc → s ∈ ss → kc ∈ sKeyConditions s → kind kc ≠ "" →
  cKeyKinds cc !! kcKey kc = Some (kind kc).
Proof.
  unfold compile. intros (c0 & H & [= <-])%res_bind_Ok Hs Hkc Hne. cbn.
  enough (G : ∀ idx ss c c', compile_statements idx ss c = Ok c' → cKeyKinds c ⊆ cKeyKinds c' ∧
    ∀ s kc, s ∈ ss → kc ∈ sKeyConditions s → kind kc ≠ "" → cKeyKinds c' !! kcKey kc = Some (kind kc)).
  { apply G in H as [_ H]. by apply (H s). }
  clear. intros idx ss. revert idx. induction ss as [|s ss IH]; intros idx c c'; cbn [compile_statements].
  { intros [= <-]. split; [done|set_solver]. }
  intros (p & _ & (kinds & [Hsub Hk]%add_kinds_Ok & [Hsub' Hk']%IH)%res_bind_Ok)%res_bind_Ok. cbn in Hsub'.
  split; [by etrans|]. intros s' kc [->|Hin]%elem_of_cons Hkc Hne; [|by apply (Hk' s')].
  eapply lookup_weaken; [by apply Hk|done].
Qed.

(** ** What Authorize decides *)

Section Authorize.
Context {IP : Type} (ParseIPAddr : string → option IP) (isInRange : IP → IP → bool).
Context (ParseDatetime : string → option Z).
Context {PolicySet : Type} (NewPolicySetFromBytes : string → option PolicySet).
Context (IsAuthorized : PolicySet → cedar_request → bool * list nat).
Context (Annotation : PolicySet → nat → option string).
Context (IsPrint : Z → bool).
#[local] Abbreviation satisfied := (satisfied ParseIPAddr isInRange ParseDatetime).
#[local] Abbreviation applies := (applies ParseIPAddr isInRange ParseDatetime).
#[local] Abbreviation Authorize := (Authorize ParseIPAddr ParseDatetime IsAuthorized Annotation).
#[local] Abbreviation cedar_context :=
  (cedar_context (PolicySet := PolicySet) ParseIPAddr ParseDatetime).
#[local] Abbreviation cedar_reads :=
  (cedar_reads ParseIPAddr isInRange ParseDatetime IsAuthorized Annotation).

(** An engine with or without a permission boundary. *)
Definition engine_for (ss : list Statement) (limit : option (list Statement))
    : res engine_error (Engine (PolicySet := PolicySet)) :=
  match limit with
  | None => NewEngine NewPolicySetFromBytes IsPrint ss
  | Some bs => NewEngineWithBoundary NewPolicySetFromBytes IsPrint ss bs
  end.
Definition within (limit : option (list Statement)) (a r : string) : Prop :=
  match limit with None => True | Some bs => boundary_covers bs a r end.

Definition resource_of (rq : Request) : string := eType (rqResource rq) +:+ "::" +:+ eID (rqResource rq).

(** A statement of the effect applies to the request. *)
Definition decided_by (effect : string) (ss : list Statement) (e : Engine (PolicySet := PolicySet)) (rq : Request) : Prop :=
  ∃ s, s ∈ ss ∧ sEffect s = effect ∧
       applies (cedar_context e rq (to_record (rqContext rq))) (rqAction rq) (resource_of rq) s.

Lemma cedar_context_reserved e rq ctx :
  cedar_context e rq ctx !! "action" = Some (VStr (rqAction rq)) ∧
  cedar_context e rq ctx !! "resource" = Some (VStr (resource_of rq)).
Proof.
  unfold PolicyEngine.cedar_context. split; [|by rewrite lookup_insert_eq].
  rewrite lookup_insert_ne by done. by rewrite lookup_insert_eq.
Qed.

Lemma exists_determining forbid ps c :
  (∃ i, determining ParseIPAddr isInRange ParseDatetime forbid ps c i) ↔
  ∃ p, p ∈ ps ∧ is_forbid p = forbid ∧ satisfied c p = true.
Proof.
  unfold determining. split.
  - intros (i & p & Hp & ?). exists p. split; [|done]. by eapply list_elem_of_lookup_2.
  - intros (p & (i & Hi)%list_elem_of_lookup_1 & ?). by exists i, p.
Qed.

(** The engine's policies: one per statement, then the guard. *)
Lemma engine_policies ss limit e c a r :
  engine_for ss limit = Ok e → c !! "action" = Some (VStr a) → c !! "resource" = Some (VStr r) →
  ∃ ps gs, cPolicies (eCompiled e) = ps ++ gs ∧
    Forall2 (λ s p, ∃ i, toCedar s i = Ok p) ss ps ∧
    (∀ p, p ∈ gs → is_forbid p = true ∧ annotation p = Some "boundary") ∧
    ((∀ p, p ∈ gs → satisfied c p = false) ↔ within limit a r).
Proof.
  intros He Ha Hr.
  assert (∃ og cc, compile ss og = Ok cc ∧ eCompiled e = cc ∧
            match og with
            | Some p => is_forbid p = true ∧ annotation p = Some "boundary" ∧
                        (satisfied c p = true ↔ ¬ within limit a r) ∧
                        (satisfied c p = false → within limit a r)
            | None => within limit a r
            end) as (og & cc & (ps & Hps & Hall & _)%compile_Ok & -> & Hog).
  { destruct limit as [bs|]; cbn in He.
    - apply res_bind_Ok in He as (og & Hg & (cc & Hcc & He)%res_bind_Ok).
      exists og, cc. destruct (NewPolicySetFromBytes _); [|done]. injection He as <-.
      split_and!; [done|done|]. by apply (compileBoundary_satisfied ParseIPAddr isInRange ParseDatetime c a r) in Hg.
    - apply res_bind_Ok in He as (cc & Hcc & He). exists None, cc.
      destruct (NewPolicySetFromBytes _); [|done]. by injection He as <-. }
  exists ps, (option_list og). split_and!; [done|done| |].
  - intros p. destruct og; cbn; set_solver.
  - destruct og as [p|]; cbn.
    + destruct Hog as (_ & _ & H1 & H2). split; [intros H; apply H2, H; by left|].
      intros Hw p' ->%list_elem_of_singleton. destruct (satisfied c p); [by destruct (proj1 H1)|done].
    + split; [done|]. intros _ p'. set_solver.
Qed.

(** The permits and the forbids that are satisfied, in terms of the statements. *)
Lemma statements_decide ss ps c a r effect :
  Forall2 (λ s p, ∃ i, toCedar s i = Ok p) ss ps →
  c !! "action" = Some (VStr a) → c !! "resource" = Some (VStr r) →
  effect = Allow ∨ effect = Deny →
  (∃ p, p ∈ ps ∧ is_forbid p = String.eqb effect Deny ∧ satisfied c p = true) ↔
  ∃ s, s ∈ ss ∧ sEffect s = effect ∧ applies c a r s.
Proof.
  intros H Ha Hr Heff. induction H as [|s p ss ps [i Hi] _ IH]; [set_solver|].
  setoid_rewrite elem_of_cons.
  destruct (toCedar_satisfied ParseIPAddr isInRange ParseDatetime c s i p a r Hi Ha Hr) as (Hs & _ & Hf).
  assert (Hhere : is_forbid p = String.eqb effect Deny ↔ sEffect s = effect).
  { destruct Heff as [-> | ->], Hf as [[-> ->] | [-> ->]]; done. }
  split.
  - intros (p' & [->|Hin] & Hp1 & Hp2); [exists s; naive_solver|].
    destruct (proj1 IH) as (s' & ? & ? & ?); [by exists p'|exists s'; naive_solver].
  - intros (s' & [->|Hin] & Hs1 & Hs2); [exists p; naive_solver|].
    destruct (proj2 IH) as (p' & ? & ? & ?); [by exists s'|exists p'; naive_solver].
Qed.

Lemma Authorize_spec ss limit e rq :
  engine_for ss limit = Ok e → cedar_reads (ePS e) (cPolicies (eCompiled e)) →
  let ctx := to_record (rqContext rq) in
  malformed (cKeyKinds (eCompiled e)) ctx = [] →
  (dAllowed (Authorize e rq) = true ↔
     decided_by Allow ss e rq ∧ ¬ decided_by Deny ss e rq ∧ within limit (rqAction rq) (resource_of rq)) ∧
  (dExplicitDeny (Authorize e rq) = true ↔ decided_by Deny ss e rq).
Proof.
  intros He Hread ctx Hm. unfold decided_by. fold ctx. set (c := cedar_context e rq ctx).
  destruct (cedar_context_reserved e rq ctx) as [Ha Hr]. fold c in Ha, Hr.
  destruct (engine_policies ss limit e c _ _ He Ha Hr) as (ps & gs & Hps & Hall & Hgs & Hg).
  pose proof (statements_decide ss ps c _ _ Allow Hall Ha Hr (or_introl eq_refl)) as Hallow.
  pose proof (statements_decide ss ps c _ _ Deny Hall Ha Hr (or_intror eq_refl)) as Hdeny.
  cbn in Hallow, Hdeny. rewrite <- Hallow, <- Hdeny. clear Hallow Hdeny.
  unfold PolicyEngine.Authorize. fold ctx. rewrite Hm. fold c.
  set (req := mkCedarRequest _ _ _ _). destruct (IsAuthorized (ePS e) req) as [allow reasons] eqn:Ei.
  pose proof (cr_decision _ _ _ _ _ _ _ Hread _ _ _ Ei) as Hd. rewrite !exists_determining, Hps in Hd.
  change (crContext req) with c in Hd. setoid_rewrite elem_of_app in Hd.
  assert (Hnp : ∀ p, p ∈ gs → is_forbid p = false → False).
  { intros p Hp. destruct (Hgs p Hp) as [-> _]. done. }
  assert (Hf : ∀ p, p ∈ ps → annotation p = None).
  { intros p Hp. destruct (list_elem_of_lookup_1 _ _ Hp) as [i Hi].
    destruct (Forall2_lookup_r _ _ _ _ _ Hall Hi) as (s & _ & j & Hj).
    by apply (toCedar_satisfied ParseIPAddr isInRange ParseDatetime c s j p _ _ Hj Ha Hr). }
  rewrite <- Hg. destruct allow; cbn.
  - destruct (proj1 Hd eq_refl) as [(p & Hp & Hpf & Hps') Hno]. split.
    + split; [intros _|done]. split_and!.
      * exists p. destruct Hp; [done|by exfalso; eapply Hnp].
      * intros (p' & ? & ? & ?). apply Hno. exists p'. auto.
      * intros p' Hp'. apply not_true_is_false. intros Hsat. apply Hno. exists p'.
        split_and!; [by right|by apply Hgs|done].
    + split; [done|]. intros (p' & ? & ? & ?). destruct Hno. exists p'. auto.
  - set (final := match reasons with [] => _ | _ => _ end).
    assert (Hfin : dAllowed final = false ∧ dExplicitDeny final = existsb
      (λ id, negb (bool_decide (Annotation (ePS e) id = Some "boundary"))) reasons).
    { unfold final. destruct reasons as [|id reasons]; [done|]. by destruct (existsb _ _). }
    destruct Hfin as [-> ->]. split.
    + split; [done|]. intros ((p & ? & ? & ?) & Hno & Hw). apply Hd. split; [exists p; auto|].
      intros (p' & [Hin|Hin] & Hpf & Hsat); [by apply Hno; exists p'|]. by rewrite (Hw p' Hin) in Hsat.
    + pose proof (cr_reasons _ _ _ _ _ _ _ Hread _ _ Ei) as Hreas. rewrite existsb_exists. split.
      * intros (id & (p & Hp & Hpf & Hsat)%list_elem_of_In%Hreas & Hann%negb_true_iff).
        apply bool_decide_eq_false in Hann. rewrite (cr_annotation _ _ _ _ _ _ _ Hread _ _ Hp) in Hann.
        exists p. split; [|done]. rewrite Hps in Hp. apply list_elem_of_lookup_2 in Hp.
        apply elem_of_app in Hp as [Hp|Hp]; [done|]. by destruct Hann, (Hgs p Hp).
      * intros (p & Hin & Hpf & Hsat). destruct (list_elem_of_lookup_1 _ _ Hin) as [i Hi].
        assert (Hi' : cPolicies (eCompiled e) !! i = Some p).
        { rewrite Hps. by apply lookup_app_l_Some. }
        exists i. split; [apply list_elem_of_In, Hreas; by exists p|].
        apply negb_true_iff, bool_decide_eq_false.
        by rewrite (cr_annotation _ _ _ _ _ _ _ Hread _ _ Hi'), Hf.
Qed.

(** C2: Authorize decides exactly what the statements say: a well-typed request is allowed when some
    Allow statement applies, no Deny statement does, and the permission boundary (if there is one)
    covers the action and the resource; and the denial is reported as explicit exactly when a Deny
    statement applies, whatever the boundary. *)
Theorem Authorize_correct (ss : list Statement) (limit : option (list Statement)) e (rq : Request)
    (He : engine_for ss limit = Ok e)
    (Hcedar : cedar_reads (ePS e) (cPolicies (eCompiled e)))
    (Htyped : malformed (cKeyKinds (eCompiled e)) (to_record (rqContext rq)) = []) :
  (dAllowed (Authorize e rq) = true ↔
     decided_by Allow ss e rq ∧ ¬ decided_by Deny ss e rq ∧ within limit (rqAction rq) (resource_of rq)) ∧
  (dExplicitDeny (Authorize e rq) = true ↔ decided_by Deny ss e rq).
Proof. by apply Authorize_spec. Qed.

(** a permission boundary intersects: the engine of the same statements with a boundary allows a
    request exactly when the engine without one does and some Allow of the boundary covers the action
    and the resource; conditions play no part in the ceiling. *)
Theorem boundary_intersects (ss bs : list Statement) e1 e2 (rq : Request)
    (H1 : NewEngine NewPolicySetFromBytes IsPrint ss = Ok e1)
    (H2 : NewEngineWithBoundary NewPolicySetFromBytes IsPrint ss bs = Ok e2)
    (Hc1 : cedar_reads (ePS e1) (cPolicies (eCompiled e1)))
    (Hc2 : cedar_reads (ePS e2) (cPolicies (eCompiled e2))) :
  dAllowed (Authorize e2 rq) = true ↔
  dAllowed (Authorize e1 rq) = true ∧ boundary_covers bs (rqAction rq) (resource_of rq).
Proof.
  pose proof (H1 : engine_for ss None = Ok e1) as E1.
  pose proof (H2 : engine_for ss (Some bs) = Ok e2) as E2.
  assert (Heq : cIPKeys (eCompiled e1) = cIPKeys (eCompiled e2) ∧
                cTimeKeys (eCompiled e1) = cTimeKeys (eCompiled e2) ∧
                cKeyKinds (eCompiled e1) = cKeyKinds (eCompiled e2)).
  { apply res_bind_Ok in H1 as (c1 & Hs1 & H1). apply res_bind_Ok in H2 as (g & _ & H2).
    apply res_bind_Ok in H2 as (c2 & Hs2 & H2). unfold compile in Hs1, Hs2.
    do 2 (destruct (NewPolicySetFromBytes _); [|done]). injection H1 as <-. injection H2 as <-.
    apply res_bind_Ok in Hs1 as (c & Hc & [= <-]). apply res_bind_Ok in Hs2 as (c' & Hc' & [= <-]).
    rewrite Hc in Hc'. by injection Hc' as ->. }
  destruct Heq as (Hip & Htm & Hk).
  assert (Hctx : ∀ ctx, cedar_context e1 rq ctx = cedar_context e2 rq ctx).
  { intros ctx. unfold PolicyEngine.cedar_context. by rewrite Hip, Htm. }
  destruct (malformed (cKeyKinds (eCompiled e1)) (to_record (rqContext rq))) as [|k l] eqn:Em.
  - rewrite (proj1 (Authorize_spec ss None e1 rq E1 Hc1 Em)).
    rewrite Hk in Em. rewrite (proj1 (Authorize_spec ss (Some bs) e2 rq E2 Hc2 Em)).
    unfold decided_by. rewrite Hctx. cbn. tauto.
  - unfold PolicyEngine.Authorize. rewrite <- Hk, Em. cbn. naive_solver.
Qed.

(** An attribute the conditions cannot use: absent, or one an IP or time condition compares and that
    does not parse. *)
Definition unusable (ss : list Statement) (rq : Request) (k : string) : Prop :=
  match to_record (rqContext rq) !! k with
  | None => True
  | Some v =>
      ((∃ s, s ∈ ss ∧ k ∈ map ipKey (sIPConditions s)) ∧ keeps ParseIPAddr v = false) ∨
      ((∃ s, s ∈ ss ∧ k ∈ map tcKey (sTimeConditions s)) ∧ keeps ParseDatetime v = false)
  end.

Lemma engine_compiled ss limit e :
  engine_for ss limit = Ok e → ∃ extra, compile ss extra = Ok (eCompiled e).
Proof.
  intros He. destruct limit as [bs|]; cbn in He; [apply res_bind_Ok in He as (g & _ & He)|];
    apply res_bind_Ok in He as (cc & Hcc & He); destruct (NewPolicySetFromBytes _); try done;
    injection He as <-; eauto.
Qed.

Lemma unusable_absent ss limit e rq k :
  engine_for ss limit = Ok e → k ≠ "action" → k ≠ "resource" → unusable ss rq k →
  cedar_context e rq (to_record (rqContext rq)) !! k = None.
Proof.
  intros He Ha Hr Hu.
  destruct (engine_compiled _ _ _ He) as (extra & (_ & _ & _ & Hip & Htm)%compile_Ok). unfold PolicyEngine.cedar_context. rewrite !lookup_insert_ne by congruence.
  apply map_lookup_filter_None. unfold unusable in Hu.
  destruct (to_record (rqContext rq) !! k) as [v|] eqn:Ev.
  - destruct Hu as [[Hs Hk]|[Hs Hk]].
    + left. apply map_lookup_filter_None. right. intros v' Hv' Hkeep. cbn in Hkeep.
      rewrite Ev in Hv'. injection Hv' as <-. apply Hip in Hs. by rewrite Hkeep in Hk.
    + destruct (sanitise ParseIPAddr (cIPKeys (eCompiled e)) (to_record (rqContext rq)) !! k) as [v'|] eqn:Es;
        [|by left]. right. intros v'' [= <-] Hkeep. cbn in Hkeep.
      apply map_lookup_filter_Some in Es as [Es _]. rewrite Ev in Es. injection Es as <-.
      apply Htm in Hs. by rewrite Hkeep in Hk.
  - left. apply map_lookup_filter_None. by left.
Qed.

(** a Deny fails closed: when its action and resource match and its key conditions hold, it denies
    the request, explicitly, as soon as one attribute its conditions read is absent or, for an IP or
    time condition, does not parse; so an attribute the front door failed to populate can never make a
    Deny evaporate. *)
Theorem deny_fails_closed (ss : list Statement) (limit : option (list Statement)) e (rq : Request)
    (s : Statement) (k : string)
    (He : engine_for ss limit = Ok e)
    (Hcedar : cedar_reads (ePS e) (cPolicies (eCompiled e)))
    (Htyped : malformed (cKeyKinds (eCompiled e)) (to_record (rqContext rq)) = [])
    (Hs : s ∈ ss) (Hd : sEffect s = Deny)
    (Hscope : action_ok s (rqAction rq) ∧ resource_ok s (resource_of rq))
    (Hkeys : Forall (key_holds (cedar_context e rq (to_record (rqContext rq)))) (sKeyConditions s))
    (Hk : reads s k) (Hres : k ≠ "action" ∧ k ≠ "resource") (Hu : unusable ss rq k) :
  dAllowed (Authorize e rq) = false ∧ dExplicitDeny (Authorize e rq) = true.
Proof.
  destruct (Authorize_spec ss limit e rq He Hcedar Htyped) as [Hall Hexp].
  assert (Hdec : decided_by Deny ss e rq).
  { exists s. split_and!; [done|done|]. destruct Hscope. split_and!; [done|done| |done].
    right. split; [done|]. exists k. split; [done|]. destruct Hres.
    by apply (unusable_absent ss limit). }
  split; [|by apply Hexp]. apply not_true_is_false. rewrite Hall. naive_solver.
Qed.

(** type confusion is denied: when a statement compares an attribute as a boolean or as a number and
    the request carries it as a value of another type, the request is denied outright, whatever the
    policies say, so that the comparison cannot err and skip a Deny. *)
Theorem type_confusion_denied (ss : list Statement) (limit : option (list Statement)) e (rq : Request)
    (s : Statement) (kc : KeyCondition) (v : value)
    (He : engine_for ss limit = Ok e) (Hs : s ∈ ss) (Hkc : kc ∈ sKeyConditions s)
    (Hv : to_record (rqContext rq) !! kcKey kc = Some v)
    (Hbad : kind_ok (kind kc) v = false) :
  dAllowed (Authorize e rq) = false ∧ dExplicitDeny (Authorize e rq) = false.
Proof.
  destruct (engine_compiled _ _ _ He) as [extra Hc].
  assert (Hne : kind kc ≠ "") by (intros Hk; rewrite Hk in Hbad; by destruct v).
  pose proof (compile_kinds _ _ _ _ _ Hc Hs Hkc Hne) as Hk.
  assert (Hin : kcKey kc ∈ malformed (cKeyKinds (eCompiled e)) (to_record (rqContext rq))).
  { unfold malformed. apply list_elem_of_fmap. exists (kcKey kc, kind kc). split; [done|].
    apply list_elem_of_filter. split; [|by apply elem_of_map_to_list].
    unfold malformed_key. cbn. by rewrite Hv, Hbad. }
  unfold PolicyEngine.Authorize.
  by destruct (malformed _ _) as [|k l]; [apply not_elem_of_nil in Hin|].
Qed.
End Authorize.

(** ** Key conditions and acceptance *)

(** the condition of a key that AWS leaves out of some requests evaluates, on a context of the right
    type, to exactly what its operator says, an absent key included (Bool and Numeric conditions need
    it, their IfExists forms and negated operators match without it, Null tests it), and it never errs,
    so that it can never skip the statement it is part of. *)
Theorem key_condition_semantics {IP : Type} (ParseIPAddr : string → option IP)
    (isInRange : IP → IP → bool) (ParseDatetime : string → option Z)
    (kc : KeyCondition) (idx : nat) (t : term) (c : record)
    (Ht : cedarTerm kc idx = Ok t)
    (Htyped : ∀ v, c !! kcKey kc = Some v → kind_ok (kind kc) v = true) :
  (eval ParseIPAddr isInRange ParseDatetime c t = Some true ↔ key_holds c kc) ∧
  is_Some (eval ParseIPAddr isInRange ParseDatetime c t).
Proof.
  split; [by apply (cedarTerm_eval _ _ _ c kc idx t)|]. revert Ht. unfold cedarTerm.
  destruct (cedarIdent _); cbn [negb]; [|done]. unfold kind in *.
  destruct (String.eqb (kcOp kc) KeyNull) eqn:Hop.
  { repeat case_match; try done; intros [= <-]; by eauto. }
  intros (u & Hcheck & Ht)%res_bind_Ok.
  assert (Hcmp : ∀ v, c !! kcKey kc = Some v →
    is_Some (eval ParseIPAddr isInRange ParseDatetime c (Cmp (kcKey kc) (kcOp kc) (kcValue kc)))).
  { intros v Hv. specialize (Htyped v Hv). cbn. rewrite Hv. cbn. unfold lit_value, cmp_values, order_op.
    destruct (String.eqb (kcValue kc) "true"); [|destruct (String.eqb (kcValue kc) "false")]; cbn in *.
    1-2: destruct (String.eqb (kcOp kc) "=="); [by eauto|]; destruct (String.eqb (kcOp kc) "!=");
         [by eauto|done].
    destruct (ParseInt (kcValue kc)) as [n|]; [|done]. destruct v as [|b|m]; [done..|]. cbn.
    repeat (destruct (String.eqb (kcOp kc) _); [by eauto|]). done. }
  revert Ht. set (test := Cmp (kcKey kc) (kcOp kc) (kcValue kc)) in *. clearbody test.
  destruct (kcIfExists kc || _); intros [= <-]; cbn;
    destruct (c !! kcKey kc) as [v|] eqn:Hv; cbn; try by eauto.
  all: destruct (Hcmp v eq_refl) as [b ->]; destruct b; cbn; by eauto.
Qed.

(** The statements a Policy may contain. *)
Definition key_wf (kc : KeyCondition) : Prop :=
  cedarIdent (kcKey kc) = true ∧
  if String.eqb (kcOp kc) KeyNull then is_bool_lit (kcValue kc) = true
  else if is_bool_lit (kcValue kc) then kcOp kc = "==" ∨ kcOp kc = "!="
  else is_Some (ParseInt (kcValue kc)) ∧ num_op (kcOp kc) = true.

Definition statement_wf (s : Statement) : Prop :=
  (sEffect s = Allow ∨ sEffect s = Deny) ∧
  (sActions s = [] ∨ sNotActions s = []) ∧
  ((sResources s = [] ∨ sNotResources s = []) ∧
   Forall (λ r, valid_entry r = true) (sResources s ++ sNotResources s)) ∧
  (Forall (λ ip, ipKey ip ≠ "" ∧ ipCIDR ip ≠ "") (sIPConditions s) ∧
   Forall (λ lk, lkKey lk ≠ "" ∧ lkPattern lk ≠ "") (sLikeConditions s) ∧
   Forall (λ tc, tcKey tc ≠ "" ∧ tcTarget tc ≠ "" ∧ time_op (tcOp tc) = true) (sTimeConditions s)) ∧
  Forall key_wf (sKeyConditions s).

Lemma scopeClause_ex field pos neg idx axis typed :
  (∃ ot, scopeClause field pos neg idx axis typed = Ok ot) ↔
  (pos = [] ∨ neg = []) ∧ (typed = true → Forall (λ r, valid_entry r = true) (pos ++ neg)).
Proof.
  unfold scopeClause. destruct (negb _ && negb _) eqn:Eb.
  { apply andb_true_iff in Eb as [H1%negb_true_iff%bool_decide_eq_false H2%negb_true_iff%bool_decide_eq_false].
    split; [by intros [? [=]]|naive_solver]. }
  assert (Hone : pos = [] ∨ neg = []).
  { apply andb_false_iff in Eb as [H%negb_false_iff%bool_decide_eq_true|H%negb_false_iff%bool_decide_eq_true];
      auto. }
  destruct (if typed then _ else _) as [|r l] eqn:Ef.
  - split; [intros _|intros _; cbv zeta; destruct (bool_decide ((if typed then withBucketObjects neg else neg) = [])); by eexists]. split; [done|]. intros ->.
    apply Forall_forall. intros x Hx. apply not_false_is_true. intros Hv.
    apply (not_elem_of_nil x). rewrite <- Ef. by apply list_elem_of_filter.
  - split; [by intros [? [=]]|]. intros [_ Hall]. destruct typed; [|done].
    assert (Hr : r ∈ r :: l) by left. rewrite <- Ef in Hr. apply list_elem_of_filter in Hr as [Hr1 Hr2].
    specialize (Hall eq_refl). rewrite Forall_forall in Hall. specialize (Hall r Hr2). congruence.
Qed.

Lemma cedarTerm_ex kc idx : (∃ t, cedarTerm kc idx = Ok t) ↔ key_wf kc.
Proof.
  unfold cedarTerm, key_wf, kind, is_bool_lit. destruct (cedarIdent (kcKey kc)); cbn [negb].
  2: { split; [by intros [? [=]]|naive_solver]. }
  destruct (String.eqb (kcOp kc) KeyNull) eqn:Hop.
  { destruct (String.eqb (kcValue kc) "true"), (String.eqb (kcValue kc) "false"); cbn; naive_solver. }
  rewrite (res_bind_ex _ _ True) by (intros; destruct (kcIfExists kc || _); naive_solver).
  destruct (String.eqb (kcValue kc) "true" || String.eqb (kcValue kc) "false");
    cbn [String.eqb Ascii.eqb Bool.eqb].
  - destruct (String.eqb_spec (kcOp kc) "=="), (String.eqb_spec (kcOp kc) "!="); cbn; naive_solver.
  - destruct (ParseInt (kcValue kc)) as [n|]; [|split; [naive_solver|naive_solver]].
    destruct (num_op (kcOp kc)); naive_solver.
Qed.

(** a statement compiles exactly when it is well formed: a known effect, at most one of Action and
    NotAction and of Resource and NotResource, typed resources, complete conditions and known operators;
    every other statement is an error and no engine is built from it. *)
Theorem toCedar_accepts (s : Statement) (idx : nat) :
  (∃ p, toCedar s idx = Ok p) ↔ statement_wf s.
Proof.
  unfold toCedar, statement_wf, value_terms.
  rewrite (res_bind_ex _ _ ((sActions s = [] ∨ sNotActions s = []) ∧
    ((sResources s = [] ∨ sNotResources s = []) ∧
     Forall (λ r, valid_entry r = true) (sResources s ++ sNotResources s)) ∧
    (Forall (λ ip, ipKey ip ≠ "" ∧ ipCIDR ip ≠ "") (sIPConditions s) ∧
     Forall (λ lk, lkKey lk ≠ "" ∧ lkPattern lk ≠ "") (sLikeConditions s) ∧
     Forall (λ tc, tcKey tc ≠ "" ∧ tcTarget tc ≠ "" ∧ time_op (tcOp tc) = true) (sTimeConditions s)) ∧
    Forall key_wf (sKeyConditions s))).
  { destruct (String.eqb_spec (sEffect s) Allow), (String.eqb_spec (sEffect s) Deny); naive_solver. }
  intros forbid _. erewrite res_bind_ex.
  { rewrite scopeClause_ex. apply and_iff_compat_r. naive_solver. }
  intros act _. erewrite res_bind_ex.
  { rewrite scopeClause_ex. apply and_iff_compat_r. naive_solver. }
  intros rsc _. erewrite res_bind_ex.
  { apply and_iff_compat_r. erewrite res_bind_ex.
    { rewrite mapM_res_ex. apply Morphisms_Prop.and_iff_morphism.
      - apply Forall_iff. intros ip. unfold ip_term.
        destruct (String.eqb_spec (ipKey ip) ""), (String.eqb_spec (ipCIDR ip) ""); naive_solver.
      - reflexivity. }
    intros ips _. erewrite res_bind_ex.
    { rewrite mapM_res_ex. apply Morphisms_Prop.and_iff_morphism.
      - apply Forall_iff. intros lk. unfold like_term.
        destruct (String.eqb_spec (lkKey lk) ""), (String.eqb_spec (lkPattern lk) ""); naive_solver.
      - reflexivity. }
    intros lks _. erewrite res_bind_ex.
    { rewrite mapM_res_ex, (right_id True and). apply Forall_iff. intros tc. unfold time_term, time_op.
      destruct (String.eqb_spec (tcKey tc) ""), (String.eqb_spec (tcTarget tc) ""),
        (String.eqb_spec (tcOp tc) "") as [->|]; cbn [orb]; try naive_solver.
      destruct (existsb _ _); naive_solver. }
    naive_solver. }
  intros value _. erewrite res_bind_ex.
  { rewrite mapM_res_ex, (right_id True and). apply Forall_iff. intros kc. apply cedarTerm_ex. }
  naive_solver.
Qed.

(** ** A concrete Cedar, and the theorems at concrete policies *)

(** An evaluator that numbers the policies and follows the documented semantics. *)
Section Run.
Context {IP : Type} (ParseIPAddr : string → option IP) (isInRange : IP → IP → bool).
Context (ParseDatetime : string → option Z).
#[local] Abbreviation satisfied := (satisfied ParseIPAddr isInRange ParseDatetime).

Definition decides_as (forbid : bool) (c : record) (op : option policy) : bool :=
  match op with Some p => Bool.eqb (is_forbid p) forbid && satisfied c p | None => false end.
Definition deciding (forbid : bool) (ps : list policy) (c : record) : list nat :=
  filter (λ i, decides_as forbid c (ps !! i)) (seq 0 (length ps)).

Definition cedar_run (ps : list policy) (rq : cedar_request) : bool * list nat :=
  match deciding true ps (crContext rq) with
  | [] => match deciding false ps (crContext rq) with [] => (false, []) | l => (true, l) end
  | l => (false, l)
  end.
Definition cedar_annotation (ps : list policy) (i : nat) : option string := ps !! i ≫= annotation.

Lemma deciding_spec forbid ps c i :
  i ∈ deciding forbid ps c ↔ determining ParseIPAddr isInRange ParseDatetime forbid ps c i.
Proof.
  unfold deciding, determining, decides_as. rewrite list_elem_of_filter, elem_of_seq. split.
  - intros [Hi _]. destruct (ps !! i) as [p|]; [|done]. exists p.
    apply andb_prop_elim in Hi as [Hf%Is_true_eq_true%eqb_prop Hs%Is_true_eq_true]. done.
  - intros (p & Hp & Hf & Hs). rewrite Hp. split.
    + by rewrite Hf, eqb_reflx, Hs.
    + apply lookup_lt_Some in Hp. lia.
Qed.

Lemma cedar_run_reads ps :
  cedar_reads ParseIPAddr isInRange ParseDatetime cedar_run cedar_annotation ps ps.
Proof.
  assert (He : ∀ forbid c, (∃ i, determining ParseIPAddr isInRange ParseDatetime forbid ps c i) ↔
                           deciding forbid ps c ≠ []).
  { intros forbid c. setoid_rewrite <- deciding_spec. destruct (deciding forbid ps c) as [|i l].
    - split; [|done]. by intros [i Hi%not_elem_of_nil].
    - split; [done|]. intros _. exists i. by left. }
  split.
  - intros rq b reasons. rewrite !He. unfold cedar_run.
    destruct (deciding true ps (crContext rq)); [|intros [= <- <-]; naive_solver].
    destruct (deciding false ps (crContext rq)); intros [= <- <-]; naive_solver.
  - intros rq reasons Hr i. rewrite <- deciding_spec. revert Hr. unfold cedar_run.
    destruct (deciding true ps (crContext rq)) as [|j l]; [|by intros [= <-]].
    destruct (deciding false ps (crContext rq)); intros [= <-]; done.
  - intros i p Hp. unfold cedar_annotation. by rewrite Hp.
Qed.
End Run.

Definition demo_parse_ip (s : string) : option string := if String.eqb s "" then None else Some s.
Definition demo_in_range (a net : string) : bool := HasPrefix a net.

Definition demo_allow : Statement :=
  mkStatement Allow ["s3:*"] [] ["Bucket::assets"] [] ∅ [] [] [] [].
Definition demo_deny : Statement :=
  mkStatement Deny ["s3:DeleteObject"] [] [] [] ∅ [mkIP "sourceIp" "10." true] [] []
    [mkKey "multiFactorAuthPresent" "==" "false" true].
Definition demo_statements : list Statement := [demo_allow; demo_deny].
Definition demo_boundary : list Statement :=
  [mkStatement Allow [] ["s3:DeleteBucket"] ["*"] [] ∅ [] [] [] []].

Definition demo_policies (limit : option (list Statement)) : list policy :=
  match (match limit with None => Ok None | Some bs => compileBoundary bs end) with
  | Ok g => match compile demo_statements g with Ok c => cPolicies c | Err _ => [] end
  | Err _ => []
  end.
Definition demo_set (limit : option (list Statement)) (text : string) : option (list policy) :=
  if String.eqb text (render_all (λ _, true) (demo_policies limit)) then Some (demo_policies limit) else None.
Definition demo_engine (limit : option (list Statement)) : res engine_error (Engine (PolicySet := list policy)) :=
  engine_for (demo_set limit) (λ _, true) demo_statements limit.
Definition demo_request (action : string) (ctx : list (string * any)) : Request :=
  mkRequest (mkEntity "User" "ann") action (mkEntity "Bucket" "assets/logs/a.txt") (list_to_map ctx).

Lemma Authorize_correct_witness :
  ∃ e, demo_engine (Some demo_boundary) = Ok e ∧
       let rq := demo_request "s3:GetObject" [("sourceIp", AStr "192.0.2.1")] in
       (dAllowed (Authorize demo_parse_ip ParseInt (cedar_run demo_parse_ip demo_in_range ParseInt)
                    cedar_annotation e rq) = true ↔
        decided_by demo_parse_ip demo_in_range ParseInt Allow demo_statements e rq ∧
        ¬ decided_by demo_parse_ip demo_in_range ParseInt Deny demo_statements e rq ∧
        within (Some demo_boundary) "s3:GetObject" "Bucket::assets/logs/a.txt").
Proof.
  eexists. split; [vm_compute; reflexivity|].
  refine (proj1 (Authorize_correct demo_parse_ip demo_in_range ParseInt (demo_set (Some demo_boundary))
    (cedar_run demo_parse_ip demo_in_range ParseInt) cedar_annotation (λ _, true)
    demo_statements (Some demo_boundary) _ (demo_request "s3:GetObject" [("sourceIp", AStr "192.0.2.1")]) _ _ _)).
  - vm_compute. reflexivity.
  - apply cedar_run_reads.
  - vm_compute. reflexivity.
Defined.

Lemma boundary_intersects_witness :
  let cedar := cedar_run demo_parse_ip demo_in_range ParseInt in
  let rq := demo_request "s3:DeleteBucket" [("multiFactorAuthPresent", ABool true); ("sourceIp", AStr "10.1.2.3")] in
  ∃ e1 e2, demo_engine None = Ok e1 ∧ demo_engine (Some demo_boundary) = Ok e2 ∧
    dAllowed (Authorize demo_parse_ip ParseInt cedar cedar_annotation e1 rq) = true ∧
    (dAllowed (Authorize demo_parse_ip ParseInt cedar cedar_annotation e2 rq) = true ↔
     dAllowed (Authorize demo_parse_ip ParseInt cedar cedar_annotation e1 rq) = true ∧
     boundary_covers demo_boundary "s3:DeleteBucket" "Bucket::assets/logs/a.txt").
Proof.
  cbv zeta. eexists _, _. split; [vm_compute; reflexivity|]. split; [vm_compute; reflexivity|].
  split; [vm_compute; reflexivity|].
  refine (boundary_intersects demo_parse_ip demo_in_range ParseInt
    (λ text, match demo_set None text with Some ps => Some ps | None => demo_set (Some demo_boundary) text end)
    (cedar_run demo_parse_ip demo_in_range ParseInt) cedar_annotation (λ _, true)
    demo_statements demo_boundary _ _
    (demo_request "s3:DeleteBucket" [("multiFactorAuthPresent", ABool true); ("sourceIp", AStr "10.1.2.3")]) _ _ _ _).
  - vm_compute. reflexivity.
  - vm_compute. reflexivity.
  - apply cedar_run_reads.
  - apply cedar_run_reads.
Defined.

Lemma deny_fails_closed_witness :
  ∃ e, demo_engine None = Ok e ∧
    let rq := demo_request "s3:DeleteObject" [("multiFactorAuthPresent", ABool false)] in
    let cedar := cedar_run demo_parse_ip demo_in_range ParseInt in
    dAllowed (Authorize demo_parse_ip ParseInt cedar cedar_annotation e rq) = false ∧
    dExplicitDeny (Authorize demo_parse_ip ParseInt cedar cedar_annotation e rq) = true.
Proof.
  eexists. split; [vm_compute; reflexivity|].
  refine (deny_fails_closed demo_parse_ip demo_in_range ParseInt (demo_set None)
    (cedar_run demo_parse_ip demo_in_range ParseInt) cedar_annotation (λ _, true)
    demo_statements None _ (demo_request "s3:DeleteObject" [("multiFactorAuthPresent", ABool false)])
    demo_deny "sourceIp" _ _ _ _ _ _ _ _ _ _).
  - vm_compute. reflexivity.
  - apply cedar_run_reads.
  - vm_compute. reflexivity.
  - by right; left.
  - reflexivity.
  - split; [|by left]. right. exists "s3:DeleteObject". split; [by left|reflexivity].
  - constructor; [|constructor]. vm_compute. exists (VBool false). done.
  - right. left. by left.
  - done.
  - vm_compute. exact I.
Defined.

Lemma type_confusion_denied_witness :
  ∃ e, demo_engine None = Ok e ∧
    let rq := demo_request "s3:GetObject" [("multiFactorAuthPresent", AStr "false")] in
    let cedar := cedar_run demo_parse_ip demo_in_range ParseInt in
    dAllowed (Authorize demo_parse_ip ParseInt cedar cedar_annotation e rq) = false.
Proof.
  eexists. split; [vm_compute; reflexivity|].
  refine (proj1 (type_confusion_denied demo_parse_ip ParseInt (demo_set None)
    (cedar_run demo_parse_ip demo_in_range ParseInt) cedar_annotation (λ _, true)
    demo_statements None _ (demo_request "s3:GetObject" [("multiFactorAuthPresent", AStr "false")])
    demo_deny (mkKey "multiFactorAuthPresent" "==" "false" true) (VStr "false") _ _ _ _ _)).
  - vm_compute. reflexivity.
  - by right; left.
  - by left.
  - reflexivity.
  - reflexivity.
Defined.

Lemma key_condition_semantics_witness :
  let kc := mkKey "multiFactorAuthAge" ">" "3600" true in
  ∃ t, cedarTerm kc 0 = Ok t ∧
    (eval demo_parse_ip demo_in_range ParseInt ∅ t = Some true ↔ key_holds ∅ kc).
Proof.
  eexists. split; [reflexivity|].
  refine (proj1 (key_condition_semantics demo_parse_ip demo_in_range ParseInt
    (mkKey "multiFactorAuthAge" ">" "3600" true) 0 _ ∅ _ _)).
  - reflexivity.
  - by intros v [=].
Defined.

(** A [like] condition has no such protection against a value of another type: a Deny on it is skipped,
    where an absent attribute would have denied. *)
Lemma like_condition_fails_open :
  let s := mkStatement Deny [] [] [] [] ∅ [] [mkLike "username" "admin-*" true] [] [] in
  let denies v := match toCedar s 0 with
    | Ok p => satisfied demo_parse_ip demo_in_range ParseInt
                (<["action" := VStr "s3:GetObject"]> (<["resource" := VStr "Bucket::a"]> v)) p
    | Err _ => true
    end in
  denies {["username" := VStr "bob"]} = true ∧ denies ∅ = true ∧ denies {["username" := VLong 7]} = false.
Proof. vm_compute. done. Qed.
