(* ===== verification/IamImport.v ===== *)
(** * Importing AWS policy documents (policyengine/importaws.go)

    From a decoded policy statement to the engine's statements: conditions, actions, and ARNs to typed
    resources. *)

From S2P Require Import Prelude GoStrings Json PolicyEngine.
#[local] Open Scope string_scope.
#[local] Open Scope Z_scope.
#[local] Open Scope list_scope.

(** ** Reading fields *)

Definition awsStr (v : json) : string := match v with JStr s => s | _ => "" end.

Definition awsList (v : json) : list string :=
  match v with
  | JStr s => [s]
  | JArr l => strings_of l
  | _ => []
  end.

(** singleValue: a string, a boolean, or one of them in (nested) one-element arrays. *)
Fixpoint singleValue (v : json) : option string :=
  match v with
  | JStr s => Some s
  | JBool b => Some (if b then "true" else "false")
  | JArr [x] => singleValue x
  | _ => None
  end.

(** ** Conditions *)

Inductive condType := condBool | condIP | condString | condTime | condNumber.

#[export] Instance condType_eq_dec : EqDecision condType.
Proof. solve_decision. Defined.

Record ConditionKey := mkConditionKey {
  ckAttr : string;
  ckType : condType;
  ckAliases : list string;
  ckOptional : bool;
}.

Definition SupportedConditionKeys : list ConditionKey := [
  mkConditionKey "authenticated" condBool ["authenticated"] false;
  mkConditionKey "sourceIp" condIP ["aws:SourceIp"; "sourceIp"] false;
  mkConditionKey "username" condString ["aws:username"; "username"] false;
  mkConditionKey "currentTime" condTime ["aws:CurrentTime"; "currentTime"] false;
  mkConditionKey "multiFactorAuthPresent" condBool ["aws:MultiFactorAuthPresent"; "multiFactorAuthPresent"] true;
  mkConditionKey "multiFactorAuthAge" condNumber ["aws:MultiFactorAuthAge"; "multiFactorAuthAge"] true
].

Definition SupportedConditionAttrs : gset string := list_to_set (map ckAttr SupportedConditionKeys).

Definition resolveConditionKey (key : string) : option ConditionKey :=
  List.find (λ k, existsb (λ a, EqualFold a key) (ckAliases k)) SupportedConditionKeys.

Definition numericOps (op : string) : option string :=
  if String.eqb op "NumericEquals" then Some "=="
  else if String.eqb op "NumericNotEquals" then Some "!="
  else if String.eqb op "NumericLessThan" then Some "<"
  else if String.eqb op "NumericLessThanEquals" then Some "<="
  else if String.eqb op "NumericGreaterThan" then Some ">"
  else if String.eqb op "NumericGreaterThanEquals" then Some ">="
  else None.

Definition dateOp (op : string) : string :=
  if String.eqb op "DateGreaterThan" then ">"
  else if String.eqb op "DateGreaterThanEquals" then ">="
  else if String.eqb op "DateLessThan" then "<"
  else if String.eqb op "DateLessThanEquals" then "<="
  else "".

(** strings.CutSuffix. *)
Definition CutSuffix (s suf : string) : string * bool :=
  let n := (String.length s - String.length suf)%nat in
  if (String.length suf <=? String.length s)%nat && String.eqb (sdrop n s) suf then (stake n s, true) else (s, false).

(** Why a condition is refused. *)
Inductive cond_refusal :=
| BadBody (op : string) | UnknownKey (key : string) | MultiValued (op key : string)
| BadNull (key val : string) | BadOptional (op key : string) | BadOptionalValue (op key val : string)
| BadBool (key : string) | BadStringEquals (key : string) | NotString (op key : string)
| QuestionMark (op val : string) | NotTime (op key : string) | BadTime (op val : string)
| NotIP (op key : string) | BadIP (op val : string) | BadOperator (op : string).

Definition optionalKeyCondition (op key : string) (ck : ConditionKey) (val : string)
    : res cond_refusal KeyCondition :=
  if String.eqb op "Null" then
    let v := ToLower (TrimSpace val) in
    if negb (String.eqb v "true") && negb (String.eqb v "false") then Err (BadNull key val)
    else Ok (mkKey (ckAttr ck) KeyNull v false)
  else
    let '(base, ifExists) := CutSuffix op "IfExists" in
    match ckType ck with
    | condBool =>
        if negb (String.eqb base "Bool") then Err (BadOptional op key)
        else
          let v := ToLower (TrimSpace val) in
          if negb (String.eqb v "true") && negb (String.eqb v "false") then Err (BadOptionalValue op key val)
          else Ok (mkKey (ckAttr ck) "==" v ifExists)
    | condNumber =>
        match numericOps base with
        | None => Err (BadOptional op key)
        | Some cmp =>
            match ParseInt (TrimSpace val) with
            | None => Err (BadOptionalValue op key val)
            | Some n => Ok (mkKey (ckAttr ck) cmp (FormatInt n) ifExists)
            end
        end
    | _ => Err (BadOptional op key)
    end.

Record conditions := mkConditions {
  cdEq : gmap string string;
  cdIPs : list IPCondition;
  cdLikes : list LikeCondition;
  cdTimes : list TimeCondition;
  cdKeys : list KeyCondition;
}.

Definition no_conditions : conditions := mkConditions ∅ [] [] [] [].

Definition is_date_op (op : string) : bool :=
  existsb (String.eqb op) ["DateGreaterThan"; "DateGreaterThanEquals"; "DateLessThan"; "DateLessThanEquals"].

Section Conditions.
(** types.ParseIPAddr and types.ParseDatetime of Cedar: whether they accept a string. *)
Context (IPParses TimeParses : string → bool).

(** One key of one operator. *)
Definition import_entry (op key : string) (rawVal : json) (c : conditions) : res cond_refusal conditions :=
  match resolveConditionKey key with
  | None => Err (UnknownKey key)
  | Some ck =>
      match singleValue rawVal with
      | None => Err (MultiValued op key)
      | Some val =>
          let a := ckAttr ck in
          if ckOptional ck then
            kc ← optionalKeyCondition op key ck val;
            Ok (mkConditions (cdEq c) (cdIPs c) (cdLikes c) (cdTimes c) (cdKeys c ++ [kc]))
          else if String.eqb op "Bool" then
            if negb (bool_decide (ckType ck = condBool)) || (negb (String.eqb val "true") && negb (String.eqb val "false"))
            then Err (BadBool key)
            else Ok (mkConditions (<[a := val]> (cdEq c)) (cdIPs c) (cdLikes c) (cdTimes c) (cdKeys c))
          else if String.eqb op "StringEquals" then
            if bool_decide (ckType ck = condBool) || bool_decide (ckType ck = condTime)
            then Err (BadStringEquals key)
            else Ok (mkConditions (<[a := val]> (cdEq c)) (cdIPs c) (cdLikes c) (cdTimes c) (cdKeys c))
          else if String.eqb op "StringLike" || String.eqb op "StringNotLike" then
            if negb (bool_decide (ckType ck = condString)) then Err (NotString op key)
            else if contains_char "?" val then Err (QuestionMark op val)
            else Ok (mkConditions (cdEq c) (cdIPs c)
                       (cdLikes c ++ [mkLike a val (String.eqb op "StringNotLike")]) (cdTimes c) (cdKeys c))
          else if is_date_op op then
            if negb (bool_decide (ckType ck = condTime)) then Err (NotTime op key)
            else if negb (TimeParses val) then Err (BadTime op val)
            else Ok (mkConditions (cdEq c) (cdIPs c) (cdLikes c)
                       (cdTimes c ++ [mkTime a (dateOp op) val]) (cdKeys c))
          else if String.eqb op "IpAddress" || String.eqb op "NotIpAddress" then
            if negb (bool_decide (ckType ck = condIP)) then Err (NotIP op key)
            else if negb (IPParses val) then Err (BadIP op val)
            else Ok (mkConditions (cdEq c)
                       (cdIPs c ++ [mkIP a val (String.eqb op "NotIpAddress")]) (cdLikes c) (cdTimes c) (cdKeys c))
          else Err (BadOperator op)
      end
  end.

Fixpoint import_keys (op : string) (m : list (string * json)) (c : conditions) : res cond_refusal conditions :=
  match m with
  | [] => Ok c
  | (key, v) :: m => c ← import_entry op key v c; import_keys op m c
  end.

Fixpoint import_ops (cond : list (string * json)) (c : conditions) : res cond_refusal conditions :=
  match cond with
  | [] => Ok c
  | (op, JObj m) :: cond => c ← import_keys op m c; import_ops cond c
  | (op, _) :: _ => Err (BadBody op)
  end.

Definition importCondition (cond : list (string * json)) : res cond_refusal conditions :=
  import_ops cond no_conditions.
End Conditions.

(** ** Actions *)

Definition SupportedServices : list string := [
  "s3"; "dynamodb"; "lambda"; "sqs"; "sns"; "kinesis"; "kms"; "ssm"; "secretsmanager"; "ecr"; "ecs";
  "logs"; "rds"; "ses"; "apigateway"; "cloudwatch"; "cloudfront"; "iam"; "states"; "cloudformation";
  "appsync"; "acm"; "cognito-idp"; "glue"; "athena"; "eks"; "events"; "servicequotas"; "sts"].

Definition SupportedActions (svc : string) : list string :=
  if String.eqb svc "ec2" then [
    "AllocateAddress"; "ReleaseAddress"; "DescribeAddresses"; "AssociateAddress"; "DisassociateAddress";
    "DescribeInstances"; "DescribeVolumes"; "DescribeSecurityGroups"; "DescribeVpcs"; "DescribeSubnets";
    "DescribeImages"; "DescribeRegions"; "DescribeAvailabilityZones"; "DescribeKeyPairs"; "ImportKeyPair";
    "CreateKeyPair"; "DeleteKeyPair"; "DeleteVolume"; "DescribeInternetGateways"; "DescribeRouteTables";
    "DescribeNetworkAcls"; "DescribeVpcEndpoints"]
  else if String.eqb svc "ec2messages" then [
    "GetMessages"; "SendReply"; "AcknowledgeMessage"; "DeleteMessage"; "FailMessage"; "GetEndpoint"]
  else [].

Definition action_supported (a : string) : bool :=
  match Cut a ":" with
  | Some (svc, op) => existsb (String.eqb svc) SupportedServices || existsb (String.eqb op) (SupportedActions svc)
  | None => false
  end.

(** importActions: the actions kept, and those reported. *)
Definition importActions (actions : list string) : list string * list string :=
  (filter (λ a, String.eqb a "*" || action_supported a) actions,
   filter (λ a, negb (String.eqb a "*" || action_supported a)) actions).

(** ** ARNs *)

(** The service and the resource part of an ARN of at least six fields. *)
Definition arn_parts (arn : string) : option (string * string) :=
  match SplitN arn ":" 6 with
  | [p0; _; svc; _; _; tail] => if String.eqb p0 "arn" then Some (svc, tail) else None
  | _ => None
  end.

(** [prefix]name, typed. *)
Definition cut_typed (tail prefix typ : string) : option string :=
  match CutPrefix tail prefix with
  | Some n => if String.eqb n "" then None else Some (typ +:+ "::" +:+ n)
  | None => None
  end.

(** The first of several prefixes that fits. *)
Fixpoint cut_first (tail : string) (ms : list (string * string)) : option string :=
  match ms with
  | [] => None
  | (prefix, typ) :: ms =>
      match cut_typed tail prefix typ with Some r => Some r | None => cut_first tail ms end
  end.

Definition is_alnum (c : ascii) : bool := in_range "A" "Z" c || in_range "a" "z" c || is_digit c.

(** secretSuffixRe.ReplaceAllString(n, ""): without a final "-" and six letters or digits. *)
Definition strip_secret_suffix (n : string) : string :=
  let i := (String.length n - 7)%nat in
  if (7 <=? String.length n)%nat
  then match sdrop i n with
       | String c rest => if Ascii.eqb c "-" && forall_char is_alnum rest then stake i n else n
       | "" => n
       end
  else n.

Definition no_slash (s : string) : bool := negb (contains_char "/" s).
Definition nonempty (s : string) : bool := negb (String.eqb s "").

(** [Some] when the condition holds. *)
Definition guard_ (b : bool) {A} (a : A) : option A := if b then Some a else None.

Definition arnToResource (arn : string) : option string :=
  '(svc, tail) ← arn_parts arn;
  if String.eqb svc "s3" then guard_ (nonempty (before tail "/")) ("Bucket::" +:+ tail)
  else if String.eqb svc "dynamodb" then cut_typed tail "table/" "Table"
  else if String.eqb svc "lambda" then cut_typed tail "function:" "Function"
  else if String.eqb svc "sqs" then guard_ (nonempty tail) ("Queue::" +:+ tail)
  else if String.eqb svc "sns" then guard_ (nonempty (before tail ":")) ("Topic::" +:+ before tail ":")
  else if String.eqb svc "kinesis" then cut_typed tail "stream/" "Stream"
  else if String.eqb svc "kms" then cut_first tail [("key/", "Key"); ("alias/", "Key")]
  else if String.eqb svc "ssm" then cut_first tail [("document/", "Document"); ("parameter/", "Parameter")]
  else if String.eqb svc "secretsmanager" then
    n ← CutPrefix tail "secret:"; guard_ (nonempty n) ("Secret::" +:+ strip_secret_suffix n)
  else if String.eqb svc "ecr" then cut_typed tail "repository/" "Repository"
  else if String.eqb svc "ecs" then
    n ← CutPrefix tail "service/";
    guard_ (nonempty n && nonempty (after_last "/" n)) ("Service::" +:+ after_last "/" n)
  else if String.eqb svc "logs" then
    n ← CutPrefix tail "log-group:"; guard_ (nonempty (before n ":")) ("LogGroup::" +:+ before n ":")
  else if String.eqb svc "rds" then cut_first tail [("db:", "DBInstance"); ("snapshot:", "DBSnapshot")]
  else if String.eqb svc "ses" then cut_typed tail "identity/" "Identity"
  else if String.eqb svc "cloudfront" then
    cut_first tail [("distribution/", "Distribution"); ("cache-policy/", "CachePolicy");
      ("origin-request-policy/", "OriginRequestPolicy"); ("response-headers-policy/", "ResponseHeadersPolicy");
      ("origin-access-control/", "OriginAccessControl"); ("origin-access-identity/", "OriginAccessIdentity")]
  else if String.eqb svc "ec2" then
    cut_first tail [("elastic-ip/", "ElasticIp"); ("instance/", "Instance"); ("volume/", "Volume");
      ("key-pair/", "KeyPair"); ("security-group/", "SecurityGroup")]
  else if String.eqb svc "apigateway" then
    n ← CutPrefix tail "/restapis/";
    guard_ (nonempty n && nonempty (before n "/")) ("Api::" +:+ before n "/")
  else if String.eqb svc "iam" then
    (fix go ms := match ms with
                  | [] => None
                  | (prefix, typ) :: ms =>
                      match CutPrefix tail prefix with
                      | Some n => if nonempty n && no_slash n then Some (typ +:+ "::" +:+ n) else go ms
                      | None => go ms
                      end
                  end) [("role/", "Role"); ("user/", "User"); ("policy/", "Policy")]
  else if String.eqb svc "states" then
    n ← CutPrefix tail "stateMachine:";
    guard_ (nonempty n && negb (contains_char ":" n)) ("StateMachine::" +:+ n)
  else if String.eqb svc "cloudformation" then
    n ← CutPrefix tail "stack/";
    match Cut n "/" with
    | Some (name, id) => guard_ (nonempty name && String.eqb id "*") ("Stack::" +:+ name)
    | None => guard_ (nonempty n) ("Stack::" +:+ n)
    end
  else if String.eqb svc "appsync" then
    n ← CutPrefix tail "apis/"; guard_ (nonempty n && no_slash n) ("GraphQLApi::" +:+ n)
  else if String.eqb svc "acm" then cut_typed tail "certificate/" "Certificate"
  else if String.eqb svc "servicequotas" then
    '(s, code) ← Cut tail "/";
    guard_ (nonempty s && nonempty code && no_slash code) ("Quota::" +:+ s +:+ "/" +:+ code)
  else if String.eqb svc "cognito-idp" then cut_typed tail "userpool/" "UserPool"
  else if String.eqb svc "glue" then
    match (r ← cut_typed tail "database/" "Database"; guard_ (no_slash r) r) with
    | Some r => Some r
    | None =>
        n ← CutPrefix tail "table/";
        '(db, tbl) ← Cut n "/";
        guard_ (nonempty db && nonempty tbl && no_slash tbl) ("Table::" +:+ db +:+ "/" +:+ tbl)
    end
  else if String.eqb svc "athena" then cut_typed tail "workgroup/" "WorkGroup"
  else if String.eqb svc "eks" then
    r ← cut_typed tail "cluster/" "Cluster"; guard_ (no_slash r) r
  else if String.eqb svc "events" then
    match (r ← cut_typed tail "event-bus/" "EventBus"; guard_ (no_slash r) r) with
    | Some r => Some r
    | None =>
        n ← CutPrefix tail "rule/";
        guard_ (nonempty n && (CountByte "/" n <=? 1)%nat && negb (HasSuffix n "/") && negb (HasPrefix n "/"))
          ("Rule::" +:+ n)
    end
  else None.

(** importResources: the typed resources, each once, and the ARNs it cannot map. *)
Definition importResources (arns : list string) : list string * list string :=
  (dedupe (omap (λ r, if String.eqb r "*" then Some "*" else arnToResource r) arns),
   filter (λ r, negb (String.eqb r "*") && negb (bool_decide (is_Some (arnToResource r)))) arns).

(** ** Statements *)

(** Parts of a document that are reported instead of imported. *)
Inductive unsupported :=
| UnCondition (i : nat) | UnConditionReason (i : nat) (why : cond_refusal)
| UnAction (a : string) | UnNotResource (i : nat) (arns : list string)
| UnResource (arn : string) | UnNoResource (i : nat).

Inductive import_error := ErrImportEffect (i : nat) | ErrActionAxes (i : nat) | ErrResourceAxes (i : nat).

Section Documents.
Context (IPParses TimeParses : string → bool).

(** One statement of the document: what it imports to, and what it reports. *)
Definition import_statement (i : nat) (st : list (string * json))
    : res import_error (option Statement * list unsupported) :=
  let effect := awsStr (get st "Effect") in
  if negb (String.eqb effect Allow) && negb (String.eqb effect Deny) then Err (ErrImportEffect i)
  else
    let go (c : conditions) : res import_error (option Statement * list unsupported) :=
      if has_key st "Action" && has_key st "NotAction" then Err (ErrActionAxes i)
      else if has_key st "Resource" && has_key st "NotResource" then Err (ErrResourceAxes i)
      else
        let '(actions, notActions, aUn, stop) :=
          if has_key st "NotAction" then
            let na := awsList (get st "NotAction") in
            if bool_decide (na = []) then (["*"], [], [], false) else ([], na, [], false)
          else
            let '(kept, un) := importActions (awsList (get st "Action")) in
            (kept, [], map UnAction un, bool_decide (kept = [])) in
        if stop : bool then Ok (None, aUn)
        else
          let build resources notResources un :=
            Ok (Some (mkStatement effect actions notActions resources notResources
                        (cdEq c) (cdIPs c) (cdLikes c) (cdTimes c) (cdKeys c)), aUn ++ un) in
          if has_key st "NotResource" then
            let '(kept, un) := importResources (awsList (get st "NotResource")) in
            if negb (bool_decide (un = [])) then Ok (None, aUn ++ [UnNotResource i un])
            else if bool_decide (kept = []) then build ["*"] [] [] else build [] kept []
          else
            let '(kept, un) := importResources (awsList (get st "Resource")) in
            if bool_decide (kept = []) then Ok (None, aUn ++ map UnResource un ++ [UnNoResource i])
            else build kept [] (map UnResource un) in
    match obj_get st "Condition" with
    | None => go no_conditions
    | Some (JObj cm) =>
        match importCondition IPParses TimeParses cm with
        | Ok c => go c
        | Err why => Ok (None, [UnConditionReason i why])
        end
    | Some _ => Ok (None, [UnCondition i])
    end.

(** ImportAWS on the decoded statements. *)
Fixpoint import_statements (i : nat) (raw : list (list (string * json)))
    : res import_error (list Statement * list unsupported) :=
  match raw with
  | [] => Ok ([], [])
  | st :: raw =>
      '(s, un) ← import_statement i st;
      '(ss, un') ← import_statements (S i) raw;
      Ok (option_list s ++ ss, un ++ un')
  end.
Definition ImportAWS (raw : list (list (string * json))) : res import_error (list Statement * list unsupported) :=
  import_statements 0 raw.
End Documents.

(** ** What an AWS condition means *)

Definition true_word (val : string) : bool := String.eqb (ToLower (TrimSpace val)) "true".

(** A Numeric operator on an attribute that is present. *)
Definition numeric_holds (base : string) (v : value) (n : Z) : Prop :=
  if String.eqb base "NumericEquals" then v = VLong n
  else if String.eqb base "NumericNotEquals" then v ≠ VLong n
  else ∃ m, v = VLong m ∧
    if String.eqb base "NumericLessThan" then m < n
    else if String.eqb base "NumericLessThanEquals" then m ≤ n
    else if String.eqb base "NumericGreaterThan" then n < m
    else n ≤ m.

Section Meaning.
Context {IP : Type} (ParseIPAddr : string → option IP) (isInRange : IP → IP → bool).
Context (ParseDatetime : string → option Z).

(** One entry of a Condition block, read as AWS evaluates it on the attribute. *)
Definition aws_holds (op : string) (ck : ConditionKey) (val : string) (c : record) : Prop :=
  let a := ckAttr ck in
  if ckOptional ck then
    if String.eqb op "Null" then (if true_word val then c !! a = None else is_Some (c !! a))
    else
      let '(base, ifExists) := CutSuffix op "IfExists" in
      match c !! a with
      | None => ifExists = true ∨ base = "NumericNotEquals"
      | Some v =>
          if String.eqb base "Bool" then v = VBool (true_word val)
          else ∃ n, ParseInt (TrimSpace val) = Some n ∧ numeric_holds base v n
      end
  else if String.eqb op "Bool" then c !! a = Some (VBool (String.eqb val "true"))
  else if String.eqb op "StringEquals" then c !! a = Some (VStr val)
  else if String.eqb op "StringLike" then ∃ s, c !! a = Some (VStr s) ∧ like val s = true
  else if String.eqb op "StringNotLike" then ∃ s, c !! a = Some (VStr s) ∧ like val s = false
  else if String.eqb op "IpAddress" then
    ∃ s i n, c !! a = Some (VStr s) ∧ ParseIPAddr s = Some i ∧ ParseIPAddr val = Some n ∧ isInRange i n = true
  else if String.eqb op "NotIpAddress" then
    ∃ s i n, c !! a = Some (VStr s) ∧ ParseIPAddr s = Some i ∧ ParseIPAddr val = Some n ∧ isInRange i n = false
  else
    ∃ s t u, c !! a = Some (VStr s) ∧ ParseDatetime s = Some t ∧ ParseDatetime val = Some u ∧
      order_op (dateOp op) t u = Some true.

Definition parses {A} (parse : string → option A) (s : string) : bool :=
  match parse s with Some _ => true | None => false end.
#[local] Abbreviation import_entry := (import_entry (parses ParseIPAddr) (parses ParseDatetime)).
#[local] Abbreviation importCondition := (importCondition (parses ParseIPAddr) (parses ParseDatetime)).

(** The conditions of an imported statement, all holding. *)
Definition conditions_hold (c : record) (cd : conditions) : Prop :=
  (∀ k v, cdEq cd !! k = Some v → c !! k = Some (cond_value v)) ∧
  Forall (ip_holds ParseIPAddr isInRange c) (cdIPs cd) ∧ Forall (like_holds c) (cdLikes cd) ∧
  Forall (time_holds ParseDatetime c) (cdTimes cd) ∧ Forall (key_holds c) (cdKeys cd).

Lemma lit_value_bool v : v = "true" ∨ v = "false" → lit_value v = Some (VBool (String.eqb v "true")).
Proof. by intros [->| ->]. Qed.

Lemma ParseInt_range s n : ParseInt s = Some n → - 2 ^ 63 ≤ n < 2 ^ 63.
Proof.
  unfold ParseInt. destruct (match s with "" => _ | String c rest => _ end) as [neg body].
  destruct body; [done|]. intros (m & _ & Hm)%bind_Some. revert Hm.
  set (k := if neg then - m else m). destruct ((- 2 ^ 63 <=? k) && (k <? 2 ^ 63)) eqn:E; [|done].
  intros [= <-]. apply andb_true_iff in E as [H1%Z.leb_le H2%Z.ltb_lt]. done.
Qed.

Lemma lit_value_int n : - 2 ^ 63 ≤ n < 2 ^ 63 → lit_value (FormatInt n) = Some (VLong n).
Proof.
  intros Hn. pose proof (ParseInt_FormatInt n Hn) as Hp. unfold lit_value.
  destruct (String.eqb_spec (FormatInt n) "true") as [E|_]; [by rewrite E in Hp|].
  destruct (String.eqb_spec (FormatInt n) "false") as [E|_]; [by rewrite E in Hp|].
  by rewrite Hp.
Qed.

Lemma cmp_eq_true a b : cmp_values "==" a b = Some true ↔ a = b.
Proof. unfold cmp_values. cbn. split; [by intros [= ?%bool_decide_eq_true_1]|intros ->; by rewrite bool_decide_eq_true_2]. Qed.
Lemma cmp_ne_true a b : cmp_values "!=" a b = Some true ↔ a ≠ b.
Proof. unfold cmp_values. cbn. split; [by intros [= ?%bool_decide_eq_true_1]|intros ?; by rewrite bool_decide_eq_true_2]. Qed.

Lemma numericOps_holds base cmp v n :
  numericOps base = Some cmp → (cmp_values cmp v (VLong n) = Some true ↔ numeric_holds base v n) ∧
  cmp ≠ KeyNull ∧ (cmp = "!=" ↔ base = "NumericNotEquals") ∧ base ≠ "Bool".
Proof.
  unfold numericOps, numeric_holds.
  destruct (String.eqb_spec base "NumericEquals") as [->|?].
  { intros [= <-]. rewrite cmp_eq_true. done. }
  destruct (String.eqb_spec base "NumericNotEquals") as [->|?].
  { intros [= <-]. rewrite cmp_ne_true. done. }
  destruct (String.eqb_spec base "NumericLessThan") as [->|?];
    [|destruct (String.eqb_spec base "NumericLessThanEquals") as [->|?];
      [|destruct (String.eqb_spec base "NumericGreaterThan") as [->|?];
        [|destruct (String.eqb_spec base "NumericGreaterThanEquals") as [->|?]; [|done]]]];
    intros [= <-]; (split; [|done]); unfold cmp_values; cbn;
    (split;
      [destruct v as [|b|m]; [done..|]; cbn; intros [= H];
         first [apply Z.ltb_lt in H|apply Z.leb_le in H]; by exists m
      |intros (m & -> & H); cbn; f_equal; first [by apply Z.ltb_lt|by apply Z.leb_le]]).
Qed.

Lemma optionalKeyCondition_holds op key ck val kc c :
  optionalKeyCondition op key ck val = Ok kc → ckOptional ck = true →
  key_holds c kc ↔ aws_holds op ck val c.
Proof.
  unfold optionalKeyCondition, aws_holds, true_word. intros H Hopt. rewrite Hopt. revert H.
  set (w := ToLower (TrimSpace val)).
  destruct (String.eqb_spec op "Null") as [_|_].
  { destruct (String.eqb_spec w "true") as [Hw|Ht], (String.eqb_spec w "false") as [Hw'|Hf];
      cbn [negb andb]; [congruence|..|done]; intros [= <-]; unfold key_holds; cbn [kcKey kcOp kcValue];
      change (String.eqb KeyNull KeyNull) with true; cbv iota; destruct (c !! ckAttr ck); naive_solver. }
  destruct (CutSuffix op "IfExists") as [base ifx]. destruct (ckType ck); try done.
  - destruct (String.eqb_spec base "Bool") as [->|_]; cbn [negb]; [|done].
    destruct (negb (String.eqb w "true") && negb (String.eqb w "false")) eqn:Ew; [done|]. intros [= <-].
    assert (Hw : w = "true" ∨ w = "false").
    { apply andb_false_iff in Ew as [E%negb_false_iff%String.eqb_eq|E%negb_false_iff%String.eqb_eq]; auto. }
    unfold key_holds. cbn [kcKey kcOp kcValue kcIfExists]. change (String.eqb "==" KeyNull) with false. cbv iota.
    destruct (c !! ckAttr ck) as [v|].
    + rewrite (lit_value_bool _ Hw). setoid_rewrite cmp_eq_true. naive_solver.
    + naive_solver.
  - destruct (numericOps base) as [cmp|] eqn:En; [|done].
    destruct (ParseInt (TrimSpace val)) as [n|] eqn:Ep; [|done]. intros [= <-].
    unfold key_holds. cbn [kcKey kcOp kcValue kcIfExists].
    destruct (numericOps_holds base cmp (VLong 0) 0 En) as (_ & Hk & Hne & Hb).
    destruct (String.eqb_spec cmp KeyNull); [done|]. destruct (String.eqb_spec base "Bool"); [done|].
    destruct (c !! ckAttr ck) as [v|]; [|by rewrite Hne].
    rewrite lit_value_int by by eapply ParseInt_range.
    destruct (numericOps_holds base cmp v n En) as (Hv & _). naive_solver.
Qed.

(** The entries of a Condition block, in the order they are read. *)
Definition entries (cond : list (string * json)) : list (string * string * json) :=
  cond ≫= λ ov, match ov.2 with JObj m => map (λ kv, (ov.1, kv.1, kv.2)) m | _ => [] end.

(** An entry that becomes an equality on an attribute. *)
Definition eq_attr (e : string * string * json) : option string :=
  let '(op, key, _) := e in
  ck ← resolveConditionKey key;
  if negb (ckOptional ck) && (String.eqb op "Bool" || String.eqb op "StringEquals")
  then Some (ckAttr ck) else None.

(** A StringEquals whose value reads as a boolean literal is compiled to a boolean comparison. *)
Definition plain_value (e : string * string * json) : Prop :=
  let '(op, _, v) := e in
  op = "StringEquals" → ∀ val, singleValue v = Some val → is_bool_lit val = false.

(** What an entry asks of the context. *)
Definition entry_holds (c : record) (e : string * string * json) : Prop :=
  let '(op, key, v) := e in
  ∃ ck val, resolveConditionKey key = Some ck ∧ singleValue v = Some val ∧ aws_holds op ck val c.

Lemma conditions_hold_eq c cd a v :
  cdEq cd !! a = None →
  conditions_hold c (mkConditions (<[a := v]> (cdEq cd)) (cdIPs cd) (cdLikes cd) (cdTimes cd) (cdKeys cd)) ↔
  conditions_hold c cd ∧ c !! a = Some (cond_value v).
Proof.
  intros Hn. unfold conditions_hold. cbn. split.
  - intros (H & Hr). split; [split; [|done]|].
    + intros k w Hk. apply H. rewrite lookup_insert_ne; [done|]. intros ->. congruence.
    + apply H. by rewrite lookup_insert_eq.
  - intros ((H & Hr) & Ha). split; [|done]. intros k w [[<- <-]|[_ Hk]]%lookup_insert_Some; [done|by apply H].
Qed.

Lemma cond_value_plain v : is_bool_lit v = false → cond_value v = VStr v.
Proof.
  unfold is_bool_lit, cond_value. intros [H1 H2]%orb_false_iff. by rewrite H1, H2.
Qed.

Lemma parses_Some {A} (parse : string → option A) s : parses parse s = true → is_Some (parse s).
Proof. unfold parses. destruct (parse s); by eauto. Qed.

Lemma import_entry_holds c op key v cd cd' :
  import_entry op key v cd = Ok cd' → plain_value (op, key, v) →
  (∀ a, eq_attr (op, key, v) = Some a → cdEq cd !! a = None) →
  (conditions_hold c cd' ↔ conditions_hold c cd ∧ entry_holds c (op, key, v)) ∧
  (∀ a, eq_attr (op, key, v) ≠ Some a → cdEq cd' !! a = cdEq cd !! a).
Proof.
  unfold IamImport.import_entry, entry_holds, eq_attr, plain_value. intros H Hplain Heq.
  destruct (resolveConditionKey key) as [ck|]; [|done].
  destruct (singleValue v) as [val|] eqn:Ev; [|done]. cbn [mbind option_bind] in Heq |- *.
  assert (Hs : ∀ P : Prop, (∃ ck0 val0, Some ck = Some ck0 ∧ Some val = Some val0 ∧ aws_holds op ck0 val0 c) ↔ P
            ↔ (aws_holds op ck val c ↔ P)).
  { intros P. split; intros HP; rewrite <- HP; naive_solver. }
  assert (Hs' : (∃ ck0 val0, Some ck = Some ck0 ∧ Some val = Some val0 ∧ aws_holds op ck0 val0 c) ↔ aws_holds op ck val c)
    by naive_solver. rewrite Hs'. clear Hs Hs'.
  destruct (ckOptional ck) eqn:Eopt.
  { apply res_bind_Ok in H as (kc & Hkc & [= <-]). cbn [negb andb]. split; [|done].
    rewrite <- (optionalKeyCondition_holds op key ck val kc c Hkc Eopt). unfold conditions_hold. cbn.
    rewrite Forall_app, Forall_singleton. tauto. }
  cbn [negb andb] in *. unfold aws_holds. rewrite Eopt.
  destruct (String.eqb_spec op "Bool") as [->|Hb].
  { destruct (negb _ || _) eqn:Ec; [done|]. injection H as <-. cbn [orb] in *. split.
    - rewrite conditions_hold_eq by by apply Heq. apply orb_false_iff in Ec as [_ Ec].
      assert (Hval : cond_value val = VBool (String.eqb val "true")).
      { unfold cond_value. destruct (String.eqb val "true"); [done|]. by destruct (String.eqb val "false"). }
      by rewrite Hval.
    - intros a Ha. cbn. rewrite lookup_insert_ne; [done|congruence]. }
  destruct (String.eqb_spec op "StringEquals") as [->|Hse].
  { destruct (_ || _); [done|]. injection H as <-. cbn [orb] in *. split.
    - rewrite conditions_hold_eq by by apply Heq. by rewrite cond_value_plain by by eapply Hplain.
    - intros a Ha. cbn. rewrite lookup_insert_ne; [done|congruence]. }
  cbn [orb] in *.
  destruct (String.eqb_spec op "StringLike") as [->|Hsl].
  { cbn [orb] in H. destruct (negb _); [done|]. destruct (contains_char "?" val); [done|]. injection H as <-.
    split; [|done]. unfold conditions_hold. cbn. rewrite Forall_app, Forall_singleton. unfold like_holds. cbn. tauto. }
  destruct (String.eqb_spec op "StringNotLike") as [->|Hsn].
  { cbn [orb] in H. destruct (negb _); [done|]. destruct (contains_char "?" val); [done|]. injection H as <-.
    split; [|done]. unfold conditions_hold. cbn. rewrite Forall_app, Forall_singleton. unfold like_holds. cbn. tauto. }
  cbn [orb] in H. destruct (is_date_op op) eqn:Ed.
  { destruct (negb _); [done|]. destruct (negb _); [done|]. injection H as <-. split; [|done].
    destruct (String.eqb_spec op "IpAddress") as [->|_]; [done|].
    destruct (String.eqb_spec op "NotIpAddress") as [->|_]; [done|].
    unfold conditions_hold. cbn. rewrite Forall_app, Forall_singleton. unfold time_holds. cbn. tauto. }
  destruct (String.eqb_spec op "IpAddress") as [->|Hip].
  { cbn [orb] in H. destruct (negb _); [done|]. destruct (negb _); [done|]. injection H as <-. split; [|done].
    unfold conditions_hold. cbn. rewrite Forall_app, Forall_singleton. unfold ip_holds. cbn. tauto. }
  destruct (String.eqb_spec op "NotIpAddress") as [->|Hnip]; [|done].
  cbn [orb] in H. destruct (negb _); [done|]. destruct (negb _); [done|]. injection H as <-. split; [|done].
  unfold conditions_hold. cbn. rewrite Forall_app, Forall_singleton. unfold ip_holds. cbn. tauto.
Qed.

(** The loops of importCondition, as one loop over the entries. *)
Fixpoint import_list (es : list (string * string * json)) (cd : conditions) : res cond_refusal conditions :=
  match es with
  | [] => Ok cd
  | (op, key, v) :: es => cd ← import_entry op key v cd; import_list es cd
  end.

Lemma import_list_app es1 es2 cd :
  import_list (es1 ++ es2) cd = (cd ← import_list es1 cd; import_list es2 cd).
Proof.
  revert cd. induction es1 as [|[[op key] v] es1 IH]; intros cd; cbn; [done|].
  destruct (import_entry op key v cd); cbn; [apply IH|done].
Qed.

Lemma import_ops_list cond cd cd' :
  import_ops (parses ParseIPAddr) (parses ParseDatetime) cond cd = Ok cd' → import_list (entries cond) cd = Ok cd'.
Proof.
  revert cd. induction cond as [|[op body] cond IH]; intros cd; cbn [import_ops]; [done|].
  destruct body as [|b|f|s|l|m]; try done. intros (cd1 & Hm & H)%res_bind_Ok.
  change (entries ((op, JObj m) :: cond)) with (map (λ kv, (op, kv.1, kv.2)) m ++ entries cond).
  rewrite import_list_app. replace (import_list (map _ m) cd) with (Ok (E := cond_refusal) cd1); [by apply IH|].
  symmetry. clear -Hm. revert cd Hm. induction m as [|[key v] m IH]; intros cd; cbn; [done|].
  intros (cd2 & H1 & H2)%res_bind_Ok. rewrite H1. cbn. by apply IH.
Qed.

Lemma import_list_holds c es cd cd' :
  import_list es cd = Ok cd' → Forall plain_value es → NoDup (omap eq_attr es) →
  (∀ a, a ∈ omap eq_attr es → cdEq cd !! a = None) →
  (conditions_hold c cd' ↔ conditions_hold c cd ∧ Forall (entry_holds c) es).
Proof.
  revert cd. induction es as [|[[op key] v] es IH]; intros cd; cbn [import_list].
  { intros [= <-] _ _ _. rewrite Forall_nil. tauto. }
  intros (cd1 & H1 & H2)%res_bind_Ok [Hp Hps]%Forall_cons Hnd Hnew. cbn [omap list_omap] in Hnd, Hnew.
  destruct (import_entry_holds c op key v cd cd1 H1 Hp) as [Hc Hk].
  { intros a Ha. apply Hnew. rewrite Ha. by left. }
  rewrite (IH cd1 H2 Hps), Hc, Forall_cons; [tauto|..].
  - destruct (eq_attr (op, key, v)); [by apply NoDup_cons in Hnd as [_ Hnd]|done].
  - intros a Ha. rewrite Hk.
    + apply Hnew. destruct (eq_attr (op, key, v)); [by right|done].
    + intros Hea. rewrite Hea in Hnd. by apply NoDup_cons in Hnd as [Hnin _].
Qed.

(** an imported Condition block means what AWS says it means: the conditions it imports to hold in a
    context exactly when every operator of the block does on every one of its keys, AWS's absent-key
    semantics of the optional keys included; nothing is dropped and nothing is added.  (Two spellings of
    one key must not both be compared for equality, and a StringEquals must not compare with the words
    true or false.) *)
Theorem importCondition_faithful (cond : list (string * json)) (cd : conditions) (c : record)
    (H : importCondition cond = Ok cd)
    (Hplain : Forall plain_value (entries cond)) (Honce : NoDup (omap eq_attr (entries cond))) :
  conditions_hold c cd ↔ Forall (entry_holds c) (entries cond).
Proof.
  apply import_ops_list in H. rewrite (import_list_holds c _ _ _ H Hplain Honce).
  - unfold conditions_hold, no_conditions. cbn. rewrite !Forall_nil. naive_solver.
  - intros a _. cbn. apply lookup_empty.
Qed.
End Meaning.

Definition demo_cond : list (string * json) :=
  [("IpAddress", JObj [("aws:SourceIp", JStr "10.")]);
   ("BoolIfExists", JObj [("aws:MultiFactorAuthPresent", JBool true)])].

Lemma importCondition_faithful_witness :
  ∃ cd, importCondition (parses demo_parse_ip) (parses ParseInt) demo_cond = Ok cd ∧
    (conditions_hold demo_parse_ip demo_in_range ParseInt ∅ cd ↔
     Forall (entry_holds demo_parse_ip demo_in_range ParseInt ∅) (entries demo_cond)).
Proof.
  eexists. split; [vm_compute; reflexivity|].
  refine (importCondition_faithful demo_parse_ip demo_in_range ParseInt demo_cond _ ∅ _ _ _).
  - vm_compute. reflexivity.
  - repeat constructor; intros [=].
  - vm_compute. constructor.
Defined.

(** Two spellings of one key: the later one replaces the earlier, so an Allow loses a condition. *)
Lemma import_spelling_drops :
  importCondition (λ _, true) (λ _, true)
    [("StringEquals", JObj [("aws:username", JStr "ann"); ("AWS:UserName", JStr "bob")])]
  = importCondition (λ _, true) (λ _, true) [("StringEquals", JObj [("aws:username", JStr "bob")])].
Proof. vm_compute. reflexivity. Qed.

(** A StringEquals with the word true never matches the string: a Deny on it never fires for the user of
    that name. *)
Lemma string_equals_true_never :
  ∃ cd, importCondition (λ _, true) (λ _, true) [("StringEquals", JObj [("aws:username", JStr "true")])] = Ok cd ∧
        cdEq cd !! "username" = Some "true" ∧ cond_value "true" ≠ VStr "true".
Proof. eexists. split; [vm_compute; reflexivity|]. by vm_compute. Qed.
