(* ===== verification/IamWorld.v ===== *)
(** * Principals and the IAM policy world (console-api/internal/iamauthz: principal.go, world.go, grant.go)

    Canonical names and which namespaces a Policy or a reference may reach, principals and their ARNs,
    the policies that apply to a principal, temporary access, and the cache over the loader. *)

From S2P Require Import Prelude GoStrings GoTime PolicyEngine.
#[local] Open Scope string_scope.
#[local] Open Scope Z_scope.
#[local] Open Scope list_scope.

(** ** Canonical names *)

Definition DefaultHomeNamespace : string := "open-infra-console".

Definition QualifiedName (home ns name : string) : string :=
  if String.eqb ns "" || String.eqb ns home then name else ns +:+ "/" +:+ name.

(** The id split at its first "/", when something precedes it (strings.IndexByte(id, '/') > 0). *)
Definition cut_slash (id : string) : option (string * string) :=
  match Cut id "/" with
  | Some (ns, name) => if String.eqb ns "" then None else Some (ns, name)
  | None => None
  end.

Definition SplitQualified (home id : string) : string * string :=
  match cut_slash id with Some p => p | None => (home, id) end.

Definition StarInNamespacePrefix : string := "*@".

(** One entry of CanonAppliesTo: its canonical form, or nothing. *)
Definition canon_entry (home policyNS e : string) : list string :=
  let local := String.eqb policyNS "" || String.eqb policyNS home in
  if String.eqb e "*" then [if local then "*" else StarInNamespacePrefix +:+ policyNS]
  else
    match Cut e "::" with
    | None => if local then [e] else []
    | Some (typ, name) =>
        if String.eqb name "" then (if local then [e] else [])
        else if String.eqb typ "Group" then (if local then [e] else [])
        else
          match cut_slash name with
          | Some (ns, bare) =>
              if negb local && negb (String.eqb ns policyNS) then []
              else [typ +:+ "::" +:+ QualifiedName home ns bare]
          | None => [typ +:+ "::" +:+ QualifiedName home policyNS name]
          end
    end.

Definition CanonAppliesTo (home policyNS : string) (entries : list string) : list string :=
  entries ≫= canon_entry home policyNS.

Definition ResolvePolicyRef (home principalNS ref : string) (exists_ : string → bool) : string :=
  match cut_slash ref with
  | Some (ns, name) =>
      if negb (String.eqb principalNS home) && negb (String.eqb ns principalNS) && negb (String.eqb ns home)
      then "" else QualifiedName home ns name
  | None =>
      if negb (String.eqb principalNS home) then
        let own := QualifiedName home principalNS ref in
        if exists_ own then own else ref
      else ref
  end.

(** ** Principals *)

Inductive PrincipalType := User | Role | Root | Service.

#[export] Instance PrincipalType_eq_dec : EqDecision PrincipalType.
Proof. solve_decision. Defined.

Definition type_name (t : PrincipalType) : string :=
  match t with User => "User" | Role => "Role" | Root => "Root" | Service => "Service" end.

Definition ManagementAccount : string := "000000000000".

Record Session := mkSession { sesName : string; sesPolicies : list Statement }.

Record Principal := mkPrincipal {
  pAccount : string;
  pType : PrincipalType;
  pID : string;
  pGroups : list string;
  pSession : option Session;
}.

Definition AccountID (p : Principal) : string :=
  if String.eqb (pAccount p) "" then ManagementAccount else pAccount p.

Definition PolicyKey (ptype id : string) : string := ptype +:+ "::" +:+ id.

Definition Key (p : Principal) : string := PolicyKey (type_name (pType p)) (pID p).

(** What follows the last "/" (the whole string without one). *)
Fixpoint after_last_slash (s : string) : string :=
  match Cut s "/" with
  | None => s
  | Some _ => match s with "" => "" | String _ rest => after_last_slash rest end
  end.

Definition ARN (p : Principal) : string :=
  let acct := AccountID p in
  let name := after_last_slash (pID p) in
  match pType p with
  | Root => "arn:aws:iam::" +:+ acct +:+ ":root"
  | Role =>
      match pSession p with
      | Some s =>
          if negb (String.eqb (sesName s) "")
          then "arn:aws:sts::" +:+ acct +:+ ":assumed-role/" +:+ name +:+ "/" +:+ sesName s
          else "arn:aws:iam::" +:+ acct +:+ ":role/" +:+ name
      | None => "arn:aws:iam::" +:+ acct +:+ ":role/" +:+ name
      end
  | Service => pID p
  | User => "arn:aws:iam::" +:+ acct +:+ ":user/" +:+ name
  end.

Definition adminGroup : string := "admins".
Definition contains_str (x : string) (l : list string) : bool := existsb (String.eqb x) l.

Definition IsAdminGroupMember (p : Principal) : bool :=
  match pType p with
  | Root => true
  | User => contains_str adminGroup (pGroups p)
  | _ => false
  end.

(** iam.Claims, the fields the package reads. *)
Record Claims := mkClaims {
  clSub : string;
  clRole : string;
  clGroups : list string;
  clAssumedRole : string;
  clAccount : string;
}.

Definition UsersGroup : string := "users".

(** iam.RoleMemberGroups. *)
Definition RoleMemberGroups (role : string) : list string :=
  let r := ToLower role in
  if String.eqb r "root" || String.eqb r "admin" then ["openinfra:admins"]
  else if String.eqb r "poweruser" then ["openinfra:powerusers"]
  else ["openinfra:readers"].

Definition plain_group (g : string) : string := TrimPrefix g "openinfra:".

(** plainGroups, with the groups kept so far. *)
Fixpoint plainGroups_go (out groups : list string) : list string :=
  match groups with
  | [] => out
  | g :: groups =>
      let g := plain_group g in
      if String.eqb g "" || String.eqb g UsersGroup || contains_str g out then plainGroups_go out groups
      else plainGroups_go (out ++ [g]) groups
  end.
Definition plainGroups (groups : list string) : list string := plainGroups_go [] groups.

Definition sessionOf (c : Claims) : option Session :=
  let name := after_last_slash (clSub c) in
  if String.eqb name "" || String.eqb name (clAssumedRole c) then None else Some (mkSession name []).

Definition PrincipalFromClaims (c : Claims) (account : string) : Principal :=
  let account := if String.eqb account "" then clAccount c else account in
  if negb (String.eqb (clAssumedRole c) "") then
    mkPrincipal account Role (clAssumedRole c) [] (sessionOf c)
  else if String.eqb (ToLower (clRole c)) "root" && bool_decide (clGroups c = []) then
    mkPrincipal account Root (clSub c) [] None
  else
    let groups := if bool_decide (clGroups c = []) then RoleMemberGroups (clRole c) else clGroups c in
    mkPrincipal account User (clSub c) (plainGroups groups) None.

(** ** Temporary access *)

Record TemporaryAttachment := mkTemporary {
  taGrant : string;
  taPolicies : list string;
  taFrom : Z;
  taUntil : Z;
}.

Definition ActiveAt (a : TemporaryAttachment) (t : Z) : bool := negb (t <? taFrom a) && (t <? taUntil a).

Definition MaxGrantDuration : Z := 24 * 3600 * second.

Record GrantSpec := mkGrant {
  gSubjectKind : string;
  gSubjectName : string;
  gPolicies : list string;
  gDuration : string;
  gRequestedBy : string;
  gApprovedBy : string;
  gApprovedAt : string;
}.

(** ParseGrantDuration; the overflow checks of time.ParseDuration only ever refuse what is over the
    maximum. *)
Definition ParseGrantDuration (s : string) : option Z :=
  if String.eqb s "" then None
  else
    d ← hms s;
    if (d <=? 0) || (MaxGrantDuration <? d) then None else Some d.

Inductive grant_refusal :=
| GrantNoSubject | GrantForeignSubject | GrantNoPolicy | GrantAwaiting | GrantSelfApproved
| GrantBadDuration | GrantBadTime.

Definition GrantWindow (g : GrantSpec) : res grant_refusal (Z * Z) :=
  if (negb (String.eqb (gSubjectKind g) "User") && negb (String.eqb (gSubjectKind g) "Group"))
     || String.eqb (gSubjectName g) "" then Err GrantNoSubject
  else if contains_char "/" (gSubjectName g) then Err GrantForeignSubject
  else if bool_decide (gPolicies g = []) then Err GrantNoPolicy
  else if String.eqb (gApprovedBy g) "" then Err GrantAwaiting
  else if String.eqb (gApprovedBy g) (gRequestedBy g) then Err GrantSelfApproved
  else
    match ParseGrantDuration (gDuration g) with
    | None => Err GrantBadDuration
    | Some d =>
        match ParseRFC3339 (gApprovedAt g) with
        | None => Err GrantBadTime
        | Some t => Ok (t, t + d)
        end
    end.

(** ** The policy world *)

Record Policy := mkPolicy {
  polName : string;
  polARN : string;
  polStatements : list Statement;
  polAppliesTo : list string;
  polReport : list string;
}.

Record World := mkWorld {
  wDocs : list Policy;
  wAttach : gmap string (list string);
  wBoundary : gmap string string;
  wInline : gmap string (list Policy);
  wEnforce : gmap string bool;
  wTemporary : gmap string (list TemporaryAttachment);
}.

Definition emptyWorld : World := mkWorld [] ∅ ∅ ∅ ∅ ∅.

(** ByName: a later document replaces an earlier one of the same name. *)
Fixpoint index_docs (docs : list Policy) (m : gmap string Policy) : gmap string Policy :=
  match docs with
  | [] => m
  | d :: docs => index_docs docs (if String.eqb (polName d) "" then m else <[polName d := d]> m)
  end.
Definition ByName (w : World) : gmap string Policy := index_docs (wDocs w) ∅.

(** One entry of an appliesTo list against a principal and its groups. *)
Definition entry_applies (e ptype pid : string) (groups : list string) : bool :=
  if String.eqb e "*" || String.eqb e (PolicyKey ptype pid) then true
  else
    match CutPrefix e StarInNamespacePrefix with
    | Some ns => HasPrefix pid (ns +:+ "/")
    | None =>
        match Cut e "::" with
        | Some (t, name) =>
            if String.eqb t "Group"
            then existsb (λ g, String.eqb (plain_group g) (plain_group name)) groups
            else false
        | None => false
        end
    end.

Definition AppliesTo (list_ : list string) (ptype pid : string) (groups : list string) : bool :=
  existsb (λ e, entry_applies e ptype pid groups) list_.

(** The keys a principal's attachments hang on: its own and its groups'. *)
Definition principal_keys (ptype pid : string) (groups : list string) : list string :=
  PolicyKey ptype pid :: map (λ g, PolicyKey "Group" (plain_group g)) groups.

Definition AttachedPolicyNames (attach : gmap string (list string)) (ptype pid : string)
    (groups : list string) : list string :=
  principal_keys ptype pid groups ≫= λ k, default [] (attach !! k).

Definition ActiveTemporary (w : World) (ptype pid : string) (groups : list string) (now : Z)
    : list TemporaryAttachment :=
  principal_keys ptype pid groups ≫= λ k,
    filter (λ a, ActiveAt a now) (default [] (wTemporary w !! k)).

Fixpoint repeat_str (n : nat) (s : string) : string :=
  match n with O => "" | S n => s +:+ repeat_str n s end.
Definition inlineName (p : Policy) (i : nat) : string :=
  if negb (String.eqb (polName p) "") then polName p else "#" +:+ repeat_str (i + 1) "i".

Definition rename (name : string) (p : Policy) : Policy :=
  mkPolicy name (polARN p) (polStatements p) (polAppliesTo p) (polReport p).

(** The inline policies of a key, under their qualified names. *)
Definition inline_of (w : World) (k : string) : list Policy :=
  imap (λ i p, rename ("inline:" +:+ k +:+ ":" +:+ inlineName p i) p) (default [] (wInline w !! k)).

(** [add]: once per name; a policy with no name is always added. *)
Fixpoint add_all (seen : gset string) (ps : list Policy) : list Policy :=
  match ps with
  | [] => []
  | p :: ps =>
      if String.eqb (polName p) "" then p :: add_all seen ps
      else if bool_decide (polName p ∈ seen) then add_all seen ps
      else p :: add_all ({[polName p]} ∪ seen) ps
  end.

(** The candidates of PoliciesAt, in order. *)
Definition candidates (w : World) (ptype pid : string) (groups : list string) (now : Z) : list Policy :=
  let named names := omap (λ n, ByName w !! n) names in
  filter (λ d, AppliesTo (polAppliesTo d) ptype pid groups) (wDocs w)
  ++ named (AttachedPolicyNames (wAttach w) ptype pid groups)
  ++ (ActiveTemporary w ptype pid groups now ≫= λ a, named (taPolicies a))
  ++ (principal_keys ptype pid groups ≫= inline_of w).

Definition PoliciesAt (w : World) (ptype pid : string) (groups : list string) (now : Z) : list Policy :=
  add_all ∅ (candidates w ptype pid groups now).

Definition StatementsFor (w : World) (ptype pid : string) (groups : list string) (now : Z) : list Statement :=
  PoliciesAt w ptype pid groups now ≫= polStatements.

(** BoundaryFor: whether there is one, and its statements; one that names no Policy has none. *)
Definition BoundaryFor (w : World) (ptype pid : string) : bool * list Statement :=
  match wBoundary w !! PolicyKey ptype pid with
  | None => (false, [])
  | Some name =>
      if String.eqb name "" then (false, [])
      else (true, match ByName w !! name with Some p => polStatements p | None => [] end)
  end.

Definition CoversService (actions : list string) (service : string) : bool :=
  existsb (λ a, String.eqb a "*" || HasPrefix a (service +:+ ":")) actions.

Definition NotActionsCoverService (notActions : list string) (service : string) : bool :=
  if bool_decide (notActions = []) then false
  else negb (existsb (λ na, String.eqb na "*" || String.eqb na (service +:+ ":*")) notActions).

Definition ServiceOf (action : string) : string :=
  match Cut action ":" with
  | Some (svc, _) => if String.eqb svc "" then action else svc
  | None => action
  end.

(** ** Loading grants *)

(** A Grant as listed: its namespace, name and spec. *)
Record grant_item := mkGrantItem { giNamespace : string; giName : string; giSpec : GrantSpec }.

(** One item of loadGrants. *)
Definition load_grant (home : string) (defined : string → bool) (now : Z) (it : grant_item)
    (temporary : gmap string (list TemporaryAttachment)) : gmap string (list TemporaryAttachment) :=
  match GrantWindow (giSpec it) with
  | Err _ => temporary
  | Ok (from, until) =>
      if negb (now <? until) then temporary
      else
        let ns := if String.eqb (giNamespace it) "" then home else giNamespace it in
        let names := filter (λ n, n ≠ "")
          (map (λ ref, ResolvePolicyRef home ns ref defined) (gPolicies (giSpec it))) in
        if bool_decide (names = []) then temporary
        else
          let key := PolicyKey (gSubjectKind (giSpec it)) (QualifiedName home ns (gSubjectName (giSpec it))) in
          <[key := default [] (temporary !! key) ++
              [mkTemporary (QualifiedName home ns (giName it)) names from until]]> temporary
  end.

Definition loadGrants (home : string) (defined : string → bool) (now : Z) (items : list grant_item)
    : gmap string (list TemporaryAttachment) :=
  foldl (λ t it, load_grant home defined now it t) ∅ items.

(** ** The cache *)

Record Cache := mkCache {
  cTTL : Z;
  cCache : World;
  cErr : option string;
  cFetched : Z;
  cSeeded : bool;
  cGen : Z;
}.

Definition NewCache (ttl : Z) : Cache := mkCache ttl emptyWorld None 0 false 0.

(** Get with a loader configured: [load] is what the loader returns if it is called, [now] and [now'] the
    clock before and after. *)
Definition Get (c : Cache) (now now' : Z) (load : World * option string)
    : (World * Z * option string) * Cache :=
  if cSeeded c && (now - cFetched c <? cTTL c) then ((cCache c, cGen c, cErr c), c)
  else
    let '(w, err) := load in
    if bool_decide (is_Some err) && cSeeded c
    then ((cCache c, cGen c, cErr c), mkCache (cTTL c) (cCache c) (cErr c) now' (cSeeded c) (cGen c))
    else
      let gen := (cGen c + 1) mod 2 ^ 64 in
      ((w, gen, err), mkCache (cTTL c) w err now' true gen).

(** A history of Gets: the results, newest first, and the cache. *)
Inductive history (ttl : Z) : list (World * Z * option string) → Cache → Prop :=
| hist_new : history ttl [] (NewCache ttl)
| hist_get rs c now now' load r c' :
    history ttl rs c → Get c now now' load = (r, c') → history ttl (r :: rs) c'.

(** ** Canonical names *)

Lemma cut_slash_spec id ns name :
  cut_slash id = Some (ns, name) → id = ns +:+ "/" +:+ name ∧ ns ≠ "" ∧ contains_char "/" ns = false.
Proof.
  unfold cut_slash. destruct (Cut id "/") as [[a b]|] eqn:E; [|done].
  destruct (String.eqb_spec a ""); [done|]. intros [= <- <-].
  split_and!; [by apply Cut_spec|done|by eapply Cut_char_before].
Qed.

Lemma cut_slash_join ns name :
  ns ≠ "" → contains_char "/" ns = false → cut_slash (ns +:+ "/" +:+ name) = Some (ns, name).
Proof.
  intros Hne Hns. unfold cut_slash. change (ns +:+ "/" +:+ name) with (ns +:+ String "/" "" +:+ name).
  rewrite Cut_app_first by done. by destruct (String.eqb_spec ns "").
Qed.

Lemma cut_slash_none name : contains_char "/" name = false → cut_slash name = None.
Proof. intros H. unfold cut_slash. by rewrite (proj2 (Cut_None_char "/" name)). Qed.

(** canonical names are faithful: an object's namespace and name are read back from its canonical id,
    so two objects with the same id are the same object, and a name of another namespace is never
    mistaken for one of the home namespace. *)
Theorem SplitQualified_QualifiedName (home ns name : string)
    (Hns : contains_char "/" ns = false) (Hname : contains_char "/" name = false) :
  SplitQualified home (QualifiedName home ns name) = (if String.eqb ns "" then home else ns, name).
Proof.
  unfold SplitQualified, QualifiedName. destruct (String.eqb_spec ns "") as [->|Hne]; cbn [orb].
  { by rewrite cut_slash_none. }
  destruct (String.eqb_spec ns home) as [->|Hh]; [by rewrite cut_slash_none|].
  by rewrite cut_slash_join.
Qed.

Lemma SplitQualified_QualifiedName_witness :
  SplitQualified DefaultHomeNamespace (QualifiedName DefaultHomeNamespace "team-a" "deployer")
  = ("team-a", "deployer").
Proof.
  refine (SplitQualified_QualifiedName DefaultHomeNamespace "team-a" "deployer" _ _); vm_compute; reflexivity.
Defined.

(** ** What a namespaced Policy can reach *)

Lemma Cut_typed_rest e typ name y :
  Cut e "::" = Some (typ, name) → Cut (typ +:+ "::" +:+ y) "::" = Some (typ, y).
Proof.
  revert typ. induction e as [|c e IH]; intros typ; rewrite Cut_unfold; [done|].
  destruct (CutPrefix (String c e) "::") as [r|] eqn:E.
  { intros [= <- _]. change ("" +:+ "::" +:+ y) with ("::" +:+ y). rewrite Cut_unfold. by rewrite (proj2 (CutPrefix_spec _ _ _) eq_refl). }
  intros ([a b] & Hc & [= <- <-])%bind_Some. rewrite Cut_unfold.
  change (String c a +:+ "::" +:+ y) with (String c (a +:+ "::" +:+ y)).
  rewrite (proj2 (CutPrefix_None_iff _ _)); [by rewrite (IH a Hc)|].
  intros r [= -> Hr]. apply Cut_spec in Hc. subst e. destruct a as [|d a].
  - by apply CutPrefix_None_iff with (r := ":" +:+ b) in E.
  - injection Hr as -> _. by apply CutPrefix_None_iff with (r := a +:+ "::" +:+ b) in E.
Qed.

(** What one entry of a namespaced Policy becomes. *)
Lemma canon_entry_namespaced home ns e x :
  ns ≠ "" → ns ≠ home → x ∈ canon_entry home ns e →
  x = StarInNamespacePrefix +:+ ns ∨
  ∃ typ name bare, Cut e "::" = Some (typ, name) ∧ typ ≠ "Group" ∧
                   x = typ +:+ "::" +:+ (ns +:+ "/" +:+ bare).
Proof.
  intros Hne Hh. unfold canon_entry.
  destruct (String.eqb_spec ns ""); [done|]. destruct (String.eqb_spec ns home); [done|]. cbn [orb negb andb].
  assert (HQ : ∀ b, QualifiedName home ns b = ns +:+ "/" +:+ b).
  { intros b. unfold QualifiedName. destruct (String.eqb_spec ns ""); [done|].
    by destruct (String.eqb_spec ns home). }
  destruct (String.eqb e "*"); [intros ->%list_elem_of_singleton; by left|].
  destruct (Cut e "::") as [[typ name]|]; [|by intros ?%not_elem_of_nil].
  destruct (String.eqb name ""); [by intros ?%not_elem_of_nil|].
  destruct (String.eqb_spec typ "Group"); [by intros ?%not_elem_of_nil|].
  destruct (cut_slash name) as [[ns' bare]|].
  - destruct (String.eqb_spec ns' ns) as [->|]; cbn [negb]; [|by intros ?%not_elem_of_nil].
    intros ->%list_elem_of_singleton. right. exists typ, name, bare. by rewrite HQ.
  - intros ->%list_elem_of_singleton. right. exists typ, name, name. by rewrite HQ.
Qed.

(** a Policy outside the home namespace governs only principals of its own namespace: whatever its
    appliesTo says, it never applies to a home principal, to a principal of another namespace, or through
    a group. *)
Theorem namespaced_policy_confined (home ns : string) (entries : list string) (t : PrincipalType)
    (pid : string) (groups : list string)
    (Hne : ns ≠ "") (Hhome : ns ≠ home) (Hpid : contains_char ":" pid = false)
    (Happ : AppliesTo (CanonAppliesTo home ns entries) (type_name t) pid groups = true) :
  ∃ name, pid = ns +:+ "/" +:+ name.
Proof.
  unfold AppliesTo, CanonAppliesTo in Happ. apply existsb_exists in Happ as (x & Hx & Happ).
  apply list_elem_of_In, list_elem_of_bind in Hx as (e & Hx & _).
  assert (Htype : contains_char ":" (type_name t) = false) by by destruct t.
  assert (Hpre : ∀ z, HasPrefix pid (z +:+ "/") = true → ∃ name, pid = z +:+ "/" +:+ name).
  { intros z [r ->]%HasPrefix_spec. exists r. by rewrite append_assoc. }
  apply canon_entry_namespaced in Hx as [->|(typ & name & bare & Hc & Hg & ->)]; [| |done..];
    unfold entry_applies in Happ.
  - change (String.eqb (StarInNamespacePrefix +:+ ns) "*") with false in Happ. cbn [orb] in Happ.
    destruct (String.eqb_spec (StarInNamespacePrefix +:+ ns) (PolicyKey (type_name t) pid)) as [Heq|_];
      [by destruct t|].
    rewrite (proj2 (CutPrefix_spec _ _ _) eq_refl) in Happ. by apply Hpre.
  - destruct (String.eqb_spec (typ +:+ "::" +:+ (ns +:+ "/" +:+ bare)) "*") as [Heq|_].
    { destruct typ as [|c typ]; [done|]. injection Heq as _ Heq. by destruct typ. }
    cbn [orb] in Happ.
    destruct (String.eqb_spec (typ +:+ "::" +:+ (ns +:+ "/" +:+ bare)) (PolicyKey (type_name t) pid))
      as [Heq|_].
    { apply typed_inj in Heq as [_ <-]; [by exists bare|done..]. }
    destruct (CutPrefix _ _) as [z|] eqn:Ez.
    { apply CutPrefix_spec in Ez. apply Hpre in Happ as [r ->]. exfalso.
      assert (Hz : contains_char ":" (StarInNamespacePrefix +:+ z) = true)
        by (rewrite <- Ez, contains_char_append; cbn; apply orb_true_r).
      rewrite contains_char_append in Hpid, Hz. cbn in Hz. by rewrite Hz in Hpid. }
    rewrite (Cut_typed_rest _ _ _ _ Hc) in Happ. by destruct (String.eqb_spec typ "Group").
Qed.

Lemma namespaced_policy_confined_witness :
  AppliesTo (CanonAppliesTo "home" "team-a" ["*"; "User::team-b/bob"]) "User" "team-a/ann" [] = true ∧
  ∃ name, "team-a/ann" = "team-a" +:+ "/" +:+ name.
Proof.
  assert (H : AppliesTo (CanonAppliesTo "home" "team-a" ["*"; "User::team-b/bob"]) "User" "team-a/ann" [] = true)
    by (vm_compute; reflexivity).
  split; [exact H|].
  refine (namespaced_policy_confined "home" "team-a" ["*"; "User::team-b/bob"] User "team-a/ann" [] _ _ _ H);
    [done|done|vm_compute; reflexivity].
Defined.

(** a reference on a principal outside the home namespace resolves only to a Policy of its own
    namespace or of home, when no name in it holds a second "/". *)
Theorem ResolvePolicyRef_confined (home pns ref : string) (exists_ : string → bool)
    (Hp : pns ≠ home) (Hpns : contains_char "/" pns = false) (Hne : pns ≠ "")
    (Hone : ∀ ns name, cut_slash ref = Some (ns, name) → contains_char "/" name = false)
    (Hlead : cut_slash ref = None → contains_char "/" ref = false)
    (Hok : ResolvePolicyRef home pns ref exists_ ≠ "") :
  (SplitQualified home (ResolvePolicyRef home pns ref exists_)).1 = pns ∨
  (SplitQualified home (ResolvePolicyRef home pns ref exists_)).1 = home.
Proof.
  unfold ResolvePolicyRef in *. destruct (String.eqb_spec pns home) as [|_]; [done|]. cbn [negb andb] in *.
  assert (Hown : ∀ n, contains_char "/" n = false → (SplitQualified home n).1 = home).
  { intros n Hn. unfold SplitQualified. by rewrite cut_slash_none. }
  assert (HQ : ∀ n, (SplitQualified home (QualifiedName home pns n)).1 = pns).
  { intros n. unfold QualifiedName, SplitQualified. destruct (String.eqb_spec pns ""); [done|].
    destruct (String.eqb_spec pns home); [done|]. cbn [orb]. by rewrite cut_slash_join. }
  destruct (cut_slash ref) as [[ns name]|] eqn:Ec.
  - destruct (String.eqb_spec ns pns) as [->|Hn1]; cbn [negb andb] in *; [by left|].
    destruct (String.eqb_spec ns home) as [->|Hn2]; cbn [negb] in *; [|done].
    right. unfold QualifiedName. rewrite String.eqb_refl, orb_true_r. apply Hown. by eapply Hone.
  - destruct (exists_ (QualifiedName home pns ref)); [by left|]. right. by apply Hown, Hlead.
Qed.

Lemma ResolvePolicyRef_confined_witness :
  (SplitQualified "home" (ResolvePolicyRef "home" "team-a" "home/ReadOnly" (λ _, false))).1 = "team-a" ∨
  (SplitQualified "home" (ResolvePolicyRef "home" "team-a" "home/ReadOnly" (λ _, false))).1 = "home".
Proof.
  refine (ResolvePolicyRef_confined "home" "team-a" "home/ReadOnly" (λ _, false) _ _ _ _ _ _).
  - done.
  - vm_compute. reflexivity.
  - done.
  - intros ns name H. vm_compute in H. injection H as <- <-. vm_compute. reflexivity.
  - intros H. vm_compute in H. discriminate H.
  - vm_compute. done.
Defined.

(** With a second "/", the home prefix is stripped without a look at what follows: the reference reaches
    any namespace. *)
Lemma ResolvePolicyRef_escapes :
  ResolvePolicyRef "home" "team-a" "home/team-b/admin" (λ _, false)
  = QualifiedName "home" "team-b" "admin".
Proof. vm_compute. reflexivity. Qed.

(** ** Temporary access *)

Lemma ParseGrantDuration_bounds s d : ParseGrantDuration s = Some d → 0 < d ≤ MaxGrantDuration.
Proof.
  unfold ParseGrantDuration. destruct (String.eqb s ""); [done|]. intros (x & _ & Hx)%bind_Some.
  destruct ((x <=? 0) || (MaxGrantDuration <? x)) eqn:E; [done|]. injection Hx as <-.
  apply orb_false_iff in E as [H1%Z.leb_gt H2%Z.ltb_ge]. lia.
Qed.

(** a Grant gives access only after a second person approved it, to a subject of its own namespace,
    and only for a while: its window opens at the approval and closes at most 24 hours later, and outside
    it the Grant attaches nothing. *)
Theorem GrantWindow_bounded (g : GrantSpec) (from until now : Z)
    (H : GrantWindow g = Ok (from, until)) :
  gApprovedBy g ≠ "" ∧ gApprovedBy g ≠ gRequestedBy g ∧ gPolicies g ≠ [] ∧
  contains_char "/" (gSubjectName g) = false ∧ ParseRFC3339 (gApprovedAt g) = Some from ∧
  0 < until - from ≤ MaxGrantDuration ∧
  (∀ grant ps, ActiveAt (mkTemporary grant ps from until) now = true ↔ from ≤ now < until).
Proof.
  unfold GrantWindow in H. revert H. destruct (_ || String.eqb (gSubjectName g) ""); [done|].
  destruct (contains_char "/" (gSubjectName g)); [done|].
  destruct (bool_decide_reflect (gPolicies g = [])); [done|].
  destruct (String.eqb_spec (gApprovedBy g) ""); [done|].
  destruct (String.eqb_spec (gApprovedBy g) (gRequestedBy g)); [done|].
  destruct (ParseGrantDuration (gDuration g)) as [d|] eqn:Ed; [|done].
  destruct (ParseRFC3339 (gApprovedAt g)) as [t|] eqn:Et; [|done]. intros [= <- <-].
  apply ParseGrantDuration_bounds in Ed. split_and!; try done; try lia.
  intros grant ps. unfold ActiveAt. cbn. rewrite andb_true_iff, negb_true_iff, Z.ltb_ge, Z.ltb_lt. lia.
Qed.

Lemma GrantWindow_bounded_witness :
  let g := mkGrant "User" "ann" ["admin"] "4h" "ann" "bob" "2024-02-29T12:30:00Z" in
  ∃ from until, GrantWindow g = Ok (from, until) ∧ gApprovedBy g ≠ gRequestedBy g.
Proof.
  eexists _, _. split; [vm_compute; reflexivity|].
  refine (proj1 (proj2 (GrantWindow_bounded (mkGrant "User" "ann" ["admin"] "4h" "ann" "bob" "2024-02-29T12:30:00Z")
    (1709209800 * second) (1709224200 * second) 0 _))).
  vm_compute. reflexivity.
Defined.

(** ** The policies of a principal *)

Lemma add_all_spec seen ps :
  (∀ p, p ∈ add_all seen ps → p ∈ ps ∧ (polName p = "" ∨ polName p ∉ seen)) ∧
  (∀ p, p ∈ ps → polName p ∉ seen →
    polName p = "" ∧ p ∈ add_all seen ps ∨ ∃ q, q ∈ add_all seen ps ∧ polName q = polName p) ∧
  NoDup (filter (λ n, n ≠ "") (map polName (add_all seen ps))).
Proof.
  revert seen. induction ps as [|p ps IH]; intros seen; cbn [add_all].
  { split_and!; [set_solver|set_solver|constructor]. }
  destruct (String.eqb_spec (polName p) "") as [He|Hne].
  { destruct (IH seen) as (IH1 & IH2 & IH3). split_and!.
    - intros q [->|Hq]%elem_of_cons; [split; [by left|by left]|]. destruct (IH1 q Hq). split; [by right|done].
    - intros q [->|Hq]%elem_of_cons Hs; [left; split; [done|by left]|].
      destruct (IH2 q Hq Hs) as [[? ?]|(r & ? & ?)]; [left; split; [done|by right]|right; exists r].
      split; [by right|done].
    - cbn [map]. rewrite filter_cons_False by (intros H; by apply H). done. }
  case_bool_decide as Hin.
  { destruct (IH seen) as (IH1 & IH2 & IH3). split_and!; [|intros q [->|Hq]%elem_of_cons Hs; [done|by apply IH2]|done].
    intros q Hq. destruct (IH1 q Hq). split; [by right|done]. }
  destruct (IH ({[polName p]} ∪ seen)) as (IH1 & IH2 & IH3). split_and!.
  - intros q [->|Hq]%elem_of_cons; [split; [by left|by right]|]. destruct (IH1 q Hq) as [? Hs].
    split; [by right|set_solver].
  - intros q [->|Hq]%elem_of_cons Hs; [right; exists p; split; [by left|done]|].
    destruct (decide (polName q = polName p)) as [Heq|Hd]; [right; exists p; split; [by left|done]|].
    destruct (IH2 q Hq ltac:(set_solver)) as [[? ?]|(r & ? & ?)]; [left; split; [done|by right]|].
    right. exists r. split; [by right|done].
  - cbn [map]. rewrite filter_cons_True by done. constructor; [|done].
    intros (Hn & Hm)%list_elem_of_filter. apply list_elem_of_fmap in Hm as (q & Hqn & Hq).
    apply IH1 in Hq as [_ [Hq|Hq]]; [congruence|]. rewrite <- Hqn in Hq. set_solver.
Qed.

Lemma index_docs_lookup docs m n d :
  NoDup (map polName docs) → (∀ x, x ∈ docs → polName x ≠ "") →
  index_docs docs m !! n = Some d ↔
  (d ∈ docs ∧ polName d = n) ∨ (m !! n = Some d ∧ n ∉ map polName docs).
Proof.
  revert m. induction docs as [|x docs IH]; intros m; cbn [index_docs map].
  { intros _ _. set_solver. }
  intros [Hx Hnd]%NoDup_cons Hne. destruct (String.eqb_spec (polName x) "") as [He|_].
  { by destruct (Hne x (list_elem_of_here _ _)). }
  rewrite IH; [|done|set_solver]. rewrite !elem_of_cons, lookup_insert_Some. split.
  - intros [[? ?]|[[[? ->]|[? ?]] ?]]; [left; auto|left; auto|right; split; [done|]]. intros [->|?]; done.
  - intros [[[->|?] <-]|[? ?]].
    + right. split; [by left|done].
    + by left.
    + right. split; [right; split; [intros <-|]; tauto|tauto].
Qed.

(** The documents a world may hold: named, once each, with the names of Kubernetes objects. *)
Definition wf_world (w : World) : Prop :=
  NoDup (map polName (wDocs w)) ∧
  ∀ d, d ∈ wDocs w → polName d ≠ "" ∧ contains_char ":" (polName d) = false.

Lemma ByName_lookup w n d :
  wf_world w → ByName w !! n = Some d ↔ d ∈ wDocs w ∧ polName d = n.
Proof.
  intros [Hnd Hd]. unfold ByName. rewrite index_docs_lookup; [|done|by intros x Hx; apply (Hd x Hx)].
  rewrite lookup_empty. naive_solver.
Qed.

Lemma named_elem w (names : list string) d :
  wf_world w → d ∈ omap (λ n, ByName w !! n) names ↔ d ∈ wDocs w ∧ polName d ∈ names.
Proof.
  intros Hw. rewrite list_elem_of_omap. setoid_rewrite (ByName_lookup w _ _ Hw). naive_solver.
Qed.

Definition attaches (w : World) (ptype pid : string) (groups : list string) (now : Z) (d : Policy) : Prop :=
  AppliesTo (polAppliesTo d) ptype pid groups = true ∨
  polName d ∈ AttachedPolicyNames (wAttach w) ptype pid groups ∨
  ∃ a, a ∈ ActiveTemporary w ptype pid groups now ∧ polName d ∈ taPolicies a.

Lemma candidates_elem w ptype pid groups now d :
  wf_world w →
  d ∈ candidates w ptype pid groups now ↔
  (d ∈ wDocs w ∧ attaches w ptype pid groups now d) ∨
  ∃ k, k ∈ principal_keys ptype pid groups ∧ d ∈ inline_of w k.
Proof.
  intros Hw. unfold candidates, attaches. rewrite !elem_of_app, list_elem_of_filter, (named_elem _ _ _ Hw),
    !list_elem_of_bind. setoid_rewrite (named_elem _ _ _ Hw). rewrite Is_true_true. naive_solver.
Qed.

Lemma inline_name w k d : d ∈ inline_of w k → contains_char ":" (polName d) = true.
Proof.
  unfold inline_of. intros (i & Hi)%list_elem_of_lookup_1. rewrite list_lookup_imap in Hi.
  apply fmap_Some in Hi as (p & _ & ->). done.
Qed.

(** exactly the policies that apply are gathered: a Policy of the world is in the list of a
    principal when, and only when, its appliesTo names the principal or a group of it, it is attached to
    one of them, or a Grant whose window is open attaches it; and no Policy is there twice.  So no Deny is
    ever lost, and an expired Grant attaches nothing. *)
Theorem PoliciesAt_spec (w : World) (ptype pid : string) (groups : list string) (now : Z)
    (Hw : wf_world w) :
  (∀ d, d ∈ wDocs w → d ∈ PoliciesAt w ptype pid groups now ↔ attaches w ptype pid groups now d) ∧
  (∀ p, p ∈ PoliciesAt w ptype pid groups now → p ∈ wDocs w ∨
     ∃ k, k ∈ principal_keys ptype pid groups ∧ p ∈ inline_of w k) ∧
  NoDup (filter (λ n, n ≠ "") (map polName (PoliciesAt w ptype pid groups now))).
Proof.
  unfold PoliciesAt. destruct (add_all_spec ∅ (candidates w ptype pid groups now)) as (H1 & H2 & H3).
  split_and!; [|intros p [Hp _]%H1; apply candidates_elem in Hp; naive_solver|done].
  intros d Hd. destruct (proj2 Hw d Hd) as [Hne Hcol]. split.
  - intros [Hc _]%H1. apply candidates_elem in Hc as [[_ Ha]|(k & _ & Hk%inline_name)]; [done|congruence|done].
  - intros Ha. assert (Hc : d ∈ candidates w ptype pid groups now) by (apply candidates_elem; auto).
    destruct (H2 d Hc ltac:(set_solver)) as [[? _]|(q & Hq & Hname)]; [done|].
    destruct (H1 q Hq) as [Hqc _]. apply candidates_elem in Hqc as [[Hqd _]|(k & _ & Hk%inline_name)]; [|congruence|done].
    replace d with q; [done|].
    assert (E1 : ByName w !! polName d = Some q) by by apply ByName_lookup.
    assert (E2 : ByName w !! polName d = Some d) by by apply ByName_lookup.
    congruence.
Qed.

Definition demo_world : World :=
  let deny := mkPolicy "no-deletes" "" [] ["Group::eng"] [] in
  let admin := mkPolicy "admin" "" [] [] [] in
  mkWorld [deny; admin] ∅ ∅ ∅ ∅ {["User::ann" := [mkTemporary "g" ["admin"] 100 200]]}.

Lemma PoliciesAt_spec_witness :
  map polName (PoliciesAt demo_world "User" "ann" ["openinfra:eng"] 150) = ["no-deletes"; "admin"] ∧
  map polName (PoliciesAt demo_world "User" "ann" ["openinfra:eng"] 200) = ["no-deletes"] ∧
  ∀ d, d ∈ wDocs demo_world →
    d ∈ PoliciesAt demo_world "User" "ann" ["eng"] 150 ↔ attaches demo_world "User" "ann" ["eng"] 150 d.
Proof.
  split; [vm_compute; reflexivity|]. split; [vm_compute; reflexivity|].
  refine (proj1 (PoliciesAt_spec demo_world "User" "ann" ["eng"] 150 _)). split.
  - cbn. repeat constructor; set_solver.
  - intros d [->|[->|[]%not_elem_of_nil]%elem_of_cons]%elem_of_cons; done.
Defined.

(** ** The cache *)

(** The two ways a Get ends: the cached world, or a freshly loaded one. *)
Lemma Get_cases c now now' load r c' :
  Get c now now' load = (r, c') →
  (cSeeded c = true ∧ r = (cCache c, cGen c, cErr c) ∧
   cCache c' = cCache c ∧ cGen c' = cGen c ∧ cErr c' = cErr c ∧ cSeeded c' = true) ∨
  ((cSeeded c = true → load.2 = None) ∧ r = (load.1, (cGen c + 1) mod 2 ^ 64, load.2) ∧
   cCache c' = load.1 ∧ cGen c' = (cGen c + 1) mod 2 ^ 64 ∧ cErr c' = load.2 ∧ cSeeded c' = true).
Proof.
  unfold Get. destruct load as [w err]. destruct (cSeeded c) eqn:Es; cbn [andb].
  - destruct (now - cFetched c <? cTTL c); [intros [= <- <-]; left; by rewrite Es|].
    rewrite andb_true_r. case_bool_decide as He; intros [= <- <-]; [by left|].
    right. split_and!; try done. intros _. destruct err; [by destruct He|done].
  - rewrite andb_false_r. intros [= <- <-]. right. by split_and!.
Qed.

Record cache_inv (rs : list (World * Z * option string)) (c : Cache) : Prop := {
  ci_gen : 0 ≤ cGen c ≤ len rs;
  ci_seeded : if cSeeded c then 1 ≤ cGen c else rs = [];
  ci_current : ∀ w g e, (w, g, e) ∈ rs → 1 ≤ g ≤ cGen c ∧ (g = cGen c → w = cCache c ∧ e = cErr c);
  ci_good : ∀ w g, (w, g, None) ∈ rs → cErr c = None;
  ci_same : ∀ w g e w' g' e', (w, g, e) ∈ rs → (w', g', e') ∈ rs → g = g' → w = w' ∧ e = e';
}.

Lemma cache_inv_step rs c now now' load r c' :
  cache_inv rs c → len rs + 1 < 2 ^ 64 → Get c now now' load = (r, c') → cache_inv (r :: rs) c'.
Proof.
  intros [Hg Hs Hc Hgood Hsame] Hlen [(Es & -> & E1 & E2 & E3 & E4)|(Hld & -> & E1 & E2 & E3 & E4)]%Get_cases.
  - rewrite Es in Hs. split; rewrite ?E1, ?E2, ?E3, ?E4, ?len_cons; [lia|lia| | |].
    + intros w g e [[= -> -> ->]|Hin]%elem_of_cons; [by split; [lia|]|by apply Hc].
    + intros w g [[= _ _ ->]|Hin]%elem_of_cons; [done|by eapply Hgood].
    + intros w g e w' g' e' [[= -> -> ->]|H1]%elem_of_cons [[= -> -> ->]|H2]%elem_of_cons Heq.
      * done.
      * subst g'. destruct (Hc _ _ _ H2) as [_ Hcur]. destruct (Hcur eq_refl). by subst.
      * subst g. destruct (Hc _ _ _ H1) as [_ Hcur]. destruct (Hcur eq_refl). by subst.
      * by eapply Hsame.
  - rewrite Z.mod_small in E2 |- * by lia. destruct load as [lw le]. cbn in *.
    split; rewrite ?E1, ?E2, ?E3, ?E4, ?len_cons; [lia|lia| | |].
    + intros w g e [[= -> -> ->]|Hin]%elem_of_cons; [by split; [lia|]|].
      destruct (Hc _ _ _ Hin) as [Hb _]. split; [lia|]. intros. lia.
    + intros w g [[= _ _ ->]|Hin]%elem_of_cons; [done|].
      destruct (cSeeded c); [by apply Hld|]. subst rs. by apply not_elem_of_nil in Hin.
    + intros w g e w' g' e' [[= -> -> ->]|H1]%elem_of_cons [[= -> -> ->]|H2]%elem_of_cons Heq.
      * done.
      * destruct (Hc _ _ _ H2) as [Hb _]. lia.
      * destruct (Hc _ _ _ H1) as [Hb _]. lia.
      * by eapply Hsame.
Qed.

Lemma history_inv ttl rs c : history ttl rs c → len rs < 2 ^ 64 → cache_inv rs c.
Proof.
  induction 1 as [|rs c now now' load r c' _ IH Hget].
  - intros _. split; cbn; [unfold len; cbn; lia|done|set_solver..].
  - rewrite len_cons. intros Hlen. eapply cache_inv_step; [apply IH; lia|lia|done].
Qed.

(** the cache never lets a control-plane fault deny traffic it could serve, and never mixes worlds:
    once an answer was a successfully loaded world, so is every later one; and two answers of the same
    generation are the same world, so what was compiled for a generation stays valid for it. *)
Theorem cache_consistent (ttl : Z) (rs later : list (World * Z * option string)) (c : Cache)
    (w : World) (g : Z) (r : World * Z * option string)
    (H : history ttl (r :: later ++ (w, g, None) :: rs) c)
    (Hlen : len (r :: later ++ (w, g, None) :: rs) < 2 ^ 64) :
  r.2 = None ∧ (r.1.2 = g → r.1.1 = w).
Proof.
  pose proof (history_inv _ _ _ H Hlen) as [_ _ Hc Hgood Hsame]. destruct r as [[rw rg] re]. cbn.
  split.
  - assert (Hin : (rw, rg, re) ∈ (rw, rg, re) :: later ++ (w, g, None) :: rs) by left.
    inversion H as [|? c0 n n' ld ? ? Hh Hget]; subst. rewrite len_cons in Hlen.
    pose proof (history_inv _ _ _ Hh ltac:(lia)) as [_ Hs0 _ Hgood0 _].
    assert (Hok : cErr c0 = None) by (apply (Hgood0 w g); rewrite elem_of_app; right; left).
    apply Get_cases in Hget as [(_ & Hr & _)|(Hld & Hr & _)]; injection Hr as _ _ ->; [done|].
    destruct (cSeeded c0); [by apply Hld|]. by destruct later.
  - intros ->. apply (Hsame rw g re w g None); [by left| |done]. right. rewrite elem_of_app. right. by left.
Qed.

Lemma cache_consistent_witness :
  ∃ rs c, history 60 rs c ∧ map (λ r, (r.1.2, r.2)) rs = [(1, None); (1, None)].
Proof.
  assert (H : ∃ rs c, history 60 rs c ∧ map (λ r, (r.1.2, r.2)) rs = [(1, None); (1, None)] ∧
    ∃ later r, rs = r :: later ++ [(emptyWorld, 1, None)] ∧ len rs < 2 ^ 64).
  { eexists _, _. split.
    - eapply hist_get; [eapply hist_get; [apply hist_new|]|].
      + exact (eq_refl (Get (NewCache 60) 0 5 (emptyWorld, None))).
      + exact (eq_refl (Get _ 100 105 (emptyWorld, Some "unreachable"))).
    - split; [vm_compute; reflexivity|]. eexists [], _. split; [reflexivity|vm_compute; reflexivity]. }
  destruct H as (rs & c & H & Hm & later & r & -> & Hl).
  pose proof (cache_consistent 60 [] later c emptyWorld 1 r H Hl) as [Hn _].
  eauto.
Defined.
