(* ===== verification/IamCompile.v ===== *)
(** * Compiling policy documents (console-api/internal/iamauthz/compile.go)

    From decoded AWS policy statements to the engine's statements, and the principals of a resource-based
    policy.  A document is the value encoding/json decodes it to. *)

From S2P Require Import Prelude GoStrings Json PolicyEngine IamImport IamWorld.
#[local] Open Scope string_scope.
#[local] Open Scope Z_scope.
#[local] Open Scope list_scope.

Definition resourceAccountKey : string := "resourceAccount".
Definition principalAccountKey : string := "principalAccount".
Definition rawARNPrefix : string := "ARN::".
Definition operatorActions : string := "openinfra-operator:*".
Definition operatorPrefix : string := "openinfra-operator:".

Definition str (v : json) : string := match v with JStr s => s | _ => "" end.

Definition list_of (v : json) : list string :=
  match v with JStr s => [s] | JArr l => strings_of l | _ => [] end.

(** ** Documents *)

Inductive compile_error :=
| ErrDocument
| ErrStatementShape
| ErrAt (i : nat) (e : compile_error)
| ErrEffectValue
| ErrActionAndNotAction
| ErrResourceAndNotResource
| ErrPrincipalShape
| ErrPrincipalType (k : string).

Definition as_object (v : json) : res compile_error (list (string * json)) :=
  match v with
  | JObj m => Ok m
  | JNull => Ok []
  | _ => Err ErrStatementShape
  end.

(** documentStatements, on the document's members: the last one whose name is Statement in any case. *)
Definition documentStatements (doc : json) : res compile_error (list (list (string * json))) :=
  match doc with
  | JNull => Ok []
  | JObj members =>
      match last (filter (λ kv, EqualFold "Statement" kv.1 = true) members) with
      | None => Ok []
      | Some (_, JNull) => Ok []
      | Some (_, JArr l) => mapM as_object l
      | Some (_, JObj m) => Ok [m]
      | Some _ => Err ErrStatementShape
      end
  | _ => Err ErrDocument
  end.

(** ** Resources *)

Definition arnAccount (arn : string) : string :=
  match SplitN arn ":" 6 with
  | [_; _; _; _; acct; _] => acct
  | _ => ""
  end.

(** What a part of a statement that could not be honoured is reported as. *)
Inductive why := WhyShape | WhyImport (e : import_error) | WhyUnsupported (l : list unsupported).
Inductive note := AllowDropped (w : why) | DenyUnconditional (w : why) | NoAction.

Section Compile.
(** types.ParseIPAddr and types.ParseDatetime of Cedar: whether they accept a string. *)
Context (IPParses TimeParses : string → bool).

(** typedARN: the importer, on a one-statement document that names the ARN. *)
Definition typedARN (arn : string) : option string :=
  match ImportAWS IPParses TimeParses
          [[("Action", JStr "*"); ("Effect", JStr Allow); ("Resource", JStr (json_string arn))]] with
  | Ok ([s], []) =>
      match sResources s with
      | [r] => if String.eqb r "*" then None else Some r
      | _ => None
      end
  | _ => None
  end.

Definition mapResource (arn : string) : string * string :=
  if String.eqb arn "*" || String.eqb arn "" then ("*", "")
  else if negb (HasPrefix arn "arn:") then (arn, "")
  else
    let acct := arnAccount arn in
    let acct := if String.eqb acct "*" then "" else acct in
    match typedARN arn with
    | Some typed => (typed, acct)
    | None => (rawARNPrefix +:+ arn, "")
    end.

(** importCondition: the importer, on a one-statement document that carries the block. *)
Definition importCondition (effect : string) (cond : json) : conditions + why :=
  match cond with
  | JObj _ =>
      match ImportAWS IPParses TimeParses
              [[("Action", JStr "*"); ("Condition", cond); ("Effect", JStr effect); ("Resource", JStr "*")]] with
      | Err e => inr (WhyImport e)
      | Ok ([s], []) =>
          inl (mkConditions (sCondition s) (sIPConditions s) (sLikeConditions s) (sTimeConditions s)
                 (sKeyConditions s))
      | Ok (_, un) => inr (WhyUnsupported un)
      end
  | _ => inr WhyShape
  end.

(** ** Statements *)

Definition reserveOperator (notActions : list string) : list string :=
  if contains_str operatorActions notActions then notActions else notActions ++ [operatorActions].

(** The resources grouped by the account their ARN names, in the order the accounts are met. *)
Fixpoint add_to_group (acct typed : string) (groups : list (string * list string)) : list (string * list string) :=
  match groups with
  | [] => [(acct, [typed])]
  | (a, rs) :: groups =>
      if String.eqb a acct then (a, rs ++ [typed]) :: groups else (a, rs) :: add_to_group acct typed groups
  end.
Definition byAcct (arns : list string) : list (string * list string) :=
  foldl (λ groups arn, let '(typed, acct) := mapResource arn in add_to_group acct typed groups) [] arns.

Definition withCondition (m : gmap string string) (k v : string) : gmap string string := <[k := v]> m.

Definition is_deny (s : Statement) : bool := String.eqb (sEffect s) Deny.

(** The statement of one account's resources. *)
Definition for_account (base : Statement) (acct : string) (typed : list string) : Statement :=
  let resources := if is_deny base then map (λ r, ReplaceByte r "?" "*") typed else typed in
  let cond := sCondition base in
  let likes := sLikeConditions base in
  let '(cond, likes) :=
    if String.eqb acct "" then (cond, likes)
    else
      let cond := withCondition cond resourceAccountKey acct in
      if ContainsAny acct "*?"
      then (delete resourceAccountKey cond, likes ++ [mkLike resourceAccountKey (ReplaceByte acct "?" "*") false])
      else (cond, likes) in
  mkStatement (sEffect base) (sActions base) (sNotActions base) resources (sNotResources base)
    cond (sIPConditions base) likes (sTimeConditions base) (sKeyConditions base).

(** One excluded resource: under a Deny, one that names an account is excluded as written. *)
Definition excluded (deny : bool) (arn : string) : string :=
  let '(typed, acct) := mapResource arn in
  if negb (String.eqb acct "") && deny then rawARNPrefix +:+ arn else typed.

(** The conditions of the statement, what to report of them, or nothing when it is dropped. *)
Definition statement_conditions (effect : string) (st : list (string * json))
    : option conditions * list note :=
  match obj_get st "Condition" with
  | None => (Some no_conditions, [])
  | Some cond =>
      match importCondition effect cond with
      | inl c => (Some c, [])
      | inr w =>
          if String.eqb effect Allow then (None, [AllowDropped w])
          else (Some no_conditions, [DenyUnconditional w])
      end
  end.

(** The actions and the excluded actions; [None]: the statement matches nothing. *)
Definition statement_actions (effect : string) (st : list (string * json))
    : option (list string * list string) :=
  if has_key st "NotAction" then
    let na := list_of (get st "NotAction") in
    if bool_decide (na = []) then Some (["*"], [])
    else Some ([], if String.eqb effect Allow then reserveOperator na else na)
  else
    let a := list_of (get st "Action") in
    if bool_decide (a = []) then None else Some (a, []).

Definition compileStatement (st : list (string * json)) : res compile_error (list Statement * list note) :=
  let effect := str (get st "Effect") in
  if negb (String.eqb effect Allow) && negb (String.eqb effect Deny) then Err ErrEffectValue
  else if has_key st "Action" && has_key st "NotAction" then Err ErrActionAndNotAction
  else if has_key st "Resource" && has_key st "NotResource" then Err ErrResourceAndNotResource
  else
    match statement_conditions effect st with
    | (None, notes) => Ok ([], notes)
    | (Some c, notes) =>
        match statement_actions effect st with
        | None => Ok ([], notes ++ [NoAction])
        | Some (actions, notActions) =>
            let base resources notResources :=
              mkStatement effect actions notActions resources notResources
                (cdEq c) (cdIPs c) (cdLikes c) (cdTimes c) (cdKeys c) in
            if has_key st "NotResource" then
              let excl := list_of (get st "NotResource") in
              if bool_decide (excl = []) then Ok ([base ["*"] []], notes)
              else Ok ([base [] (map (excluded (String.eqb effect Deny)) excl)], notes)
            else
              let arns := if has_key st "Resource" then list_of (get st "Resource") else ["*"] in
              Ok (map (λ g, for_account (base [] []) g.1 g.2) (byAcct arns), notes)
        end
    end.

(** CompileDocument; the report names the statement of each note. *)
Fixpoint compile_from (i : nat) (raw : list (list (string * json)))
    : res compile_error (list Statement * list (nat * note)) :=
  match raw with
  | [] => Ok ([], [])
  | st :: raw =>
      match compileStatement st with
      | Err e => Err (ErrAt i e)
      | Ok (stmts, notes) =>
          '(out, report) ← compile_from (S i) raw;
          Ok (stmts ++ out, map (pair i) notes ++ report)
      end
  end.
Definition CompileDocument (doc : json) : res compile_error (list Statement * list (nat * note)) :=
  raw ← documentStatements doc; compile_from 0 raw.
End Compile.

(** ** Principals of a resource-based policy *)

Record ResourceStatement := mkResourceStatement {
  rsStatement : Statement;
  rsPrincipals : list string;
  rsNotPrincipals : list string;
}.

Definition normaliseAWSPrincipal (p : string) : string :=
  if bool_decide (String.length p = 12%nat) && forall_char is_digit p
  then "arn:aws:iam::" +:+ p +:+ ":root" else p.

(** One value of a Principal object. *)
Definition principal_entry (k p : string) : res compile_error string :=
  if String.eqb k "AWS" then Ok (normaliseAWSPrincipal p)
  else if String.eqb k "Service" then Ok p
  else if String.eqb k "Federated" || String.eqb k "CanonicalUser" then Ok (k +:+ ":" +:+ p)
  else Err (ErrPrincipalType k).

Definition principalList (v : json) : res compile_error (list string) :=
  match v with
  | JNull => Ok []
  | JStr x => if String.eqb x "*" then Ok ["*"] else Err ErrPrincipalShape
  | JObj m => mapM (λ kp, principal_entry kp.1 kp.2) (m ≫= λ kv, map (pair kv.1) (list_of kv.2))
  | _ => Err ErrPrincipalShape
  end.

(** globMatch. *)
Fixpoint globMatch (pattern s : string) : bool :=
  match pattern with
  | "" => String.eqb s ""
  | String c p =>
      if Ascii.eqb c "*" then
        (fix try (s : string) : bool :=
           globMatch p s || match s with "" => false | String _ s => try s end) s
      else
        match s with
        | "" => false
        | String d s => (Ascii.eqb c "?" || Ascii.eqb c d) && globMatch p s
        end
  end.

Inductive how := NotNamed | Public | Account | Specific.
#[export] Instance how_eq_dec : EqDecision how.
Proof. solve_decision. Defined.

(** The role's own ARN, when the principal is a role. *)
Definition role_arn (p : Principal) : option string :=
  match pType p with
  | Role => Some (ARN (mkPrincipal (pAccount p) (pType p) (pID p) (pGroups p) None))
  | _ => None
  end.

(** What names the caller itself: its ARN and, for a session, its role's; for a service, its name. *)
Definition names_itself (p : Principal) (e : string) : bool :=
  (bool_decide (pType p = Service) && String.eqb e (pID p))
  || (String.eqb e (ARN p) || bool_decide (role_arn p = Some e))
  || (contains_char "*" e &&
      (globMatch e (ARN p) || match role_arn p with Some r => globMatch e r | None => false end)).

Fixpoint match_from (best : how) (entries : list string) (p : Principal) : how :=
  match entries with
  | [] => best
  | e :: entries =>
      if String.eqb e "*" then match_from (if bool_decide (best = NotNamed) then Public else best) entries p
      else if String.eqb e ("arn:aws:iam::" +:+ AccountID p +:+ ":root")
      then match_from (if bool_decide (best = Specific) then best else Account) entries p
      else if names_itself p e then Specific
      else match_from best entries p
  end.
Definition principalMatch (entries : list string) (p : Principal) : how := match_from NotNamed entries p.

Definition appliesToPrincipal (r : ResourceStatement) (p : Principal) : how :=
  if negb (bool_decide (rsNotPrincipals r = [])) then
    if negb (bool_decide (principalMatch (rsNotPrincipals r) p = NotNamed)) then NotNamed else Public
  else principalMatch (rsPrincipals r) p.

(** ParseResourcePolicy. *)
Section Resource.
Context (IPParses TimeParses : string → bool).

Inductive resource_note := NoPrincipal | Compiled (n : note).

Fixpoint resource_from (i : nat) (raw : list (list (string * json)))
    : res compile_error (list ResourceStatement * list (nat * resource_note)) :=
  match raw with
  | [] => Ok ([], [])
  | st :: raw =>
      match principalList (get st "Principal") with
      | Err e => Err (ErrAt i e)
      | Ok ps =>
          match principalList (get st "NotPrincipal") with
          | Err e => Err (ErrAt i e)
          | Ok nps =>
              if bool_decide (ps = []) && bool_decide (nps = []) then
                '(out, report) ← resource_from (S i) raw;
                Ok (out, (i, NoPrincipal) :: report)
              else
                match compileStatement IPParses TimeParses st with
                | Err e => Err (ErrAt i e)
                | Ok (stmts, notes) =>
                    '(out, report) ← resource_from (S i) raw;
                    Ok (map (λ s, mkResourceStatement s ps nps) stmts ++ out,
                        map (λ n, (i, Compiled n)) notes ++ report)
                end
          end
      end
  end.
Definition ParseResourcePolicy (doc : json)
    : res compile_error (list ResourceStatement * list (nat * resource_note)) :=
  raw ← documentStatements doc; resource_from 0 raw.
End Resource.

(** ** The importer, as it is called *)

Definition valid_effect (e : string) : Prop := e = Allow ∨ e = Deny.

Lemma effect_checked e : negb (String.eqb e Allow) && negb (String.eqb e Deny) = false → valid_effect e.
Proof.
  intros [E%negb_false_iff%String.eqb_eq|E%negb_false_iff%String.eqb_eq]%andb_false_iff; [by left|by right].
Qed.

Section Importer.
Context (IPParses TimeParses : string → bool).
#[local] Abbreviation importCondition := (importCondition IPParses TimeParses).
#[local] Abbreviation typedARN := (typedARN IPParses TimeParses).
#[local] Abbreviation mapResource := (mapResource IPParses TimeParses).

Lemma importCondition_spec effect cm :
  valid_effect effect →
  importCondition effect (JObj cm) =
    match IamImport.importCondition IPParses TimeParses cm with
    | Ok c => inl c
    | Err w => inr (WhyUnsupported [UnConditionReason 0 w])
    end.
Proof.
  intros [-> | ->]; unfold IamCompile.importCondition, ImportAWS; cbn [import_statements];
    unfold import_statement; cbn;
    destruct (IamImport.importCondition IPParses TimeParses cm) as [[]|w]; done.
Qed.

Lemma typedARN_spec arn :
  typedARN arn = if String.eqb (json_string arn) "*" then None
                 else r ← arnToResource (json_string arn); if String.eqb r "*" then None else Some r.
Proof.
  unfold IamCompile.typedARN, ImportAWS. cbn [import_statements]. unfold import_statement. cbn.
  unfold importResources. cbn.
  destruct (String.eqb_spec (json_string arn) "*") as [->|Hne]; [done|].
  by destruct (arnToResource (json_string arn)).
Qed.
End Importer.

(** An imported condition only compares the platform's attributes. *)
Section Attributes.
Context (IPParses TimeParses : string → bool).

Definition only_attrs (c : conditions) : Prop := ∀ k, is_Some (cdEq c !! k) → k ∈ map ckAttr SupportedConditionKeys.

Lemma import_entry_attrs op key v c c' :
  import_entry IPParses TimeParses op key v c = Ok c' → only_attrs c → only_attrs c'.
Proof.
  unfold import_entry. intros H Hc. destruct (resolveConditionKey key) as [ck|] eqn:Ek; [|done].
  destruct (singleValue v) as [val|]; [|done].
  assert (Hin : ckAttr ck ∈ map ckAttr SupportedConditionKeys).
  { apply List.find_some in Ek as [Hin _]. by apply list_elem_of_In, in_map. }
  assert (Hi : only_attrs (mkConditions (<[ckAttr ck := val]> (cdEq c)) (cdIPs c) (cdLikes c) (cdTimes c) (cdKeys c))).
  { intros k. cbn. destruct (decide (k = ckAttr ck)) as [->|Hk]; [done|].
    rewrite lookup_insert_ne by done. apply Hc. }
  destruct (ckOptional ck); [apply res_bind_Ok in H as (kc & _ & [= <-]); exact Hc|].
  repeat (case_hyp; [|]); try done; injection H as <-; first [exact Hi|exact Hc].
Qed.

Lemma importCondition_attrs cm c :
  IamImport.importCondition IPParses TimeParses cm = Ok c → only_attrs c.
Proof.
  unfold IamImport.importCondition.
  assert (H0 : only_attrs no_conditions) by (intros k; cbn; rewrite lookup_empty; by intros []).
  revert H0. generalize no_conditions. induction cm as [|[op body] cm IH]; intros c0 H0; cbn [import_ops].
  { by intros [= <-]. }
  destruct body as [| | | | |m]; try done. intros (c1 & Hm & H)%res_bind_Ok.
  apply (IH c1); [|done]. clear H IH. revert c0 H0 Hm.
  induction m as [|[key v] m IHm]; intros c0 H0; cbn [import_keys]; [by intros [= <-]|].
  intros (c2 & Hc2 & H)%res_bind_Ok. apply (IHm c2); [|done]. by eapply import_entry_attrs.
Qed.

Lemma statement_conditions_attrs effect st cd notes :
  valid_effect effect → statement_conditions IPParses TimeParses effect st = (Some cd, notes) → only_attrs cd.
Proof.
  intros He. assert (H0 : only_attrs no_conditions) by (intros k; cbn; rewrite lookup_empty; by intros []).
  unfold statement_conditions. destruct (obj_get st "Condition") as [cond|]; [|by intros [= <- _]].
  destruct cond as [| | | | |cm]; try (destruct (String.eqb effect Allow); [done|by intros [= <- _]]).
  rewrite importCondition_spec by done.
  destruct (IamImport.importCondition IPParses TimeParses cm) as [c|w] eqn:Ei.
  - intros [= <- _]. by eapply importCondition_attrs.
  - destruct (String.eqb effect Allow); [done|by intros [= <- _]].
Qed.
End Attributes.

(** ** Grouping by account *)

Lemma add_to_group_elem acct typed groups a t :
  (∃ rs, (a, rs) ∈ add_to_group acct typed groups ∧ t ∈ rs) ↔
  (a = acct ∧ t = typed) ∨ ∃ rs, (a, rs) ∈ groups ∧ t ∈ rs.
Proof.
  induction groups as [|[a' rs'] groups IH]; cbn [add_to_group].
  { setoid_rewrite list_elem_of_singleton. split; [|intros [[-> ->]|(? & ?%not_elem_of_nil & _)]; [|done]].
    - intros (rs & [= -> ->] & ->%list_elem_of_singleton). by left.
    - exists [typed]. split; [done|by left]. }
  destruct (String.eqb_spec a' acct) as [->|Hne].
  - split.
    + intros (rs & [[= -> ->]|Hin]%elem_of_cons & Ht); [|right; exists rs; split; [by right|done]].
      apply elem_of_app in Ht as [Ht| ->%list_elem_of_singleton]; [|by left].
      right. exists rs'. split; [by left|done].
    + intros [[-> ->]|(rs & [[= -> ->]|Hin]%elem_of_cons & Ht)].
      * exists (rs' ++ [typed]). split; [by left|]. apply elem_of_app. right. by left.
      * exists (rs' ++ [typed]). split; [by left|]. apply elem_of_app. by left.
      * exists rs. split; [by right|done].
  - assert (Hc : ∀ l, (∃ rs, (a, rs) ∈ (a', rs') :: l ∧ t ∈ rs) ↔
                      (a = a' ∧ t ∈ rs') ∨ ∃ rs, (a, rs) ∈ l ∧ t ∈ rs).
    { intros l. setoid_rewrite elem_of_cons. naive_solver. }
    rewrite !Hc, IH. tauto.
Qed.

Lemma add_to_group_nonempty acct typed groups :
  Forall (λ g, g.2 ≠ []) groups → Forall (λ g, g.2 ≠ []) (add_to_group acct typed groups).
Proof.
  induction 1 as [|[a rs] groups Hg Hgs IH]; cbn [add_to_group]; [by repeat constructor|].
  destruct (String.eqb a acct); constructor; [|done..]. cbn. by destruct rs.
Qed.

Section Grouping.
Context (IPParses TimeParses : string → bool).
#[local] Abbreviation mapResource := (mapResource IPParses TimeParses).
#[local] Abbreviation byAcct := (byAcct IPParses TimeParses).

Lemma byAcct_spec arns :
  Forall (λ g, g.2 ≠ []) (byAcct arns) ∧
  ∀ a t, (∃ rs, (a, rs) ∈ byAcct arns ∧ t ∈ rs) ↔ ∃ arn, arn ∈ arns ∧ mapResource arn = (t, a).
Proof.
  induction arns as [|arn arns [IHn IHe]] using rev_ind; unfold IamCompile.byAcct.
  { split; [constructor|]. intros a t. cbn. set_solver. }
  rewrite foldl_app. fold (byAcct arns). cbn. destruct (mapResource arn) as [typed acct] eqn:Em. split.
  - by apply add_to_group_nonempty.
  - intros a t. rewrite add_to_group_elem, IHe. setoid_rewrite elem_of_app.
    setoid_rewrite list_elem_of_singleton. split.
    + intros [[-> ->]|(arn' & ? & ?)]; [by exists arn; split; [right|]|exists arn'; naive_solver].
    + intros (arn' & [Hin| ->] & H); [right; by exists arn'|left]. rewrite Em in H. by injection H as <- <-.
Qed.
End Grouping.

(** ** What a compiled statement means *)

(** The account an ARN names, against the account of the resource. *)
Definition account_matches (acct x : string) : Prop :=
  acct = "" ∨
  if ContainsAny acct "*?" then like (ReplaceByte acct "?" "*") x = true else cond_value acct = VStr x.

(** A Deny reads the single-character wildcard as "*". *)
Definition widened (effect : string) (typed : string) : string :=
  if String.eqb effect Deny then ReplaceByte typed "?" "*" else typed.

Section Meaning.
Context {IP : Type} (ParseIPAddr : string → option IP) (isInRange : IP → IP → bool).
Context (ParseDatetime : string → option Z).
#[local] Abbreviation value_holds := (value_holds ParseIPAddr isInRange ParseDatetime).
#[local] Abbreviation applies := (applies ParseIPAddr isInRange ParseDatetime).
#[local] Abbreviation compileStatement := (compileStatement (parses ParseIPAddr) (parses ParseDatetime)).
#[local] Abbreviation mapResource := (mapResource (parses ParseIPAddr) (parses ParseDatetime)).
#[local] Abbreviation statement_conditions := (statement_conditions (parses ParseIPAddr) (parses ParseDatetime)).

(** The conditions of [base], or a key they read being absent under a Deny. *)
Definition conditions_met (c : record) (base : Statement) (extra : Prop) : Prop :=
  ((value_holds c base ∧ extra) ∨ (sEffect base = Deny ∧ ∃ k, reads base k ∧ c !! k = None)) ∧
  Forall (key_holds c) (sKeyConditions base).

Lemma for_account_applies c a r base acct typed x :
  c !! resourceAccountKey = Some (VStr x) → sCondition base !! resourceAccountKey = None →
  sNotResources base = [] → typed ≠ [] →
  applies c a r (for_account base acct typed) ↔
  action_ok base a ∧ some_covers (map (widened (sEffect base)) typed) r ∧
  conditions_met c base (account_matches acct x).
Proof.
  intros Hx Hb Hnr Hne.
  assert (Hres : resource_ok (for_account base acct typed) r ↔ some_covers (map (widened (sEffect base)) typed) r).
  { unfold resource_ok, for_account, is_deny, widened. destruct (if String.eqb acct "" then _ else _) as [cond likes].
    cbn. rewrite Hnr. cbn. destruct (String.eqb (sEffect base) Deny); [|rewrite map_id]; destruct typed; naive_solver. }
  assert (Hval : value_holds c (for_account base acct typed) ↔ value_holds c base ∧ account_matches acct x).
  { unfold for_account, account_matches. destruct (String.eqb_spec acct "") as [->|Hacct].
    { unfold PolicyEngine.value_holds. cbn. naive_solver. }
    destruct (ContainsAny acct "*?"); unfold PolicyEngine.value_holds; cbn.
    - unfold withCondition. rewrite delete_insert_id by done. rewrite Forall_app, Forall_singleton.
      unfold like_holds. cbn. rewrite Hx. naive_solver.
    - unfold withCondition. rewrite <- (and_assoc _ _ (acct = "" ∨ _)).
      assert (Hi : (∀ k v, <[resourceAccountKey := acct]> (sCondition base) !! k = Some v → c !! k = Some (cond_value v)) ↔
                   (∀ k v, sCondition base !! k = Some v → c !! k = Some (cond_value v)) ∧ cond_value acct = VStr x).
      { split.
        - intros H. split; [|specialize (H resourceAccountKey acct); rewrite lookup_insert_eq, Hx in H;
            specialize (H eq_refl); congruence].
          intros k v Hk. apply H. rewrite lookup_insert_ne; [done|congruence].
        - intros [H Ha] k v [[<- <-]|[_ Hk]]%lookup_insert_Some; [by rewrite Hx, Ha|by apply H]. }
      rewrite Hi. naive_solver. }
  assert (Hread : (∃ k, reads (for_account base acct typed) k ∧ c !! k = None) ↔ ∃ k, reads base k ∧ c !! k = None).
  { assert (Hk : ∀ k, reads (for_account base acct typed) k ∧ c !! k = None ↔ reads base k ∧ c !! k = None).
    { intros k. destruct (decide (k = resourceAccountKey)) as [->|Hk]; [rewrite Hx; naive_solver|].
      apply and_iff_compat_r. unfold reads, for_account. destruct (String.eqb acct ""); [done|].
      destruct (ContainsAny acct "*?"); cbn; unfold withCondition.
      - rewrite delete_insert_id by done. rewrite map_app, elem_of_app. cbn. set_solver.
      - rewrite lookup_insert_ne; [done|]. intros <-. by apply Hk. }
    by setoid_rewrite Hk. }
  assert (Hrest : ∀ P, action_ok (for_account base acct typed) P = action_ok base P ∧
    sEffect (for_account base acct typed) = sEffect base ∧
    sKeyConditions (for_account base acct typed) = sKeyConditions base).
  { intros P. unfold for_account, action_ok. by destruct (if String.eqb acct "" then _ else _). }
  destruct (Hrest a) as (Ha & He & Hkc).
  unfold PolicyEngine.applies, conditions_met. rewrite Hres, Hval, Hread, Ha, He, Hkc. tauto.
Qed.

(** The resources a statement names: all without a Resource. *)
Definition statement_arns (st : list (string * json)) : list string :=
  if has_key st "Resource" then list_of (get st "Resource") else ["*"].

(** An ARN of the statement, against the resource and the account it belongs to. *)
Definition arn_matches (effect arn r x : string) (P : Prop → Prop) : Prop :=
  covers (widened effect (mapResource arn).1) r ∧ P (account_matches (mapResource arn).2 x).

End Meaning.

(** ** What cannot be honoured narrows *)

(** The statement without its Condition. *)
Definition without (k : string) (m : list (string * json)) : list (string * json) :=
  filter (λ kv, kv.1 ≠ k) m.

Lemma obj_get_without k k' m : k' ≠ k → obj_get (without k m) k' = obj_get m k'.
Proof.
  intros Hne. induction m as [|[k0 v] m IH]; [done|]. unfold without. rewrite filter_cons. cbn.
  destruct (decide (k0 ≠ k)) as [Hk|Hk]; cbn; fold (without k m).
  - by rewrite IH.
  - rewrite IH. destruct (String.eqb_spec k0 k') as [->|]; [|done]. by destruct Hk.
Qed.

Lemma obj_get_without_same k m : obj_get (without k m) k = None.
Proof.
  induction m as [|[k0 v] m IH]; [done|]. unfold without. rewrite filter_cons. cbn.
  destruct (decide (k0 ≠ k)); cbn; fold (without k m); [|done].
  by destruct (String.eqb_spec k0 k).
Qed.

Lemma get_without k k' m : k' ≠ k → get (without k m) k' = get m k'.
Proof. intros H. unfold get. by rewrite obj_get_without. Qed.
Lemma has_key_without k k' m : k' ≠ k → has_key (without k m) k' = has_key m k'.
Proof. intros H. unfold has_key. by rewrite obj_get_without. Qed.

Section Narrow.
Context (IPParses TimeParses : string → bool).
#[local] Abbreviation compileStatement := (compileStatement IPParses TimeParses).
#[local] Abbreviation importCondition := (importCondition IPParses TimeParses).

(** a condition the platform cannot honour only narrows: an Allow that carries one compiles to nothing,
    and a Deny that carries one compiles to the Deny without any condition, which covers at least what
    its author wrote; both are reported. *)
Theorem unsupported_condition_narrows (st : list (string * json)) (cond : json) (w : why)
    (stmts : list Statement) (notes : list note)
    (Hc : obj_get st "Condition" = Some cond)
    (Hw : importCondition (str (get st "Effect")) cond = inr w)
    (H : compileStatement st = Ok (stmts, notes)) :
  (str (get st "Effect") = Allow ∧ stmts = [] ∧ notes = [AllowDropped w]) ∨
  (str (get st "Effect") = Deny ∧
   ∃ more, notes = DenyUnconditional w :: more ∧
           compileStatement (without "Condition" st) = Ok (stmts, more)).
Proof.
  revert H. unfold IamCompile.compileStatement, statement_conditions, statement_actions.
  rewrite !has_key_without, !get_without, obj_get_without_same, Hc, Hw by done.
  destruct (negb _ && negb _) eqn:Ee; [done|]. apply effect_checked in Ee.
  destruct (has_key st "Action" && _); [done|]. destruct (has_key st "Resource" && _); [done|].
  destruct Ee as [Ee|Ee]; rewrite Ee; [intros [= <- <-]; by left|].
  change (String.eqb Deny Allow) with false. cbv iota. intros H. right. split; [done|].
  destruct (if has_key st "NotAction" then _ else _) as [[acts nots]|]; [|injection H as <- <-; by exists [NoAction]].
  exists []. destruct (has_key st "NotResource"); [destruct (bool_decide _)|]; injection H as <- <-; done.
Qed.

(** ** The operator surface *)

Lemma reserveOperator_in na : operatorActions ∈ reserveOperator na.
Proof.
  unfold reserveOperator, contains_str. destruct (existsb _ _) eqn:E; [|by apply elem_of_app; right; left].
  apply existsb_exists in E as (x & Hx%list_elem_of_In & ->%String.eqb_eq). done.
Qed.

Lemma reserveOperator_keeps na x : x ∈ na → x ∈ reserveOperator na.
Proof. unfold reserveOperator. destruct (contains_str _ _); set_solver. Qed.

Lemma for_account_fields base acct typed :
  sEffect (for_account base acct typed) = sEffect base ∧ sActions (for_account base acct typed) = sActions base ∧
  sNotActions (for_account base acct typed) = sNotActions base.
Proof. unfold for_account. by destruct (if String.eqb acct "" then _ else _). Qed.

(** Every compiled statement carries the statement's effect and actions. *)
Lemma compiled_fields st stmts notes s :
  compileStatement st = Ok (stmts, notes) → s ∈ stmts →
  valid_effect (sEffect s) ∧ sEffect s = str (get st "Effect") ∧
  statement_actions (sEffect s) st = Some (sActions s, sNotActions s).
Proof.
  unfold IamCompile.compileStatement. destruct (negb _ && negb _) eqn:Ee; [done|]. apply effect_checked in Ee.
  destruct (has_key st "Action" && _); [done|]. destruct (has_key st "Resource" && _); [done|].
  destruct (statement_conditions _ _ _ st) as [[cd|] cn]; [|by intros [= <- _] ?%not_elem_of_nil].
  destruct (statement_actions (str (get st "Effect")) st) as [[acts nots]|] eqn:Ea; [|by intros [= <- _] ?%not_elem_of_nil].
  destruct (has_key st "NotResource").
  - destruct (bool_decide _); intros [= <- _] ->%list_elem_of_singleton; by cbn.
  - intros [= <- _] (g & -> & _)%list_elem_of_fmap.
    destruct (for_account_fields (mkStatement (str (get st "Effect")) acts nots [] [] (cdEq cd) (cdIPs cd) (cdLikes cd)
      (cdTimes cd) (cdKeys cd)) g.1 g.2) as (-> & -> & ->). by cbn.
Qed.

(** an Allow written as "every action except ..." never reaches the operator surface: no statement such an
    Allow compiles to covers an openinfra-operator action, and what its author excluded stays excluded. *)
Theorem operator_surface_reserved (st : list (string * json)) (stmts : list Statement) (notes : list note)
    (s : Statement) (op a : string)
    (H : compileStatement st = Ok (stmts, notes)) (Hs : s ∈ stmts)
    (Hallow : sEffect s = Allow) (Hna : list_of (get st "NotAction") ≠ []) :
  ¬ action_ok s (operatorPrefix +:+ op) ∧
  (some_matches (list_of (get st "NotAction")) a → ¬ action_ok s a).
Proof.
  destruct (compiled_fields _ _ _ _ H Hs) as (_ & He & Ha). revert Ha. unfold statement_actions.
  assert (Hk : has_key st "NotAction" = true).
  { unfold has_key, get in *. by destruct (obj_get st "NotAction"). }
  rewrite Hk, (bool_decide_eq_false_2 _ Hna), Hallow. cbn [String.eqb]. intros [= _ Hn].
  change (String.eqb Allow Allow) with true in Hn. cbv iota in Hn.
  assert (Hne : sNotActions s ≠ []).
  { rewrite <- Hn. intros E. pose proof (reserveOperator_in (list_of (get st "NotAction"))) as Hin.
    rewrite E in Hin. by apply not_elem_of_nil in Hin. }
  unfold action_ok. rewrite (bool_decide_eq_false_2 _ Hne), <- Hn. split.
  - intros Hm. apply Hm. exists operatorActions. split; [apply reserveOperator_in|].
    change operatorActions with (operatorPrefix +:+ "*"). apply like_prefix; [done|by exists op].
  - intros (v & Hv & Hl) Hm. apply Hm. exists v. split; [by apply reserveOperator_keeps|done].
Qed.
End Narrow.

(** ** Principals *)

(** AWS's wildcards: "*" stands for any sequence of bytes, "?" for one. *)
Inductive aws_glob : string → string → Prop :=
| ag_nil : aws_glob "" ""
| ag_star p a s : aws_glob p s → aws_glob (String "*" p) (a +:+ s)
| ag_one p c s : aws_glob p s → aws_glob (String "?" p) (String c s)
| ag_byte c p s : c ≠ "*"%char → aws_glob p s → aws_glob (String c p) (String c s).

Lemma globMatch_spec p s : globMatch p s = true ↔ aws_glob p s.
Proof.
  revert s. induction p as [|c p IH]; intros s; cbn [globMatch].
  { rewrite String.eqb_eq. split; [intros ->; constructor|by inversion 1]. }
  destruct (Ascii.eqb_spec c "*") as [->|Hc].
  - split.
    + induction s as [|d s IHs]; cbn; intros [H|H]%orb_true_iff; try done.
      * apply (ag_star _ ""). by apply IH.
      * apply (ag_star _ ""). by apply IH.
      * apply IHs in H. inversion H as [|? a s' Hm| |]; subst; [|done]. by apply (ag_star _ (String d a)).
    + inversion 1 as [|? a s' Hm| |]; subst; [|done]. apply IH in Hm. induction a as [|d a IHa].
      * change ("" +:+ s') with s'. destruct s'; cbn; by rewrite Hm.
      * change (String d a +:+ s') with (String d (a +:+ s')). apply orb_true_iff. right.
        apply IHa. apply ag_star. by apply IH.
  - destruct s as [|d s]; [split; [done|by inversion 1; subst]|].
    rewrite andb_true_iff, orb_true_iff, !Ascii.eqb_eq, IH. split.
    + intros [[->| ->] H]; by constructor.
    + inversion 1; subst; [done|by split; [left|]|by split; [right|]].
Qed.

Definition account_root (p : Principal) : string := "arn:aws:iam::" +:+ AccountID p +:+ ":root".

(** An entry that names the caller and nobody else: its own ARN, the ARN of the role its session is of, the
    service it is, or a pattern that covers one of the ARNs. *)
Definition own_entry (p : Principal) (e : string) : Prop :=
  e ≠ "*" ∧ e ≠ account_root p ∧
  ((pType p = Service ∧ e = pID p) ∨ e = ARN p ∨ role_arn p = Some e ∨
   (contains_char "*" e = true ∧ (aws_glob e (ARN p) ∨ ∃ r, role_arn p = Some r ∧ aws_glob e r))).

Lemma names_itself_spec p e :
  names_itself p e = true ↔
  (pType p = Service ∧ e = pID p) ∨ e = ARN p ∨ role_arn p = Some e ∨
  (contains_char "*" e = true ∧ (aws_glob e (ARN p) ∨ ∃ r, role_arn p = Some r ∧ aws_glob e r)).
Proof.
  unfold names_itself. rewrite !orb_true_iff, !andb_true_iff, !orb_true_iff, !bool_decide_eq_true, !String.eqb_eq,
    globMatch_spec.
  assert (Hr : match role_arn p with Some r => globMatch e r | None => false end = true ↔
               ∃ r, role_arn p = Some r ∧ aws_glob e r).
  { destruct (role_arn p) as [r|]; [rewrite globMatch_spec|]; naive_solver. }
  rewrite Hr. tauto.
Qed.

(** The strongest way an entry of the list names the caller, over a way found before. *)
Definition named_as (best : how) (entries : list string) (p : Principal) (h : how) : Prop :=
  match h with
  | Specific => ∃ e, e ∈ entries ∧ own_entry p e
  | Account => (∀ e, e ∈ entries → ¬ own_entry p e) ∧ (account_root p ∈ entries ∨ best = Account)
  | Public => (∀ e, e ∈ entries → ¬ own_entry p e) ∧ account_root p ∉ entries ∧ best ≠ Account ∧
              ("*" ∈ entries ∨ best = Public)
  | NotNamed => (∀ e, e ∈ entries → ¬ own_entry p e) ∧ account_root p ∉ entries ∧ "*" ∉ entries ∧ best = NotNamed
  end.

Lemma match_from_spec best entries p :
  best ≠ Specific → named_as best entries p (match_from best entries p).
Proof.
  revert best. induction entries as [|e entries IH]; intros best Hb; cbn [match_from].
  { destruct best; cbn; split_and?; try done; try (by intros ? ?%not_elem_of_nil); try (by intros ?%not_elem_of_nil); auto. }
  assert (Hstar : "*" ≠ account_root p) by (unfold account_root; done).
  fold (account_root p). destruct (String.eqb_spec e "*") as [->|Hs].
  { assert (Hno : ¬ own_entry p "*") by by intros [? _].
    specialize (IH (if bool_decide (best = NotNamed) then Public else best)).
    destruct best; rewrite ?(bool_decide_eq_true_2 (NotNamed = NotNamed)) in * by done;
      rewrite ?bool_decide_eq_false_2 in * by done; specialize (IH ltac:(done)); revert IH;
      destruct (match_from _ _ _); cbn; setoid_rewrite elem_of_cons; naive_solver. }
  destruct (String.eqb_spec e (account_root p)) as [->|Hr].
  { assert (Hno : ¬ own_entry p (account_root p)) by by intros (_ & ? & _).
    rewrite bool_decide_eq_false_2 by done. specialize (IH Account ltac:(done)). revert IH.
    destruct (match_from _ _ _); cbn; setoid_rewrite elem_of_cons; naive_solver. }
  destruct (names_itself p e) eqn:En.
  { cbn. exists e. split; [by left|]. apply names_itself_spec in En. done. }
  assert (Hno : ¬ own_entry p e).
  { intros (_ & _ & Hn). apply names_itself_spec in Hn. congruence. }
  specialize (IH best Hb). revert IH. destruct (match_from _ _ _); cbn; setoid_rewrite elem_of_cons; naive_solver.
Qed.

Lemma named_as_unique entries p h h' :
  named_as NotNamed entries p h → named_as NotNamed entries p h' → h = h'.
Proof.
  intros H1 H2. destruct h, h'; try reflexivity; unfold named_as in H1, H2; exfalso; destruct_and?; destruct_or?;
    repeat match goal with H : ∃ _, _ |- _ => destruct H as (? & ? & ?) end;
    first [done|congruence|match goal with H : ∀ e, e ∈ _ → ¬ _ |- _ => by eapply H; [|eassumption] end].
Qed.

Lemma named_as_perm entries entries' p h :
  entries ≡ₚ entries' → named_as NotNamed entries p h → named_as NotNamed entries' p h.
Proof. intros Hp. destruct h; cbn; by setoid_rewrite Hp. Qed.

(** a principal list names the caller in the strongest way one of its entries does: by itself, by its
    account, or as anyone, wildcards read as AWS reads them; and the order of the entries, which is that
    of Go's iteration over the Principal object, does not matter. *)
Theorem principalMatch_spec (entries : list string) (p : Principal) :
  named_as NotNamed entries p (principalMatch entries p) ∧
  ∀ entries', entries ≡ₚ entries' → principalMatch entries' p = principalMatch entries p.
Proof.
  assert (H : ∀ es, named_as NotNamed es p (principalMatch es p)) by (intros; by apply match_from_spec).
  split; [done|]. intros entries' Hp. eapply named_as_unique; [done|]. by eapply named_as_perm.
Qed.

(** ** At concrete documents *)

Definition demo_statement (effect : string) : list (string * json) :=
  [("Effect", JStr effect); ("Action", JStr "s3:GetObject");
   ("Resource", JArr [JStr "arn:aws:s3:::assets/*"; JStr "arn:aws:sqs:eu-west-1:111111111111:jobs"]);
   ("Condition", JObj [("IpAddress", JObj [("aws:SourceIp", JStr "10.")])])].


Definition demo_unsupported : list (string * json) :=
  [("Effect", JStr Deny); ("Action", JStr "s3:DeleteObject"); ("Resource", JStr "*");
   ("Condition", JObj [("StringEquals", JObj [("aws:PrincipalTag/team", JStr "ops")])])].

Lemma unsupported_condition_narrows_witness :
  let cond := JObj [("StringEquals", JObj [("aws:PrincipalTag/team", JStr "ops")])] in
  ∃ w stmts more, importCondition (λ _, true) (λ _, true) Deny cond = inr w ∧
    compileStatement (λ _, true) (λ _, true) demo_unsupported = Ok (stmts, DenyUnconditional w :: more) ∧
    ((Deny = Allow ∧ stmts = [] ∧ DenyUnconditional w :: more = [AllowDropped w]) ∨
     (Deny = Deny ∧ ∃ more', DenyUnconditional w :: more = DenyUnconditional w :: more' ∧
        compileStatement (λ _, true) (λ _, true) (without "Condition" demo_unsupported) = Ok (stmts, more'))).
Proof.
  cbv zeta. eexists _, _, _. split; [vm_compute; reflexivity|]. split; [vm_compute; reflexivity|].
  refine (unsupported_condition_narrows (λ _, true) (λ _, true) demo_unsupported _ _ _ _ _ _ _).
  - reflexivity.
  - vm_compute. reflexivity.
  - vm_compute. reflexivity.
Defined.

Definition demo_power_user : list (string * json) :=
  [("Effect", JStr Allow); ("NotAction", JArr [JStr "iam:*"; JStr "organizations:*"]); ("Resource", JStr "*")].

Lemma operator_surface_reserved_witness :
  ∃ stmts s, compileStatement (λ _, true) (λ _, true) demo_power_user = Ok (stmts, []) ∧ s ∈ stmts ∧
    action_ok s "s3:GetObject" ∧ ¬ action_ok s (operatorPrefix +:+ "GetSecret").
Proof.
  eexists _, _. split; [vm_compute; reflexivity|]. split; [by left|]. split.
  { unfold action_ok. cbn. intros (v & Hv & Hl). rewrite !elem_of_cons in Hv.
    destruct Hv as [->|[->|[->|?%not_elem_of_nil]]]; done. }
  refine (proj1 (operator_surface_reserved (λ _, true) (λ _, true) demo_power_user _ [] _ "GetSecret" "iam:GetUser" _ _ _ _)).
  - vm_compute. reflexivity.
  - by left.
  - reflexivity.
  - done.
Defined.

(** The single-character wildcard is read only in the Resource of a Deny: in the Action of a Deny, and in
    the NotAction of an Allow, it is literal, so the Deny misses an action it names and the Allow reaches
    one it excludes. *)
Lemma question_mark_widens :
  (∃ s, compileStatement (λ _, true) (λ _, true)
          [("Effect", JStr Deny); ("Action", JStr "iam:Delete?ser"); ("Resource", JStr "*")] = Ok ([s], []) ∧
        ¬ action_ok s "iam:DeleteUser") ∧
  (∃ s, compileStatement (λ _, true) (λ _, true)
          [("Effect", JStr Allow); ("NotAction", JStr "iam:Delete?ser"); ("Resource", JStr "*")] = Ok ([s], []) ∧
        action_ok s "iam:DeleteUser") ∧
  aws_glob "iam:Delete?ser" "iam:DeleteUser".
Proof.
  split_and!.
  - eexists. split; [vm_compute; reflexivity|]. unfold action_ok. cbn.
    intros [[=]|(v & Hv%list_elem_of_singleton & Hl)]. subst v. done.
  - eexists. split; [vm_compute; reflexivity|]. unfold action_ok. cbn. intros (v & Hv & Hl).
    rewrite !elem_of_cons in Hv. destruct Hv as [->|[->|?%not_elem_of_nil]]; done.
  - by apply globMatch_spec.
Qed.

(** An ARN that is kept as written loses its account: it is taken to be the caller's. *)
Lemma raw_arn_has_no_account :
  mapResource (λ _, true) (λ _, true) "arn:aws:backup:eu-west-1:222222222222:backup-vault/v"
  = ("ARN::arn:aws:backup:eu-west-1:222222222222:backup-vault/v", "").
Proof. vm_compute. reflexivity. Qed.
