(* ===== verification/StatementEngine.v ===== *)
(** * The statement engine as an interface

    What the front doors' evaluator relies on of the policy engine: engines are built from statements, with
    or without a permission boundary, and answer requests by what the statements say.  The engine of
    PolicyEngine provides it over any Cedar that evaluates what it is given, and an engine that evaluates
    the compiled policies directly provides it outright. *)

From S2P Require Import Prelude GoStrings PolicyEngine.
#[local] Open Scope string_scope.
#[local] Open Scope Z_scope.
#[local] Open Scope list_scope.

(** The keys IP and time conditions compare, whose unparseable values are dropped. *)
Definition ip_keys (ss : list Statement) : gset string := list_to_set (ss ≫= λ s, map ipKey (sIPConditions s)).
Definition time_keys (ss : list Statement) : gset string := list_to_set (ss ≫= λ s, map tcKey (sTimeConditions s)).

(** Every attribute a key condition compares has the type it compares it as. *)
Definition well_typed (ss : list Statement) (rq : Request) : Prop :=
  ∀ s kc v, s ∈ ss → kc ∈ sKeyConditions s → to_record (rqContext rq) !! kcKey kc = Some v →
            kind_ok (kind kc) v = true.

Section Meaning.
Context {IP : Type} (ParseIPAddr : string → option IP) (isInRange : IP → IP → bool).
Context (ParseDatetime : string → option Z).

(** What the statements are evaluated on. *)
Definition context_of (ss : list Statement) (rq : Request) : record :=
  let ctx := to_record (rqContext rq) in
  <["resource" := VStr (resource_of rq)]> (<["action" := VStr (rqAction rq)]>
    (sanitise ParseDatetime (time_keys ss) (sanitise ParseIPAddr (ip_keys ss) ctx))).

(** Some statement of the effect applies. *)
Definition granted (effect : string) (ss : list Statement) (rq : Request) : Prop :=
  ∃ s, s ∈ ss ∧ sEffect s = effect ∧
       applies ParseIPAddr isInRange ParseDatetime (context_of ss rq) (rqAction rq) (resource_of rq) s.

(** The interface. *)
Class StatementEngine := {
  engine : Type;
  build : list Statement → option (list Statement) → res engine_error engine;
  ask : engine → Request → Decision;
  ask_allowed ss limit e rq : build ss limit = Ok e →
    dAllowed (ask e rq) = true ↔
    well_typed ss rq ∧ granted Allow ss rq ∧ ¬ granted Deny ss rq ∧ within limit (rqAction rq) (resource_of rq);
  ask_denied ss limit e rq : build ss limit = Ok e →
    dExplicitDeny (ask e rq) = true ↔ well_typed ss rq ∧ granted Deny ss rq;
}.

(** ** The engine of PolicyEngine provides it *)

Lemma add_kinds_from idx kcs kinds kinds' k kd :
  add_kinds idx kcs kinds = Ok kinds' → kinds' !! k = Some kd →
  kinds !! k = Some kd ∨ ∃ kc, kc ∈ kcs ∧ kcKey kc = k ∧ kind kc = kd.
Proof.
  revert kinds. induction kcs as [|kc kcs IH]; intros kinds; cbn [add_kinds].
  { intros [= <-]. by left. }
  assert (Hins : add_kinds idx kcs (<[kcKey kc := kind kc]> kinds) = Ok kinds' → kinds' !! k = Some kd →
                 kinds !! k = Some kd ∨ ∃ kc', kc' ∈ kc :: kcs ∧ kcKey kc' = k ∧ kind kc' = kd).
  { intros H Hk. destruct (IH _ H Hk) as [[[<- <-]|[_ ?]]%lookup_insert_Some|(kc' & ? & ?)].
    - right. exists kc. split; [by left|done].
    - by left.
    - right. exists kc'. split; [by right|done]. }
  destruct (String.eqb (kind kc) "").
  { intros H Hk. destruct (IH _ H Hk) as [?|(kc' & ? & ?)]; [by left|]. right. exists kc'. split; [by right|done]. }
  destruct (kinds !! kcKey kc) as [prev|]; [destruct (String.eqb prev (kind kc)); [|done]|]; exact Hins.
Qed.

Lemma compile_kinds_from ss extra cc k kd :
  compile ss extra = Ok cc → cKeyKinds cc !! k = Some kd →
  ∃ s kc, s ∈ ss ∧ kc ∈ sKeyConditions s ∧ kcKey kc = k ∧ kind kc = kd.
Proof.
  unfold compile. intros (c0 & H & [= <-])%res_bind_Ok Hk. cbn in Hk.
  enough (G : ∀ idx ss c c', compile_statements idx ss c = Ok c' → cKeyKinds c' !! k = Some kd →
    cKeyKinds c !! k = Some kd ∨ ∃ s kc, s ∈ ss ∧ kc ∈ sKeyConditions s ∧ kcKey kc = k ∧ kind kc = kd).
  { destruct (G _ _ _ _ H Hk) as [[=]|?]; done. }
  clear. intros idx ss. revert idx. induction ss as [|s ss IH]; intros idx c c'; cbn [compile_statements].
  { intros [= <-] ?. by left. }
  intros (p & _ & (kinds & Hkinds & H)%res_bind_Ok)%res_bind_Ok Hk.
  destruct (IH _ _ _ H Hk) as [Hl|(s' & kc & ? & ? & ?)].
  - cbn in Hl. destruct (add_kinds_from _ _ _ _ _ _ Hkinds Hl) as [?|(kc & ? & ?)]; [by left|].
    right. exists s, kc. split; [by left|done].
  - right. exists s', kc. split; [by right|done].
Qed.

Lemma malformed_nil ss extra cc rq :
  compile ss extra = Ok cc → malformed (cKeyKinds cc) (to_record (rqContext rq)) = [] ↔ well_typed ss rq.
Proof.
  intros Hc. unfold malformed. split.
  - intros Hm%fmap_nil_inv s kc v Hs Hkc Hv. destruct (kind_ok (kind kc) v) eqn:Ek; [done|].
    assert (Hne : kind kc ≠ "") by (intros E; rewrite E in Ek; by destruct v).
    pose proof (compile_kinds _ _ _ _ _ Hc Hs Hkc Hne) as Hl. exfalso.
    apply (not_elem_of_nil (kcKey kc, kind kc)). rewrite <- Hm. apply list_elem_of_filter.
    split; [|by apply elem_of_map_to_list]. unfold malformed_key. cbn. by rewrite Hv, Ek.
  - intros Hwt. destruct (filter _ _) as [|[k kd] l] eqn:Ef; [done|]. exfalso.
    assert (Hin : (k, kd) ∈ (k, kd) :: l) by by left. rewrite <- Ef in Hin.
    apply list_elem_of_filter in Hin as [Hbad Hl%elem_of_map_to_list].
    destruct (compile_kinds_from _ _ _ _ _ Hc Hl) as (s & kc & Hs & Hkc & <- & <-).
    revert Hbad. unfold malformed_key. cbn. destruct (to_record (rqContext rq) !! kcKey kc) as [v|] eqn:Ev; [|done].
    by rewrite (Hwt s kc v Hs Hkc Ev).
Qed.

Section Cedar.
Context {PolicySet : Type}.
Context (IsAuthorized : PolicySet → cedar_request → bool * list nat).
Context (Annotation : PolicySet → nat → option string).
#[local] Abbreviation Authorize := (Authorize ParseIPAddr ParseDatetime IsAuthorized Annotation).
#[local] Abbreviation cedar_reads := (cedar_reads ParseIPAddr isInRange ParseDatetime IsAuthorized Annotation).

Lemma keys_of_compiled ss extra cc :
  compile ss extra = Ok cc → cIPKeys cc = ip_keys ss ∧ cTimeKeys cc = time_keys ss.
Proof.
  intros (_ & _ & _ & Hip & Htm)%compile_Ok. unfold ip_keys, time_keys. split; apply leibniz_equiv; intros k;
    rewrite ?Hip, ?Htm, elem_of_list_to_set, list_elem_of_bind; naive_solver.
Qed.

Lemma engine_asks NewPolicySetFromBytes IsPrint ss limit e rq :
  engine_for NewPolicySetFromBytes IsPrint ss limit = Ok e → cedar_reads (ePS e) (cPolicies (eCompiled e)) →
  (dAllowed (Authorize e rq) = true ↔
     well_typed ss rq ∧ granted Allow ss rq ∧ ¬ granted Deny ss rq ∧ within limit (rqAction rq) (resource_of rq)) ∧
  (dExplicitDeny (Authorize e rq) = true ↔ well_typed ss rq ∧ granted Deny ss rq).
Proof.
  intros He Hread. destruct (engine_compiled _ _ _ _ _ He) as [extra Hc].
  assert (Hctx : ∀ effect, decided_by ParseIPAddr isInRange ParseDatetime effect ss e rq ↔ granted effect ss rq).
  { intros effect. unfold decided_by, granted, context_of, cedar_context.
    destruct (keys_of_compiled _ _ _ Hc) as [-> ->]. done. }
  destruct (malformed (cKeyKinds (eCompiled e)) (to_record (rqContext rq))) as [|k l] eqn:Em.
  - pose proof (proj1 (malformed_nil _ _ _ _ Hc) Em) as Hwt.
    destruct (Authorize_spec ParseIPAddr isInRange ParseDatetime _ _ _ _ ss limit e rq He Hread Em) as [-> ->].
    rewrite !Hctx. tauto.
  - assert (Hwt : ¬ well_typed ss rq).
    { intros H%(malformed_nil _ _ _ _ Hc). congruence. }
    unfold PolicyEngine.Authorize. rewrite Em. cbn. naive_solver.
Qed.

(** Over a Cedar that evaluates every text it accepts as the policies it renders. *)
Definition cedar_engine (NewPolicySetFromBytes : string → option PolicySet) (IsPrint : Z → bool)
    (Hcedar : ∀ ss limit e, engine_for NewPolicySetFromBytes IsPrint ss limit = Ok e →
                            cedar_reads (ePS e) (cPolicies (eCompiled e))) : StatementEngine :=
  {| engine := Engine;
     build := engine_for NewPolicySetFromBytes IsPrint;
     ask := Authorize;
     ask_allowed ss limit e rq H := proj1 (engine_asks _ _ ss limit e rq H (Hcedar ss limit e H));
     ask_denied ss limit e rq H := proj2 (engine_asks _ _ ss limit e rq H (Hcedar ss limit e H)) |}.
End Cedar.

(** The engine that evaluates the compiled policies directly. *)
Definition direct_compile (ss : list Statement) (limit : option (list Statement)) : res engine_error compiled :=
  match limit with
  | None => compile ss None
  | Some bs => g ← compileBoundary bs; compile ss g
  end.
Definition direct_build (ss : list Statement) (limit : option (list Statement))
    : res engine_error (Engine (PolicySet := list policy)) :=
  c ← direct_compile ss limit; Ok (mkEngine (cPolicies c) c).
Definition direct_ask : Engine → Request → Decision :=
  Authorize ParseIPAddr ParseDatetime (cedar_run ParseIPAddr isInRange ParseDatetime) cedar_annotation.

Lemma direct_engine_for ss limit e :
  direct_build ss limit = Ok e → engine_for (λ _, Some (cPolicies (eCompiled e))) (λ _, true) ss limit = Ok e.
Proof.
  unfold direct_build. intros (c & Hc & [= <-])%res_bind_Ok. cbn.
  destruct limit as [bs|]; cbn in Hc |- *; unfold NewEngineWithBoundary, NewEngine, newEngine.
  - apply res_bind_Ok in Hc as (g & -> & Hc). cbn. rewrite Hc. done.
  - rewrite Hc. done.
Qed.

Lemma direct_asks ss limit e rq :
  direct_build ss limit = Ok e →
  (dAllowed (direct_ask e rq) = true ↔
     well_typed ss rq ∧ granted Allow ss rq ∧ ¬ granted Deny ss rq ∧ within limit (rqAction rq) (resource_of rq)) ∧
  (dExplicitDeny (direct_ask e rq) = true ↔ well_typed ss rq ∧ granted Deny ss rq).
Proof.
  intros He. refine (engine_asks _ _ _ _ ss limit e rq (direct_engine_for _ _ _ He) _).
  unfold direct_build in He. apply res_bind_Ok in He as (c & _ & [= <-]). apply cedar_run_reads.
Qed.

Definition direct_engine : StatementEngine :=
  {| engine := Engine;
     build := direct_build;
     ask := direct_ask;
     ask_allowed ss limit e rq H := proj1 (direct_asks ss limit e rq H);
     ask_denied ss limit e rq H := proj2 (direct_asks ss limit e rq H) |}.
End Meaning.

Arguments engine {IP ParseIPAddr isInRange ParseDatetime StatementEngine}.
Arguments build {IP ParseIPAddr isInRange ParseDatetime StatementEngine} _ _.
Arguments ask {IP ParseIPAddr isInRange ParseDatetime StatementEngine} _ _.
Arguments ask_allowed {IP ParseIPAddr isInRange ParseDatetime StatementEngine} _ _ _ _ _.
Arguments ask_denied {IP ParseIPAddr isInRange ParseDatetime StatementEngine} _ _ _ _ _.
