(* ===== verification/IamAuthz.v ===== *)
(** * The authorization evaluator (console-api/internal/iamauthz: iamauthz.go, trust.go)

    One decision over a principal's policies, the resource's policy, the permission boundary and the
    session policy, with the engines it compiles kept for a generation of the policy world; the rollout
    modes; and trust policies.  The statement engine is the interface of StatementEngine. *)

From S2P Require Import Prelude GoStrings GoTime Json PolicyEngine IamImport IamWorld IamCompile StatementEngine.
#[local] Open Scope string_scope.
#[local] Open Scope Z_scope.
#[local] Open Scope list_scope.

(** ** Modes *)

Inductive Mode := ModeLegacy | ModeShadow | ModeEnforce.
#[export] Instance Mode_eq_dec : EqDecision Mode.
Proof. solve_decision. Defined.

Definition ParseMode (s : string) : Mode :=
  let m := ToLower (TrimSpace s) in
  if String.eqb m "shadow" then ModeShadow
  else if String.eqb m "enforce" then ModeEnforce
  else ModeLegacy.

(** ** Decisions *)

(** The reasons, by message. *)
Inductive reason :=
| OperatorSurface | RootUser | NoWorld | LoadFailed (err : string)
| ResourcePolicyBroken (i : nat) (e : engine_error) | ResourceDeny
| ScpRefused (why : string) | RootAcross | RootNeedsResource
| PolicyBroken (name : string) (e : engine_error) | PolicyDeny (name : string)
| SetBroken (set : string) (e : engine_error) | SetDeny (set : string)
| AcrossNeedsResource | NoPolicy | Outside (set : string) | AllowedBy (name : string)
| NoLegacy | LegacyReason (why : string).

Record Decision := mkDecision {
  dAllowed : bool;
  dExplicitDeny : bool;
  dReason : reason;
  dMatchedPolicy : string;
  dMode : option Mode;
}.

Definition denied (r : reason) : Decision := mkDecision false false r "" None.
Definition denied_by (explicit : bool) (r : reason) (matched : string) : Decision :=
  mkDecision false explicit r matched None.
Definition allowed_by (r : reason) (matched : string) : Decision := mkDecision true false r matched None.

Definition verdict (ok : bool) : string := if ok then "allow" else "deny".

(** ** Requests *)

(** splitTyped. *)
Definition splitTyped (typed : string) : string * string :=
  if String.eqb typed "*" || String.eqb typed "" then ("Any", "*")
  else match Cut typed "::" with
       | Some (t, id) => (t, id)
       | None => ("Any", typed)
       end.

(** What the request options set. *)
Record request := mkOptions { roAccount : string; roResource : list ResourceStatement }.

Definition allowAll : Statement := mkStatement Allow ["*"] [] ["*"] [] ∅ [] [] [] [].

Section Evaluator.
Context {IP : Type} (ParseIPAddr : string → option IP) (isInRange : IP → IP → bool).
Context (ParseDatetime : string → option Z).
#[local] Abbreviation mapResource := (mapResource (parses ParseIPAddr) (parses ParseDatetime)).
Context {SE : StatementEngine ParseIPAddr isInRange ParseDatetime}.

(** The evaluator.  [evLoads]: its cache has a loader. *)
Record Evaluator := mkEvaluator {
  evLoads : bool;
  evCache : Cache;
  evMode : Mode;
  evSCP : option (Principal → string → string → bool * bool * string);
  evGen : Z;
  evEngines : gmap string engine;
}.

(** One call of the cache's Get and the clock the policies are taken at: the clock before and after the
    load, what the loader returns if it is called, and the time PoliciesFor reads. *)
Record world_io := mkWorldIO {
  ioNow : Z;
  ioNow' : Z;
  ioLoad : World * option string;
  ioAt : Z;
}.

Definition with_engines (ev : Evaluator) (gen : Z) (engines : gmap string engine) : Evaluator :=
  mkEvaluator (evLoads ev) (evCache ev) (evMode ev) (evSCP ev) gen engines.
Definition with_cache (ev : Evaluator) (c : Cache) : Evaluator :=
  mkEvaluator (evLoads ev) c (evMode ev) (evSCP ev) (evGen ev) (evEngines ev).

Definition NewWithCache (loads : bool) (c : Cache) (m : Mode)
    (scp : option (Principal → string → string → bool * bool * string)) : Evaluator :=
  mkEvaluator loads c m scp 0 ∅.

(** engine: a policy's compiled engine, reused for the generation it was compiled in. *)
Definition engine_of (gen : Z) (pol : Policy) (ev : Evaluator) : res engine_error engine * Evaluator :=
  if String.eqb (polName pol) "" then (build (polStatements pol) None, ev)
  else
    let ev := if evGen ev =? gen then ev else with_engines ev gen ∅ in
    match evEngines ev !! polName pol with
    | Some e => (Ok e, ev)
    | None =>
        match build (polStatements pol) None with
        | Err e => (Err e, ev)
        | Ok e => (Ok e, with_engines ev (evGen ev) (<[polName pol := e]> (evEngines ev)))
        end
    end.

(** within: whether a request is inside a ceiling's Allow statements. *)
Definition within_ceiling (ceiling : list Statement) (rq : Request) : res engine_error bool :=
  e ← build [allowAll] (Some ceiling); Ok (PolicyEngine.dAllowed (ask e rq)).

(** explicitDeny: whether a set's Deny statements deny the request. *)
Definition deny_part (stmts : list Statement) : list Statement := filter (λ s, sEffect s = Deny) stmts.
Definition explicitDeny (stmts : list Statement) (rq : Request) : res engine_error bool :=
  if bool_decide (deny_part stmts = []) then Ok false
  else e ← build (allowAll :: deny_part stmts) None; Ok (PolicyEngine.dExplicitDeny (ask e rq)).

(** The resource's policy, as it applies to the caller: how it allows, and whether it denies. *)
Record resource_view := mkView { rvDeny : bool; rvPublic : bool; rvAccount : bool; rvSpecific : bool }.
Definition no_view : resource_view := mkView false false false false.

Definition add_view (h : how) (d : PolicyEngine.Decision) (v : resource_view) : resource_view :=
  if PolicyEngine.dExplicitDeny d then mkView true (rvPublic v) (rvAccount v) (rvSpecific v)
  else if PolicyEngine.dAllowed d then
    match h with
    | Specific => mkView (rvDeny v) (rvPublic v) (rvAccount v) true
    | Account => mkView (rvDeny v) (rvPublic v) true (rvSpecific v)
    | _ => mkView (rvDeny v) true (rvAccount v) (rvSpecific v)
    end
  else v.

Fixpoint resource_policy (i : nat) (rss : list ResourceStatement) (p : Principal) (rq : Request)
    (v : resource_view) : res Decision resource_view :=
  match rss with
  | [] => Ok v
  | rs :: rss =>
      let h := appliesToPrincipal rs p in
      if bool_decide (h = NotNamed) then resource_policy (S i) rss p rq v
      else
        match build [rsStatement rs] None with
        | Err e => Err (denied (ResourcePolicyBroken i e))
        | Ok e => resource_policy (S i) rss p rq (add_view h (ask e rq) v)
        end
  end.

Definition rvAny (v : resource_view) : bool := rvSpecific v || rvAccount v || rvPublic v.
Definition rvMatched (v : resource_view) : string := if rvAny v then "resource-policy" else "".

(** The identity policies: a decision on the first that denies or does not compile, else the first that
    allows. *)
Fixpoint identity_policies (gen : Z) (pols : list Policy) (rq : Request) (allow : option string)
    (ev : Evaluator) : res Decision (option string) * Evaluator :=
  match pols with
  | [] => (Ok allow, ev)
  | pol :: pols =>
      let '(r, ev) := engine_of gen pol ev in
      match r with
      | Err e => (Err (denied (PolicyBroken (polName pol) e)), ev)
      | Ok e =>
          let d := ask e rq in
          if PolicyEngine.dExplicitDeny d
          then (Err (denied_by true (PolicyDeny (polName pol)) (polName pol)), ev)
          else
            identity_policies gen pols rq
              (if PolicyEngine.dAllowed d && bool_decide (allow = None) then Some (polName pol) else allow) ev
      end
  end.

(** The Deny statements of the boundary and of the session policy. *)
Fixpoint set_denies (sets : list (string * list Statement)) (rq : Request) : res Decision () :=
  match sets with
  | [] => Ok ()
  | (name, stmts) :: sets =>
      match explicitDeny stmts rq with
      | Err e => Err (denied (SetBroken name e))
      | Ok true => Err (denied_by true (SetDeny name) name)
      | Ok false => set_denies sets rq
      end
  end.

(** A ceiling that must also cover the request. *)
Definition ceiling (active : bool) (name matched : string) (stmts : list Statement) (rq : Request)
    : res Decision () :=
  if active then
    match within_ceiling stmts rq with
    | Err e => Err (denied (SetBroken name e))
    | Ok false => Err (denied_by false (Outside name) matched)
    | Ok true => Ok ()
    end
  else Ok ().

Definition boundary_name : string := "the permission boundary".
Definition session_name : string := "the session policy".

Definition has_identity (p : Principal) : bool := bool_decide (pType p = User) || bool_decide (pType p = Role).

Definition identity_groups (p : Principal) : list string :=
  if bool_decide (pType p = Role) then [] else pGroups p.
Definition policies_of (w : World) (p : Principal) (now : Z) : list Policy :=
  if has_identity p then PoliciesAt w (type_name (pType p)) (pID p) (identity_groups p) now else [].
Definition boundary_of (w : World) (p : Principal) : bool * list Statement :=
  if has_identity p then BoundaryFor w (type_name (pType p)) (pID p) else (false, []).
Definition session_of (p : Principal) : list Statement :=
  match pSession p with Some s => sesPolicies s | None => [] end.

Definition as_decision (r : res Decision Decision) : Decision := match r with Ok d | Err d => d end.

(** What the identity side, the resource's policy and the two ceilings decide together. *)
Definition conclude (w : World) (p : Principal) (same : bool) (rq : Request) (v : resource_view)
    (allow : option string) : Decision :=
  let '(hasBoundary, boundary) := boundary_of w p in
  let session := session_of p in
  as_decision (
    _ ← set_denies [(boundary_name, boundary); (session_name, session)] rq;
    let idAllow := bool_decide (is_Some allow) in
    let matched := match allow with Some n => n | None => if same then rvMatched v else "" end in
    let allowed := if same then idAllow || rvSpecific v || rvPublic v else idAllow && rvAny v in
    if negb allowed then
      Ok (denied (if negb same && idAllow then AcrossNeedsResource else NoPolicy))
    else
      _ ← ceiling hasBoundary boundary_name "boundary" boundary rq;
      _ ← ceiling (negb (bool_decide (session = []))) session_name "session-policy" session rq;
      Ok (allowed_by (AllowedBy matched) matched)).

(** The part of Authorize after the policy world is loaded. *)
Definition decide_in (w : World) (gen : Z) (now : Z) (p : Principal) (typed : string) (same : bool)
    (rq : Request) (rss : list ResourceStatement) (ev : Evaluator) : Decision * Evaluator :=
  match resource_policy 0 rss p rq no_view with
  | Err d => (d, ev)
  | Ok v =>
      if rvDeny v then (denied_by true ResourceDeny "resource-policy", ev)
      else
        match (match evSCP ev with
               | Some scp =>
                   let '(ok, explicit, why) := scp p (rqAction rq) typed in
                   if ok : bool then None
                   else Some (denied_by explicit
                     (ScpRefused (if String.eqb why "" then "not allowed by the organization's service control policy" else why)) "scp")
               | None => None
               end) with
        | Some d => (d, ev)
        | None =>
            if bool_decide (pType p = Root) then
              (if same then allowed_by RootUser "root"
               else if rvAny v then allowed_by RootAcross (rvMatched v)
               else denied RootNeedsResource, ev)
            else
              let '(r, ev) := identity_policies gen (policies_of w p now) rq None ev in
              (match r with Err d => d | Ok allow => conclude w p same rq v allow end, ev)
        end
  end.

(** The account the resource belongs to, and the request the engines are asked. *)
Definition resource_account (p : Principal) (resource : string) (ro : request) : string :=
  if negb (String.eqb (roAccount ro) "") then roAccount ro
  else let acct := (mapResource resource).2 in
       if negb (String.eqb acct "") then acct else AccountID p.

Definition engine_request (p : Principal) (action resource : string) (ctx : gmap string any) (resAcct : string)
    : Request :=
  let '(rt, rid) := splitTyped (mapResource resource).1 in
  mkRequest (mkEntity (type_name (pType p)) (pID p)) action (mkEntity rt rid)
    (<[principalAccountKey := AStr (AccountID p)]> (<[resourceAccountKey := AStr resAcct]> ctx)).

Definition operator_refused (p : Principal) (action : string) : bool :=
  negb (String.eqb (AccountID p) ManagementAccount) && HasPrefix action operatorPrefix.

Definition Authorize (ev : Evaluator) (io : world_io) (p : Principal) (action resource : string)
    (reqCtx : gmap string any) (ro : request) : Decision * Evaluator :=
  if operator_refused p action then (denied OperatorSurface, ev)
  else if negb (evLoads ev) then
    (if bool_decide (pType p = Root) then allowed_by RootUser "root" else denied NoWorld, ev)
  else
    let '((w, gen, err), cache) := Get (evCache ev) (ioNow io) (ioNow' io) (ioLoad io) in
    let ev := with_cache ev cache in
    match err with
    | Some e => (denied (LoadFailed e), ev)
    | None =>
        let resAcct := resource_account p resource ro in
        decide_in w gen (ioAt io) p (mapResource resource).1 (String.eqb resAcct (AccountID p))
          (engine_request p action resource reqCtx resAcct) (roResource ro) ev
    end.

(** ** Modes *)

Definition ModeFor (ev : Evaluator) (io : world_io) (p : Principal) : Mode * Evaluator :=
  if negb (bool_decide (evMode ev = ModeShadow)) then (evMode ev, ev)
  else if negb (has_identity p) then (evMode ev, ev)
  else if negb (evLoads ev) then (evMode ev, ev)
  else
    let '((w, _, err), cache) := Get (evCache ev) (ioNow io) (ioNow' io) (ioLoad io) in
    (match err with
     | None => if default false (wEnforce w !! Key p) then ModeEnforce else evMode ev
     | Some _ => evMode ev
     end, with_cache ev cache).

(** What Decide logs: a difference between the two decisions. *)
Record shadow_log := mkShadowLog { slNew : Decision; slLegacy : bool }.

Definition runLegacy (legacy : option (bool * string)) (m : Mode) : Decision :=
  match legacy with
  | None => mkDecision false false NoLegacy "" (Some m)
  | Some (ok, why) => mkDecision ok false (LegacyReason why) "" (Some m)
  end.

Definition set_mode (d : Decision) (m : Mode) : Decision :=
  mkDecision (dAllowed d) (dExplicitDeny d) (dReason d) (dMatchedPolicy d) (Some m).

(** [legacy] is what the legacy decision returns when it is run, [None] when there is none. *)
Definition Decide (ev : Evaluator) (io1 io2 : world_io) (p : Principal) (action resource : string)
    (reqCtx : gmap string any) (legacy : option (bool * string)) (ro : request)
    : Decision * option shadow_log * Evaluator :=
  let '(m, ev) := ModeFor ev io1 p in
  match m with
  | ModeEnforce =>
      let '(d, ev) := Authorize ev io2 p action resource reqCtx ro in (set_mode d ModeEnforce, None, ev)
  | ModeShadow =>
      let old := runLegacy legacy ModeShadow in
      let '(d, ev) := Authorize ev io2 p action resource reqCtx ro in
      (old, if negb (eqb (dAllowed d) (dAllowed old)) then Some (mkShadowLog d (dAllowed old)) else None, ev)
  | ModeLegacy => (runLegacy legacy ModeLegacy, None, ev)
  end.

(** ** Trust policies *)

Inductive trust_refusal :=
| TrustParse (e : compile_error) | TrustCompile (e : engine_error) | TrustDenied | TrustNotAllowed.

Fixpoint trust_statements (rss : list ResourceStatement) (p : Principal) (rq : Request) (allowed : bool)
    : res trust_refusal bool :=
  match rss with
  | [] => Ok allowed
  | rs :: rss =>
      if bool_decide (appliesToPrincipal rs p = NotNamed) then trust_statements rss p rq allowed
      else
        match build [rsStatement rs] None with
        | Err e => Err (TrustCompile e)
        | Ok e =>
            let d := ask e rq in
            if PolicyEngine.dExplicitDeny d then Err TrustDenied
            else trust_statements rss p rq (PolicyEngine.dAllowed d || allowed)
        end
  end.

Definition trust_account (p : Principal) (roleARN : string) : string :=
  let acct := (mapResource roleARN).2 in
  let acct := if String.eqb acct "" then arnAccount roleARN else acct in
  if String.eqb acct "" || String.eqb acct "*" then AccountID p else acct.

(** AuthorizeTrust, on the decoded document. *)
Definition AuthorizeTrust (doc : json) (p : Principal) (action roleARN : string) (reqCtx : gmap string any)
    : res trust_refusal () :=
  match documentStatements doc with
  | Err e => Err (TrustParse e)
  | Ok raw =>
      if negb (existsb (λ st, has_key st "Condition") raw) then Ok ()
      else
        match ParseResourcePolicy (parses ParseIPAddr) (parses ParseDatetime) doc with
        | Err e => Err (TrustParse e)
        | Ok (stmts, _) =>
            allowed ← trust_statements stmts p
              (engine_request p action roleARN reqCtx (trust_account p roleARN)) false;
            if allowed : bool then Ok () else Err TrustNotAllowed
        end
  end.
End Evaluator.

Arguments evLoads {IP ParseIPAddr isInRange ParseDatetime SE} _.
Arguments evCache {IP ParseIPAddr isInRange ParseDatetime SE} _.
Arguments evMode {IP ParseIPAddr isInRange ParseDatetime SE} _.
Arguments evSCP {IP ParseIPAddr isInRange ParseDatetime SE} _.
Arguments evGen {IP ParseIPAddr isInRange ParseDatetime SE} _.
Arguments evEngines {IP ParseIPAddr isInRange ParseDatetime SE} _.
Arguments with_engines {IP ParseIPAddr isInRange ParseDatetime SE} _ _ _.
Arguments with_cache {IP ParseIPAddr isInRange ParseDatetime SE} _ _.

(** ** What is decided

    A set of statements compiled into one engine allows a request, or denies it explicitly. *)
Section Spec.
Context {IP : Type} (ParseIPAddr : string → option IP) (isInRange : IP → IP → bool).
Context (ParseDatetime : string → option Z).
#[local] Abbreviation mapResource := (mapResource (parses ParseIPAddr) (parses ParseDatetime)).
#[local] Abbreviation granted := (granted ParseIPAddr isInRange ParseDatetime).

Definition policy_allows (ss : list Statement) (rq : Request) : Prop :=
  well_typed ss rq ∧ granted Allow ss rq ∧ ¬ granted Deny ss rq.
Definition policy_denies (ss : list Statement) (rq : Request) : Prop := well_typed ss rq ∧ granted Deny ss rq.

(** The resource's policy, naming the caller in a given way. *)
Definition resource_allows (h : how) (rss : list ResourceStatement) (p : Principal) (rq : Request) : Prop :=
  ∃ rs, rs ∈ rss ∧ appliesToPrincipal rs p = h ∧ policy_allows [rsStatement rs] rq.
Definition resource_denies (rss : list ResourceStatement) (p : Principal) (rq : Request) : Prop :=
  ∃ rs, rs ∈ rss ∧ appliesToPrincipal rs p ≠ NotNamed ∧ policy_denies [rsStatement rs] rq.

(** AWS's evaluation logic over a policy world: explicit denies, the service control policy, the identity
    and the resource's policy within an account and across accounts, and the two ceilings. *)
Definition scp_allows (scp : option (Principal → string → string → bool * bool * string)) (p : Principal)
    (action typed : string) : Prop :=
  match scp with Some f => (f p action typed).1.1 = true | None => True end.

Definition identity_allows (w : World) (p : Principal) (now : Z) (rq : Request) : Prop :=
  ∃ pol, pol ∈ policies_of w p now ∧ policy_allows (polStatements pol) rq.
Definition identity_denies (w : World) (p : Principal) (now : Z) (rq : Request) : Prop :=
  ∃ pol, pol ∈ policies_of w p now ∧ policy_denies (polStatements pol) rq.

Definition ceiling_denies (stmts : list Statement) (rq : Request) : Prop :=
  policy_denies (allowAll :: deny_part stmts) rq.
Definition ceiling_covers (active : Prop) (stmts : list Statement) (rq : Request) : Prop :=
  active → boundary_covers stmts (rqAction rq) (resource_of rq).

Definition aws_allows (w : World) (now : Z) (p : Principal) (typed : string) (same : bool) (rq : Request)
    (rss : list ResourceStatement) (scp : option (Principal → string → string → bool * bool * string)) : Prop :=
  let any := resource_allows Specific rss p rq ∨ resource_allows Account rss p rq ∨ resource_allows Public rss p rq in
  let boundary := (boundary_of w p).2 in
  let session := session_of p in
  ¬ resource_denies rss p rq ∧ scp_allows scp p (rqAction rq) typed ∧
  if bool_decide (pType p = Root) then same = true ∨ any
  else
    ¬ identity_denies w p now rq ∧ ¬ ceiling_denies boundary rq ∧ ¬ ceiling_denies session rq ∧
    (if same : bool
     then identity_allows w p now rq ∨ resource_allows Specific rss p rq ∨ resource_allows Public rss p rq
     else identity_allows w p now rq ∧ any) ∧
    ceiling_covers ((boundary_of w p).1 = true) boundary rq ∧ ceiling_covers (session ≠ []) session rq.

Context {SE : StatementEngine ParseIPAddr isInRange ParseDatetime}.
#[local] Abbreviation Evaluator := (Evaluator ParseIPAddr isInRange ParseDatetime).

(** Every set of statements the decision needs compiles. *)
Definition builds (ss : list Statement) (limit : option (list Statement)) : Prop := ∃ e, build ss limit = Ok e.
Definition set_builds (stmts : list Statement) : Prop :=
  (deny_part stmts ≠ [] → builds (allowAll :: deny_part stmts) None) ∧ builds [allowAll] (Some stmts).
Definition all_build (w : World) (now : Z) (p : Principal) (rss : list ResourceStatement) : Prop :=
  (∀ rs, rs ∈ rss → appliesToPrincipal rs p ≠ NotNamed → builds [rsStatement rs] None) ∧
  (∀ pol, pol ∈ policies_of w p now → builds (polStatements pol) None) ∧
  set_builds (boundary_of w p).2 ∧ set_builds (session_of p).

Lemma allowAll_applies c a r : applies ParseIPAddr isInRange ParseDatetime c a r allowAll.
Proof.
  unfold applies, action_ok, resource_ok, value_holds. cbn. split; [|split; [|split; [|constructor]]].
  - right. exists "*". split; [by left|apply like_star_all].
  - right. exists "*". split; [by left|]. left. apply like_star_all.
  - left. split; [|split; [constructor|split; constructor]]. intros k v. by rewrite lookup_empty.
Qed.

Lemma within_ceiling_spec stmts rq b :
  within_ceiling ParseIPAddr isInRange ParseDatetime stmts rq = Ok b →
  b = true ↔ boundary_covers stmts (rqAction rq) (resource_of rq).
Proof.
  unfold within_ceiling. intros (e & He & [= <-])%res_bind_Ok. rewrite (ask_allowed _ _ _ rq He). cbn [within].
  split; [tauto|]. intros Hb. split_and!; [| | |done].
  - intros s kc v ->%list_elem_of_singleton Hkc. by apply not_elem_of_nil in Hkc.
  - exists allowAll. split_and!; [by left|done|apply allowAll_applies].
  - intros (s & ->%list_elem_of_singleton & [=] & _).
Qed.

Lemma explicitDeny_spec stmts rq b :
  explicitDeny ParseIPAddr isInRange ParseDatetime stmts rq = Ok b → b = true ↔ ceiling_denies stmts rq.
Proof.
  unfold explicitDeny, ceiling_denies, policy_denies. destruct (bool_decide_reflect (deny_part stmts = [])) as [->|Hne].
  - intros [= <-]. split; [done|]. by intros (_ & s & ->%list_elem_of_singleton & [=] & _).
  - intros (e & He & [= <-])%res_bind_Ok. by rewrite (ask_denied _ _ _ rq He).
Qed.

(** The resource's policy. *)
Lemma resource_policy_spec i rss p rq v v' :
  resource_policy ParseIPAddr isInRange ParseDatetime i rss p rq v = Ok v' →
  (rvDeny v' = true ↔ rvDeny v = true ∨ resource_denies rss p rq) ∧
  (rvSpecific v' = true ↔ rvSpecific v = true ∨ resource_allows Specific rss p rq) ∧
  (rvAccount v' = true ↔ rvAccount v = true ∨ resource_allows Account rss p rq) ∧
  (rvPublic v' = true ↔ rvPublic v = true ∨ resource_allows Public rss p rq).
Proof.
  revert i v. induction rss as [|rs rss IH]; intros i v; cbn [resource_policy].
  { intros [= <-]. unfold resource_denies, resource_allows. set_solver. }
  assert (Hd : resource_denies (rs :: rss) p rq ↔
    (appliesToPrincipal rs p ≠ NotNamed ∧ policy_denies [rsStatement rs] rq) ∨ resource_denies rss p rq).
  { unfold resource_denies. setoid_rewrite elem_of_cons. naive_solver. }
  assert (Ha : ∀ h, resource_allows h (rs :: rss) p rq ↔
    (appliesToPrincipal rs p = h ∧ policy_allows [rsStatement rs] rq) ∨ resource_allows h rss p rq).
  { intros h. unfold resource_allows. setoid_rewrite elem_of_cons. naive_solver. }
  rewrite Hd, !Ha. destruct (bool_decide_reflect (appliesToPrincipal rs p = NotNamed)) as [Hn|Hn].
  { intros H%IH. rewrite Hn. naive_solver. }
  destruct (build [rsStatement rs] None) as [e|e] eqn:Hb; [|done]. intros (-> & -> & -> & ->)%IH.
  pose proof (ask_allowed _ _ _ rq Hb) as Hall. pose proof (ask_denied _ _ _ rq Hb) as Hden. cbn [within] in Hall.
  unfold add_view. fold (policy_denies [rsStatement rs] rq) in Hden.
  assert (Hall' : PolicyEngine.dAllowed (ask e rq) = true ↔ policy_allows [rsStatement rs] rq) by (unfold policy_allows; tauto).
  clear Hall. assert (Hex : policy_denies [rsStatement rs] rq → ¬ policy_allows [rsStatement rs] rq).
  { unfold policy_denies, policy_allows. tauto. }
  destruct (PolicyEngine.dExplicitDeny (ask e rq)); cbn; [naive_solver|].
  destruct (PolicyEngine.dAllowed (ask e rq)); [|naive_solver].
  destruct (appliesToPrincipal rs p); cbn; naive_solver.
Qed.

Lemma resource_policy_builds i rss p rq v d :
  resource_policy ParseIPAddr isInRange ParseDatetime i rss p rq v = Err d →
  (∃ rs, rs ∈ rss ∧ appliesToPrincipal rs p ≠ NotNamed ∧ ¬ builds [rsStatement rs] None) ∧ dAllowed d = false.
Proof.
  revert i v. induction rss as [|rs rss IH]; intros i v; cbn [resource_policy]; [done|].
  destruct (bool_decide_reflect (appliesToPrincipal rs p = NotNamed)) as [Hn|Hn].
  { intros [(rs' & ? & ?) ?]%IH. split; [|done]. exists rs'. split; [by right|done]. }
  destruct (build [rsStatement rs] None) as [e|e] eqn:Hb.
  - intros [(rs' & ? & ?) ?]%IH. split; [|done]. exists rs'. split; [by right|done].
  - intros [= <-]. split; [|done]. exists rs. split_and!; [by left|done|]. intros [e' He']. congruence.
Qed.
(** ** The engine cache

    [worlds] is the world each generation was loaded with. *)
Section Coherent.
Context (worlds : Z → World).
#[local] Abbreviation engine_of := (engine_of ParseIPAddr isInRange ParseDatetime).
#[local] Abbreviation identity_policies := (identity_policies ParseIPAddr isInRange ParseDatetime).

Definition reachable (w : World) (pol : Policy) : Prop :=
  ∃ ptype pid groups now, pol ∈ PoliciesAt w ptype pid groups now.

(** A name stands for one policy of the world. *)
Definition unambiguous (w : World) : Prop :=
  ∀ pol pol', reachable w pol → reachable w pol' → polName pol = polName pol' → polName pol ≠ "" →
              polStatements pol = polStatements pol'.

(** Each engine kept is that of the policy of its name in the world of the generation. *)
Definition coherent (ev : Evaluator) : Prop :=
  ∀ name e pol, evEngines ev !! name = Some e → reachable (worlds (evGen ev)) pol → polName pol = name →
                build (polStatements pol) None = Ok e.

(** What an evaluator decides with, its engines aside. *)
Definition same_settings (ev ev' : Evaluator) : Prop :=
  evLoads ev = evLoads ev' ∧ evCache ev = evCache ev' ∧ evMode ev = evMode ev' ∧ evSCP ev = evSCP ev'.

Lemma engine_of_coherent gen pol ev :
  coherent ev → unambiguous (worlds gen) → reachable (worlds gen) pol →
  (engine_of gen pol ev).1 = build (polStatements pol) None ∧
  coherent (engine_of gen pol ev).2 ∧ same_settings ev (engine_of gen pol ev).2.
Proof.
  intros Hc Hu Hr. unfold IamAuthz.engine_of. destruct (String.eqb_spec (polName pol) "") as [_|Hne]; [done|].
  set (ev' := if evGen ev =? gen then ev else _).
  assert (Hev : evGen ev' = gen ∧ coherent ev' ∧ same_settings ev ev').
  { unfold ev'. destruct (Z.eqb_spec (evGen ev) gen) as [<-|Hg]; [done|]. split; [done|]. split; [|done].
    intros name e pol'. cbn. by rewrite lookup_empty. }
  clearbody ev'. destruct Hev as (Hg & Hc' & Hs).
  destruct (evEngines ev' !! polName pol) as [e|] eqn:He.
  { cbn. split; [|done]. symmetry. apply (Hc' (polName pol)); [done|by rewrite Hg|done]. }
  destruct (build (polStatements pol) None) as [e|e] eqn:Hb; cbn; [|done]. split; [done|]. split; [|done].
  intros name e' pol' Hl Hr' Hn. cbn in *. rewrite Hg in Hr'.
  apply lookup_insert_Some in Hl as [[<- <-]|[_ Hl]].
  - by rewrite <- (Hu pol pol' Hr Hr' (eq_sym Hn) Hne).
  - apply (Hc' name e' pol'); [done|by rewrite Hg|done].
Qed.

(** The identity policies, each compiled afresh. *)
Fixpoint identity_pure (pols : list Policy) (rq : Request) (allow : option string) : res Decision (option string) :=
  match pols with
  | [] => Ok allow
  | pol :: pols =>
      match build (polStatements pol) None with
      | Err e => Err (denied (PolicyBroken (polName pol) e))
      | Ok e =>
          let d := ask e rq in
          if PolicyEngine.dExplicitDeny d then Err (denied_by true (PolicyDeny (polName pol)) (polName pol))
          else identity_pure pols rq
                 (if PolicyEngine.dAllowed d && bool_decide (allow = None) then Some (polName pol) else allow)
      end
  end.

Lemma identity_policies_pure gen pols rq allow ev :
  coherent ev → unambiguous (worlds gen) → Forall (reachable (worlds gen)) pols →
  (identity_policies gen pols rq allow ev).1 = identity_pure pols rq allow ∧
  coherent (identity_policies gen pols rq allow ev).2 ∧
  same_settings ev (identity_policies gen pols rq allow ev).2.
Proof.
  intros Hc Hu Hr. revert allow ev Hc. induction Hr as [|pol pols Hp _ IH]; intros allow ev Hc; [done|].
  cbn [IamAuthz.identity_policies identity_pure].
  destruct (engine_of_coherent gen pol ev Hc Hu Hp) as (He & Hc' & Hs).
  destruct (engine_of gen pol ev) as [r ev']. cbn [fst snd] in *. subst r.
  destruct (build (polStatements pol) None) as [e|e]; [|done].
  destruct (PolicyEngine.dExplicitDeny (ask e rq)); [done|].
  destruct (IH (if PolicyEngine.dAllowed (ask e rq) && bool_decide (allow = None) then Some (polName pol) else allow)
              ev' Hc') as (-> & H2 & H3).
  split_and!; [done|done|]. unfold same_settings in *. destruct_and!. split_and!; congruence.
Qed.
End Coherent.

Lemma identity_pure_spec pols rq allow allow' :
  identity_pure pols rq allow = Ok allow' →
  (∀ pol, pol ∈ pols → ¬ policy_denies (polStatements pol) rq) ∧
  (is_Some allow' ↔ is_Some allow ∨ ∃ pol, pol ∈ pols ∧ policy_allows (polStatements pol) rq).
Proof.
  revert allow. induction pols as [|pol pols IH]; intros allow; cbn [identity_pure]; [intros [= <-]; set_solver|].
  destruct (build (polStatements pol) None) as [e|e] eqn:Hb; [|done].
  pose proof (ask_allowed _ _ _ rq Hb) as Hall. pose proof (ask_denied _ _ _ rq Hb) as Hden. cbn [within] in Hall.
  assert (Hall' : PolicyEngine.dAllowed (ask e rq) = true ↔ policy_allows (polStatements pol) rq).
  { rewrite Hall. unfold policy_allows. tauto. }
  fold (policy_denies (polStatements pol) rq) in Hden. clear Hall.
  destruct (PolicyEngine.dExplicitDeny (ask e rq)); [done|]. intros [Hno Hsome]%IH. split.
  - intros pol' [->|Hin]%elem_of_cons; [|by apply Hno]. rewrite <- Hden. done.
  - rewrite Hsome. setoid_rewrite elem_of_cons. clear Hsome.
    destruct (PolicyEngine.dAllowed (ask e rq)); cbn.
    + pose proof (proj1 Hall' eq_refl) as Hp. split; [|intros _; left; by destruct allow].
      intros _. right. exists pol. split; [by left|done].
    + assert (¬ policy_allows (polStatements pol) rq) by (rewrite <- Hall'; done). naive_solver.
Qed.

Lemma identity_pure_fails pols rq allow d :
  identity_pure pols rq allow = Err d →
  dAllowed d = false ∧
  ∃ pol, pol ∈ pols ∧ (policy_denies (polStatements pol) rq ∨ ¬ builds (polStatements pol) None).
Proof.
  revert allow. induction pols as [|pol pols IH]; intros allow; cbn [identity_pure]; [done|].
  destruct (build (polStatements pol) None) as [e|e] eqn:Hb.
  - pose proof (ask_denied _ _ _ rq Hb) as Hden. destruct (PolicyEngine.dExplicitDeny (ask e rq)).
    + intros [= <-]. split; [done|]. exists pol. split; [by left|]. left. by apply Hden.
    + intros [? (pol' & ? & ?)]%IH. split; [done|]. exists pol'. split; [by right|done].
  - intros [= <-]. split; [done|]. exists pol. split; [by left|]. right. intros [e' He']. congruence.
Qed.

(** ** The ceilings, and the conclusion *)

Lemma set_denies_spec sets rq :
  match set_denies ParseIPAddr isInRange ParseDatetime sets rq with
  | Ok _ => ∀ set, set ∈ sets → ¬ ceiling_denies set.2 rq
  | Err d => dAllowed d = false ∧ ∃ set, set ∈ sets ∧ (ceiling_denies set.2 rq ∨ ¬ set_builds set.2)
  end.
Proof.
  induction sets as [|[name stmts] sets IH]; cbn [set_denies]; [set_solver|].
  destruct (explicitDeny ParseIPAddr isInRange ParseDatetime stmts rq) as [[]|e] eqn:Ed.
  - pose proof (explicitDeny_spec _ _ _ Ed) as Hd. split; [done|]. exists (name, stmts). split; [by left|].
    left. by apply Hd.
  - pose proof (explicitDeny_spec _ _ _ Ed) as Hd. revert IH.
    destruct (set_denies ParseIPAddr isInRange ParseDatetime sets rq) as [[]|d].
    + intros IH set [->|Hin]%elem_of_cons; [|by apply IH]. cbn. rewrite <- Hd. done.
    + intros [? (set & ? & ?)]. split; [done|]. exists set. split; [by right|done].
  - split; [done|]. exists (name, stmts). split; [by left|]. right. intros [Hb _]. cbn [snd] in Hb. revert Ed.
    unfold explicitDeny. destruct (bool_decide_reflect (deny_part stmts = [])) as [|Hne]; [done|].
    destruct (Hb Hne) as [e' ->]. done.
Qed.

Lemma ceiling_spec active name matched stmts rq :
  match ceiling ParseIPAddr isInRange ParseDatetime active name matched stmts rq with
  | Ok _ => ceiling_covers (active = true) stmts rq
  | Err d => dAllowed d = false ∧ (set_builds stmts → ¬ ceiling_covers (active = true) stmts rq)
  end.
Proof.
  unfold ceiling, ceiling_covers. destruct active; [|done].
  destruct (within_ceiling ParseIPAddr isInRange ParseDatetime stmts rq) as [[]|e] eqn:Ew.
  - intros _. by apply (within_ceiling_spec _ _ _ Ew).
  - split; [done|]. intros _ H. by apply (within_ceiling_spec _ _ _ Ew) in H.
  - split; [done|]. intros [_ [e' He']]. exfalso. revert Ew. unfold within_ceiling. by rewrite He'.
Qed.

(** What the identity side and the resource's policy say together. *)
Definition sides_allow (same : bool) (v : resource_view) (allow : option string) : Prop :=
  if same then is_Some allow ∨ rvSpecific v = true ∨ rvPublic v = true else is_Some allow ∧ rvAny v = true.

Lemma conclude_spec w p same rq v allow :
  let boundary := (boundary_of w p).2 in
  let session := session_of p in
  let ok := ¬ ceiling_denies boundary rq ∧ ¬ ceiling_denies session rq ∧ sides_allow same v allow ∧
            ceiling_covers ((boundary_of w p).1 = true) boundary rq ∧ ceiling_covers (session ≠ []) session rq in
  let d := conclude ParseIPAddr isInRange ParseDatetime w p same rq v allow in
  (dAllowed d = true → ok) ∧ (set_builds boundary → set_builds session → ok → dAllowed d = true).
Proof.
  cbv zeta. unfold conclude. destruct (boundary_of w p) as [hasB boundary]. cbn [fst snd].
  pose proof (set_denies_spec [(boundary_name, boundary); (session_name, session_of p)] rq) as Hsets.
  destruct (set_denies _ _ _ _ rq) as [u|d]; cbn [mbind res_bind as_decision].
  2: { destruct Hsets as [Hd (set & Hin & Hset)]. split; [by rewrite Hd|]. intros Hb Hs (Hnb & Hns & _). exfalso.
       rewrite !elem_of_cons in Hin. destruct Hin as [->|[->|?%not_elem_of_nil]]; cbn in Hset; [tauto|tauto|done]. }
  assert (Hnb : ¬ ceiling_denies boundary rq) by (apply (Hsets (boundary_name, boundary)); by left).
  assert (Hns : ¬ ceiling_denies (session_of p) rq) by (apply (Hsets (session_name, session_of p)); right; by left).
  set (allowed := if same then _ else _).
  assert (Hside : allowed = true ↔ sides_allow same v allow).
  { unfold allowed, sides_allow. destruct same; rewrite ?orb_true_iff, ?andb_true_iff, bool_decide_eq_true; tauto. }
  destruct allowed; cbn [negb].
  2: { split; [done|]. intros _ _ (_ & _ & Hs & _). by apply Hside in Hs. }
  pose proof (ceiling_spec hasB boundary_name "boundary" boundary rq) as Hcb.
  destruct (ceiling _ _ _ hasB _ _ _ _) as [u1|d1]; cbn [mbind res_bind as_decision].
  2: { destruct Hcb as [Hd Hc]. split; [by rewrite Hd|]. intros Hb _ (_ & _ & _ & H & _). by apply Hc in H. }
  set (active := negb (bool_decide (session_of p = []))).
  assert (Hact : active = true ↔ session_of p ≠ []).
  { unfold active. by rewrite negb_true_iff, bool_decide_eq_false. }
  pose proof (ceiling_spec active session_name "session-policy" (session_of p) rq) as Hcs.
  assert (Hcov : ceiling_covers (active = true) (session_of p) rq ↔ ceiling_covers (session_of p ≠ []) (session_of p) rq).
  { unfold ceiling_covers. by rewrite Hact. }
  destruct (ceiling _ _ _ active _ _ _ _) as [u2|d2]; cbn [mbind res_bind as_decision]; rewrite Hcov in Hcs.
  - split; [|done]. intros _. split_and!; [done|done|by apply Hside|exact Hcb|exact Hcs].
  - destruct Hcs as [Hd Hc]. split; [by rewrite Hd|]. intros _ Hs (_ & _ & _ & _ & H). by apply Hc in H.
Qed.

(** ** Authorize *)

Section Authorize.
Context (worlds : Z → World).
#[local] Abbreviation Authorize := (Authorize ParseIPAddr isInRange ParseDatetime).
#[local] Abbreviation decide_in := (decide_in ParseIPAddr isInRange ParseDatetime).
#[local] Abbreviation coherent := (coherent worlds).

(** The decision once the world is loaded, each policy compiled afresh. *)
Definition identity_part (w : World) (now : Z) (p : Principal) (same : bool) (rq : Request) (v : resource_view)
    : Decision :=
  match identity_pure (policies_of w p now) rq None with
  | Err d => d
  | Ok allow => conclude ParseIPAddr isInRange ParseDatetime w p same rq v allow
  end.

Lemma policies_reachable w p now : Forall (reachable w) (policies_of w p now).
Proof.
  apply Forall_forall. intros pol. unfold policies_of. destruct (has_identity p); [|by intros ?%not_elem_of_nil].
  intros H. by exists (type_name (pType p)), (pID p), (identity_groups p), now.
Qed.

Lemma decide_in_cache gen now p typed same rq rss ev ev' :
  coherent ev → coherent ev' → unambiguous (worlds gen) → same_settings ev ev' →
  (decide_in (worlds gen) gen now p typed same rq rss ev).1 = (decide_in (worlds gen) gen now p typed same rq rss ev').1 ∧
  coherent (decide_in (worlds gen) gen now p typed same rq rss ev).2.
Proof.
  intros Hc Hc' Hu (_ & _ & _ & Hscp). unfold IamAuthz.decide_in.
  destruct (resource_policy _ _ _ _ _ _ _ _) as [v|d]; [|done].
  destruct (rvDeny v); [done|]. rewrite <- Hscp. destruct (match evSCP ev with Some _ => _ | None => _ end); [done|].
  destruct (bool_decide (pType p = Root)); [done|].
  destruct (identity_policies_pure worlds gen _ rq None ev Hc Hu (policies_reachable (worlds gen) p now)) as (H1 & H2 & _).
  destruct (identity_policies_pure worlds gen _ rq None ev' Hc' Hu (policies_reachable (worlds gen) p now)) as (H1' & _ & _).
  destruct (identity_policies _ _ _ gen _ rq None ev) as [r e], (identity_policies _ _ _ gen _ rq None ev') as [r' e'].
  cbn in *. by rewrite H1, H1'.
Qed.

Lemma resource_views rss p rq v :
  resource_policy ParseIPAddr isInRange ParseDatetime 0 rss p rq no_view = Ok v →
  (rvDeny v = true ↔ resource_denies rss p rq) ∧
  (rvAny v = true ↔ resource_allows Specific rss p rq ∨ resource_allows Account rss p rq ∨ resource_allows Public rss p rq) ∧
  (∀ same allow, sides_allow same v allow ↔
     if same then is_Some allow ∨ resource_allows Specific rss p rq ∨ resource_allows Public rss p rq
     else is_Some allow ∧ (resource_allows Specific rss p rq ∨ resource_allows Account rss p rq ∨
                           resource_allows Public rss p rq)).
Proof.
  intros (Hd & Hs & Ha & Hp)%resource_policy_spec. cbn in Hd, Hs, Ha, Hp.
  assert (Hany : rvAny v = true ↔ resource_allows Specific rss p rq ∨ resource_allows Account rss p rq ∨ resource_allows Public rss p rq).
  { unfold rvAny. rewrite !orb_true_iff, Hs, Ha, Hp. naive_solver. }
  split; [naive_solver|]. split; [done|]. intros same allow. unfold sides_allow.
  destruct same; [rewrite Hs, Hp; naive_solver|by rewrite Hany].
Qed.

Lemma decide_in_spec gen now p typed same rq rss ev :
  coherent ev → unambiguous (worlds gen) →
  let d := (decide_in (worlds gen) gen now p typed same rq rss ev).1 in
  let ok := aws_allows (worlds gen) now p typed same rq rss (evSCP ev) in
  (dAllowed d = true → ok) ∧ (all_build (worlds gen) now p rss → ok → dAllowed d = true).
Proof.
  intros Hc Hu. cbv zeta. unfold IamAuthz.decide_in, aws_allows.
  destruct (resource_policy _ _ _ _ _ _ _ _) as [v|d] eqn:Er.
  2: { destruct (resource_policy_builds _ _ _ _ _ _ Er) as [(rs & Hin & Hn & Hb) Hd]. cbn.
       split; [by rewrite Hd|]. intros [Hall _] _. destruct Hb. by apply Hall. }
  destruct (resource_views _ _ _ _ Er) as (Hd & Hany & Hside).
  destruct (rvDeny v).
  { cbn. split; [done|]. intros _ [Hno _]. destruct Hno. by apply Hd. }
  assert (Hnd : ¬ resource_denies rss p rq) by (rewrite <- Hd; done).
  set (scp := match evSCP ev with Some _ => _ | None => None end).
  assert (Hscp : scp_allows (evSCP ev) p (rqAction rq) typed ↔ scp = None).
  { unfold scp, scp_allows. destruct (evSCP ev) as [f|]; [|done]. destruct (f p (rqAction rq) typed) as [[[] ex] why]; done. }
  assert (Hrefused : ∀ d, scp = Some d → dAllowed d = false).
  { intros d. unfold scp. destruct (evSCP ev) as [f|]; [|done].
    destruct (f p (rqAction rq) typed) as [[[] ex] why]; [done|by intros [= <-]]. }
  rewrite Hscp. destruct scp as [d|]; [cbn; rewrite (Hrefused d eq_refl); naive_solver|].
  destruct (bool_decide (pType p = Root)).
  { cbn. rewrite <- Hany. destruct same; [naive_solver|]. destruct (rvAny v); cbn; naive_solver. }
  destruct (identity_policies_pure worlds gen _ rq None ev Hc Hu (policies_reachable (worlds gen) p now)) as (H1 & _ & _).
  destruct (identity_policies _ _ _ gen _ rq None ev) as [r ev']. cbn [fst snd] in *. subst r.
  destruct (identity_pure (policies_of (worlds gen) p now) rq None) as [allow|d] eqn:Ei.
  - apply identity_pure_spec in Ei as [Hno Hsome].
    destruct (conclude_spec (worlds gen) p same rq v allow) as [Hsnd Hcmp].
    assert (Hid : is_Some allow ↔ identity_allows (worlds gen) p now rq).
    { rewrite Hsome. unfold identity_allows. split; [intros [[? [=]]|?]; done|by right]. }
    assert (Hnid : ¬ identity_denies (worlds gen) p now rq) by (intros (pol & ? & ?); by eapply Hno).
    assert (Hsides := Hside same allow). rewrite Hsides in Hsnd, Hcmp. clear Hsides Hside.
    destruct same; rewrite Hid in Hsnd, Hcmp; (split; [intros H; specialize (Hsnd H); tauto|];
      intros (_ & _ & Hb & Hs) H; apply Hcmp; [done|done|tauto]).
  - apply identity_pure_fails in Ei as [Hdd (pol & Hin & Hbad)]. rewrite Hdd. split; [done|].
    intros (_ & Hb & _) (_ & _ & Hnd' & _). destruct Hbad as [Hbad|Hbad]; [|by destruct Hbad; apply Hb].
    destruct Hnd'. by exists pol.
Qed.

(** The world a call sees is the one its generation was loaded with, and its names are unambiguous. *)
Definition sees (ev : Evaluator) (io : world_io) : Prop :=
  ∀ w gen, (Get (evCache ev) (ioNow io) (ioNow' io) (ioLoad io)).1 = (w, gen, None) →
           w = worlds gen ∧ unambiguous (worlds gen).

Definition loaded (ev : Evaluator) (io : world_io) (w : World) : Prop :=
  ∃ gen, (Get (evCache ev) (ioNow io) (ioNow' io) (ioLoad io)).1 = (w, gen, None).

(** C1: Authorize is AWS's evaluation: when it allows, the policy world was loaded and the request is not
    the operator surface's from a member account, no applicable Deny refuses it (in the resource's
    policy, an identity policy, the permission boundary or the session policy), the service control
    policy allows it, the account's root, the identity policies or the resource's policy allow it (both
    sides across accounts), and the permission boundary and the session policy cover it; and it does allow
    every such request when the policies compile.  A policy that does not compile, or a world that cannot
    be loaded, denies. *)
Theorem evaluator_decides_as_aws (ev : Evaluator) (io : world_io) (p : Principal) (action resource : string)
    (ctx : gmap string any) (ro : request)
    (Hev : coherent ev) (Hsees : sees ev io) (Hloads : evLoads ev = true) :
  let d := (Authorize ev io p action resource ctx ro).1 in
  let acct := resource_account ParseIPAddr ParseDatetime p resource ro in
  let ok w := operator_refused p action = false ∧
    aws_allows w (ioAt io) p (mapResource resource).1 (String.eqb acct (AccountID p))
      (engine_request ParseIPAddr ParseDatetime p action resource ctx acct) (roResource ro) (evSCP ev) in
  (dAllowed d = true → ∃ w, loaded ev io w ∧ ok w) ∧
  (∀ w, loaded ev io w → all_build w (ioAt io) p (roResource ro) → ok w → dAllowed d = true).
Proof.
  cbv zeta. unfold IamAuthz.Authorize, loaded. rewrite Hloads. cbn [negb].
  destruct (operator_refused p action); [split; [done|naive_solver]|].
  unfold sees in Hsees. destruct (Get _ _ _ _) as [[[w gen] err] c]. cbn [fst] in *.
  destruct err as [e|]; [split; [done|]; by intros w' [gen' [=]]|].
  destruct (Hsees w gen eq_refl) as [-> Hu].
  set (rq := engine_request _ _ _ _ _ _ _). set (same := String.eqb _ _).
  destruct (decide_in_spec gen (ioAt io) p (mapResource resource).1 same rq (roResource ro) (with_cache ev c)
              Hev Hu) as [Hs Hc].
  split.
  - intros H%Hs. exists (worlds gen). split; [by exists gen|done].
  - intros w [gen' [= <- <-]] Hb [_ Hok]. by apply Hc.
Qed.

(** keeping compiled engines changes no decision: from an evaluator whose engines belong to the world of
    their generation, Authorize decides as if it compiled every policy afresh, and leaves such an
    evaluator. *)
Theorem engine_cache_transparent (ev : Evaluator) (io : world_io) (p : Principal) (action resource : string)
    (ctx : gmap string any) (ro : request) (Hev : coherent ev) (Hsees : sees ev io) :
  (Authorize ev io p action resource ctx ro).1 = (Authorize (with_engines ev 0 ∅) io p action resource ctx ro).1 ∧
  coherent (Authorize ev io p action resource ctx ro).2.
Proof.
  assert (Hfresh : coherent (with_engines ev 0 ∅)) by (intros name e pol; cbn; by rewrite lookup_empty).
  unfold IamAuthz.Authorize. destruct (operator_refused p action); [done|]. cbn [evLoads evCache with_engines].
  destruct (negb (evLoads ev)); [done|]. unfold sees in Hsees.
  destruct (Get _ _ _ _) as [[[w gen] err] c]. cbn [fst] in *. destruct err as [e|]; [done|].
  destruct (Hsees w gen eq_refl) as [-> Hu]. by apply decide_in_cache.
Qed.
End Authorize.

(** ** Sessions *)

Definition with_session (p : Principal) (name : string) (ps : list Statement) : Principal :=
  mkPrincipal (pAccount p) (pType p) (pID p) (pGroups p) (Some (mkSession name ps)).

Lemma appliesToPrincipal_session rs p name ps :
  appliesToPrincipal rs (with_session p name ps) = appliesToPrincipal rs (with_session p name []).
Proof.
  assert (H : ∀ entries best, match_from best entries (with_session p name ps) = match_from best entries (with_session p name [])).
  { intros entries. induction entries as [|e entries IH]; intros best; [done|]. cbn [match_from].
    rewrite !IH. done. }
  unfold appliesToPrincipal, principalMatch. by rewrite !H.
Qed.

Lemma conclude_session w p name ps same rq v allow :
  dAllowed (conclude ParseIPAddr isInRange ParseDatetime w (with_session p name ps) same rq v allow) = true →
  dAllowed (conclude ParseIPAddr isInRange ParseDatetime w (with_session p name []) same rq v allow) = true.
Proof.
  unfold conclude. change (boundary_of w (with_session p name ps)) with (boundary_of w p).
  change (boundary_of w (with_session p name [])) with (boundary_of w p).
  destruct (boundary_of w p) as [hasB boundary]. cbn [session_of with_session pSession sesPolicies].
  cbn [set_denies].
  destruct (explicitDeny ParseIPAddr isInRange ParseDatetime boundary rq) as [[]|e]; [done| |done].
  change (explicitDeny ParseIPAddr isInRange ParseDatetime [] rq) with (Ok (E := engine_error) false).
  destruct (explicitDeny ParseIPAddr isInRange ParseDatetime ps rq) as [[]|e]; [done| |done].
  cbn [mbind res_bind].
  destruct (negb (if same then _ else _)); [done|].
  destruct (ceiling _ _ _ hasB _ _ _ _) as [u|d]; [|done]. cbn [mbind res_bind].
  change (ceiling ParseIPAddr isInRange ParseDatetime (negb (bool_decide ([] = [] :> list Statement)))
    session_name "session-policy" [] rq) with (Ok (E := Decision) ()). done.
Qed.

(** a session policy only narrows: whatever a session with a policy may do, the same session without one
    may do too. *)
Theorem session_policy_narrows (ev : Evaluator) (io : world_io) (p : Principal) (name action resource : string)
    (ps : list Statement) (ctx : gmap string any) (ro : request)
    (Hscp : ∀ f a typed, evSCP ev = Some f → f (with_session p name ps) a typed = f (with_session p name []) a typed)
    (H : dAllowed (IamAuthz.Authorize ParseIPAddr isInRange ParseDatetime ev io (with_session p name ps)
                     action resource ctx ro).1 = true) :
  dAllowed (IamAuthz.Authorize ParseIPAddr isInRange ParseDatetime ev io (with_session p name [])
              action resource ctx ro).1 = true.
Proof.
  revert H. unfold IamAuthz.Authorize.
  change (operator_refused (with_session p name ps) action) with (operator_refused (with_session p name []) action).
  destruct (operator_refused _ action); [done|]. destruct (negb (evLoads ev)); [done|].
  destruct (Get _ _ _ _) as [[[w gen] err] c]. destruct err as [e|]; [done|].
  change (resource_account ParseIPAddr ParseDatetime (with_session p name ps) resource ro)
    with (resource_account ParseIPAddr ParseDatetime (with_session p name []) resource ro).
  set (acct := resource_account _ _ _ _ _).
  change (engine_request ParseIPAddr ParseDatetime (with_session p name ps) action resource ctx acct)
    with (engine_request ParseIPAddr ParseDatetime (with_session p name []) action resource ctx acct).
  set (rq := engine_request _ _ _ _ _ _ _). unfold decide_in.
  assert (Hres : ∀ rss i v, resource_policy ParseIPAddr isInRange ParseDatetime i rss (with_session p name ps) rq v
                          = resource_policy ParseIPAddr isInRange ParseDatetime i rss (with_session p name []) rq v).
  { intros rss. induction rss as [|rs rss IH]; intros i v; [done|]. cbn [resource_policy].
    rewrite (appliesToPrincipal_session rs p name ps), IH.
    destruct (bool_decide _); [done|]. destruct (build _ _); [apply IH|done]. }
  rewrite Hres. destruct (resource_policy _ _ _ _ _ _ _ _) as [v|d]; [|done]. destruct (rvDeny v); [done|].
  cbn [evSCP with_cache]. destruct (evSCP ev) as [f|] eqn:Ef.
  - rewrite (Hscp f _ _ eq_refl). destruct (f _ _ _) as [[[] ex] why]; [|done].
    revert v. clear Hres. intros v. change (pType (with_session p name ps)) with (pType (with_session p name [])).
    destruct (bool_decide _); [done|]. change (policies_of w (with_session p name ps) (ioAt io))
      with (policies_of w (with_session p name []) (ioAt io)).
    destruct (identity_policies _ _ _ _ _ _ _ _) as [[allow|d] ev']; [|done]. apply conclude_session.
  - change (pType (with_session p name ps)) with (pType (with_session p name [])).
    destruct (bool_decide _); [done|]. change (policies_of w (with_session p name ps) (ioAt io))
      with (policies_of w (with_session p name []) (ioAt io)).
    destruct (identity_policies _ _ _ _ _ _ _ _) as [[allow|d] ev']; [|done]. apply conclude_session.
Qed.

(** ** The rollout *)

#[local] Abbreviation ModeFor := (ModeFor ParseIPAddr isInRange ParseDatetime).
#[local] Abbreviation Decide := (Decide ParseIPAddr isInRange ParseDatetime).

(** The principal is labelled in the world the call sees. *)
Definition canary (ev : Evaluator) (io : world_io) (p : Principal) : Prop :=
  has_identity p = true ∧ evLoads ev = true ∧
  ∃ w gen, (Get (evCache ev) (ioNow io) (ioNow' io) (ioLoad io)).1 = (w, gen, None) ∧ wEnforce w !! Key p = Some true.

(** The decision IAM policy makes for the call, after the mode has been read. *)
Definition policy_decision (ev : Evaluator) (io1 io2 : world_io) (p : Principal) (action resource : string)
    (ctx : gmap string any) (ro : request) : Decision :=
  (IamAuthz.Authorize ParseIPAddr isInRange ParseDatetime (ModeFor ev io1 p).2 io2 p action resource ctx ro).1.

Definition legacy_allows (legacy : option (bool * string)) : bool :=
  match legacy with Some (ok, _) => ok | None => false end.

Lemma ModeFor_spec ev io p :
  (ModeFor ev io p).1 = ModeEnforce ↔ evMode ev = ModeEnforce ∨ (evMode ev = ModeShadow ∧ canary ev io p).
Proof.
  unfold IamAuthz.ModeFor, canary. destruct (bool_decide_reflect (evMode ev = ModeShadow)) as [Hm|Hm]; cbn [negb].
  2: { cbn. naive_solver. }
  rewrite Hm. destruct (has_identity p); cbn [negb]; [|cbn; naive_solver].
  destruct (evLoads ev); cbn [negb]; [|cbn; naive_solver].
  destruct (Get _ _ _ _) as [[[w gen] err] c]. cbn. destruct err as [e|].
  { split; [done|]. intros [[=]|(_ & _ & _ & w' & gen' & [=] & _)]. }
  split.
  - destruct (wEnforce w !! Key p) as [[]|] eqn:Ek; [|done..]. intros _. right. split_and!; try done. by exists w, gen.
  - intros [[=]|(_ & _ & _ & w' & gen' & [= <- <-] & Hk)]. by rewrite Hk.
Qed.

(** the rollout is what the mode says: IAM policy decides exactly in enforce mode, or in shadow mode for a
    principal labelled as a canary in the policy world; otherwise the legacy decision is returned, none
    meaning deny, and in shadow a difference between the two, and nothing else, is logged. *)
Theorem Decide_follows_mode (ev : Evaluator) (io1 io2 : world_io) (p : Principal) (action resource : string)
    (ctx : gmap string any) (legacy : option (bool * string)) (ro : request) :
  let d := (Decide ev io1 io2 p action resource ctx legacy ro).1.1 in
  let log := (Decide ev io1 io2 p action resource ctx legacy ro).1.2 in
  let new := dAllowed (policy_decision ev io1 io2 p action resource ctx ro) in
  let enforced := evMode ev = ModeEnforce ∨ (evMode ev = ModeShadow ∧ canary ev io1 p) in
  (enforced → dAllowed d = new ∧ dMode d = Some ModeEnforce ∧ log = None) ∧
  (¬ enforced → dAllowed d = legacy_allows legacy ∧ dMode d = Some (evMode ev) ∧
     (is_Some log ↔ evMode ev = ModeShadow ∧ new ≠ legacy_allows legacy)).
Proof.
  cbv zeta. rewrite <- ModeFor_spec. unfold IamAuthz.Decide, policy_decision.
  assert (Hm : (ModeFor ev io1 p).1 ≠ ModeEnforce → (ModeFor ev io1 p).1 = evMode ev).
  { unfold IamAuthz.ModeFor. repeat case_goal; try done. }
  destruct (ModeFor ev io1 p) as [m ev']. cbn [fst snd] in *.
  destruct (IamAuthz.Authorize _ _ _ ev' io2 p action resource ctx ro) as [d ev''].
  split.
  - by intros ->.
  - intros Hne. specialize (Hm Hne). destruct m; [| |done]; cbn.
    + rewrite <- Hm. destruct legacy as [[ok why]|]; cbn; (split_and!; [done|done|]); split; [by intros []|by intros [[=] _]|by intros []|by intros [[=] _]].
    + cbn. rewrite <- Hm. destruct legacy as [[ok why]|]; cbn.
      * split_and!; [done|done|]. destruct (dAllowed d), ok; cbn; (split; [try (by intros []); by intros _|intros [_ Hn]; try done; eauto]).
      * split_and!; [done|done|]. destruct (dAllowed d); cbn; (split; [try (by intros []); by intros _|intros [_ Hn]; try done; eauto]).
Qed.

(** ** Trust policies *)

Definition trust_names (rss : list ResourceStatement) (p : Principal) (rq : Request) : Prop :=
  ∃ rs, rs ∈ rss ∧ appliesToPrincipal rs p ≠ NotNamed ∧ policy_allows [rsStatement rs] rq.

Lemma trust_statements_spec rss p rq allowed :
  match trust_statements ParseIPAddr isInRange ParseDatetime rss p rq allowed with
  | Ok b => ¬ resource_denies rss p rq ∧ (b = true ↔ allowed = true ∨ trust_names rss p rq)
  | Err _ => resource_denies rss p rq ∨
             ∃ rs, rs ∈ rss ∧ appliesToPrincipal rs p ≠ NotNamed ∧ ¬ builds [rsStatement rs] None
  end.
Proof.
  revert allowed. induction rss as [|rs rss IH]; intros allowed; cbn [trust_statements].
  { unfold resource_denies, trust_names. set_solver. }
  assert (Hd : resource_denies (rs :: rss) p rq ↔
    (appliesToPrincipal rs p ≠ NotNamed ∧ policy_denies [rsStatement rs] rq) ∨ resource_denies rss p rq).
  { unfold resource_denies. setoid_rewrite elem_of_cons. naive_solver. }
  assert (Ht : trust_names (rs :: rss) p rq ↔
    (appliesToPrincipal rs p ≠ NotNamed ∧ policy_allows [rsStatement rs] rq) ∨ trust_names rss p rq).
  { unfold trust_names. setoid_rewrite elem_of_cons. naive_solver. }
  destruct (bool_decide_reflect (appliesToPrincipal rs p = NotNamed)) as [Hn|Hn].
  { specialize (IH allowed). destruct (trust_statements _ _ _ rss p rq allowed); [rewrite Hd, Ht; naive_solver|].
    rewrite Hd. destruct IH as [IH|(rs' & ? & ?)]; [by left; right|right; exists rs'; split; [by right|done]]. }
  destruct (build [rsStatement rs] None) as [e|e] eqn:Hb.
  2: { right. exists rs. split_and!; [by left|done|]. intros [e' He']. congruence. }
  pose proof (ask_allowed _ _ _ rq Hb) as Hall. pose proof (ask_denied _ _ _ rq Hb) as Hden. cbn [within] in Hall.
  fold (policy_denies [rsStatement rs] rq) in Hden.
  assert (Hall' : PolicyEngine.dAllowed (ask e rq) = true ↔ policy_allows [rsStatement rs] rq) by (unfold policy_allows; tauto).
  clear Hall. destruct (PolicyEngine.dExplicitDeny (ask e rq)); [left; apply Hd; left; split; [done|by apply Hden]|].
  specialize (IH (PolicyEngine.dAllowed (ask e rq) || allowed)).
  destruct (trust_statements _ _ _ rss p rq _).
  - rewrite Hd, Ht, <- Hden. rewrite orb_true_iff, Hall' in IH. naive_solver.
  - rewrite Hd. destruct IH as [IH|(rs' & ? & ?)]; [by left; right|right; exists rs'; split; [by right|done]].
Qed.

(** a role whose trust policy carries a condition is assumed only under it: the assume is allowed when a
    statement that names the caller allows it on the request's attributes and none that names it denies
    it, and, if those statements compile, exactly then. *)
Theorem AuthorizeTrust_correct (doc : json) (p : Principal) (action roleARN : string) (ctx : gmap string any)
    (raw : list (list (string * json))) (rss : list ResourceStatement) notes
    (Hraw : documentStatements doc = Ok raw) (Hcond : existsb (λ st, has_key st "Condition") raw = true)
    (Hparse : ParseResourcePolicy (parses ParseIPAddr) (parses ParseDatetime) doc = Ok (rss, notes)) :
  let rq := engine_request ParseIPAddr ParseDatetime p action roleARN ctx
              (trust_account ParseIPAddr ParseDatetime p roleARN) in
  let ok := trust_names rss p rq ∧ ¬ resource_denies rss p rq in
  let r := AuthorizeTrust ParseIPAddr isInRange ParseDatetime doc p action roleARN ctx in
  (r = Ok () → ok) ∧
  ((∀ rs, rs ∈ rss → appliesToPrincipal rs p ≠ NotNamed → builds [rsStatement rs] None) → ok → r = Ok ()).
Proof.
  cbv zeta. unfold AuthorizeTrust. rewrite Hraw, Hcond, Hparse. cbn [negb].
  set (rq := engine_request _ _ _ _ _ _ _). pose proof (trust_statements_spec rss p rq false) as Hs.
  destruct (trust_statements _ _ _ rss p rq false) as [[]|e]; cbn [mbind res_bind].
  - split; [|done]. intros _. naive_solver.
  - split; [done|]. naive_solver.
  - split; [done|]. intros Hb [_ Hno]. destruct Hs as [Hs|(rs & Hin & Hn & Hnb)]; [done|]. destruct Hnb. by apply Hb.
Qed.
End Spec.

(** ** At a concrete world *)

Lemma reachable_docs w pol :
  wf_world w → wInline w = ∅ → reachable w pol → pol ∈ wDocs w.
Proof.
  intros Hw Hi (ptype & pid & groups & now & Hin). unfold PoliciesAt in Hin.
  apply (proj1 (add_all_spec _ _)) in Hin as [Hin _]. apply candidates_elem in Hin as [[Hin _]|(k & _ & Hk)]; [done| |done].
  unfold inline_of in Hk. rewrite Hi, lookup_empty in Hk. by apply not_elem_of_nil in Hk.
Qed.

(** A world without inline policies, whose documents are named once each, is unambiguous. *)
Lemma unambiguous_docs w : wf_world w → wInline w = ∅ → unambiguous w.
Proof.
  intros Hw Hi pol pol' H%reachable_docs H'%reachable_docs Hn _; [|done..].
  assert (E1 : ByName w !! polName pol = Some pol) by by apply ByName_lookup.
  assert (E2 : ByName w !! polName pol = Some pol') by by apply ByName_lookup.
  congruence.
Qed.

Definition authz_world : World :=
  let reader := mkPolicy "reader" "" [mkStatement Allow ["s3:Get*"] [] ["Bucket::assets"] [] ∅ [] [] [] []] ["Group::eng"] [] in
  let guard := mkPolicy "guard" "" [mkStatement Deny ["*"] [] ["*"] [] ∅ [mkIP "sourceIp" "10." true] [] [] []] ["*"] [] in
  mkWorld [reader; guard] ∅ ∅ ∅ {["User::ann" := true]} ∅.

Lemma authz_world_wf : wf_world authz_world.
Proof.
  split; [cbn; repeat constructor; set_solver|].
  intros d [->|[->|[]%not_elem_of_nil]%elem_of_cons]%elem_of_cons; done.
Qed.

Section Demo.
#[local] Existing Instance direct_engine.

Definition demo_evaluator : Evaluator demo_parse_ip demo_in_range ParseInt :=
  NewWithCache demo_parse_ip demo_in_range ParseInt true (NewCache 60) ModeShadow None.
Definition demo_io : world_io := mkWorldIO 0 5 (authz_world, None) 150.
Definition ann : Principal := mkPrincipal "" User "ann" ["eng"] None.
Definition demo_ctx (ip : string) : gmap string any := {["sourceIp" := AStr ip]}.
Definition no_options : request := mkOptions "" [].
Definition demo_authorize (ip : string) : Decision :=
  (Authorize demo_parse_ip demo_in_range ParseInt demo_evaluator demo_io ann "s3:GetObject"
     "arn:aws:s3:::assets/a.txt" (demo_ctx ip) no_options).1.

Lemma demo_coherent : coherent demo_parse_ip demo_in_range ParseInt (λ _, authz_world) demo_evaluator.
Proof. intros name e pol. cbn. by rewrite lookup_empty. Qed.

Lemma demo_sees : sees demo_parse_ip demo_in_range ParseInt (λ _, authz_world) demo_evaluator demo_io.
Proof.
  intros w gen H. vm_compute in H. injection H as <- <-. split; [reflexivity|].
  apply unambiguous_docs; [apply authz_world_wf|reflexivity].
Qed.

Lemma evaluator_decides_as_aws_witness :
  dAllowed (demo_authorize "10.1.2.3") = true ∧ dAllowed (demo_authorize "192.0.2.1") = false ∧
  ∃ w, loaded demo_parse_ip demo_in_range ParseInt demo_evaluator demo_io w ∧
    operator_refused ann "s3:GetObject" = false ∧
    aws_allows demo_parse_ip demo_in_range ParseInt w 150 ann "Bucket::assets/a.txt" true
      (engine_request demo_parse_ip ParseInt ann "s3:GetObject" "arn:aws:s3:::assets/a.txt" (demo_ctx "10.1.2.3")
         ManagementAccount) [] None.
Proof.
  split; [vm_compute; reflexivity|]. split; [vm_compute; reflexivity|].
  refine (proj1 (evaluator_decides_as_aws demo_parse_ip demo_in_range ParseInt (λ _, authz_world) demo_evaluator demo_io ann
    "s3:GetObject" "arn:aws:s3:::assets/a.txt" (demo_ctx "10.1.2.3") no_options demo_coherent demo_sees eq_refl) _).
  vm_compute. reflexivity.
Defined.

Lemma engine_cache_transparent_witness :
  demo_authorize "10.1.2.3" =
  (Authorize demo_parse_ip demo_in_range ParseInt (with_engines demo_evaluator 0 ∅) demo_io ann "s3:GetObject"
     "arn:aws:s3:::assets/a.txt" (demo_ctx "10.1.2.3") no_options).1.
Proof.
  exact (proj1 (engine_cache_transparent demo_parse_ip demo_in_range ParseInt (λ _, authz_world) demo_evaluator demo_io
    ann "s3:GetObject" "arn:aws:s3:::assets/a.txt" (demo_ctx "10.1.2.3") no_options demo_coherent demo_sees)).
Defined.

Lemma session_policy_narrows_witness :
  let ask ps := dAllowed (Authorize demo_parse_ip demo_in_range ParseInt demo_evaluator demo_io
                  (with_session ann "s" ps) "s3:GetObject" "arn:aws:s3:::assets/a.txt" (demo_ctx "10.1.2.3")
                  no_options).1 in
  ask [mkStatement Allow ["s3:*"] [] ["*"] [] ∅ [] [] [] []] = true ∧ ask [] = true.
Proof.
  cbv zeta. split; [vm_compute; reflexivity|].
  refine (session_policy_narrows demo_parse_ip demo_in_range ParseInt demo_evaluator demo_io ann "s" "s3:GetObject"
    "arn:aws:s3:::assets/a.txt" [mkStatement Allow ["s3:*"] [] ["*"] [] ∅ [] [] [] []] (demo_ctx "10.1.2.3")
    no_options _ _).
  - intros f a typed [=].
  - vm_compute. reflexivity.
Defined.

Definition demo_trust : json :=
  JObj [("Version", JStr "2012-10-17");
        ("Statement", JArr [JObj [("Effect", JStr Allow); ("Action", JStr "sts:AssumeRole");
           ("Principal", JObj [("AWS", JStr "000000000000")]);
           ("Condition", JObj [("Bool", JObj [("aws:MultiFactorAuthPresent", JBool true)])])]])].

Lemma AuthorizeTrust_correct_witness :
  let trust ctx := AuthorizeTrust demo_parse_ip demo_in_range ParseInt demo_trust ann "sts:AssumeRole"
                     "arn:aws:iam::000000000000:role/deployer" ctx in
  trust {["multiFactorAuthPresent" := ABool true]} = Ok () ∧ trust ∅ = Err TrustNotAllowed ∧
  ∃ rss notes rq, ParseResourcePolicy (parses demo_parse_ip) (parses ParseInt) demo_trust = Ok (rss, notes) ∧
    trust_names demo_parse_ip demo_in_range ParseInt rss ann rq ∧
    ¬ resource_denies demo_parse_ip demo_in_range ParseInt rss ann rq.
Proof.
  cbv zeta. split; [vm_compute; reflexivity|]. split; [vm_compute; reflexivity|].
  eexists _, _, _. split; [vm_compute; reflexivity|].
  refine (proj1 (AuthorizeTrust_correct demo_parse_ip demo_in_range ParseInt demo_trust ann "sts:AssumeRole"
    "arn:aws:iam::000000000000:role/deployer" {["multiFactorAuthPresent" := ABool true]} _ _ [] _ _ _) _).
  - vm_compute. reflexivity.
  - vm_compute. reflexivity.
  - vm_compute. reflexivity.
  - vm_compute. reflexivity.
Defined.

(** A resource whose ARN is kept as written is taken to be the caller's, whatever account it names: the root
    user of one account is allowed on another account's. *)
Lemma raw_arn_crosses_accounts :
  let root := mkPrincipal "111111111111" Root "root" [] None in
  (Authorize demo_parse_ip demo_in_range ParseInt demo_evaluator demo_io root "backup:DeleteBackupVault"
     "arn:aws:backup:eu-west-1:222222222222:backup-vault/v" ∅ no_options).1 = allowed_by RootUser "root" ∧
  (Authorize demo_parse_ip demo_in_range ParseInt demo_evaluator demo_io root "sqs:DeleteQueue"
     "arn:aws:sqs:eu-west-1:222222222222:jobs" ∅ no_options).1 = denied RootNeedsResource.
Proof. cbv zeta. split; vm_compute; reflexivity. Qed.
End Demo.
