(* ===== verification/AwsAction.v ===== *)
(** * The action table (console-api/internal/awsaction)

    What IAM action a Kubernetes verb on a kind is, and the ARN of the resource it acts on.  The table is
    an argument: everything holds of any table.  sha1 is the hash of crypto/sha1. *)

From stdpp Require Import sorting.
From S2P Require Import Prelude GoStrings Json PolicyEngine IamWorld.
#[local] Open Scope string_scope.
#[local] Open Scope Z_scope.
#[local] Open Scope list_scope.

(** ** Verbs *)

Inductive Verb := Get | List_ | Create | Update | Delete.
#[export] Instance Verb_eq_dec : EqDecision Verb.
Proof. solve_decision. Defined.

Definition Verbs : list Verb := [Get; List_; Create; Update; Delete].

Definition verb_name (v : Verb) : string :=
  match v with Get => "get" | List_ => "list" | Create => "create" | Update => "update" | Delete => "delete" end.

Definition NormalizeVerb (v : string) : option Verb :=
  let v := ToLower v in
  if String.eqb v "get" then Some Get
  else if String.eqb v "list" || String.eqb v "watch" then Some List_
  else if String.eqb v "create" then Some Create
  else if String.eqb v "update" || String.eqb v "patch" then Some Update
  else if String.eqb v "delete" || String.eqb v "deletecollection" then Some Delete
  else None.

(** ** Entries *)

Record Scope := mkScope { scPartition : string; scRegion : string; scAccount : string }.
Definition DefaultRegion : string := "us-east-1".
Definition partition (s : Scope) : string := if String.eqb (scPartition s) "" then "aws" else scPartition s.
Definition region (s : Scope) : string := if String.eqb (scRegion s) "" then DefaultRegion else scRegion s.

Record Request := mkAction { rAction : string; rARN : string }.
#[export] Instance Request_eq_dec : EqDecision Request.
Proof. solve_decision. Defined.

Record FieldRule := mkFieldRule { frActions : list string; frByValue : option (list (string * list string)) }.

(** [eNameFormat]: identity when the entry has none. *)
Record Entry := mkEntry {
  eGroup : string;
  eKind : string;
  eResource : string;
  eARN : string;
  eNameField : string;
  eGlobalDescribe : bool;
  eActions : Verb → string;
  eFieldActions : list (string * FieldRule);
  ePassRoleFields : list string;
  eNameFormat : string → string;
}.

(** A variant of a kind: when it applies, and the entry it is. *)
Record Variant := mkVariant { vReplace : bool; vWhen : list (string * json) → bool; vEntry : Entry }.

(** The table: entries and their variants, each kind once; of two on one resource the later is found. *)
Abbreviation table := (list (Entry * list Variant)).

Definition by_kind (t : table) (kind : string) : option (Entry * list Variant) :=
  List.find (λ e, String.eqb (eKind e.1) kind) t.
Definition by_resource (t : table) (group resource : string) : option Entry :=
  fst <$> List.find (λ e, String.eqb (eGroup e.1 +:+ "/" +:+ eResource e.1) (group +:+ "/" +:+ resource)) (rev t).

Definition Lookup (t : table) (kind : string) : option Entry := fst <$> by_kind t kind.
Definition Kinds (t : table) : list string := merge_sort string_le (map (λ e, eKind e.1) t).

Definition Action (e : Entry) (v : Verb) : option string :=
  if String.eqb (eActions e v) "" then None else Some (eActions e v).

(** ** ARNs *)

Definition specString (spec : list (string * json)) (field : string) : string :=
  match obj_get spec field with
  | Some (JStr s) => s
  | Some (JObj m) => match obj_get m "name" with Some (JStr s) => s | _ => "" end
  | _ => ""
  end.

Section ARN.
Context (sha1 : string → list Z).

Definition hex_bytes (bs : list Z) : string := String.concat "" (map (hexn 2) bs).

Definition stableUUID (seed : string) : string :=
  let h := sha1 seed in
  let h := <[6%nat := Z.lor (Z.land (nth 6 h 0) 0x0f) 0x50]> h in
  let h := <[8%nat := Z.lor (Z.land (nth 8 h 0) 0x3f) 0x80]> h in
  let part (a b : nat) := hex_bytes (take (b - a) (drop a h)) in
  (part 0 4 +:+ "-" +:+ part 4 6 +:+ "-" +:+ part 6 8 +:+ "-" +:+ part 8 10 +:+ "-" +:+ part 10 16)%nat.

(** The {spec.<field>} loop of expandARN; [None]: still running when the fuel ends. *)
Fixpoint expand_spec (fuel : nat) (out : string) (spec : list (string * json)) : option string :=
  match fuel with
  | O => None
  | S fuel =>
      match Cut out "{spec." with
      | None => Some out
      | Some (before, rest) =>
          match Cut rest "}" with
          | None => Some out
          | Some (field, after) =>
              let val := specString spec field in
              expand_spec fuel (before +:+ (if String.eqb val "" then "*" else val) +:+ after) spec
          end
      end
  end.

(** The template before the names of the spec are filled in. *)
Definition expand_fixed (tmpl : string) (s : Scope) (name : string) : string :=
  let out := ReplaceAll tmpl "{partition}" (partition s) in
  let out := ReplaceAll out "{region}" (region s) in
  let out := ReplaceAll out "{account}" (scAccount s) in
  ReplaceAll out "{uuid}" (stableUUID (scAccount s +:+ "/" +:+ name)).

Definition expandARN (fuel : nat) (tmpl : string) (s : Scope) (name : string) (spec : list (string * json))
    : option string :=
  out ← expand_spec fuel (expand_fixed tmpl s name) spec; Some (ReplaceAll out "{name}" name).

(** The name an entry's ARN carries. *)
Definition arn_name (e : Entry) (name : string) (spec : list (string * json)) : string :=
  eNameFormat e (if String.eqb (eNameField e) "" then name
                 else let v := specString spec (eNameField e) in if String.eqb v "" then name else v).

(** One turn of the loop per "{" of the template is enough unless a value of the spec brings its own. *)
Definition ARNFor (e : Entry) (s : Scope) (name : string) (spec : list (string * json)) : option string :=
  let n := arn_name e name spec in
  expandARN (S (CountByte "{" (expand_fixed (eARN e) s n))) (eARN e) s n spec.

Definition resourceFor (e : Entry) (s : Scope) (v : Verb) (name : string) (spec : list (string * json))
    : option string :=
  if bool_decide (v = List_) || (bool_decide (v = Get) && eGlobalDescribe e) || String.eqb name "" then Some "*"
  else ARNFor e s name spec.

(** Scope.ForKind. *)
Definition ForKind (t : table) (s : Scope) (kind verb name : string) : option Request :=
  e ← Lookup t kind;
  v ← NormalizeVerb verb;
  a ← Action e v;
  arn ← resourceFor e s v name [];
  Some (mkAction a arn).

(** ** The questions a change amounts to *)

Definition passRole (s : Scope) (spec : list (string * json)) (f : string) : option Request :=
  let v := specString spec f in
  if String.eqb v "" then None
  else Some (mkAction "iam:PassRole"
    (if HasPrefix v "arn:" then v
     else "arn:" +:+ partition s +:+ ":iam::" +:+ scAccount s +:+ ":role/" +:+ v)).

(** [DeepEqual] and [Sprint] are reflect.DeepEqual and fmt.Sprint on decoded values. *)
Context (DeepEqual : json → json → bool) (Sprint : json → string).

Definition changedFields (spec oldSpec : list (string * json)) : list string :=
  let keys := dedupe (map fst spec ++ map fst oldSpec) in
  merge_sort string_le (filter (λ k, negb (DeepEqual (get spec k) (get oldSpec k))) keys).

Definition rule_actions (rule : FieldRule) (v : json) : list string :=
  match frByValue rule with
  | None => frActions rule
  | Some by_value =>
      match List.find (λ kv, String.eqb kv.1 (Sprint v)) by_value with
      | Some (_, a :: l) => a :: l
      | _ => frActions rule
      end
  end.

Definition field_rule (e : Entry) (f : string) : option FieldRule :=
  snd <$> List.find (λ kv, String.eqb kv.1 f) (eFieldActions e).

(** The actions of the changed fields; [None]: a field is an update and the kind has no update action. *)
Definition field_actions (e : Entry) (spec : list (string * json)) (f : string) : option (list string) :=
  match field_rule e f with
  | None => a ← Action e Update; Some [a]
  | Some rule => Some (rule_actions rule (get spec f))
  end.

Definition pass_roles (e : Entry) (s : Scope) (spec : list (string * json)) (fields : list string) : list Request :=
  omap (passRole s spec) (filter (λ f, f ∈ fields) (ePassRoleFields e)).

(** [None]: building the ARN does not end; [Some None]: not ok. *)
Definition requests (e : Entry) (s : Scope) (v : Verb) (name : string) (spec oldSpec : list (string * json))
    : option (option (list Request)) :=
  res ← resourceFor e s v name spec;
  Some match v with
  | Update =>
      let changed := changedFields spec oldSpec in
      acts ← mapM (field_actions e spec) changed;
      acts ← match concat acts with [] => a ← Action e Update; Some [a] | acts => Some acts end;
      Some (map (λ a, mkAction a res) acts ++ pass_roles e s spec changed)
  | _ =>
      a ← Action e v;
      Some (mkAction a res :: if bool_decide (v = Create) then omap (passRole s spec) (ePassRoleFields e) else [])
  end.

Fixpoint dedupe_requests (seen out : list Request) : list Request :=
  match out with
  | [] => []
  | r :: out => if bool_decide (r ∈ seen) then dedupe_requests seen out else r :: dedupe_requests (r :: seen) out
  end.

Definition base_entry (e : Entry) (variants : list Variant) (spec : list (string * json)) : Entry :=
  foldl (λ base vr, if vWhen vr spec && vReplace vr then vEntry vr else base) e variants.

(** Scope.ForObject. *)
Definition ForObject (t : table) (s : Scope) (kind verb name : string) (spec oldSpec : list (string * json))
    : option (option (list Request)) :=
  match by_kind t kind, NormalizeVerb verb with
  | Some (e, variants), Some v =>
      reqs ← requests (base_entry e variants spec) s v name spec oldSpec;
      match reqs with
      | None => Some None
      | Some reqs =>
          more ← mapM (λ vr, if vWhen vr spec && negb (vReplace vr)
                             then requests (vEntry vr) s v name spec oldSpec else Some None) variants;
          Some (Some (dedupe_requests [] (reqs ++ concat (omap id more))))
      end
  | _, _ => Some None
  end.

(** ** Kubernetes requests *)

Definition OperatorPrefix : string := "openinfra-operator".
Definition groupPlatform : string := "openinfra.dev".
Definition groupIAM : string := "iam.openinfra.dev".

Definition operatorKinds : list (string * string) := [
  ("pods", "Pod"); ("nodes", "Node"); ("namespaces", "Namespace"); ("services", "Service"); ("endpoints", "Endpoints");
  ("events", "Event"); ("secrets", "Secret"); ("configmaps", "ConfigMap"); ("persistentvolumeclaims", "PersistentVolumeClaim");
  ("persistentvolumes", "PersistentVolume"); ("serviceaccounts", "ServiceAccount"); ("deployments", "Deployment");
  ("statefulsets", "StatefulSet"); ("daemonsets", "DaemonSet"); ("replicasets", "ReplicaSet"); ("jobs", "Job");
  ("cronjobs", "CronJob"); ("ingresses", "Ingress"); ("networkpolicies", "NetworkPolicy"); ("storageclasses", "StorageClass");
  ("roles", "Role"); ("rolebindings", "RoleBinding"); ("clusterroles", "ClusterRole"); ("clusterrolebindings", "ClusterRoleBinding");
  ("customresourcedefinitions", "CustomResourceDefinition"); ("resourcequotas", "ResourceQuota"); ("limitranges", "LimitRange");
  ("horizontalpodautoscalers", "HorizontalPodAutoscaler"); ("poddisruptionbudgets", "PodDisruptionBudget");
  ("leases", "Lease"); ("endpointslices", "EndpointSlice")].

Definition operatorVerb (v : Verb) : string :=
  match v with Get => "Get" | List_ => "List" | Create => "Create" | Update => "Update" | Delete => "Delete" end.

Definition singular (p : string) : string :=
  if HasSuffix p "ies" then TrimSuffix p "ies" +:+ "y"
  else if HasSuffix p "sses" || HasSuffix p "ches" || HasSuffix p "xes" then TrimSuffix p "es"
  else if HasSuffix p "s" then TrimSuffix p "s"
  else p.

Definition plural (kind : string) : string :=
  if HasSuffix kind "y" && negb (HasSuffix kind "ey") then TrimSuffix kind "y" +:+ "ies"
  else if HasSuffix kind "s" then kind +:+ "es"
  else kind +:+ "s".

Definition camel (s : string) : string :=
  String.concat "" (map upper_first
    (FieldsFunc (λ c, Ascii.eqb c "-" || Ascii.eqb c "_" || Ascii.eqb c ".") s)).

Definition isPlatformGroup (group : string) : bool := String.eqb group groupPlatform || String.eqb group groupIAM.

(** The claim kind whose composite the resource is. *)
Definition composite_of (t : table) (group res : string) : option Entry :=
  if HasPrefix res "x" then by_resource t group (TrimPrefix res "x") else None.
Definition isComposite (t : table) (group res : string) : bool := bool_decide (is_Some (composite_of t group res)).

Definition operator (t : table) (v : Verb) (group res sub : string) : string :=
  let kind :=
    match List.find (λ kv, String.eqb kv.1 res) operatorKinds with
    | Some (_, k) => k
    | None => match composite_of t group res with Some e => "X" +:+ eKind e | None => camel (singular res) end
    end in
  let noun := if bool_decide (v = List_) && String.eqb sub "" then plural kind else kind in
  OperatorPrefix +:+ ":" +:+ operatorVerb v +:+ (if String.eqb sub "" then noun else noun +:+ camel sub).

Definition operatorARN (s : Scope) (v : Verb) (res namespace name : string) : string :=
  if bool_decide (v = List_) || String.eqb name "" then "*"
  else
    let path := if String.eqb namespace "" then res +:+ "/" +:+ name
                else res +:+ "/" +:+ namespace +:+ "/" +:+ name in
    "arn:" +:+ partition s +:+ ":" +:+ OperatorPrefix +:+ ":" +:+ region s +:+ ":" +:+ scAccount s +:+ ":" +:+ path.

(** Scope.ForKubernetes. *)
Definition ForKubernetes (t : table) (s : Scope) (verb group resource namespace name : string) : option Request :=
  v ← NormalizeVerb verb;
  if String.eqb resource "" then None
  else
    let '(res, sub) := match Cut resource "/" with Some p => p | None => (resource, "") end in
    match (if String.eqb sub "" || String.eqb sub "status" then by_resource t group res else None) with
    | Some e => a ← Action e v; arn ← resourceFor e s v name []; Some (mkAction a arn)
    | None =>
        if isPlatformGroup group && negb (isComposite t group res) then None
        else Some (mkAction (operator t v group res sub) (operatorARN s v res namespace name))
    end.

(** ** Building an ARN ends *)

Lemma CountByte_append c a b : CountByte c (a +:+ b) = (CountByte c a + CountByte c b)%nat.
Proof. induction a as [|d a IH]; cbn; [done|]. rewrite IH. lia. Qed.

Lemma CountByte_0 c s : contains_char c s = false → CountByte c s = 0%nat.
Proof.
  induction s as [|d s IH]; cbn; [done|]. intros [Hc Hs]%orb_false_iff. by rewrite Hc, IH.
Qed.

(** The values of the spec that name something bring no "{". *)
Definition plain_spec (spec : list (string * json)) : Prop :=
  ∀ f, contains_char "{" (specString spec f) = false.

Lemma expand_spec_ends fuel out spec :
  plain_spec spec → (CountByte "{" out < fuel)%nat → is_Some (expand_spec fuel out spec).
Proof.
  intros Hp. revert out. induction fuel as [|fuel IH]; intros out Hf; [lia|]. cbn [expand_spec].
  destruct (Cut out "{spec.") as [[before rest]|] eqn:E1; [|by eauto].
  destruct (Cut rest "}") as [[field after]|] eqn:E2; [|by eauto].
  apply Cut_spec in E1 as ->. apply Cut_spec in E2 as ->. apply IH. revert Hf. rewrite !CountByte_append.
  assert (Hv : CountByte "{" (if String.eqb (specString spec field) "" then "*" else specString spec field) = 0%nat).
  { destruct (String.eqb _ ""); [done|]. apply CountByte_0, Hp. }
  rewrite Hv. cbn. lia.
Qed.

Lemma plain_nil : plain_spec [].
Proof. done. Qed.

Lemma resourceFor_ends e s v name spec : plain_spec spec → is_Some (resourceFor e s v name spec).
Proof.
  intros Hp. unfold resourceFor. destruct (_ || _); [by eauto|]. unfold ARNFor, expandARN.
  destruct (expand_spec_ends (S (CountByte "{" (expand_fixed (eARN e) s (arn_name e name spec))))
              (expand_fixed (eARN e) s (arn_name e name spec)) spec Hp) as [out ->]; [lia|]. by eauto.
Qed.

Lemma requests_end e s v name spec oldSpec : plain_spec spec → is_Some (requests e s v name spec oldSpec).
Proof.
  intros Hp. unfold requests. destruct (resourceFor_ends e s v name spec Hp) as [res ->]. by eauto.
Qed.

(** every question ends: unless a name in the spec itself contains a brace, the requests a change
    amounts to are computed, whatever the table, the kind and the verb. *)
Theorem ForObject_ends (t : table) (s : Scope) (kind verb name : string) (spec oldSpec : list (string * json))
    (Hp : plain_spec spec) :
  is_Some (ForObject t s kind verb name spec oldSpec).
Proof.
  unfold ForObject. destruct (by_kind t kind) as [[e variants]|]; [|by eauto].
  destruct (NormalizeVerb verb) as [v|]; [|by eauto].
  destruct (requests_end (base_entry e variants spec) s v name spec oldSpec Hp) as [[reqs|] ->]; [|by eauto].
  cbn [mbind option_bind].
  assert (Hm : is_Some (mapM (λ vr, if vWhen vr spec && negb (vReplace vr)
                         then requests (vEntry vr) s v name spec oldSpec else Some None) variants)).
  { assert (Hall : ∀ vr, is_Some (if vWhen vr spec && negb (vReplace vr)
                                  then requests (vEntry vr) s v name spec oldSpec else Some None)).
    { intros vr. destruct (vWhen vr spec && negb (vReplace vr)); [by apply requests_end|by eexists]. }
    apply mapM_is_Some_2, Forall_forall. intros vr _. exact (Hall vr). }
  destruct Hm as [more ->]. by eauto.
Qed.

(** ** Passing a role *)

Lemma dedupe_requests_elem seen out r : r ∈ dedupe_requests seen out ↔ r ∈ out ∧ r ∉ seen.
Proof.
  revert seen. induction out as [|x out IH]; intros seen; cbn [dedupe_requests]; [set_solver|].
  case_bool_decide as Hx; rewrite ?elem_of_cons, IH; [set_solver|].
  destruct (decide (r = x)); set_solver.
Qed.

Lemma specString_key spec f : specString spec f ≠ "" → f ∈ map fst spec.
Proof.
  unfold specString. intros H. destruct (obj_get spec f) as [v|] eqn:E; [|done]. clear H.
  induction spec as [|[k w] spec IH]; [done|]. cbn in *. destruct (String.eqb_spec k f) as [->|]; [by left|].
  right. by apply IH.
Qed.

Lemma changedFields_elem spec oldSpec f :
  f ∈ map fst spec → DeepEqual (get spec f) (get oldSpec f) = false → f ∈ changedFields spec oldSpec.
Proof.
  intros Hf Hd. unfold changedFields. rewrite (merge_sort_Permutation string_le). apply list_elem_of_filter.
  rewrite Hd. split; [done|]. apply dedupe_elem, elem_of_app. by left.
Qed.

(** The role a field of the spec names. *)
Definition role_named (s : Scope) (spec : list (string * json)) (f : string) : string :=
  let v := specString spec f in
  if HasPrefix v "arn:" then v else "arn:" +:+ partition s +:+ ":iam::" +:+ scAccount s +:+ ":role/" +:+ v.

(** giving a resource a role is passing it: creating an object with a role in one of its kind's role
    fields, or changing that field to a role, always asks iam:PassRole on exactly that role, besides the
    kind's own actions, for every table. *)
Theorem ForObject_passes_role (t : table) (s : Scope) (kind verb name f : string) (spec oldSpec : list (string * json))
    (e : Entry) (variants : list Variant) (v : Verb) (reqs : list Request)
    (Hk : by_kind t kind = Some (e, variants)) (Hv : NormalizeVerb verb = Some v)
    (Hf : f ∈ ePassRoleFields (base_entry e variants spec)) (Hrole : specString spec f ≠ "")
    (Hnew : v = Create ∨ (v = Update ∧ DeepEqual (get spec f) (get oldSpec f) = false))
    (H : ForObject t s kind verb name spec oldSpec = Some (Some reqs)) :
  mkAction "iam:PassRole" (role_named s spec f) ∈ reqs.
Proof.
  revert H. unfold ForObject. rewrite Hk, Hv. intros (r & Hr & H)%bind_Some. destruct r as [r|]; [|done].
  apply bind_Some in H as (more & _ & [= <-]). apply dedupe_requests_elem. split; [|apply not_elem_of_nil].
  apply elem_of_app. left. unfold requests in Hr. apply bind_Some in Hr as (res & _ & Hr). injection Hr as Hr.
  assert (Hp : passRole s spec f = Some (mkAction "iam:PassRole" (role_named s spec f))).
  { unfold passRole, role_named. by destruct (String.eqb_spec (specString spec f) ""). }
  destruct Hnew as [->|[-> Hd]].
  - apply bind_Some in Hr as (a & _ & [= <-]). right. apply list_elem_of_omap. by exists f.
  - apply bind_Some in Hr as (acts & _ & Hr). apply bind_Some in Hr as (acts' & _ & [= <-]).
    apply elem_of_app. right. unfold pass_roles. apply list_elem_of_omap. exists f. split; [|done].
    apply list_elem_of_filter. split; [|done]. apply changedFields_elem; [by apply specString_key|done].
Qed.

(** ** What a Kubernetes request can be *)

Lemma operator_prefix t v group res sub : HasPrefix (operator t v group res sub) (OperatorPrefix +:+ ":") = true.
Proof. apply HasPrefix_spec. unfold operator. eexists. rewrite append_assoc. reflexivity. Qed.

(** a Kubernetes request is a mapped kind's own action, or the operator's: a request on a resource the
    table maps (or its status) asks the action the table has for it, a kind of the platform's own groups
    that the table does not map is never authorized, and everything else asks an action of the operator's
    prefix, which no policy written for an AWS service covers. *)
Theorem ForKubernetes_surface (t : table) (s : Scope) (verb group resource namespace name : string) (r : Request)
    (H : ForKubernetes t s verb group resource namespace name = Some r) :
  (∃ e v, by_resource t group (before resource "/") = Some e ∧ NormalizeVerb verb = Some v ∧
          Action e v = Some (rAction r)) ∨
  (HasPrefix (rAction r) (OperatorPrefix +:+ ":") = true ∧
   (isPlatformGroup group = true → isComposite t group (before resource "/") = true)).
Proof.
  revert H. unfold ForKubernetes. intros (v & Hv & H)%bind_Some. destruct (String.eqb resource ""); [done|].
  unfold before. destruct (match Cut resource "/" with Some p => p | None => (resource, "") end) as [res sub] eqn:Ec.
  assert (Hres : match Cut resource "/" with Some (a, _) => a | None => resource end = res).
  { destruct (Cut resource "/") as [[a b]|]; by injection Ec. }
  rewrite Hres. destruct (if String.eqb sub "" || String.eqb sub "status" then by_resource t group res else None)
    as [e|] eqn:Er.
  - left. exists e, v. apply bind_Some in H as (a & Ha & H). apply bind_Some in H as (arn & _ & [= <-]).
    split_and!; [|done|done]. by destruct (String.eqb sub "" || String.eqb sub "status").
  - right. destruct (isPlatformGroup group) eqn:Ep; cbn [andb] in H.
    + destruct (isComposite t group res) eqn:Ei; cbn [negb] in H; [|done]. injection H as <-. cbn [rAction].
      split; [|done]. apply operator_prefix.
    + injection H as <-. cbn [rAction]. split; [|done]. apply operator_prefix.
Qed.
End ARN.

(** ** At a concrete table *)

Definition demo_sha1 (s : string) : list Z := replicate 20 7.
Definition demo_equal (a b : json) : bool :=
  match a, b with JStr a, JStr b => String.eqb a b | JNull, JNull => true | _, _ => false end.
Definition demo_print (v : json) : string := match v with JStr s => s | _ => "" end.

Definition demo_machine : Entry :=
  mkEntry "openinfra.dev" "StateMachine" "statemachines" "arn:{partition}:states:{region}:{account}:stateMachine:{name}" ""
    false (λ v, match v with Get => "states:DescribeStateMachine" | List_ => "states:ListStateMachines"
                | Create => "states:CreateStateMachine" | Update => "states:UpdateStateMachine"
                | Delete => "states:DeleteStateMachine" end) [] ["roleArn"] id.
Definition demo_execution : Entry :=
  mkEntry "openinfra.dev" "Execution" "executions" "arn:{partition}:states:{region}:{account}:execution:{spec.stateMachineRef}:{name}"
    "" false (λ _, "states:StartExecution") [] [] id.
Definition demo_table : table := [(demo_machine, []); (demo_execution, [])].
Definition demo_scope : Scope := mkScope "" "" "000000000000".

Lemma ForObject_ends_witness :
  is_Some (ForObject demo_sha1 demo_equal demo_print demo_table demo_scope "Execution" "create" "run-1"
             [("stateMachineRef", JStr "orders")] []).
Proof.
  apply (ForObject_ends demo_sha1 demo_equal demo_print). intros f. unfold specString. cbn [obj_get].
  destruct (String.eqb "stateMachineRef" f); reflexivity.
Defined.

Lemma ForObject_passes_role_witness :
  ∃ reqs, ForObject demo_sha1 demo_equal demo_print demo_table demo_scope "StateMachine" "patch" "orders"
            [("roleArn", JStr "runner")] [("roleArn", JStr "reader")] = Some (Some reqs) ∧
    mkAction "iam:PassRole" "arn:aws:iam::000000000000:role/runner" ∈ reqs.
Proof.
  eexists. split; [vm_compute; reflexivity|].
  refine (ForObject_passes_role demo_sha1 demo_equal demo_print demo_table demo_scope "StateMachine" "patch" "orders"
    "roleArn" [("roleArn", JStr "runner")] [("roleArn", JStr "reader")] demo_machine [] Update _ _ _ _ _ _ _).
  - reflexivity.
  - reflexivity.
  - by left.
  - done.
  - right. split; reflexivity.
  - vm_compute. reflexivity.
Defined.

Lemma ForKubernetes_surface_witness :
  ∃ r, ForKubernetes demo_sha1 demo_table demo_scope "watch" "" "secrets" "kube-system" "" = Some r ∧
    ((∃ e v, by_resource demo_table "" (before "secrets" "/") = Some e ∧ NormalizeVerb "watch" = Some v ∧
             Action e v = Some (rAction r)) ∨
     (HasPrefix (rAction r) (OperatorPrefix +:+ ":") = true ∧
      (isPlatformGroup "" = true → isComposite demo_table "" (before "secrets" "/") = true))).
Proof.
  eexists. split; [vm_compute; reflexivity|].
  refine (ForKubernetes_surface demo_sha1 demo_table demo_scope "watch" "" "secrets" "kube-system" "" _ _).
  vm_compute. reflexivity.
Defined.

(** A spec that names a template field by itself keeps the loop going for ever. *)
Lemma expand_spec_diverges fuel :
  expand_spec fuel "execution:{spec.stateMachineRef}:run" [("stateMachineRef", JStr "{spec.stateMachineRef}")] = None.
Proof. induction fuel as [|fuel IH]; [reflexivity|]. exact IH. Qed.
