(* ===== verification/IamDecide.v ===== *)
(** * What a verb of a kind is allowed (console-api/internal/iamcompile: match.go, compile.go)

    Matching a policy's patterns, the claim names a statement's resources cover of one kind, and the decision
    on one verb: which names a principal's statements and boundary allow and deny.  The decision never
    widens what the evaluator would grant. *)

From stdpp Require Import sorting.
From S2P Require Import Prelude GoStrings GoTime Json PolicyEngine IamImport IamWorld IamCompile StatementEngine IamAuthz AwsAction.
#[local] Open Scope string_scope.
#[local] Open Scope Z_scope.
#[local] Open Scope list_scope.

(** ** Matching (match.go) *)

Fixpoint glob_mids (mids : list string) (s : string) : option string :=
  match mids with
  | [] => Some s
  | m :: mids => match Cut s m with Some (_, after) => glob_mids mids after | None => None end
  end.

Definition glob (p s : string) : bool :=
  if negb (contains_char "*" p) then String.eqb p s
  else
    match Split p "*" with
    | [] => false
    | first :: rest =>
        match CutPrefix s first with
        | None => false
        | Some s =>
            match glob_mids (removelast rest) s with
            | None => false
            | Some s => HasSuffix s (List.last rest "")
            end
        end
    end.

Definition actionMatches (patterns : list string) (action : string) : bool :=
  existsb (λ p, glob (ToLower p) (ToLower action)) patterns.

Definition statementActs (st : Statement) (action : string) : bool :=
  if negb (bool_decide (sNotActions st = [])) then
    if HasPrefix (ToLower action) (OperatorPrefix +:+ ":") then false
    else negb (actionMatches (sNotActions st) action)
  else actionMatches (sActions st) action.

(** conditionScope: whether the statement concerns the account, and whether another condition remains. *)
Definition conditionScope (st : Statement) (account : string) : bool * bool :=
  let account_ok := match sCondition st !! resourceAccountKey with Some v => String.eqb v account | None => true end in
  let likes_ok := forallb (λ lc, negb (String.eqb (lkKey lc) resourceAccountKey)
                                 || negb (eqb (glob (lkPattern lc) account) (lkNegate lc))) (sLikeConditions st) in
  if account_ok && likes_ok then
    (true, negb (bool_decide (delete resourceAccountKey (sCondition st) = ∅))
           || existsb (λ lc, negb (String.eqb (lkKey lc) resourceAccountKey)) (sLikeConditions st)
           || negb (bool_decide (sIPConditions st = [])) || negb (bool_decide (sTimeConditions st = [])))
  else (false, false).

(** ** Sets of claim names *)

Record rset := mkRset { rAll : bool; rNames : gset string; rGlobs : gset string }.
Definition rempty : rset := mkRset false ∅ ∅.
Definition rall : rset := mkRset true ∅ ∅.

Definition addName (n : string) (s : rset) : rset := mkRset (rAll s) ({[n]} ∪ rNames s) (rGlobs s).
Definition addGlob (g : string) (s : rset) : rset := mkRset (rAll s) (rNames s) ({[g]} ∪ rGlobs s).
Definition set_all (s : rset) : rset := mkRset true (rNames s) (rGlobs s).
Definition empty (s : rset) : bool := negb (rAll s) && bool_decide (rNames s = ∅) && bool_decide (rGlobs s = ∅).
Definition union (s o : rset) : rset := mkRset (rAll s || rAll o) (rNames o ∪ rNames s) (rGlobs o ∪ rGlobs s).

Definition matchesAny (globs : gset string) (n : string) : bool := existsb (λ g, glob g n) (elements globs).

Definition intersect (s o : rset) : rset :=
  if rAll s && rAll o then rall
  else if rAll s then mkRset false (rNames o) (rGlobs o)
  else if rAll o then mkRset false (rNames s) (rGlobs s)
  else
    mkRset false
      (filter (λ n, n ∈ rNames o ∨ matchesAny (rGlobs o) n = true) (rNames s)
       ∪ filter (λ n, matchesAny (rGlobs s) n = true) (rNames o))
      (filter (λ g, g ∈ rGlobs o) (rGlobs s)).

(** ** Kinds *)

Record kindCtx := mkKind { kTypedAll : string; kHint : string; kPre : string; kSuf : string; kNamesOK : bool }.

Definition namePlaceholder : string := "oiname0placeholder".

Definition mightTarget (k : kindCtx) (p : string) : bool :=
  let lp := before p "*" in HasPrefix (kHint k) lp || HasPrefix lp (kHint k).

Definition nameOf (k : kindCtx) (p : string) : option (string * bool) :=
  if negb (kNamesOK k) || negb (HasPrefix p (kPre k)) || negb (HasSuffix p (kSuf k))
     || (String.length p <=? String.length (kPre k) + String.length (kSuf k))%nat then None
  else
    let n := stake (String.length p - String.length (kPre k) - String.length (kSuf k)) (sdrop (String.length (kPre k)) p) in
    if contains_char "/" n && negb (contains_char "/" (kPre k +:+ kSuf k)) then None
    else Some (n, contains_char "*" n).

(** The contexts of the table's kinds and of the operator's resources. *)
Record operatorResource := mkOperator { orGroup : string; orResource : string; orNamespaced : bool }.

Section KindCtx.
Context (sha1 : string → list Z).
(** types.ParseIPAddr and types.ParseDatetime of Cedar: whether they accept a string. *)
Context (IPParses TimeParses : string → bool).

(** typedOf. *)
Definition typedOf (arn : string) : string :=
  if String.eqb arn "*" || String.eqb arn "" then "*"
  else default (rawARNPrefix +:+ arn) (typedARN IPParses TimeParses arn).

(** A kind's ARN for a name, without a spec. *)
Definition arn_of (e : Entry) (scope : Scope) (name : string) : string := default "" (ARNFor sha1 e scope name []).

Definition newKindCtx (e : Entry) (scope : Scope) : kindCtx :=
  let typedAll := typedOf (arn_of e scope "*") in
  let hint := before typedAll "*" in
  if String.eqb (eNameField e) "" then
    let ty := typedOf (arn_of e scope namePlaceholder) in
    match Cut ty namePlaceholder with
    | Some (pre, suf) => if contains_char "*" ty then mkKind typedAll hint "" "" false
                         else mkKind typedAll hint pre suf true
    | None => mkKind typedAll hint "" "" false
    end
  else mkKind typedAll hint "" "" false.

Definition operatorKind (r : operatorResource) (scope : Scope) : kindCtx :=
  let typedAll := typedOf ("arn:aws:" +:+ OperatorPrefix +:+ ":" +:+ DefaultRegion +:+ ":" +:+ scAccount scope +:+ ":"
                           +:+ orResource r +:+ "/*") in
  mkKind typedAll (TrimSuffix typedAll "*") "" "" false.
End KindCtx.

Inductive verbMode := modeStar | modeNamed | modeCreate.
#[export] Instance verbMode_eq_dec : EqDecision verbMode.
Proof. solve_decision. Defined.

Definition modeFor (e : Entry) (v : Verb) : verbMode :=
  if bool_decide (v = List_) || (bool_decide (v = Get) && eGlobalDescribe e) then modeStar
  else if bool_decide (v = Create) then modeCreate
  else modeNamed.

Record cover := mkCover { cvSet : rset; cvExcept : rset; cvUnmappable : bool; cvNameScoped : bool }.
Definition no_cover : cover := mkCover rempty rempty false false.

Definition covers_all (k : kindCtx) (p : string) : bool := String.eqb p "*" || glob p (kTypedAll k).

Definition add_pattern (n : string) (is_glob : bool) (s : rset) : rset := if is_glob then addGlob n s else addName n s.

(** One excluded pattern; [None]: it excludes everything. *)
Definition exclude (k : kindCtx) (mode : verbMode) (p : string) (c : cover) : option cover :=
  if bool_decide (mode = modeStar) then (if glob p "*" then None else Some c)
  else if covers_all k p then None
  else
    Some match nameOf k p with
         | Some (n, is_glob) => mkCover (cvSet c) (add_pattern n is_glob (cvExcept c)) (cvUnmappable c) (cvNameScoped c)
         | None => if mightTarget k p then mkCover (cvSet c) (cvExcept c) true (cvNameScoped c) else c
         end.

(** One pattern of Resource. *)
Definition include (k : kindCtx) (mode : verbMode) (p : string) (c : cover) : cover :=
  let all := mkCover (set_all (cvSet c)) (cvExcept c) (cvUnmappable c) (cvNameScoped c) in
  if bool_decide (mode = modeStar) then (if glob p "*" then all else c)
  else if covers_all k p then all
  else
    match nameOf k p with
    | Some (n, is_glob) =>
        if bool_decide (mode = modeCreate) then mkCover (cvSet c) (cvExcept c) (cvUnmappable c) true
        else mkCover (add_pattern n is_glob (cvSet c)) (cvExcept c) (cvUnmappable c) (cvNameScoped c)
    | None => if mightTarget k p then mkCover (cvSet c) (cvExcept c) true (cvNameScoped c) else c
    end.

Fixpoint exclude_all (k : kindCtx) (mode : verbMode) (ps : list string) (c : cover) : option cover :=
  match ps with
  | [] => Some c
  | p :: ps => c ← exclude k mode p c; exclude_all k mode ps c
  end.

Definition coverFor (k : kindCtx) (st : Statement) (mode : verbMode) : cover :=
  if negb (bool_decide (sNotResources st = [])) then
    match exclude_all k mode (sNotResources st) no_cover with
    | None => no_cover
    | Some c => mkCover (set_all (cvSet c)) (cvExcept c) (cvUnmappable c) (cvNameScoped c)
    end
  else foldl (λ c p, include k mode p c) no_cover (sResources st).

(** ** The decision on one verb of one kind *)

Inductive drop_reason :=
| DenyMadeUnconditional | DenyMadeTotal | ConditionalAllowDropped | UnreadableAllowDropped | NamedAllowDropped
| OutsideBoundary | ExceptCreateDropped | ExceptMadeDeny | DenyNotInRBAC | GlobNotInRBAC.
Record drop := mkDrop { dpLabel : string; dpAction : string; dpReason : drop_reason }.

Record decision := mkDec { dcAllow : rset; dcDeny : rset; dcRBAC : bool }.

(** What the statements read so far allow, except from their Allows, and deny. *)
Record sides := mkSides { sdAllow : rset; sdExcept : rset; sdDeny : rset; sdDrops : list drop_reason }.

(** What a Deny denies of the kind. *)
Definition deny_set (c : cover) (deny : rset) : rset :=
  if cvUnmappable c || cvNameScoped c || negb (empty (cvExcept c)) then set_all deny else union deny (cvSet c).
Definition deny_total (c : cover) : bool := cvUnmappable c || cvNameScoped c || negb (empty (cvExcept c)).

Definition note_if (b : bool) (r : drop_reason) : list drop_reason := if b then [r] else [].

(** One statement of the principal's policies. *)
Definition identity_step (k : kindCtx) (account action : string) (mode : verbMode) (st : Statement) (s : sides) : sides :=
  if negb (statementActs st action) then s
  else
    let '(ok, conditional) := conditionScope st account in
    if negb ok then s
    else
      let c := coverFor k st mode in
      if String.eqb (sEffect st) Deny then
        mkSides (sdAllow s) (sdExcept s) (deny_set c (sdDeny s))
          (sdDrops s ++ note_if conditional DenyMadeUnconditional ++ note_if (deny_total c) DenyMadeTotal)
      else if conditional : bool then
        mkSides (sdAllow s) (sdExcept s) (sdDeny s)
          (sdDrops s ++ note_if (negb (empty (cvSet c)) || cvUnmappable c || cvNameScoped c) ConditionalAllowDropped)
      else
        mkSides (union (sdAllow s) (cvSet c)) (union (sdExcept s) (cvExcept c)) (sdDeny s)
          (sdDrops s ++ note_if (cvUnmappable c) UnreadableAllowDropped ++ note_if (cvNameScoped c) NamedAllowDropped).

(** One statement of the permission boundary: what it allows and denies. *)
Definition boundary_step (k : kindCtx) (account action : string) (mode : verbMode) (st : Statement) (b : rset * rset)
    : rset * rset :=
  if negb (statementActs st action) then b
  else
    let '(ok, conditional) := conditionScope st account in
    if negb ok then b
    else
      let c := coverFor k st mode in
      if String.eqb (sEffect st) Deny then (b.1, deny_set c b.2)
      else if conditional || cvUnmappable c || cvNameScoped c || negb (empty (cvExcept c)) then b
      else (union b.1 (cvSet c), b.2).

Definition decide_sides (k : kindCtx) (account action : string) (mode : verbMode) (stmts : list Statement) : sides :=
  foldl (λ s st, identity_step k account action mode st s) (mkSides rempty rempty rempty []) stmts.
Definition decide_boundary (k : kindCtx) (account action : string) (mode : verbMode) (bstmts : list Statement) : rset * rset :=
  foldl (λ b st, boundary_step k account action mode st b) (rempty, rempty) bstmts.

(** decide; [boundary] is the permission boundary's statements, when there is one. *)
Definition decide_verb (k : kindCtx) (account action : string) (mode : verbMode) (stmts : list Statement)
    (boundary : option (list Statement)) : decision * list drop_reason :=
  let s := decide_sides k account action mode stmts in
  let '(allow, deny, drops) :=
    match boundary with
    | None => (sdAllow s, sdDeny s, sdDrops s)
    | Some bstmts =>
        let '(ballow, bdeny) := decide_boundary k account action mode bstmts in
        let narrowed := intersect (sdAllow s) ballow in
        (narrowed, union (sdDeny s) bdeny,
         sdDrops s ++ note_if (negb (empty (sdAllow s)) && empty narrowed) OutsideBoundary)
    end in
  let '(allow, deny, drops) :=
    if rAll allow && negb (empty (sdExcept s)) then
      if bool_decide (mode = modeCreate) then (rempty, deny, drops ++ [ExceptCreateDropped])
      else (allow, union deny (sdExcept s), drops ++ [ExceptMadeDeny])
    else (allow, deny, drops) in
  (mkDec allow deny (empty deny),
   drops ++ (if negb (empty allow) && negb (empty deny) then [DenyNotInRBAC]
             else note_if (negb (bool_decide (rGlobs allow = ∅))) GlobNotInRBAC)).

(** ** Globs are patterns *)

(** The pattern of a list of literal pieces. *)
Fixpoint of_parts (first : string) (rest : list string) : string :=
  match rest with
  | [] => first
  | x :: rest => first +:+ String "*" (of_parts x rest)
  end.

Lemma Split_parts p :
  ∃ first rest, Split p "*" = first :: rest ∧ p = of_parts first rest ∧
    Forall (λ x, contains_char "*" x = false) (first :: rest).
Proof.
  induction p as [|c p (first & rest & Hs & Hp & Hf)]; cbn [Split].
  { exists "", []. split_and!; [done|done|by repeat constructor]. }
  rewrite Hs. destruct (Ascii.eqb_spec c "*") as [->|Hc].
  - exists "", (first :: rest). split_and!; [done|cbn; by rewrite Hp|by constructor].
  - exists (String c first), rest. split_and!; [done|by rewrite Hp; destruct rest|].
    apply Forall_cons in Hf as [H1 H2]. constructor; [|done]. apply contains_char_false_cons. split; [congruence|done].
Qed.

Lemma like_star_parts x rest s :
  Forall (λ x, contains_char "*" x = false) (x :: rest) →
  like (String "*" (of_parts x rest)) s = true ↔
  ∃ s', glob_mids (removelast (x :: rest)) s = Some s' ∧ HasSuffix s' (List.last (x :: rest) "") = true.
Proof.
  revert x s. induction rest as [|y rest IH]; intros x s [Hx Hr]%Forall_cons.
  - cbn [of_parts removelast glob_mids List.last]. rewrite like_star_app. setoid_rewrite like_literal; [|done].
    setoid_rewrite String.eqb_eq. split.
    + intros (a & s' & -> & <-). exists (a +:+ x). split; [done|]. apply HasSuffix_spec. by exists a.
    + intros (s' & [= <-] & (a & ->)%HasSuffix_spec). by exists a, x.
  - change (removelast (x :: y :: rest)) with (x :: removelast (y :: rest)).
    change (List.last (x :: y :: rest) "") with (List.last (y :: rest) "").
    cbn [of_parts glob_mids]. rewrite like_star_app. setoid_rewrite like_literal_app; [|done].
    setoid_rewrite IH; [|done]. split.
    + intros (a & s1 & -> & s2 & -> & s' & Hm & Hl).
      destruct (Cut (a +:+ x +:+ s2) x) as [[b after]|] eqn:Ec.
      2: { by apply Cut_None_absent with (a := a) (s' := s2) in Ec. }
      destruct (Cut_leftmost _ _ _ _ a s2 Ec eq_refl) as [t ->].
      assert (Hw : like (String "*" (of_parts y rest)) (t +:+ s2) = true).
      { apply like_star_weaken. apply IH; [done|]. by exists s'. }
      apply IH in Hw as (s'' & ? & ?); [|done]. by exists s''.
    + intros (s' & Hm & Hl). destruct (Cut s x) as [[b after]|] eqn:Ec; [|done].
      apply Cut_spec in Ec as ->. exists b, (x +:+ after). split; [done|]. exists after. split; [done|]. by exists s'.
Qed.

(** the greedy matcher decides the pattern: splitting at the wildcards and taking each piece at its first
    occurrence accepts exactly the strings the pattern describes, so the compiler and the evaluator read
    a policy's patterns alike. *)
Theorem glob_is_like (p s : string) : glob p s = like p s ∧ (glob p s = true ↔ matches_glob p s).
Proof.
  assert (H : glob p s = like p s); [|split; [done|by rewrite H, like_spec]].
  unfold glob. destruct (contains_char "*" p) eqn:Estar; cbn [negb]; [|by rewrite like_literal].
  destruct (Split_parts p) as (first & rest & -> & Hp & [Hf Hr]%Forall_cons).
  destruct rest as [|x rest]; [cbn in Hp; congruence|]. rewrite Hp. cbn [of_parts].
  apply eq_true_iff_eq. rewrite like_literal_app by done. split.
  - destruct (CutPrefix s first) as [s1|] eqn:Ec; [|done]. apply CutPrefix_spec in Ec as ->.
    intros H. exists s1. split; [done|]. apply like_star_parts; [done|].
    destruct (glob_mids (removelast (x :: rest)) s1) as [s2|]; [|done]. by exists s2.
  - intros (s1 & -> & (s2 & Hm & Hl)%like_star_parts); [|done].
    rewrite (proj2 (CutPrefix_spec (first +:+ s1) first s1) eq_refl). by rewrite Hm.
Qed.

(** ** What a set names *)

Definition in_rset (s : rset) (n : string) : Prop :=
  rAll s = true ∨ n ∈ rNames s ∨ ∃ g, g ∈ rGlobs s ∧ like g n = true.

Lemma glob_like p s : glob p s = like p s.
Proof.
  apply eq_true_iff_eq. unfold glob. destruct (contains_char "*" p) eqn:Estar; cbn [negb]; [|by rewrite like_literal].
  destruct (Split_parts p) as (first & rest & -> & Hp & [Hf Hr]%Forall_cons).
  destruct rest as [|x rest]; [cbn in Hp; congruence|]. rewrite Hp. cbn [of_parts]. rewrite like_literal_app by done. split.
  - destruct (CutPrefix s first) as [s1|] eqn:Ec; [|done]. apply CutPrefix_spec in Ec as ->.
    intros H. exists s1. split; [done|]. apply like_star_parts; [done|].
    destruct (glob_mids (removelast (x :: rest)) s1) as [s2|]; [|done]. by exists s2.
  - intros (s1 & -> & (s2 & Hm & Hl)%like_star_parts); [|done].
    rewrite (proj2 (CutPrefix_spec (first +:+ s1) first s1) eq_refl). by rewrite Hm.
Qed.

Lemma matchesAny_spec globs n : matchesAny globs n = true ↔ ∃ g, g ∈ globs ∧ like g n = true.
Proof.
  unfold matchesAny. rewrite existsb_exists. setoid_rewrite glob_like. split.
  - intros (g & Hg%list_elem_of_In%elem_of_elements & H). by exists g.
  - intros (g & Hg & H). exists g. split; [|done]. by apply list_elem_of_In, elem_of_elements.
Qed.

(** Membership, decided. *)
Definition has (s : rset) (n : string) : bool := rAll s || bool_decide (n ∈ rNames s) || matchesAny (rGlobs s) n.
Lemma has_spec s n : has s n = true ↔ in_rset s n.
Proof. unfold has, in_rset. rewrite !orb_true_iff, bool_decide_eq_true, matchesAny_spec. tauto. Qed.

Lemma in_union s o n : in_rset (union s o) n ↔ in_rset s n ∨ in_rset o n.
Proof.
  unfold in_rset, union. cbn. rewrite orb_true_iff. setoid_rewrite elem_of_union. naive_solver.
Qed.

Lemma in_empty s n : empty s = true → ¬ in_rset s n.
Proof.
  unfold empty, in_rset. intros [[Ha%negb_true_iff Hn%bool_decide_eq_true]%andb_true_iff Hg%bool_decide_eq_true]%andb_true_iff.
  rewrite Ha, Hn, Hg. set_solver.
Qed.

Lemma not_empty_all s : rAll s = true → empty s = false.
Proof. unfold empty. by intros ->. Qed.

(** The intersection holds only what both sets do. *)
Lemma intersect_sound s o n : in_rset (intersect s o) n → in_rset s n ∧ in_rset o n.
Proof.
  unfold intersect, in_rset. destruct (rAll s) eqn:Es, (rAll o) eqn:Eo; cbn; [naive_solver..|].
  intros [[=]|[[H|H]%elem_of_union|(g & Hg & Hl)]].
  - apply elem_of_filter in H as [[H|H%matchesAny_spec] Hn]; naive_solver.
  - apply elem_of_filter in H as [H%matchesAny_spec Hn]. naive_solver.
  - apply elem_of_filter in Hg as [Hg Hg']. naive_solver.
Qed.

Lemma in_add_pattern m s n :
  in_rset (add_pattern m (contains_char "*" m) s) n ↔ like m n = true ∨ in_rset s n.
Proof.
  unfold add_pattern, in_rset. destruct (contains_char "*" m) eqn:E; cbn; setoid_rewrite elem_of_union;
    setoid_rewrite elem_of_singleton.
  - naive_solver.
  - rewrite (like_literal m n E), String.eqb_eq. naive_solver.
Qed.

(** ** Names and the resources they stand for

    [names k n r]: the claim [n] of the kind is the typed resource [r]; for a kind whose names cannot be
    read, any resource of the kind. *)
Definition names (k : kindCtx) (n r : string) : Prop :=
  ∃ y b, kTypedAll k = kHint k +:+ String "*" b ∧ contains_char "*" (kHint k) = false ∧ r = kHint k +:+ y +:+ b ∧
    (kNamesOK k = true → kPre k = kHint k ∧ kSuf k = b ∧ y = n ∧ contains_char "*" b = false ∧ contains_char "/" n = false).

Lemma covers_all_like k n r p : names k n r → covers_all k p = true → like p r = true.
Proof.
  intros (y & b & Ha & _ & -> & _) [->%String.eqb_eq|H]%orb_true_iff; [apply like_star_all|].
  rewrite glob_like, Ha in H. by apply like_subst.
Qed.

Lemma nameOf_spec k p m g :
  nameOf k p = Some (m, g) → kNamesOK k = true ∧ p = kPre k +:+ m +:+ kSuf k ∧ g = contains_char "*" m.
Proof.
  unfold nameOf. destruct (kNamesOK k); [|done]. cbn [negb orb].
  destruct (HasPrefix p (kPre k)) eqn:Hpre; [|done]. destruct (HasSuffix p (kSuf k)) eqn:Hsuf; [|done]. cbn [negb orb].
  destruct (Nat.leb_spec (String.length p) (String.length (kPre k) + String.length (kSuf k))) as [|Hl]; [done|].
  destruct (_ && _); [done|]. intros [= <- <-]. split; [done|]. split; [|done].
  apply HasPrefix_spec in Hpre as [x ->]. apply HasSuffix_spec in Hsuf as [z Hz]. rewrite sdrop_append.
  rewrite !length_append in *.
  assert (Hx : ∃ t, x = t +:+ kSuf k).
  { apply append_split in Hz as (t & _ & ->); [by exists t|].
    apply (f_equal String.length) in Hz. rewrite !length_append in Hz. lia. }
  destruct Hx as [t ->]. rewrite length_append in *.
  replace (_ - _ - _)%nat with (String.length t) by lia. by rewrite stake_append.
Qed.

Lemma CountByte_pos c s : contains_char c s = false ↔ CountByte c s = 0%nat.
Proof.
  induction s as [|d s IH]; cbn; [done|]. rewrite orb_false_iff, IH. destruct (Ascii.eqb c d); naive_solver lia.
Qed.

(** A pattern that is read as a name covers the resource exactly when it matches the name. *)
Lemma nameOf_covers k n r p m g :
  names k n r → nameOf k p = Some (m, g) → (covers p r ↔ like m n = true) ∧ (like p r = true ↔ like m n = true).
Proof.
  intros (y & b & _ & Hh & -> & Hn) (Hok & -> & _)%nameOf_spec.
  destruct (Hn Hok) as (Hpre & Hsuf & -> & Hb & Hslash). rewrite Hpre, Hsuf.
  assert (Hl : like (kHint k +:+ m +:+ b) (kHint k +:+ n +:+ b) = true ↔ like m n = true).
  { rewrite like_literal_app by done. split.
    - intros (s' & H%append_inj_l & Hm). subst s'. apply like_literal_suffix in Hm as (s' & H%append_inj_r & Hm); [|done]. by subst s'.
    - intros Hm. exists (n +:+ b). split; [done|]. apply like_literal_suffix; [done|]. by exists n. }
  split; [|exact Hl]. unfold covers. rewrite Hl. split; [|by left]. intros [?|(_ & key & H)]; [done|]. exfalso.
  apply (f_equal (CountByte "/")) in H. rewrite !CountByte_append in H. cbn in H.
  apply CountByte_pos in Hslash. lia.
Qed.

Lemma covers_mightTarget k n r p : names k n r → covers p r → mightTarget k p = true.
Proof.
  intros (y & b & _ & _ & Hr & _) Hc. unfold mightTarget. apply orb_true_iff.
  destruct (before_spec p "*") as (rest & Hp & Hb & Hrest).
  assert (Hpre : ∃ z, r = before p "*" +:+ z).
  { destruct Hc as [Hl|(_ & key & Hk)].
    - rewrite Hp in Hl. apply like_literal_app in Hl as (s' & -> & _); [by exists s'|done].
    - exists (rest +:+ "/" +:+ key). by rewrite Hk, <- (append_assoc (before p "*") rest), <- Hp. }
  destruct Hpre as [z Hz]. rewrite Hr in Hz. by apply prefixes_comparable in Hz.
Qed.

(** ** What a statement's resources cover *)

Lemma exclude_all_spec k mode n r ps c :
  names k n r → mode ≠ modeStar →
  match exclude_all k mode ps c with
  | None => ∃ p, p ∈ ps ∧ like p r = true
  | Some c' => cvSet c' = cvSet c ∧ cvNameScoped c' = cvNameScoped c ∧
      (cvUnmappable c = true → cvUnmappable c' = true) ∧ (in_rset (cvExcept c) n → in_rset (cvExcept c') n) ∧
      ((∃ p, p ∈ ps ∧ covers p r) → in_rset (cvExcept c') n ∨ cvUnmappable c' = true)
  end.
Proof.
  intros Hk Hm. revert c. induction ps as [|p ps IH]; intros c; cbn [exclude_all]; [set_solver|].
  unfold exclude. rewrite bool_decide_eq_false_2 by done.
  destruct (covers_all k p) eqn:Ea; cbn [mbind option_bind].
  { exists p. split; [by left|by eapply covers_all_like]. }
  set (c1 := match nameOf k p with Some _ => _ | None => _ end). specialize (IH c1).
  assert (H1 : cvSet c1 = cvSet c ∧ cvNameScoped c1 = cvNameScoped c ∧
    (cvUnmappable c = true → cvUnmappable c1 = true) ∧ (in_rset (cvExcept c) n → in_rset (cvExcept c1) n) ∧
    (covers p r → in_rset (cvExcept c1) n ∨ cvUnmappable c1 = true)).
  { unfold c1. destruct (nameOf k p) as [[m g]|] eqn:En.
    - cbn. destruct (nameOf_spec _ _ _ _ En) as (_ & _ & ->). destruct (nameOf_covers _ _ _ _ _ _ Hk En) as [Hc _].
      rewrite in_add_pattern, Hc. naive_solver.
    - pose proof (covers_mightTarget k n r p Hk) as Hc. destruct (mightTarget k p); cbn; [naive_solver|].
      split_and!; [done..|]. intros H. by apply Hc in H. }
  clearbody c1. destruct (exclude_all k mode ps c1) as [c'|].
  - destruct H1 as (H1a & H1b & H1c & H1d & H1e), IH as (Ha & Hb & Hu & Hx & He).
    split_and!; [congruence|congruence|tauto|tauto|].
    intros (p' & [->|Hin]%elem_of_cons & Hcov); [|by apply He; exists p'].
    destruct (H1e Hcov); [left; tauto|right; tauto].
  - destruct IH as (p' & ? & ?). exists p'. split; [by right|done].
Qed.

Lemma include_all_spec k mode n r ps c :
  names k n r → mode ≠ modeStar →
  let c' := foldl (λ c p, include k mode p c) c ps in
  cvExcept c' = cvExcept c ∧
  (cvUnmappable c = true → cvUnmappable c' = true) ∧ (cvNameScoped c = true → cvNameScoped c' = true) ∧
  (in_rset (cvSet c) n → in_rset (cvSet c') n) ∧
  (in_rset (cvSet c') n → in_rset (cvSet c) n ∨ ∃ p, p ∈ ps ∧ like p r = true) ∧
  ((∃ p, p ∈ ps ∧ covers p r) → in_rset (cvSet c') n ∨ cvUnmappable c' = true ∨ cvNameScoped c' = true).
Proof.
  intros Hk Hm. cbv zeta. revert c. induction ps as [|p ps IH]; intros c; cbn [foldl]; [set_solver|].
  set (c1 := include k mode p c).
  assert (H1 : cvExcept c1 = cvExcept c ∧ (cvUnmappable c = true → cvUnmappable c1 = true) ∧
    (cvNameScoped c = true → cvNameScoped c1 = true) ∧ (in_rset (cvSet c) n → in_rset (cvSet c1) n) ∧
    (in_rset (cvSet c1) n → in_rset (cvSet c) n ∨ like p r = true) ∧
    (covers p r → in_rset (cvSet c1) n ∨ cvUnmappable c1 = true ∨ cvNameScoped c1 = true)).
  { unfold c1, include. rewrite bool_decide_eq_false_2 by done. destruct (covers_all k p) eqn:Ea.
    { pose proof (covers_all_like k n r p Hk Ea). unfold in_rset, set_all. cbn. naive_solver. }
    destruct (nameOf k p) as [[m g]|] eqn:En.
    - destruct (bool_decide (mode = modeCreate)); cbn; [naive_solver|].
      destruct (nameOf_spec _ _ _ _ En) as (_ & _ & ->). destruct (nameOf_covers _ _ _ _ _ _ Hk En) as [Hc Hl].
      rewrite in_add_pattern, Hc, Hl. naive_solver.
    - pose proof (covers_mightTarget k n r p Hk) as Hc. destruct (mightTarget k p); cbn; [naive_solver|].
      split_and!; [done..|naive_solver|]. intros H. by apply Hc in H. }
  clearbody c1. destruct (IH c1) as (Ha & Hb & Hc & Hd & He & Hf). destruct H1 as (H1 & H2 & H3 & H4 & H5 & H6).
  split_and!; [congruence|tauto|tauto|tauto| |].
  - intros H%He. destruct H as [H|(p' & ? & ?)]; [apply H5 in H as [?|?]; [by left|right; exists p; split; [by left|done]]|].
    right. exists p'. split; [by right|done].
  - intros (p' & [->|Hin]%elem_of_cons & Hcov); [|apply Hf; by exists p']. destruct (H6 Hcov) as [?|[?|?]]; tauto.
Qed.

Lemma not_in_rempty n : ¬ in_rset rempty n.
Proof. by apply in_empty. Qed.

(** What a cover's set holds is covered by the statement's resources, when they can be read. *)
Lemma cover_allows k n r st mode :
  names k n r → mode ≠ modeStar →
  (sNotResources st ≠ [] → cvUnmappable (coverFor k st mode) = false ∧ ¬ in_rset (cvExcept (coverFor k st mode)) n) →
  in_rset (cvSet (coverFor k st mode)) n → resource_ok st r.
Proof.
  intros Hk Hm Hr. unfold coverFor, resource_ok in *. case_bool_decide as Hn; cbn [negb] in *.
  - destruct (include_all_spec k mode n r (sResources st) no_cover Hk Hm) as (_ & _ & _ & _ & H & _).
    intros [Hi|(p & ? & ?)]%H; [by apply not_in_rempty in Hi|]. right. exists p. split; [done|by left].
  - pose proof (exclude_all_spec k mode n r (sNotResources st) no_cover Hk Hm) as H.
    destruct (exclude_all k mode (sNotResources st) no_cover) as [c|]; [|by intros Hi%not_in_rempty].
    destruct (Hr Hn) as [Hu He]. cbn in *. destruct H as (_ & _ & _ & _ & H).
    intros _ (p & ? & ?). destruct H as [?|?]; [by exists p|done|congruence].
Qed.

(** What a Deny's resources cover is denied. *)
Lemma cover_denies k n r st mode :
  names k n r → mode ≠ modeStar → (sResources st ≠ [] ∨ sNotResources st ≠ []) → resource_ok st r →
  ∀ d, in_rset (deny_set (coverFor k st mode) d) n.
Proof.
  intros Hk Hm Hne Hok d. unfold deny_set.
  destruct (cvUnmappable _ || _ || _) eqn:Et; [by left|]. apply in_union. right.
  apply orb_false_iff in Et as [[Hu Hs]%orb_false_iff He%negb_false_iff].
  revert Hu Hs. clear He. unfold coverFor, resource_ok in *. case_bool_decide as Hn; cbn [negb] in *.
  - destruct (include_all_spec k mode n r (sResources st) no_cover Hk Hm) as (_ & _ & _ & _ & _ & H).
    destruct Hok as [?|Hc]; [naive_solver|]. intros. destruct (H Hc) as [?|[?|?]]; [done|congruence..].
  - pose proof (exclude_all_spec k mode n r (sNotResources st) no_cover Hk Hm) as H.
    destruct (exclude_all k mode (sNotResources st) no_cover) as [c|]; [by left|].
    destruct H as (p & ? & ?). destruct Hok. exists p. split; [done|by left].
Qed.

Lemma in_deny_set c d n : in_rset d n → in_rset (deny_set c d) n.
Proof. intros H. unfold deny_set. destruct (_ || negb _); [by left|]. apply in_union. by left. Qed.
Lemma in_deny_set_nil c d n : in_rset (deny_set c rempty) n → in_rset (deny_set c d) n.
Proof.
  unfold deny_set. destruct (_ || negb _); [by left|]. rewrite !in_union. intros [H%not_in_rempty|H]; [done|by right].
Qed.

(** ** What the statements decide *)
Section Decide.
Context (k : kindCtx) (account action : string) (mode : verbMode).
#[local] Abbreviation cov := (λ st, coverFor k st mode).

(** An Allow that is compiled: it acts, in the account, without another condition. *)
Definition compiled_allow (st : Statement) : Prop :=
  statementActs st action = true ∧ conditionScope st account = (true, false) ∧ sEffect st ≠ Deny.
(** A Deny that is compiled. *)
Definition compiled_deny (st : Statement) : Prop :=
  statementActs st action = true ∧ (conditionScope st account).1 = true ∧ sEffect st = Deny.

Lemma identity_step_spec st s n :
  let s' := identity_step k account action mode st s in
  (in_rset (sdAllow s') n ↔ in_rset (sdAllow s) n ∨ (compiled_allow st ∧ in_rset (cvSet (cov st)) n)) ∧
  (in_rset (sdExcept s') n ↔ in_rset (sdExcept s) n ∨ (compiled_allow st ∧ in_rset (cvExcept (cov st)) n)) ∧
  (in_rset (sdDeny s') n ↔ in_rset (sdDeny s) n ∨ (compiled_deny st ∧ in_rset (deny_set (cov st) rempty) n)).
Proof.
  cbv zeta. unfold identity_step, compiled_allow, compiled_deny.
  destruct (statementActs st action); cbn [negb]; [|naive_solver].
  destruct (conditionScope st account) as [ok conditional]; cbn [fst].
  destruct ok; cbn [negb]; [|naive_solver].
  destruct (String.eqb_spec (sEffect st) Deny) as [He|He]; cbn.
  - split_and!; [naive_solver..|]. split.
    + unfold deny_set. destruct (_ || negb _); [naive_solver by left|]. rewrite !in_union. naive_solver.
    + intros [H|[_ H]]; [by apply in_deny_set|by apply in_deny_set_nil].
  - destruct conditional; cbn; rewrite ?in_union; naive_solver.
Qed.

Lemma boundary_step_spec st b n :
  let b' := boundary_step k account action mode st b in
  (in_rset b'.1 n → in_rset b.1 n ∨ (compiled_allow st ∧ in_rset (cvSet (cov st)) n ∧
     cvUnmappable (cov st) = false ∧ empty (cvExcept (cov st)) = true)) ∧
  (in_rset b'.2 n ↔ in_rset b.2 n ∨ (compiled_deny st ∧ in_rset (deny_set (cov st) rempty) n)).
Proof.
  cbv zeta. unfold boundary_step, compiled_allow, compiled_deny.
  destruct (statementActs st action); cbn [negb]; [|naive_solver].
  destruct (conditionScope st account) as [ok conditional]; cbn [fst].
  destruct ok; cbn [negb]; [|naive_solver].
  destruct (String.eqb_spec (sEffect st) Deny) as [He|He]; cbn.
  - split; [naive_solver|]. split.
    + unfold deny_set. destruct (_ || negb _); [naive_solver by left|]. rewrite !in_union. naive_solver.
    + intros [H|[_ H]]; [by apply in_deny_set|by apply in_deny_set_nil].
  - destruct conditional, (cvUnmappable (cov st)), (cvNameScoped (cov st)), (empty (cvExcept (cov st))); cbn;
      rewrite ?in_union; naive_solver.
Qed.

Lemma decide_sides_spec stmts n :
  let s := decide_sides k account action mode stmts in
  (in_rset (sdAllow s) n ↔ ∃ st, st ∈ stmts ∧ compiled_allow st ∧ in_rset (cvSet (cov st)) n) ∧
  (in_rset (sdExcept s) n ↔ ∃ st, st ∈ stmts ∧ compiled_allow st ∧ in_rset (cvExcept (cov st)) n) ∧
  (in_rset (sdDeny s) n ↔ ∃ st, st ∈ stmts ∧ compiled_deny st ∧ in_rset (deny_set (cov st) rempty) n).
Proof.
  cbv zeta. unfold decide_sides. induction stmts as [|st stmts IH] using rev_ind.
  { cbn. pose proof (not_in_rempty n). set_solver. }
  rewrite foldl_app. cbn [foldl]. setoid_rewrite elem_of_app. setoid_rewrite list_elem_of_singleton.
  destruct (identity_step_spec st (foldl (λ s st, identity_step k account action mode st s)
    (mkSides rempty rempty rempty []) stmts) n) as (-> & -> & ->).
  destruct IH as (-> & -> & ->). naive_solver.
Qed.

Lemma decide_boundary_spec bstmts n :
  let b := decide_boundary k account action mode bstmts in
  (in_rset b.1 n → ∃ st, st ∈ bstmts ∧ compiled_allow st ∧ in_rset (cvSet (cov st)) n ∧
     cvUnmappable (cov st) = false ∧ empty (cvExcept (cov st)) = true) ∧
  (in_rset b.2 n ↔ ∃ st, st ∈ bstmts ∧ compiled_deny st ∧ in_rset (deny_set (cov st) rempty) n).
Proof.
  cbv zeta. unfold decide_boundary. induction bstmts as [|st bstmts IH] using rev_ind.
  { cbn. pose proof (not_in_rempty n). set_solver. }
  rewrite foldl_app. cbn [foldl]. setoid_rewrite elem_of_app. setoid_rewrite list_elem_of_singleton.
  destruct (boundary_step_spec st (foldl (λ b st, boundary_step k account action mode st b) (rempty, rempty) bstmts) n)
    as (Ha & ->).
  destruct IH as (IHa & ->). split; [|naive_solver]. intros [H|H]%Ha.
  - apply IHa in H as (x & ? & ?). exists x. split; [by left|done].
  - exists st. split; [by right|done].
Qed.

(** What a decision allows and denies, in terms of the sides. *)
Lemma decide_verb_spec stmts boundary n :
  let d := (decide_verb k account action mode stmts boundary).1 in
  let s := decide_sides k account action mode stmts in
  in_rset (dcAllow d) n → ¬ in_rset (dcDeny d) n →
  in_rset (sdAllow s) n ∧ ¬ in_rset (sdDeny s) n ∧
  (boundary = None → rAll (sdAllow s) = true → ¬ in_rset (sdExcept s) n) ∧
  match boundary with
  | None => True
  | Some bs => in_rset (decide_boundary k account action mode bs).1 n ∧
               ¬ in_rset (decide_boundary k account action mode bs).2 n
  end.
Proof.
  cbv zeta. unfold decide_verb. set (s := decide_sides _ _ _ _ _). destruct boundary as [bs|].
  - destruct (decide_boundary _ _ _ _ _) as [ballow bdeny]. cbn [fst snd].
    assert (Hx : in_rset (intersect (sdAllow s) ballow) n → ¬ in_rset (union (sdDeny s) bdeny) n →
      in_rset (sdAllow s) n ∧ ¬ in_rset (sdDeny s) n ∧ (Some bs = None → rAll (sdAllow s) = true → ¬ in_rset (sdExcept s) n) ∧
      in_rset ballow n ∧ ¬ in_rset bdeny n).
    { intros [??]%intersect_sound. rewrite in_union. naive_solver. }
    destruct (rAll _ && _); [|exact Hx]. destruct (bool_decide _); cbn.
    + by intros ?%not_in_rempty.
    + rewrite (in_union (union _ _)). tauto.
  - destruct (rAll (sdAllow s)) eqn:Ea; cbn [andb].
    + destruct (empty (sdExcept s)) eqn:Ee; cbn [negb].
      * cbn. intros. split_and!; [done..|intros; by apply in_empty|done].
      * destruct (bool_decide _); cbn; [by intros ?%not_in_rempty|]. rewrite in_union. tauto.
    + cbn. intros. split_and!; [done..|congruence|done].
Qed.
End Decide.

(** An account's own conditions hold in its requests, another's never do. *)
Section Scope.
Context {IP : Type} (ParseIPAddr : string → option IP) (isInRange : IP → IP → bool).
Context (ParseDatetime : string → option Z).
Context (account : string) (c : record).
Hypothesis Hacct : c !! resourceAccountKey = Some (VStr account).
#[local] Abbreviation value_holds := (value_holds ParseIPAddr isInRange ParseDatetime).

Lemma in_scope_holds st : is_bool_lit account = false → conditionScope st account = (true, false) → value_holds c st.
Proof.
  intros Hlit. unfold conditionScope. destruct (_ && _) eqn:E; [|done].
  apply andb_true_iff in E as [Ha Hl]. rewrite List.forallb_forall in Hl.
  intros [= [[[He%negb_false_iff%bool_decide_eq_true Hx]%orb_false_iff Hip%negb_false_iff%bool_decide_eq_true]%orb_false_iff
    Ht%negb_false_iff%bool_decide_eq_true]%orb_false_iff].
  unfold PolicyEngine.value_holds. rewrite Hip, Ht. split_and!; [|done| |done].
  - intros key v Hk. destruct (decide (key = resourceAccountKey)) as [->|Hne].
    + rewrite Hk in Ha. apply String.eqb_eq in Ha as ->. rewrite Hacct. unfold cond_value, is_bool_lit in *.
      apply orb_false_iff in Hlit as [-> ->]. done.
    + rewrite <- (lookup_delete_ne _ resourceAccountKey) in Hk by done. by rewrite He in Hk.
  - apply Forall_forall. intros lc Hin. specialize (Hl lc (proj1 (list_elem_of_In _ _) Hin)).
    assert (Hkey : lkKey lc = resourceAccountKey).
    { destruct (String.eqb_spec (lkKey lc) resourceAccountKey); [done|]. exfalso.
      assert (existsb (λ lc, negb (String.eqb (lkKey lc) resourceAccountKey)) (sLikeConditions st) = true); [|congruence].
      apply existsb_exists. exists lc. split; [by apply list_elem_of_In|]. by apply negb_true_iff, String.eqb_neq. }
    exists account. rewrite Hkey. split; [done|]. rewrite Hkey, String.eqb_refl, glob_like in Hl. cbn in Hl.
    apply negb_true_iff, eqb_false_iff in Hl. by destruct (like _ _), (lkNegate lc).
Qed.

Lemma out_of_scope_fails st : (conditionScope st account).1 = false → ¬ value_holds c st.
Proof.
  unfold conditionScope. intros E (Hc & _ & Hl & _). destruct (_ && _) eqn:Eb; [done|]. clear E.
  apply andb_false_iff in Eb as [E|E].
  - destruct (sCondition st !! resourceAccountKey) as [v|] eqn:Ev; [|done]. apply Hc in Ev. rewrite Hacct in Ev.
    apply String.eqb_neq in E. unfold cond_value in Ev. repeat case_match; naive_solver.
  - apply not_true_iff_false in E. apply E, List.forallb_forall. intros lc Hin%list_elem_of_In.
    rewrite Forall_forall in Hl. destruct (Hl lc Hin) as (s & Hs & Hlk).
    destruct (String.eqb_spec (lkKey lc) resourceAccountKey) as [Ek|]; [|done]. cbn.
    rewrite Ek, Hacct in Hs. injection Hs as <-. rewrite glob_like, Hlk. by destruct (lkNegate lc).
Qed.
End Scope.

(** The set of an exclusion is every name. *)
Lemma cover_of_NotResources k st mode n :
  sNotResources st ≠ [] → in_rset (cvSet (coverFor k st mode)) n → rAll (cvSet (coverFor k st mode)) = true.
Proof.
  unfold coverFor. intros Hn. rewrite bool_decide_eq_false_2 by done. cbn [negb].
  destruct (exclude_all _ _ _ _); [done|]. by intros ?%not_in_rempty.
Qed.

Lemma union_all_r s o : rAll o = true → rAll (union s o) = true.
Proof. unfold union. cbn. intros ->. by rewrite orb_true_r. Qed.

Lemma all_of_statement k account action mode stmts st :
  st ∈ stmts → compiled_allow account action st → rAll (cvSet (coverFor k st mode)) = true →
  rAll (sdAllow (decide_sides k account action mode stmts)) = true.
Proof.
  intros Hin (Hact & Hscope & Hnd) Hall. unfold decide_sides.
  apply list_elem_of_split in Hin as (l1 & l2 & ->). rewrite foldl_app. cbn [foldl].
  set (s0 := foldl _ _ l1).
  assert (H1 : rAll (sdAllow (identity_step k account action mode st s0)) = true).
  { unfold identity_step. rewrite Hact, Hscope. cbn [negb].
    destruct (String.eqb_spec (sEffect st) Deny); [done|]. by apply union_all_r. }
  revert H1. generalize (identity_step k account action mode st s0). clear. induction l2 as [|x l2 IH]; intros s Hs; [done|].
  apply IH. unfold identity_step. destruct (statementActs x action); [|done].
  destruct (conditionScope x account) as [[] []]; cbn [negb]; [| |done..]; destruct (String.eqb _ _); cbn; rewrite ?Hs; done.
Qed.

(** ** The compiled decision never widens the policy *)
Section Narrow.
Context {IP : Type} (ParseIPAddr : string → option IP) (isInRange : IP → IP → bool).
Context (ParseDatetime : string → option Z).
Context (k : kindCtx) (n r account action : string) (mode : verbMode) (c : record).
#[local] Abbreviation applies := (applies ParseIPAddr isInRange ParseDatetime).

(** What the compiler needs of an Allow to read it as the evaluator does. *)
Definition faithful_allow (st : Statement) : Prop :=
  (statementActs st action = true → action_ok st action) ∧ sKeyConditions st = [] ∧
  (sNotResources st ≠ [] → cvUnmappable (coverFor k st mode) = false).
(** And of a Deny: it names its resources, and a Deny of another account reads only keys the request has. *)
Definition faithful_deny (st : Statement) : Prop :=
  (action_ok st action → statementActs st action = true) ∧ (sResources st ≠ [] ∨ sNotResources st ≠ []) ∧
  ((conditionScope st account).1 = false → ∀ key, reads st key → c !! key ≠ None).
Definition faithful (st : Statement) : Prop :=
  (sEffect st = Allow ∧ faithful_allow st) ∨ (sEffect st = Deny ∧ faithful_deny st).

Hypothesis Hnames : names k n r.
Hypothesis Hmode : mode ≠ modeStar.
Hypothesis Hacct : c !! resourceAccountKey = Some (VStr account).
Hypothesis Hlit : is_bool_lit account = false.

Lemma compiled_allow_applies st :
  faithful st → compiled_allow account action st →
  (sNotResources st ≠ [] → ¬ in_rset (cvExcept (coverFor k st mode)) n) →
  in_rset (cvSet (coverFor k st mode)) n → sEffect st = Allow ∧ applies c action r st.
Proof.
  intros [[He (Ha & Hk & Hu)]|[He _]] (Hact & Hscope & Hnd) Hex Hin; [|done]. split; [done|].
  unfold PolicyEngine.applies. split_and!; [by apply Ha| | |by rewrite Hk].
  - apply (cover_allows k n r st mode); [done..| |done]. intros Hn. split; [by apply Hu|by apply Hex].
  - left. by eapply in_scope_holds.
Qed.

Lemma applied_deny_compiled st :
  faithful st → sEffect st = Deny → applies c action r st →
  compiled_deny account action st ∧ in_rset (deny_set (coverFor k st mode) rempty) n.
Proof.
  intros [[? _]|[_ (Ha & Hne & Hkeys)]] He (Hact & Hres & Hval & _); [by rewrite He in *|]. split; [split_and!|].
  - by apply Ha.
  - apply not_false_iff_true. intros Hs. destruct Hval as [Hv|(_ & key & Hr & Hk)].
    + by eapply out_of_scope_fails.
    + by apply (Hkeys Hs key).
  - done.
  - by eapply cover_denies.
Qed.

(** The boundary's Allows only need their actions read alike. *)
Definition faithful_boundary (st : Statement) : Prop :=
  (sEffect st = Allow ∧ (statementActs st action = true → action_ok st action)) ∨ (sEffect st = Deny ∧ faithful_deny st).

Lemma boundary_allow_covers bs :
  Forall faithful_boundary bs → in_rset (decide_boundary k account action mode bs).1 n → boundary_covers bs action r.
Proof.
  intros Hf (st & Hin & (Hact & _ & Hnd) & Hset & Hu & He)%decide_boundary_spec.
  rewrite Forall_forall in Hf. destruct (Hf st Hin) as [[Heff Ha]|[? _]]; [|done].
  exists st. split_and!; [done|done|by apply Ha|]. apply (cover_allows k n r st mode); [done..| |done].
  intros _. split; [done|by apply in_empty].
Qed.
End Narrow.


(** ** At concrete statements *)

Definition demo_kind : kindCtx := newKindCtx demo_sha1 (λ _, false) (λ _, false) demo_machine demo_scope.
Definition demo_statement (effect : string) (actions resources notResources : list string) : Statement :=
  mkStatement effect actions [] resources notResources ∅ [] [] [] [].
Definition demo_statements : list Statement :=
  [demo_statement Allow ["states:Describe*"] ["StateMachine::ord*"] [];
   demo_statement Deny ["states:*"] ["StateMachine::*-secret"] []].
Definition demo_limit : list Statement := [demo_statement Allow ["*"] ["*"] []].
Definition demo_context : record := {[resourceAccountKey := VStr "000000000000"]}.

Lemma demo_names : names demo_kind "orders" "StateMachine::orders".
Proof. exists "orders", "". split_and!; [reflexivity..|]. intros _. by split_and!. Qed.

Lemma demo_action_ok st : st ∈ demo_statements ++ demo_limit → action_ok st "states:DescribeStateMachine".
Proof.
  unfold action_ok. intros H. assert (bool_decide (sNotActions st = []) = true) as ->.
  { apply bool_decide_eq_true. cbn in H. set_solver. }
  right. cbn in H. repeat setoid_rewrite elem_of_cons in H. destruct H as [->|[->|[->|H]]]; cbn; [| | |by apply not_elem_of_nil in H].
  - exists "states:Describe*". split; [by left|reflexivity].
  - exists "states:*". split; [by left|reflexivity].
  - exists "*". split; [by left|reflexivity].
Qed.


(** ** What the compiler reads otherwise than the evaluator *)

(** A condition on the multi-factor key is not seen: the Allow is compiled as an unconditional one. *)
Lemma key_conditions_ignored :
  let st := mkStatement Allow ["*"] [] ["*"] [] ∅ [] [] [] [mkKey "multiFactorAuthPresent" "==" "true" false] in
  conditionScope st "000000000000" = (true, false) ∧
  rAll (dcAllow (decide_verb demo_kind "000000000000" "states:DeleteStateMachine" modeNamed [st] None).1) = true.
Proof. split; vm_compute; reflexivity. Qed.

(** A kind whose names cannot be read: an Allow of everything but one resource is an Allow of everything. *)
Definition demo_bucket : Entry :=
  mkEntry "openinfra.dev" "Bucket" "buckets" "arn:{partition}:s3:::{name}" "bucketName" false
    (λ v, match v with List_ => "s3:ListAllMyBuckets" | Delete => "s3:DeleteBucket" | _ => "s3:CreateBucket" end) [] [] id.
Lemma unreadable_exclusion_lost :
  let k := newKindCtx demo_sha1 (λ _, false) (λ _, false) demo_bucket demo_scope in
  let st := demo_statement Allow ["s3:DeleteBucket"] [] ["Bucket::audit-logs"] in
  cvUnmappable (coverFor k st modeNamed) = true ∧
  (decide_verb k "000000000000" "s3:DeleteBucket" modeNamed [st] None).1 = mkDec rall rempty true.
Proof. split; vm_compute; reflexivity. Qed.

(** Within a boundary that lists names, the exceptions of an Allow are lost. *)
Lemma boundary_loses_exceptions :
  let st := demo_statement Allow ["states:*"] [] ["StateMachine::payroll"] in
  let limit := demo_statement Allow ["states:*"] ["StateMachine::payroll"; "StateMachine::orders"] [] in
  ¬ resource_ok st "StateMachine::payroll" ∧
  let d := (decide_verb demo_kind "000000000000" "states:DeleteStateMachine" modeNamed [st] (Some [limit])).1 in
  in_rset (dcAllow d) "payroll" ∧ empty (dcDeny d) = true.
Proof.
  split.
  - unfold resource_ok. cbn. intros H. apply H. exists "StateMachine::payroll". split; [by left|by left].
  - cbv zeta. split; [|reflexivity]. apply has_spec. vm_compute. reflexivity.
Qed.

(** Names of actions are compared without their case here, and with it by the evaluator: a Deny in another
    case denies the compiled verb and never the evaluated request. *)
Lemma action_case :
  let st := demo_statement Deny ["STATES:DeleteStateMachine"] ["*"] [] in
  statementActs st "states:DeleteStateMachine" = true ∧ ¬ action_ok st "states:DeleteStateMachine".
Proof.
  split; [reflexivity|]. unfold action_ok. cbn. intros [?|(p & Hp & Hl)]; [done|].
  apply list_elem_of_singleton in Hp as ->. discriminate.
Qed.

(** A Deny by exception never reaches the operator's surface here; the evaluator applies it there. *)
Lemma operator_deny_lost :
  let st := mkStatement Deny [] ["iam:*"] ["*"] [] ∅ [] [] [] [] in
  statementActs st "openinfra-operator:DeleteSecret" = false ∧ action_ok st "openinfra-operator:DeleteSecret".
Proof.
  split; [reflexivity|]. unfold action_ok. cbn. intros (p & Hp & Hl). apply list_elem_of_singleton in Hp as ->. discriminate.
Qed.
