(* ===== verification/IamRbac.v ===== *)
(** * Compiling principals to Kubernetes authorization (console-api/internal/iamcompile: compile.go)

    From a principal's policies to what is written for it: the statements of the control-plane grant, the
    rules of its generated RBAC and the bindings that place them in its account's namespaces. *)

From stdpp Require Import sorting.
From S2P Require Import Prelude GoStrings GoTime Json PolicyEngine IamImport IamWorld IamCompile StatementEngine IamAuthz AwsAction IamDecide.
#[local] Open Scope string_scope.
#[local] Open Scope Z_scope.
#[local] Open Scope list_scope.

(** ** Everything *)

Definition operatorResources : list operatorResource := [
  mkOperator "" "pods" true; mkOperator "" "pods/log" true; mkOperator "" "services" true; mkOperator "" "endpoints" true;
  mkOperator "" "events" true; mkOperator "" "configmaps" true; mkOperator "" "secrets" true;
  mkOperator "" "persistentvolumeclaims" true;
  mkOperator "" "serviceaccounts" true; mkOperator "" "resourcequotas" true; mkOperator "" "limitranges" true;
  mkOperator "apps" "deployments" true; mkOperator "apps" "statefulsets" true; mkOperator "apps" "daemonsets" true;
  mkOperator "apps" "replicasets" true;
  mkOperator "batch" "jobs" true; mkOperator "batch" "cronjobs" true;
  mkOperator "networking.k8s.io" "ingresses" true; mkOperator "networking.k8s.io" "networkpolicies" true;
  mkOperator "autoscaling" "horizontalpodautoscalers" true; mkOperator "policy" "poddisruptionbudgets" true;
  mkOperator "rbac.authorization.k8s.io" "roles" true; mkOperator "rbac.authorization.k8s.io" "rolebindings" true;
  mkOperator "" "nodes" false; mkOperator "" "namespaces" false; mkOperator "" "persistentvolumes" false;
  mkOperator "storage.k8s.io" "storageclasses" false; mkOperator "apiextensions.k8s.io" "customresourcedefinitions" false;
  mkOperator "rbac.authorization.k8s.io" "clusterroles" false;
  mkOperator "rbac.authorization.k8s.io" "clusterrolebindings" false].
Definition sentinelOperator : operatorResource := mkOperator "example.openinfra.invalid" "widgets" true.
Definition discoveryPaths : list string :=
  ["/api"; "/api/*"; "/apis"; "/apis/*"; "/version"; "/version/"; "/openapi/*"; "/healthz"; "/livez"; "/readyz"].

(** A statement that grants an action on every resource, unconditionally in the account. *)
Definition grants_all (account action : string) (st : Statement) : bool :=
  let '(ok, conditional) := conditionScope st account in
  ok && negb conditional && bool_decide (sNotResources st = []) && statementActs st action
  && existsb (String.eqb "*") (sResources st).

(** The actions a verb amounts to on the whole table and the operator surface. *)
Section Everything.
Context (sha1 : string → list Z) (t : table).

Definition verb_actions (scope : Scope) (v : Verb) : list string :=
  omap (λ e, Action e.1 v) t
  ++ omap (λ r, rAction <$> ForKubernetes sha1 t scope (verb_name v) (orGroup r) (orResource r) "" "")
       (operatorResources ++ [sentinelOperator]).

Definition everything (stmts : list Statement) (boundary : option (list Statement)) (account : string)
    (scope : Scope) (v : Verb) : bool :=
  bool_decide (boundary = None)
  && negb (existsb (λ st, String.eqb (sEffect st) Deny) stmts)
  && forallb (λ a, existsb (grants_all account a) stmts) (verb_actions scope v).
End Everything.

(** ** What is written *)

Definition k8sVerbs (v : Verb) (all : bool) : list string :=
  match v with
  | Get => ["get"]
  | List_ => ["list"; "watch"]
  | Create => ["create"]
  | Update => ["update"; "patch"]
  | Delete => if all then ["delete"; "deletecollection"] else ["delete"]
  end.

Record PolicyRule := mkRule { prGroups : list string; prResources : list string; prNames : list string; prVerbs : list string }.

Record target := mkTarget { tgGroup : string; tgResource : string; tgNamespaced : bool; tgClaim : bool; tgLabel : string }.

(** The corpus statements, the rules of the namespaced and of the cluster role, and the counts, as they
    are added. *)
Record output := mkOut {
  otCedar : list (string * list string * list string);
  otNs : list PolicyRule;
  otCluster : list PolicyRule;
  otAllows : nat;
  otDenies : nat;
  otDrops : list drop;
}.
Definition no_output : output := mkOut [] [] [] 0 0 [].

Definition add_cedar (effect : string) (verbs resources : list string) (o : output) : output :=
  mkOut (otCedar o ++ [(effect, verbs, resources)]) (otNs o) (otCluster o) (otAllows o) (otDenies o) (otDrops o).
Definition add_rule (namespaced : bool) (r : PolicyRule) (o : output) : output :=
  if namespaced then mkOut (otCedar o) (otNs o ++ [r]) (otCluster o) (otAllows o) (otDenies o) (otDrops o)
  else mkOut (otCedar o) (otNs o) (otCluster o ++ [r]) (otAllows o) (otDenies o) (otDrops o).
Definition count (a d : nat) (o : output) : output :=
  mkOut (otCedar o) (otNs o) (otCluster o) (otAllows o + a) (otDenies o + d) (otDrops o).
Definition add_drops (ds : list drop) (o : output) : output :=
  mkOut (otCedar o) (otNs o) (otCluster o) (otAllows o) (otDenies o) (otDrops o ++ ds).

Definition sorted_set (s : gset string) : list string := merge_sort string_le (elements s).

(** The control-plane resource ids of a target and a name pattern. *)
Definition ids (clusterWide : bool) (nsList : list string) (t : target) (name : string) : list string :=
  (tgResource t :: if tgClaim t then [tgResource t +:+ "/status"] else []) ≫= λ rt,
    let full := if String.eqb (tgGroup t) "" then rt else rt +:+ "." +:+ tgGroup t in
    if negb (tgNamespaced t) then [full +:+ "::" +:+ name]
    else if clusterWide then [if String.eqb name "*" then full +:+ "::*" else full +:+ "::*/" +:+ name]
    else map (λ ns, full +:+ "::" +:+ ns +:+ "/" +:+ name) nsList.

Definition denyIDs (clusterWide : bool) (nsList : list string) (t : target) (name : string) : list string :=
  ids clusterWide nsList t name
  ++ if clusterWide && tgNamespaced t && negb (String.eqb name "*")
     then [(if String.eqb (tgGroup t) "" then tgResource t else tgResource t +:+ "." +:+ tgGroup t) +:+ "::" +:+ name]
     else [].

Definition rbacResources (t : target) : list string :=
  if tgClaim t then [tgResource t; tgResource t +:+ "/status"] else [tgResource t].

(** One statement per name. *)
Definition add_each (effect : string) (verbs : list string) (id_of : string → list string) (names : list string) (o : output)
    : output := foldl (λ o n, add_cedar effect verbs (id_of n) o) o names.

(** What a decision allows and denies in the corpus, with the verbs of every name and of named ones. *)
Definition emit_allow (clusterWide : bool) (nsList : list string) (t : target) (all_verbs named_verbs : list string)
    (allow : rset) (o : output) : output :=
  if rAll allow then add_cedar Allow all_verbs (ids clusterWide nsList t "*") (count 1 0 o)
  else if negb (empty allow) then
    add_each Allow named_verbs (ids clusterWide nsList t) (sorted_set (rNames allow) ++ sorted_set (rGlobs allow)) (count 1 0 o)
  else o.
Definition emit_deny (clusterWide : bool) (nsList : list string) (t : target) (verbs : list string) (deny : rset)
    (o : output) : output :=
  if empty deny then o
  else if rAll deny then add_cedar Deny verbs (ids clusterWide nsList t "*") (count 0 1 o)
  else add_each Deny verbs (denyIDs clusterWide nsList t) (sorted_set (rNames deny) ++ sorted_set (rGlobs deny)) (count 0 1 o).
Definition emit_corpus (clusterWide : bool) (nsList : list string) (t : target) (all_verbs named_verbs deny_verbs : list string)
    (d : decision) (o : output) : output :=
  emit_deny clusterWide nsList t deny_verbs (dcDeny d)
    (emit_allow clusterWide nsList t all_verbs named_verbs (dcAllow d) o).

(** apply. *)
Definition apply_decision (clusterWide : bool) (nsList : list string) (t : target) (v : Verb) (d : decision)
    (o : output) : output :=
  let o := emit_corpus clusterWide nsList t (k8sVerbs v (rAll (dcAllow d))) (k8sVerbs v false) (k8sVerbs v true) d o in
  if empty (dcAllow d) || negb (dcRBAC d) then o
  else if rAll (dcAllow d) then
    add_rule (tgNamespaced t) (mkRule [tgGroup t] (rbacResources t) [] (k8sVerbs v true)) o
  else if (bool_decide (v = Get) || bool_decide (v = Update) || bool_decide (v = Delete))
          && negb (bool_decide (rNames (dcAllow d) = ∅)) then
    add_rule (tgNamespaced t) (mkRule [tgGroup t] (rbacResources t) (sorted_set (rNames (dcAllow d))) (k8sVerbs v false)) o
  else o.

(** The pass-role verb, on the roles. *)
Definition apply_passrole (clusterWide : bool) (nsList : list string) (t : target) (d : decision) (o : output) : output :=
  let pass := ["passrole"] in
  let o := emit_corpus clusterWide nsList t pass pass pass d o in
  if negb (empty (dcAllow d)) && dcRBAC d && bool_decide (rGlobs (dcAllow d) = ∅) then
    add_rule true (mkRule [tgGroup t] [tgResource t]
      (if rAll (dcAllow d) then [] else sorted_set (rNames (dcAllow d))) pass) o
  else o.

(** ** Grants and rules *)

Record grant_statement := mkGrantStatement { gsEffect : string; gsActions : list string; gsResources : list string }.
Record Grant := mkCorpusGrant { gnAppliesTo : list string; gnCaveats : list drop; gnStatements : list grant_statement }.

Definition verbs_key (verbs : list string) : string := Join verbs ",".

Definition buildGrant (identity : string) (cedar : list (string * list string * list string)) : option Grant :=
  let of_effect effect := filter (λ c, c.1.1 = effect) cedar in
  let keys effect := merge_sort string_le (dedupe (map (λ c, verbs_key c.1.2) (of_effect effect))) in
  let resources effect k := dedupe (concat (map snd (filter (λ c, verbs_key c.1.2 = k) (of_effect effect)))) in
  let stmts := [Deny; Allow] ≫= λ effect, keys effect ≫= λ k,
    match resources effect k with
    | [] => []
    | res => [mkGrantStatement effect (Split k ",") res]
    end in
  match stmts with [] => None | _ => Some (mkCorpusGrant ["User::" +:+ identity] [] stmts) end.

Record rule_key := mkRuleKey { rkGroups : string; rkVerbs : string; rkNames : string }.
#[export] Instance rule_key_eq_dec : EqDecision rule_key.
Proof. solve_decision. Defined.

Definition key_of (r : PolicyRule) : rule_key :=
  mkRuleKey (Join (prGroups r) ",") (Join (prVerbs r) ",") (Join (prNames r) ",").

Fixpoint merge_into (r : PolicyRule) (rules : list PolicyRule) : list PolicyRule :=
  match rules with
  | [] => [r]
  | x :: rules =>
      if bool_decide (key_of x = key_of r)
      then mkRule (prGroups x) (prResources x ++ prResources r) (prNames x) (prVerbs x) :: rules
      else x :: merge_into r rules
  end.

(** Go's order on keys: groups, then verbs, then names. *)
Definition key_le (a b : PolicyRule) : Prop :=
  let a := key_of a in let b := key_of b in
  if negb (String.eqb (rkGroups a) (rkGroups b)) then string_le (rkGroups a) (rkGroups b)
  else if negb (String.eqb (rkVerbs a) (rkVerbs b)) then string_le (rkVerbs a) (rkVerbs b)
  else string_le (rkNames a) (rkNames b).
#[export] Instance key_le_dec : RelDecision key_le.
Proof. intros a b. unfold key_le. cbv zeta. repeat case_match; apply _. Defined.

Definition mergeRules (rules : list PolicyRule) : list PolicyRule :=
  map (λ r, mkRule (prGroups r) (dedupe (prResources r)) (prNames r) (prVerbs r))
    (merge_sort key_le (foldl (λ acc r, merge_into r acc) [] rules)).

(** ** One principal *)

Record Principal := mkIamPrincipal { ipKind : string; ipNamespace : string; ipName : string; ipGroups : list string }.

Record Input := mkInput {
  inWorld : World;
  inHome : string;
  inNamespaceAccounts : gmap string string;
  inNamespaces : list string;
  inNow : Z;
}.

Definition ReservedRoot : string := "root".

(** accountNamespaces. *)
Definition accountNamespaces (m : gmap string string) (acct : string) : list string :=
  merge_sort string_le (map fst (filter (λ kv, kv.2 = acct) (map_to_list m))).
Definition hasMemberAccounts (m : gmap string string) : bool :=
  existsb (λ kv, negb (String.eqb kv.2 ManagementAccount)) (map_to_list m).
Definition is_member (a : string) : bool := negb (String.eqb a "") && negb (String.eqb a ManagementAccount).
Definition managementNamespaces (inp : Input) : list string :=
  match inNamespaces inp with
  | [] => accountNamespaces (inNamespaceAccounts inp) ManagementAccount
  | nss => merge_sort string_le
             (filter (λ ns, is_member (default "" (inNamespaceAccounts inp !! ns)) = false) nss)
  end.
Definition memberNamespaces (m : gmap string string) : list string :=
  merge_sort string_le (map fst (filter (λ kv, is_member kv.2 = true) (map_to_list m))).

Definition GeneratedName (kind id account : string) : string :=
  "openinfra-iam:" +:+ account +:+ ":" +:+ ToLower kind +:+ ":" +:+ ReplaceByte id "/" ".".

Record ClusterRole := mkClusterRole { crName : string; crRules : list PolicyRule }.
(** A binding of a role to the identity: in a namespace, or cluster-wide. *)
Record Binding := mkBinding { bdName : string; bdNamespace : option string; bdRole : string; bdIdentity : string }.

Definition buildRBAC (p : Principal) (id account identity : string) (clusterWide : bool) (nsList : list string)
    (nsRules clusterRules : list PolicyRule) : list ClusterRole * list Binding :=
  let base := GeneratedName (ipKind p) id account in
  let cluster := base +:+ ":cluster" in
  let ns_part :=
    if bool_decide (nsRules = []) then ([], [])
    else ([mkClusterRole base nsRules],
          if clusterWide then [mkBinding base None base identity]
          else map (λ ns, mkBinding base (Some ns) base identity) nsList) in
  let cluster_part :=
    if bool_decide (clusterRules = []) then ([], [])
    else ([mkClusterRole cluster clusterRules], [mkBinding cluster None cluster identity]) in
  (ns_part.1 ++ cluster_part.1, ns_part.2 ++ cluster_part.2).

Record PrincipalReport := mkReport {
  rpAccount : string;
  rpIdentity : string;
  rpPolicies : list string;
  rpAllows : nat;
  rpDenies : nat;
  rpRBACRules : nat;
  rpDropped : list drop;
}.
Record principalCompile := mkCompile {
  pcReport : PrincipalReport;
  pcGrant : option Grant;
  pcClusterRoles : list ClusterRole;
  pcBindings : list Binding;
}.

#[export] Instance drop_reason_eq_dec : EqDecision drop_reason.
Proof. solve_decision. Defined.
#[export] Instance drop_eq_dec : EqDecision drop.
Proof. solve_decision. Defined.

Fixpoint dedupe_drops (seen ds : list drop) : list drop :=
  match ds with
  | [] => []
  | d :: ds => if bool_decide (d ∈ seen) then dedupe_drops seen ds else d :: dedupe_drops (d :: seen) ds
  end.

Section Compile.
Context (sha1 : string → list Z) (t : table).
(** types.ParseIPAddr and types.ParseDatetime of Cedar: whether they accept a string. *)
Context (IPParses TimeParses : string → bool).
#[local] Abbreviation newKindCtx := (newKindCtx sha1 IPParses TimeParses).
#[local] Abbreviation operatorKind := (operatorKind IPParses TimeParses).

(** Where a principal's grants land. *)
Record placement := mkPlacement {
  plAccount : string;
  plNamespaces : list string;
  plClusterWide : bool;
  plRbacWide : bool;
  plRbacNamespaces : list string;
  plMembers : list string;
}.
Definition place (inp : Input) (p : Principal) : placement :=
  let account := match inNamespaceAccounts inp !! ipNamespace p with
                 | Some a => if String.eqb a "" then ManagementAccount else a
                 | None => ManagementAccount
                 end in
  let nsList := accountNamespaces (inNamespaceAccounts inp) account in
  let clusterWide := String.eqb account ManagementAccount in
  if clusterWide && hasMemberAccounts (inNamespaceAccounts inp)
  then mkPlacement account nsList clusterWide false (managementNamespaces inp) (memberNamespaces (inNamespaceAccounts inp))
  else mkPlacement account nsList clusterWide clusterWide nsList [].

(** The decisions and what they write, over the whole table. *)
Section Emit.
Context (pl : placement) (stmts : list Statement) (boundary : option (list Statement)).
Let scope : Scope := mkScope "" "" (plAccount pl).
Let decide (k : kindCtx) (label action : string) (mode : verbMode) : decision * list drop :=
  let '(d, ds) := decide_verb k (plAccount pl) action mode stmts boundary in (d, map (mkDrop label action) ds).
Let wildcard (v : Verb) : bool := plClusterWide pl && everything sha1 t stmts boundary (plAccount pl) scope v.

Definition emit_kinds (o : output) : output :=
  foldl (λ o kind,
    match Lookup t kind with
    | None => o
    | Some e =>
        let k := newKindCtx e scope in
        let tg := mkTarget (eGroup e) (eResource e) true true kind in
        foldl (λ o v,
          match Action e v with
          | Some action =>
              if wildcard v then o
              else let '(d, ds) := decide k kind action (modeFor e v) in
                   apply_decision (plClusterWide pl) (plNamespaces pl) tg v d (add_drops ds o)
          | None => o
          end) o Verbs
    end) o (Kinds t).

Definition emit_passrole (o : output) : output :=
  match Lookup t "Role" with
  | None => o
  | Some e =>
      let '(d, ds) := decide (newKindCtx e scope) "Role" "iam:PassRole" modeNamed in
      apply_passrole (plClusterWide pl) (plNamespaces pl) (mkTarget (eGroup e) (eResource e) true false "Role") d
        (add_drops ds o)
  end.

Definition emit_operator (o : output) : output :=
  foldl (λ o r,
    if negb (orNamespaced r) && negb (String.eqb (plAccount pl) ManagementAccount) then o
    else
      foldl (λ o v,
        if wildcard v then o
        else
          match ForKubernetes sha1 t scope (verb_name v) (orGroup r) (orResource r) "" "" with
          | None => o
          | Some rq =>
              let '(d, ds) := decide (operatorKind r scope) (orResource r) (rAction rq) modeStar in
              apply_decision (plClusterWide pl) (plNamespaces pl)
                (mkTarget (orGroup r) (orResource r) (orNamespaced r) false (orResource r)) v d (add_drops ds o)
          end) o Verbs) o operatorResources.

Definition emit_wildcards (o : output) : output :=
  foldl (λ o v,
    if wildcard v then
      let verbs := k8sVerbs v true in
      add_rule (negb (plRbacWide pl)) (mkRule ["*"] ["*"] [] verbs) (add_cedar Allow verbs ["*"] (count 1 0 o))
    else o) o Verbs.

Definition emit_members (o : output) : output :=
  foldl (λ o ns, add_cedar Deny ["*"] ["*::" +:+ ns +:+ "/*"] (count 0 1 o)) o (plMembers pl).

Definition emit_discovery (o : output) : output :=
  if (0 <? Z.of_nat (otAllows o)) then add_cedar Allow ["get"] (map (String.append "NonResourceURL::") discoveryPaths) o else o.

Definition emit : output :=
  emit_discovery (emit_members (emit_wildcards (emit_operator (emit_passrole (emit_kinds no_output))))).
End Emit.

Definition identity_of (inp : Input) (p : Principal) (account : string) : string :=
  if String.eqb (ipKind p) "Role"
  then "openinfra:" +:+ account +:+ ":role/" +:+ QualifiedName (inHome inp) (ipNamespace p) (ipName p)
  else "openinfra:" +:+ account +:+ ":" +:+ ipName p.

(** compilePrincipal. *)
Definition compilePrincipal (inp : Input) (p : Principal) : principalCompile :=
  let id := QualifiedName (inHome inp) (ipNamespace p) (ipName p) in
  let pl := place inp p in
  let account := plAccount pl in
  if String.eqb (ipKind p) "User" && String.eqb (ipName p) ReservedRoot then
    mkCompile (mkReport account "" [] 0 0 0 []) None [] []
  else
    let identity := identity_of inp p account in
    let groups := if String.eqb (ipKind p) "User" then ipGroups p else [] in
    let pols := PoliciesAt (inWorld inp) (ipKind p) id groups (inNow inp) in
    let '(has, bstmts) := BoundaryFor (inWorld inp) (ipKind p) id in
    if negb (plClusterWide pl) && bool_decide (plNamespaces pl = []) then
      mkCompile (mkReport account identity (map polName pols) 0 0 0 []) None [] []
    else
      let o := emit pl (pols ≫= polStatements) (if has : bool then Some bstmts else None) in
      let dropped := dedupe_drops [] (otDrops o) in
      let nsRules := mergeRules (otNs o) in
      let clusterRules := mergeRules (otCluster o) in
      let grant := (λ g, mkCorpusGrant (gnAppliesTo g) dropped (gnStatements g)) <$> buildGrant identity (otCedar o) in
      let '(roles, bindings) := buildRBAC p id account identity (plRbacWide pl) (plRbacNamespaces pl) nsRules clusterRules in
      mkCompile (mkReport account identity (map polName pols) (otAllows o) (otDenies o)
                   (length nsRules + length clusterRules) dropped)
        grant roles bindings.
End Compile.

(** ** The rules of a decision *)

Lemma decide_rbac k account action mode stmts boundary :
  let d := (decide_verb k account action mode stmts boundary).1 in dcRBAC d = empty (dcDeny d).
Proof.
  cbv zeta. unfold decide_verb. destruct (match boundary with Some _ => _ | None => _ end) as [[a b] c].
  destruct (_ && _); [destruct (bool_decide _)|]; done.
Qed.

Lemma in_sorted_set n s : n ∈ sorted_set s ↔ n ∈ s.
Proof. unfold sorted_set. by rewrite (merge_sort_Permutation string_le (elements s)), elem_of_elements. Qed.

Lemma foldl_inv {A B} (P : A → Prop) (f : A → B → A) l a :
  P a → (∀ a x, x ∈ l → P a → P (f a x)) → P (foldl f a l).
Proof.
  revert a. induction l as [|x l IH]; intros a Ha Hf; [done|]. cbn. apply IH.
  - apply Hf; [by left|done].
  - intros b y Hy. apply Hf. by right.
Qed.

(** The corpus part adds no rule. *)
Definition same_rules (o o' : output) : Prop := otNs o' = otNs o ∧ otCluster o' = otCluster o.
#[local] Instance same_rules_po : PreOrder same_rules.
Proof. split; [done|]. intros ??? [??] [??]. split; congruence. Qed.

Lemma add_each_rules e vs id_of ns o : same_rules o (add_each e vs id_of ns o).
Proof. unfold add_each. by apply (foldl_inv (same_rules o)). Qed.

Lemma emit_corpus_rules cw nss t av nv dv d o : same_rules o (emit_corpus cw nss t av nv dv d o).
Proof.
  unfold emit_corpus. trans (emit_allow cw nss t av nv (dcAllow d) o).
  - unfold emit_allow. destruct (rAll _); [done|]. destruct (negb _); [|done].
    by apply (transitivity (y := count 1 0 o)); [|apply add_each_rules].
  - generalize (emit_allow cw nss t av nv (dcAllow d) o). intros o'. unfold emit_deny.
    destruct (empty _); [done|]. destruct (rAll _); [done|].
    by apply (transitivity (y := count 0 1 o')); [|apply add_each_rules].
Qed.

(** The claim names a rule reaches: those it lists, or every one. *)
Definition rule_reaches (r : PolicyRule) (n : string) : Prop := prNames r = [] ∨ n ∈ prNames r.

(** The rules an output has. *)
Definition rules_of (o : output) : list PolicyRule := otNs o ++ otCluster o.

Lemma apply_decision_rule cw nss t v d o r :
  r ∈ rules_of (apply_decision cw nss t v d o) →
  r ∈ rules_of o ∨
  (prGroups r = [tgGroup t] ∧ prResources r = rbacResources t ∧ prVerbs r ⊆ k8sVerbs v true ∧ dcRBAC d = true ∧
   ∀ n, rule_reaches r n → in_rset (dcAllow d) n).
Proof.
  unfold apply_decision, rules_of. set (o1 := emit_corpus _ _ _ _ _ _ d o).
  destruct (emit_corpus_rules cw nss t (k8sVerbs v (rAll (dcAllow d))) (k8sVerbs v false) (k8sVerbs v true) d o) as [Hn Hc].
  fold o1 in Hn, Hc. clearbody o1.
  assert (Hadd : ∀ b x, r ∈ otNs (add_rule b x o1) ++ otCluster (add_rule b x o1) → r ∈ otNs o ++ otCluster o ∨ r = x).
  { intros b x. unfold add_rule. rewrite <- Hn, <- Hc. destruct b; cbn; set_solver. }
  destruct (dcRBAC d) eqn:Ed; [|rewrite orb_true_r; rewrite Hn, Hc; by left].
  destruct (empty (dcAllow d)); cbn [orb negb]; [rewrite Hn, Hc; by left|].
  destruct (rAll (dcAllow d)) eqn:Ea.
  - intros [H| ->]%Hadd; [by left|]. right. cbn. split_and!; [done..|]. intros n _. by left.
  - destruct (_ && _) eqn:Ev; [|rewrite Hn, Hc; by left]. intros [H| ->]%Hadd; [by left|]. right. cbn.
    apply andb_true_iff in Ev as [_ Hne%negb_true_iff%bool_decide_eq_false].
    split_and!; [done|done|by destruct v; set_solver|done|]. intros n [Hnil|Hin]; cbn in *.
    + exfalso. apply Hne. apply elem_of_equiv_empty_L. intros x Hx%in_sorted_set. rewrite Hnil in Hx. set_solver.
    + right. left. by apply in_sorted_set.
Qed.

(** RBAC carries only what is allowed outright.  Every rule the decision on a verb adds is of the target's
    group and resources and of that verb's Kubernetes verbs, it reaches only claim names the decision allows,
    and it is written only when the decision denies nothing, since RBAC cannot express a Deny. *)
Theorem apply_decision_rbac k account action mode stmts boundary clusterWide nsList t v o r n :
  let d := (decide_verb k account action mode stmts boundary).1 in
  r ∈ rules_of (apply_decision clusterWide nsList t v d o) → r ∉ rules_of o → rule_reaches r n →
  prGroups r = [tgGroup t] ∧ prResources r = rbacResources t ∧ prVerbs r ⊆ k8sVerbs v true ∧
  in_rset (dcAllow d) n ∧ (∀ m, ¬ in_rset (dcDeny d) m).
Proof.
  cbv zeta. intros [H|(Hg & Hr & Hv & Hd & Hn)]%apply_decision_rule Hnew Hreach; [done|].
  split_and!; [done..|by apply Hn|]. rewrite decide_rbac in Hd. intros m. by apply in_empty.
Qed.

(** ** Grants *)

Lemma Split_Join vs : vs ≠ [] → Forall (λ v, contains_char "," v = false) vs → Split (Join vs ",") "," = vs.
Proof.
  assert (Hone : ∀ v, contains_char "," v = false → Split v "," = [v]).
  { induction v as [|c v IH]; [done|]. intros [Hc Hv]%contains_char_false_cons. cbn [Split].
    rewrite (proj2 (Ascii.eqb_neq c ",")) by congruence. by rewrite IH. }
  assert (Happ : ∀ v s, contains_char "," v = false → Split (v +:+ String "," s) "," = v :: Split s ",").
  { induction v as [|c v IH]; intros s; [done|]. intros [Hc Hv]%contains_char_false_cons. cbn.
    rewrite (proj2 (Ascii.eqb_neq c ",")) by congruence. by rewrite IH. }
  induction vs as [|v [|w vs] IH]; [done| |]; intros _ [Hv Hvs]%Forall_cons.
  - by apply Hone.
  - change (Join (v :: w :: vs) ",") with (v +:+ String "," (Join (w :: vs) ",")). rewrite Happ, IH; done.
Qed.

(** What a grant says, and what the statements collected for it say. *)
Definition grant_says (g : option Grant) (effect verb resource : string) : Prop :=
  ∃ g' st, g = Some g' ∧ st ∈ gnStatements g' ∧ gsEffect st = effect ∧ verb ∈ gsActions st ∧ resource ∈ gsResources st.
Definition cedar_says (cedar : list (string * list string * list string)) (effect verb resource : string) : Prop :=
  ∃ verbs resources, (effect, verbs, resources) ∈ cedar ∧ verb ∈ verbs ∧ resource ∈ resources.

(** A grant's statements: one per effect and list of verbs, with every resource collected for it. *)
Lemma buildGrant_statement identity cedar g st :
  buildGrant identity cedar = Some g → st ∈ gnStatements g ↔
  ∃ k, st = mkGrantStatement (gsEffect st) (Split k ",") (gsResources st) ∧ gsResources st ≠ [] ∧
       (gsEffect st = Deny ∨ gsEffect st = Allow) ∧
       gsResources st = dedupe (concat (map snd (filter (λ c, verbs_key c.1.2 = k) (filter (λ c, c.1.1 = gsEffect st) cedar)))).
Proof.
  unfold buildGrant. cbv zeta. set (stmts := [Deny; Allow] ≫= _). intros Hg.
  assert (gnStatements g = stmts) as -> by (destruct stmts; [done|]; by injection Hg as <-). clear Hg. unfold stmts.
  rewrite list_elem_of_bind. split.
  - intros (e & (k & Hst & Hk)%list_elem_of_bind & He).
    destruct (dedupe _) as [|x res] eqn:Er in Hst; [by apply not_elem_of_nil in Hst|].
    apply list_elem_of_singleton in Hst as ->. exists k. cbn. rewrite Er. set_solver.
  - intros (k & Hst & Hne & He & Hr). exists (gsEffect st). split; [|destruct He as [-> | ->]; set_solver].
    apply list_elem_of_bind. exists k. split.
    + rewrite <- Hr. destruct (gsResources st) eqn:Er; [done|]. apply list_elem_of_singleton. exact Hst.
    + rewrite (merge_sort_Permutation string_le (dedupe _)), dedupe_elem.
      destruct (filter (λ c, verbs_key c.1.2 = k) _) as [|c l] eqn:Ef; [by rewrite Hr in Hne|].
      assert (Hc : c ∈ c :: l) by by left. rewrite <- Ef in Hc. apply list_elem_of_filter in Hc as [<- Hc].
      by apply (list_elem_of_fmap_2 (λ c, verbs_key c.1.2)).
Qed.

Lemma buildGrant_resources (cedar : list (string * list string * list string)) effect k res :
  res ∈ dedupe (concat (map snd (filter (λ c, verbs_key c.1.2 = k) (filter (λ c, c.1.1 = effect) cedar)))) ↔
  ∃ verbs rs, (effect, verbs, rs) ∈ cedar ∧ verbs_key verbs = k ∧ res ∈ rs.
Proof.
  rewrite dedupe_elem, list_elem_of_In, in_concat. split.
  - intros (rs & ([[e verbs] rs'] & <- & H)%in_map_iff & Hres).
    apply list_elem_of_In in H. apply list_elem_of_filter in H as [Hk H]. apply list_elem_of_filter in H as [He H].
    cbn in *. subst. exists verbs, rs'. split_and!; [done|done|by apply list_elem_of_In].
  - intros (verbs & rs & H & <- & Hres%list_elem_of_In). exists rs. split; [|done].
    apply in_map_iff. exists (effect, verbs, rs). split; [done|]. apply list_elem_of_In, list_elem_of_filter. split; [done|].
    by apply list_elem_of_filter.
Qed.

(** a grant says exactly what was collected for it: whatever the order and grouping of the entries, an
    effect on a verb and a resource is in the written grant if and only if some entry states it. *)
Theorem buildGrant_says (identity : string) (cedar : list (string * list string * list string))
    (effect verb resource : string) :
  Forall (λ c, (c.1.1 = Deny ∨ c.1.1 = Allow) ∧ c.1.2 ≠ [] ∧ Forall (λ v, contains_char "," v = false) c.1.2) cedar →
  grant_says (buildGrant identity cedar) effect verb resource ↔ cedar_says cedar effect verb resource.
Proof.
  intros Hwf. rewrite Forall_forall in Hwf. unfold grant_says, cedar_says. split.
  - intros (g & st & Hg & Hst & <- & Hv & Hr). apply (buildGrant_statement _ _ _ _ Hg) in Hst as (k & Hst & _ & _ & Hres).
    rewrite Hres, buildGrant_resources in Hr. destruct Hr as (verbs & rs & Hin & <- & Hr).
    exists verbs, rs. split; [done|]. split; [|done]. rewrite Hst in Hv. cbn in Hv.
    destruct (Hwf _ Hin) as (_ & Hne & Hc). cbn in *. unfold verbs_key in Hv. by rewrite Split_Join in Hv.
  - intros (verbs & rs & Hin & Hv & Hr). destruct (Hwf _ Hin) as (He & Hne & Hc). cbn in *.
    set (res := dedupe (concat (map snd (filter (λ c, verbs_key c.1.2 = verbs_key verbs) (filter (λ c, c.1.1 = effect) cedar))))).
    set (st := mkGrantStatement effect verbs res).
    assert (Hres : resource ∈ res) by (apply buildGrant_resources; by exists verbs, rs).
    destruct (buildGrant identity cedar) as [g|] eqn:Eg.
    + exists g, st. split_and!; [done| |done|done|done]. apply (buildGrant_statement _ _ _ _ Eg). exists (verbs_key verbs).
      cbn. unfold verbs_key at 1. rewrite Split_Join by done. split_and!; [done| |done|done]. intros E. rewrite E in Hres. set_solver.
    + exfalso. revert Eg. unfold buildGrant. cbv zeta.
      match goal with |- match ?s with _ => _ end = _ → _ => assert (Hs : st ∈ s); [|destruct s; [set_solver|done]] end.
      apply list_elem_of_bind. exists effect. split; [|destruct He as [-> | ->]; set_solver].
      apply list_elem_of_bind. exists (verbs_key verbs). fold res. split.
      * destruct res eqn:E; [set_solver|]. apply list_elem_of_singleton. unfold st, verbs_key. by rewrite Split_Join.
      * rewrite (merge_sort_Permutation string_le (dedupe _)), dedupe_elem.
        apply (list_elem_of_fmap_2' (λ c, verbs_key c.1.2) _ (effect, verbs, rs)); [|done]. by apply list_elem_of_filter.
Qed.

(** ** Merged rules *)

(** A rule's keys are read back from their joined form. *)
Definition plain (s : string) : Prop := s ≠ "" ∧ contains_char "," s = false.
Definition wf_rule (r : PolicyRule) : Prop :=
  length (prGroups r) = 1%nat ∧ Forall plain (prVerbs r) ∧ Forall plain (prNames r).

Definition rules_grant (rules : list PolicyRule) (group resource verb name : string) : Prop :=
  Exists (λ r, group ∈ prGroups r ∧ resource ∈ prResources r ∧ verb ∈ prVerbs r ∧ rule_reaches r name) rules.

Lemma Join_plain_inj xs ys : Forall plain xs → Forall plain ys → Join xs "," = Join ys "," → xs = ys.
Proof.
  intros Hx Hy H.
  assert (Hc : ∀ zs, Forall plain zs → Forall (λ v, contains_char "," v = false) zs).
  { intros zs Hz. eapply Forall_impl; [exact Hz|]. by intros z []. }
  assert (Hnil : ∀ zs, Forall plain zs → Join zs "," = "" → zs = []).
  { intros [|z [|w zs]]; [done| |]; intros [[Hz _] _]%Forall_cons; [by intros ?|]. by destruct z. }
  destruct xs as [|x xs]; [by rewrite (Hnil ys)|]. destruct ys as [|y ys]; [by apply Hnil|].
  rewrite <- (Split_Join (x :: xs)), <- (Split_Join (y :: ys)) by auto. by rewrite H.
Qed.

Lemma key_of_inj x r :
  wf_rule x → wf_rule r → key_of x = key_of r →
  prGroups x = prGroups r ∧ prVerbs x = prVerbs r ∧ prNames x = prNames r.
Proof.
  intros (Hg & Hv & Hn) (Hg' & Hv' & Hn') [= Eg Ev En]. split_and!; [|by apply Join_plain_inj..].
  destruct (prGroups x) as [|g [|? ?]], (prGroups r) as [|g' [|? ?]]; try done. cbn in Eg. by rewrite Eg.
Qed.

Lemma merge_into_grant r rules g res v n :
  wf_rule r → Forall wf_rule rules →
  rules_grant (merge_into r rules) g res v n ↔ rules_grant (r :: rules) g res v n.
Proof.
  intros Hr. induction rules as [|x rules IH]; cbn [merge_into]; [done|]. intros [Hx Hwf]%Forall_cons.
  unfold rules_grant in *. case_bool_decide as Hk; rewrite !Exists_cons.
  - destruct (key_of_inj x r Hx Hr Hk) as (Eg & Ev & En). unfold rule_reaches. cbn. rewrite elem_of_app, Eg, Ev, En. tauto.
  - rewrite IH by done. rewrite Exists_cons. tauto.
Qed.

Lemma merge_into_wf r rules : wf_rule r → Forall wf_rule rules → Forall wf_rule (merge_into r rules).
Proof.
  intros Hr. induction rules as [|x rules IH]; cbn [merge_into]; [intros _; by constructor|].
  intros [Hx Hwf]%Forall_cons. case_bool_decide; constructor; auto.
Qed.

(** merging rules changes nothing they grant: a group, resource, verb and name are granted by the merged
    rules if and only if some rule granted them, for rules of one group whose verbs and names hold no
    comma, the character the merge keys are joined with. *)
Theorem mergeRules_grant (rules : list PolicyRule) (group resource verb name : string) :
  Forall wf_rule rules →
  rules_grant (mergeRules rules) group resource verb name ↔ rules_grant rules group resource verb name.
Proof.
  intros Hwf. unfold mergeRules.
  transitivity (rules_grant (merge_sort key_le (foldl (λ acc r, merge_into r acc) [] rules)) group resource verb name).
  { unfold rules_grant. rewrite Exists_fmap, !Exists_exists. unfold rule_reaches. cbn. by setoid_rewrite dedupe_elem. }
  transitivity (rules_grant (foldl (λ acc r, merge_into r acc) [] rules) group resource verb name).
  { unfold rules_grant. by rewrite (merge_sort_Permutation key_le). }
  enough (H : ∀ acc, Forall wf_rule acc → rules_grant (foldl (λ acc r, merge_into r acc) acc rules) group resource verb name ↔
    rules_grant rules group resource verb name ∨ rules_grant acc group resource verb name).
  { rewrite H by constructor. unfold rules_grant. rewrite (Exists_nil (A := PolicyRule)). tauto. }
  induction Hwf as [|r rules Hr Hwf IH]; intros acc Hacc; cbn [foldl].
  { unfold rules_grant. rewrite (Exists_nil (A := PolicyRule)). tauto. }
  rewrite IH by by apply merge_into_wf. rewrite merge_into_grant by done. unfold rules_grant. rewrite !Exists_cons. tauto.
Qed.

(** ** Accounts stay apart *)

(** What holds of everything emitted: of the resources its statements name and of its cluster rules. *)
Section Emitted.
Context (Q : string → Prop) (R : PolicyRule → Prop).

Definition emitted (o : output) : Prop := Forall (λ c, Forall Q c.2) (otCedar o) ∧ Forall R (otCluster o).

Lemma emitted_cedar e vs rs o : Forall Q rs → emitted o → emitted (add_cedar e vs rs o).
Proof. intros Hq [Hc Hr]. split; [|done]. apply Forall_app. split; [done|]. by repeat constructor. Qed.

Lemma emitted_rule b r o : (b = true ∨ R r) → emitted o → emitted (add_rule b r o).
Proof.
  intros Hb [Hc Hr]. destruct b; [done|]. split; [done|]. apply Forall_app. split; [done|]. constructor; [|done].
  by destruct Hb.
Qed.

Lemma emitted_corpus cw nss t av nv dv d o :
  (∀ name, Forall Q (denyIDs cw nss t name)) → emitted o → emitted (emit_corpus cw nss t av nv dv d o).
Proof.
  intros Hdeny Ho.
  assert (Hids : ∀ name, Forall Q (ids cw nss t name)).
  { intros name. specialize (Hdeny name). unfold denyIDs in Hdeny. by apply Forall_app in Hdeny as [? _]. }
  assert (Heach : ∀ e vs f ns o, (∀ n, Forall Q (f n)) → emitted o → emitted (add_each e vs f ns o)).
  { intros. unfold add_each. apply foldl_inv; [done|]. intros. by apply emitted_cedar. }
  unfold emit_corpus. assert (Ha : emitted (emit_allow cw nss t av nv (dcAllow d) o)).
  { unfold emit_allow. destruct (rAll _); [by apply emitted_cedar|]. destruct (negb _); [|done]. by apply Heach. }
  revert Ha. generalize (emit_allow cw nss t av nv (dcAllow d) o). intros o' Ho'. unfold emit_deny.
  destruct (empty _); [done|]. destruct (rAll _); [by apply emitted_cedar|by apply Heach].
Qed.

Lemma emitted_decision cw nss t v d o :
  (∀ name, Forall Q (denyIDs cw nss t name)) → (tgNamespaced t = true ∨ ∀ r, prResources r = rbacResources t → R r) →
  emitted o → emitted (apply_decision cw nss t v d o).
Proof.
  intros Hq Hr Ho. unfold apply_decision.
  pose proof (emitted_corpus cw nss t (k8sVerbs v (rAll (dcAllow d))) (k8sVerbs v false) (k8sVerbs v true) d o Hq Ho) as Hc.
  destruct (_ || _); [done|]. destruct (rAll (dcAllow d)); [apply emitted_rule; [naive_solver|done]|].
  destruct (_ && _); [|done]. apply emitted_rule; [naive_solver|done].
Qed.

Context (sha1 : string → list Z) (t : table) (IPParses TimeParses : string → bool).
Context (pl : placement) (stmts : list Statement) (boundary : option (list Statement)).
Hypothesis Hnamespaced : ∀ tg name, tgNamespaced tg = true → Forall Q (denyIDs (plClusterWide pl) (plNamespaces pl) tg name).
Hypothesis Hscoped : ∀ op, op ∈ operatorResources → orNamespaced op = false → plAccount pl = ManagementAccount →
  (∀ tg name, tgNamespaced tg = false → Forall Q (denyIDs (plClusterWide pl) (plNamespaces pl) tg name)) ∧
  (∀ r, prResources r = [orResource op] → R r).
Hypothesis Hwild : plClusterWide pl = true → Q "*" ∧ (plRbacWide pl = true → ∀ r, R r).
Hypothesis Hmembers : ∀ ns, ns ∈ plMembers pl → Q ("*::" +:+ ns +:+ "/*").
Hypothesis Hdiscovery : Forall Q (map (String.append "NonResourceURL::") discoveryPaths).

Lemma emitted_kinds o : emitted o → emitted (emit_kinds sha1 t IPParses TimeParses pl stmts boundary o).
Proof.
  intros Ho. unfold emit_kinds. apply foldl_inv; [done|]. intros o' kind _ Ho'. destruct (Lookup t kind) as [e|]; [|done].
  apply foldl_inv; [done|]. intros o'' v _ Ho''. destruct (Action e v) as [a|]; [|done].
  destruct (_ && _); [done|]. destruct (decide_verb _ _ _ _ _ _) as [d ds].
  apply emitted_decision; [intros name; by apply Hnamespaced|by left|done].
Qed.

Lemma emitted_passrole o : emitted o → emitted (emit_passrole sha1 t IPParses TimeParses pl stmts boundary o).
Proof.
  intros Ho. unfold emit_passrole. destruct (Lookup t "Role") as [e|]; [|done].
  destruct (decide_verb _ _ _ _ _ _) as [d ds]. unfold apply_passrole.
  match goal with |- emitted (if _ then add_rule _ _ ?o' else _) => assert (emitted o') end.
  { apply emitted_corpus; [|done]. intros name. by apply Hnamespaced. }
  destruct (_ && _); [|done]. apply emitted_rule; [by left|done].
Qed.

Lemma emitted_operator o : emitted o → emitted (emit_operator sha1 t IPParses TimeParses pl stmts boundary o).
Proof.
  intros Ho. unfold emit_operator. apply foldl_inv; [done|]. intros o' op Hop Ho'.
  destruct (_ && _) eqn:Eskip; [done|]. apply foldl_inv; [done|]. intros o'' v _ Ho''. destruct (_ && everything _ _ _ _ _ _ _); [done|].
  destruct (ForKubernetes _ _ _ _ _ _ _ _) as [rq|]; [|done]. destruct (decide_verb _ _ _ _ _ _) as [d ds].
  destruct (orNamespaced op) eqn:En.
  - apply emitted_decision; [intros name; by apply Hnamespaced|by left|done].
  - cbn in Eskip. apply negb_false_iff, String.eqb_eq in Eskip. destruct (Hscoped op Hop En Eskip) as [Hq Hr].
    apply emitted_decision; [intros name; by apply Hq| |done]. by right.
Qed.

Lemma emit_emitted : emitted (emit sha1 t IPParses TimeParses pl stmts boundary).
Proof.
  unfold emit. set (o := emit_operator _ _ _ _ _ _ _ _).
  assert (Ho : emitted o) by by apply emitted_operator, emitted_passrole, emitted_kinds.
  clearbody o. set (o1 := emit_wildcards _ _ _ _ _ o). assert (H1 : emitted o1).
  { unfold o1, emit_wildcards. apply foldl_inv; [done|]. intros o' v _ Ho'.
    destruct (plClusterWide pl) eqn:Ec; [|done]. destruct (Hwild eq_refl) as [Hq Hr]. cbn [andb].
    destruct (everything _ _ _ _ _ _ _); [|done]. apply emitted_rule; [|apply emitted_cedar; [by repeat constructor|done]].
    destruct (plRbacWide pl); [right; auto|by left]. }
  clearbody o1. set (o2 := emit_members pl o1). assert (H2 : emitted o2).
  { unfold o2, emit_members. apply foldl_inv; [done|]. intros o' ns Hns Ho'. apply emitted_cedar; [|done]. constructor; [auto|done]. }
  unfold emit_discovery. destruct (0 <? _); [|done]. by apply emitted_cedar.
Qed.
End Emitted.

(** A resource id within a namespace of the list. *)
Definition within_namespaces (nsList : list string) (res : string) : Prop :=
  ∃ full ns name, ns ∈ nsList ∧ res = full +:+ "::" +:+ ns +:+ "/" +:+ name.
Definition discovery (res : string) : Prop := ∃ path, path ∈ discoveryPaths ∧ res = "NonResourceURL::" +:+ path.

Lemma denyIDs_within nss tg name :
  tgNamespaced tg = true → Forall (λ res, within_namespaces nss res ∨ discovery res) (denyIDs false nss tg name).
Proof.
  intros Hn. unfold denyIDs, ids. rewrite Hn. cbn [negb andb]. rewrite app_nil_r. apply Forall_forall.
  intros res (rt & Hres & _)%list_elem_of_bind. apply list_elem_of_fmap in Hres as (ns & -> & Hns). left.
  by exists (if String.eqb (tgGroup tg) "" then rt else rt +:+ "." +:+ tgGroup tg), ns, name.
Qed.

Lemma discovery_paths (P : string → Prop) : (∀ res, discovery res → P res) → Forall P (map (String.append "NonResourceURL::") discoveryPaths).
Proof. intros H. apply Forall_fmap, Forall_forall. intros p Hp. apply H. by exists p. Qed.

Lemma grant_emitted Q identity cedar g st res :
  Forall (λ c, Forall Q c.2) cedar → buildGrant identity cedar = Some g → st ∈ gnStatements g → res ∈ gsResources st → Q res.
Proof.
  intros Hq Hg (k & _ & _ & _ & Hr)%(buildGrant_statement _ _ _ _ Hg) Hres. rewrite Hr, buildGrant_resources in Hres.
  destruct Hres as (vs & rs & Hin & _ & Hres). rewrite Forall_forall in Hq. specialize (Hq _ Hin). cbn in Hq.
  rewrite Forall_forall in Hq. by apply Hq.
Qed.

Lemma accountNamespaces_owner m acct ns : ns ∈ accountNamespaces m acct ↔ m !! ns = Some acct.
Proof.
  unfold accountNamespaces. rewrite (merge_sort_Permutation string_le), list_elem_of_fmap. split.
  - intros ([k a] & -> & [Ha Hk%elem_of_map_to_list]%list_elem_of_filter). cbn in *. by subst.
  - intros H%elem_of_map_to_list. exists (ns, acct). split; [done|]. by apply list_elem_of_filter.
Qed.

Lemma mergeRules_nil : mergeRules [] = [].
Proof. done. Qed.

Lemma binding_of p id account identity wide nss nsRules clusterRules b :
  b ∈ (buildRBAC p id account identity wide nss nsRules clusterRules).2 →
  (∃ ns, bdNamespace b = Some ns ∧ ns ∈ nss ∧ wide = false) ∨ (bdNamespace b = None ∧ wide = true) ∨
  (bdNamespace b = None ∧ clusterRules ≠ [] ∧ bdRole b = GeneratedName (ipKind p) id account +:+ ":cluster").
Proof.
  unfold buildRBAC. cbv zeta. cbn [snd]. rewrite elem_of_app. intros [H|H].
  - case_bool_decide; cbn in H; [set_solver|]. destruct wide.
    + apply list_elem_of_singleton in H as ->. right. by left.
    + apply list_elem_of_fmap in H as (ns & -> & Hns). left. by exists ns.
  - case_bool_decide; cbn in H; [set_solver|]. apply list_elem_of_singleton in H as ->. right. by right.
Qed.

(** A resource of the operator surface that belongs to no namespace. *)
Definition cluster_scoped (res : string) : Prop :=
  ∃ op, op ∈ operatorResources ∧ orNamespaced op = false ∧ orResource op = res.

Lemma mergeRules_resources (P : string → Prop) rules :
  Forall (λ r, Forall P (prResources r)) rules → Forall (λ r, Forall P (prResources r)) (mergeRules rules).
Proof.
  intros H. unfold mergeRules. apply Forall_fmap.
  assert (Hf : Forall (λ r, Forall P (prResources r)) (foldl (λ acc r, merge_into r acc) [] rules)).
  { apply foldl_inv; [done|]. intros acc r Hr Hacc. rewrite Forall_forall in H. specialize (H r Hr). clear Hr.
    induction Hacc as [|x acc Hx Hacc IH]; cbn [merge_into]; [by constructor|].
    case_bool_decide; constructor; [|done..|done]. cbn. by apply Forall_app. }
  rewrite (merge_sort_Permutation key_le). eapply Forall_impl; [exact Hf|]. intros r Hr. cbn.
  apply Forall_forall. intros res Hres. cbn in Hres. rewrite dedupe_elem in Hres. rewrite Forall_forall in Hr. exact (Hr res Hres).
Qed.

Lemma emit_denies_members sha1 t IPParses TimeParses pl stmts boundary ns :
  ns ∈ plMembers pl → (Deny, ["*"], ["*::" +:+ ns +:+ "/*"]) ∈ otCedar (emit sha1 t IPParses TimeParses pl stmts boundary).
Proof.
  intros Hns. unfold emit. generalize (emit_wildcards sha1 t pl stmts boundary
    (emit_operator sha1 t IPParses TimeParses pl stmts boundary
       (emit_passrole sha1 t IPParses TimeParses pl stmts boundary
          (emit_kinds sha1 t IPParses TimeParses pl stmts boundary no_output)))). intros o.
  assert (H : (Deny, ["*"], ["*::" +:+ ns +:+ "/*"]) ∈ otCedar (emit_members pl o)).
  { unfold emit_members. apply list_elem_of_split in Hns as (l1 & l2 & ->). rewrite foldl_app. cbn [foldl].
    apply foldl_inv; [cbn; apply elem_of_app; right; by left|]. intros a x _ Ha. cbn. apply elem_of_app. by left. }
  unfold emit_discovery. destruct (0 <? _); [|done]. cbn. apply elem_of_app. by left.
Qed.

Lemma GeneratedName_cluster base : base ≠ base +:+ ":cluster".
Proof. intros H%(f_equal String.length). rewrite length_append in H. cbn in H. lia. Qed.

Lemma role_of p id account identity wide nss nsRules clusterRules r :
  r ∈ (buildRBAC p id account identity wide nss nsRules clusterRules).1 →
  crName r = GeneratedName (ipKind p) id account +:+ ":cluster" → crRules r = clusterRules.
Proof.
  unfold buildRBAC. cbv zeta. cbn [fst]. rewrite elem_of_app. intros [H|H].
  - case_bool_decide; cbn in H; [set_solver|]. apply list_elem_of_singleton in H as ->. cbn. by intros ?%GeneratedName_cluster.
  - case_bool_decide; cbn in H; [set_solver|]. by apply list_elem_of_singleton in H as ->.
Qed.

Section Isolation.
Context (sha1 : string → list Z) (t : table) (IPParses TimeParses : string → bool).
#[local] Abbreviation compilePrincipal := (compilePrincipal sha1 t IPParses TimeParses).

(** a member account's principal is confined to its account.  Every resource its grant names is inside a
    namespace the account owns (or is a discovery path), and every binding generated for it is in such a
    namespace, never cluster-wide, whatever its policies say. *)
Theorem member_confined (inp : Input) (p : Principal) :
  plAccount (place inp p) ≠ ManagementAccount →
  let owned ns := inNamespaceAccounts inp !! ns = Some (plAccount (place inp p)) in
  (∀ g st res, pcGrant (compilePrincipal inp p) = Some g → st ∈ gnStatements g → res ∈ gsResources st →
     (∃ full ns name, owned ns ∧ res = full +:+ "::" +:+ ns +:+ "/" +:+ name) ∨ discovery res) ∧
  (∀ b, b ∈ pcBindings (compilePrincipal inp p) → ∃ ns, bdNamespace b = Some ns ∧ owned ns).
Proof.
  cbv zeta. intros Hacct.
  assert (Hcw : plClusterWide (place inp p) = false ∧ plRbacWide (place inp p) = false ∧ plMembers (place inp p) = [] ∧
    plNamespaces (place inp p) = accountNamespaces (inNamespaceAccounts inp) (plAccount (place inp p)) ∧
    plRbacNamespaces (place inp p) = plNamespaces (place inp p)).
  { revert Hacct. unfold place. cbv zeta. set (a := match _ with Some _ => _ | None => _ end).
    destruct (String.eqb_spec a ManagementAccount) as [->|Ha]; cbn [andb]; [|done]. by destruct (hasMemberAccounts _). }
  destruct Hcw as (Hcw & Hrw & Hmem & Hns & Hrns). unfold IamRbac.compilePrincipal. cbv zeta.
  destruct (_ && String.eqb _ _); [set_solver|]. destruct (BoundaryFor _ _ _) as [has bstmts].
  destruct (_ && bool_decide _); [set_solver|].
  set (o := emit _ _ _ _ _ _ _).
  assert (Ho : emitted (λ res, within_namespaces (plNamespaces (place inp p)) res ∨ discovery res) (λ _, False) o).
  { apply emit_emitted; rewrite ?Hcw, ?Hmem; [by apply denyIDs_within|by intros|by intros|set_solver|].
    apply discovery_paths. by right. }
  destruct Ho as [Hcedar Hrules]. assert (Hnil : otCluster o = []) by (destruct (otCluster o); [done|by apply Forall_cons in Hrules as [[] _]]).
  destruct (buildRBAC _ _ _ _ _ _ _ _) as [roles bindings] eqn:Eb. cbn. split.
  - intros g st res (g' & Hg & ->)%fmap_Some Hst Hres. cbn in Hst.
    destruct (grant_emitted _ _ _ _ _ _ Hcedar Hg Hst Hres) as [(full & ns & name & Hin & ->)|?]; [left|by right].
    exists full, ns, name. split; [|done]. rewrite Hns in Hin. by apply accountNamespaces_owner.
  - intros b Hb. replace bindings with (roles, bindings).2 in Hb by done. rewrite <- Eb in Hb.
    rewrite Hnil, mergeRules_nil, Hrw, Hrns, Hns in Hb.
    apply binding_of in Hb as [(ns & ? & Hin & _)|[[_ ?]|(_ & ? & _)]]; [|done..].
    exists ns. split; [done|]. by apply accountNamespaces_owner.
Qed.
Lemma place_management inp p ns a :
  plAccount (place inp p) = ManagementAccount → inNamespaceAccounts inp !! ns = Some a → is_member a = true →
  plClusterWide (place inp p) = true ∧ plRbacWide (place inp p) = false ∧ ns ∈ plMembers (place inp p) ∧
  ns ∉ plRbacNamespaces (place inp p).
Proof.
  unfold place. cbv zeta. set (acct := match _ with Some _ => _ | None => _ end). intros Hacct Hns Hm.
  assert (Hacct' : acct = ManagementAccount) by by destruct (_ && _). rewrite Hacct'. rewrite String.eqb_refl. cbn [andb].
  assert (hasMemberAccounts (inNamespaceAccounts inp) = true) as ->.
  { unfold hasMemberAccounts. apply existsb_exists. exists (ns, a). split; [by apply list_elem_of_In, elem_of_map_to_list|].
    by apply andb_true_iff in Hm as [_ ?]. }
  cbn. split_and!; [done|done| |].
  - unfold memberNamespaces. rewrite (merge_sort_Permutation string_le). apply list_elem_of_fmap. exists (ns, a).
    split; [done|]. apply list_elem_of_filter. split; [done|]. by apply elem_of_map_to_list.
  - unfold managementNamespaces. destruct (inNamespaces inp) as [|x nss].
    + rewrite accountNamespaces_owner, Hns. intros [= ->]. by apply andb_true_iff in Hm as [_ Hm].
    + rewrite (merge_sort_Permutation string_le). intros [Hf _]%list_elem_of_filter. rewrite Hns in Hf. cbn in Hf. congruence.
Qed.

(** the management account stays out of a member's namespaces.  Where a namespace belongs to a member
    account, the grant of a management principal denies every verb on everything in it, no generated binding
    is in it, and what is bound cluster-wide reaches only the operator's cluster-scoped resources. *)
Theorem management_excludes_members (inp : Input) (p : Principal) (ns a : string) :
  plAccount (place inp p) = ManagementAccount → inNamespaceAccounts inp !! ns = Some a → is_member a = true →
  (∀ g, pcGrant (compilePrincipal inp p) = Some g →
     ∃ st, st ∈ gnStatements g ∧ gsEffect st = Deny ∧ gsActions st = ["*"] ∧ ("*::" +:+ ns +:+ "/*") ∈ gsResources st) ∧
  (∀ b, b ∈ pcBindings (compilePrincipal inp p) → bdNamespace b ≠ Some ns) ∧
  (∀ b r rule, b ∈ pcBindings (compilePrincipal inp p) → bdNamespace b = None →
     r ∈ pcClusterRoles (compilePrincipal inp p) → crName r = bdRole b → rule ∈ crRules r →
     Forall cluster_scoped (prResources rule)).
Proof.
  intros Hacct Hns Hm. destruct (place_management inp p ns a Hacct Hns Hm) as (Hcw & Hrw & Hmem & Hout).
  unfold IamRbac.compilePrincipal. cbv zeta. destruct (_ && String.eqb _ _); [set_solver|].
  destruct (BoundaryFor _ _ _) as [has bstmts]. rewrite Hcw. cbn [negb andb].
  set (stmts := _ ≫= polStatements). set (boundary := if has then _ else _).
  pose proof (emit_denies_members sha1 t IPParses TimeParses (place inp p) stmts boundary ns Hmem) as Hdeny.
  assert (Ho : emitted (λ _, True) (λ r, Forall cluster_scoped (prResources r)) (emit sha1 t IPParses TimeParses (place inp p) stmts boundary)).
  { assert (HT : ∀ l : list string, Forall (λ _, True) l) by (intros; by apply Forall_true).
    apply emit_emitted; [auto| |rewrite Hrw; naive_solver|done|auto].
    intros op Hop Hsc _. split; [auto|]. intros r ->. constructor; [|done]. by exists op. }
  destruct Ho as [_ Hrules]. apply mergeRules_resources in Hrules.
  set (o := emit _ _ _ _ _ _ _) in *. clearbody o.
  destruct (buildRBAC _ _ _ _ _ _ _ _) as [roles bindings] eqn:Eb. cbn. rewrite Hrw in Eb. split_and!.
  - intros g (g' & Hg & ->)%fmap_Some. cbn.
    set (res := dedupe (concat (map snd (filter (λ c, verbs_key c.1.2 = "*") (filter (λ c, c.1.1 = Deny) (otCedar o)))))).
    assert (Hin : ("*::" +:+ ns +:+ "/*") ∈ res).
    { apply buildGrant_resources. exists ["*"], ["*::" +:+ ns +:+ "/*"]. split; [done|]. split; [done|by left]. }
    exists (mkGrantStatement Deny ["*"] res). split_and!; [|done..]. apply (buildGrant_statement _ _ _ _ Hg).
    exists "*". cbn. split_and!; [done| |by left|done]. intros E. rewrite E in Hin. by apply not_elem_of_nil in Hin.
  - intros b Hb E. replace bindings with (roles, bindings).2 in Hb by done. rewrite <- Eb in Hb.
    apply binding_of in Hb as [(x & Hx & Hin & _)|[[_ ?]|(? & _)]]; [|done|congruence].
    rewrite E in Hx. by injection Hx as <-.
  - intros b r rule Hb Hnone Hr Hname Hrule. replace bindings with (roles, bindings).2 in Hb by done.
    replace roles with (roles, bindings).1 in Hr by done. rewrite <- Eb in Hb, Hr.
    apply binding_of in Hb as [(x & Hx & _)|[[_ ?]|(_ & _ & Hrole)]]; [congruence|done|].
    rewrite Hrole in Hname. rewrite (role_of _ _ _ _ _ _ _ _ _ Hr Hname) in Hrule. rewrite Forall_forall in Hrules. by apply Hrules.
Qed.
End Isolation.

(** ** At concrete inputs *)

Definition demo_operator_target : target := mkTarget "openinfra.dev" "statemachines" true true "StateMachine".

Lemma apply_decision_rbac_witness :
  let r := mkRule ["openinfra.dev"] ["statemachines"; "statemachines/status"] ["orders"] ["get"] in
  let d := (decide_verb demo_kind "000000000000" "states:DescribeStateMachine" modeNamed
              [demo_statement Allow ["states:*"] ["StateMachine::orders"] []] None).1 in
  r ∈ rules_of (apply_decision true [] demo_operator_target Get d no_output) ∧
  prGroups r = ["openinfra.dev"] ∧ prResources r = rbacResources demo_operator_target ∧ prVerbs r ⊆ k8sVerbs Get true ∧
  in_rset (dcAllow d) "orders" ∧ (∀ m, ¬ in_rset (dcDeny d) m).
Proof.
  cbv zeta. assert (Hr : mkRule ["openinfra.dev"] ["statemachines"; "statemachines/status"] ["orders"] ["get"] ∈
    rules_of (apply_decision true [] demo_operator_target Get
      (decide_verb demo_kind "000000000000" "states:DescribeStateMachine" modeNamed
         [demo_statement Allow ["states:*"] ["StateMachine::orders"] []] None).1 no_output)).
  { assert (E : rules_of (apply_decision true [] demo_operator_target Get
      (decide_verb demo_kind "000000000000" "states:DescribeStateMachine" modeNamed
         [demo_statement Allow ["states:*"] ["StateMachine::orders"] []] None).1 no_output) =
      [mkRule ["openinfra.dev"] ["statemachines"; "statemachines/status"] ["orders"] ["get"]]) by (vm_compute; reflexivity).
    rewrite E. by left. }
  split; [exact Hr|].
  refine (apply_decision_rbac demo_kind "000000000000" "states:DescribeStateMachine" modeNamed _ None true []
    demo_operator_target Get no_output _ "orders" Hr _ _).
  - apply not_elem_of_nil.
  - right. by left.
Defined.

Definition demo_cedar : list (string * list string * list string) :=
  [(Allow, ["list"; "watch"], ["buckets.openinfra.dev::team-a/*"]); (Deny, ["get"], ["secrets::team-a/*"]);
   (Allow, ["list"; "watch"], ["queues.openinfra.dev::team-a/*"])].

Lemma buildGrant_says_witness :
  grant_says (buildGrant "openinfra:111111111111:ann" demo_cedar) Allow "watch" "queues.openinfra.dev::team-a/*" ↔
  cedar_says demo_cedar Allow "watch" "queues.openinfra.dev::team-a/*".
Proof.
  refine (buildGrant_says "openinfra:111111111111:ann" demo_cedar Allow "watch" "queues.openinfra.dev::team-a/*" _).
  repeat (apply List.Forall_cons; [cbn; split_and!; [first [by right|by left]|discriminate|
    repeat (apply List.Forall_cons; [reflexivity|]); apply List.Forall_nil]|]). apply List.Forall_nil.
Defined.

Definition demo_rules : list PolicyRule :=
  [mkRule ["openinfra.dev"] ["queues"] ["orders"] ["get"]; mkRule ["apps"] ["deployments"] [] ["list"; "watch"];
   mkRule ["openinfra.dev"] ["buckets"] ["orders"] ["get"]].

Lemma mergeRules_grant_witness :
  length (mergeRules demo_rules) = 2%nat ∧
  (rules_grant (mergeRules demo_rules) "openinfra.dev" "buckets" "get" "orders" ↔
   rules_grant demo_rules "openinfra.dev" "buckets" "get" "orders").
Proof.
  split; [vm_compute; reflexivity|].
  refine (mergeRules_grant demo_rules "openinfra.dev" "buckets" "get" "orders" _).
  repeat (apply List.Forall_cons; [split_and!; [reflexivity| |];
    (repeat (apply List.Forall_cons; [by split|]); apply List.Forall_nil)|]). apply List.Forall_nil.
Defined.

Definition demo_input : Input :=
  mkInput demo_world "platform" {["team-a" := "111111111111"; "platform" := ManagementAccount]}
    ["platform"; "team-a"; "default"] 150.

Lemma member_confined_witness :
  plAccount (place demo_input (mkIamPrincipal "User" "team-a" "ann" [])) = "111111111111" ∧
  (∀ b, b ∈ pcBindings (compilePrincipal demo_sha1 demo_table (λ _, false) (λ _, false) demo_input
                          (mkIamPrincipal "User" "team-a" "ann" [])) →
     ∃ ns, bdNamespace b = Some ns ∧ inNamespaceAccounts demo_input !! ns = Some "111111111111").
Proof.
  split; [vm_compute; reflexivity|].
  refine (proj2 (member_confined demo_sha1 demo_table (λ _, false) (λ _, false) demo_input
                   (mkIamPrincipal "User" "team-a" "ann" []) _)).
  vm_compute. discriminate.
Defined.

Lemma management_excludes_members_witness :
  plAccount (place demo_input (mkIamPrincipal "User" "platform" "ann" [])) = ManagementAccount ∧
  (∀ b, b ∈ pcBindings (compilePrincipal demo_sha1 demo_table (λ _, false) (λ _, false) demo_input
                          (mkIamPrincipal "User" "platform" "ann" [])) → bdNamespace b ≠ Some "team-a").
Proof.
  split; [vm_compute; reflexivity|].
  refine (proj1 (proj2 (management_excludes_members demo_sha1 demo_table (λ _, false) (λ _, false) demo_input
                   (mkIamPrincipal "User" "platform" "ann" []) "team-a" "111111111111" _ _ _))); vm_compute; reflexivity.
Defined.

(** Two principals whose generated roles have one name: a name with a dot, and a namespaced one. *)
Lemma GeneratedName_collides :
  let home := "platform" in
  QualifiedName home "dev" "ann" ≠ QualifiedName home home "dev.ann" ∧
  GeneratedName "User" (QualifiedName home "dev" "ann") "000000000000" =
  GeneratedName "User" (QualifiedName home home "dev.ann") "000000000000".
Proof. split; [discriminate|reflexivity]. Qed.
