(* ===== verification/AslData.v ===== *)
(** * Data of an execution and the paths into it (statemachine/jsonpath.go)

    The data a state machine carries is decoded JSON whose objects are Go maps: references to a store that
    several values, branches and the context object may share, and that applyResultPath writes to in place.
    Arrays are never written to once built. *)

From S2P Require Export Json.
From S2P Require Import Prelude GoStrings.
#[local] Open Scope string_scope.
#[local] Open Scope Z_scope.
#[local] Open Scope list_scope.

(** ** Values and the store *)

Abbreviation loc := nat (only parsing).

Inductive val :=
| VNull
| VBool (b : bool)
| VNum (f : spec_float)
| VStr (s : string)
| VArr (l : list val)
| VMap (l : loc).

Abbreviation obj := (gmap string val).
(** The maps made so far, by address. *)
Abbreviation heap := (list obj).

Definition alloc (h : heap) (o : obj) : heap * loc := (h ++ [o], length h).
Definition write (h : heap) (l : loc) (k : string) (v : val) : heap := alter (λ o : obj, <[k := v]> o) l h.
Definition field (h : heap) (l : loc) (k : string) : option val := o ← h !! l; o !! k.

(** What is not an object or an array is itself. *)
Definition scalar (j : json) : val :=
  match j with JNull => VNull | JBool b => VBool b | JNum f => VNum f | JStr s => VStr s | _ => VNull end.

(** A list of values made one after the other. *)
Definition each {A B} (f : heap → A → heap * B) : heap → list A → heap * list B :=
  fix go h l {struct l} :=
    match l with
    | [] => (h, [])
    | x :: l => let '(h, y) := f h x in let '(h, ys) := go h l in (h, y :: ys)
    end.

(** json.Unmarshal into an [any]: new maps throughout. *)
Fixpoint decode (h : heap) (j : json) {struct j} : heap * val :=
  match j with
  | JArr l => let '(h, vs) := each decode h l in (h, VArr vs)
  | JObj m =>
      let '(h, kvs) := each (λ h kv, let '(h, v) := decode h kv.2 in (h, (kv.1, v))) h m in
      let '(h, l) := alloc h (list_to_map kvs) in (h, VMap l)
  | _ => (h, scalar j)
  end.

(** ** Reference paths *)

Inductive path_error :=
| EUnterminated (path : string)
| EPathStart (path : string)
| EInputPath (path : string)
| EResultPath (path : string)
| EParamNotString (key : string)
| EParamNoMatch (path key : string).

Definition Trim (cut : ascii → bool) : string → string :=
  let fix left s := match s with String c t => if cut c then left t else s | "" => "" end in
  let fix right s := match s with
                     | String c t => match right t with "" => if cut c then "" else String c "" | t => String c t end
                     | "" => ""
                     end in
  λ s, right (left s).
Definition is_quote (c : ascii) : bool := Ascii.eqb c "'" || Ascii.eqb c dquote.

Definition flush (cur : string) : list string := match cur with "" => [] | _ => [cur] end.

(** tokenizePath; [inside] is the text of an open bracket.  [None]: the bracket is not closed. *)
Fixpoint tokenize (s cur : string) (inside : option string) : option (list string) :=
  match s, inside with
  | "", None => Some (flush cur)
  | "", Some _ => None
  | String c s, Some text =>
      if Ascii.eqb c "]" then cons (Trim is_quote (TrimSpace text)) <$> tokenize s "" None
      else tokenize s "" (Some (text +:+ String c ""))
  | String c s, None =>
      if Ascii.eqb c "." then app (flush cur) <$> tokenize s "" None
      else if Ascii.eqb c "[" then app (flush cur) <$> tokenize s "" (Some "")
      else tokenize s (cur +:+ String c "") None
  end.
Definition tokenizePath (p : string) : option (list string) := tokenize p "" None.

(** From a value along the tokens; [None]: the path walks off the data. *)
Fixpoint walk (h : heap) (cur : val) (toks : list string) : option val :=
  match toks with
  | [] => Some cur
  | t :: toks =>
      match cur with
      | VMap l => v ← field h l t; walk h v toks
      | VArr vs =>
          i ← ParseInt t;
          if (0 <=? i) && (i <? Z.of_nat (length vs)) then v ← vs !! Z.to_nat i; walk h v toks else None
      | _ => None
      end
  end.

Definition getPath (h : heap) (data : val) (ctx : loc) (path : string) : res path_error (option val) :=
  let along (root : val) (rest : string) :=
    match tokenizePath rest with None => Err (EUnterminated rest) | Some toks => Ok (walk h root toks) end in
  if String.eqb path "" then Ok None
  else if String.eqb path "$" then Ok (Some data)
  else if String.eqb path "$$" then Ok (Some (VMap ctx))
  else match CutPrefix path "$$." with
       | Some rest => along (VMap ctx) rest
       | None => match CutPrefix path "$." with Some rest => along data rest | None => Err (EPathStart path) end
       end.

(** applyInputPath, and applyOutputPath, which is the same. *)
Definition applyInputPath (h : heap) (data : val) (ctx : loc) (p : string) : res path_error (heap * val) :=
  if String.eqb p "$" then Ok (h, data)
  else if String.eqb p "" then let '(h, l) := alloc h ∅ in Ok (h, VMap l)
  else v ← getPath h data ctx p;
       match v with Some v => Ok (h, v) | None => Err (EInputPath p) end.
Definition applyOutputPath : heap → val → loc → string → res path_error (heap * val) := applyInputPath.

(** The map under a key, made when there is none. *)
Definition enter (h : heap) (l : loc) (t : string) : heap * loc :=
  match field h l t with
  | Some (VMap next) => (h, next)
  | _ => let '(h, next) := alloc h ∅ in (write h l t (VMap next), next)
  end.

(** The writes of applyResultPath, from the map at [l]. *)
Fixpoint set_path (h : heap) (l : loc) (toks : list string) (result : val) : heap :=
  match toks with
  | [] => h
  | [t] => write h l t result
  | t :: toks => let '(h, next) := enter h l t in set_path h next toks result
  end.

Definition applyResultPath (h : heap) (data result : val) (p : string) : res path_error (heap * val) :=
  if String.eqb p "$" then Ok (h, result)
  else if String.eqb p "" then Ok (h, data)
  else match CutPrefix p "$." with
       | None => Err (EResultPath p)
       | Some rest =>
           match tokenizePath rest with
           | None => Err (EUnterminated rest)
           | Some toks =>
               let '(h, root) := match data with VMap l => (h, l) | _ => alloc h ∅ end in
               Ok (set_path h root toks result, VMap root)
           end
       end.

(** ** Parameters *)

Definition each_res {A B} (f : heap → A → res path_error (heap * B)) : heap → list A → res path_error (heap * list B) :=
  fix go h l {struct l} :=
    match l with
    | [] => Ok (h, [])
    | x :: l => '(h, y) ← f h x; '(h, ys) ← go h l; Ok (h, y :: ys)
    end.

(** resolveNode: a key that ends in ".$" names a path; of keys that come out alike, the later wins. *)
Fixpoint resolveNode (input : val) (ctx : loc) (h : heap) (node : json) {struct node} : res path_error (heap * val) :=
  match node with
  | JObj m =>
      '(h, kvs) ← each_res (λ h kv,
        let '(k, v) := kv : string * json in
        if HasSuffix k ".$" then
          match v with
          | JStr path =>
              r ← getPath h input ctx path;
              match r with
              | Some r => Ok (h, (TrimSuffix k ".$", r))
              | None => Err (EParamNoMatch path k)
              end
          | _ => Err (EParamNotString k)
          end
        else '(h, r) ← resolveNode input ctx h v; Ok (h, (k, r))) h m;
      let '(h, l) := alloc h (list_to_map (rev kvs)) in Ok (h, VMap l)
  | JArr l => '(h, vs) ← each_res (resolveNode input ctx) h l; Ok (h, VArr vs)
  | _ => Ok (h, scalar node)
  end.

(** resolveParameters; [None]: the state has no template. *)
Definition resolveParameters (raw : option json) (h : heap) (input : val) (ctx : loc) : res path_error (heap * val) :=
  match raw with None => Ok (h, input) | Some node => resolveNode input ctx h node end.

(** ** The store *)

Lemma field_write_eq h l k v : (l < length h)%nat → field (write h l k v) l k = Some v.
Proof.
  intros [o Ho]%lookup_lt_is_Some. unfold field, write. rewrite list_lookup_alter_eq, Ho. cbn. by rewrite lookup_insert_eq.
Qed.
Lemma field_write_ne h l k v l' k' : l ≠ l' ∨ k ≠ k' → field (write h l k v) l' k' = field h l' k'.
Proof.
  intros Hne. unfold field, write. destruct (decide (l = l')) as [->|Hl].
  - rewrite list_lookup_alter_eq. destruct (h !! l') as [o|]; [|done]. cbn. rewrite lookup_insert_ne; [done|naive_solver].
  - by rewrite list_lookup_alter_ne.
Qed.
Lemma length_write h l k v : length (write h l k v) = length h.
Proof. apply length_alter. Qed.
Lemma lookup_write_ne (h : heap) l k v l' : l ≠ l' → write h l k v !! l' = (h !! l' : option obj).
Proof. intros. by apply list_lookup_alter_ne. Qed.
Lemma lookup_alloc (h : heap) o l : (l < length h)%nat → (h ++ [o]) !! l = (h !! l : option obj).
Proof. intros. by apply lookup_app_l. Qed.

(** ** Writing at a path *)

(** The maps a path goes through. *)
Fixpoint chain (h : heap) (l : loc) (toks : list string) : list loc :=
  l :: match toks with
       | t :: ((_ :: _) as rest) => match field h l t with Some (VMap next) => chain h next rest | _ => [] end
       | _ => []
       end.

Lemma chain_head (h : heap) l toks : ∃ ls, chain h l toks = l :: ls.
Proof. destruct toks; by eexists. Qed.

Lemma chain_cons2 (h : heap) l t t2 toks :
  chain h l (t :: t2 :: toks) = l :: match field h l t with Some (VMap next) => chain h next (t2 :: toks) | _ => [] end.
Proof. done. Qed.

(** Entering a key leads to the map of the path, or to a new and empty one. *)
Lemma enter_spec (h : heap) l t t2 toks :
  (l < length h)%nat → NoDup (chain h l (t :: t2 :: toks)) → Forall (λ l, (l < length h)%nat) (chain h l (t :: t2 :: toks)) →
  let '(h0, next) := enter h l t in
  (length h ≤ length h0)%nat ∧ field h0 l t = Some (VMap next) ∧ l ≠ next ∧ l ∉ chain h0 next (t2 :: toks) ∧
  NoDup (chain h0 next (t2 :: toks)) ∧ Forall (λ l, (l < length h0)%nat) (chain h0 next (t2 :: toks)) ∧
  (∀ l', (l' < length h)%nat → l' ≠ l → h0 !! l' = (h !! l' : option obj)) ∧ (∀ k, k ≠ t → field h0 l k = field h l k) ∧
  (∀ l', (l' < length h)%nat → l' ∉ chain h l (t :: t2 :: toks) → l' ∉ chain h0 next (t2 :: toks)).
Proof.
  intros Hl Hnd Hin. unfold enter. rewrite !chain_cons2 in *.
  assert (Hfresh : let h0 := write (h ++ [∅ : obj]) l t (VMap (length h)) in
    (length h ≤ length h0)%nat ∧ field h0 l t = Some (VMap (length h)) ∧ l ≠ length h ∧
    chain h0 (length h) (t2 :: toks) = [length h] ∧ (length h < length h0)%nat ∧
    (∀ l', (l' < length h)%nat → l' ≠ l → h0 !! l' = (h !! l' : option obj)) ∧ (∀ k, k ≠ t → field h0 l k = field h l k)).
  { cbv zeta. rewrite length_write, length_app. cbn [length]. split_and!; [lia| |lia| |lia| |].
    - apply field_write_eq. rewrite length_app. cbn. lia.
    - cbn [chain]. destruct toks; [done|]. rewrite field_write_ne by (left; lia). unfold field.
      rewrite lookup_app_r, Nat.sub_diag by lia. cbn. by rewrite lookup_empty.
    - intros l' Hl' Hne. rewrite lookup_write_ne by done. by apply lookup_alloc.
    - intros k Hk. rewrite field_write_ne by (right; congruence). unfold field. by rewrite lookup_alloc. }
  destruct (field h l t) as [v|] eqn:Ef; [destruct v as [| | | | |next]|]; cbn [alloc].
  6: { apply NoDup_cons in Hnd as [Hout Hnd]. apply Forall_cons in Hin as [_ Hin]. split_and!; try done.
       - destruct (chain_head h next (t2 :: toks)) as [ls E]. rewrite E in Hout. set_solver.
       - set_solver. }
  all: destruct Hfresh as (H1 & H2 & H3 & -> & H5 & H6 & H7); split_and!; try done.
  all: try (intros ?%list_elem_of_singleton; lia).
  all: try (by apply NoDup_singleton || by apply Forall_singleton).
  all: try (intros l' Hl' _ ?%list_elem_of_singleton; lia).
Qed.

Lemma set_path_cons2 (h : heap) l t t2 toks result :
  set_path h l (t :: t2 :: toks) result = let '(h0, next) := enter h l t in set_path h0 next (t2 :: toks) result.
Proof. done. Qed.

(** A write at a path is read back there, and touches only maps of the path. *)
Lemma set_path_spec toks (h : heap) l result :
  toks ≠ [] → NoDup (chain h l toks) → Forall (λ l, (l < length h)%nat) (chain h l toks) →
  let h' := set_path h l toks result in
  (length h ≤ length h')%nat ∧ walk h' (VMap l) toks = Some result ∧
  (∀ l', (l' < length h)%nat → l' ∉ chain h l toks → h' !! l' = (h !! l' : option obj)) ∧
  (∀ k, Some k ≠ head toks → field h' l k = field h l k).
Proof.
  revert h l. induction toks as [|t toks IH]; intros h l Hne; [done|]. cbv zeta. intros Hnd Hin.
  assert (Hl : (l < length h)%nat) by (cbn in Hin; by apply Forall_cons in Hin as [? _]).
  destruct toks as [|t2 toks].
  { cbn. rewrite length_write, field_write_eq by done. cbn. split_and!; [done|done| |].
    - intros l' _ Hl'. apply lookup_write_ne. set_solver.
    - intros k Hk. apply field_write_ne. right. congruence. }
  pose proof (enter_spec h l t t2 toks Hl Hnd Hin) as He. rewrite set_path_cons2. destruct (enter h l t) as [h0 next].
  destruct He as (Hlen & Hf & Hln & Hout & Hnd0 & Hin0 & Hframe & Hkeys & Hchain).
  destruct (IH h0 next ltac:(done) Hnd0 Hin0) as (H1 & H2 & H3 & _). set (h' := set_path h0 next (t2 :: toks) result) in *.
  assert (Hl0 : h' !! l = h0 !! l) by (apply H3; [lia|done]). split_and!.
  - lia.
  - cbn [walk]. unfold field in *. rewrite Hl0, Hf. exact H2.
  - intros l' Hl' Hnot. rewrite H3; [|lia|by apply Hchain]. apply Hframe; [done|].
    intros ->. apply Hnot. destruct (chain_head h l (t :: t2 :: toks)) as [ls ->]. by left.
  - intros k Hk. unfold field. rewrite Hl0. apply Hkeys. cbn in Hk. congruence.
Qed.

(** The map of a value, or the one that will be made. *)
Definition root_of (h : heap) (data : val) : loc := match data with VMap l => l | _ => length h end.
Definition with_root (h : heap) (data : val) : heap := match data with VMap _ => h | _ => h ++ [∅ : obj] end.


(** ** Back to JSON

    json.Marshal, which fails on a value that contains itself: [None] when the maps nest deeper than the
    fuel. *)
Fixpoint encode (fuel : nat) (h : heap) (v : val) {struct fuel} : option json :=
  match fuel with
  | O => None
  | S fuel =>
      match v with
      | VNull => Some JNull
      | VBool b => Some (JBool b)
      | VNum f => Some (JNum f)
      | VStr s => Some (JStr s)
      | VArr l => JArr <$> mapM (encode fuel h) l
      | VMap l => o ← h !! l; JObj <$> mapM (λ kv : string * val, pair kv.1 <$> encode fuel h kv.2) (map_to_list o)
      end
  end.

(** ** At concrete data *)

Definition demo_heap : heap := (decode [] (JObj [("n", JBool true); ("a", JObj [("b", JStr "x")])])).1.


(** The result is written into the map that is the input: who shares it sees the write. *)
Lemma result_path_writes_input h l r k :
  tokenizePath k = Some [k] → applyResultPath h (VMap l) r ("$." +:+ k) = Ok (write h l k r, VMap l).
Proof.
  intros Hk. unfold applyResultPath. assert (CutPrefix ("$." +:+ k) "$." = Some k) as -> by by apply CutPrefix_spec.
  by rewrite Hk.
Qed.

(** Keeping the input under a key of itself makes a value that contains itself, which has no JSON. *)
Lemma result_path_cycle :
  applyResultPath [∅] (VMap 0) (VMap 0) "$.backup" = Ok ([{["backup" := VMap 0]}], VMap 0) ∧
  ∀ fuel, encode fuel [{["backup" := VMap 0]}] (VMap 0) = None.
Proof.
  split; [reflexivity|]. induction fuel as [|fuel IH]; [done|]. cbn [encode].
  change ([{["backup" := VMap 0]} : obj] !! 0%nat) with (Some ({["backup" := VMap 0]} : obj)).
  cbn [mbind option_bind]. change (map_to_list ({["backup" := VMap 0]} : obj)) with [("backup", VMap 0)].
  cbn [mapM fst snd]. by rewrite IH.
Qed.
