(* ===== verification/AslChoice.v ===== *)
(** * Choice rules (statemachine/choice.go)

    A rule is the map of its keys, in the order Go's iteration takes; its fields are decoded when they are
    read.  float64 comparisons are those of IEEE 754. *)

From S2P Require Import Prelude GoStrings GoTime AslData.
#[local] Open Scope string_scope.
#[local] Open Scope Z_scope.
#[local] Open Scope list_scope.

Inductive choice_error :=
| EPath (e : path_error)
| EAndRules | EOrRules | ENotRule
| ENoVariable
| ENoOperator (path : string)
| EPathString (op : string)
| EUnsupported (op : string).

Definition of_path {A} (r : res path_error A) : res choice_error A :=
  match r with Ok a => Ok a | Err e => Err (EPath e) end.

(** A ChoiceRule as the JSON it was read from: an object, or null, which is the empty rule. *)
Abbreviation ChoiceRule := json (only parsing).
Definition is_rule (j : json) : bool := match j with JObj _ | JNull => true | _ => false end.
Definition keys (c : ChoiceRule) : list (string * json) := match c with JObj m => m | _ => [] end.

(** json.Unmarshal into a string whose error is ignored. *)
Definition string_or_empty (j : json) : string := match j with JStr s => s | _ => "" end.
Definition boolOperand (j : json) : bool := match j with JBool b => b | _ => false end.

Definition Next (c : ChoiceRule) : string := match obj_get (keys c) "Next" with Some j => string_or_empty j | None => "" end.
Definition variable (c : ChoiceRule) : option string := string_or_empty <$> obj_get (keys c) "Variable".

(** ** Comparisons *)

Definition comparison_Z (c : comparison) : Z := match c with Lt => -1 | Eq => 0 | Gt => 1 end.
Definition cmpFloat (a b : spec_float) : Z := if SFltb a b then -1 else if SFltb b a then 1 else 0.

Definition cmpOrder (base prefix : string) (c : Z) : bool :=
  let op := TrimPrefix base prefix in
  if String.eqb op "Equals" then c =? 0
  else if String.eqb op "LessThan" then c <? 0
  else if String.eqb op "GreaterThan" then 0 <? c
  else if String.eqb op "LessThanEquals" then c <=? 0
  else if String.eqb op "GreaterThanEquals" then 0 <=? c
  else false.

(** float64(t.UnixNano()): the nanoseconds as an int64, which wraps, then rounded. *)
Definition nano_float (t : Z) : spec_float := binary_normalize 53 1024 (int64 t) 0 false.

Definition parseTime (v : val) : option Z := match v with VStr s => ParseRFC3339 s | _ => None end.

Definition compareResolved (base : string) (value operand : val) : res choice_error bool :=
  if HasPrefix base "String" then
    match value, operand with
    | VStr l, VStr r => Ok (cmpOrder base "String" (comparison_Z (String.compare l r)))
    | _, _ => Ok false
    end
  else if HasPrefix base "Numeric" then
    match value, operand with
    | VNum l, VNum r => Ok (cmpOrder base "Numeric" (cmpFloat l r))
    | _, _ => Ok false
    end
  else if HasPrefix base "Boolean" then
    match value, operand with VBool l, VBool r => Ok (eqb l r) | _, _ => Ok false end
  else if HasPrefix base "Timestamp" then
    match parseTime value, parseTime operand with
    | Some l, Some r => Ok (cmpOrder base "Timestamp" (cmpFloat (nano_float l) (nano_float r)))
    | _, _ => Ok false
    end
  else Err (EUnsupported base).

Definition is_null (v : option val) : bool := match v with Some VNull => true | _ => false end.
Definition is_string (v : option val) : bool := match v with Some (VStr _) => true | _ => false end.
Definition is_numeric (v : option val) : bool := match v with Some (VNum _) => true | _ => false end.
Definition is_boolean (v : option val) : bool := match v with Some (VBool _) => true | _ => false end.
Definition is_timestamp (v : option val) : bool :=
  match v with Some v => bool_decide (is_Some (parseTime v)) | None => false end.

(** [value]: what the variable's path found. *)
Definition applyOp (h : heap) (ctx : nat) (data : val) (op : string) (value : option val) (operand : json)
    : res choice_error bool :=
  let test (b : bool) := Ok (eqb b (boolOperand operand)) in
  if String.eqb op "IsPresent" then test (bool_decide (is_Some value))
  else if String.eqb op "IsNull" then test (is_null value)
  else if String.eqb op "IsString" then test (is_string value)
  else if String.eqb op "IsNumeric" then test (is_numeric value)
  else if String.eqb op "IsBoolean" then test (is_boolean value)
  else if String.eqb op "IsTimestamp" then test (is_timestamp value)
  else match value with
       | None => Ok false
       | Some v =>
           if HasSuffix op "Path" then
             match operand with
             | JStr _ | JNull =>
                 r ← of_path (getPath h data ctx (string_or_empty operand));
                 match r with Some r => compareResolved (TrimSuffix op "Path") v r | None => Ok false end
             | _ => Err (EPathString op)
             end
           else let '(h, r) := decode h operand in compareResolved op v r
       end.

(** ** Rules *)

(** The key the loop over the rule's map reaches first. *)
Definition operator_of (c : ChoiceRule) : option (string * json) :=
  List.find (λ kv, negb (String.eqb kv.1 "Variable" || String.eqb kv.1 "Next")) (keys c).

Definition test (h : heap) (data : val) (ctx : nat) (c : ChoiceRule) : res choice_error bool :=
  match variable c with
  | None => Err ENoVariable
  | Some path =>
      value ← of_path (getPath h data ctx path);
      match operator_of c with
      | None => Err (ENoOperator path)
      | Some (op, operand) => applyOp h ctx data op value operand
      end
  end.

(** The rules of a list one by one, until one comes out as [stop]. *)
Definition until (stop : bool) (f : ChoiceRule → res choice_error bool) : list ChoiceRule → res choice_error bool :=
  fix go rules :=
    match rules with
    | [] => Ok (negb stop)
    | r :: rules => m ← f r; if eqb m stop then Ok stop else go rules
    end.

Definition with_key {A} (k : string) (f : json → A) : list (string * json) → option A :=
  fix go m := match m with [] => None | kv :: m => if String.eqb kv.1 k then Some (f kv.2) else go m end.

Section Eval.
Context (h : heap) (data : val) (ctx : nat).

Fixpoint eval (c : ChoiceRule) {struct c} : res choice_error bool :=
  match c with
  | JObj m =>
      match with_key "And" (λ r, match r with
                                 | JArr l => if forallb is_rule l then until false eval l else Err EAndRules
                                 | JNull => Ok true
                                 | _ => Err EAndRules
                                 end) m with
      | Some r => r
      | None =>
          match with_key "Or" (λ r, match r with
                                    | JArr l => if forallb is_rule l then until true eval l else Err EOrRules
                                    | JNull => Ok false
                                    | _ => Err EOrRules
                                    end) m with
          | Some r => r
          | None =>
              match with_key "Not" (λ r, if is_rule r then negb <$> eval r else Err ENotRule) m with
              | Some r => r
              | None => test h data ctx c
              end
          end
      end
  | _ => test h data ctx c
  end.
End Eval.

(** ** What a rule can come out as

    Go iterates over a map in no fixed order, so a rule with several operators tests any one of them. *)

Lemma with_key_spec {A} k (f : json → A) m : with_key k f m = f <$> obj_get m k.
Proof. induction m as [|[k' v] m IH]; [done|]. cbn. destruct (String.eqb k' k); [done|exact IH]. Qed.

Definition is_operator (kv : string * json) : bool := negb (String.eqb kv.1 "Variable" || String.eqb kv.1 "Next").

Section Means.
Context (h : heap) (data : val) (ctx : nat).
#[local] Abbreviation eval := (eval h data ctx).

(** Of a list of rules, of a rule, and of a rule without compositions. *)
Inductive test_means (c : ChoiceRule) : res choice_error bool → Prop :=
| test_no_variable : variable c = None → test_means c (Err ENoVariable)
| test_bad_path path e : variable c = Some path → getPath h data ctx path = Err e → test_means c (Err (EPath e))
| test_no_operator path v :
    variable c = Some path → getPath h data ctx path = Ok v → (∀ kv, kv ∈ keys c → is_operator kv = false) →
    test_means c (Err (ENoOperator path))
| test_operator path v op operand :
    variable c = Some path → getPath h data ctx path = Ok v → (op, operand) ∈ keys c → is_operator (op, operand) = true →
    test_means c (applyOp h ctx data op v operand).

Inductive means : ChoiceRule → res choice_error bool → Prop :=
| means_and m j r : obj_get m "And" = Some j → list_means false EAndRules j r → means (JObj m) r
| means_or m j r :
    obj_get m "And" = None → obj_get m "Or" = Some j → list_means true EOrRules j r → means (JObj m) r
| means_not m j r :
    obj_get m "And" = None → obj_get m "Or" = None → obj_get m "Not" = Some j → is_rule j = true → means j r →
    means (JObj m) (negb <$> r)
| means_not_bad m j :
    obj_get m "And" = None → obj_get m "Or" = None → obj_get m "Not" = Some j → is_rule j = false →
    means (JObj m) (Err ENotRule)
| means_test c r :
    obj_get (keys c) "And" = None → obj_get (keys c) "Or" = None → obj_get (keys c) "Not" = None → test_means c r →
    means c r
with list_means : bool → choice_error → json → res choice_error bool → Prop :=
| list_rules stop bad l r : forallb is_rule l = true → seq_means stop l r → list_means stop bad (JArr l) r
| list_bad_rules stop bad l : forallb is_rule l = false → list_means stop bad (JArr l) (Err bad)
| list_null stop bad : list_means stop bad JNull (Ok (negb stop))
| list_bad stop bad j : (∀ l, j ≠ JArr l) → j ≠ JNull → list_means stop bad j (Err bad)
with seq_means : bool → list ChoiceRule → res choice_error bool → Prop :=
| seq_nil stop : seq_means stop [] (Ok (negb stop))
| seq_stop stop c l : means c (Ok stop) → seq_means stop (c :: l) (Ok stop)
| seq_next stop c l r : means c (Ok (negb stop)) → seq_means stop l r → seq_means stop (c :: l) r
| seq_err stop c l e : means c (Err e) → seq_means stop (c :: l) (Err e).

Scheme means_ind' := Induction for means Sort Prop
  with list_means_ind' := Induction for list_means Sort Prop
  with seq_means_ind' := Induction for seq_means Sort Prop.
Combined Scheme means_mutind from means_ind', list_means_ind', seq_means_ind'.

(** Every test of the rule has one operator at most. *)
Fixpoint unambiguous (c : ChoiceRule) : bool :=
  let all (r : json) := match r with JArr l => forallb unambiguous l | _ => true end in
  match c with
  | JObj m =>
      match with_key "And" all m with
      | Some b => b
      | None =>
          match with_key "Or" all m with
          | Some b => b
          | None =>
              match with_key "Not" unambiguous m with
              | Some b => b
              | None => (length (filter (λ kv, is_operator kv = true) m) <=? 1)%nat
              end
          end
      end
  | _ => true
  end.

Lemma operator_of_spec c :
  match operator_of c with
  | Some kv => kv ∈ keys c ∧ is_operator kv = true
  | None => ∀ kv, kv ∈ keys c → is_operator kv = false
  end.
Proof.
  unfold operator_of. destruct (List.find _ (keys c)) as [kv|] eqn:E.
  - apply List.find_some in E as [Hin H]. by apply list_elem_of_In in Hin.
  - intros kv Hin%list_elem_of_In. exact (List.find_none _ _ E _ Hin).
Qed.

Lemma test_means_test c : test_means c (test h data ctx c).
Proof.
  unfold test. destruct (variable c) as [path|] eqn:Ev; [|by apply test_no_variable].
  destruct (getPath h data ctx path) as [v|e] eqn:Ep; cbn; [|by eapply test_bad_path].
  pose proof (operator_of_spec c) as Ho. destruct (operator_of c) as [[op operand]|].
  - destruct Ho. by eapply test_operator.
  - by eapply test_no_operator.
Qed.

Lemma test_unique c r :
  (length (filter (λ kv, is_operator kv = true) (keys c)) <= 1)%nat → test_means c r → r = test h data ctx c.
Proof.
  intros Hone Ht. unfold test. pose proof (operator_of_spec c) as Ho.
  destruct Ht as [-> | path e -> -> | path v -> -> Hno | path v op operand -> -> Hin Hop]; cbn; [done|done| |].
  - destruct (operator_of c) as [kv|]; [|done]. destruct Ho as [Hin H]. by rewrite Hno in H.
  - destruct (operator_of c) as [[op' operand']|].
    2: { by rewrite (Ho _ Hin) in Hop. }
    destruct Ho as [Hin' Hop'].
    assert (H1 : (op, operand) ∈ filter (λ kv, is_operator kv = true) (keys c)) by by apply list_elem_of_filter.
    assert (H2 : (op', operand') ∈ filter (λ kv, is_operator kv = true) (keys c)) by by apply list_elem_of_filter.
    destruct (filter _ (keys c)) as [|a [|b l]]; [by apply not_elem_of_nil in H1| |cbn in Hone; lia].
    apply list_elem_of_singleton in H1 as <-. by apply list_elem_of_singleton in H2 as [= -> ->].
Qed.

Lemma eval_test c :
  obj_get (keys c) "And" = None → obj_get (keys c) "Or" = None → obj_get (keys c) "Not" = None →
  eval c = test h data ctx c ∧
  (unambiguous c = true → (length (filter (λ kv, is_operator kv = true) (keys c)) <= 1)%nat).
Proof.
  destruct c as [| | | | |m]; cbn [keys]; intros Ha Ho Hn; [by (split; [done|cbn; lia])..|].
  cbn [AslChoice.eval unambiguous]. rewrite !with_key_spec, Ha, Ho, Hn. cbn. split; [done|]. by intros ?%Nat.leb_le.
Qed.

Lemma until_cons stop c l :
  until stop eval (c :: l) = match eval c with Ok m => if eqb m stop then Ok stop else until stop eval l | Err e => Err e end.
Proof. cbn. by destruct (eval c). Qed.

(** What [eval] does with a list of rules. *)
Definition eval_list (stop : bool) (bad : choice_error) (j : json) : res choice_error bool :=
  match j with
  | JArr l => if forallb is_rule l then until stop eval l else Err bad
  | JNull => Ok (negb stop)
  | _ => Err bad
  end.
Definition all_unambiguous (j : json) : bool := match j with JArr l => forallb unambiguous l | _ => true end.

Lemma eval_obj m :
  (∀ j, obj_get m "And" = Some j → eval (JObj m) = eval_list false EAndRules j ∧ unambiguous (JObj m) = all_unambiguous j) ∧
  (obj_get m "And" = None →
   (∀ j, obj_get m "Or" = Some j → eval (JObj m) = eval_list true EOrRules j ∧ unambiguous (JObj m) = all_unambiguous j) ∧
   (obj_get m "Or" = None → ∀ j, obj_get m "Not" = Some j →
      eval (JObj m) = (if is_rule j then negb <$> eval j else Err ENotRule) ∧ unambiguous (JObj m) = unambiguous j)).
Proof.
  cbn [AslChoice.eval unambiguous]. rewrite !with_key_spec. split; [by intros j ->|]. intros ->. cbn.
  split; [by intros j ->|]. by intros -> j ->.
Qed.

Lemma means_unique :
  (∀ c r, means c r → unambiguous c = true → r = eval c) ∧
  (∀ stop bad j r, list_means stop bad j r → all_unambiguous j = true → r = eval_list stop bad j) ∧
  (∀ stop l r, seq_means stop l r → forallb unambiguous l = true → r = until stop eval l).
Proof.
  apply means_mutind.
  - intros m j r Ha _ IH. destruct (proj1 (eval_obj m) j Ha) as [-> ->]. exact IH.
  - intros m j r Ha Ho _ IH. destruct (proj1 (proj2 (eval_obj m) Ha) j Ho) as [-> ->]. exact IH.
  - intros m j r Ha Ho Hn Hr _ IH. destruct (proj2 (proj2 (eval_obj m) Ha) Ho j Hn) as [-> ->]. rewrite Hr.
    by intros <-%IH.
  - intros m j Ha Ho Hn Hr. destruct (proj2 (proj2 (eval_obj m) Ha) Ho j Hn) as [-> ->]. by rewrite Hr.
  - intros c r Ha Ho Hn Ht. destruct (eval_test c Ha Ho Hn) as [-> Hu]. intros Hone%Hu. by apply test_unique.
  - intros stop bad l r Hr _ IH Hu. cbn. rewrite Hr. by apply IH.
  - intros stop bad l Hr _. cbn. by rewrite Hr.
  - done.
  - intros stop bad j Harr Hnull _. destruct j; try done. by destruct (Harr l).
  - done.
  - intros stop c l _ IH [Hc _]%andb_true_iff. rewrite until_cons, <- (IH Hc). by rewrite eqb_reflx.
  - intros stop c l r _ IH _ IHl [Hc Hl]%andb_true_iff. rewrite until_cons, <- (IH Hc). rewrite IHl by done. by destruct stop.
  - intros stop c l e _ IH [Hc _]%andb_true_iff. by rewrite until_cons, <- (IH Hc).
Qed.

Lemma obj_get_in m k j : obj_get m k = Some j → ∃ kv, kv ∈ m ∧ kv.2 = j.
Proof.
  induction m as [|[k' v] m IH]; [done|]. cbn. destruct (String.eqb k' k).
  - intros [= ->]. exists (k', j). split; [by left|done].
  - intros (kv & ? & ?)%IH. exists kv. split; [by right|done].
Qed.

Lemma seq_means_until stop l : Forall (λ c, means c (eval c)) l → seq_means stop l (until stop eval l).
Proof.
  induction 1 as [|c l Hc _ IH]; [apply seq_nil|]. rewrite until_cons. destruct (eval c) as [m|e]; [|by apply seq_err].
  destruct (eqb m stop) eqn:E; [apply eqb_prop in E as ->; by apply seq_stop|].
  apply seq_next; [|done]. by destruct m, stop.
Qed.

Lemma list_means_eval stop bad j :
  (∀ l, j = JArr l → Forall (λ c, means c (eval c)) l) → list_means stop bad j (eval_list stop bad j).
Proof.
  intros H. destruct j; try (by apply list_bad); [by apply list_null|]. cbn. destruct (forallb is_rule l) eqn:E.
  - apply list_rules; [done|]. by apply seq_means_until, H.
  - by apply list_bad_rules.
Qed.

(** Every rule comes out as [eval] says, and so do the rules of a list it holds. *)
Lemma eval_means_below c : means c (eval c) ∧ ∀ l, c = JArr l → Forall (λ c, means c (eval c)) l.
Proof.
  induction c as [| | | |l IH|m IH] using json_nested_ind;
    try (by split; [apply means_test; [done..|apply test_means_test]|done]).
  - split; [apply means_test; [done..|apply test_means_test]|]. intros ? [= <-]. eapply Forall_impl; [exact IH|]. intros x Hx. apply Hx.
  - split; [|done]. rewrite Forall_forall in IH.
    assert (Hget : ∀ k j, obj_get m k = Some j → means j (eval j) ∧ ∀ l, j = JArr l → Forall (λ c, means c (eval c)) l).
    { intros k j Hk. destruct (obj_get_in _ _ _ Hk) as (kv & Hin & <-). by apply IH. }
    destruct (obj_get m "And") as [j|] eqn:Ha.
    { destruct (proj1 (eval_obj m) j Ha) as [-> _]. eapply means_and; [done|]. by apply list_means_eval, (Hget "And"). }
    destruct (obj_get m "Or") as [j|] eqn:Ho.
    { destruct (proj1 (proj2 (eval_obj m) Ha) j Ho) as [-> _]. eapply means_or; [done..|]. by apply list_means_eval, (Hget "Or"). }
    destruct (obj_get m "Not") as [j|] eqn:Hn.
    { destruct (proj2 (proj2 (eval_obj m) Ha) Ho j Hn) as [-> _]. destruct (is_rule j) eqn:Hr.
      - eapply means_not; [done..|]. by apply (Hget "Not").
      - by eapply means_not_bad. }
    destruct (eval_test (JObj m) Ha Ho Hn) as [-> _]. apply means_test; [done..|apply test_means_test].
Qed.

(** a rule whose tests have one operator each comes out one way, whatever order Go's map iteration takes,
    and it is what [eval] computes: the compositions as logic, stopping at the first rule that decides or
    fails, a test as its operator says. *)
Theorem choice_deterministic (c : ChoiceRule) (r : res choice_error bool) :
  unambiguous c = true → means c r ↔ r = eval c.
Proof.
  intros Hu. split; [intros H; by apply (proj1 means_unique)|]. intros ->. apply eval_means_below.
Qed.
End Means.

(** ** At concrete rules *)

Definition demo_rule : ChoiceRule :=
  JObj [("And", JArr [JObj [("Variable", JStr "$.s"); ("StringEquals", JStr "go")];
                      JObj [("Not", JObj [("IsNull", JBool true); ("Variable", JStr "$.s")])]]); ("Next", JStr "Done")].
Definition demo_data : heap := [{["s" := VStr "go"]}].

Lemma choice_deterministic_witness :
  means demo_data (VMap 0) 9%nat demo_rule (Ok true) ↔ Ok true = eval demo_data (VMap 0) 9%nat demo_rule.
Proof. refine (choice_deterministic demo_data (VMap 0) 9%nat demo_rule (Ok true) _). vm_compute. reflexivity. Defined.

Lemma demo_rule_holds : eval demo_data (VMap 0) 9%nat demo_rule = Ok true.
Proof. vm_compute. reflexivity. Qed.

(** ** Where the outcome is not what the rule says *)

(** Two operators in one rule, or an operator and a comment: the iteration order decides. *)
Lemma two_operators_ambiguous :
  eval demo_data (VMap 0) 9%nat (JObj [("Variable", JStr "$.s"); ("IsPresent", JBool true); ("Comment", JStr "start")]) = Ok true ∧
  eval demo_data (VMap 0) 9%nat (JObj [("Variable", JStr "$.s"); ("Comment", JStr "start"); ("IsPresent", JBool true)]) =
    Err (EUnsupported "Comment").
Proof. split; vm_compute; reflexivity. Qed.

(** An operator of the language that is not supported is no error: it never matches. *)
Lemma StringMatches_never (h : heap) (data : val) (ctx : nat) (v : val) (pattern : json) :
  applyOp h ctx data "StringMatches" (Some v) pattern = Ok false.
Proof.
  unfold applyOp. cbn. destruct (decode h pattern) as [h' r]. unfold compareResolved. cbn.
  destruct v; [done..| |done|done]. by destruct r.
Qed.

(** A timestamp past the year 2262 wraps: the end of time comes before the present. *)
Lemma timestamp_wraps :
  compareResolved "TimestampLessThan" (VStr "2024-06-01T00:00:00Z") (VStr "9999-12-31T23:59:59Z") = Ok false ∧
  compareResolved "TimestampGreaterThan" (VStr "2024-06-01T00:00:00Z") (VStr "9999-12-31T23:59:59Z") = Ok true.
Proof. split; vm_compute; reflexivity. Qed.
