(* ===== verification/AslTypes.v ===== *)
(** * State machine definitions (statemachine/asl.go)

    The parsed document: a definition and its states refer to each other through Parallel branches and Map
    iterators.  Parsing starts from the decoded fields; a Go map of states is the list of its entries. *)

From S2P Require Export GoEncoding.
From S2P Require Import Prelude GoStrings AslData AslChoice.
#[local] Open Scope string_scope.
#[local] Open Scope Z_scope.
#[local] Open Scope list_scope.

(** A path field: absent, null, or a path. *)
Inductive Path := PAbsent | PNull | PValue (p : string).
Definition orDefault (p : Path) (def : string) : string :=
  match p with PAbsent => def | PNull => "" | PValue s => s end.

Record Retrier := mkRetrier {
  rtErrorEquals : list string;
  rtIntervalSeconds : Z;
  rtMaxAttempts : option Z;
  rtBackoffRate : spec_float;
  rtMaxDelaySeconds : Z;
}.
Definition interval (r : Retrier) : Z := if 0 <? rtIntervalSeconds r then rtIntervalSeconds r else 1.
Definition maxAttempts (r : Retrier) : Z := default 3 (rtMaxAttempts r).
Definition backoff (r : Retrier) : spec_float :=
  if SFleb (float_of 1) (rtBackoffRate r) then rtBackoffRate r else float_of 2.

Record Catcher := mkCatcher { ctErrorEquals : list string; ctNext : string; ctResultPath : Path }.

Definition ErrTaskFailed : string := "States.TaskFailed".
Definition ErrTimeout : string := "States.Timeout".
Definition ErrRuntime : string := "States.Runtime".
Definition ErrAll : string := "States.ALL".
Definition matchesError (errorEquals : list string) (name : string) : bool :=
  existsb (λ e, String.eqb e ErrAll || String.eqb e name) errorEquals.

Inductive Definition_ : Type := mkDefinition {
  dStartAt : string;
  dTimeoutSeconds : Z;
  dStates : list (string * State);
}
with State : Type := mkState {
  stType : string;
  stNext : string;
  stEnd : bool;
  stInputPath : Path;
  stOutputPath : Path;
  stResultPath : Path;
  stParameters : option json;
  stResource : string;
  stTimeoutSeconds : Z;
  stRetry : list Retrier;
  stCatch : list Catcher;
  stResult : option json;
  stSeconds : option Z;
  stSecondsPath : string;
  stTimestamp : string;
  stTimestampPath : string;
  stChoices : list json;
  stDefault : string;
  stError : string;
  stCause : string;
  stBranches : list Definition_;
  stIterator : option Definition_;
  stItemProcessor : option Definition_;
  stItemsPath : Path;
  stMaxConcurrency : Z;
  stItemSelector : option json;
}.

Definition iteratorDef (s : State) : option Definition_ :=
  match stItemProcessor s with Some d => Some d | None => stIterator s end.
Definition itemTemplate (s : State) : option json :=
  match stItemSelector s with Some t => Some t | None => stParameters s end.

(** d.States[name]. *)
Definition state_named (d : Definition_) (name : string) : option State :=
  snd <$> List.find (λ ns, String.eqb ns.1 name) (dStates d).

(** ** Validation *)

Inductive invalid :=
| NoStartAt
| NoStates
| StartUndefined (name : string)
| Dangling (from to : string)
| NoBranches (name : string)
| BadBranch (name : string) (i : nat) (e : invalid)
| NoIterator (name : string)
| BadIterator (name : string) (e : invalid).

Definition check (d : Definition_) (from to : string) : option invalid :=
  if String.eqb to "" then None
  else match state_named d to with Some _ => None | None => Some (Dangling from to) end.

(** The first error of a list of checks. *)
Definition first_of {A} (f : A → option invalid) : list A → option invalid :=
  fix go l := match l with [] => None | x :: l => match f x with Some e => Some e | None => go l end end.
Definition first_indexed {A} (f : nat → A → option invalid) : nat → list A → option invalid :=
  fix go i l := match l with [] => None | x :: l => match f i x with Some e => Some e | None => go (S i) l end end.
Definition or_else (a b : option invalid) : option invalid := match a with Some e => Some e | None => b end.

(** The transitions of a state. *)
Definition targets (s : State) : list string :=
  stNext s :: stDefault s :: map ctNext (stCatch s) ++ map Next (stChoices s).

(** validateDefinition: the first error, if any; the states are taken in the map's order. *)
Fixpoint validateDefinition (d : Definition_) {struct d} : option invalid :=
  match d with
  | mkDefinition start _ states =>
      if String.eqb start "" then Some NoStartAt
      else match states with
           | [] => Some NoStates
           | _ =>
               match state_named d start with
               | None => Some (StartUndefined start)
               | Some _ => first_of (λ ns, or_else (first_of (check d ns.1) (targets ns.2)) (validate_nested ns.1 ns.2)) states
               end
           end
  end
with validate_nested (name : string) (s : State) {struct s} : option invalid :=
  or_else
    (if String.eqb (stType s) "Parallel" then
       match stBranches s with
       | [] => Some (NoBranches name)
       | branches => first_indexed (λ i b, BadBranch name i <$> validateDefinition b) 0 branches
       end
     else None)
    (if String.eqb (stType s) "Map" then
       match stItemProcessor s with
       | Some it => BadIterator name <$> validateDefinition it
       | None => match stIterator s with
                 | Some it => BadIterator name <$> validateDefinition it
                 | None => Some (NoIterator name)
                 end
       end
     else None).
