(* ===== verification/AslEngine.v ===== *)
(** * The interpreter (statemachine/engine.go, parallelmap.go)

    An execution is a tree of engines: the top one, and under a Parallel or Map state one per branch or item,
    running concurrently over one store.  A step runs one engine through one state of its loop, or through
    one stage of a state that blocks: the invocation of a task, a sleep, the start or the end of the
    sub-executions.  What a step takes from outside is its input; the interleaving is the caller's. *)

From S2P Require Import Prelude GoStrings GoTime AslData AslChoice AslTypes.
#[local] Open Scope string_scope.
#[local] Open Scope Z_scope.
#[local] Open Scope list_scope.

(** ** Results *)

(** The causes the engine words itself, and those it passes on. *)
Inductive cause :=
| CText (s : string)
| CCancelled (e : string)
| CStopped (e : string)
| CNoSuchState (name : string)
| CExceeded
| CCheckpoint (e : string)
| CUnknownType (ty : string)
| CPath (e : path_error)
| CChoice (e : choice_error)
| CNoNext
| CNoBranches
| CNoIterator
| CNotArray (path : string)
| CSecondsPath (path : string)
| CSecondsNotNumber
| CTimestamp (s : string)
| CTimestampPath (path : string)
| CTimestampNotString
| CNoWait
| CNoChoice.

Record Result := mkResult { rsPhase : string; rsOutput : val; rsError : string; rsCause : cause }.
Definition Failed (error : string) (c : cause) : Result := mkResult "Failed" VNull error c.
Definition Succeeded (out : val) : Result := mkResult "Succeeded" out "" (CText "").
Record taskError := mkTaskError { teName : string; teCause : cause }.

(** What a state leads to. *)
Inductive transition := TNext (next : string) (data : val) | TDone (r : Result).
Definition failRuntime (c : cause) : transition := TDone (Failed ErrRuntime c).

Definition or_fail {A} (r : res path_error A) (f : A → heap * transition) (h : heap) : heap * transition :=
  match r with Ok a => f a | Err e => (h, failRuntime (CPath e)) end.

Inductive event :=
| EvCheckpoint (state : string) (data : val) (waitUntil : option Z)
| EvEntered (state : string)
| EvFailed (state error : string)
| EvRetry (state : string) (attempt : nat)
| EvCaught (state next error : string)
| EvInvoke (resource : string) (params : val)
| EvSucceeded
| EvEnd (state error : string).

(** What a step takes from outside: the clock, whether the context is cancelled, why a checkpoint (of a
    state, or of a Wait's end) is not stored, and what a task answers. *)
Record input := mkInput {
  inNow : Z;
  inCancelled : option string;
  inCheckpoint : option Z → option string;
  inAnswer : json + taskError;
}.

(** ** The tree of engines *)

Record engine := mkEngine {
  enDef : Definition_;
  enCtx : nat;
  enStart : Z;
  enResumeWait : option Z;
  enTop : bool;
}.

(** What a state with Retry and Catch runs. *)
Inductive job :=
| JTask (params : val)
| JBranches (branches : list Definition_)
| JMap (iter : Definition_) (items : list val).

Inductive proc :=
| PDone (r : Result)
| PAt (e : engine) (state : string) (data : val)
| PWait (e : engine) (name : string) (s : State) (effInput : val) (until : Z)
| PWork (e : engine) (name : string) (s : State) (effInput : val) (attempts : list nat) (j : job) (w : work)
with work :=
| WInvoke
| WSleep (d : Z)
| WSubs (slots : list slot)
with slot :=
| SWaiting (i : nat) (item : val)
| SRun (p : proc).

Definition done (p : proc) : option Result := match p with PDone r => Some r | _ => None end.
Definition slot_done (s : slot) : option Result := match s with SRun p => done p | SWaiting _ _ => None end.
Definition slot_running (s : slot) : bool :=
  match s with SRun p => match done p with Some _ => false | None => true end | SWaiting _ _ => false end.
Definition slot_waiting (s : slot) : bool := match s with SWaiting _ _ => true | SRun _ => false end.

(** ** Shared pieces *)

Section Engine.
(** math.Pow, the conversion of a float64 outside int64, and the wording of a cause. *)
Context (Pow : spec_float → spec_float → spec_float) (overflow : spec_float → Z) (message : cause → string).

#[local] Abbreviation int_of_float := (int_of_float overflow).

(** backoffDelay. *)
Definition backoffDelay (r : Retrier) (attempt : nat) : Z :=
  let secs := SFmul 53 1024 (float_of (interval r)) (Pow (backoff r) (float_of (Z.of_nat attempt))) in
  let cap := float_of (rtMaxDelaySeconds r) in
  let secs := if (0 <? rtMaxDelaySeconds r) && SFltb cap secs then cap else secs in
  int_of_float (SFmul 53 1024 secs (float_of second)).

Definition copyCtx (h : heap) (ctx : nat) : heap * nat := alloc h (default ∅ (h !! ctx)).

Definition subEngine (def : Definition_) (ctx : nat) (now : Z) : engine := mkEngine def ctx now None false.

(** advance. *)
Definition advance (s : State) (out : val) : transition :=
  if stEnd s then TDone (Succeeded out)
  else if String.eqb (stNext s) "" then failRuntime CNoNext
  else TNext (stNext s) out.

(** The result of a state placed and narrowed, and the way on. *)
Definition shape (h : heap) (ctx : nat) (s : State) (effInput result : val) : heap * transition :=
  or_fail (applyResultPath h effInput result (orDefault (stResultPath s) "$")) (λ '(h, combined),
  or_fail (applyOutputPath h combined ctx (orDefault (stOutputPath s) "$")) (λ '(h, out),
  (h, advance s out)) h) h.

(** The engine after a transition, and what it records when it ends. *)
Definition land (e : engine) (state : string) (t : transition) : proc * list event :=
  match t with
  | TNext next data => (PAt e next data, [])
  | TDone r => (PDone r, [if String.eqb (rsPhase r) "Succeeded" then EvSucceeded else EvEnd state (rsError r)])
  end.

(** ** Sub-executions *)

(** runBranches starts every branch, each over its own copy of the context object. *)
Definition start_branches (h : heap) (ctx : nat) (now : Z) (input : val) (bs : list Definition_) : heap * list slot :=
  each (λ h b, let '(h, c) := copyCtx h ctx in (h, SRun (PAt (subEngine b c now) (dStartAt b) input))) h bs.

Definition begin_work (h : heap) (e : engine) (effInput : val) (now : Z) (j : job) : heap * work :=
  match j with
  | JTask _ => (h, WInvoke)
  | JBranches bs => let '(h, slots) := start_branches h (enCtx e) now effInput bs in (h, WSubs slots)
  | JMap _ items => (h, WSubs (imap SWaiting items))
  end.

(** One item's sub-execution: its context with $$.Map.Item, and its input shaped by the template. *)
Definition start_item (h : heap) (e : engine) (s : State) (iter : Definition_) (now : Z) (i : nat) (item : val)
    : heap * proc :=
  let '(h, c) := copyCtx h (enCtx e) in
  let '(h, it) := alloc h (<["Index" := VNum (float_of (Z.of_nat i))]> {["Value" := item]}) in
  let '(h, m) := alloc h {["Item" := VMap it]} in
  let h := write h c "Map" (VMap m) in
  match resolveParameters (itemTemplate s) h item c with
  | Err err => (h, PDone (Failed ErrRuntime (CPath err)))
  | Ok (h, input) => (h, PAt (subEngine iter c now) (dStartAt iter) input)
  end.

(** MaxConcurrency: how many sub-executions may run at once. *)
Definition concurrency (s : State) (slots : list slot) : nat :=
  if (stMaxConcurrency s <=? 0) || (Z.of_nat (length slots) <? stMaxConcurrency s) then length slots
  else Z.to_nat (stMaxConcurrency s).

(** The outputs in order, or the first failure by order. *)
Fixpoint collect (rs : list Result) : val + taskError :=
  match rs with
  | [] => inl (VArr [])
  | r :: rs =>
      if String.eqb (rsPhase r) "Succeeded" then
        match collect rs with inl (VArr outs) => inl (VArr (rsOutput r :: outs)) | inl v => inl v | inr e => inr e end
      else inr (mkTaskError (rsError r) (rsCause r))
  end.

(** ** Retry and Catch *)

Definition firstMatch {A} (f : A → bool) (l : list A) : option (nat * A) :=
  (fix go i l := match l with [] => None | x :: l => if f x then Some (i, x) else go (S i) l end) 0%nat l.

(** What follows one run of the work. *)
Definition after_work (h : heap) (e : engine) (name : string) (s : State) (effInput : val) (attempts : list nat) (j : job)
    (r : val + taskError) : heap * proc * list event :=
  match r with
  | inl result =>
      let '(h, t) := shape h (enCtx e) s effInput result in
      let '(p, evs) := land e name t in (h, p, evs)
  | inr err =>
      let caught :=
        match firstMatch (λ c, matchesError (ctErrorEquals c) (teName err)) (stCatch s) with
        | Some (_, c) =>
            let '(h, o) := alloc h (<["Error" := VStr (teName err)]> {["Cause" := VStr (message (teCause err))]}) in
            match applyResultPath h effInput (VMap o) (orDefault (ctResultPath c) "$") with
            | Err pe => let '(p, evs) := land e name (failRuntime (CPath pe)) in (h, p, evs)
            | Ok (h, cd) => (h, PAt e (ctNext c) cd, [EvCaught name (ctNext c) (teName err)])
            end
        | None => let '(p, evs) := land e name (TDone (Failed (teName err) (teCause err))) in (h, p, evs)
        end in
      let '(h, p, evs) :=
        match firstMatch (λ r, matchesError (rtErrorEquals r) (teName err)) (stRetry s) with
        | Some (ri, r) =>
            let n := default 0%nat (attempts !! ri) in
            if Z.of_nat n <? maxAttempts r
            then (h, PWork e name s effInput (<[ri := S n]> attempts) j (WSleep (backoffDelay r n)), [EvRetry name (S n)])
            else caught
        | None => caught
        end in
      (h, p, EvFailed name (teName err) :: evs)
  end.

(** runRetryCatch begins. *)
Definition runRetryCatch (h : heap) (e : engine) (name : string) (s : State) (effInput : val) (now : Z) (j : job)
    : heap * proc * list event :=
  let '(h, w) := begin_work h e effInput now j in
  (h, PWork e name s effInput (map (λ _, 0%nat) (stRetry s)) j w, []).

(** ** The states *)

Definition run_pass (h : heap) (e : engine) (s : State) (data : val) : heap * transition :=
  let ctx := enCtx e in
  or_fail (applyInputPath h data ctx (orDefault (stInputPath s) "$")) (λ '(h, effInput),
  or_fail (match stResult s with
           | Some j => Ok (decode h j)
           | None => match stParameters s with Some _ => resolveParameters (stParameters s) h effInput ctx | None => Ok (h, effInput) end
           end) (λ '(h, result), shape h ctx s effInput result) h) h.

Definition run_succeed (h : heap) (e : engine) (s : State) (data : val) : heap * transition :=
  or_fail (applyInputPath h data (enCtx e) (orDefault (stInputPath s) "$")) (λ '(h, effInput),
  or_fail (applyOutputPath h effInput (enCtx e) (orDefault (stOutputPath s) "$")) (λ '(h, out),
  (h, TDone (Succeeded out))) h) h.

Definition go_to (h : heap) (e : engine) (s : State) (effInput : val) (next : string) : heap * transition :=
  or_fail (applyOutputPath h effInput (enCtx e) (orDefault (stOutputPath s) "$")) (λ '(h, out), (h, TNext next out)) h.

Definition choose (h : heap) (e : engine) (s : State) (effInput : val) : list ChoiceRule → heap * transition :=
  fix go rules :=
    match rules with
    | [] => if String.eqb (stDefault s) "" then (h, TDone (Failed "States.NoChoiceMatched" CNoChoice))
            else go_to h e s effInput (stDefault s)
    | rule :: rules =>
        match eval h effInput (enCtx e) rule with
        | Err err => (h, failRuntime (CChoice err))
        | Ok true => go_to h e s effInput (Next rule)
        | Ok false => go rules
        end
    end.
Definition run_choice (h : heap) (e : engine) (s : State) (data : val) : heap * transition :=
  or_fail (applyInputPath h data (enCtx e) (orDefault (stInputPath s) "$")) (λ '(h, effInput), choose h e s effInput (stChoices s)) h.

(** When a Wait resumes. *)
Definition wait_until (h : heap) (e : engine) (s : State) (effInput : val) (now : Z) : Z + cause :=
  match enResumeWait e with
  | Some t => inl t
  | None =>
      match stSeconds s with
      | Some n => inl (now + int64 (n * second))
      | None =>
          if negb (String.eqb (stSecondsPath s) "") then
            match getPath h effInput (enCtx e) (stSecondsPath s) with
            | Ok (Some (VNum f)) => inl (now + int64 (int_of_float f * second))
            | Ok (Some _) => inr CSecondsNotNumber
            | _ => inr (CSecondsPath (stSecondsPath s))
            end
          else if negb (String.eqb (stTimestamp s) "") then
            match ParseRFC3339 (stTimestamp s) with Some t => inl t | None => inr (CTimestamp (stTimestamp s)) end
          else if negb (String.eqb (stTimestampPath s) "") then
            match getPath h effInput (enCtx e) (stTimestampPath s) with
            | Ok (Some v) => match ParseRFC3339 (match v with VStr s => s | _ => "" end) with
                             | Some t => inl t | None => inr CTimestampNotString end
            | _ => inr (CTimestampPath (stTimestampPath s))
            end
          else inr CNoWait
      end
  end.
Definition consume_resume (e : engine) : engine := mkEngine (enDef e) (enCtx e) (enStart e) None (enTop e).

(** The checkpoint of the top engine; a nested engine has none. *)
Definition checkpoint (e : engine) (i : input) (state : string) (data : val) (waitUntil : option Z) : list event + cause :=
  if enTop e then match inCheckpoint i waitUntil with None => inl [EvCheckpoint state data waitUntil] | Some err => inr (CCheckpoint err) end
  else inl [].

Definition landed (e : engine) (state : string) (ht : heap * transition) : heap * proc * list event :=
  let '(h, t) := ht in let '(p, evs) := land e state t in (h, p, evs).

(** The state's input after InputPath, for the states that go on with it. *)
Definition with_input (h : heap) (e : engine) (name : string) (s : State) (data : val)
    (f : heap → val → heap * proc * list event) : heap * proc * list event :=
  match applyInputPath h data (enCtx e) (orDefault (stInputPath s) "$") with
  | Ok (h, effInput) => f h effInput
  | Err err => landed e name (h, failRuntime (CPath err))
  end.

Definition run_wait (h : heap) (e : engine) (i : input) (name : string) (s : State) (data : val) : heap * proc * list event :=
  with_input h e name s data (λ h effInput,
    match wait_until h e s effInput (inNow i) with
    | inr c => landed e name (h, failRuntime c)
    | inl until =>
        match checkpoint e i name effInput (Some until) with
        | inr c => landed (consume_resume e) name (h, failRuntime c)
        | inl evs => (h, PWait (consume_resume e) name s effInput until, evs)
        end
    end).

Definition run_task (h : heap) (e : engine) (i : input) (name : string) (s : State) (data : val) : heap * proc * list event :=
  with_input h e name s data (λ h effInput,
    match resolveParameters (stParameters s) h effInput (enCtx e) with
    | Err err => landed e name (h, failRuntime (CPath err))
    | Ok (h, params) => runRetryCatch h e name s effInput (inNow i) (JTask params)
    end).

Definition run_parallel (h : heap) (e : engine) (i : input) (name : string) (s : State) (data : val) : heap * proc * list event :=
  with_input h e name s data (λ h effInput,
    match stBranches s with
    | [] => landed e name (h, failRuntime CNoBranches)
    | bs => runRetryCatch h e name s effInput (inNow i) (JBranches bs)
    end).

Definition run_map (h : heap) (e : engine) (i : input) (name : string) (s : State) (data : val) : heap * proc * list event :=
  with_input h e name s data (λ h effInput,
    match iteratorDef s with
    | None => landed e name (h, failRuntime CNoIterator)
    | Some iter =>
        let path := orDefault (stItemsPath s) "$" in
        match applyInputPath h effInput (enCtx e) path with
        | Err err => landed e name (h, failRuntime (CPath err))
        | Ok (h, VArr items) => runRetryCatch h e name s effInput (inNow i) (JMap iter items)
        | Ok (h, _) => landed e name (h, failRuntime (CNotArray path))
        end
    end).

(** The state by its type. *)
Definition dispatch (h : heap) (e : engine) (i : input) (name : string) (s : State) (data : val) : heap * proc * list event :=
  let ty := stType s in
  if String.eqb ty "Task" then run_task h e i name s data
  else if String.eqb ty "Pass" then landed e name (run_pass h e s data)
  else if String.eqb ty "Wait" then run_wait h e i name s data
  else if String.eqb ty "Choice" then landed e name (run_choice h e s data)
  else if String.eqb ty "Succeed" then landed e name (run_succeed h e s data)
  else if String.eqb ty "Fail" then landed e name (h, TDone (Failed (stError s) (CText (stCause s))))
  else if String.eqb ty "Parallel" then run_parallel h e i name s data
  else if String.eqb ty "Map" then run_map h e i name s data
  else landed e name (h, failRuntime (CUnknownType ty)).

(** One turn of Run's loop. *)
Definition enter_state (h : heap) (e : engine) (i : input) (state : string) (data : val) : heap * proc * list event :=
  match inCancelled i with
  | Some err => (h, PDone (Failed ErrRuntime (CCancelled err)), [])
  | None =>
      match state_named (enDef e) state with
      | None => (h, PDone (Failed ErrRuntime (CNoSuchState state)), [])
      | Some s =>
          if (0 <? dTimeoutSeconds (enDef e)) && (int64 (dTimeoutSeconds (enDef e) * second) <? inNow i - enStart e)
          then (h, PDone (mkResult "TimedOut" VNull ErrTimeout CExceeded), [])
          else
            let '(h, o) := alloc h (<["Name" := VStr state]> {["EnteredTime" := VStr (FormatRFC3339 (inNow i))]}) in
            let h := write h (enCtx e) "State" (VMap o) in
            match checkpoint e i state data None with
            | inr c => (h, PDone (Failed ErrRuntime c), [])
            | inl evs => let '(h, p, evs') := dispatch h e i state s data in (h, p, evs ++ EvEntered state :: evs')
            end
      end
  end.

(** ** Steps *)

Definition end_wait (h : heap) (e : engine) (i : input) (name : string) (s : State) (effInput : val) (until : Z)
    : heap * proc * list event :=
  match (if 0 <? until - inNow i then inCancelled i else None) with
  | Some err => landed e name (h, failRuntime (CStopped err))
  | None => landed e name (or_fail (applyOutputPath h effInput (enCtx e) (orDefault (stOutputPath s) "$"))
                             (λ '(h, out), (h, advance s out)) h)
  end.

Definition end_sleep (h : heap) (e : engine) (i : input) (name : string) (s : State) (effInput : val) (attempts : list nat)
    (j : job) (d : Z) : heap * proc * list event :=
  match (if 0 <? d then inCancelled i else None) with
  | Some err => landed e name (h, failRuntime (CStopped err))
  | None => let '(h, w) := begin_work h e effInput (inNow i) j in (h, PWork e name s effInput attempts j w, [])
  end.

Definition end_invoke (h : heap) (e : engine) (i : input) (name : string) (s : State) (effInput : val) (attempts : list nat)
    (params : val) : heap * proc * list event :=
  let '(h, r) := match inAnswer i with
                 | inl j => let '(h, v) := decode h j in (h, inl v)
                 | inr err => (h, inr err)
                 end in
  let '(h, p, evs) := after_work h e name s effInput attempts (JTask params) r in
  (h, p, EvInvoke (stResource s) params :: evs).

(** The first sub-execution not yet started. *)
Definition next_waiting (slots : list slot) : option (nat * (nat * val)) :=
  match firstMatch slot_waiting slots with Some (k, SWaiting i item) => Some (k, (i, item)) | _ => None end.

(** Of the sub-executions together: the next one starts, or all have ended. *)
Definition step_subs (h : heap) (e : engine) (i : input) (name : string) (s : State) (effInput : val) (attempts : list nat)
    (j : job) (slots : list slot) : option (heap * proc * list event) :=
  match next_waiting slots, j with
  | Some (k, (n, item)), JMap iter _ =>
      if (length (filter (λ s, slot_running s = true) slots) <? concurrency s slots)%nat then
        let '(h, p) := start_item h e s iter (inNow i) n item in
        Some (h, PWork e name s effInput attempts j (WSubs (<[k := SRun p]> slots)), [])
      else None
  | _, _ =>
      rs ← mapM slot_done slots;
      Some (after_work h e name s effInput attempts j (collect rs))
  end.

(** One step of the engine the path leads to. *)
Fixpoint step (path : list nat) (i : input) (h : heap) (p : proc) {struct path} : option (heap * proc * list event) :=
  match p, path with
  | PDone _, _ => None
  | PAt e state data, [] => Some (enter_state h e i state data)
  | PWait e name s effInput until, [] => Some (end_wait h e i name s effInput until)
  | PWork e name s effInput attempts j (WSleep d), [] => Some (end_sleep h e i name s effInput attempts j d)
  | PWork e name s effInput attempts (JTask params) WInvoke, [] => Some (end_invoke h e i name s effInput attempts params)
  | PWork e name s effInput attempts j (WSubs slots), [] => step_subs h e i name s effInput attempts j slots
  | PWork e name s effInput attempts j (WSubs slots), k :: path =>
      match slots !! k with
      | Some (SRun q) =>
          '(h, q, evs) ← step path i h q;
          Some (h, PWork e name s effInput attempts j (WSubs (<[k := SRun q]> slots)), evs)
      | _ => None
      end
  | _, _ => None
  end.

(** A run along a schedule: at each step, the engine that moves and its input. *)
Fixpoint run (sched : list (list nat * input)) (h : heap) (p : proc) : option (heap * proc * list event) :=
  match sched with
  | [] => Some (h, p, [])
  | (path, i) :: sched =>
      '(h, p, evs) ← step path i h p;
      '(h, p, evs') ← run sched h p;
      Some (h, p, evs ++ evs')
  end.
End Engine.
