(* ===== verification/AslRun.v ===== *)
(** * What an execution does (statemachine)

    The step relation of AslEngine: validated documents never lose their way, a Map keeps to its
    concurrency, no execution is ever stuck, and one without cycles ends on every schedule. *)

From S2P Require Import Prelude GoStrings GoTime Json AslData AslChoice AslTypes AslEngine.
#[local] Open Scope string_scope.
#[local] Open Scope Z_scope.
#[local] Open Scope list_scope.

(** ** Definitions inside definitions *)

Definition nested (s : State) : list Definition_ :=
  stBranches s ++ option_list (stIterator s) ++ option_list (stItemProcessor s).

Lemma Definition_nested_ind (P : Definition_ → Prop) :
  (∀ d, Forall (λ ns, Forall P (nested ns.2)) (dStates d) → P d) → ∀ d, P d.
Proof.
  intros H. fix IH 1. intros [start timeout states]. apply H. cbn [dStates].
  assert (Hopt : ∀ o : option Definition_, (match o with Some d => P d | None => True end) → Forall P (option_list o)).
  { intros [d|] Hd; repeat constructor; done. }
  induction states as [|[n s] states IHs]; constructor; [|exact IHs]. cbn [snd]. unfold nested.
  destruct s as [? ? ? ? ? ? ? ? ? ? ? ? ? ? ? ? ? ? ? ? branches iter proc_ ? ? ?].
  cbn [stBranches stIterator stItemProcessor]. apply Forall_app. split.
  - induction branches as [|b branches IHb]; constructor; [apply IH|exact IHb].
  - apply Forall_app. split; apply Hopt; [destruct iter|destruct proc_]; try exact I; apply IH.
Qed.

Lemma state_named_elem d n s : state_named d n = Some s → (n, s) ∈ dStates d.
Proof.
  unfold state_named. destruct (List.find _ (dStates d)) as [[n' s']|] eqn:E; [|done]. intros [= <-].
  apply List.find_some in E as [Hin Hn]. apply String.eqb_eq in Hn. cbn in Hn. subst. by apply list_elem_of_In.
Qed.

(** ** Validated definitions *)

(** The definitions a state runs as sub-executions. *)
Definition runs (s : State) : list Definition_ :=
  if String.eqb (stType s) "Parallel" then stBranches s
  else if String.eqb (stType s) "Map" then option_list (iteratorDef s) else [].

Inductive closed : Definition_ → Prop :=
| closed_intro d :
    is_Some (state_named d (dStartAt d)) →
    (∀ n s to, (n, s) ∈ dStates d → to ∈ targets s → to = "" ∨ is_Some (state_named d to)) →
    (∀ n s b, (n, s) ∈ dStates d → b ∈ runs s → closed b) →
    closed d.

Lemma first_of_None {A} (f : A → option invalid) l : first_of f l = None ↔ Forall (λ x, f x = None) l.
Proof.
  induction l as [|x l IH]; cbn; [by split|]. rewrite Forall_cons, <- IH. destruct (f x); naive_solver.
Qed.
Lemma first_indexed_None {A} (f : nat → A → option invalid) i l :
  first_indexed f i l = None → ∀ x, x ∈ l → ∃ j, f j x = None.
Proof.
  revert i. induction l as [|x l IH]; intros i; cbn; [set_solver|].
  destruct (f i x) eqn:E; [done|]. intros H y [->|Hy]%elem_of_cons; [by exists i|]. by apply (IH (S i)).
Qed.
Lemma or_else_None a b : or_else a b = None ↔ a = None ∧ b = None.
Proof. destruct a; naive_solver. Qed.

Lemma validate_nested_runs name s :
  validate_nested name s = None → ∀ b, b ∈ runs s → b ∈ nested s ∧ validateDefinition b = None.
Proof.
  destruct s as [ty ? ? ? ? ? ? ? ? ? ? ? ? ? ? ? ? ? ? ? branches iter proc_ ? ? ?].
  cbn [validate_nested]. unfold runs, nested, iteratorDef. cbn [stType stBranches stIterator stItemProcessor].
  intros [Hp Hm]%or_else_None b Hb. rewrite !elem_of_app.
  destruct (String.eqb_spec ty "Parallel") as [->|Hty].
  - destruct branches as [|b0 branches]; [done|]. split; [by left|].
    destruct (first_indexed_None _ _ _ Hp b Hb) as [i Hi]. by destruct (validateDefinition b).
  - destruct (String.eqb ty "Map"); [|by apply not_elem_of_nil in Hb].
    destruct proc_ as [it|]; [|destruct iter as [it|]; [|done]]; apply list_elem_of_singleton in Hb as ->;
      (split; [cbn; set_solver|]); by destruct (validateDefinition it).
Qed.

(** A definition that passes validation is closed: its start and every transition it names are defined, in
    the sub-executions too. *)
Lemma validate_closed d : validateDefinition d = None → closed d.
Proof.
  induction d as [d IH] using Definition_nested_ind. rewrite Forall_forall in IH.
  destruct d as [start timeout states]. cbn [validateDefinition dStates] in *.
  destruct (String.eqb start ""); [done|]. intros H.
  assert (Hv : is_Some (state_named (mkDefinition start timeout states) start) ∧
    Forall (λ ns, or_else (first_of (check (mkDefinition start timeout states) ns.1) (targets ns.2))
                    (validate_nested ns.1 ns.2) = None) states).
  { destruct states; [done|]. destruct (state_named _ start) as [s0|]; [|done]. split; [by eauto|]. by apply first_of_None. }
  clear H. destruct Hv as [Hstart Hall]. rewrite Forall_forall in Hall. apply closed_intro; [done| |].
  - intros n s to Hin Hto. specialize (Hall _ Hin). cbn [fst snd] in Hall. apply or_else_None in Hall as [Hc _].
    apply first_of_None in Hc. rewrite Forall_forall in Hc. specialize (Hc _ Hto). unfold check in Hc.
    destruct (String.eqb_spec to ""); [by left|]. destruct (state_named _ to); [right; by eauto|done].
  - intros n s b Hin Hb. specialize (Hall _ Hin). cbn [fst snd] in Hall. apply or_else_None in Hall as [_ Hn].
    destruct (validate_nested_runs _ _ Hn _ Hb) as [Hnest Hval].
    specialize (IH _ Hin). cbn in IH. rewrite Forall_forall in IH. by apply IH.
Qed.

Section Run.
Context (Pow : spec_float → spec_float → spec_float) (overflow : spec_float → Z) (message : cause → string).
#[local] Abbreviation step := (step Pow overflow message).
#[local] Abbreviation after_work := (after_work Pow overflow message).
#[local] Abbreviation dispatch := (dispatch overflow).
#[local] Abbreviation enter_state := (enter_state overflow).

(** ** Where a state leads *)

(** A cause the engine words itself, other than a missing state. *)
Definition own (c : cause) : Prop := ∀ n, c ≠ CNoSuchState n.

Section Leaves.
Context (C : cause → Prop) (HC : ∀ c, own c → C c) (s : State).

Definition leads (t : transition) : Prop :=
  match t with TNext next _ => next ∈ targets s | TDone r => C (rsCause r) end.

(** The engine ends, or goes on with a state the present one names. *)
Inductive leaves (e : engine) : proc → Prop :=
| leaves_done r : C (rsCause r) → leaves e (PDone r)
| leaves_next e' to data : enDef e' = enDef e → to ∈ targets s → leaves e (PAt e' to data).

Lemma landed_leaves e name ht : leads ht.2 → leaves e (landed e name ht).1.2.
Proof. unfold landed, land. destruct ht as [h [next data|r]]; cbn; [by apply leaves_next|by apply leaves_done]. Qed.

Lemma failRuntime_leads c : own c → leads (failRuntime c).
Proof. apply HC. Qed.
Lemma or_fail_leads {A} (r : res path_error A) f h : (∀ a, r = Ok a → leads (f a).2) → leads (or_fail r f h).2.
Proof. destruct r as [a|e]; cbn; [by intros H; apply H|]. intros _. by apply HC. Qed.

Lemma advance_leads out : leads (advance s out).
Proof.
  unfold advance. destruct (stEnd s); [by apply HC|]. destruct (String.eqb (stNext s) ""); [by apply HC|]. cbn. by left.
Qed.
Lemma shape_leads h ctx effInput result : leads (shape h ctx s effInput result).2.
Proof.
  unfold shape. apply or_fail_leads. intros [h1 c] _. apply or_fail_leads. intros [h2 o] _. apply advance_leads.
Qed.
Lemma go_to_leads h e effInput next : next ∈ targets s → leads (go_to h e s effInput next).2.
Proof. intros H. unfold go_to. apply or_fail_leads. by intros [h1 o] _. Qed.

Lemma choose_leads h e effInput rules : (∀ r, r ∈ rules → Next r ∈ targets s) → leads (choose h e s effInput rules).2.
Proof.
  induction rules as [|r rules IH]; intros H; cbn [choose].
  - destruct (String.eqb (stDefault s) ""); [by apply HC|]. apply go_to_leads. right. by left.
  - destruct (eval h effInput (enCtx e) r) as [[]|]; [apply go_to_leads, H; by left| |by apply HC].
    apply IH. intros r' Hr'. apply H. by right.
Qed.

Lemma run_pass_leads h e data : leads (run_pass h e s data).2.
Proof. unfold run_pass. apply or_fail_leads. intros [h1 i] _. apply or_fail_leads. intros [h2 r] _. apply shape_leads. Qed.
Lemma run_succeed_leads h e data : leads (run_succeed h e s data).2.
Proof. unfold run_succeed. apply or_fail_leads. intros [h1 i] _. apply or_fail_leads. intros [h2 r] _. by apply HC. Qed.
Lemma run_choice_leads h e data : leads (run_choice h e s data).2.
Proof.
  unfold run_choice. apply or_fail_leads. intros [h1 i] _. apply choose_leads. intros r Hr. right. right.
  apply elem_of_app. right. by apply list_elem_of_fmap_2.
Qed.
End Leaves.

Lemma firstMatch_Some {A} (f : A → bool) l i x : firstMatch f l = Some (i, x) → l !! i = Some x ∧ f x = true.
Proof.
  unfold firstMatch.
  enough (H : ∀ k i, (fix go i l := match l with [] => None | y :: l => if f y then Some (i, y) else go (S i) l end) k l = Some (i, x) →
    (k ≤ i)%nat ∧ l !! (i - k)%nat = Some x ∧ f x = true).
  { intros (_ & Hl & Hf)%H. by rewrite Nat.sub_0_r in Hl. }
  clear. induction l as [|y l IH]; intros k i; [done|]. destruct (f y) eqn:E.
  - intros [= <- <-]. rewrite Nat.sub_diag. done.
  - intros (Hk & Hl & Hf)%IH. split_and!; [lia| |done]. by replace (i - k)%nat with (S (i - S k))%nat by lia.
Qed.

(** A retry: the attempts of one retrier go up, within its bound. *)
Definition retried (s : State) (att att' : list nat) : Prop :=
  ∃ ri r n, stRetry s !! ri = Some r ∧ n = default 0%nat (att !! ri) ∧ Z.of_nat n < maxAttempts r ∧ att' = <[ri := S n]> att.

Lemma after_work_spec (h : heap) e name s effInput att j r :
  let p := (after_work h e name s effInput att j r).1.2 in
  leaves (λ c, own c ∨ ∃ err, r = inr err ∧ c = teCause err) s e p ∨
  (∃ att' d, p = PWork e name s effInput att' j (WSleep d) ∧ retried s att att').
Proof.
  cbv zeta. set (C := λ c, own c ∨ _).
  assert (HC : ∀ c, own c → C c) by by left. unfold AslEngine.after_work. destruct r as [result|err].
  { left. pose proof (shape_leads C HC s h (enCtx e) effInput result) as Hl.
    destruct (shape h (enCtx e) s effInput result) as [h1 t]. pose proof (landed_leaves C s e name (h1, t) Hl) as H.
    unfold landed in H. by destruct (land e name t). }
  set (caught := match firstMatch _ (stCatch s) with Some _ => _ | None => _ end).
  assert (Hc : leaves C s e caught.1.2).
  { unfold caught. destruct (firstMatch _ (stCatch s)) as [[ci c]|] eqn:Ec.
    - cbn [alloc]. destruct (applyResultPath _ _ _ _) as [[h1 cd]|pe].
      + cbn. apply leaves_next; [done|]. right. right. apply elem_of_app. left.
        apply firstMatch_Some in Ec as [Hl _]. apply list_elem_of_fmap. exists c. split; [done|]. by eapply list_elem_of_lookup_2.
      + cbn. by apply leaves_done, HC.
    - cbn. apply leaves_done. right. by exists err. }
  clearbody caught. destruct (firstMatch _ (stRetry s)) as [[ri rt]|] eqn:Er.
  - destruct (Z.ltb_spec (Z.of_nat (default 0%nat (att !! ri))) (maxAttempts rt)) as [Hlt|].
    + cbn. right. eexists _, _. split; [done|]. exists ri, rt, (default 0%nat (att !! ri)).
      apply firstMatch_Some in Er as [Hl _]. by split_and!.
    + left. destruct caught as [[h1 p] evs]. exact Hc.
  - left. destruct caught as [[h1 p] evs]. exact Hc.
Qed.

(** ** What a state begins *)

Definition job_of (s : State) (j : job) : Prop :=
  match j with
  | JTask _ => True
  | JBranches bs => stType s = "Parallel" ∧ bs = stBranches s
  | JMap it _ => stType s = "Map" ∧ iteratorDef s = Some it
  end.

Inductive begins (e : engine) (name : string) (s : State) : proc → Prop :=
| begins_leave p : leaves own s e p → begins e name s p
| begins_wait e' effInput until : enDef e' = enDef e → begins e name s (PWait e' name s effInput until)
| begins_work h0 now effInput j h1 w :
    job_of s j → begin_work h0 e effInput now j = (h1, w) →
    begins e name s (PWork e name s effInput (map (λ _, 0%nat) (stRetry s)) j w).

Lemma with_input_begins (h : heap) e name s data f :
  (∀ (h : heap) v, begins e name s (f h v).1.2) → begins e name s (with_input h e name s data f).1.2.
Proof.
  intros H. unfold with_input. destruct (applyInputPath _ _ _ _) as [[h1 v]|err]; [apply H|].
  apply begins_leave, landed_leaves. by apply failRuntime_leads.
Qed.
Lemma fail_begins e e' name s (h : heap) c : own c → enDef e' = enDef e → begins e name s (landed e' name (h, failRuntime c)).1.2.
Proof. intros Hc He. apply begins_leave, leaves_done. exact Hc. Qed.
Lemma retry_begins (h : heap) e name s effInput now j : job_of s j → begins e name s (runRetryCatch h e name s effInput now j).1.2.
Proof.
  intros Hj. unfold runRetryCatch. destruct (begin_work h e effInput now j) as [h1 w] eqn:E. cbn. by eapply begins_work.
Qed.
Lemma land_begins e name s (ht : heap * transition) : leads own s ht.2 → begins e name s (landed e name ht).1.2.
Proof. intros H. by apply begins_leave, landed_leaves. Qed.

Lemma wait_until_own (h : heap) e s effInput now c : wait_until overflow h e s effInput now = inr c → own c.
Proof.
  unfold wait_until. intros H. repeat case_match; simplify_eq; intros n; done.
Qed.

Lemma dispatch_begins (h : heap) e i name s data : begins e name s (dispatch h e i name s data).1.2.
Proof.
  unfold AslEngine.dispatch. pose proof (λ c (Hc : own c), Hc) as HC.
  destruct (String.eqb_spec (stType s) "Task").
  { apply with_input_begins. intros h1 v. destruct (resolveParameters _ _ _ _) as [[h2 params]|err];
      [by apply retry_begins|by apply fail_begins]. }
  destruct (String.eqb_spec (stType s) "Pass"); [by apply land_begins, run_pass_leads|].
  destruct (String.eqb_spec (stType s) "Wait").
  { apply with_input_begins. intros h1 v. destruct (wait_until overflow h1 e s v (inNow i)) as [u|c] eqn:Ew.
    - destruct (checkpoint e i name v (Some u)) as [evs|c] eqn:Ec; [by apply begins_wait|].
      apply fail_begins; [|done]. unfold checkpoint in Ec. repeat case_match; simplify_eq. by intros ?.
    - apply fail_begins; [|done]. by eapply wait_until_own. }
  destruct (String.eqb_spec (stType s) "Choice"); [by apply land_begins, run_choice_leads|].
  destruct (String.eqb_spec (stType s) "Succeed"); [by apply land_begins, run_succeed_leads|].
  destruct (String.eqb_spec (stType s) "Fail"); [by apply land_begins|].
  destruct (String.eqb_spec (stType s) "Parallel").
  { apply with_input_begins. intros h1 v. destruct (stBranches s) as [|b bs] eqn:Eb; [by apply fail_begins|].
    apply retry_begins. cbn. by rewrite Eb. }
  destruct (String.eqb_spec (stType s) "Map"); [|by apply land_begins].
  apply with_input_begins. intros h1 v. destruct (iteratorDef s) as [it|] eqn:Ei; [|by apply fail_begins].
  cbv zeta. destruct (applyInputPath _ _ _ _) as [[h2 items]|err]; [|by apply fail_begins].
  destruct items; try (by apply fail_begins). by apply retry_begins.
Qed.

(** ** The invariant of an execution *)

Definition defined_or_empty (d : Definition_) (n : string) : Prop := n = "" ∨ is_Some (state_named d n).
(** A missing state is only ever the one without a name. *)
Definition no_lost (c : cause) : Prop := ∀ n, c = CNoSuchState n → n = "".
Definition running (slots : list slot) : nat := length (filter (λ s, slot_running s = true) slots).

(** A state's work is of its own kind, and its running sub-executions keep to the bound. *)
Definition work_fits (s : State) (j : job) (w : work) : Prop :=
  match j, w with
  | _, WSleep _ => True
  | JTask _, WInvoke => True
  | JBranches _, WSubs slots => Forall (λ x, slot_waiting x = false) slots
  | JMap _ _, WSubs slots => (running slots ≤ concurrency s slots)%nat
  | _, _ => False
  end.

Inductive ok : proc → Prop :=
| ok_done r : no_lost (rsCause r) → ok (PDone r)
| ok_at e state data : closed (enDef e) → defined_or_empty (enDef e) state → ok (PAt e state data)
| ok_wait e name s effInput until :
    closed (enDef e) → state_named (enDef e) name = Some s → ok (PWait e name s effInput until)
| ok_work e name s effInput att j w :
    closed (enDef e) → state_named (enDef e) name = Some s → job_of s j → work_fits s j w →
    (∀ slots q, w = WSubs slots → SRun q ∈ slots → ok q) →
    ok (PWork e name s effInput att j w).

Lemma closed_target d n s to : closed d → state_named d n = Some s → to ∈ targets s → defined_or_empty d to.
Proof. intros Hc Hs%state_named_elem. destruct Hc as [d _ Ht _]. by apply (Ht n s). Qed.
Lemma closed_runs d n s b : closed d → state_named d n = Some s → b ∈ runs s → closed b.
Proof. intros Hc Hs%state_named_elem. destruct Hc as [d _ _ Hr]. by apply (Hr n s). Qed.
Lemma closed_start d : closed d → defined_or_empty d (dStartAt d).
Proof. intros [d' Hs _ _]. by right. Qed.

Lemma own_no_lost c : own c → no_lost c.
Proof. intros H n ->. by destruct (H n). Qed.

Lemma leaves_ok C e name s p :
  (∀ c, C c → no_lost c) → closed (enDef e) → state_named (enDef e) name = Some s → leaves C s e p → ok p.
Proof.
  intros HC Hc Hs [r Hr|e' to data He Hto]; [by apply ok_done, HC|].
  apply ok_at; rewrite He; [done|]. by eapply closed_target.
Qed.

Lemma job_runs s j : job_of s j →
  match j with JTask _ => True | JBranches bs => ∀ b, b ∈ bs → b ∈ runs s | JMap it _ => it ∈ runs s end.
Proof.
  destruct j as [|bs|it items]; [done| |]; unfold runs; cbn.
  - intros [-> ->]. done.
  - intros [-> ->]. cbn. by left.
Qed.

Lemma each_Forall {A B} (P : B → Prop) (f : heap → A → heap * B) (h : heap) l :
  (∀ (h : heap) x, x ∈ l → P (f h x).2) → Forall P (each f h l).2.
Proof.
  revert h. induction l as [|x l IH]; intros h H; cbn; [constructor|].
  destruct (f h x) as [h1 y] eqn:E1. fold (each f h1 l). destruct (each f h1 l) as [h2 ys] eqn:E2. cbn. constructor.
  - specialize (H h x ltac:(by left)). by rewrite E1 in H.
  - specialize (IH h1 ltac:(intros; apply H; by right)). by rewrite E2 in IH.
Qed.

Lemma waiting_not_running items : running (imap SWaiting items) = 0%nat.
Proof.
  unfold running. enough (H : Forall (λ s, slot_running s = false) (imap SWaiting items)).
  { induction H as [|s l Hs _ IH]; [done|]. rewrite filter_cons_False by congruence. exact IH. }
  apply Forall_forall. intros s (i & x & -> & _)%elem_of_lookup_imap. done.
Qed.

(** The work a state begins fits it, and its sub-executions are fresh. *)
Lemma begin_work_spec h0 e effInput now s j h1 w :
  job_of s j → begin_work h0 e effInput now j = (h1, w) →
  work_fits s j w ∧
  (∀ slots q, w = WSubs slots → SRun q ∈ slots →
     ∃ b c, b ∈ runs s ∧ q = PAt (subEngine b c now) (dStartAt b) effInput) ∧
  (∀ slots i x, w = WSubs slots → SWaiting i x ∈ slots → ∃ it items, j = JMap it items).
Proof.
  intros Hj. pose proof (job_runs s j Hj) as Hr. destruct j as [params|bs|it items]; cbn [begin_work].
  - intros [= <- <-]. by split_and!.
  - destruct (start_branches h0 (enCtx e) now effInput bs) as [h2 slots] eqn:E. intros [= <- <-].
    assert (Hall : Forall (λ x, ∃ b c, b ∈ bs ∧ x = SRun (PAt (subEngine b c now) (dStartAt b) effInput)) slots).
    { replace slots with (start_branches h0 (enCtx e) now effInput bs).2 by by rewrite E.
      apply each_Forall. intros h x Hx. cbn. by eexists _, _. }
    rewrite Forall_forall in Hall. split_and!.
    + cbn. apply Forall_forall. intros x (b & c & _ & ->)%Hall. done.
    + intros ? q [= <-] (b & c & Hb & [= ->])%Hall. exists b, c. split; [by apply Hr|done].
    + intros ? i x [= <-] (b & c & _ & ?)%Hall. done.
  - intros [= <- <-]. split_and!.
    + cbn. rewrite waiting_not_running. lia.
    + intros ? q [= <-] (i & x & ? & _)%elem_of_lookup_imap. done.
    + intros. by eexists _, _.
Qed.

Lemma begins_ok e name s p : closed (enDef e) → state_named (enDef e) name = Some s → begins e name s p → ok p.
Proof.
  intros Hc Hs [p' Hl|e' effInput until He|h0 now effInput j h1 w Hj Hw].
  - eapply leaves_ok; [|done..|done]. apply own_no_lost.
  - apply ok_wait; by rewrite He.
  - destruct (begin_work_spec _ _ _ _ _ _ _ _ Hj Hw) as (Hfit & Hsubs & _). apply ok_work; [done..|].
    intros slots q -> Hq. destruct (Hsubs slots q eq_refl Hq) as (b & c & Hb & ->).
    assert (closed b) by by eapply closed_runs. apply ok_at; [done|]. by apply closed_start.
Qed.

Lemma enter_state_ok (h : heap) e i state data :
  closed (enDef e) → defined_or_empty (enDef e) state → ok (enter_state h e i state data).1.2.
Proof.
  intros Hc Hs. unfold AslEngine.enter_state. destruct (inCancelled i) as [err|]; [by apply ok_done; intros n [=]|].
  destruct (state_named (enDef e) state) as [s|] eqn:E.
  2: { apply ok_done. intros n [= <-]. destruct Hs as [->|[s Hs]]; [done|congruence]. }
  destruct (_ && _); [by apply ok_done; intros n [=]|]. cbn [alloc].
  destruct (checkpoint e i state data None) as [evs|c] eqn:Ec.
  - match goal with |- context [dispatch ?h e i state s data] =>
      pose proof (dispatch_begins h e i state s data) as Hb; destruct (dispatch h e i state s data) as [[h1 p] evs'] end.
    by eapply begins_ok.
  - apply ok_done. cbn. unfold checkpoint in Ec. repeat case_match; simplify_eq. by intros n [=].
Qed.

(** What a task answers does not speak for the engine. *)
Definition from_task (i : input) : Prop := ∀ err, inAnswer i = inr err → own (teCause err).

Lemma after_work_ok (h : heap) e name s effInput att j r :
  closed (enDef e) → state_named (enDef e) name = Some s → job_of s j → (∀ err, r = inr err → no_lost (teCause err)) →
  ok (after_work h e name s effInput att j r).1.2.
Proof.
  intros Hc Hs Hj Hr. destruct (after_work_spec h e name s effInput att j r) as [Hl|(att' & d & -> & _)].
  - eapply leaves_ok; [|done..|exact Hl]. intros c [Ho|(err & He & ->)]; [by apply own_no_lost|by apply Hr].
  - apply ok_work; [done..| |done]. by destruct j.
Qed.

Lemma collect_inr rs err : collect rs = inr err → ∃ r, r ∈ rs ∧ err = mkTaskError (rsError r) (rsCause r).
Proof.
  induction rs as [|r rs IH]; cbn; [done|]. destruct (String.eqb _ _).
  - destruct (collect rs) as [v|e]; [by destruct v|]. intros [= ->]. destruct IH as (r' & ? & ->); [done|].
    exists r'. split; [by right|done].
  - intros [= <-]. exists r. split; [by left|done].
Qed.

Lemma slot_done_Some x r : slot_done x = Some r → x = SRun (PDone r).
Proof. destruct x as [|[]]; cbn; congruence. Qed.

Lemma slots_done slots rs : mapM slot_done slots = Some rs → ∀ r, r ∈ rs → SRun (PDone r) ∈ slots.
Proof.
  rewrite mapM_Some. induction 1 as [|x r slots rs Hx _ IH]; intros r'; [by intros ?%not_elem_of_nil|].
  intros [->|?]%elem_of_cons; [apply slot_done_Some in Hx as ->; by left|right; by apply IH].
Qed.

Lemma ok_slot_done slots rs r : (∀ q, SRun q ∈ slots → ok q) → mapM slot_done slots = Some rs → r ∈ rs → no_lost (rsCause r).
Proof. intros Hok Hm Hr. pose proof (Hok _ (slots_done _ _ Hm _ Hr)) as H. by inversion H. Qed.

Lemma start_item_spec (h : heap) e s it now i item :
  (∃ r, (start_item h e s it now i item).2 = PDone r ∧ own (rsCause r)) ∨
  (∃ c v, (start_item h e s it now i item).2 = PAt (subEngine it c now) (dStartAt it) v).
Proof.
  unfold start_item. cbn [copyCtx alloc]. destruct (resolveParameters _ _ _ _) as [[h1 v]|err]; [right; by eexists _, _|left].
  eexists. split; [done|]. by intros ?.
Qed.

Lemma next_waiting_Some slots k n item : next_waiting slots = Some (k, (n, item)) → slots !! k = Some (SWaiting n item).
Proof.
  unfold next_waiting. destruct (firstMatch _ _) as [[k' x]|] eqn:E; [|done]. destruct x; [|done].
  intros [= -> -> ->]. by apply firstMatch_Some in E as [? _].
Qed.

Lemma concurrency_insert s k x slots : concurrency s (<[k := x]> slots) = concurrency s slots.
Proof. unfold concurrency. by rewrite length_insert. Qed.

Lemma running_cons x slots : running (x :: slots) = ((if slot_running x then 1 else 0) + running slots)%nat.
Proof. unfold running. rewrite filter_cons. destruct (slot_running x); case_decide; done. Qed.

Lemma running_insert k x y slots :
  slots !! k = Some x →
  (running (<[k := y]> slots) + (if slot_running x then 1 else 0) = running slots + (if slot_running y then 1 else 0))%nat.
Proof.
  revert k. induction slots as [|z slots IH]; intros [|k]; [done..| |].
  - intros [= ->]. change (<[0%nat := y]> (x :: slots)) with (y :: slots). rewrite !running_cons. lia.
  - intros Hk. specialize (IH k Hk). change (<[S k := y]> (z :: slots)) with (z :: <[k := y]> slots). rewrite !running_cons. lia.
Qed.

Lemma slots_insert (P : proc → Prop) (k : nat) p (slots : list slot) :
  (∀ q, SRun q ∈ slots → P q) → P p → ∀ q, SRun q ∈ <[k := SRun p]> slots → P q.
Proof.
  intros Hs Hp q [j Hj]%list_elem_of_lookup. apply list_lookup_insert_Some in Hj as [(_ & [= ->] & _)|[_ Hj]]; [done|].
  apply Hs. by eapply list_elem_of_lookup_2.
Qed.

Lemma slot_running_done q : slot_running (SRun q) = match done q with Some _ => false | None => true end.
Proof. done. Qed.

Lemma step_not_done path i (h : heap) p x : step path i h p = Some x → done p = None.
Proof. by destruct p, path. Qed.

(** The next sub-execution starts, or all have ended. *)
Lemma step_subs_spec (h : heap) e i name s effInput att j slots h' p' evs :
  step_subs Pow overflow message h e i name s effInput att j slots = Some (h', p', evs) →
  (∃ k n item it items p, j = JMap it items ∧ slots !! k = Some (SWaiting n item) ∧
     (running slots < concurrency s slots)%nat ∧ p = (start_item h e s it (inNow i) n item).2 ∧
     p' = PWork e name s effInput att j (WSubs (<[k := SRun p]> slots))) ∨
  (∃ rs, mapM slot_done slots = Some rs ∧ (h', p', evs) = after_work h e name s effInput att j (collect rs)).
Proof.
  unfold step_subs. intros H.
  assert (Hend : (mapM slot_done slots ≫= λ rs, Some (after_work h e name s effInput att j (collect rs))) = Some (h', p', evs) →
    ∃ rs, mapM slot_done slots = Some rs ∧ (h', p', evs) = after_work h e name s effInput att j (collect rs)).
  { intros (rs & Hm & [= Hr])%bind_Some. by exists rs. }
  destruct (next_waiting slots) as [[k [n item]]|] eqn:En; [|right; by apply Hend].
  destruct j as [params|bs|it items]; [right; by apply Hend..|]. left.
  destruct (_ <? _)%nat eqn:El; [|done]. apply Nat.ltb_lt in El.
  destruct (start_item h e s it (inNow i) n item) as [h1 p] eqn:Es. injection H as <- <- <-.
  exists k, n, item, it, items, p. apply next_waiting_Some in En. split_and!; try done. by rewrite Es.
Qed.

(** The steps there are. *)
Inductive step_view (i : input) (h : heap) : list nat → proc → heap * proc * list event → Prop :=
| view_at e st data : step_view i h [] (PAt e st data) (enter_state h e i st data)
| view_wait e name s effInput until :
    step_view i h [] (PWait e name s effInput until) (end_wait h e i name s effInput until)
| view_sleep e name s effInput att j d :
    step_view i h [] (PWork e name s effInput att j (WSleep d)) (end_sleep h e i name s effInput att j d)
| view_invoke e name s effInput att params :
    step_view i h [] (PWork e name s effInput att (JTask params) WInvoke)
      (end_invoke Pow overflow message h e i name s effInput att params)
| view_subs e name s effInput att j slots x :
    step_subs Pow overflow message h e i name s effInput att j slots = Some x →
    step_view i h [] (PWork e name s effInput att j (WSubs slots)) x
| view_sub k path e name s effInput att j slots q h1 q' evs :
    slots !! k = Some (SRun q) → step path i h q = Some (h1, q', evs) →
    step_view i h (k :: path) (PWork e name s effInput att j (WSubs slots))
      (h1, PWork e name s effInput att j (WSubs (<[k := SRun q']> slots)), evs).

Lemma step_viewed path i (h : heap) p x : step path i h p = Some x → step_view i h path p x.
Proof.
  destruct p as [r|e st data|e name s effInput until|e name s effInput att j w]; destruct path as [|k path]; cbn [AslEngine.step];
    try done; try (intros [= <-]; by constructor).
  - destruct w as [|d|slots].
    + destruct j; try done. intros [= <-]. by constructor.
    + destruct j; intros [= <-]; by constructor.
    + destruct j; intros H; by constructor.
  - destruct w as [|d|slots]; [by destruct j..|]. destruct j; (destruct (slots !! k) as [[|q]|] eqn:Ek; [done| |done];
      intros ([[h1 q'] evs1] & Hq & [= <-])%bind_Some; by eapply view_sub).
Qed.

Lemma at_step path i (h : heap) e st data x : step path i h (PAt e st data) = Some x → x = enter_state h e i st data.
Proof. destruct path; cbn [AslEngine.step]; [by intros [= <-]|done]. Qed.
Lemma wait_step path i (h : heap) e name s effInput until x :
  step path i h (PWait e name s effInput until) = Some x → x = end_wait h e i name s effInput until.
Proof. destruct path; cbn [AslEngine.step]; [by intros [= <-]|done]. Qed.

Lemma end_wait_leaves (h : heap) e i name s effInput until : leaves own s e (end_wait h e i name s effInput until).1.2.
Proof.
  unfold end_wait. destruct (if 0 <? _ then _ else _); apply landed_leaves; [by intros ?|]. apply or_fail_leads; [done|].
  intros [h1 o] _. by apply advance_leads.
Qed.

Lemma step_leaf path i (h : heap) p x : step path i h p = Some x → ok p → from_task i → path = [] → ok x.1.2.
Proof.
  intros Hv%step_viewed Hok Hi ->. inversion Hv as [e st data|e name s effInput until|e name s effInput att j d|e name s effInput att params|e name s effInput att j slots x' H|]; subst;
    inversion Hok as [|? ? ? Hc Hs|? ? ? ? ? Hc Hs|? ? ? ? ? ? ? Hc Hs Hj Hw Hsub]; subst.
  - by apply enter_state_ok.
  - eapply leaves_ok; [by apply own_no_lost|done..|]. apply end_wait_leaves.
  - unfold end_sleep. destruct (if 0 <? d then inCancelled i else None) as [err|].
    + eapply leaves_ok; [by apply own_no_lost|done..|]. apply landed_leaves. by intros ?.
    + destruct (begin_work h e effInput (inNow i) j) as [h1 w] eqn:Eb.
      destruct (begin_work_spec _ _ _ _ _ _ _ _ Hj Eb) as (Hfit & Hsubs & _). apply ok_work; [done..|].
      intros slots q -> Hq. destruct (Hsubs slots q eq_refl Hq) as (b & c & Hb & ->).
      assert (closed b) by by eapply closed_runs. apply ok_at; [done|]. by apply closed_start.
  - unfold end_invoke. destruct (match inAnswer i with inl _ => _ | inr _ => _ end) as [h1 r] eqn:Er.
    assert (Hr : ∀ err, r = inr err → no_lost (teCause err)).
    { intros err ->. destruct (inAnswer i) as [v|e0] eqn:Ea; [destruct (decode h v); discriminate|].
      injection Er as _ ->. by apply own_no_lost, Hi. }
    pose proof (after_work_ok h1 e name s effInput att (JTask params) r Hc Hs Hj Hr) as Ho.
    by destruct (after_work h1 e name s effInput att (JTask params) r) as [[h2 p2] evs2].
  - destruct x as [[h' p'] evs].
    destruct (step_subs_spec _ _ _ _ _ _ _ _ _ _ _ _ H) as [(k & n & item & it & items & p & -> & Hk & Hlt & -> & ->)|(rs & Hm & ->)].
    + apply ok_work; [done..| |].
      { cbn [work_fits]. rewrite concurrency_insert. pose proof (running_insert k _ (SRun (start_item h e s it (inNow i) n item).2) _ Hk) as Hr.
        change (slot_running (SWaiting n item)) with false in Hr. cbv iota in Hr. destruct (slot_running (SRun _)); lia. }
      intros ? q [= <-]. apply (slots_insert ok); [intros q3; by apply (Hsub slots)|].
      destruct (start_item_spec h e s it (inNow i) n item) as [(r & -> & Hr)|(c & v & ->)]; [by apply ok_done, own_no_lost|].
      assert (closed it). { eapply closed_runs; [done..|]. exact (job_runs s (JMap it items) Hj). }
      apply ok_at; [done|]. by apply closed_start.
    + apply after_work_ok; [done..|]. intros err (r & Hr & ->)%collect_inr. cbn.
      eapply ok_slot_done; [|exact Hm|exact Hr]. intros q Hq. by apply (Hsub slots q).
Qed.

(** Every step keeps the invariant. *)
Lemma step_ok path i (h : heap) p x : ok p → from_task i → step path i h p = Some x → ok x.1.2.
Proof.
  intros Hok Hi. revert p x Hok. induction path as [|k path IH]; intros p x Hok H; [by eapply step_leaf|].
  apply step_viewed in H. inversion H as [| | | | |? ? e name s effInput att j slots q h1 q' evs Ek Hq]; subst. cbn.
  inversion Hok as [| | |? ? ? ? ? ? ? Hc Hs Hj Hw Hsub]; subst.
  assert (Hin : SRun q ∈ slots) by by eapply list_elem_of_lookup_2.
  assert (Hq' : ok q') by exact (IH q (h1, q', evs) (Hsub slots q eq_refl Hin) Hq).
  apply ok_work; [done..| |].
  - destruct j as [params|bs|it items]; [done| |]; cbn [work_fits] in *.
    + by apply Forall_insert.
    + rewrite concurrency_insert. pose proof (running_insert k _ (SRun q') _ Ek) as Hr.
      rewrite (slot_running_done q), (step_not_done _ _ _ _ _ Hq) in Hr. destruct (slot_running (SRun q')); lia.
  - intros ? q2 [= <-]. apply (slots_insert ok); [intros q3; by apply (Hsub slots)|done].
Qed.

Lemma run_ok sched (h : heap) p x : ok p → Forall (λ pi, from_task pi.2) sched → run Pow overflow message sched h p = Some x → ok x.1.2.
Proof.
  revert h p x. induction sched as [|[path i] sched IH]; intros h p x Hok Hf; cbn [run]; [by intros [= <-]|].
  apply Forall_cons in Hf as [Hi Hf]. intros ([[h1 p1] evs1] & Hs & ([[h2 p2] evs2] & Hr & [= <-])%bind_Some)%bind_Some.
  pose proof (step_ok _ _ _ _ _ Hok Hi Hs) as Hok1. exact (IH _ _ _ Hok1 Hf Hr).
Qed.

(** ** No execution is stuck *)

Lemma firstMatch_None {A} (f : A → bool) l : firstMatch f l = None → Forall (λ x, f x = false) l.
Proof.
  unfold firstMatch.
  enough (H : ∀ k, (fix go i l := match l with [] => None | y :: l => if f y then Some (i, y) else go (S i) l end) k l = None →
    Forall (λ x, f x = false) l) by apply H.
  clear. induction l as [|y l IH]; intros k; [constructor|]. destruct (f y) eqn:E; [done|]. intros H. constructor; [done|by eapply IH].
Qed.

Lemma next_waiting_None slots : next_waiting slots = None → Forall (λ x, slot_waiting x = false) slots.
Proof.
  unfold next_waiting. destruct (firstMatch _ _) as [[k x]|] eqn:E; [|intros _; by apply firstMatch_None].
  apply firstMatch_Some in E as [_ Hx]. by destruct x.
Qed.

Lemma not_running_0 slots : Forall (λ x, slot_running x = false) slots → running slots = 0%nat.
Proof. induction 1 as [|x l Hx _ IH]; [done|]. by rewrite running_cons, Hx, IH. Qed.

(** A process of the invariant that has not ended can take a step, whatever the input. *)
Lemma ok_steps p : ok p → done p = None → ∀ i (h : heap), ∃ path, is_Some (step path i h p).
Proof.
  induction 1 as [| | |e name s effInput att j w Hc Hs Hj Hw Hsub IH]; intros Hd i h; [done|exists []; by eexists..|].
  destruct w as [|d|slots].
  { exists []. destruct j; [by eexists|done..]. }
  { exists []. destruct j; by eexists. }
  destruct (decide (Exists (λ x, slot_running x = true) slots)) as [(x & Hx & Hrun)%Exists_exists|Hno].
  - destruct x as [|q]; [done|]. destruct (IH slots q eq_refl Hx) with (i := i) (h := h) as [path [[[h1 q'] evs] Hq]].
    { rewrite slot_running_done in Hrun. by destruct (done q). }
    apply list_elem_of_lookup in Hx as [k Hk]. exists (k :: path). cbn [AslEngine.step].
    destruct j; rewrite Hk, Hq; by eexists.
  - apply not_Exists_Forall in Hno; [|intros x; apply _].
    assert (Hnr : Forall (λ x, slot_running x = false) slots).
    { eapply Forall_impl; [exact Hno|]. intros x Hx. by apply not_true_iff_false. }
    exists []. cbn [AslEngine.step].
    enough (Hstep : is_Some (step_subs Pow overflow message h e i name s effInput att j slots)) by by destruct j.
    unfold step_subs. destruct (next_waiting slots) as [[k [n item]]|] eqn:En.
    + destruct j as [params|bs|it items]; [done| |].
      { cbn in Hw. apply next_waiting_Some in En. eapply Forall_lookup_1 in Hw; [|exact En]. done. }
      rewrite (proj2 (Nat.ltb_lt _ _)); [destruct (start_item _ _ _ _ _ _ _); by eexists|].
      fold (running slots). rewrite (not_running_0 _ Hnr). apply next_waiting_Some in En.
      apply lookup_lt_Some in En. unfold concurrency. destruct (_ || _) eqn:Em; [lia|]. apply orb_false_iff in Em as [Em%Z.leb_gt _]. lia.
    + assert (Hall : is_Some (mapM slot_done slots)).
      { apply mapM_is_Some. apply next_waiting_None in En. rewrite Forall_forall in *. intros x Hx.
        specialize (En x Hx). specialize (Hnr x Hx). destruct x as [|q]; [done|]. rewrite slot_running_done in Hnr. cbn.
        by destruct (done q); [eexists|]. }
      destruct Hall as [rs ->]. destruct j; by eexists.
Qed.

(** ** Executions without cycles end *)

Definition moves (p' p : proc) : Prop := ∃ path i (h h' : heap) evs, step path i h p = Some (h', p', evs).

(** The transitions of a definition go down a rank, in its sub-executions too. *)
Inductive acyclic : Definition_ → Prop :=
| acyclic_intro d (rank : string → nat) :
    (∀ n s to, state_named d n = Some s → to ∈ targets s → is_Some (state_named d to) → (rank to < rank n)%nat) →
    (∀ n s b, state_named d n = Some s → b ∈ runs s → acyclic b) →
    acyclic d.

Definition ends (p : proc) : Prop := Acc moves p.

Lemma ends_done r : ends (PDone r).
Proof. constructor. intros p' (path & i & h & h' & evs & H). by destruct path. Qed.

(** One of several moves at a time. *)
Definition one_moves {A} (R : A → A → Prop) (l' l : list A) : Prop :=
  ∃ k x x', l !! k = Some x ∧ R x' x ∧ l' = <[k := x']> l.

Lemma Acc_one_moves {A} (R : A → A → Prop) l : Forall (Acc R) l → Acc (one_moves R) l.
Proof.
  induction 1 as [|x l Hx _ IHl]; [by constructor; intros l' (k & x & x' & [=] & _)|].
  revert l IHl. induction Hx as [x _ IHx]. induction 1 as [l Hl IHl].
  constructor. intros l' ([|k] & y & y' & Hk & HR & ->).
  - injection Hk as ->. apply IHx; [done|by constructor].
  - apply IHl. by exists k, y, y'.
Qed.

(** The retries a state has left. *)
Fixpoint budget (rs : list Retrier) (att : list nat) : nat :=
  match rs, att with
  | r :: rs, a :: att => ((Z.to_nat (maxAttempts r) - a) + budget rs att)%nat
  | _, _ => 0%nat
  end.

Lemma retried_budget s att att' :
  length att = length (stRetry s) → retried s att att' →
  length att' = length (stRetry s) ∧ (budget (stRetry s) att' < budget (stRetry s) att)%nat.
Proof.
  intros Hlen (ri & r & n & Hr & -> & Hn & ->). split; [by rewrite length_insert|].
  revert att ri Hlen Hr Hn. induction (stRetry s) as [|r0 rs IH]; intros [|a att] ri; try done. intros [= Hlen].
  destruct ri as [|ri]; cbn [lookup list_lookup].
  - intros [= ->] Hn. cbn in Hn. change (<[0%nat := S a]> (a :: att)) with (S a :: att). cbn [budget default option_map]. cbn. lia.
  - intros Hr Hn. cbn in Hn. specialize (IH att ri Hlen Hr Hn).
    match goal with |- context [<[S ri := ?v]> (a :: att)] => change (<[S ri := v]> (a :: att)) with (a :: <[ri := v]> att) end.
    cbn [budget]. change ((a :: att) !! S ri) with (att !! ri). apply Nat.add_lt_mono_l. exact IH.
Qed.

Section Work.
Context (e : engine) (name : string) (s : State) (effInput : val) (j : job).
Hypothesis Hj : job_of s j.
Hypothesis Hnext : ∀ e' to data, enDef e' = enDef e → to ∈ targets s → ends (PAt e' to data).
Hypothesis Hruns : ∀ b e' st data, b ∈ runs s → enDef e' = b → ends (PAt e' st data).

Lemma leaves_end C p : leaves C s e p → ends p.
Proof. intros [r _|e' to data He Hto]; [apply ends_done|by apply Hnext]. Qed.

(** A slot whose sub-execution ends, started or not. *)
Definition slot_moves (x' x : slot) : Prop :=
  match x, x' with
  | SRun q, SRun q' => moves q' q
  | SWaiting _ _, SRun q' => ends q'
  | _, _ => False
  end.

Lemma slot_run_acc q : ends q → Acc slot_moves (SRun q).
Proof. induction 1 as [q _ IH]. constructor. intros [|q'] H; [done|]. by apply IH. Qed.
Lemma slot_waiting_acc i x : Acc slot_moves (SWaiting i x).
Proof. constructor. intros [|q'] H; [done|]. by apply slot_run_acc. Qed.

Lemma begin_work_acc (h0 : heap) now h1 w slots :
  begin_work h0 e effInput now j = (h1, w) → w = WSubs slots → Forall (Acc slot_moves) slots.
Proof.
  intros Hw ->. destruct (begin_work_spec _ _ _ _ _ _ _ _ Hj Hw) as (_ & Hsubs & _). apply Forall_forall.
  intros [i x|q] Hx; [apply slot_waiting_acc|]. apply slot_run_acc.
  destruct (Hsubs slots q eq_refl Hx) as (b & c & Hb & ->). by eapply Hruns.
Qed.

Lemma start_item_ends (h : heap) it items now i item : j = JMap it items → ends (start_item h e s it now i item).2.
Proof.
  intros E. destruct (start_item_spec h e s it now i item) as [(r & -> & _)|(c & v & ->)]; [apply ends_done|].
  apply (Hruns it); [|done]. pose proof (job_runs s j Hj) as Hr. by rewrite E in Hr.
Qed.

Lemma after_work_ends (h : heap) att r :
  (∀ att' d, retried s att att' → ends (PWork e name s effInput att' j (WSleep d))) →
  ends (after_work h e name s effInput att j r).1.2.
Proof.
  intros Hre. destruct (after_work_spec h e name s effInput att j r) as [Hl|(att' & d & -> & Hr)]; [by eapply leaves_end|by apply Hre].
Qed.

End Work.

(** A state's work ends: its sub-executions do, and its retries run out. *)
Lemma work_ends e name s effInput j att w :
  job_of s j →
  (∀ e' to data, enDef e' = enDef e → to ∈ targets s → ends (PAt e' to data)) →
  (∀ b e' st data, b ∈ runs s → enDef e' = b → ends (PAt e' st data)) →
  length att = length (stRetry s) → (∀ slots, w = WSubs slots → Forall (Acc slot_moves) slots) →
  ends (PWork e name s effInput att j w).
Proof.
  intros Hj Hnext Hruns. remember (budget (stRetry s) att) as n eqn:En. revert att w En. induction n as [n IHn] using lt_wf_ind. intros att w -> Hlen Hw.
  assert (Hre : ∀ att' d, retried s att att' → ends (PWork e name s effInput att' j (WSleep d))).
  { intros att' d Hr. destruct (retried_budget _ _ _ Hlen Hr) as [Hlen' Hlt]. by eapply IHn. }
  clear IHn.
  assert (Hsubs : ∀ slots, Acc (one_moves slot_moves) slots → ends (PWork e name s effInput att j (WSubs slots))).
  { induction 1 as [slots _ IH]. constructor. intros p' (path & i & h & h' & evs & H%step_viewed).
    inversion H as [| | | |? ? ? ? ? ? ? ? Hs|k path' ? ? ? ? ? ? ? q ? q' ? Hk Hq]; subst.
    - apply step_subs_spec in Hs as [(k & m & item & it & items & p & Ej & Hk & _ & -> & ->)|(rs & _ & Ha)].
      + apply IH. exists k, (SWaiting m item), (SRun (start_item h e s it (inNow i) m item).2).
        split_and!; [done| |done]. by eapply start_item_ends.
      + pose proof (after_work_ends e name s effInput j Hnext h att (collect rs) Hre) as He. by rewrite <- Ha in He.
    - apply IH. exists k, (SRun q), (SRun q'). split_and!; [done| |done]. by exists path', i, h, h', evs. }
  assert (Hinvoke : ends (PWork e name s effInput att j WInvoke)).
  { constructor. intros p' (path & i & h & h' & evs & H%step_viewed). inversion H as [| | |? ? ? ? ? params| |]; subst.
    unfold end_invoke in *. destruct (match inAnswer i with inl _ => _ | inr _ => _ end) as [h1 r].
    pose proof (after_work_ends e name s effInput (JTask params) Hnext h1 att r Hre) as He.
    destruct (after_work h1 e name s effInput att (JTask params) r) as [[h2 p2] evs2]. by simplify_eq. }
  destruct w as [|d|slots]; [done| |by apply Hsubs, Acc_one_moves, Hw].
  constructor. intros p' (path & i & h & h' & evs & H%step_viewed). inversion H; subst. unfold end_sleep in *.
  destruct (if 0 <? d then inCancelled i else None) as [err|]; [simplify_eq/=; apply ends_done|].
  destruct (begin_work h e effInput (inNow i) j) as [h1 w1] eqn:Eb. simplify_eq.
  destruct w1 as [|d1|slots]; [done| |].
  - destruct j; cbn in Eb; try discriminate. destruct (start_branches _ _ _ _ _); discriminate.
  - apply Hsubs, Acc_one_moves. by eapply begin_work_acc.
Qed.

Lemma begins_ends e name s p :
  (∀ e' to data, enDef e' = enDef e → to ∈ targets s → ends (PAt e' to data)) →
  (∀ b e' st data, b ∈ runs s → enDef e' = b → ends (PAt e' st data)) →
  begins e name s p → ends p.
Proof.
  intros Hnext Hruns [p' Hl|e' effInput until He|h0 now effInput j h1 w Hj Hw].
  - by eapply leaves_end.
  - constructor. intros p1 (path & i & h & h' & evs & H%wait_step).
    pose proof (end_wait_leaves h e' i name s effInput until) as Hl. rewrite <- H in Hl.
    cbn in Hl. clear H. destruct Hl as [r _|e2 to data He2 Hto]; [apply ends_done|]. apply Hnext; [congruence|done].
  - eapply work_ends; [done..| |].
    + by rewrite length_map.
    + intros slots ->. by eapply begin_work_acc.
Qed.

Lemma acyclic_ends d : acyclic d → ∀ e state data, enDef e = d → ends (PAt e state data).
Proof.
  induction 1 as [d rank Hrank _ IH]. intros e state.
  assert (Hgen : ∀ n state e data, enDef e = d → rank state = n → ends (PAt e state data)); [|by intros; eapply Hgen].
  clear e state. induction n as [n IHn] using lt_wf_ind. intros state e data He Hn.
  constructor. intros p' (path & i & h & h' & evs & H%at_step).
  assert (p' = (enter_state h e i state data).1.2) as -> by by rewrite <- H.
  clear H. unfold AslEngine.enter_state.
  destruct (inCancelled i); [apply ends_done|]. destruct (state_named (enDef e) state) as [s|] eqn:Es; [|apply ends_done].
  destruct (_ && _); [apply ends_done|]. cbn [alloc]. destruct (checkpoint e i state data None); [|apply ends_done].
  match goal with |- context [dispatch ?h e i state s data] =>
    pose proof (dispatch_begins h e i state s data) as Hb; destruct (dispatch h e i state s data) as [[h1 p] evs'] end.
  eapply begins_ends; [| |exact Hb].
  - intros e' to data' He' Hto. destruct (state_named (enDef e) to) as [s'|] eqn:Eto.
    + eapply (IHn (rank to)); [|congruence|done]. subst n. rewrite He in Es, Eto. eapply Hrank; by eauto.
    + constructor. intros p'' (path'' & i'' & h'' & h3 & evs'' & H%at_step).
      assert (p'' = (enter_state h'' e' i'' to data').1.2) as -> by by rewrite <- H.
      unfold AslEngine.enter_state. destruct (inCancelled i''); [apply ends_done|]. rewrite He', Eto. apply ends_done.
  - intros b e' st data' Hb' Heb. rewrite He in Es. by eapply IH.
Qed.

(** ** The executions of a validated document *)

(** A sub-execution somewhere in the tree. *)
Inductive inside (q : proc) : proc → Prop :=
| inside_here : inside q q
| inside_sub e name s effInput att j slots p :
    inside q p → SRun p ∈ slots → inside q (PWork e name s effInput att j (WSubs slots)).

Lemma ok_inside p q : inside q p → ok p → ok q.
Proof.
  induction 1 as [|e name s effInput att j slots p Hq IH Hin]; [done|]. intros Hok.
  inversion Hok as [| | |? ? ? ? ? ? ? _ _ _ _ Hsub]; subst. by apply IH, (Hsub slots).
Qed.

Definition top (d : Definition_) (ctx : nat) (start : Z) (resume : option Z) : engine := mkEngine d ctx start resume true.

Lemma reachable_ok d ctx start resume data sched h h' p evs :
  validateDefinition d = None → Forall (λ pi, from_task pi.2) sched →
  run Pow overflow message sched h (PAt (top d ctx start resume) (dStartAt d) data) = Some (h', p, evs) → ok p.
Proof.
  intros Hv Hf Hr. refine (run_ok _ _ _ _ _ Hf Hr). pose proof (validate_closed d Hv) as Hc.
  apply ok_at; [done|]. by apply closed_start.
Qed.
End Run.

(** C14: An execution of a document that validation accepts never ends for want of a state the document
    names: whatever the schedule of its branches and items, the clock and what its tasks answer, the only
    state it can miss is the empty name of a transition left out. *)
Theorem valid_never_lost Pow overflow message d ctx start resume data sched h h' r evs n :
  validateDefinition d = None → Forall (λ pi, from_task pi.2) sched →
  run Pow overflow message sched h (PAt (top d ctx start resume) (dStartAt d) data) = Some (h', PDone r, evs) →
  rsCause r = CNoSuchState n → n = "".
Proof.
  intros Hv Hf Hr. pose proof (reachable_ok _ _ _ _ _ _ _ _ _ _ _ _ _ Hv Hf Hr) as Hok.
  inversion Hok as [? Hn| | |]; subst. apply Hn.
Qed.

(** C22: A Map state never runs more items at once than its MaxConcurrency, wherever it stands in the tree
    and however its items are scheduled. *)
Theorem map_concurrency Pow overflow message d ctx start resume data sched h h' p evs e name s effInput att it items slots :
  validateDefinition d = None → Forall (λ pi, from_task pi.2) sched →
  run Pow overflow message sched h (PAt (top d ctx start resume) (dStartAt d) data) = Some (h', p, evs) →
  inside (PWork e name s effInput att (JMap it items) (WSubs slots)) p → 0 < stMaxConcurrency s →
  Z.of_nat (running slots) ≤ stMaxConcurrency s.
Proof.
  intros Hv Hf Hr Hin Hpos. pose proof (ok_inside _ _ Hin (reachable_ok _ _ _ _ _ _ _ _ _ _ _ _ _ Hv Hf Hr)) as Hok.
  inversion Hok as [| | |? ? ? ? ? ? ? _ _ _ Hw _]; subst. cbn [work_fits] in Hw. unfold concurrency in Hw.
  destruct (Z.leb_spec (stMaxConcurrency s) 0); [lia|]. cbn [orb] in Hw.
  destruct (Z.ltb_spec (Z.of_nat (length slots)) (stMaxConcurrency s)); lia.
Qed.

(** C23: No execution of a validated document is stuck: until it has a result, some engine of the tree can
    take a step, whatever the clock, the cancellation and the answers. *)
Theorem never_stuck Pow overflow message d ctx start resume data sched h h' p evs i h1 :
  validateDefinition d = None → Forall (λ pi, from_task pi.2) sched →
  run Pow overflow message sched h (PAt (top d ctx start resume) (dStartAt d) data) = Some (h', p, evs) →
  done p = None → ∃ path, is_Some (step Pow overflow message path i h1 p).
Proof. intros Hv Hf Hr Hd. eapply ok_steps; [by eapply reachable_ok|done]. Qed.

(** C13: When the transitions of a document have no cycle, its own and those of its branches and iterators,
    every execution ends, on every schedule: retries and sub-executions included, no sequence of steps is
    endless. *)
Theorem acyclic_execution_ends Pow overflow message d ctx start resume state data :
  acyclic d → Acc (moves Pow overflow message) (PAt (top d ctx start resume) state data).
Proof. intros Hd. by eapply acyclic_ends. Qed.

(** The result of the sub-executions is their outputs in order when all have succeeded, and otherwise
    the first failure by order, whatever ended first. *)
Theorem collect_spec rs :
  match collect rs with
  | inl v => Forall (λ r, rsPhase r = "Succeeded") rs ∧ v = VArr (map rsOutput rs)
  | inr err => ∃ before r after, rs = before ++ r :: after ∧ Forall (λ r, rsPhase r = "Succeeded") before ∧
      rsPhase r ≠ "Succeeded" ∧ err = mkTaskError (rsError r) (rsCause r)
  end.
Proof.
  induction rs as [|r rs IH]; cbn; [by split|]. destruct (String.eqb_spec (rsPhase r) "Succeeded") as [E|E].
  - destruct (collect rs) as [v|err].
    + destruct IH as [H ->]. split; [by constructor|done].
    + destruct IH as (before & r' & after & -> & H & Hr & ->). exists (r :: before), r', after. split_and!; [done|by constructor|done..].
  - exists [], r, rs. by split_and!.
Qed.

(** ** At concrete documents *)

Definition blank (ty next : string) (stop : bool) : State :=
  mkState ty next stop PAbsent PAbsent PAbsent None "" 0 [] [] None None "" "" "" [] "" "" "" [] None None PAbsent 0 None.
(** A Pass that writes a boolean at a path. *)
Definition put (path : string) : State :=
  mkState "Pass" "" true PAbsent PAbsent (PValue path) None "" 0 [] [] (Some (JBool true)) None "" "" "" [] "" "" "" []
    None None PAbsent 0 None.
Definition single (s : State) : Definition_ := mkDefinition "S" 0 [("S", s)].
(** A Map over $.items, one at a time. *)
Definition one_by_one : Definition_ :=
  single (mkState "Map" "" true PAbsent PAbsent PAbsent None "" 0 [] [] None None "" "" "" [] "" "" "" []
    (Some (single (blank "Pass" "" true))) None (PValue "$.items") 1 None).
(** Two branches, one of which writes into its input. *)
Definition two_branches : Definition_ :=
  single (mkState "Parallel" "" true PAbsent PAbsent PAbsent None "" 0 [] [] None None "" "" "" [] "" "" ""
    [single (put "$.x"); single (blank "Pass" "" true)] None None PAbsent 0 None).
(** A wait on the field a of its input. *)
Definition waiting : Definition_ :=
  single (mkState "Wait" "" true (PValue "$.a") PAbsent PAbsent None "" 0 [] [] None (Some 60) "" "" "" [] "" "" "" []
    None None PAbsent 0 None).

Definition calm (now : Z) : input := mkInput now None (λ _, None) (inl JNull).

#[local] Abbreviation go := (run (λ a _, a) (λ _, 0) (λ _, "")).
Definition start_at (d : Definition_) (data : val) : proc := PAt (top d 0%nat 0 None) (dStartAt d) data.
Definition at_calm (paths : list (list nat)) : list (list nat * input) := map (λ p, (p, calm 0)) paths.
Lemma at_calm_from_task paths : Forall (λ pi, from_task pi.2) (at_calm paths).
Proof. induction paths as [|p paths IH]; constructor; [intros err [=]|exact IH]. Qed.

Definition items_heap : heap := [∅; {["items" := VArr [VBool true; VBool false]]}].
(** What a run ends with, as JSON. *)
Definition output_of (x : option (heap * proc * list event)) : option json :=
  match x with Some (h, PDone r, _) => encode 10 h (rsOutput r) | _ => None end.
(** A task whose failure is caught by a catcher with no Next. *)
Definition caught_nowhere : Definition_ :=
  single (mkState "Task" "" true PAbsent PAbsent PAbsent None "function:f" 0 [] [mkCatcher [ErrAll] "" PAbsent]
    None None "" "" "" [] "" "" "" [] None None PAbsent 0 None).
Definition failing : input := mkInput 0 None (λ _, None) (inr (mkTaskError ErrTaskFailed (CText "boom"))).

(** A catcher without Next passes validation, and the execution it catches ends for want of a state. *)
Lemma catch_without_next :
  validateDefinition caught_nowhere = None ∧
  snd <$> (fst <$> go [([], calm 0); ([], failing); ([], calm 0)] [∅; ∅] (start_at caught_nowhere (VMap 1)))
  = Some (PDone (Failed ErrRuntime (CNoSuchState ""))).
Proof. split; reflexivity. Qed.

(** The branches of a Parallel state write into one input: each one's output shows what the other wrote. *)
Lemma branches_share_input :
  output_of (go (at_calm [[]; [0%nat]; [1%nat]; []]) [∅; {["n" := VBool false]}] (start_at two_branches (VMap 1)))
  = Some (JArr [JObj [("n", JBool false); ("x", JBool true)]; JObj [("n", JBool false); ("x", JBool true)]]).
Proof. vm_compute. reflexivity. Qed.

(** A Wait checkpoints its input after InputPath, which the resumed execution applies again: it ends with
    another output than the execution that was not interrupted. *)
Definition wait_heap : heap := [∅; {["a" := VMap 2]}; {["a" := VBool true]}].
Definition checkpointed (evs : list event) : list val :=
  flat_map (λ e, match e with EvCheckpoint _ d (Some _) => [d] | _ => [] end) evs.
Lemma wait_resume_input_twice :
  output_of (go (at_calm [[]; []]) wait_heap (start_at waiting (VMap 1))) = Some (JObj [("a", JBool true)]) ∧
  checkpointed <$> (snd <$> go (at_calm [[]]) wait_heap (start_at waiting (VMap 1))) = Some [VMap 2] ∧
  output_of (go (at_calm [[]; []]) wait_heap (PAt (top waiting 0%nat 0 (Some 60)) "S" (VMap 2))) = Some (JBool true).
Proof. split_and!; vm_compute; reflexivity. Qed.

(** A run that satisfies a test of its last state, and that state. *)
Definition reaches (f : proc → bool) (x : option (heap * proc * list event)) : bool :=
  match x with Some (_, p, _) => f p | None => false end.
Lemma reaches_Some f x : reaches f x = true → ∃ h p evs, x = Some (h, p, evs) ∧ f p = true.
Proof. destruct x as [[[h p] evs]|]; [|done]. by eexists _, _, _. Qed.
Definition is_done (p : proc) : bool := match done p with Some _ => true | None => false end.
Definition maps_bounded (p : proc) : bool :=
  match p with PWork _ _ s _ _ (JMap _ _) (WSubs (_ :: _)) => 0 <? stMaxConcurrency s | _ => false end.

Definition lost_run : list (list nat * input) := [([], calm 0); ([], failing); ([], calm 0)].
Lemma lost_run_from_task : Forall (λ pi, from_task pi.2) lost_run.
Proof. repeat apply List.Forall_cons; try apply List.Forall_nil; intros err [=]; subst; intros m [=]. Qed.

Lemma valid_never_lost_witness :
  ∃ h' r evs, go lost_run [∅; ∅] (start_at caught_nowhere (VMap 1)) = Some (h', PDone r, evs) ∧
    ∀ n, rsCause r = CNoSuchState n → n = "".
Proof.
  assert (H : reaches is_done (go lost_run [∅; ∅] (start_at caught_nowhere (VMap 1))) = true) by (vm_compute; reflexivity).
  apply reaches_Some in H as (h & [r| | |] & evs & E & H); try discriminate H.
  exists h, r, evs. split; [exact E|]. intros n.
  exact (valid_never_lost (λ a _, a) (λ _, 0) (λ _, "") caught_nowhere 0%nat 0 None (VMap 1) lost_run [∅; ∅]
    h r evs n eq_refl lost_run_from_task E).
Defined.

Lemma map_concurrency_witness :
  ∃ h' e name s v att it items slots evs,
    go (at_calm [[]; []]) items_heap (start_at one_by_one (VMap 1)) = Some (h', PWork e name s v att (JMap it items) (WSubs slots), evs) ∧
    slots ≠ [] ∧ Z.of_nat (running slots) ≤ stMaxConcurrency s.
Proof.
  assert (H : reaches maps_bounded (go (at_calm [[]; []]) items_heap (start_at one_by_one (VMap 1))) = true) by (vm_compute; reflexivity).
  apply reaches_Some in H as (h & [| | |e name s v att [| |it items] [| |[|x slots]]] & evs & E & H); try discriminate H.
  exists h, e, name, s, v, att, it, items, (x :: slots), evs. split; [exact E|]. split; [discriminate|].
  apply (map_concurrency (λ a _, a) (λ _, 0) (λ _, "") one_by_one 0%nat 0 None (VMap 1) (at_calm [[]; []]) items_heap
    h _ evs e name s v att it items (x :: slots) eq_refl (at_calm_from_task _) E (inside_here _)).
  apply Z.ltb_lt. exact H.
Defined.

Lemma never_stuck_witness :
  ∃ h' p evs, go (at_calm [[]; []; [0%nat]]) items_heap (start_at one_by_one (VMap 1)) = Some (h', p, evs) ∧
    ∃ path, is_Some (step (λ a _, a) (λ _, 0) (λ _, "") path failing [] p).
Proof.
  assert (H : reaches (λ p, negb (is_done p)) (go (at_calm [[]; []; [0%nat]]) items_heap (start_at one_by_one (VMap 1))) = true)
    by (vm_compute; reflexivity).
  apply reaches_Some in H as (h & p & evs & E & H). exists h, p, evs. split; [exact E|].
  apply (never_stuck (λ a _, a) (λ _, 0) (λ _, "") one_by_one 0%nat 0 None (VMap 1) (at_calm [[]; []; [0%nat]]) items_heap
    h p evs failing [] eq_refl (at_calm_from_task _) E).
  unfold is_done in H. destruct (done p); [discriminate H|reflexivity].
Defined.

Lemma single_acyclic s :
  (∀ to, to ∈ targets s → to = "") → (∀ b, b ∈ runs s → acyclic b) → acyclic (single s).
Proof.
  intros Ht Hr. apply (acyclic_intro _ (λ _, 0%nat)).
  - intros n s' to [= _ <-]%state_named_elem%list_elem_of_singleton. intros ->%Ht [? [=]].
  - intros n s' b [= _ <-]%state_named_elem%list_elem_of_singleton. apply Hr.
Qed.

Lemma acyclic_execution_ends_witness :
  Acc (moves (λ a _, a) (λ _, 0) (λ _, "")) (start_at one_by_one (VMap 1)).
Proof.
  refine (acyclic_execution_ends _ _ _ one_by_one 0%nat 0 None "S" (VMap 1) _).
  apply single_acyclic.
  - intros to [->| ->%list_elem_of_singleton]%elem_of_cons; reflexivity.
  - intros b ->%list_elem_of_singleton. apply single_acyclic.
    + intros to [->| ->%list_elem_of_singleton]%elem_of_cons; reflexivity.
    + intros b ?%not_elem_of_nil; done.
Defined.
