(* ===== verification/GoNet.v ===== *)
(** * Addresses (package net)

    What the packages use of Go's net package: net.ParseIP and net.ParseCIDR on IPv4 addresses, and the
    dotted form.  The reader of IPv6 text is a parameter; an IPv4-mapped IPv6 address counts as IPv4, as
    To4 has it. *)

From S2P Require Import Prelude GoStrings.
#[local] Open Scope string_scope.
#[local] Open Scope Z_scope.
#[local] Open Scope list_scope.

(** One field of a dotted address: up to three digits, at most 255, no leading zero. *)
Definition parse_octet (s : string) : option Z :=
  if (String.length s =? 0)%nat || negb (forall_char is_digit s) then None
  else if (1 <? String.length s)%nat && HasPrefix s "0" then None
  else n ← digits s 0; if n <=? 255 then Some n else None.

Definition u32_of (a b c d : Z) : Z := a * 2 ^ 24 + b * 2 ^ 16 + c * 2 ^ 8 + d.

Definition parseIPv4 (s : string) : option Z :=
  match Split s "." with
  | [a; b; c; d] =>
      a ← parse_octet a; b ← parse_octet b; c ← parse_octet c; d ← parse_octet d; Some (u32_of a b c d)
  | _ => None
  end.

(** The bytes of the dotted form, and the form. *)
Definition octet (u : Z) (i : Z) : Z := Z.land (Z.shiftr u (8 * i)) 255.
Definition dotted (u : Z) : string :=
  Join (map (λ i, FormatInt (octet u i)) [3; 2; 1; 0]) ".".

Section Net.
(** The reader of IPv6 text: the 128 bits of the address. *)
Context (parseIPv6 : string → option Z).

Definition mapped_prefix : Z := 0xFFFF.
(** net.ParseIP(s).To4(). *)
Definition ParseIP4 (s : string) : option Z :=
  if contains_char ":" s then
    n ← parseIPv6 s; if Z.shiftr n 32 =? mapped_prefix then Some (Z.land n (2 ^ 32 - 1)) else None
  else parseIPv4 s.

(** A block: the network's address and the prefix length. *)
Inductive block := Block4 (base prefix : Z) | Block6.

Definition mask_to (prefix u : Z) : Z := Z.shiftl (Z.shiftr u (32 - prefix)) (32 - prefix).

(** net.ParseCIDR; a prefix length is digits only. *)
Definition ParseCIDR (s : string) : option block :=
  '(addr, len_) ← Cut s "/";
  let number := if forall_char is_digit len_ && negb (String.eqb len_ "") then digits len_ 0 else None in
  if contains_char ":" addr then
    _ ← parseIPv6 addr; n ← number; if n <=? 128 then Some Block6 else None
  else
    u ← parseIPv4 addr; n ← number;
    if n <=? 32 then Some (Block4 (mask_to n u) n) else None.
End Net.

(** ** The dotted form reads back *)

Lemma octet_range u i : 0 ≤ octet u i < 256.
Proof.
  unfold octet. change 255 with (Z.ones 8). rewrite Z.land_ones by lia. apply Z.mod_pos_bound. lia.
Qed.

Lemma FormatInt_byte n : 0 ≤ n < 256 → parse_octet (FormatInt n) = Some n.
Proof.
  intros Hn. assert (Hall : Forall (λ k, parse_octet (FormatInt (Z.of_nat k)) = Some (Z.of_nat k)) (seq 0 256)).
  { apply (bool_decide_unpack _). vm_compute. exact I. }
  rewrite Forall_forall in Hall. specialize (Hall (Z.to_nat n)). rewrite Z2Nat.id in Hall by lia. apply Hall.
  apply elem_of_seq. lia.
Qed.

Lemma FormatInt_byte_plain n : 0 ≤ n < 256 → contains_char "." (FormatInt n) = false ∧ contains_char ":" (FormatInt n) = false ∧ forall_char is_digit (FormatInt n) = true.
Proof.
  intros Hn. assert (Hall : Forall (λ k, contains_char "." (FormatInt (Z.of_nat k)) = false ∧ contains_char ":" (FormatInt (Z.of_nat k)) = false ∧
    forall_char is_digit (FormatInt (Z.of_nat k)) = true) (seq 0 256)).
  { apply (bool_decide_unpack _). vm_compute. exact I. }
  rewrite Forall_forall in Hall. specialize (Hall (Z.to_nat n)). rewrite Z2Nat.id in Hall by lia. apply Hall.
  apply elem_of_seq. lia.
Qed.

Lemma u32_octets u : 0 ≤ u < 2 ^ 32 → u32_of (octet u 3) (octet u 2) (octet u 1) (octet u 0) = u.
Proof.
  intros Hu. unfold octet, u32_of. change 255 with (Z.ones 8). rewrite !Z.land_ones, !Z.shiftr_div_pow2 by lia.
  change (2 ^ (8 * 3)) with 16777216. change (2 ^ (8 * 2)) with 65536. change (2 ^ (8 * 1)) with 256. change (2 ^ (8 * 0)) with 1.
  change (2 ^ 8) with 256. change (2 ^ 24) with 16777216. change (2 ^ 16) with 65536. change (2 ^ 32) with 4294967296 in Hu.
  Z.div_mod_to_equations. lia.
Qed.
