(* ===== verification/CfnGraph.v ===== *)
(** * Dependency order of a stack's resources (cfn/graph.go)

    Kahn's algorithm over the logical ids, with ties broken by position: every resource after those it
    depends on, and an error that names the resources left tangled in a cycle. *)

From S2P Require Import Prelude.
From stdpp Require Import sorting.
#[local] Open Scope string_scope.
#[local] Open Scope Z_scope.
#[local] Open Scope list_scope.

(** ** The graph *)

Record graph := mkGraph {
  gIndeg : gmap string Z;
  gDependents : gmap string (list string);
}.
Definition indeg (g : graph) (id : string) : Z := default 0 (gIndeg g !! id).
Definition dependents (g : graph) (id : string) : list string := default [] (gDependents g !! id).

(** pos: the position of each id, a Go map read with a default of zero. *)
Definition positions (rawOrder : list string) : gmap string Z :=
  foldl (λ m ki, <[ki.2 := ki.1]> m) ∅ (imap (λ i id, (Z.of_nat i, id)) rawOrder).
Definition pos_of (rawOrder : list string) (id : string) : Z := default 0 (positions rawOrder !! id).

(** One edge, and the edges of one resource: its dependencies that are resources, each once. *)
Definition add_edge (id dep : string) (g : graph) : graph :=
  mkGraph (<[id := indeg g id + 1]> (gIndeg g)) (<[dep := dependents g dep ++ [id]]> (gDependents g)).
Definition add_edges (id : string) (ds : list string) (g : graph) : graph :=
  (foldl (λ '(seen, g) dep,
     if String.eqb dep id || bool_decide (dep ∈ seen) then (seen, g)
     else match gIndeg g !! dep with
          | None => (seen, g)
          | Some _ => (dep :: seen, add_edge id dep g)
          end) ([], g) ds).2.
Definition nodes (rawOrder : list string) : graph :=
  mkGraph (foldl (λ m id, <[id := 0]> m) ∅ rawOrder) ∅.
Definition build (rawOrder : list string) (deps : gmap string (list string)) : graph :=
  foldl (λ g id, add_edges id (default [] (deps !! id)) g) (nodes rawOrder) rawOrder.

(** ** The order *)

(** sort.Slice by position. *)
Definition by_pos (pos : string → Z) : relation string := λ a b, pos a ≤ pos b.
#[export] Instance by_pos_dec pos : RelDecision (by_pos pos) := λ a b, decide (pos a ≤ pos b).
#[export] Instance by_pos_total pos : Total (by_pos pos).
Proof. intros a b. unfold by_pos. lia. Qed.
#[export] Instance by_pos_trans pos : Transitive (by_pos pos).
Proof. intros a b c. unfold by_pos. lia. Qed.
Definition sortByPos (pos : string → Z) (ids : list string) : list string := merge_sort (by_pos pos) ids.

(** insertByPos: before the first id with a greater position. *)
Fixpoint insertByPos (pos : string → Z) (ready : list string) (id : string) : list string :=
  match ready with
  | [] => [id]
  | x :: ready => if pos id <? pos x then id :: x :: ready else x :: insertByPos pos ready id
  end.

(** The dependents of an id that has been placed. *)
Definition release (pos : string → Z) (next : list string) (st : gmap string Z * list string) : gmap string Z * list string :=
  foldl (λ '(deg, ready) d,
    let n := default 0 (deg !! d) - 1 in
    (<[d := n]> deg, if n =? 0 then insertByPos pos ready d else ready)) st next.

(** The loop, and what is left of the degrees. *)
Fixpoint place (pos : string → Z) (g : graph) (fuel : nat) (deg : gmap string Z) (ready out : list string)
    : option (list string * gmap string Z) :=
  match ready with
  | [] => Some (out, deg)
  | id :: ready =>
      match fuel with
      | O => None
      | S fuel =>
          let '(deg, ready) := release pos (sortByPos pos (dependents g id)) (deg, ready) in
          place pos g fuel deg ready (out ++ [id])
      end
  end.

(** The resources in order, or those that are stuck; [None] when the fuel runs out. *)
Definition order (rawOrder : list string) (deps : gmap string (list string)) : option (res (list string) (list string)) :=
  let pos := pos_of rawOrder in
  let g := build rawOrder deps in
  let ready := sortByPos pos (filter (λ id, indeg g id = 0) rawOrder) in
  '(out, deg) ← place pos g (length rawOrder) (gIndeg g) ready [];
  if (length out =? length rawOrder)%nat then Some (Ok out)
  else Some (Err (sortByPos pos (filter (λ id, 0 < default 0 (deg !! id)) rawOrder))).

(** A diamond: b and c need a, d needs both. *)
Definition diamond : gmap string (list string) := {["b" := ["a"]; "c" := ["a"; "a"; "x"]; "d" := ["c"; "b"; "d"]]}.
Example order_diamond : order ["d"; "c"; "b"; "a"] diamond = Some (Ok ["a"; "c"; "b"; "d"]).
Proof. vm_compute. reflexivity. Qed.
Example order_cycle : order ["a"; "b"; "c"] {["a" := ["b"]; "b" := ["a"]; "c" := ["b"]]} = Some (Err ["a"; "b"; "c"]).
Proof. vm_compute. reflexivity. Qed.

(** ** What the graph holds *)

(** [x] needs [d]: a dependency that is another resource. *)
Definition needs (rawOrder : list string) (deps : gmap string (list string)) (x d : string) : Prop :=
  x ∈ rawOrder ∧ d ∈ default [] (deps !! x) ∧ d ≠ x ∧ d ∈ rawOrder.

Section Graph.
Context (rawOrder : list string) (deps : gmap string (list string)).

(** The dependencies of [id] that make an edge, each once. *)
Definition uniq (id : string) (seen ds : list string) : list string :=
  foldl (λ seen dep, if String.eqb dep id || bool_decide (dep ∈ seen) || negb (bool_decide (dep ∈ rawOrder)) then seen else dep :: seen) seen ds.
Definition edges (id : string) : list string := uniq id [] (default [] (deps !! id)).

Lemma uniq_spec id seen ds :
  NoDup seen → NoDup (uniq id seen ds) ∧ ∀ x, x ∈ uniq id seen ds ↔ x ∈ seen ∨ (x ∈ ds ∧ x ≠ id ∧ x ∈ rawOrder).
Proof.
  revert seen. induction ds as [|d ds IH]; intros seen Hs; cbn [uniq foldl]; [set_solver|].
  destruct (String.eqb_spec d id) as [->|Hd]; cbn [orb]; [destruct (IH seen Hs) as [? H]; set_solver|].
  destruct (bool_decide_reflect (d ∈ seen)); cbn [orb]; [destruct (IH seen Hs) as [? H]; set_solver|].
  destruct (bool_decide_reflect (d ∈ rawOrder)); cbn [negb]; [|destruct (IH seen Hs) as [? H]; set_solver].
  destruct (IH (d :: seen)) as [? H]; [by constructor|]. set_solver.
Qed.
Lemma edges_needs id d : id ∈ rawOrder → d ∈ edges id ↔ needs rawOrder deps id d.
Proof. intros Hid. unfold edges, needs. rewrite (proj2 (uniq_spec id [] _ (NoDup_nil_2))). set_solver. Qed.
Lemma edges_NoDup id : NoDup (edges id).
Proof. apply uniq_spec, NoDup_nil_2. Qed.
Lemma uniq_incl id seen ds : seen ⊆ uniq id seen ds.
Proof.
  revert seen. induction ds as [|d ds IH]; intros seen; cbn [uniq foldl]; [done|].
  destruct (_ || _); [apply IH|]. pose proof (IH (d :: seen)). set_solver.
Qed.

(** The degrees are kept for the resources only. *)
Definition tracks (g : graph) : Prop := ∀ x, is_Some (gIndeg g !! x) ↔ x ∈ rawOrder.

Lemma indeg_add id dep g x : indeg (add_edge id dep g) x = indeg g x + if decide (x = id) then 1 else 0.
Proof.
  unfold indeg, add_edge; cbn. destruct (decide (x = id)) as [->|]; [by rewrite lookup_insert_eq|].
  rewrite lookup_insert_ne by done. lia.
Qed.
Lemma dependents_add id dep g x : dependents (add_edge id dep g) x = dependents g x ++ if decide (x = dep) then [id] else [].
Proof.
  unfold dependents, add_edge; cbn. destruct (decide (x = dep)) as [->|]; [by rewrite lookup_insert_eq|].
  rewrite lookup_insert_ne by done. by rewrite app_nil_r.
Qed.
Lemma tracks_add id dep g : id ∈ rawOrder → tracks g → tracks (add_edge id dep g).
Proof.
  intros Hid Hg x. cbn. destruct (decide (x = id)) as [->|]; [rewrite lookup_insert_eq; naive_solver|].
  rewrite lookup_insert_ne by done. apply Hg.
Qed.

Lemma add_edges_spec id ds g :
  id ∈ rawOrder → tracks g →
  let g' := add_edges id ds g in
  tracks g' ∧ (∀ x, indeg g' x = indeg g x + if decide (x = id) then len (uniq id [] ds) else 0) ∧
  (∀ x, dependents g' x = dependents g x ++ if decide (x ∈ uniq id [] ds) then [id] else []).
Proof.
  intros Hid Hg. unfold add_edges. cbv zeta.
  enough (H : ∀ seen g, tracks g →
    let '(seen', g') := foldl (λ '(seen, g) dep,
       if String.eqb dep id || bool_decide (dep ∈ seen) then (seen, g)
       else match gIndeg g !! dep with None => (seen, g) | Some _ => (dep :: seen, add_edge id dep g) end) (seen, g) ds in
    seen' = uniq id seen ds ∧ tracks g' ∧
    (∀ x, indeg g' x = indeg g x + if decide (x = id) then len (uniq id seen ds) - len seen else 0) ∧
    (∀ x, dependents g' x = dependents g x ++ if decide (x ∈ uniq id seen ds ∧ x ∉ seen) then [id] else [])).
  { specialize (H [] g Hg). destruct (foldl _ _ ds) as [seen' g']. destruct H as (_ & Ht & Hi & Hd). split_and!; [done| |].
    - intros x. rewrite Hi. destruct (decide (x = id)); rewrite ?len_nil; lia.
    - intros x. cbn [snd]. rewrite Hd. f_equal. apply decide_ext. set_solver. }
  clear g Hg. induction ds as [|d ds IH]; intros seen g Hg; cbn [foldl].
  { cbn [uniq foldl]. split_and!; [done..| |]; intros x.
    - destruct (decide _); lia.
    - rewrite decide_False by tauto. by rewrite app_nil_r. }
  cbn [uniq foldl]. destruct (String.eqb d id || bool_decide (d ∈ seen)) eqn:Ed; cbn [orb]; [by apply IH|].
  destruct (gIndeg g !! d) as [n|] eqn:En.
  - rewrite bool_decide_eq_true_2 by (apply Hg; by eexists). cbn [negb].
    pose proof (IH (d :: seen) (add_edge id d g) (tracks_add id d g Hid Hg)) as H.
    destruct (foldl _ (d :: seen, add_edge id d g) ds) as [seen' g'].
    destruct H as (-> & Ht & Hi & Hd). apply orb_false_iff in Ed as [_ Ed%bool_decide_eq_false].
    split_and!; [done..| |]; intros x.
    + rewrite Hi, indeg_add. fold (uniq id (d :: seen) ds). destruct (decide (x = id)); rewrite ?len_cons; lia.
    + rewrite Hd, dependents_add, <- app_assoc. fold (uniq id (d :: seen) ds). f_equal.
      pose proof (uniq_incl id (d :: seen) ds). destruct (decide (x = d)) as [->|].
      * rewrite decide_False by set_solver. rewrite decide_True by set_solver. done.
      * apply decide_ext. set_solver.
  - rewrite bool_decide_eq_false_2 by (intros Hd%Hg; rewrite En in Hd; by destruct Hd). cbn [negb]. by apply IH.
Qed.

Lemma nodes_spec : tracks (nodes rawOrder) ∧ (∀ x, indeg (nodes rawOrder) x = 0) ∧ ∀ x, dependents (nodes rawOrder) x = [].
Proof.
  unfold nodes, tracks, indeg, dependents. cbn [gIndeg gDependents].
  enough (H : ∀ l (m : gmap string Z), (∀ x, default 0 (m !! x) = 0) →
    (∀ x, is_Some (foldl (λ m id, <[id := 0]> m) m l !! x) ↔ is_Some (m !! x) ∨ x ∈ l) ∧
    ∀ x, default 0 (foldl (λ m id, <[id := 0]> m) m l !! x) = 0).
  { destruct (H rawOrder ∅) as [Ha Hb]; [by intros|]. split_and!; [|done|done].
    intros x. rewrite Ha, lookup_empty. split; [by intros [[? [=]]|?]|by right]. }
  induction l as [|y l IH]; intros m Hm; cbn [foldl]; [set_solver|].
  destruct (IH (<[y := 0]> m)) as [Ha Hb].
  { intros x. destruct (decide (x = y)) as [->|]; [by rewrite lookup_insert_eq|by rewrite lookup_insert_ne]. }
  split; [|done]. intros x. rewrite Ha, elem_of_cons. destruct (decide (x = y)) as [->|].
  - rewrite lookup_insert_eq. naive_solver.
  - rewrite lookup_insert_ne by done. naive_solver.
Qed.

Lemma build_spec :
  NoDup rawOrder →
  let g := build rawOrder deps in
  (∀ x, x ∈ rawOrder → indeg g x = len (edges x)) ∧ (∀ x, dependents g x = filter (λ id, x ∈ edges id) rawOrder).
Proof.
  intros Hnd. unfold build. cbv zeta. destruct nodes_spec as (Ht0 & Hi0 & Hd0). revert Ht0 Hi0 Hd0.
  generalize (nodes rawOrder). intros g0 Ht0 Hi0 Hd0.
  enough (H : ∀ l g, NoDup l → l ⊆ rawOrder → tracks g →
    let g' := foldl (λ g id, add_edges id (default [] (deps !! id)) g) g l in
    (∀ x, indeg g' x = indeg g x + if decide (x ∈ l) then len (edges x) else 0) ∧
    (∀ x, dependents g' x = dependents g x ++ filter (λ id, x ∈ edges id) l)).
  { destruct (H rawOrder g0 Hnd (reflexivity _) Ht0) as [Ha Hb]. split; intros x.
    - intros Hx. by rewrite Ha, Hi0, decide_True.
    - by rewrite Hb, Hd0. }
  clear. induction l as [|id l IH]; intros g Hnd Hl Ht; cbn [foldl].
  { split; intros x; [rewrite decide_False by set_solver; lia|by rewrite app_nil_r]. }
  apply NoDup_cons in Hnd as [Hid Hnd]. destruct (add_edges_spec id (default [] (deps !! id)) g) as (Ht' & Hi & Hd); [set_solver|done|].
  destruct (IH _ Hnd ltac:(set_solver) Ht') as [Ha Hb]. split; intros x.
  - rewrite Ha, Hi. fold (edges id). destruct (decide (x = id)) as [->|].
    + rewrite decide_False by done. rewrite decide_True by set_solver. lia.
    + destruct (decide (x ∈ l)); [rewrite decide_True by set_solver|rewrite decide_False by set_solver]; lia.
  - rewrite Hb, Hd, filter_cons, <- app_assoc. fold (edges id). f_equal. by destruct (decide (x ∈ edges id)).
Qed.
End Graph.

(** ** Releasing the dependents of a placed resource *)

Lemma filter_ext_in {A} (P Q : A → Prop) {DP : ∀ x, Decision (P x)} {DQ : ∀ x, Decision (Q x)} (l : list A) :
  (∀ x, x ∈ l → P x ↔ Q x) → filter P l = filter Q l.
Proof.
  induction l as [|x l IH]; intros H; [done|]. rewrite !filter_cons, IH by (intros y Hy; apply H; by right).
  destruct (decide (P x)) as [HP|HP], (decide (Q x)) as [HQ|HQ]; try done; exfalso; by rewrite (H x) in HP by by left.
Qed.
Section Release.
Context (pos : string → Z).

Lemma insertByPos_perm ready id : insertByPos pos ready id ≡ₚ id :: ready.
Proof.
  induction ready as [|x ready IH]; cbn; [done|]. destruct (_ <? _); [done|]. rewrite IH. apply Permutation_swap.
Qed.
Lemma insertByPos_sorted ready id : StronglySorted (by_pos pos) ready → StronglySorted (by_pos pos) (insertByPos pos ready id).
Proof.
  induction 1 as [|x ready Hs IH Hx]; cbn; [by repeat constructor|].
  destruct (Z.ltb_spec (pos id) (pos x)) as [Hlt|Hge].
  - constructor; [by constructor|]. constructor; [unfold by_pos; lia|].
    eapply Forall_impl; [exact Hx|]. unfold by_pos. cbn. lia.
  - constructor; [done|]. rewrite insertByPos_perm. constructor; [by unfold by_pos|done].
Qed.

Definition degree (deg : gmap string Z) (x : string) : Z := default 0 (deg !! x).

Lemma release_spec next deg ready :
  NoDup next → StronglySorted (by_pos pos) ready →
  let '(deg', ready') := release pos next (deg, ready) in
  (∀ x, degree deg' x = degree deg x - if decide (x ∈ next) then 1 else 0) ∧
  ready' ≡ₚ ready ++ filter (λ d, degree deg d = 1) next ∧ StronglySorted (by_pos pos) ready'.
Proof.
  revert deg ready. induction next as [|d next IH]; intros deg ready Hnd Hs; cbn [release foldl].
  { split_and!; [|by rewrite filter_nil, app_nil_r|done]. intros x. rewrite decide_False by apply not_elem_of_nil. lia. }
  apply NoDup_cons in Hnd as [Hd Hnd]. fold (degree deg d). set (n := degree deg d - 1).
  specialize (IH (<[d := n]> deg) (if n =? 0 then insertByPos pos ready d else ready) Hnd).
  destruct (foldl _ _ next) as [deg' ready'] eqn:E. unfold release in IH. rewrite E in IH.
  destruct IH as (Hdeg & Hr & Hs'); [destruct (n =? 0); [by apply insertByPos_sorted|done]|].
  assert (Hne : ∀ x, x ≠ d → degree (<[d := n]> deg) x = degree deg x) by (intros; unfold degree; by rewrite lookup_insert_ne).
  split_and!; [| |done].
  - intros x. rewrite Hdeg. destruct (decide (x = d)) as [->|Hx].
    + rewrite decide_False by done. rewrite decide_True by set_solver. unfold degree at 1. rewrite lookup_insert_eq. cbn. lia.
    + rewrite Hne by done. destruct (decide (x ∈ next)); [rewrite decide_True by set_solver|rewrite decide_False by set_solver]; lia.
  - rewrite Hr, filter_cons.
    assert (filter (λ d0, degree (<[d := n]> deg) d0 = 1) next = filter (λ d0, degree deg d0 = 1) next) as ->.
    { apply filter_ext_in. intros x Hx. rewrite Hne; [done|]. by intros ->. }
    destruct (Z.eqb_spec n 0) as [Hn|Hn].
    + rewrite decide_True by lia. rewrite insertByPos_perm. cbn. apply Permutation_middle.
    + by rewrite decide_False by lia.
Qed.
End Release.

(** ** The loop *)

Section Loop.
Context (rawOrder : list string) (deps : gmap string (list string)) (Hnd : NoDup rawOrder).
#[local] Abbreviation pos := (pos_of rawOrder).
#[local] Abbreviation g := (build rawOrder deps).
#[local] Abbreviation edges := (edges rawOrder deps).

(** What is still to be placed before [x], and when [x] could be. *)
Definition awaits (out : list string) (x : string) : list string := filter (λ d, d ∉ out) (edges x).
Definition free (out : list string) (x : string) : Prop := ∀ d, d ∈ edges x → d ∈ out.

Lemma awaits_nil out x : awaits out x = [] ↔ free out x.
Proof. unfold awaits. rewrite filter_none. unfold free. split; intros H d Hd; specialize (H d Hd); [by destruct (decide (d ∈ out))|tauto]. Qed.

Lemma awaits_snoc out id x :
  id ∉ out → len (awaits (out ++ [id]) x) = len (awaits out x) - if decide (id ∈ edges x) then 1 else 0.
Proof.
  intros Hid. unfold awaits. pose proof (edges_NoDup rawOrder deps x) as Hn. revert Hn. generalize (edges x). intros l.
  induction 1 as [|d l Hd _ IH]; [by rewrite !filter_nil|]. rewrite !filter_cons.
  destruct (decide (d = id)) as [->|Hne].
  - rewrite decide_False by set_solver. rewrite decide_True by done. rewrite (decide_True (P := id ∈ id :: l)) by by left.
    rewrite len_cons. rewrite decide_False in IH by done. lia.
  - destruct (decide (d ∉ out)).
    + rewrite decide_True by set_solver. rewrite !len_cons, IH. destruct (decide (id ∈ l)); [rewrite decide_True by set_solver|rewrite decide_False by set_solver]; lia.
    + rewrite decide_False by set_solver. rewrite IH. destruct (decide (id ∈ l)); [rewrite decide_True by set_solver|rewrite decide_False by set_solver]; lia.
Qed.

(** Each resource after what it needs, and each the first by position of those that could come next. *)
Definition placed (out : list string) : Prop :=
  ∀ i x, out !! i = Some x →
    free (take i out) x ∧ (∀ y, y ∈ rawOrder → y ∉ take i out → free (take i out) y → pos x ≤ pos y).

Record inv (deg : gmap string Z) (ready out : list string) : Prop := {
  inv_nodup : NoDup (out ++ ready);
  inv_sub : out ++ ready ⊆ rawOrder;
  inv_deg x : x ∈ rawOrder → degree deg x = len (awaits out x);
  inv_ready x : x ∈ rawOrder → free out x → x ∈ out ++ ready;
  inv_free x : x ∈ ready → free out x;
  inv_sorted : StronglySorted (by_pos pos) ready;
  inv_placed : placed out;
}.

Lemma placed_snoc out id :
  placed out → free out id → (∀ y, y ∈ rawOrder → y ∉ out → free out y → pos id ≤ pos y) → placed (out ++ [id]).
Proof.
  intros Hp Hf Hl i x [Hi|(Hi & [Hz <-]%list_lookup_singleton_Some)]%lookup_app_Some.
  - pose proof (lookup_lt_Some _ _ _ Hi). rewrite take_app_le by lia. by apply Hp.
  - rewrite take_app_length' by lia. by split.
Qed.

Lemma placed_needs out x d : placed out → x ∈ out → d ∈ edges x → d ∈ out.
Proof. intros Hp [i Hi]%list_elem_of_lookup Hd. destruct (Hp i x Hi) as [Hf _]. apply Hf, elem_of_take in Hd as (j & Hj & _). by eapply list_elem_of_lookup_2. Qed.

Lemma elem_of_next id x : x ∈ sortByPos pos (dependents g id) ↔ id ∈ edges x ∧ x ∈ rawOrder.
Proof.
  unfold sortByPos. rewrite merge_sort_Permutation, (proj2 (build_spec rawOrder deps Hnd)). apply (list_elem_of_filter (λ x, id ∈ edges x)).
Qed.
Lemma next_NoDup id : NoDup (sortByPos pos (dependents g id)).
Proof.
  unfold sortByPos. rewrite merge_sort_Permutation, (proj2 (build_spec rawOrder deps Hnd)). by apply NoDup_filter.
Qed.

Lemma place_step deg id ready out :
  inv deg (id :: ready) out →
  let '(deg', ready') := release pos (sortByPos pos (dependents g id)) (deg, ready) in inv deg' ready' (out ++ [id]).
Proof.
  intros [Hn Hsub Hdeg Hready Hfree Hs Hp].
  pose proof (release_spec pos (sortByPos pos (dependents g id)) deg ready (next_NoDup id) ltac:(by inversion Hs)) as Hrel.
  destruct (release _ _ _) as [deg' ready']. destruct Hrel as (Hd' & Hr' & Hs').
  set (new := filter _ _) in Hr'.
  assert (Hnew : ∀ y, y ∈ new ↔ degree deg y = 1 ∧ id ∈ edges y ∧ y ∈ rawOrder).
  { intros y. unfold new. rewrite list_elem_of_filter, elem_of_next. done. }
  assert (Hid : id ∉ out ∧ id ∉ ready ∧ NoDup ready ∧ NoDup out ∧ ∀ y, y ∈ ready → y ∉ out).
  { apply NoDup_app in Hn as (? & Hx & [? ?]%NoDup_cons). set_solver. }
  destruct Hid as (Hido & Hidr & Hnr & Hno & Hro).
  assert (Hidraw : id ∈ rawOrder) by set_solver.
  assert (Hdeg' : ∀ x, x ∈ rawOrder → degree deg' x = len (awaits (out ++ [id]) x)).
  { intros x Hx. rewrite Hd', awaits_snoc, Hdeg by done. f_equal.
    destruct (decide (id ∈ edges x)); [rewrite decide_True by (by apply elem_of_next)|rewrite decide_False by (rewrite elem_of_next; tauto)]; done. }
  assert (Hfree' : ∀ x, x ∈ rawOrder → degree deg' x = 0 → free (out ++ [id]) x).
  { intros x Hx Hz. apply awaits_nil. rewrite Hdeg' in Hz by done. unfold len in Hz. apply length_zero_iff_nil. lia. }
  assert (Hsplit : out ++ id :: ready ≡ₚ (out ++ [id]) ++ ready) by by rewrite <- app_assoc.
  constructor; [| |done| | |done|].
  - rewrite Hr', app_assoc, <- Hsplit. apply NoDup_app. split_and!; [done| |unfold new; apply NoDup_filter, next_NoDup].
    intros y [Hy|[->|Hy]%elem_of_cons]%elem_of_app (_ & Hyid & Hyraw)%Hnew.
    + by pose proof (placed_needs out y id Hp Hy Hyid).
    + by apply edges_needs in Hyid as (_ & _ & ? & _).
    + apply Hido, (Hfree y); [by right|done].
  - rewrite Hr', app_assoc, <- Hsplit. intros y [Hy|(_ & _ & Hy)%Hnew]%elem_of_app; [by apply Hsub|done].
  - intros x Hx Hf. rewrite Hr', app_assoc, <- Hsplit. destruct (decide (id ∈ edges x)) as [He|He].
    + destruct (decide (x ∈ out ++ id :: ready)) as [|Hxo]; [set_solver|]. apply elem_of_app. right. apply Hnew. split_and!; [|done..].
      pose proof (Hd' x) as H1. rewrite Hdeg' in H1 by done. rewrite (proj2 (awaits_nil _ _) Hf), len_nil in H1.
      rewrite decide_True in H1 by (by apply elem_of_next). lia.
    + apply elem_of_app. left. apply Hready; [done|]. intros d Hd. specialize (Hf d Hd). set_solver.
  - intros x Hx. rewrite Hr' in Hx. apply elem_of_app in Hx as [Hx|(H1 & He & Hx)%Hnew].
    + intros d Hd. apply elem_of_app. left. apply (Hfree x); [by right|done].
    + apply Hfree'; [done|]. rewrite Hd', decide_True by (by apply elem_of_next). lia.
  - apply placed_snoc; [done|apply Hfree; by left|]. intros y Hy Hyo Hyf. specialize (Hready y Hy Hyf).
    apply elem_of_app in Hready as [?|[->|Hyr]%elem_of_cons]; [done|lia|].
    inversion Hs as [|? ? _ Hall]; subst. rewrite Forall_forall in Hall. exact (Hall y Hyr).
Qed.

Lemma inv_length deg ready out : inv deg ready out → (length out + length ready ≤ length rawOrder)%nat.
Proof.
  intros [Hn Hsub _ _ _ _ _]. rewrite <- length_app. apply submseteq_length, NoDup_submseteq; [done|]. by intros x Hx; apply Hsub.
Qed.

Lemma place_spec fuel deg ready out :
  inv deg ready out → (length rawOrder - length out ≤ fuel)%nat →
  ∃ out' deg', place pos g fuel deg ready out = Some (out', deg') ∧ inv deg' [] out'.
Proof.
  revert deg ready out. induction fuel as [|fuel IH]; intros deg [|id ready] out Hi Hf; cbn [place].
  - by eexists _, _.
  - pose proof (inv_length _ _ _ Hi) as Hl. cbn in Hl. lia.
  - by eexists _, _.
  - pose proof (place_step _ _ _ _ Hi) as H. destruct (release _ _ _) as [deg' ready']. apply IH; [done|].
    rewrite length_app. cbn. lia.
Qed.

Lemma inv_start : inv (gIndeg g) (sortByPos pos (filter (λ id, indeg g id = 0) rawOrder)) [].
Proof.
  destruct (build_spec rawOrder deps Hnd) as [Hi _].
  assert (Ha : ∀ x, awaits [] x = edges x).
  { intros x. unfold awaits. induction (edges x) as [|d l IH]; [done|]. rewrite filter_cons, IH. by rewrite decide_True by apply not_elem_of_nil. }
  assert (Hz : ∀ x, x ∈ rawOrder → indeg g x = 0 ↔ free [] x).
  { intros x Hx. rewrite Hi, <- awaits_nil, Ha by done. unfold len. rewrite <- length_zero_iff_nil. lia. }
  constructor; cbn [app].
  - unfold sortByPos. rewrite merge_sort_Permutation. by apply NoDup_filter.
  - unfold sortByPos. rewrite merge_sort_Permutation. intros x Hx. by apply list_elem_of_filter in Hx as [_ ?].
  - intros x Hx. unfold degree. fold (indeg g x). rewrite Hi, Ha by done. done.
  - intros x Hx Hf. unfold sortByPos. rewrite merge_sort_Permutation. apply list_elem_of_filter. split; [by apply Hz|done].
  - intros x Hx. unfold sortByPos in Hx. rewrite merge_sort_Permutation in Hx. apply list_elem_of_filter in Hx as [Hx0 Hx]. by apply Hz.
  - apply StronglySorted_merge_sort; apply _.
  - by intros i x [=].
Qed.
End Loop.

(** C16: Resources are ordered so that each comes after everything it needs, and of those that could come
    next the first of the template does; all of them are, unless some are left that each need another of
    them, which the error names. *)
Theorem order_correct (rawOrder : list string) (deps : gmap string (list string)) :
  NoDup rawOrder →
  match order rawOrder deps with
  | Some (Ok out) =>
      out ≡ₚ rawOrder ∧
      (∀ i x d, out !! i = Some x → needs rawOrder deps x d → d ∈ take i out) ∧
      (∀ i x y, out !! i = Some x → y ∈ rawOrder → y ∉ take i out →
         (∀ d, needs rawOrder deps y d → d ∈ take i out) → pos_of rawOrder x ≤ pos_of rawOrder y)
  | Some (Err stuck) => stuck ≠ [] ∧ ∀ x, x ∈ stuck → ∃ d, d ∈ stuck ∧ needs rawOrder deps x d
  | None => False
  end.
Proof.
  intros Hnd. unfold order.
  destruct (place_spec rawOrder deps Hnd (length rawOrder) _ _ _ (inv_start rawOrder deps Hnd) ltac:(lia)) as (out & deg & -> & [Hn Hsub Hdeg Hready _ _ Hp]).
  rewrite app_nil_r in Hn, Hsub, Hready. cbn [mbind option_bind].
  assert (Hs : out ⊆+ rawOrder) by (apply NoDup_submseteq; [done|by intros x Hx; apply Hsub]).
  destruct (Nat.eqb_spec (length out) (length rawOrder)) as [El|El].
  - split_and!; [by apply submseteq_length_Permutation; [|lia]| |].
    + intros i x d Hi Hd. destruct (Hp i x Hi) as [Hf _]. apply Hf, edges_needs; [by destruct Hd|done].
    + intros i x y Hi Hy Hyo Hyf. destruct (Hp i x Hi) as [_ Hl]. apply Hl; [done..|].
      intros d Hd. apply Hyf. by apply edges_needs in Hd.
  - assert (Hst : ∀ x, x ∈ sortByPos (pos_of rawOrder) (filter (λ id, 0 < default 0 (deg !! id)) rawOrder) ↔ x ∈ rawOrder ∧ awaits rawOrder deps out x ≠ []).
    { intros x. unfold sortByPos. rewrite merge_sort_Permutation, list_elem_of_filter.
      enough (x ∈ rawOrder → 0 < default 0 (deg !! x) ↔ awaits rawOrder deps out x ≠ []) by tauto.
      intros Hx. specialize (Hdeg x Hx). unfold degree in Hdeg. rewrite Hdeg. unfold len.
      destruct (awaits _ _ _ _); cbn; split; [lia|done|done|lia]. }
    assert (Hout : ∀ x, x ∈ rawOrder → x ∉ out → awaits rawOrder deps out x ≠ []).
    { intros x Hx Hxo Hf%awaits_nil. by apply Hxo, Hready. }
    split.
    + destruct (decide (Forall (λ x, x ∈ out) rawOrder)) as [Hall|Hex].
      * rewrite Forall_forall in Hall. apply submseteq_length in Hs. destruct El. apply Nat.le_antisymm; [done|].
        apply submseteq_length, NoDup_submseteq; done.
      * apply not_Forall_Exists in Hex; [|intros ?; apply _]. apply Exists_exists in Hex as (x & Hx & Hxo). intros Hnil. apply (not_elem_of_nil x). rewrite <- Hnil. apply Hst. by split; [|apply Hout].
    + intros x [Hx Ha]%Hst. destruct (awaits rawOrder deps out x) as [|d l] eqn:E; [done|].
      assert (Hd : d ∈ awaits rawOrder deps out x) by (rewrite E; by left). apply list_elem_of_filter in Hd as [Hdo Hd].
      apply edges_needs in Hd; [|done]. exists d. split; [|done]. apply Hst. destruct Hd as (_ & _ & _ & Hd). by split; [|apply Hout].
Qed.

(** ** Cycles *)

(** A relation on which every element of a list has a successor in the list goes round in a circle. *)
Lemma successors_cycle {A} `{EqDecision A} (R : relation A) (l : list A) :
  l ≠ [] → (∀ x, x ∈ l → ∃ y, y ∈ l ∧ R x y) → ∃ x, tc R x x.
Proof.
  intros Hne Hsucc.
  assert (Hpath : ∀ n, (∃ x, tc R x x) ∨ ∃ h p, length p = n ∧ NoDup (h :: p) ∧ (h :: p) ⊆ l ∧ ∀ x, x ∈ p → tc R x h).
  { induction n as [|n [Hc|(h & p & Hl & Hn & Hsub & Hp)]]; [|by left|].
    - right. destruct l as [|x l]; [done|]. exists x, []. split_and!; [done| |set_solver|set_solver]. apply NoDup_singleton.
    - destruct (Hsucc h) as (y & Hy & Hr); [set_solver|]. destruct (decide (y ∈ h :: p)) as [Hin|Hin].
      + left. apply elem_of_cons in Hin as [->|Hin]; [exists h; by apply tc_once|].
        exists y. eapply tc_r; [by apply Hp|done].
      + right. exists y, (h :: p). split_and!; [cbn; lia|by constructor|set_solver|].
        intros x [->|Hx]%elem_of_cons; [by apply tc_once|]. eapply tc_r; [by apply Hp|done]. }
  destruct (Hpath (length l)) as [Hc|(h & p & Hl & Hn & Hsub & _)]; [done|].
  pose proof (submseteq_length _ _ (NoDup_submseteq _ l Hn (λ x Hx, Hsub x Hx))) as H. cbn in H. lia.
Qed.

(** The order fails exactly when the resources depend on each other in a circle. *)
Theorem order_rejects_cycles (rawOrder : list string) (deps : gmap string (list string)) :
  NoDup rawOrder →
  (∃ stuck, order rawOrder deps = Some (Err stuck)) ↔ ∃ x, tc (needs rawOrder deps) x x.
Proof.
  intros Hnd. pose proof (order_correct rawOrder deps Hnd) as H. split.
  - intros [stuck Hs]. rewrite Hs in H. destruct H as [Hne H]. apply (successors_cycle _ stuck Hne).
    intros x Hx. destruct (H x Hx) as (d & Hd & Hneed). by exists d.
  - intros [x Hx]. destruct (order rawOrder deps) as [[out|stuck]|]; [|by eexists|done]. exfalso.
    destruct H as (Hperm & Hbefore & _).
    assert (Hdown : ∀ x y, tc (needs rawOrder deps) x y → ∀ i, out !! i = Some x → ∃ j, (j < i)%nat ∧ out !! j = Some y).
    { clear x Hx. intros x y Hxy0. induction Hxy0 as [x y Hxy|x y z Hxy _ IH]; intros i Hi.
      - destruct (proj1 (elem_of_take _ _ _) (Hbefore i x y Hi Hxy)) as (j & ? & ?). by exists j.
      - destruct (proj1 (elem_of_take _ _ _) (Hbefore i x y Hi Hxy)) as (j & Hj & ?). destruct (IH j Hj) as (k & ? & ?). exists k. split; [lia|done]. }
    assert (Hall : ∀ i, out !! i ≠ Some x).
    { induction i as [i IH] using lt_wf_ind. intros Hi. destruct (Hdown x x Hx i Hi) as (j & Hj & Hjx). by destruct (IH j Hj). }
    assert (Hin : x ∈ out).
    { rewrite Hperm. inversion Hx as [? ? (Hr & _)|? y ? (Hr & _) ?]; subst; exact Hr. }
    apply list_elem_of_lookup in Hin as [i Hi]. by destruct (Hall i).
Qed.

(** ** At concrete stacks *)

Lemma order_correct_witness :
  ∃ out, order ["d"; "c"; "b"; "a"] diamond = Some (Ok out) ∧ out ≡ₚ ["d"; "c"; "b"; "a"].
Proof.
  assert (Hnd : NoDup ["d"; "c"; "b"; "a"]) by (apply (bool_decide_unpack _); vm_compute; exact I).
  pose proof (order_correct ["d"; "c"; "b"; "a"] diamond Hnd) as H. rewrite order_diamond in H.
  exists ["a"; "c"; "b"; "d"]. split; [exact order_diamond|exact (proj1 H)].
Defined.

Lemma order_rejects_cycles_witness :
  ∃ x, tc (needs ["a"; "b"; "c"] {["a" := ["b"]; "b" := ["a"]; "c" := ["b"]]}) x x.
Proof.
  assert (Hnd : NoDup ["a"; "b"; "c"]) by (apply (bool_decide_unpack _); vm_compute; exact I).
  apply (proj1 (order_rejects_cycles ["a"; "b"; "c"] {["a" := ["b"]; "b" := ["a"]; "c" := ["b"]]} Hnd)).
  exists ["a"; "b"; "c"]. vm_compute. reflexivity.
Defined.

(** The ids of a parsed template come in the order its Go map is iterated, so the order of resources that
    do not depend on each other is that of the iteration. *)
Lemma order_follows_iteration :
  order ["a"; "b"] ∅ = Some (Ok ["a"; "b"]) ∧ order ["b"; "a"] ∅ = Some (Ok ["b"; "a"]).
Proof. split; vm_compute; reflexivity. Qed.
