(* ===== verification/CfnTemplate.v ===== *)
(** * CloudFormation templates (cfn/template.go)

    The values a template's JSON or YAML decodes to, their text under fmt.Sprint, and the sections the
    engine reads.  A Go map is the list of its entries in the order it is iterated. *)

From S2P Require Export Prelude GoStrings.
From Stdlib Require Export SpecFloat.
#[local] Open Scope string_scope.
#[local] Open Scope Z_scope.
#[local] Open Scope list_scope.

(** ** Values *)

Inductive value :=
| VNil
| VBool (b : bool)
| VInt (n : Z)
| VFloat (f : spec_float)
| VStr (s : string)
| VList (l : list value)
| VStrs (l : list string)
| VMap (m : list (string * value)).

Section Values.
Context (P : value → Prop).
Hypothesis H_nil : P VNil.
Hypothesis H_bool : ∀ b, P (VBool b).
Hypothesis H_int : ∀ n, P (VInt n).
Hypothesis H_float : ∀ f, P (VFloat f).
Hypothesis H_str : ∀ s, P (VStr s).
Hypothesis H_list : ∀ l, Forall P l → P (VList l).
Hypothesis H_strs : ∀ l, P (VStrs l).
Hypothesis H_map : ∀ m, Forall (λ kv, P kv.2) m → P (VMap m).

Fixpoint value_nested_ind (v : value) : P v :=
  match v with
  | VNil => H_nil
  | VBool b => H_bool b
  | VInt n => H_int n
  | VFloat f => H_float f
  | VStr s => H_str s
  | VList l =>
      H_list l ((fix go l : Forall P l := match l with
                                          | [] => Forall_nil_2 _
                                          | v :: l => Forall_cons_2 _ _ _ (value_nested_ind v) (go l)
                                          end) l)
  | VStrs l => H_strs l
  | VMap m =>
      H_map m ((fix go m : Forall (λ kv, P kv.2) m := match m with
                                                      | [] => Forall_nil_2 _
                                                      | kv :: m => Forall_cons_2 _ _ _ (value_nested_ind kv.2) (go m)
                                                      end) m)
  end.
End Values.

Fixpoint value_size (v : value) : nat :=
  match v with
  | VList l => S (sum_list_with value_size l)
  | VStrs l => S (length l)
  | VMap m => S (sum_list_with (λ kv, value_size kv.2) m)
  | _ => 1
  end.

Lemma value_size_pos v : (0 < value_size v)%nat.
Proof. destruct v; cbn; lia. Qed.
Lemma size_elem v l : v ∈ l → (value_size v ≤ sum_list_with value_size l)%nat.
Proof. induction 1; cbn; lia. Qed.
Lemma size_entry kv (m : list (string * value)) : kv ∈ m → (value_size kv.2 ≤ sum_list_with (λ kv, value_size kv.2) m)%nat.
Proof. induction 1; cbn; lia. Qed.

(** m[k], and the absent key's nil. *)
Definition lookup_key (m : list (string * value)) (k : string) : option value :=
  snd <$> List.find (λ kv, String.eqb kv.1 k) m.
Definition as_map (v : option value) : list (string * value) := match v with Some (VMap m) => m | _ => [] end.

(** ** fmt.Sprint *)

Section Sprint.
(** The %v form of a float64. *)
Context (format_float : spec_float → string).

(** fmt prints a map by ascending key. *)
Fixpoint insert_key (kv : string * string) (l : list (string * string)) : list (string * string) :=
  match l with
  | [] => [kv]
  | x :: l => if String.leb kv.1 x.1 then kv :: x :: l else x :: insert_key kv l
  end.

Fixpoint Sprint (v : value) : string :=
  match v with
  | VNil => "<nil>"
  | VBool b => if b then "true" else "false"
  | VInt n => FormatInt n
  | VFloat f => format_float f
  | VStr s => s
  | VList l => "[" +:+ Join (map Sprint l) " " +:+ "]"
  | VStrs l => "[" +:+ Join l " " +:+ "]"
  | VMap m =>
      "map[" +:+ Join (map (λ kv, kv.1 +:+ ":" +:+ kv.2) (foldr insert_key [] (map (λ kv : string * value, (kv.1, Sprint kv.2)) m))) " " +:+ "]"
  end.
End Sprint.

(** ** The template *)

Record Resource := mkResource {
  rType : string;
  rProperties : list (string * value);
  rDependsOn : list string;
  rCondition : string;
  rDeletionPolicy : string;
}.

Record Template := mkTemplate {
  tMappings : list (string * value);
  tConditions : list (string * value);
  tResources : list (string * Resource);
}.
(** t.rawOrder: the ids in the order the resources' map was iterated. *)
Definition rawOrder (t : Template) : list string := (tResources t).*1.
Definition resource_of (t : Template) (id : string) : option Resource :=
  snd <$> List.find (λ kv, String.eqb kv.1 id) (tResources t).

(** ** Parsing a decoded template *)

Inductive parse_error :=
| RootNotObject
| NoResources
| ResourceNotObject (id : string)
| ResourceNoType (id : string).

Definition str_field (m : list (string * value)) (k : string) : string :=
  match lookup_key m k with Some (VStr s) => s | _ => "" end.
Definition depends_on (v : option value) : list string :=
  match v with
  | Some (VStr d) => [d]
  | Some (VList l) => omap (λ e, match e with VStr s => Some s | _ => None end) l
  | _ => []
  end.

Definition parse_resource (id : string) (v : value) : res parse_error Resource :=
  match v with
  | VMap rm =>
      if String.eqb (str_field rm "Type") "" then Err (ResourceNoType id)
      else Ok (mkResource (str_field rm "Type") (as_map (lookup_key rm "Properties")) (depends_on (lookup_key rm "DependsOn"))
                 (str_field rm "Condition") (str_field rm "DeletionPolicy"))
  | _ => Err (ResourceNotObject id)
  end.

(** Parse, of the sections above, from the decoded document. *)
Definition Parse (root : value) : res parse_error Template :=
  match root with
  | VMap m =>
      match lookup_key m "Resources" with
      | Some (VMap rs) =>
          resources ← mapM (λ kv, r ← parse_resource kv.1 kv.2; Ok (kv.1, r)) rs;
          Ok (mkTemplate (as_map (lookup_key m "Mappings")) (as_map (lookup_key m "Conditions")) resources)
      | _ => Err NoResources
      end
  | _ => Err RootNotObject
  end.

(** The resources of a template are those of its document, under the same ids. *)
Lemma Parse_ids root t : Parse root = Ok t → ∃ m rs, root = VMap m ∧ lookup_key m "Resources" = Some (VMap rs) ∧ rawOrder t = rs.*1.
Proof.
  unfold Parse. destruct root as [| | | | | | |m]; try done. destruct (lookup_key m "Resources") as [[| | | | | | |rs]|] eqn:E; try done.
  intros (resources & Hr & [= <-])%res_bind_Ok. exists m, rs. split_and!; [done..|]. unfold rawOrder. cbn [tResources].
  apply mapM_res_Ok in Hr. clear E. induction Hr as [|[k v] [k' r] rs resources Hkv _ IH]; [done|].
  cbn. rewrite IH. apply res_bind_Ok in Hkv as (? & _ & [= <- _]). done.
Qed.
