(* ===== verification/CfnResolve.v ===== *)
(** * Intrinsic functions and conditions (cfn/intrinsics.go)

    The resolver walks a value, resolves the intrinsics it supports, records a finding for what it cannot
    honor, and collects the resources it reads.  Its state threads through a small monad; a condition may
    be evaluated inside a value and an alias of a distribution inside an attribute, so the walk runs on
    fuel, and [resolve_enough] says how much is enough. *)

From S2P Require Import Prelude GoStrings GoEncoding GoNet CfnTemplate.
#[local] Open Scope string_scope.
#[local] Open Scope Z_scope.
#[local] Open Scope list_scope.

(** ** Findings and the resolver's state *)

Inductive reason :=
| ConditionCycle (name : string)
| ConditionUndefined (name : string)
| UnsupportedIntrinsic (key : string)
| UnknownPseudo (name : string)
| RefUndefined (name : string)
| GetAttUndefined (id : string)
| WaitData (id : string)
| NoExport (name : string)
| CidrArity
| CidrNumbers
| CidrBlock
| MapMissing (m top second : string).
Record Finding := mkFinding { fWhere : string; fReason : reason }.

Record rstate := mkState {
  rsConds : gmap string bool;
  rsCondBusy : gset string;
  rsCfResolving : gset string;
  rsWhere : string;
  rsFindings : list Finding;
  rsRefs : gset string;
}.

Definition set_conds c s := mkState c (rsCondBusy s) (rsCfResolving s) (rsWhere s) (rsFindings s) (rsRefs s).
Definition set_busy b s := mkState (rsConds s) b (rsCfResolving s) (rsWhere s) (rsFindings s) (rsRefs s).
Definition set_cf b s := mkState (rsConds s) (rsCondBusy s) b (rsWhere s) (rsFindings s) (rsRefs s).
Definition set_where w s := mkState (rsConds s) (rsCondBusy s) (rsCfResolving s) w (rsFindings s) (rsRefs s).
Definition set_findings f s := mkState (rsConds s) (rsCondBusy s) (rsCfResolving s) (rsWhere s) f (rsRefs s).
Definition set_refs r s := mkState (rsConds s) (rsCondBusy s) (rsCfResolving s) (rsWhere s) (rsFindings s) r.

(** A resolver's operation; [None] when the fuel runs out. *)
Definition M (A : Type) : Type := rstate → option (A * rstate).
#[export] Instance M_ret : MRet M := λ A a s, Some (a, s).
#[export] Instance M_bind : MBind M := λ A B f m s, '(a, s) ← m s; f a s.
Definition get : M rstate := λ s, Some (s, s).
Definition modify (f : rstate → rstate) : M () := λ s, Some ((), f s).
Definition find (r : reason) : M () := modify (λ s, set_findings (rsFindings s ++ [mkFinding (rsWhere s) r]) s).
Definition add_ref (id : string) : M () := modify (λ s, set_refs (rsRefs s ∪ {[id]}) s).
Fixpoint each {A B} (f : A → M B) (l : list A) : M (list B) :=
  match l with [] => mret [] | x :: l => y ← f x; ys ← each f l; mret (y :: ys) end.

(** ** What the resolver is given *)

(** The functions the embedding code sets on a resolver; none when a plan is built. *)
Record hooks := mkHooks {
  hkCustomData : string → option (string → option value);
  hkDeployed : option (string → string → option value);
  hkAddressOf : option (string → option string);
  hkStaticRef : option (string → option string);
  hkStaticAtt : option (string → string → option string);
}.
Definition no_hooks : hooks := mkHooks (λ _, None) None None None None.

Record given := mkGiven {
  gTemplate : Template;
  gParams : gmap string value;
  gExports : gmap string value;
  gPseudo : gmap string value;
  gHooks : hooks;
}.

Definition waitConditionType : string := "AWS::CloudFormation::WaitCondition".
Definition cfDistributionType : string := "AWS::CloudFront::Distribution".

(** ** Text *)

(** The pieces of a Fn::Sub template. *)
Inductive piece := Text (s : string) | Name (s : string).
Fixpoint pieces (fuel : nat) (s : string) : list piece :=
  match fuel with
  | O => []
  | S fuel =>
      match s with
      | "" => []
      | String c rest =>
          match (if Ascii.eqb c "$" then CutPrefix rest "{" else None) with
          | Some inner =>
              match Cut inner "}" with
              | Some (name, after) => Name name :: pieces fuel after
              | None => Text (String c "") :: pieces fuel rest
              end
          | None => Text (String c "") :: pieces fuel rest
          end
      end
  end.

(** placeholderRe: a marker the resolver left for what it could not resolve. *)
Definition is_word (c : ascii) : bool := in_range "A" "Z" c || in_range "a" "z" c || is_digit c || Ascii.eqb c "_".
Fixpoint after_word (s : string) : string :=
  match s with String c t => if is_word c then after_word t else s | "" => "" end.
Definition word_at (s : string) : option string := let t := after_word s in if String.eqb s t then None else Some t.
Definition marker_at (s : string) : bool :=
  HasPrefix s "ref:" || HasPrefix s "param:" || HasPrefix s "unsupported:" || HasPrefix s "base64:" || HasPrefix s "AWS::" ||
  match word_at s with
  | Some (String "." t) => match word_at t with Some (String ">" _) => true | _ => false end
  | _ => false
  end.
Fixpoint has_placeholder (s : string) : bool :=
  match s with "" => false | String c t => (Ascii.eqb c "<" && marker_at t) || has_placeholder t end.

(** A host of at least two labels of lower-case letters, digits and inner hyphens (cfHostnameRe). *)
Definition is_label (s : string) : bool :=
  let alnum c := in_range "a" "z" c || is_digit c in
  match s with
  | "" => false
  | String c t =>
      alnum c && forall_char (λ c, alnum c || Ascii.eqb c "-") t && (String.length s <=? 63)%nat &&
      negb (HasSuffix s "-")
  end.
Definition is_hostname (s : string) : bool :=
  match Split s "." with _ :: _ :: _ as l => forallb is_label l | _ => false end.

Definition truthy (v : value) : bool := match v with VBool b => b | _ => false end.
Definition list_of (v : value) : list value :=
  match v with VList l => l | VStrs l => map VStr l | _ => [] end.

(** ** Subnets *)

Definition fnCidr (ParseCIDR : string → option GoNet.block) (ipBlock : string) (count cidrBits : Z) : option (list value) :=
  match ParseCIDR ipBlock with
  | Some (Block4 base basePrefix) =>
      let newMask := 32 - cidrBits in
      if newMask <? basePrefix then None
      else if 2 ^ (newMask - basePrefix) <? count then None
      else Some (map (λ i, VStr (dotted ((base + Z.of_nat i * 2 ^ cidrBits) mod 2 ^ 32) +:+ "/" +:+ FormatInt newMask))
                   (seq 0 (Z.to_nat count)))
  | _ => None
  end.

(** strings.Split. *)
Fixpoint split_go (fuel : nat) (s sep : string) : list string :=
  match fuel with
  | O => [s]
  | S fuel => match Cut s sep with Some (a, b) => a :: split_go fuel b sep | None => [s] end
  end.
Definition split_text (s sep : string) : list string :=
  if String.eqb sep "" then map snd (runes (String.length s) s)
  else split_go (String.length s) s sep.

(** sort.Strings. *)
Fixpoint insert_name (n : string) (l : list string) : list string :=
  match l with [] => [n] | x :: l => if String.leb n x then n :: x :: l else x :: insert_name n l end.

Section Resolver.
(** %v of a float64, the conversion of one to int, sha256 in hexadecimal, and IPv6 text. *)
Context (format_float : spec_float → string) (int_of_float : spec_float → Z) (sha256hex : string → string)
  (parseIPv6 : string → option Z).
#[local] Abbreviation Sprint := (Sprint format_float).

(** fmt.Sscanf(s, "%d", &i): the leading integer, or zero. *)
Definition scan_int (s : string) : Z :=
  let fix skip s := match s with String c t => if Ascii.eqb c " " then skip t else s | "" => "" end in
  let fix run s := match s with String c t => if is_digit c then String c (run t) else "" | "" => "" end in
  match skip s with
  | String "-" t => default 0 (ParseInt ("-" +:+ run t))
  | String "+" t => default 0 (ParseInt (run t))
  | t => default 0 (ParseInt (run t))
  end.
Definition toInt (v : value) : Z :=
  match v with VFloat f => int_of_float f | VInt n => n | VStr s => scan_int s | _ => 0 end.

Definition eipAllocationID (stackName logicalID : string) : string :=
  "eipalloc-" +:+ stake 17 (sha256hex (stackName +:+ "/" +:+ logicalID)).

(** A static value that is usable: not empty and without a marker. *)
Definition usable (v : option string) : option value :=
  match v with Some s => if String.eqb s "" || contains_char "<" s then None else Some (VStr s) | None => None end.

Section Step.
Context (g : given) (rec : value → M value).
#[local] Abbreviation t := (gTemplate g).
#[local] Abbreviation hk := (gHooks g).

(** ** Conditions *)

Definition condition (name : string) : M bool :=
  s ← get;
  match rsConds s !! name with
  | Some b => mret b
  | None =>
      match lookup_key (tConditions t) name with
      | None => mret false
      | Some expr =>
          if decide (name ∈ rsCondBusy s) then _ ← find (ConditionCycle name); mret false
          else
            _ ← modify (λ s, set_where ("Condition " +:+ name) (set_busy (rsCondBusy s ∪ {[name]}) s));
            v ← rec expr;
            let b := truthy v in
            _ ← modify (λ s', set_conds (<[name := b]> (rsConds s')) (set_busy (rsCondBusy s' ∖ {[name]}) (set_where (rsWhere s) s')));
            mret b
      end
  end.

(** ** References *)

Definition opt_call {A B} (f : option (A → option B)) (a : A) : option B := f ← f; f a.

Definition ref (name : string) : M value :=
  if HasPrefix name "AWS::" then
    match gPseudo g !! name with
    | Some v => mret v
    | None => _ ← find (UnknownPseudo name); mret (VStr ("<" +:+ name +:+ ">"))
    end
  else match gParams g !! name with
  | Some v => mret v
  | None =>
      match resource_of t name with
      | None => _ ← find (RefUndefined name); mret (VStr ("<ref:" +:+ name +:+ ">"))
      | Some r =>
          _ ← add_ref name;
          match (f ← hkDeployed hk; f name "") with
          | Some v => mret v
          | None =>
              match (if String.eqb (rType r) "AWS::EC2::EIP" then VStr <$> opt_call (hkAddressOf hk) name else None) with
              | Some v => mret v
              | None =>
                  match usable (opt_call (hkStaticRef hk) name) with
                  | Some v => mret v
                  | None => mret (VStr ("<ref:" +:+ name +:+ ">"))
                  end
              end
          end
      end
  end.

(** cfStringList. *)
Definition cfStringList (v : value) : list string :=
  match v with
  | VStr s => filter (λ s, s ≠ "") (map TrimSpace (Split s ","))
  | VList l => filter (λ s, s ≠ "") (map (λ e, TrimSpace (Sprint e)) l)
  | VStrs l => l
  | _ => []
  end.

(** The aliases of a distribution that is in the stack. *)
Definition aliases_of (s : rstate) (id : string) : option value :=
  r ← resource_of t id;
  if negb (String.eqb (rType r) cfDistributionType) then None
  else if negb (String.eqb (rCondition r) "") && negb (default false (rsConds s !! rCondition r)) then None
  else lookup_key (as_map (lookup_key (rProperties r) "DistributionConfig")) "Aliases".

Definition cloudFrontGetAtt (id attr : string) : M (option value) :=
  s ← get;
  if negb (String.eqb attr "DomainName") then mret None
  else match aliases_of s id with
  | None => mret None
  | Some raw =>
      if decide (id ∈ rsCfResolving s) then mret None
      else
        _ ← modify (λ s, set_cf (rsCfResolving s ∪ {[id]}) (set_refs ∅ s));
        v ← rec raw;
        _ ← modify (λ s', set_cf (rsCfResolving s' ∖ {[id]}) (set_where (rsWhere s) (set_refs (rsRefs s) (set_findings (take (length (rsFindings s)) (rsFindings s')) s'))));
        match cfStringList v with
        | [] => mret None
        | a :: _ =>
            let h := TrimSuffix (ToLower (TrimSpace a)) "." in
            mret (if is_hostname h then Some (VStr h) else None)
        end
  end.

(** The resource and the attribute an Fn::GetAtt names. *)
Definition getAtt_target (arg : value) : M (string * string) :=
  match arg with
  | VList (a :: b :: _) => v ← rec b; mret (Sprint a, Sprint v)
  | VStr a => match SplitN a "." 2 with id :: attr :: _ => mret (id, attr) | id :: _ => mret (id, "") | [] => mret ("", "") end
  | _ => mret ("", "")
  end.

Definition unresolved (id attr : string) : value := VStr ("<" +:+ id +:+ "." +:+ attr +:+ ">").

(** An attribute of a resource of the stack that is not fixed before deploy. *)
Definition resource_att (r : Resource) (id attr : string) : M value :=
  _ ← add_ref id;
  match (f ← hkDeployed hk; f id attr) with
  | Some v => mret v
  | None =>
      let eip := String.eqb (rType r) "AWS::EC2::EIP" in
      match (if eip && String.eqb attr "PublicIp" then VStr <$> opt_call (hkAddressOf hk) id else None) with
      | Some v => mret v
      | None =>
          if eip && String.eqb attr "AllocationId" then
            mret (VStr (eipAllocationID (Sprint (default VNil (gPseudo g !! "AWS::StackName"))) id))
          else
            _ ← (if String.eqb (rType r) waitConditionType && String.eqb attr "Data" && bool_decide (hkDeployed hk = None)
                 then find (WaitData id) else mret ());
            mret (unresolved id attr)
      end
  end.

Definition getAtt (arg : value) : M value :=
  '(id, attr) ← getAtt_target arg;
  match hkCustomData hk id with
  | Some data =>
      _ ← add_ref id;
      mret (default (unresolved id attr) (data attr))
  | None =>
      cf ← cloudFrontGetAtt id attr;
      match cf with
      | Some v => _ ← add_ref id; mret v
      | None =>
          match resource_of t id with
          | Some r =>
              match usable (f ← hkStaticAtt hk; f id attr) with
              | Some v => _ ← add_ref id; mret v
              | None => resource_att r id attr
              end
          | None =>
              _ ← (if String.eqb id "" then mret () else find (GetAttUndefined id));
              mret (unresolved id attr)
          end
      end
  end.

(** ** The other intrinsics *)

Definition importValue (arg : value) : M value :=
  v ← rec arg;
  let name := Sprint v in
  match gExports g !! name with
  | Some v => mret v
  | None => _ ← find (NoExport name); mret (VStr ("<importvalue:" +:+ name +:+ ">"))
  end.

Definition getAZs (arg : value) : M value :=
  v ← rec arg;
  let region := Sprint v in
  let region := if String.eqb region "" || String.eqb region "<nil>"
                then match gPseudo g !! "AWS::Region" with Some v => Sprint v | None => region end else region in
  let region := if String.eqb region "" then "us-east-1" else region in
  mret (VList (map (λ z, VStr (region +:+ z)) ["a"; "b"; "c"])).

Definition unsupported (key : string) : value := VStr ("<unsupported:" +:+ key +:+ ">").

Definition cidr (arg : value) : M value :=
  match list_of arg with
  | [a; b; c] =>
      block ← rec a;
      n ← rec b;
      bits ← rec c;
      match ParseInt (TrimSpace (Sprint n)), ParseInt (TrimSpace (Sprint bits)) with
      | Some count, Some cidrBits =>
          if (count <? 1) || (cidrBits <? 0) || (32 <? cidrBits) then _ ← find CidrNumbers; mret (unsupported "Fn::Cidr")
          else match fnCidr (ParseCIDR parseIPv6) (Sprint block) count cidrBits with
               | Some l => mret (VList l)
               | None => _ ← find CidrBlock; mret (unsupported "Fn::Cidr")
               end
      | _, _ => _ ← find CidrNumbers; mret (unsupported "Fn::Cidr")
      end
  | _ => _ ← find CidrArity; mret (unsupported "Fn::Cidr")
  end.

Definition sub_piece (extra : list (string * value)) (p : piece) : M string :=
  match p with
  | Text s => mret s
  | Name name =>
      match CutPrefix name "!" with
      | Some literal => mret ("${" +:+ literal +:+ "}")
      | None =>
          match lookup_key extra name with
          | Some v => mret (Sprint v)
          | None => v ← (if contains_char "." name then getAtt (VStr name) else ref name); mret (Sprint v)
          end
      end
  end.
Definition sub_args (arg : value) : M (string * list (string * value)) :=
  match arg with
  | VStr a => mret (a, [])
  | VList (a :: rest) =>
      match rest with
      | VMap m :: _ => extra ← each (λ kv : string * value, v ← rec kv.2; mret (kv.1, v)) m; mret (Sprint a, extra)
      | _ => mret (Sprint a, [])
      end
  | _ => mret ("", [])
  end.
Definition sub (arg : value) : M value :=
  '(tmpl, extra) ← sub_args arg;
  parts ← each (sub_piece extra) (pieces (S (String.length tmpl)) tmpl);
  mret (VStr (Join parts "")).

Definition join (arg : value) : M value :=
  match list_of arg with
  | [delim; l] => v ← rec l; mret (VStr (Join (map Sprint (list_of v)) (Sprint delim)))
  | _ => mret (VStr "")
  end.

Definition selectIdx (arg : value) : M value :=
  match list_of arg with
  | [i; l] =>
      v ← rec l;
      n ← rec i;
      mret (default VNil (Prelude.index (list_of v) (toInt n)))
  | _ => mret VNil
  end.

Definition findInMap (arg : value) : M value :=
  match list_of arg with
  | [a; b; c] =>
      m ← rec a;
      top ← rec b;
      second ← rec c;
      match lookup_key (as_map (lookup_key (as_map (lookup_key (tMappings t) (Sprint m))) (Sprint top))) (Sprint second) with
      | Some v => mret v
      | None => _ ← find (MapMissing (Sprint m) (Sprint top) (Sprint second)); mret VNil
      end
  | _ => mret VNil
  end.

Definition ifFn (arg : value) : M value :=
  match list_of arg with
  | [name; yes; no] =>
      b ← condition (Sprint name);
      s ← get;
      if b || (match lookup_key (tConditions t) (Sprint name) with None | Some VNil => true | _ => false end
               && default false (rsConds s !! Sprint name))
      then rec yes else rec no
  | _ => mret VNil
  end.

Fixpoint all_true (l : list value) : M bool :=
  match l with [] => mret true | c :: l => v ← rec c; if truthy v then all_true l else mret false end.
Fixpoint any_true (l : list value) : M bool :=
  match l with [] => mret false | c :: l => v ← rec c; if truthy v then mret true else any_true l end.

Definition condition_ref (name : string) : M value :=
  s ← get;
  match lookup_key (tConditions t) name, rsConds s !! name with
  | Some _, _ => b ← condition name; mret (VBool b)
  | None, Some b => mret (VBool b)
  | None, None => _ ← find (ConditionUndefined name); mret (VBool false)
  end.

(** A single-key object: [None] when it is not an intrinsic. *)
Definition intrinsic (key : string) (arg : value) : M (option value) :=
  let done (m : M value) : M (option value) := v ← m; mret (Some v) in
  if String.eqb key "Ref" then done (ref (Sprint arg))
  else if String.eqb key "Condition" then done (condition_ref (Sprint arg))
  else if String.eqb key "Fn::GetAtt" then done (getAtt arg)
  else if String.eqb key "Fn::Sub" then done (sub arg)
  else if String.eqb key "Fn::Join" then done (join arg)
  else if String.eqb key "Fn::Select" then done (selectIdx arg)
  else if String.eqb key "Fn::FindInMap" then done (findInMap arg)
  else if String.eqb key "Fn::If" then done (ifFn arg)
  else if String.eqb key "Fn::Equals" then
    done (match list_of arg with
          | [a; b] => x ← rec a; y ← rec b; mret (VBool (String.eqb (Sprint x) (Sprint y)))
          | _ => mret (VBool false)
          end)
  else if String.eqb key "Fn::And" then done (b ← all_true (list_of arg); mret (VBool b))
  else if String.eqb key "Fn::Or" then done (b ← any_true (list_of arg); mret (VBool b))
  else if String.eqb key "Fn::Not" then
    done (match list_of arg with [a] => x ← rec a; mret (VBool (negb (truthy x))) | _ => mret (VBool false) end)
  else if String.eqb key "Fn::Split" then
    done (match list_of arg with
          | [sep; a] => x ← rec a; mret (VStrs (split_text (Sprint x) (Sprint sep)))
          | _ => mret VNil
          end)
  else if String.eqb key "Fn::Base64" then
    done (x ← rec arg;
          let v := Sprint x in
          mret (VStr (if has_placeholder v then "<base64:" +:+ v +:+ ">" else base64 v)))
  else if String.eqb key "Fn::ImportValue" then done (importValue arg)
  else if String.eqb key "Fn::GetAZs" then done (getAZs arg)
  else if String.eqb key "Fn::Cidr" then done (cidr arg)
  else if HasPrefix key "Fn::" then
    _ ← find (UnsupportedIntrinsic key); mret (Some (unsupported key))
  else mret None.

(** ** The walk *)

Definition is_nil (v : value) : bool := match v with VNil => true | _ => false end.
Definition walk_map (m : list (string * value)) : M value :=
  kvs ← each (λ kv : string * value, v ← rec kv.2; mret (kv.1, v)) m;
  mret (VMap (filter (λ kv, is_nil kv.2 = false) kvs)).
Definition walk_list (l : list value) : M value :=
  vs ← each rec l; mret (VList (filter (λ v, is_nil v = false) vs)).

Definition resolve_step (v : value) : M value :=
  match v with
  | VMap m =>
      match m with
      | [(k, arg)] => r ← intrinsic k arg; match r with Some out => mret out | None => walk_map m end
      | _ => walk_map m
      end
  | VList l => walk_list l
  | _ => mret v
  end.
End Step.

Fixpoint resolve (g : given) (fuel : nat) (v : value) : M value :=
  match fuel with
  | O => λ _, None
  | S fuel => resolve_step g (resolve g fuel) v
  end.

(** ** From a template *)

Definition start : rstate := mkState ∅ ∅ ∅ "" [] ∅.

(** evalConditions: each named condition, by name. *)
Definition evalConditions (g : given) (fuel : nat) : M () :=
  _ ← each (condition g (resolve g fuel)) (foldr insert_name [] (tConditions (gTemplate g)).*1); mret ().

(** resolveResource: what a resource's properties read, other than itself. *)
Definition resolveResource (g : given) (fuel : nat) (id : string) (r : Resource) : M (list string) :=
  _ ← modify (λ s, set_refs ∅ (set_where ("Resource " +:+ id) s));
  _ ← resolve g fuel (VMap (rProperties r));
  s ← get;
  mret (filter (λ d, d ≠ id) (elements (rsRefs s))).
End Resolver.
