(* ===== verification/CfnReads.v ===== *)
(** * What resolution reads, and that it ends (cfn/intrinsics.go)

    One walk over the resolver's operations shows three things of each: with enough fuel it answers, its
    values have no holes, and its answer depends only on the resources it records as read. *)

From S2P Require Import Prelude GoStrings GoNet CfnTemplate CfnResolve.
#[local] Open Scope string_scope.
#[local] Open Scope Z_scope.
#[local] Open Scope list_scope.

(** ** Hooks that agree *)

Definition att_of (f : option (string → string → option value)) (id attr : string) : option value := f ← f; f id attr.
Definition static_att_of (f : option (string → string → option string)) (id attr : string) : option string := f ← f; f id attr.

(** Two sets of hooks say the same of a resource. *)
Record agree_at (h1 h2 : hooks) (id : string) : Prop := {
  aa_custom : hkCustomData h1 id = hkCustomData h2 id;
  aa_deployed attr : att_of (hkDeployed h1) id attr = att_of (hkDeployed h2) id attr;
  aa_address : opt_call (hkAddressOf h1) id = opt_call (hkAddressOf h2) id;
  aa_ref : opt_call (hkStaticRef h1) id = opt_call (hkStaticRef h2) id;
  aa_att attr : static_att_of (hkStaticAtt h1) id attr = static_att_of (hkStaticAtt h2) id attr;
}.

(** Hooks speak of the template's resources only. *)
Definition about (t : Template) (h : hooks) : Prop := ∀ id, is_Some (hkCustomData h id) → is_Some (resource_of t id).
Definition no_distributions (t : Template) : Prop :=
  ∀ id r, resource_of t id = Some r → rType r ≠ cfDistributionType.

Record comparable (t : Template) (h1 h2 : hooks) : Prop := {
  cmp_dist : no_distributions t;
  cmp_about1 : about t h1;
  cmp_about2 : about t h2;
  cmp_deployed : hkDeployed h1 = None ↔ hkDeployed h2 = None;
}.

(** ** Predicates on values that the resolver keeps *)

Record keeps (W : value → Prop) : Prop := {
  k_bool b : W (VBool b);
  k_str s : W (VStr s);
  k_nil : W VNil;
  k_int n : W (VInt n);
  k_float f : W (VFloat f);
  k_strs l : W (VStrs l);
  k_list l : Forall (λ v, v ≠ VNil ∧ W v) l → W (VList l);
  k_map m : Forall (λ kv, kv.2 ≠ VNil ∧ W kv.2) m → W (VMap m);
  k_elem l : W (VList l) → Forall W l;
}.

Record given_keeps (W : value → Prop) (g : given) : Prop := {
  gk_params n v : gParams g !! n = Some v → W v;
  gk_exports n v : gExports g !! n = Some v → W v;
  gk_pseudo n v : gPseudo g !! n = Some v → W v;
  gk_deployed id attr v : att_of (hkDeployed (gHooks g)) id attr = Some v → W v;
  gk_custom id data attr v : hkCustomData (gHooks g) id = Some data → data attr = Some v → W v;
  gk_mappings m top second v :
    lookup_key (as_map (lookup_key (as_map (lookup_key (tMappings (gTemplate g)) m)) top)) second = Some v → W v;
}.

(** ** How much is left to evaluate *)

Definition cond_names (t : Template) : list string := (tConditions t).*1.
Definition todo (all : list string) (busy : gset string) : nat := length (filter (λ n, n ∉ busy) all).
Definition measure (t : Template) (s : rstate) : nat :=
  (todo (cond_names t) (rsCondBusy s) + todo (rawOrder t) (rsCfResolving s))%nat.
(** More than the size of any value of the template's own. *)
Definition bound (t : Template) : nat :=
  S (sum_list_with (λ kv, value_size kv.2) (tConditions t) + sum_list_with (λ kv, value_size (VMap (rProperties kv.2))) (tResources t)).

Lemma todo_lt all busy n : n ∈ all → n ∉ busy → (todo all (busy ∪ {[n]}) < todo all busy)%nat.
Proof.
  intros Hn Hb. unfold todo. revert Hn. induction all as [|x all IH]; [by intros ?%not_elem_of_nil|].
  assert (Hle : (length (filter (λ m, m ∉ busy ∪ {[n]}) all) ≤ length (filter (λ m, m ∉ busy) all))%nat).
  { clear -n. induction all as [|y all IH]; [done|]. rewrite !filter_cons.
    destruct (decide (y ∉ busy ∪ {[n]})), (decide (y ∉ busy)); cbn; try lia. exfalso. set_solver. }
  rewrite !filter_cons. intros [->|Hn]%elem_of_cons.
  - rewrite decide_False by set_solver. rewrite decide_True by done. cbn. lia.
  - specialize (IH Hn). destruct (decide (x ∉ busy ∪ {[n]})), (decide (x ∉ busy)); cbn; try lia. exfalso. set_solver.
Qed.

Lemma lookup_key_elem m k v : lookup_key m k = Some v → (k, v) ∈ m.
Proof.
  unfold lookup_key. destruct (List.find _ m) as [[k' v']|] eqn:E; [|done]. intros [= <-].
  apply List.find_some in E as [Hin Hk%String.eqb_eq]. cbn in Hk. subst. by apply list_elem_of_In.
Qed.
Lemma resource_of_elem t id r : resource_of t id = Some r → (id, r) ∈ tResources t.
Proof.
  unfold resource_of. destruct (List.find _ _) as [[k' v']|] eqn:E; [|done]. intros [= <-].
  apply List.find_some in E as [Hin Hk%String.eqb_eq]. cbn in Hk. subst. by apply list_elem_of_In.
Qed.

Lemma condition_size t name expr : lookup_key (tConditions t) name = Some expr → name ∈ cond_names t ∧ (value_size expr < bound t)%nat.
Proof.
  intros H%lookup_key_elem. split; [apply list_elem_of_fmap; by exists (name, expr)|].
  pose proof (size_entry _ _ H). cbn in *. unfold bound. lia.
Qed.
Lemma as_map_size v k w : lookup_key (as_map v) k = Some w → ∃ u, v = Some u ∧ (value_size w < value_size u)%nat.
Proof.
  intros H%lookup_key_elem. destruct v as [[| | | | | | |m]|]; cbn in H; try by apply not_elem_of_nil in H.
  exists (VMap m). split; [done|]. pose proof (size_entry _ _ H). cbn in *. lia.
Qed.
Lemma aliases_size t s g id raw :
  gTemplate g = t → aliases_of g s id = Some raw → id ∈ rawOrder t ∧ (value_size raw < bound t)%nat ∧ ¬ no_distributions t.
Proof.
  intros <- H. unfold aliases_of in H. apply bind_Some in H as (r & Hr & H).
  destruct (String.eqb_spec (rType r) cfDistributionType) as [Hty|]; [|done]. cbn [negb] in H.
  destruct (negb _ && negb _); [done|]. apply as_map_size in H as (u & Hu%lookup_key_elem & Hlt).
  pose proof (resource_of_elem _ _ _ Hr) as Hin. split_and!.
  - apply list_elem_of_fmap. by exists (id, r).
  - pose proof (size_entry _ _ Hu) as Hs. cbn [snd] in Hs.
    assert (Hl : ∀ l, (id, r) ∈ l → (value_size (VMap (rProperties r)) ≤ sum_list_with (λ kv : string * Resource, value_size (VMap (rProperties kv.2))) l)%nat).
    { induction l as [|x l IH]; [by intros ?%not_elem_of_nil|]. intros [<-|?]%elem_of_cons; cbn [sum_list_with snd]; [lia|]. specialize (IH ltac:(done)). lia. }
    specialize (Hl _ Hin). unfold bound. cbn [value_size] in Hl. cbn. lia.
  - intros Hno. by apply (Hno id r).
Qed.

(** ** The walk, in two worlds *)

Section Walk.
Context (format_float : spec_float → string) (int_of_float : spec_float → Z) (sha256hex : string → string)
  (parseIPv6 : string → option Z).
Context (W : value → Prop) (HW : keeps W) (g : given) (HgW : given_keeps W g) (h2 : hooks).
#[local] Abbreviation t := (gTemplate g).
Definition with_hooks : given := mkGiven (gTemplate g) (gParams g) (gExports g) (gPseudo g) h2.

(** The other hooks say the same of what has been read. *)
Definition agree (refs : gset string) : Prop :=
  comparable t (gHooks g) h2 ∧ ∀ id, id ∈ refs → agree_at (gHooks g) h2 id.
Lemma agree_mono refs refs' : refs ⊆ refs' → agree refs' → agree refs.
Proof. intros Hs [Hc H]. split; [done|]. intros id Hid. by apply H, Hs. Qed.

Definition same (s s' : rstate) : Prop := rsCondBusy s' = rsCondBusy s ∧ rsCfResolving s' = rsCfResolving s.
Lemma same_refl s : same s s.
Proof. done. Qed.
Lemma same_trans s1 s2 s3 : same s1 s2 → same s2 s3 → same s1 s3.
Proof. intros [? ?] [? ?]. split; congruence. Qed.
Lemma same_measure s s' : same s s' → measure t s' = measure t s.
Proof. intros [Hb Hc]. unfold measure. by rewrite Hb, Hc. Qed.

(** The first answers, with a value in [Q]; the second answers the same when the hooks agree. *)
Definition good {A} (s : rstate) (m1 m2 : M A) (Q : A → Prop) : Prop :=
  ∃ a s', m1 s = Some (a, s') ∧ same s s' ∧ rsRefs s ⊆ rsRefs s' ∧ Q a ∧ (agree (rsRefs s') → m2 s = Some (a, s')).

Lemma good_ret {A} s (a : A) (Q : A → Prop) : Q a → good s (mret a) (mret a) Q.
Proof. intros HQ. exists a, s. by split_and!. Qed.
Lemma good_bind {A B} s (m1 m2 : M A) (f1 f2 : A → M B) (Q : A → Prop) (R : B → Prop) :
  good s m1 m2 Q → (∀ a s', same s s' → Q a → good s' (f1 a) (f2 a) R) → good s (m1 ≫= f1) (m2 ≫= f2) R.
Proof.
  intros (a & s' & Hm & Hs & Hr & HQ & Ha) Hf. destruct (Hf a s' Hs HQ) as (b & s2 & Hb & Hs2 & Hr2 & HR & Hb2).
  exists b, s2. unfold mbind, M_bind. rewrite Hm. cbn. split_and!; [done|by eapply same_trans|by etrans|done|].
  intros Hag. rewrite Ha by by eapply agree_mono. cbn. by apply Hb2.
Qed.
Lemma good_mono {A} s (m1 m2 : M A) (Q R : A → Prop) : good s m1 m2 Q → (∀ a, Q a → R a) → good s m1 m2 R.
Proof. intros (a & s' & ? & ? & ? & ? & ?) HQR. exists a, s'. split_and!; try done. by apply HQR. Qed.
Lemma good_get {A} s (f1 f2 : rstate → M A) (Q : A → Prop) : good s (f1 s) (f2 s) Q → good s (get ≫= f1) (get ≫= f2) Q.
Proof. done. Qed.
Lemma good_modify s f : same s (f s) → rsRefs s ⊆ rsRefs (f s) → good s (modify f) (modify f) (λ _, True).
Proof. intros H Hr. exists (), (f s). by split_and!. Qed.
Lemma good_find s r : good s (find r) (find r) (λ _, True).
Proof. by apply good_modify. Qed.
Lemma good_then {A} s (m1 m2 : M ()) (k1 k2 : M A) (Q : A → Prop) :
  good s m1 m2 (λ _, True) → (∀ s', same s s' → good s' k1 k2 Q) → good s (_ ← m1; k1) (_ ← m2; k2) Q.
Proof. intros Hm Hk. eapply good_bind; [done|]. intros a s' Hs _. by apply Hk. Qed.

(** A computation in a changed state that is put back afterwards. *)
Lemma good_bracket {A B} s (f : rstate → rstate) (r : A → rstate → rstate) (m1 m2 : M A) (k1 k2 : A → M B)
    (Q : A → Prop) (R : B → Prop) :
  good (f s) m1 m2 Q →
  (∀ a s2, same (f s) s2 → rsRefs (f s) ⊆ rsRefs s2 →
     same s (r a s2) ∧ rsRefs s ⊆ rsRefs (r a s2) ∧ (agree (rsRefs (r a s2)) → agree (rsRefs s2))) →
  (∀ a s3, same s s3 → Q a → good s3 (k1 a) (k2 a) R) →
  good s (_ ← modify f; a ← m1; _ ← modify (r a); k1 a) (_ ← modify f; a ← m2; _ ← modify (r a); k2 a) R.
Proof.
  intros (a & s2 & Hm & Hs & Hr & HQ & Ha) Hback Hk. destruct (Hback a s2 Hs Hr) as (Hs3 & Hr3 & Hag3).
  destruct (Hk a (r a s2) Hs3 HQ) as (b & s4 & Hb & Hs4 & Hr4 & HR & Hb2).
  exists b, s4. unfold mbind, M_bind, modify. cbn. rewrite Hm. cbn. split_and!; [done|by eapply same_trans|by etrans|done|].
  intros Hag. rewrite Ha by (eapply Hag3, agree_mono; done). cbn. by apply Hb2.
Qed.

Lemma good_each {A B} (f1 f2 : A → M B) (Q : B → Prop) l s :
  (∀ x s', x ∈ l → same s s' → good s' (f1 x) (f2 x) Q) → good s (each f1 l) (each f2 l) (Forall Q).
Proof.
  revert s. induction l as [|x l IH]; intros s H; cbn [each]; [by apply good_ret|].
  eapply good_bind; [apply H; [by left|done]|]. intros y s1 Hs1 Hy.
  eapply good_bind; [apply IH|].
  - intros x' s2 Hx' Hs2. apply H; [by right|by eapply same_trans].
  - intros ys s2 _ Hys. apply good_ret. by constructor.
Qed.

Section Step.
Context (rec1 rec2 : value → M value) (fuel : nat).
Definition fits (v : value) (s : rstate) : Prop := (measure t s * bound t + value_size v ≤ fuel)%nat.
Hypothesis Hrec : ∀ v s, fits v s → good s (rec1 v) (rec2 v) W.

(** [s] leaves room for the parts of [v]. *)
Definition below (v : value) (s : rstate) : Prop := (measure t s * bound t + value_size v ≤ S fuel)%nat.
Lemma below_same v s s' : same s s' → below v s → below v s'.
Proof. intros Hs. unfold below. by rewrite (same_measure s s' Hs). Qed.
Lemma below_elem l x s : below (VList l) s → x ∈ l → fits x s.
Proof. unfold below, fits. intros Hb Hx%size_elem. cbn in Hb. lia. Qed.
Lemma below_entry m kv s : below (VMap m) s → kv ∈ m → fits kv.2 s.
Proof. unfold below, fits. intros Hb Hx%size_entry. cbn in Hb. lia. Qed.
Lemma below_list_of v x s : below v s → x ∈ list_of v → fits x s.
Proof.
  destruct v as [| | | | |l|l|]; intros Hb Hx; cbn in Hx; try by apply not_elem_of_nil in Hx.
  - by eapply below_elem.
  - apply list_elem_of_fmap in Hx as (y & -> & Hy). apply list_elem_of_lookup in Hy as [i Hi%lookup_lt_Some].
    unfold below, fits in *. cbn in *. lia.
Qed.

(** The part of a value after a step that keeps the busy sets. *)
Lemma good_rec v s s' : same s s' → fits v s → good s' (rec1 v) (rec2 v) W.
Proof. intros Hs Hf. apply Hrec. unfold fits in *. by rewrite (same_measure s s' Hs). Qed.

#[local] Abbreviation condition1 := (condition g rec1).
#[local] Abbreviation condition2 := (condition with_hooks rec2).

(** Room for one more of the template's own values. *)
Lemma spare s v : below v s → (measure t s * bound t ≤ fuel)%nat.
Proof. unfold below. pose proof (value_size_pos v). lia. Qed.

Lemma good_condition name s :
  (measure t s * bound t ≤ fuel)%nat → good s (condition1 name) (condition2 name) (λ _, True).
Proof.
  intros Hf. unfold condition. apply good_get. cbn [with_hooks gTemplate].
  destruct (rsConds s !! name) as [b|]; [by apply good_ret|].
  destruct (lookup_key (tConditions t) name) as [expr|] eqn:Ex; [|by apply good_ret].
  destruct (decide (name ∈ rsCondBusy s)) as [|Hn]; [apply good_then; [apply good_find|]; intros; by apply good_ret|].
  destruct (condition_size _ _ _ Ex) as [Hin Hsize].
  eapply (good_bracket s _ (λ v s', set_conds (<[name := truthy v]> (rsConds s')) (set_busy (rsCondBusy s' ∖ {[name]}) (set_where (rsWhere s) s')))).
  - apply Hrec. unfold fits, measure. cbn. unfold measure in Hf. pose proof (todo_lt _ _ _ Hin Hn). nia.
  - intros v s2 [Hb Hc] Hr. cbn in *. split_and!; [split; cbn; [rewrite Hb; set_solver|done]|done|done].
  - intros v s3 _ _. by apply good_ret.
Qed.

(** What is asked of the hooks about a resource that has been recorded. *)
Lemma good_ask {B} s (id : string) (m1 m2 : M B) (Q : B → Prop) :
  good (set_refs (rsRefs s ∪ {[id]}) s) m1 m1 Q → (comparable t (gHooks g) h2 → agree_at (gHooks g) h2 id → m2 = m1) →
  good s (_ ← add_ref id; m1) (_ ← add_ref id; m2) Q.
Proof.
  intros (b & s' & Hb & Hs & Hr & HQ & _) Hq. exists b, s'. cbn in Hr.
  split_and!; [exact Hb|exact Hs|set_solver|done|]. intros [Hc Hag]. rewrite Hq; [exact Hb|done|]. apply Hag. set_solver.
Qed.
Lemma good_ask_ret {B} s (id : string) (v1 v2 : B) (Q : B → Prop) :
  Q v1 → (agree_at (gHooks g) h2 id → v2 = v1) → good s (_ ← add_ref id; mret v1) (_ ← add_ref id; mret v2) Q.
Proof. intros HQ Hv. apply good_ask; [by apply good_ret|]. intros _ Ha. by rewrite Hv. Qed.
Lemma good_find_ret {A} s r (a : A) (Q : A → Prop) : Q a → good s (_ ← find r; mret a) (_ ← find r; mret a) Q.
Proof. intros HQ. apply good_then; [apply good_find|]. intros. by apply good_ret. Qed.

Lemma W_usable s v : usable s = Some v → W v.
Proof. unfold usable. destruct s as [s|]; [|done]. destruct (_ || _); [done|]. intros [= <-]. by apply k_str. Qed.

Lemma W_unresolved id attr : W (unresolved id attr).
Proof. exact (k_str _ HW _). Qed.

Lemma good_ref name s : good s (ref g name) (ref with_hooks name) W.
Proof.
  unfold ref. cbn [with_hooks gTemplate gParams gPseudo gHooks].
  destruct (HasPrefix name "AWS::").
  { destruct (gPseudo g !! name) eqn:E; [by eapply good_ret, gk_pseudo|by apply good_find_ret, k_str]. }
  destruct (gParams g !! name) eqn:E; [by eapply good_ret, gk_params|].
  destruct (resource_of t name) as [r|]; [|by apply good_find_ret, k_str].
  apply good_ask.
  - destruct (f ← hkDeployed (gHooks g); f name "") eqn:Ed; [by eapply good_ret, (gk_deployed _ _ HgW)|].
    destruct (if String.eqb _ _ then _ else _) as [v|] eqn:Ea.
    { apply good_ret. destruct (String.eqb _ _); [|done]. apply fmap_Some in Ea as (x & _ & ->). by apply k_str. }
    destruct (usable _) eqn:Eu; apply good_ret; [by eapply W_usable|by apply k_str].
  - intros _ [_ Hd Ha Hr _]. specialize (Hd ""). unfold att_of in Hd. by rewrite <- Hd, <- Ha, <- Hr.
Qed.

Lemma good_cloudFront id attr s v0 :
  below v0 s → good s (cloudFrontGetAtt format_float g rec1 id attr) (cloudFrontGetAtt format_float with_hooks rec2 id attr) (λ v, ∀ x, v = Some x → W x).
Proof.
  intros Hb%spare. unfold cloudFrontGetAtt. apply good_get. destruct (negb _); [by apply good_ret|].
  change (aliases_of with_hooks s id) with (aliases_of g s id).
  destruct (aliases_of g s id) as [raw|] eqn:Er; [|by apply good_ret].
  destruct (aliases_size t s g id raw eq_refl Er) as (Hin & Hsize & Hno).
  destruct (decide (id ∈ rsCfResolving s)) as [|Hn]; [by apply good_ret|].
  eapply (good_bracket s _ (λ v s', set_cf (rsCfResolving s' ∖ {[id]}) (set_where (rsWhere s) (set_refs (rsRefs s) (set_findings (take (length (rsFindings s)) (rsFindings s')) s'))))).
  - apply Hrec. unfold fits, measure. cbn. unfold measure in Hb. pose proof (todo_lt _ _ _ Hin Hn). nia.
  - intros v s2 [Hs Hc] Hr. cbn in *. split_and!; [split; cbn; [done|rewrite Hc; set_solver]|done|].
    intros [Hcmp _]. destruct Hno. exact (cmp_dist _ _ _ Hcmp).
  - intros v s3 _ _. destruct (cfStringList _ v) as [|a l]; [by apply good_ret|]. cbv zeta. apply good_ret.
    destruct (is_hostname _); [|done]. intros x [= <-]. by apply k_str.
Qed.

Lemma good_target arg s : below arg s → good s (getAtt_target format_float rec1 arg) (getAtt_target format_float rec2 arg) (λ _, True).
Proof.
  intros Hb. destruct arg as [| | | |a|[|a [|b l]]| |]; cbn [getAtt_target]; try by apply good_ret.
  - destruct (SplitN a "." 2) as [|x [|y l]]; by apply good_ret.
  - eapply good_bind; [eapply good_rec; [done|]|intros; by apply good_ret]. eapply below_elem; [done|]. right. by left.
Qed.

(** The part of Fn::GetAtt that follows the recording. *)
Definition att_body (g : given) (r : Resource) (id attr : string) : M value :=
  match (f ← hkDeployed (gHooks g); f id attr) with
  | Some v => mret v
  | None =>
      let eip := String.eqb (rType r) "AWS::EC2::EIP" in
      match (if eip && String.eqb attr "PublicIp" then VStr <$> opt_call (hkAddressOf (gHooks g)) id else None) with
      | Some v => mret v
      | None =>
          if eip && String.eqb attr "AllocationId" then
            mret (VStr (eipAllocationID sha256hex (Sprint format_float (default VNil (gPseudo g !! "AWS::StackName"))) id))
          else
            _ ← (if String.eqb (rType r) waitConditionType && String.eqb attr "Data" && bool_decide (hkDeployed (gHooks g) = None)
                 then find (WaitData id) else mret ());
            mret (unresolved id attr)
      end
  end.
Lemma att_body_good r id attr s : good s (att_body g r id attr) (att_body g r id attr) W.
Proof.
  unfold att_body. destruct (f ← hkDeployed (gHooks g); f id attr) eqn:Ed; [by eapply good_ret, (gk_deployed _ _ HgW)|]. cbv zeta.
  destruct (if _ && _ then VStr <$> _ else None) as [v|] eqn:Ea.
  { apply good_ret. revert Ea. destruct (_ && _); [|done]. intros (x & _ & ->)%fmap_Some. by apply k_str. }
  destruct (String.eqb (rType r) "AWS::EC2::EIP" && String.eqb attr "AllocationId"); [by apply good_ret, k_str|].
  apply good_then; [|intros; by apply good_ret, W_unresolved].
  destruct (String.eqb (rType r) waitConditionType && _ && _); [apply good_find|by apply good_ret].
Qed.
Lemma att_body_agree r id attr :
  comparable t (gHooks g) h2 → agree_at (gHooks g) h2 id → att_body with_hooks r id attr = att_body g r id attr.
Proof.
  intros Hc [_ Hd Ha _ _]. unfold att_body, att_of in *. cbn [with_hooks gHooks gPseudo]. rewrite <- Hd, <- Ha.
  assert (bool_decide (hkDeployed (gHooks g) = None) = bool_decide (hkDeployed h2 = None)) as ->; [|done].
  apply bool_decide_ext, (cmp_deployed _ _ _ Hc).
Qed.

(** An attribute of a resource of the stack: in every case the resource is recorded first. *)
Definition static_or_att (g : given) (r : Resource) (id attr : string) : M value :=
  _ ← add_ref id;
  match usable (f ← hkStaticAtt (gHooks g); f id attr) with Some v => mret v | None => att_body g r id attr end.
Lemma static_or_att_eq g' r id attr :
  match usable (f ← hkStaticAtt (gHooks g'); f id attr) with
  | Some v => _ ← add_ref id; mret v
  | None => resource_att format_float sha256hex g' r id attr
  end = static_or_att g' r id attr.
Proof. unfold static_or_att. by destruct (usable _). Qed.
Lemma static_or_att_good r id attr s : good s (static_or_att g r id attr) (static_or_att with_hooks r id attr) W.
Proof.
  unfold static_or_att. apply good_ask.
  - destruct (usable _) eqn:E; [by eapply good_ret, W_usable|apply att_body_good].
  - intros Hc Ha. cbn [with_hooks gHooks]. rewrite att_body_agree by done. pose proof (aa_att _ _ _ Ha attr) as H.
    unfold static_att_of in H. by rewrite <- H.
Qed.

(** Under what a run reads, another program for the second world will do. *)
Definition records {A} (id : string) (m : M A) (s : rstate) : Prop := ∀ a s', m s = Some (a, s') → id ∈ rsRefs s'.
Lemma good_swap {A} s id (m1 m2 m2' : M A) (Q : A → Prop) :
  good s m1 m2' Q → records id m1 s → (comparable t (gHooks g) h2 → agree_at (gHooks g) h2 id → m2 = m2') → good s m1 m2 Q.
Proof.
  intros (a & s' & Hm & Hs & Hr & HQ & Ha) Hrc Heq. exists a, s'. split_and!; [done..|]. intros Hag.
  rewrite Heq; [by apply Ha|by destruct Hag|]. destruct Hag as [_ Hag]. apply Hag. by eapply Hrc.
Qed.
Lemma good_comparable {A} s (m1 m2 m2' : M A) (Q : A → Prop) :
  good s m1 m2' Q → (comparable t (gHooks g) h2 → m2 = m2') → good s m1 m2 Q.
Proof.
  intros (a & s' & Hm & Hs & Hr & HQ & Ha) Heq. exists a, s'. split_and!; [done..|]. intros Hag.
  rewrite Heq; [by apply Ha|by destruct Hag].
Qed.
Lemma records_bind {A B} id (m : M A) (f : A → M B) s : (∀ a s', records id (f a) s') → records id (m ≫= f) s.
Proof.
  intros H b s' Hb. unfold mbind, M_bind in Hb. destruct (m s) as [[a s1]|]; [|done]. by apply (H a s1 b s').
Qed.
Lemma records_ask {A} id (m : M A) (Q : A → Prop) s :
  (∀ s', good s' m m Q) → records id (_ ← add_ref id; m) s.
Proof.
  intros H a s' Ha. destruct (H (set_refs (rsRefs s ∪ {[id]}) s)) as (a' & s2 & Hm & _ & Hr & _).
  unfold mbind, M_bind, add_ref, modify in Ha. cbn in Ha. rewrite Hm in Ha. injection Ha as -> ->. cbn in Hr. set_solver.
Qed.

(** Fn::GetAtt after the target is known. *)
Definition att_of_resource (g : given) (rec : value → M value) (id attr : string) : M value :=
  cf ← cloudFrontGetAtt format_float g rec id attr;
  match cf with
  | Some v => _ ← add_ref id; mret v
  | None =>
      match resource_of (gTemplate g) id with
      | Some r =>
          match usable (f ← hkStaticAtt (gHooks g); f id attr) with
          | Some v => _ ← add_ref id; mret v
          | None => resource_att format_float sha256hex g r id attr
          end
      | None => _ ← (if String.eqb id "" then mret () else find (GetAttUndefined id)); mret (unresolved id attr)
      end
  end.
Lemma getAtt_eq g' rec arg :
  getAtt format_float sha256hex g' rec arg =
  ('(id, attr) ← getAtt_target format_float rec arg;
   match hkCustomData (gHooks g') id with
   | Some data => _ ← add_ref id; mret (default (unresolved id attr) (data attr))
   | None => att_of_resource g' rec id attr
   end).
Proof. done. Qed.

Lemma good_att_of_resource id attr s v0 :
  below v0 s → good s (att_of_resource g rec1 id attr) (att_of_resource with_hooks rec2 id attr) W.
Proof.
  intros Hb. unfold att_of_resource. eapply good_bind; [by eapply good_cloudFront|]. intros cf s1 _ Hcf.
  destruct cf as [v|]; [apply good_ask_ret; [by apply Hcf|done]|]. cbn [with_hooks gTemplate].
  destruct (resource_of t id) as [r|].
  - rewrite (static_or_att_eq g), (static_or_att_eq with_hooks). apply static_or_att_good.
  - apply good_then; [destruct (String.eqb id ""); [by apply good_ret|apply good_find]|]. intros. by apply good_ret, W_unresolved.
Qed.
Lemma records_att_of_resource id attr s r : resource_of t id = Some r → records id (att_of_resource g rec1 id attr) s.
Proof.
  intros Hr. unfold att_of_resource. apply records_bind. intros cf s1. destruct cf as [v|].
  - apply (records_ask id _ (λ _, True)). intros s'. by apply good_ret.
  - rewrite Hr, (static_or_att_eq g). apply (records_ask id _ W). intros s'.
    destruct (usable _) eqn:E; [by eapply good_ret, W_usable|apply att_body_good].
Qed.

Lemma good_getAtt arg s :
  below arg s → good s (getAtt format_float sha256hex g rec1 arg) (getAtt format_float sha256hex with_hooks rec2 arg) W.
Proof.
  intros Hb. rewrite !getAtt_eq. eapply good_bind; [by apply good_target|]. intros [id attr] s1 Hs1 _.
  change (gHooks with_hooks) with h2. pose proof (below_same _ _ _ Hs1 Hb) as Hb1.
  destruct (hkCustomData (gHooks g) id) as [data|] eqn:Ec.
  - eapply (good_swap _ id _ _ (_ ← add_ref id; mret (default (unresolved id attr) (data attr)))).
    + apply good_ask_ret; [|done]. destruct (data attr) eqn:Ed; [by eapply (gk_custom _ _ HgW)|by apply W_unresolved].
    + apply (records_ask id _ (λ _, True)). intros s'. by apply good_ret.
    + intros _ [Ha _ _ _ _]. by rewrite <- Ha, Ec.
  - destruct (resource_of t id) as [r|] eqn:Er.
    + eapply (good_swap _ id); [by eapply good_att_of_resource|by eapply records_att_of_resource|].
      intros _ [Ha _ _ _ _]. by rewrite <- Ha, Ec.
    + eapply good_comparable; [by eapply good_att_of_resource|]. intros Hc.
      destruct (hkCustomData h2 id) as [d|] eqn:E2; [|done]. destruct (cmp_about2 _ _ _ Hc id) as [r Hr]; [by eexists|]. congruence.
Qed.

(** The values a list argument holds, one after the other. *)
#[local] Hint Resolve same_trans same_refl : oi.
Lemma good_arg arg x s s' : below arg s → x ∈ list_of arg → same s s' → good s' (rec1 x) (rec2 x) W.
Proof. intros Hb Hx Hs. eapply good_rec; [done|by eapply below_list_of]. Qed.
Lemma good_entries m s :
  below (VMap m) s →
  good s (each (λ kv : string * value, v ← rec1 kv.2; mret (kv.1, v)) m) (each (λ kv : string * value, v ← rec2 kv.2; mret (kv.1, v)) m)
    (Forall (λ kv, W kv.2)).
Proof.
  intros Hb. apply (good_each _ _ (λ kv : string * value, W kv.2)). intros kv s' Hkv Hs.
  eapply good_bind; [eapply good_rec; [done|by eapply below_entry]|]. intros v s2 _ Hv. by apply good_ret.
Qed.
Lemma W_list_of v : W v → Forall W (list_of v).
Proof.
  intros Hv. destruct v; cbn; try constructor; [by apply (k_elem _ HW)|].
  apply Forall_forall. intros x (y & -> & _)%list_elem_of_fmap. exact (k_str _ HW y).
Qed.

Lemma good_sub arg s :
  below arg s → good s (sub format_float sha256hex g rec1 arg) (sub format_float sha256hex with_hooks rec2 arg) W.
Proof.
  intros Hb. unfold sub. eapply (good_bind _ _ _ _ _ (λ p : string * list (string * value), Forall (λ kv, W kv.2) p.2)).
  - unfold sub_args. destruct arg as [| | | |a|[|a rest]| |]; try (by apply good_ret).
    destruct rest as [|x rest]; [by apply good_ret|]. destruct x as [| | | | | | |m]; try (by apply good_ret).
    eapply good_bind; [apply good_entries|intros extra s2 _ He; by apply good_ret].
    unfold below in *. cbn in *. lia.
  - intros [tmpl extra] s1 Hs1 Hextra. eapply (good_bind _ _ _ _ _ (λ _, True)); [|intros; apply good_ret, (k_str _ HW)].
    eapply good_mono; [apply (good_each _ _ (λ _, True))|done]. intros p s2 _ Hs2.
    destruct p as [txt|name]; cbn [sub_piece]; [by apply good_ret|].
    destruct (CutPrefix name "!"); [by apply good_ret|]. destruct (lookup_key extra name); [by apply good_ret|].
    eapply good_bind; [|intros; by apply good_ret]. destruct (contains_char "." name); [|by eapply good_mono; [apply good_ref|]].
    eapply good_mono; [apply good_getAtt|done]. pose proof (below_same _ _ _ (same_trans _ _ _ Hs1 Hs2) Hb) as Hb2.
    unfold below in *. pose proof (value_size_pos arg). cbn. lia.
Qed.

Lemma good_import arg s : fits arg s → good s (importValue format_float g rec1 arg) (importValue format_float with_hooks rec2 arg) W.
Proof.
  intros Hf. unfold importValue. eapply good_bind; [by apply Hrec|]. intros v s1 _ _. cbv zeta. cbn [with_hooks gExports].
  destruct (gExports g !! _) eqn:E; [by eapply good_ret, gk_exports|by apply good_find_ret, (k_str _ HW)].
Qed.
Lemma good_azs arg s : fits arg s → good s (getAZs format_float g rec1 arg) (getAZs format_float with_hooks rec2 arg) W.
Proof.
  intros Hf. unfold getAZs. eapply good_bind; [by apply Hrec|]. intros v s1 _ _. cbv zeta. cbn [with_hooks gPseudo].
  apply good_ret, (k_list _ HW). repeat constructor; try done; apply (k_str _ HW).
Qed.

Lemma fnCidr_W P b n c l : fnCidr P b n c = Some l → W (VList l).
Proof.
  unfold fnCidr. intros H. repeat case_match; simplify_eq. apply (k_list _ HW), Forall_forall.
  intros x (y & -> & _)%list_elem_of_fmap. split; [done|apply (k_str _ HW)].
Qed.
Lemma good_cidr arg s : below arg s → good s (cidr format_float parseIPv6 rec1 arg) (cidr format_float parseIPv6 rec2 arg) W.
Proof.
  intros Hb. unfold cidr. destruct (list_of arg) as [|x [|y [|z [|? ?]]]] eqn:El; try (by apply good_find_ret, (k_str _ HW)).
  eapply good_bind; [eapply good_arg; [done|rewrite El; set_solver|done]|]. intros v1 s1 Hs1 _.
  eapply good_bind; [eapply good_arg; [done|rewrite El; set_solver|done]|]. intros v2 s2 Hs2 _.
  eapply good_bind; [eapply good_arg; [done|rewrite El; set_solver|by eauto with oi]|]. intros v3 s3 _ _.
  destruct (ParseInt _) as [n|]; [|by apply good_find_ret, (k_str _ HW)].
  destruct (ParseInt _) as [b|]; [|by apply good_find_ret, (k_str _ HW)].
  destruct (_ || _); [by apply good_find_ret, (k_str _ HW)|].
  destruct (fnCidr _ _ _ _) eqn:E; [by eapply good_ret, fnCidr_W|by apply good_find_ret, (k_str _ HW)].
Qed.

Lemma good_join arg s : below arg s → good s (join format_float rec1 arg) (join format_float rec2 arg) W.
Proof.
  intros Hb. unfold join. destruct (list_of arg) as [|x [|y [|? ?]]] eqn:El; try (by apply good_ret, (k_str _ HW)).
  eapply good_bind; [eapply good_arg; [done|rewrite El; set_solver|done]|]. intros. apply good_ret, (k_str _ HW).
Qed.
Lemma good_select arg s : below arg s → good s (selectIdx int_of_float rec1 arg) (selectIdx int_of_float rec2 arg) W.
Proof.
  intros Hb. unfold selectIdx. destruct (list_of arg) as [|x [|y [|? ?]]] eqn:El; try (by apply good_ret, (k_nil _ HW)).
  eapply good_bind; [eapply good_arg; [done|rewrite El; set_solver|done]|]. intros v s1 Hs1 Hv.
  eapply good_bind; [eapply good_arg; [done|rewrite El; set_solver|done]|]. intros n s2 _ _. apply good_ret.
  destruct (Prelude.index _ _) as [w|] eqn:Ei; [|apply (k_nil _ HW)]. cbn. unfold Prelude.index in Ei.
  destruct (_ && _); [|done]. by eapply Forall_lookup_1; [apply W_list_of, Hv|].
Qed.
Lemma good_findInMap arg s : below arg s → good s (findInMap format_float g rec1 arg) (findInMap format_float with_hooks rec2 arg) W.
Proof.
  intros Hb. unfold findInMap. destruct (list_of arg) as [|x [|y [|z [|? ?]]]] eqn:El; try (by apply good_ret, (k_nil _ HW)).
  eapply good_bind; [eapply good_arg; [done|rewrite El; set_solver|done]|]. intros v1 s1 Hs1 _.
  eapply good_bind; [eapply good_arg; [done|rewrite El; set_solver|done]|]. intros v2 s2 Hs2 _.
  eapply good_bind; [eapply good_arg; [done|rewrite El; set_solver|by eauto with oi]|]. intros v3 s3 _ _.
  cbn [with_hooks gTemplate]. destruct (lookup_key _ _) eqn:E; [by eapply good_ret, gk_mappings|by apply good_find_ret, (k_nil _ HW)].
Qed.
Lemma good_if arg s : below arg s → good s (ifFn format_float g rec1 arg) (ifFn format_float with_hooks rec2 arg) W.
Proof.
  intros Hb. unfold ifFn. destruct (list_of arg) as [|x [|y [|z [|? ?]]]] eqn:El; try (by apply good_ret, (k_nil _ HW)).
  eapply good_bind; [apply good_condition; by eapply spare|]. intros b s1 Hs1 _. apply good_get. cbn [with_hooks gTemplate].
  destruct (_ || _); (eapply good_arg; [done|rewrite El; set_solver|done]).
Qed.

Lemma good_all l arg s s0 : below arg s0 → (∀ x, x ∈ l → x ∈ list_of arg) → same s0 s → good s (all_true rec1 l) (all_true rec2 l) (λ _, True).
Proof.
  intros Hb. revert s. induction l as [|x l IH]; intros s Hl Hs; cbn [all_true]; [by apply good_ret|].
  eapply good_bind; [eapply good_arg; [done|apply Hl; by left|done]|]. intros v s1 Hs1 _.
  destruct (truthy v); [|by apply good_ret]. apply IH; [intros; apply Hl; by right|by eauto with oi].
Qed.
Lemma good_any l arg s s0 : below arg s0 → (∀ x, x ∈ l → x ∈ list_of arg) → same s0 s → good s (any_true rec1 l) (any_true rec2 l) (λ _, True).
Proof.
  intros Hb. revert s. induction l as [|x l IH]; intros s Hl Hs; cbn [any_true]; [by apply good_ret|].
  eapply good_bind; [eapply good_arg; [done|apply Hl; by left|done]|]. intros v s1 Hs1 _.
  destruct (truthy v); [by apply good_ret|]. apply IH; [intros; apply Hl; by right|by eauto with oi].
Qed.
Lemma good_condition_ref name s : (measure t s * bound t ≤ fuel)%nat → good s (condition_ref g rec1 name) (condition_ref with_hooks rec2 name) W.
Proof.
  intros Hf. unfold condition_ref. apply good_get. cbn [with_hooks gTemplate].
  destruct (lookup_key _ _) as [e|].
  - eapply good_bind; [by apply good_condition|]. intros. apply good_ret, (k_bool _ HW).
  - destruct (rsConds s !! name); [apply good_ret, (k_bool _ HW)|apply good_find_ret, (k_bool _ HW)].
Qed.

Definition whole_opt (o : option value) : Prop := ∀ v, o = Some v → W v.
Lemma good_done s (m1 m2 : M value) : good s m1 m2 W → good s (v ← m1; mret (Some v)) (v ← m2; mret (Some v)) whole_opt.
Proof. intros H. eapply good_bind; [done|]. intros a s' _ Ha. apply good_ret. by intros v [= <-]. Qed.

Lemma good_intrinsic key arg s :
  below (VMap [(key, arg)]) s →
  good s (intrinsic format_float int_of_float sha256hex parseIPv6 g rec1 key arg)
         (intrinsic format_float int_of_float sha256hex parseIPv6 with_hooks rec2 key arg) whole_opt.
Proof.
  intros Hm. assert (Hf : fits arg s) by (unfold below, fits in *; cbn in Hm; lia).
  assert (Hb : below arg s) by (unfold below, fits in *; lia).
  unfold intrinsic. cbv zeta.
  destruct (String.eqb key "Ref"); [apply good_done, good_ref|].
  destruct (String.eqb key "Condition"); [by apply good_done, good_condition_ref, (spare s arg)|].
  destruct (String.eqb key "Fn::GetAtt"); [by apply good_done, good_getAtt|].
  destruct (String.eqb key "Fn::Sub"); [by apply good_done, good_sub|].
  destruct (String.eqb key "Fn::Join"); [by apply good_done, good_join|].
  destruct (String.eqb key "Fn::Select"); [by apply good_done, good_select|].
  destruct (String.eqb key "Fn::FindInMap"); [by apply good_done, good_findInMap|].
  destruct (String.eqb key "Fn::If"); [by apply good_done, good_if|].
  destruct (String.eqb key "Fn::Equals").
  { apply good_done. destruct (list_of arg) as [|x [|y [|? ?]]] eqn:El; try apply good_ret, (k_bool _ HW).
    eapply good_bind; [eapply good_arg; [done|rewrite El; set_solver|done]|]. intros v1 s1 Hs1 _.
    eapply good_bind; [eapply good_arg; [done|rewrite El; set_solver|done]|]. intros. apply good_ret, (k_bool _ HW). }
  destruct (String.eqb key "Fn::And").
  { apply good_done. eapply good_bind; [by eapply good_all|]. intros. apply good_ret, (k_bool _ HW). }
  destruct (String.eqb key "Fn::Or").
  { apply good_done. eapply good_bind; [by eapply good_any|]. intros. apply good_ret, (k_bool _ HW). }
  destruct (String.eqb key "Fn::Not").
  { apply good_done. destruct (list_of arg) as [|x [|? ?]] eqn:El; try apply good_ret, (k_bool _ HW).
    eapply good_bind; [eapply good_arg; [done|rewrite El; set_solver|done]|]. intros. apply good_ret, (k_bool _ HW). }
  destruct (String.eqb key "Fn::Split").
  { apply good_done. destruct (list_of arg) as [|x [|y [|? ?]]] eqn:El; try apply good_ret, (k_nil _ HW).
    eapply good_bind; [eapply good_arg; [done|rewrite El; set_solver|done]|]. intros. apply good_ret, (k_strs _ HW). }
  destruct (String.eqb key "Fn::Base64").
  { apply good_done. eapply good_bind; [by apply Hrec|]. intros. apply good_ret, (k_str _ HW). }
  destruct (String.eqb key "Fn::ImportValue"); [by apply good_done, good_import|].
  destruct (String.eqb key "Fn::GetAZs"); [by apply good_done, good_azs|].
  destruct (String.eqb key "Fn::Cidr"); [by apply good_done, good_cidr|].
  destruct (HasPrefix key "Fn::"); [apply good_find_ret; intros v [= <-]; apply (k_str _ HW)|by apply good_ret].
Qed.

Lemma is_nil_false v : is_nil v = false ↔ v ≠ VNil.
Proof. by destruct v. Qed.
Lemma good_walk_map m s : below (VMap m) s → good s (walk_map rec1 m) (walk_map rec2 m) W.
Proof.
  intros Hb. unfold walk_map. eapply good_bind; [by apply good_entries|]. intros kvs s' _ Hk.
  apply good_ret, (k_map _ HW), Forall_forall. intros kv [Hnil Hin]%list_elem_of_filter.
  split; [by apply is_nil_false|]. rewrite Forall_forall in Hk. by apply Hk.
Qed.
Lemma good_walk_list l s : below (VList l) s → good s (walk_list rec1 l) (walk_list rec2 l) W.
Proof.
  intros Hb. unfold walk_list. eapply good_bind.
  - apply (good_each _ _ W). intros x s' Hx Hs. eapply good_rec; [done|by eapply below_elem].
  - intros vs s' _ Hv. apply good_ret, (k_list _ HW), Forall_forall. intros x [Hnil Hin]%list_elem_of_filter.
    split; [by apply is_nil_false|]. rewrite Forall_forall in Hv. by apply Hv.
Qed.

Lemma good_step v s :
  below v s →
  good s (resolve_step format_float int_of_float sha256hex parseIPv6 g rec1 v)
         (resolve_step format_float int_of_float sha256hex parseIPv6 with_hooks rec2 v) W.
Proof.
  intros Hb. destruct v as [|b|n|f|str|l|l|m]; cbn [resolve_step]; try (apply good_ret; by destruct HW).
  - by apply good_walk_list.
  - destruct m as [|[k arg] [|kv m]]; [by apply good_walk_map| |by apply good_walk_map].
    eapply good_bind; [by apply good_intrinsic|]. intros r s1 Hs1 Hr. destruct r as [out|]; [by apply good_ret, Hr|].
    apply good_walk_map. by eapply below_same.
Qed.
End Step.

(** Fuel for the conditions and aliases still to evaluate, and for the value. *)
Lemma good_resolve fuel v s :
  (measure t s * bound t + value_size v ≤ fuel)%nat →
  good s (resolve format_float int_of_float sha256hex parseIPv6 g fuel v)
         (resolve format_float int_of_float sha256hex parseIPv6 with_hooks fuel v) W.
Proof.
  revert v s. induction fuel as [|fuel IH]; intros v s Hf; [pose proof (value_size_pos v); lia|].
  cbn [resolve]. apply (good_step _ _ fuel); [exact IH|exact Hf].
Qed.
End Walk.

(** ** The walk ends, leaves no holes, and reads what it records *)

(** No nil inside a value: what AWS::NoValue stands for is gone with its property. *)
Fixpoint whole (v : value) : bool :=
  match v with
  | VList l => forallb (λ x, negb (is_nil x) && whole x) l
  | VMap m => forallb (λ kv, negb (is_nil kv.2) && whole kv.2) m
  | _ => true
  end.

Lemma forallb_Forall {A} (f : A → bool) l : forallb f l = true ↔ Forall (λ x, f x = true) l.
Proof. induction l as [|x l IH]; cbn; [by split|]. by rewrite andb_true_iff, Forall_cons, IH. Qed.
Lemma whole_keeps : keeps (λ v, whole v = true).
Proof.
  assert (Hx : ∀ x, x ≠ VNil ∧ whole x = true → negb (is_nil x) && whole x = true).
  { intros x [Hn Hw]. rewrite Hw, andb_true_r. by destruct x; try destruct (Hn eq_refl). }
  split; try done.
  - intros l Hl. apply forallb_Forall. eapply Forall_impl; [exact Hl|]. cbn. intros x. apply Hx.
  - intros m Hm. apply forallb_Forall. eapply Forall_impl; [exact Hm|]. cbn. intros x. apply Hx.
  - intros l Hl. apply forallb_Forall in Hl. eapply Forall_impl; [exact Hl|]. cbn. intros x Hn. by apply andb_true_iff in Hn as [_ ?].
Qed.
Lemma True_keeps : keeps (λ _, True).
Proof. split; try done. intros l _. by apply Forall_true. Qed.
Lemma True_given g : given_keeps (λ _, True) g.
Proof. by split. Qed.

(** Enough for a value from a state: what is left of the template's own values, and the value. *)
Definition enough (g : given) (v : value) (s : rstate) : nat :=
  (measure (gTemplate g) s * bound (gTemplate g) + value_size v)%nat.

(** C33: Resolution ends: conditions that refer to each other, and aliases that read attributes that read
    aliases, are entered once each, so fuel for every one of them and for the value itself is enough. *)
Theorem resolve_ends format_float int_of_float sha256hex parseIPv6 (g : given) (v : value) (s : rstate) (fuel : nat) :
  (enough g v s ≤ fuel)%nat →
  ∃ a s', resolve format_float int_of_float sha256hex parseIPv6 g fuel v s = Some (a, s') ∧ same s s'.
Proof.
  intros Hf. destruct (good_resolve format_float int_of_float sha256hex parseIPv6 _ True_keeps g (True_given g) (gHooks g) fuel v s Hf)
    as (a & s' & H & Hs & _). by exists a, s'.
Qed.

(** What AWS::NoValue stands for leaves no hole: when the parameters, exports, mappings and hooks have
    none, neither has a resolved value, in any list or map of it. *)
Theorem resolve_whole format_float int_of_float sha256hex parseIPv6 (g : given) (v a : value) (s s' : rstate) (fuel : nat) :
  given_keeps (λ v, whole v = true) g → (enough g v s ≤ fuel)%nat →
  resolve format_float int_of_float sha256hex parseIPv6 g fuel v s = Some (a, s') → whole a = true.
Proof.
  intros Hg Hf H. destruct (good_resolve format_float int_of_float sha256hex parseIPv6 _ whole_keeps g Hg (gHooks g) fuel v s Hf)
    as (a' & s2 & H' & _ & _ & Ha & _). by rewrite H' in H; simplify_eq.
Qed.


(** ** At a concrete template *)

(** A queue's name depends on a condition, and a function reads the queue's address. *)
Definition fn (key : string) (arg : value) : value := VMap [(key, arg)].
Definition demo_template : Template :=
  mkTemplate []
    [("IsProd", fn "Fn::Equals" (VList [fn "Ref" (VStr "Env"); VStr "prod"]));
     ("Named", fn "Fn::Not" (VList [fn "Condition" (VStr "IsProd")]))]
    [("Queue", mkResource "AWS::SQS::Queue" [("QueueName", fn "Fn::If" (VList [VStr "Named"; VStr "dev-queue"; fn "Ref" (VStr "AWS::NoValue")]))] [] "" "");
     ("Fn", mkResource "AWS::Lambda::Function" [("Url", fn "Fn::Sub" (VStr "${Queue.Arn}/${Env}"))] [] "" "")].
Definition demo_given (env : string) (h : hooks) : given :=
  mkGiven demo_template {["Env" := VStr env]} ∅ {["AWS::NoValue" := VNil]} h.
Definition live (arn : string) : hooks :=
  mkHooks (λ _, None) (Some (λ id attr, if String.eqb id "Queue" then Some (VStr arn) else None)) None None None.
(** As [live], and with something to say of the function. *)
Definition live2 : hooks :=
  mkHooks (λ _, None) (Some (λ id attr, if String.eqb id "Queue" then Some (VStr "arn:q") else if String.eqb id "Fn" then Some (VStr "arn:fn") else None)) None None None.

#[local] Abbreviation run := (resolve (λ _, "") (λ _, 0) (λ _, "") (λ _, None)).
Definition queue_props : value := VMap [("QueueName", fn "Fn::If" (VList [VStr "Named"; VStr "dev-queue"; fn "Ref" (VStr "AWS::NoValue")]))].
Definition fn_url : value := fn "Fn::Sub" (VStr "${Queue.Arn}/${Env}").

Example queue_dev : fst <$> run (demo_given "dev" no_hooks) 300 queue_props start = Some (VMap [("QueueName", VStr "dev-queue")]).
Proof. vm_compute. reflexivity. Qed.
Example queue_prod : fst <$> run (demo_given "prod" no_hooks) 300 queue_props start = Some (VMap []).
Proof. vm_compute. reflexivity. Qed.

Lemma resolve_ends_witness :
  ∃ a s', run (demo_given "prod" no_hooks) 300 queue_props start = Some (a, s') ∧ same start s'.
Proof.
  apply (resolve_ends (λ _, "") (λ _, 0) (λ _, "") (λ _, None) (demo_given "prod" no_hooks) queue_props start 300).
  apply Nat.leb_le. vm_compute. reflexivity.
Defined.

Lemma demo_whole : given_keeps (λ v, whole v = true) (demo_given "prod" no_hooks).
Proof.
  split; cbn; try done.
  - by intros n v [_ <-]%lookup_singleton_Some.
  - by intros n v [_ <-]%lookup_singleton_Some.
Qed.

Lemma resolve_whole_witness :
  ∃ a s', run (demo_given "prod" no_hooks) 300 queue_props start = Some (a, s') ∧ whole a = true.
Proof.
  destruct (run (demo_given "prod" no_hooks) 300 queue_props start) as [[a s']|] eqn:E; [|discriminate E].
  exists a, s'. split; [reflexivity|].
  apply (resolve_whole (λ _, "") (λ _, 0) (λ _, "") (λ _, None) (demo_given "prod" no_hooks) queue_props a start s' 300 demo_whole).
  - apply Nat.leb_le. vm_compute. reflexivity.
  - exact E.
Defined.


(** An index outside an Fn::Select's list removes the property, and nothing is found wrong. *)
Lemma select_outside_silent :
  (λ x, (x.1, rsFindings x.2)) <$> run (demo_given "dev" no_hooks) 300 (VMap [("Subnet", fn "Fn::Select" (VList [VInt 3; VList [VStr "a"]]))]) start
  = Some (VMap [], []).
Proof. vm_compute. reflexivity. Qed.

(** A condition that is not defined is false, and nothing is found wrong. *)
Lemma if_undefined_silent :
  (λ x, (x.1, rsFindings x.2)) <$> run (demo_given "dev" no_hooks) 300 (fn "Fn::If" (VList [VStr "IsPord"; VStr "on"; VStr "off"])) start
  = Some (VStr "off", []).
Proof. vm_compute. reflexivity. Qed.
