(* ===== verification/CfnPlan.v ===== *)
(** * Plans (cfn/plan.go)

    From a parsed template to the resources included, what each waits for, their order and the verdict.  The
    table of resource types and their translators is an argument, and so are the blockers and caveats of the
    checks modelled nowhere here: parameter values, resource attributes, outputs and the translators. *)

From S2P Require Import Prelude GoStrings GoNet CfnTemplate CfnGraph CfnResolve CfnReads.
#[local] Open Scope string_scope.
#[local] Open Scope Z_scope.
#[local] Open Scope list_scope.

Inductive Status := Supported | Partial | Gated | Unsupported.
#[export] Instance Status_eq : EqDecision Status.
Proof. solve_decision. Defined.
Record MapEntry := mkEntry { meKind : string; meStatus : Status }.
Definition mappable (e : MapEntry) : bool := match meStatus e with Supported | Partial => true | _ => false end.

Inductive Verdict := Provisionable | ProvisionableWithCaveats | Rejected.
#[export] Instance Verdict_eq : EqDecision Verdict.
Proof. solve_decision. Defined.
Inductive blocker :=
| BCheck (what : string)
| BUnmapped (id : string)
| BNoTranslator (id : string)
| BFinding (f : Finding)
| BCycle (stuck : list string).

Record PlannedResource := mkPlanned {
  plID : string;
  plEntry : MapEntry;
  plDeployable : bool;
  plIncluded : bool;
  plDeps : list string;
}.
Record Plan := mkPlan {
  pnVerdict : Verdict;
  pnOrder : list string;
  pnResources : list PlannedResource;
  pnBlockers : list blocker;
  pnDeps : gmap string (list string);
}.

(** refTarget: the resource a property refers to. *)
Definition refTarget (raw : option value) : option string :=
  match lookup_key (as_map raw) "Ref" with Some (VStr id) => Some id | _ => None end.

Section Plan.
Context (format_float : spec_float → string) (int_of_float : spec_float → Z) (sha256hex : string → string)
  (parseIPv6 : string → option Z).
(** The table of resource types (mapping.go), and which have a create translator. *)
Context (Lookup : string → MapEntry) (hasTranslator : string → bool).

(** One resource: whether it is included, and what it depends on. *)
Definition plan_resource (g : given) (fuel : nat) (kv : string * Resource) : M PlannedResource :=
  let '(id, r) := kv in
  s ← get;
  let included := if String.eqb (rCondition r) "" then true else default false (rsConds s !! rCondition r) in
  let e := Lookup (rType r) in
  let deployable := mappable e && hasTranslator (rType r) in
  if included then
    d ← resolveResource format_float int_of_float sha256hex parseIPv6 g fuel id r;
    mret (mkPlanned id e deployable true (d ++ rDependsOn r))
  else mret (mkPlanned id e deployable false []).

Definition map_blockers (p : PlannedResource) : list blocker :=
  if negb (plIncluded p) then []
  else if negb (mappable (plEntry p)) then [BUnmapped (plID p)]
  else if negb (plDeployable p) then [BNoTranslator (plID p)]
  else [].

(** A volume attachment makes its instance wait for its volume, and not the volume for the instance. *)
Definition attach (t : Template) (deps : gmap string (list string)) (kv : string * Resource) : gmap string (list string) :=
  let '(_, r) := kv in
  if negb (String.eqb (rType r) "AWS::EC2::VolumeAttachment") then deps
  else
    let inst := default "" (refTarget (lookup_key (rProperties r) "InstanceId")) in
    let vol := default "" (refTarget (lookup_key (rProperties r) "VolumeId")) in
    match deps !! inst with
    | None => deps
    | Some ds =>
        if String.eqb (from_option rType "" (resource_of t vol)) "AWS::EC2::Volume" then
          let deps := <[inst := ds ++ [vol]]> deps in
          <[vol := filter (λ d, d ≠ inst) (default [] (deps !! vol))]> deps
        else deps
    end.

(** hasPartial, hasUndeployable. *)
Definition hasPartial (ps : list PlannedResource) : bool :=
  existsb (λ p, plIncluded p && bool_decide (meStatus (plEntry p) = Partial)) ps.
Definition hasUndeployable (ps : list PlannedResource) : bool :=
  existsb (λ p, plIncluded p && negb (String.eqb (meKind (plEntry p)) "") && negb (plDeployable p)) ps.

(** The graph, the order and the verdict from the resources planned. *)
Definition included (ps : list PlannedResource) : list string := map plID (List.filter plIncluded ps).
Definition deps_of (t : Template) (ps : list PlannedResource) : gmap string (list string) :=
  foldl (attach t) (list_to_map (map (λ p, (plID p, plDeps p)) (List.filter plIncluded ps))) (tResources t).
Definition conclude (t : Template) (ps : list PlannedResource) (findings : list Finding) (checks : list string) (fidelity : bool)
    : option Plan :=
  let deps := deps_of t ps in
  let inc := included ps in
  ord ← order inc deps;
  let blockers := map BCheck checks ++ flat_map map_blockers ps ++ map BFinding findings ++
                  match ord with Err stuck => [BCycle stuck] | Ok _ => [] end in
  let verdict :=
    match blockers with
    | _ :: _ => Rejected
    | [] => if hasPartial ps || hasUndeployable ps || fidelity then ProvisionableWithCaveats else Provisionable
    end in
  Some (mkPlan verdict (match ord with Ok o => o | Err _ => [] end) ps blockers deps).

(** BuildPlan, from the resolver's first state; [checks] and [fidelity] are what the other checks found. *)
Definition BuildPlan (g : given) (fuel : nat) (checks : list string) (fidelity : bool) : option Plan :=
  '(_, s) ← evalConditions format_float int_of_float sha256hex parseIPv6 g fuel start;
  '(ps, s) ← each (plan_resource g fuel) (tResources (gTemplate g)) s;
  conclude (gTemplate g) ps (rsFindings s) checks fidelity.

(** ** What an accepted plan says *)

Lemma each_Some {A B} (f : A → M B) l s ys s' :
  each f l s = Some (ys, s') → Forall2 (λ x y, ∃ s1 s2, f x s1 = Some (y, s2)) l ys.
Proof.
  revert s ys. induction l as [|x l IH]; intros s ys; cbn [each]; [intros [= <- <-]; constructor|].
  intros H. unfold mbind, M_bind in H. destruct (f x s) as [[y s1]|] eqn:E; [|done]. cbn in H.
  destruct (each f l s1) as [[ys' s2]|] eqn:E2; [|done]. injection H as <- <-. constructor; [by eexists _, _|by eapply IH].
Qed.
Lemma plan_resource_id g fuel kv s p s' : plan_resource g fuel kv s = Some (p, s') → plID p = kv.1.
Proof.
  destruct kv as [id r]. unfold plan_resource. unfold mbind at 1, M_bind at 1, get. cbn [option_bind mbind].
  destruct (if String.eqb _ _ then _ else _).
  - unfold mbind, M_bind. destruct (resolveResource _ _ _ _ _ _ _ _ s) as [[d s1]|]; cbn; [|done]. by intros [= <- _].
  - by intros [= <- _].
Qed.

Lemma planned_ids g fuel s ps s' : each (plan_resource g fuel) (tResources (gTemplate g)) s = Some (ps, s') → map plID ps = rawOrder (gTemplate g).
Proof.
  intros H%each_Some. unfold rawOrder. induction H as [|kv p l ps (s1 & s2 & Hp) _ IH]; [done|].
  cbn. rewrite IH. f_equal. by eapply plan_resource_id.
Qed.
Lemma included_sublist ps : included ps `sublist_of` map plID ps.
Proof.
  unfold included. induction ps as [|p ps IH]; [done|]. cbn. destruct (plIncluded p); cbn; [by apply sublist_skip|by apply sublist_cons].
Qed.

(** A plan that is not rejected creates every included resource, each after everything it depends on:
    what its properties read, what it names in DependsOn, and the volumes attached to it; and nothing in it
    was found that the engine cannot honor. *)
Theorem plan_order (g : given) (fuel : nat) (checks : list string) (fidelity : bool) (pl : Plan) :
  NoDup (rawOrder (gTemplate g)) →
  BuildPlan g fuel checks fidelity = Some pl → pnVerdict pl ≠ Rejected →
  pnOrder pl ≡ₚ included (pnResources pl) ∧
  (∀ i x d, pnOrder pl !! i = Some x → needs (included (pnResources pl)) (pnDeps pl) x d → d ∈ take i (pnOrder pl)) ∧
  checks = [] ∧
  (∀ p, p ∈ pnResources pl → plIncluded p = true → mappable (plEntry p) = true ∧ plDeployable p = true).
Proof.
  intros Hnd H Hv. unfold BuildPlan in H. apply bind_Some in H as ([u s1] & _ & H).
  apply bind_Some in H as ([ps s2] & Hps & H). unfold conclude in H. apply bind_Some in H as (ord & Hord & [= <-]). cbn in *.
  assert (Hinc : NoDup (included ps)).
  { eapply sublist_NoDup; [|apply included_sublist]. by erewrite planned_ids. }
  pose proof (order_correct (included ps) (deps_of (gTemplate g) ps) Hinc) as Ho. rewrite Hord in Ho.
  destruct (map BCheck checks ++ _) as [|b bs] eqn:Eb; [|by destruct Hv].
  apply app_eq_nil in Eb as [Hc Eb]. apply app_eq_nil in Eb as [Hm Eb]. apply app_eq_nil in Eb as [_ Ec].
  destruct ord as [out|stuck]; [|done]. destruct Ho as (Hp & Hb & _). split_and!; [done|done|by destruct checks|].
  intros p Hin Hincl. assert (Hmb : map_blockers p = []).
  { destruct (map_blockers p) as [|x l] eqn:E; [done|]. exfalso. apply (not_elem_of_nil x). rewrite <- Hm.
    apply list_elem_of_In, in_flat_map. exists p. split; [by apply list_elem_of_In|]. rewrite E. by left. }
  unfold map_blockers in Hmb. rewrite Hincl in Hmb. cbn in Hmb. destruct (mappable (plEntry p)); [|done]. by destruct (plDeployable p).
Qed.

(** ** The dependencies of an accepted plan *)

Definition no_attachments (t : Template) : Prop := ∀ kv, kv ∈ tResources t → rType kv.2 ≠ "AWS::EC2::VolumeAttachment".

Lemma deps_of_plain t ps : no_attachments t → deps_of t ps = list_to_map (map (λ p, (plID p, plDeps p)) (List.filter plIncluded ps)).
Proof.
  unfold deps_of, no_attachments. generalize (list_to_map (M:=gmap string (list string)) (map (λ p, (plID p, plDeps p)) (List.filter plIncluded ps))).
  generalize (tResources t). intros l. induction l as [|[id r] l IH]; intros m Hno; [done|]. cbn [foldl].
  rewrite IH by (intros kv Hkv; apply Hno; by right). unfold attach. destruct (String.eqb_spec (rType r) "AWS::EC2::VolumeAttachment") as [E|E]; [|done].
  by destruct (Hno (id, r)); [left|].
Qed.

Lemma planned_elem ps p : NoDup (map plID ps) → p ∈ ps → plIncluded p = true →
  plID p ∈ included ps ∧ (list_to_map (map (λ p, (plID p, plDeps p)) (List.filter plIncluded ps)) : gmap string (list string)) !! plID p = Some (plDeps p).
Proof.
  intros Hnd Hp Hi. assert (Hf : p ∈ List.filter plIncluded ps).
  { apply list_elem_of_In, filter_In. split; [by apply list_elem_of_In|done]. }
  split; [by apply list_elem_of_fmap_2|]. apply elem_of_list_to_map_1.
  - assert (H : (map (λ p, (plID p, plDeps p)) (List.filter plIncluded ps)).*1 = included ps).
    { unfold included. generalize (List.filter plIncluded ps). intros l. by induction l as [|q l IH]; cbn; [|rewrite IH]. }
    rewrite H. eapply sublist_NoDup; [done|apply included_sublist].
  - by apply (list_elem_of_fmap_2 (λ p, (plID p, plDeps p))).
Qed.

Lemma plan_resource_deps g fuel id r s p s' :
  plan_resource g fuel (id, r) s = Some (p, s') → plIncluded p = true →
  ∃ reads s1, resolveResource format_float int_of_float sha256hex parseIPv6 g fuel id r s = Some (reads, s1) ∧ plDeps p = reads ++ rDependsOn r.
Proof.
  unfold plan_resource. unfold mbind at 1, M_bind at 1, get. cbn [option_bind mbind].
  destruct (if String.eqb _ _ then _ else _).
  - unfold mbind, M_bind. destruct (resolveResource _ _ _ _ _ _ _ _ s) as [[d s1]|]; cbn; [|done]. intros [= <- _] _. by exists d, s1.
  - by intros [= <- _].
Qed.

Lemma Forall2_elem_l {A B} (R : A → B → Prop) l k x : Forall2 R l k → x ∈ l → ∃ y, y ∈ k ∧ R x y.
Proof.
  intros H Hx. apply list_elem_of_lookup in Hx as [i Hi]. destruct (Forall2_lookup_l _ _ _ _ _ H Hi) as (y & Hy & HR).
  exists y. split; [by eapply list_elem_of_lookup_2|done].
Qed.


(** ** A plan is always built *)

(** Enough for every value of the template's own. *)
Definition plan_fuel (g : given) : nat :=
  (S (length (tConditions (gTemplate g)) + length (tResources (gTemplate g))) * bound (gTemplate g))%nat.

Lemma todo_le all busy : (todo all busy ≤ length all)%nat.
Proof. apply length_filter. Qed.
Lemma measure_le t s : (measure t s ≤ length (tConditions t) + length (tResources t))%nat.
Proof.
  unfold measure, cond_names, rawOrder. pose proof (todo_le (tConditions t).*1 (rsCondBusy s)) as H1.
  pose proof (todo_le (tResources t).*1 (rsCfResolving s)) as H2. rewrite length_fmap in H1. rewrite length_fmap in H2. lia.
Qed.
Lemma resource_size t kv : kv ∈ tResources t → (value_size (VMap (rProperties kv.2)) < bound t)%nat.
Proof.
  intros H. unfold bound. apply Nat.lt_succ_r.
  enough (value_size (VMap (rProperties kv.2)) ≤ sum_list_with (λ kv, value_size (VMap (rProperties kv.2))) (tResources t))%nat by lia.
  induction H as [l|y l x _ IH]; cbn [sum_list_with]; [lia|]. etrans; [exact IH|]. lia.
Qed.

Lemma each_total {A B} (f : A → M B) l s : (∀ x s, x ∈ l → is_Some (f x s)) → is_Some (each f l s).
Proof.
  revert s. induction l as [|x l IH]; intros s H; cbn [each]; [by eexists|].
  destruct (H x s) as [[y s1] E]; [by left|]. unfold mbind, M_bind. rewrite E. cbn.
  destruct (IH s1) as [[ys s2] E2]; [intros; apply H; by right|]. rewrite E2. by eexists.
Qed.

(** Planning ends: with fuel for every value the template holds, a plan is built, whatever the
    conditions and resources refer to. *)
Theorem plan_builds (g : given) (fuel : nat) (checks : list string) (fidelity : bool) :
  NoDup (rawOrder (gTemplate g)) → (plan_fuel g ≤ fuel)%nat → is_Some (BuildPlan g fuel checks fidelity).
Proof.
  intros Hnd Hf. unfold plan_fuel in Hf. unfold BuildPlan.
  assert (He : is_Some (evalConditions format_float int_of_float sha256hex parseIPv6 g fuel start)).
  { unfold evalConditions, mbind, M_bind. edestruct (each_total (condition g (resolve format_float int_of_float sha256hex parseIPv6 g fuel))) as [[u s1] E].
    - intros name s _. pose proof (measure_le (gTemplate g) s) as Hm.
      destruct (good_condition sha256hex parseIPv6 _ True_keeps g (True_given g) (gHooks g) _ _ fuel
        (λ v s Hv, good_resolve format_float int_of_float sha256hex parseIPv6 _ True_keeps g (True_given g) (gHooks g) fuel v s Hv) name s) as (b & s' & H & _); [nia|].
      by eexists.
    - rewrite E. by eexists. }
  destruct He as [[u s1] ->]. cbn [mbind option_bind].
  destruct (each_total (plan_resource g fuel) (tResources (gTemplate g)) s1) as [[ps s2] E].
  { intros [id r] s Hin. unfold plan_resource. unfold mbind at 1, M_bind at 1, get. cbn [option_bind mbind].
    destruct (if String.eqb _ _ then _ else _); [|by eexists]. unfold resolveResource, mbind, M_bind, modify. cbn [option_bind mbind].
    pose proof (resource_size _ _ Hin) as Hsz. cbn [snd] in Hsz.
    match goal with |- context [resolve _ _ _ _ g fuel ?v ?s0] =>
      pose proof (measure_le (gTemplate g) s0) as Hm;
      destruct (resolve_ends format_float int_of_float sha256hex parseIPv6 g v s0 fuel) as (a & s' & H & _); [unfold enough; nia|] end.
    rewrite H. by eexists. }
  rewrite E. cbn [mbind option_bind]. unfold conclude.
  assert (Hinc : NoDup (included ps)).
  { eapply sublist_NoDup; [|apply included_sublist]. by erewrite planned_ids. }
  pose proof (order_correct (included ps) (deps_of (gTemplate g) ps) Hinc) as Ho.
  destruct (order _ _) as [ord|]; [|done]. by eexists.
Qed.
End Plan.

(** ** At a concrete template *)

Definition demo_lookup (ty : string) : MapEntry := mkEntry "Kind" Supported.
#[local] Abbreviation build g := (BuildPlan (λ _, "") (λ _, 0) (λ _, "") (λ _, None) demo_lookup (λ _, true) g 300 [] false).
Definition demo_plan : option Plan := build (demo_given "dev" no_hooks).
Example demo_plan_order : pnOrder <$> demo_plan = Some ["Queue"; "Fn"].
Proof. vm_compute. reflexivity. Qed.
Example demo_plan_verdict : pnVerdict <$> demo_plan = Some Provisionable.
Proof. vm_compute. reflexivity. Qed.

Lemma demo_nodup : NoDup (rawOrder (gTemplate (demo_given "dev" no_hooks))).
Proof. apply (bool_decide_unpack _). vm_compute. exact I. Qed.

Lemma demo_plan_some : ∃ pl, demo_plan = Some pl ∧ pnVerdict pl ≠ Rejected ∧ "Fn" ∈ included (pnResources pl).
Proof.
  assert (H : (λ p, (bool_decide (pnVerdict p = Provisionable), bool_decide ("Fn" ∈ included (pnResources p)))) <$> demo_plan = Some (true, true)).
  { vm_compute. reflexivity. }
  apply fmap_Some in H as (pl & Hpl & [= Hv Hi]). exists pl. split; [exact Hpl|]. split.
  - symmetry in Hv. apply bool_decide_eq_true_1 in Hv. rewrite Hv. discriminate.
  - symmetry in Hi. by apply bool_decide_eq_true_1 in Hi.
Qed.

Lemma plan_order_witness :
  ∃ pl, demo_plan = Some pl ∧ pnOrder pl ≡ₚ included (pnResources pl).
Proof.
  destruct demo_plan_some as (pl & Hpl & Hv & _). exists pl. split; [exact Hpl|].
  apply (plan_order (λ _, "") (λ _, 0) (λ _, "") (λ _, None) demo_lookup (λ _, true) (demo_given "dev" no_hooks) 300 [] false pl demo_nodup Hpl Hv).
Defined.

Lemma plan_builds_witness : is_Some demo_plan.
Proof.
  apply (plan_builds (λ _, "") (λ _, 0) (λ _, "") (λ _, None) demo_lookup (λ _, true) (demo_given "dev" no_hooks) 300 [] false demo_nodup).
  apply Nat.leb_le. vm_compute. reflexivity.
Defined.

Definition demo_fn : Resource := mkResource "AWS::Lambda::Function" [("Url", fn_url)] [] "" "".
Lemma demo_no_attachments : no_attachments demo_template.
Proof.
  intros kv Hkv Ht. apply (list_elem_of_fmap_2 (λ kv, rType kv.2)) in Hkv. rewrite Ht in Hkv.
  apply (bool_decide_eq_true_2 _) in Hkv. vm_compute in Hkv. discriminate Hkv.
Qed.


(** A resource whose Condition is not defined is left out, and one that depends on nothing that exists is
    planned: the plan is provisionable all the same. *)
Definition misspelt : given :=
  mkGiven (mkTemplate [] [("IsProd", VBool true)]
    [("Table", mkResource "AWS::DynamoDB::Table" [] [] "IsPord" ""); ("Fn", mkResource "AWS::Lambda::Function" [] ["Tabel"] "" "")]) ∅ ∅ ∅ no_hooks.
Lemma undefined_names_silent :
  (λ p, (pnVerdict p, pnOrder p)) <$> build misspelt = Some (Provisionable, ["Fn"]).
Proof. vm_compute. reflexivity. Qed.
