(* ===== verification/AuditChain.v ===== *)
(** * The audit hash chain (internal/auditchain)

    Audit records leave the cluster in segments linked by hashes.  [BuildSegment] forges the next segment,
    [Push] is one step of the StreamVerifier, [Verify] walks segments in sequence order.  SHA-256 is a
    parameter; what is shown of an edited chain is relative to the texts the two chains hash, on which a
    collision would have to be found. *)

From stdpp Require Import sorting.
From S2P Require Import Prelude GoStrings.
#[local] Open Scope string_scope.
#[local] Open Scope Z_scope.
#[local] Open Scope list_scope.

Definition nl : string := String (ascii_of 10) "".

(** hex.EncodeToString. *)
Fixpoint EncodeToString (s : string) : string :=
  match s with
  | "" => ""
  | String c s => hexn 2 (byte_of c) +:+ EncodeToString s
  end.

Definition GenesisPrev : string := "".

Record Segment := mkSegment {
  Seq : Z;
  PrevHash : string;
  Count : Z;
  FirstTS : string;
  LastTS : string;
  RecordsHash : string;
  Hash : string;
  Records : list string;
  EndOffset : Z;
  SourceInode : Z }.

Record VerifyResult := mkResult {
  vOK : bool;
  vCount : Z;
  vBaseSeq : Z;
  vHeadSeq : Z;
  vHeadHash : string;
  vRecords : Z;
  vBrokenAt : option Z;
  vReason : string }.

(** The verifier: of the previous segment only Seq and Hash are kept. *)
Record StreamVerifier := mkVerifier {
  svRes : VerifyResult;
  svPrev : option (Z * string);
  svBroken : bool }.

Definition zero : StreamVerifier := mkVerifier (mkResult false 0 0 0 "" 0 None "") None false.

Definition NewStreamVerifierFrom (seq : Z) (hash : string) : StreamVerifier :=
  mkVerifier (mkResult false 0 seq seq hash 0 None "") (Some (seq, hash)) false.

Definition broke (seq : Z) (reason : string) (v : StreamVerifier) : StreamVerifier :=
  let r := svRes v in
  mkVerifier (mkResult false (vCount r) (vBaseSeq r) (vHeadSeq r) (vHeadHash r) (vRecords r) (Some seq) reason)
    (svPrev v) true.

Definition Result (v : StreamVerifier) : VerifyResult :=
  let r := svRes v in
  mkResult (vOK r || negb (svBroken v)) (vCount r) (vBaseSeq r) (vHeadSeq r) (vHeadHash r) (vRecords r)
    (vBrokenAt r) (vReason r).

(** Push's counters, its base, and the segment it keeps. *)
Definition counted (seg : Segment) (v : StreamVerifier) : StreamVerifier :=
  let r := svRes v in
  mkVerifier (mkResult (vOK r) (int64 (vCount r + 1)) (vBaseSeq r) (vHeadSeq r) (vHeadHash r)
    (int64 (vRecords r + Count seg)) (vBrokenAt r) (vReason r)) (svPrev v) (svBroken v).
Definition set_base (seq : Z) (v : StreamVerifier) : StreamVerifier :=
  let r := svRes v in
  mkVerifier (mkResult (vOK r) (vCount r) seq (vHeadSeq r) (vHeadHash r) (vRecords r) (vBrokenAt r) (vReason r))
    (svPrev v) (svBroken v).
Definition accept (seg : Segment) (v : StreamVerifier) : StreamVerifier :=
  let r := svRes v in
  mkVerifier (mkResult (vOK r) (vCount r) (vBaseSeq r) (Seq seg) (Hash seg) (vRecords r) (vBrokenAt r) (vReason r))
    (Some (Seq seg, Hash seg)) (svBroken v).

(** sort.Slice by Seq. *)
Definition by_seq (s t : Segment) : Prop := Seq s ≤ Seq t.
#[global] Instance by_seq_dec : RelDecision by_seq.
Proof. intros s t. unfold by_seq. apply _. Defined.
#[global] Instance by_seq_total : Total by_seq.
Proof. intros s t. unfold by_seq. lia. Qed.
#[global] Instance by_seq_trans : Transitive by_seq.
Proof. intros s t u. unfold by_seq. lia. Qed.
Definition sorted_segs (segs : list Segment) : list Segment := merge_sort by_seq segs.

Section Chain.
(** sha256.Sum256, as the 32 bytes of the digest. *)
Context (sha256 : string → string).

Definition digests (records : list string) : string := String.concat "" (map sha256 records).
Definition HashRecords (records : list string) : string := EncodeToString (sha256 (digests records)).

Definition field (label value : string) : string := label +:+ ":" +:+ value +:+ nl.
Definition preimage (seq : Z) (prevHash : string) (count : Z) (firstTS lastTS recordsHash : string) : string :=
  field "seq" (FormatInt seq) +:+ field "prev" prevHash +:+ field "count" (FormatInt count) +:+
  field "first" firstTS +:+ field "last" lastTS +:+ field "records" recordsHash.
Definition segmentHash (seq : Z) (prevHash : string) (count : Z) (firstTS lastTS recordsHash : string) : string :=
  EncodeToString (sha256 (preimage seq prevHash count firstTS lastTS recordsHash)).

Definition BuildSegment (prev : option Segment) (records : list string) (firstTS lastTS : string) : Segment :=
  let seq := match prev with Some p => int64 (Seq p + 1) | None => 0 end in
  let prevHash := match prev with Some p => Hash p | None => GenesisPrev end in
  let rh := HashRecords records in
  mkSegment seq prevHash (len records) firstTS lastTS rh
    (segmentHash seq prevHash (len records) firstTS lastTS rh) records 0 0.

Definition gap_reason (want got : Z) : string :=
  "gap in sequence: expected " +:+ FormatInt want +:+ ", got " +:+ FormatInt got +:+ " (a segment is missing)".

Definition Push (v : StreamVerifier) (seg : Segment) : StreamVerifier :=
  if svBroken v then v
  else
    let v := counted seg v in
    if negb (HashRecords (Records seg) =? RecordsHash seg)%string then
      broke (Seq seg) "records do not match recordsHash (a record was altered)" v
    else if negb (Count seg =? len (Records seg)) then
      broke (Seq seg) "count does not match the number of records" v
    else if negb (segmentHash (Seq seg) (PrevHash seg) (Count seg) (FirstTS seg) (LastTS seg) (RecordsHash seg)
                  =? Hash seg)%string then
      broke (Seq seg) "segment hash does not match its contents (a field was altered)" v
    else
      match svPrev v with
      | None =>
          let v := set_base (Seq seg) v in
          if (Seq seg =? 0) && negb (PrevHash seg =? GenesisPrev)%string then
            broke (Seq seg) "first segment does not link to genesis" v
          else accept seg v
      | Some (pseq, phash) =>
          if negb (Seq seg =? int64 (pseq + 1)) then broke (Seq seg) (gap_reason (int64 (pseq + 1)) (Seq seg)) v
          else if negb (PrevHash seg =? phash)%string then
            broke (Seq seg) "prevHash does not match the prior segment (chain reordered or substituted)" v
          else accept seg v
      end.

Definition Verify (segs : list Segment) : VerifyResult := Result (foldl Push zero (sorted_segs segs)).

(** ** What a verified chain is *)

(** A segment whose hashes are of its contents. *)
Definition sealed (s : Segment) : Prop :=
  RecordsHash s = HashRecords (Records s) ∧ Count s = len (Records s) ∧
  Hash s = segmentHash (Seq s) (PrevHash s) (Count s) (FirstTS s) (LastTS s) (RecordsHash s).

(** A segment that follows the one before it; the earliest present one links to genesis if it is
    segment 0. *)
Definition linked (prev : option (Z * string)) (s : Segment) : Prop :=
  match prev with
  | None => Seq s = 0 → PrevHash s = GenesisPrev
  | Some (q, h) => Seq s = int64 (q + 1) ∧ PrevHash s = h
  end.

Definition link_of (s : Segment) : Z * string := (Seq s, Hash s).

Fixpoint chain (prev : option (Z * string)) (l : list Segment) : Prop :=
  match l with
  | [] => True
  | s :: l => sealed s ∧ linked prev s ∧ chain (Some (link_of s)) l
  end.

Lemma chain_app prev l k :
  chain prev (l ++ k) ↔ chain prev l ∧ chain (match last l with Some s => Some (link_of s) | None => prev end) k.
Proof.
  revert prev. induction l as [|s l IH]; intros prev; [cbn; tauto|].
  cbn [chain app]. rewrite IH. rewrite last_cons. destruct (last l); cbn; tauto.
Qed.

Lemma Push_broken v s : svBroken v = true → Push v s = v.
Proof. intros H. unfold Push. by rewrite H. Qed.
Lemma Push_all_broken v l : svBroken v = true → foldl Push v l = v.
Proof. intros H. induction l as [|s l IH]; [done|]. cbn. by rewrite Push_broken. Qed.

(** One step: accepted exactly when the segment is sealed and linked. *)
Definition accepts (v : StreamVerifier) (s : Segment) : StreamVerifier :=
  accept s (match svPrev v with None => set_base (Seq s) (counted s v) | Some _ => counted s v end).

Lemma Push_spec v s :
  svBroken v = false →
  (sealed s ∧ linked (svPrev v) s ∧ Push v s = accepts v s) ∨
  (¬ (sealed s ∧ linked (svPrev v) s) ∧ svBroken (Push v s) = true ∧ vOK (svRes (Push v s)) = false ∧
   vBrokenAt (svRes (Push v s)) = Some (Seq s)).
Proof.
  intros Hv. unfold Push, sealed, accepts. rewrite Hv.
  destruct (HashRecords (Records s) =? RecordsHash s)%string eqn:E1; cbn [negb];
    [apply String.eqb_eq in E1|apply String.eqb_neq in E1; right; split; [naive_solver|done]].
  destruct (Count s =? len (Records s)) eqn:E2; cbn [negb];
    [apply Z.eqb_eq in E2|apply Z.eqb_neq in E2; right; split; [naive_solver|done]].
  destruct (_ =? Hash s)%string eqn:E3; cbn [negb];
    [apply String.eqb_eq in E3|apply String.eqb_neq in E3; right; split; [naive_solver|done]].
  cbn [svPrev counted]. destruct (svPrev v) as [[q h]|]; cbn [linked].
  - destruct (Seq s =? int64 (q + 1)) eqn:E4; cbn [negb];
      [apply Z.eqb_eq in E4|apply Z.eqb_neq in E4; right; split; [naive_solver|done]].
    destruct (PrevHash s =? h)%string eqn:E5; cbn [negb];
      [apply String.eqb_eq in E5|apply String.eqb_neq in E5; right; split; [naive_solver|done]].
    left. naive_solver.
  - destruct ((Seq s =? 0) && negb (PrevHash s =? GenesisPrev)%string) eqn:E4.
    + bool_to_prop. right. split; [naive_solver|done].
    + left. split; [naive_solver|]. split; [|done]. intros H0. apply Z.eqb_eq in H0. rewrite H0 in E4.
      cbn [andb] in E4. bool_to_prop. done.
Qed.

(** What a run of pushes leaves behind. *)
Lemma pushes_spec v l :
  svBroken v = false → vOK (svRes v) = false →
  let w := foldl Push v l in
  (svBroken w = false ↔ chain (svPrev v) l) ∧ vOK (svRes w) = false ∧
  (chain (svPrev v) l →
   svPrev w = match last l with Some s => Some (link_of s) | None => svPrev v end ∧
   vHeadSeq (svRes w) = match last l with Some s => Seq s | None => vHeadSeq (svRes v) end ∧
   vHeadHash (svRes w) = match last l with Some s => Hash s | None => vHeadHash (svRes v) end ∧
   vBaseSeq (svRes w) = match svPrev v, l with None, s :: _ => Seq s | _, _ => vBaseSeq (svRes v) end).
Proof.
  revert v. induction l as [|s l IH]; intros v Hv Hok; cbn zeta.
  - cbn. rewrite Hv. destruct (svPrev v); naive_solver.
  - cbn [foldl]. destruct (Push_spec v s Hv) as [(Hs & Hl & Heq)|(Hno & Hb & Hk & _)].
    + rewrite Heq. specialize (IH (accepts v s)).
      assert (Hb : svBroken (accepts v s) = false) by (unfold accepts; destruct (svPrev v); done).
      assert (Hk : vOK (svRes (accepts v s)) = false) by (unfold accepts; destruct (svPrev v); done).
      assert (Hp : svPrev (accepts v s) = Some (link_of s)) by done.
      destruct (IH Hb Hk) as (IH1 & IH2 & IH3). rewrite Hp in IH1, IH3.
      split; [cbn [chain]; naive_solver|]. split; [done|]. cbn [chain]. intros (_ & _ & Hc).
      destruct (IH3 Hc) as (? & ? & ? & H4). rewrite last_cons.
      destruct (last l); (split; [done|]); (split; [done|]); (split; [done|]); rewrite H4; unfold accepts;
        by destruct (svPrev v).
    + rewrite Push_all_broken by done. split; [|split; [done|cbn [chain]; tauto]].
      rewrite Hb. cbn [chain]. split; [done|tauto].
Qed.

Lemma Result_OK v : vOK (svRes v) = false → vOK (Result v) = negb (svBroken v).
Proof. unfold Result. cbn. by intros ->. Qed.

(** The verdict, and the head an intact chain reports. *)
Lemma Verify_chain segs :
  (vOK (Verify segs) = true ↔ chain None (sorted_segs segs)) ∧
  (vOK (Verify segs) = true →
   vHeadSeq (Verify segs) = match last (sorted_segs segs) with Some s => Seq s | None => 0 end ∧
   vHeadHash (Verify segs) = match last (sorted_segs segs) with Some s => Hash s | None => "" end ∧
   vBaseSeq (Verify segs) = match sorted_segs segs with s :: _ => Seq s | [] => 0 end).
Proof.
  unfold Verify. destruct (pushes_spec zero (sorted_segs segs) eq_refl eq_refl) as (H1 & H2 & H3).
  unfold sorted_segs in *. rewrite Result_OK by done. cbn [svPrev zero] in *. rewrite negb_true_iff.
  split; [done|]. intros Hb. apply H1 in Hb. destruct (H3 Hb) as (_ & ? & ? & H4). done.
Qed.

(** ** The texts that are hashed *)

(** The two texts a segment's hashes are of, and those of its records. *)
Definition hashed (segs : list Segment) : list string :=
  flat_map (λ s, preimage (Seq s) (PrevHash s) (Count s) (FirstTS s) (LastTS s) (RecordsHash s)
                 :: digests (Records s) :: Records s) segs.

(** No two different texts of the list have the same digest. *)
Definition collision_free (l : list string) : Prop := ∀ a b, a ∈ l → b ∈ l → sha256 a = sha256 b → a = b.

Lemma hex_byte c :
  ∃ x y, hexn 2 (byte_of c) = String x (String y "") ∧ Ascii.eqb (ascii_of 10) x = false ∧ Ascii.eqb (ascii_of 10) y = false.
Proof. destruct c as [[] [] [] [] [] [] [] []]; vm_compute; eauto. Qed.

Definition nibble (c : ascii) : Z := let b := byte_of c in if b <? 58 then b - 48 else b - 87.
Definition unhex_byte (s : string) : ascii :=
  match s with String x (String y _) => ascii_of (nibble x * 16 + nibble y) | _ => ascii_of 0 end.
Lemma unhex_hex_byte c rest : unhex_byte (hexn 2 (byte_of c) +:+ rest) = c.
Proof. destruct c as [[] [] [] [] [] [] [] []]; vm_compute; reflexivity. Qed.

Lemma EncodeToString_length s : String.length (EncodeToString s) = (2 * String.length s)%nat.
Proof.
  induction s as [|c s IH]; [done|]. cbn [EncodeToString]. destruct (hex_byte c) as (x & y & -> & _).
  cbn. rewrite IH. lia.
Qed.

Lemma EncodeToString_inj s t : EncodeToString s = EncodeToString t → s = t.
Proof.
  revert t. induction s as [|c s IH]; intros [|d t] Heq; cbn [EncodeToString] in Heq.
  - done.
  - destruct (hex_byte d) as (x & y & Hd & _). by rewrite Hd in Heq.
  - destruct (hex_byte c) as (x & y & Hc & _). by rewrite Hc in Heq.
  - assert (Hcd : c = d) by (rewrite <- (unhex_hex_byte c (EncodeToString s)), Heq; apply unhex_hex_byte).
    subst d. f_equal. apply IH. by apply append_inj_l in Heq.
Qed.

Lemma EncodeToString_line s : contains_char (ascii_of 10) (EncodeToString s) = false.
Proof.
  induction s as [|c s IH]; [done|]. cbn [EncodeToString]. rewrite contains_char_append, IH.
  destruct (hex_byte c) as (x & y & -> & Hx & Hy). cbn [contains_char]. by rewrite Hx, Hy.
Qed.

Lemma FormatInt_line n : is_int64 n → contains_char (ascii_of 10) (FormatInt n) = false.
Proof.
  intros Hn. destruct (contains_char (ascii_of 10) (FormatInt n)) eqn:E; [|done]. exfalso.
  assert (Hf : ∀ fuel m, contains_char (ascii_of 10) (format_digits fuel m) = false).
  { induction fuel as [|fuel IH]; intros m; [done|]. cbn [format_digits]. rewrite contains_char_append.
    assert (Hd : contains_char (ascii_of 10) (String (ascii_of (48 + m mod 10)) "") = false).
    { pose proof (Z.mod_pos_bound m 10 ltac:(lia)) as Hb. remember (m mod 10) as d.
      assert (Hc : ∀ k, 0 ≤ k < 10 → contains_char (ascii_of 10) (String (ascii_of (48 + k)) "") = false).
      { intros k Hk. assert (k = 0 ∨ k = 1 ∨ k = 2 ∨ k = 3 ∨ k = 4 ∨ k = 5 ∨ k = 6 ∨ k = 7 ∨ k = 8 ∨ k = 9) as Hk' by lia.
        naive_solver. }
      by apply Hc. }
    rewrite Hd, orb_false_r. by destruct (m <? 10). }
  unfold FormatInt in E. destruct (n <? 0); [|by rewrite Hf in E].
  cbn [contains_char] in E. by rewrite Hf in E.
Qed.

Lemma FormatInt_inj n m : is_int64 n → is_int64 m → FormatInt n = FormatInt m → n = m.
Proof.
  intros Hn Hm Heq. apply (f_equal ParseInt) in Heq. rewrite !ParseInt_FormatInt in Heq by done. by simplify_eq.
Qed.

(** Reading one labelled line off a text. *)
Lemma field_cut label x y r r' :
  contains_char (ascii_of 10) x = false → contains_char (ascii_of 10) y = false →
  field label x +:+ r = field label y +:+ r' → x = y ∧ r = r'.
Proof.
  intros Hx Hy Heq. unfold field in Heq. rewrite !append_assoc in Heq. apply append_inj_l, append_inj_l in Heq.
  assert (Hcut : Cut (x +:+ nl +:+ r) nl = Cut (y +:+ nl +:+ r') nl) by by rewrite Heq.
  unfold nl in Hcut. rewrite !Cut_app_first in Hcut by done. by simplify_eq.
Qed.

Lemma append_inj_len (a b x y : string) :
  a +:+ x = b +:+ y → String.length x = String.length y → a = b ∧ x = y.
Proof.
  intros Heq Hl. assert (Hab : String.length a = String.length b).
  { apply (f_equal String.length) in Heq. rewrite !length_append in Heq. lia. }
  destruct (append_split a x b y Heq) as (t & -> & ->); [lia|].
  rewrite length_append in Hab. assert (t = "") as -> by (destruct t; cbn in Hab; [done|lia]).
  by rewrite append_nil_r.
Qed.

(** A digest is 32 bytes. *)
Hypothesis sha256_length : ∀ s, String.length (sha256 s) = 32%nat.

Lemma digests_inj rs rs' : digests rs = digests rs' → map sha256 rs = map sha256 rs'.
Proof.
  assert (Hc : ∀ r l, digests (r :: l) = sha256 r +:+ digests l).
  { intros r [|r' l]; [|done]. cbn. by rewrite append_nil_r. }
  revert rs'. induction rs as [|r rs IH]; intros [|r' rs'] Heq; [done|..].
  - rewrite Hc in Heq. apply (f_equal String.length) in Heq. rewrite length_append, sha256_length in Heq. done.
  - rewrite Hc in Heq. apply (f_equal String.length) in Heq. rewrite length_append, sha256_length in Heq. done.
  - rewrite !Hc in Heq. destruct (append_split _ _ _ _ Heq) as (t & Ht & Hr); [by rewrite !sha256_length|].
    assert (t = "") as ->.
    { apply (f_equal String.length) in Ht. rewrite length_append, !sha256_length in Ht. destruct t; [done|cbn in Ht; lia]. }
    rewrite append_nil_r in Ht. cbn in Hr. cbn [map]. rewrite Ht. f_equal. by apply IH.
Qed.

(** What one hash fixes of two segments: their lines are told apart where the previous hash, and the first
    timestamp, are of one line. *)
Definition one_line (x : string) : Prop := contains_char (ascii_of 10) x = false.
Definition lines_agree (s t : Segment) : Prop :=
  one_line (PrevHash s) → one_line (PrevHash t) →
  PrevHash s = PrevHash t ∧ (one_line (FirstTS s) → one_line (FirstTS t) → FirstTS s = FirstTS t ∧ LastTS s = LastTS t).
Definition same_evidence (s t : Segment) : Prop :=
  Seq s = Seq t ∧ Count s = Count t ∧ Records s = Records t ∧ RecordsHash s = RecordsHash t ∧ Hash s = Hash t ∧
  lines_agree s t.

Lemma collision_free_map l rs rs' :
  collision_free l → rs ⊆ l → rs' ⊆ l → map sha256 rs = map sha256 rs' → rs = rs'.
Proof.
  intros Hf. revert rs'. induction rs as [|r rs IH]; intros [|r' rs'] H1 H2 Heq; try done.
  cbn in Heq. simplify_eq. f_equal; [|apply IH; set_solver]. apply Hf; set_solver.
Qed.

Lemma preimage_spec s t :
  is_int64 (Seq s) → is_int64 (Seq t) → is_int64 (Count s) → is_int64 (Count t) →
  String.length (RecordsHash s) = String.length (RecordsHash t) →
  preimage (Seq s) (PrevHash s) (Count s) (FirstTS s) (LastTS s) (RecordsHash s) =
  preimage (Seq t) (PrevHash t) (Count t) (FirstTS t) (LastTS t) (RecordsHash t) →
  Seq s = Seq t ∧ RecordsHash s = RecordsHash t ∧ lines_agree s t.
Proof.
  unfold preimage. intros Hs Ht Hcs Hct Hlen Heq.
  apply field_cut in Heq as [Hseq Heq]; [|by apply FormatInt_line..]. split; [by apply FormatInt_inj|].
  assert (Hlast : field "prev" (PrevHash s) +:+ field "count" (FormatInt (Count s)) +:+ field "first" (FirstTS s) +:+ field "last" (LastTS s) =
                  field "prev" (PrevHash t) +:+ field "count" (FormatInt (Count t)) +:+ field "first" (FirstTS t) +:+ field "last" (LastTS t)
                  ∧ field "records" (RecordsHash s) = field "records" (RecordsHash t)).
  { apply append_inj_len; [by rewrite !append_assoc|]. unfold field. rewrite !length_append. lia. }
  destruct Hlast as [Hrest Hrec]. split.
  { unfold field in Hrec. do 2 apply append_inj_l in Hrec. by apply append_inj_r in Hrec. }
  intros Hp1 Hp2. apply field_cut in Hrest as [Hp Hrest]; [|done..]. split; [done|]. intros Hf1 Hf2.
  apply field_cut in Hrest as [_ Hrest]; [|by apply FormatInt_line..].
  apply field_cut in Hrest as [Hf Hrest]; [|done..]. unfold field in Hrest. do 2 apply append_inj_l in Hrest.
  by apply append_inj_r in Hrest.
Qed.

Lemma sealed_count s : sealed s → len (Records s) < 2 ^ 63 → is_int64 (Count s).
Proof. intros (_ & -> & _) H. unfold is_int64. pose proof (len_nonneg (Records s)). lia. Qed.

(** A segment as a Go value: its integers are ints, and its records a slice. *)
Definition fits (s : Segment) : Prop := is_int64 (Seq s) ∧ len (Records s) < 2 ^ 63.

Lemma hash_determines l s t :
  collision_free l → hashed [s] ⊆ l → hashed [t] ⊆ l → fits s → fits t → sealed s → sealed t → Hash s = Hash t →
  same_evidence s t.
Proof.
  intros Hf Hs Ht [Hi Hn] [Hi' Hn'] Hse Hte Heq. pose proof (sealed_count s Hse Hn) as Hc. pose proof (sealed_count t Hte Hn') as Hc'.
  destruct Hse as (Hr & Hcount & Hh). destruct Hte as (Hr' & Hcount' & Hh'). cbn [hashed flat_map] in Hs, Ht.
  rewrite app_nil_r in Hs, Ht. pose proof Heq as Heq0. rewrite Hh, Hh' in Heq. unfold segmentHash in Heq. apply EncodeToString_inj in Heq.
  apply Hf in Heq; [|apply Hs, list_elem_of_here|apply Ht, list_elem_of_here].
  apply preimage_spec in Heq as (Hseq & Hrh & Hlines); try done;
    [|rewrite Hr, Hr'; unfold HashRecords; by rewrite !EncodeToString_length, !sha256_length].
  assert (Hrec : Records s = Records t).
  { rewrite Hr, Hr' in Hrh. unfold HashRecords in Hrh. apply EncodeToString_inj in Hrh.
    apply Hf in Hrh; [|apply Hs; set_solver|apply Ht; set_solver]. apply digests_inj in Hrh.
    apply (collision_free_map l); [done|set_solver..|done]. }
  split; [done|]. split; [by rewrite Hcount, Hcount', Hrec|]. done.
Qed.

(** ** Chains with one head *)

Lemma chain_step q h s l : chain (Some (q, h)) (s :: l) → is_int64 q → fits s → q ≤ Seq s → Seq s = q + 1.
Proof.
  intros (_ & [Hs _] & _) Hq [Hf _] Hle. unfold is_int64 in *. destruct (decide (q = 2 ^ 63 - 1)) as [->|Hn].
  - rewrite Hs in Hle. vm_compute in Hle. done.
  - rewrite Hs. apply int64_id. unfold is_int64. lia.
Qed.

Lemma chain_last_seq l s t q h :
  chain (Some (q, h)) l → StronglySorted by_seq (s :: l) → link_of s = (q, h) → Forall fits (s :: l) → last (s :: l) = Some t →
  Seq t = q + Z.of_nat (length l).
Proof.
  revert s q h. induction l as [|s' l IH]; intros s q h Hc Hs Hl Hf Ht.
  - cbn in Ht. injection Ht as <-. injection Hl as <- <-. cbn. lia.
  - injection Hl as <- <-. inversion Hs as [|? ? Hs' Hall]; subst. inversion Hf as [|? ? Hf1 Hf2]; subst.
    inversion Hf2 as [|? ? Hf3 _]; subst. inversion Hall as [|? ? Hle _]; subst.
    pose proof (chain_step _ _ _ _ Hc (proj1 Hf1) Hf3 Hle) as Hstep. destruct Hc as (_ & _ & Hc).
    rewrite (IH s' (Seq s') (Hash s')); [cbn [length]; lia|done..].
Qed.

Lemma chain_linked_snoc k s : chain None (k ++ [s]) → chain None k ∧ sealed s ∧
  (∀ p, last k = Some p → PrevHash s = Hash p).
Proof.
  rewrite chain_app. intros [Hk Hs]. split; [done|]. cbn [chain] in Hs. destruct Hs as (Hs & Hl & _). split; [done|].
  intros p Hp. rewrite Hp in Hl. by destruct Hl as [_ ?].
Qed.

Lemma sealed_hash_line s : sealed s → one_line (Hash s).
Proof. intros (_ & _ & ->). apply EncodeToString_line. Qed.

Lemma chain_sealed prev l : chain prev l → Forall sealed l.
Proof. revert prev. induction l as [|s l IH]; intros prev; [constructor|]. intros (Hs & _ & Hc). constructor; eauto. Qed.

Lemma chains_agree c l l' :
  collision_free c → hashed l ⊆ c → hashed l' ⊆ c → length l = length l' → Forall fits l → Forall fits l' →
  chain None l → chain None l' → Hash <$> last l = Hash <$> last l' → Forall2 same_evidence l l'.
Proof.
  intros Hc. revert l'. induction l as [|s k IH] using rev_ind; intros l' H1 H2 Hlen Hf Hf' Hch Hch' Hlast.
  - destruct l'; [constructor|done].
  - destruct l' as [|t k' _] using rev_ind; [rewrite length_app in Hlen; cbn in Hlen; lia|].
    rewrite !length_app in Hlen. cbn in Hlen. rewrite !last_snoc in Hlast. cbn in Hlast. injection Hlast as Hlast.
    unfold hashed in H1, H2. rewrite flat_map_app in H1, H2. fold (hashed k) (hashed k') (hashed [s]) (hashed [t]) in H1, H2.
    apply Forall_app in Hf as [Hf [Hfs _]%Forall_cons_1]. apply Forall_app in Hf' as [Hf' [Hft _]%Forall_cons_1].
    apply chain_linked_snoc in Hch as (Hk & Hs & Hp). apply chain_linked_snoc in Hch' as (Hk' & Ht & Hp').
    assert (Hse : same_evidence s t) by (apply (hash_determines c); [done|set_solver|set_solver|done..]).
    apply Forall2_app; [|by constructor]. apply IH; [set_solver|set_solver|lia|done|done|done|done|].
    destruct k as [|p k _] using rev_ind; [destruct k'; [done|cbn in Hlen; lia]|].
    destruct k' as [|p' k' _] using rev_ind; [rewrite length_app in Hlen; cbn in Hlen; lia|].
    rewrite !last_snoc in *. cbn. f_equal. rewrite <- (Hp p), <- (Hp' p') by done.
    apply chain_sealed, Forall_app in Hk as [_ [Hp1 _]%Forall_cons_1].
    apply chain_sealed, Forall_app in Hk' as [_ [Hp2 _]%Forall_cons_1].
    destruct Hse as (_ & _ & _ & _ & _ & Hla). apply Hla; rewrite ?(Hp p), ?(Hp' p') by done; by apply sealed_hash_line.
Qed.

Lemma sorted_segs_sorted segs : StronglySorted by_seq (sorted_segs segs).
Proof. unfold sorted_segs. apply StronglySorted_merge_sort; apply _. Qed.
Lemma sorted_segs_Permutation segs : sorted_segs segs ≡ₚ segs.
Proof. apply merge_sort_Permutation. Qed.

Lemma hashed_Permutation l l' : l ≡ₚ l' → hashed l ≡ₚ hashed l'.
Proof. intros H. unfold hashed. by rewrite H. Qed.

Lemma hashed_elem x m : x ∈ m → hashed [x] ⊆ hashed m.
Proof. intros (a & b & ->)%list_elem_of_split. unfold hashed. rewrite flat_map_app. cbn [flat_map]. set_solver. Qed.

Lemma last_sealed prev l s : chain prev l → last l = Some s → sealed s.
Proof. intros Hc Hs. apply (Forall_forall sealed l); [by eapply chain_sealed|by apply last_Some_elem_of]. Qed.

Lemma sealed_hash_length s : sealed s → String.length (Hash s) = 64%nat.
Proof. intros (_ & _ & ->). unfold segmentHash. by rewrite EncodeToString_length, sha256_length. Qed.

(** Chains with one head and one earliest sequence number are as long. *)
Lemma one_head_length c l l' :
  collision_free c → hashed l ⊆ c → hashed l' ⊆ c → Forall fits l → Forall fits l' → chain None l → chain None l' →
  StronglySorted by_seq l → StronglySorted by_seq l' → Hash <$> last l = Hash <$> last l' →
  Seq <$> head l = Seq <$> head l' → length l = length l'.
Proof.
  intros Hc H1 H2 Hf Hf' Hch Hch' Hs Hs' Hlast Hhead.
  destruct l as [|s k], l' as [|t k']; [done..|]. cbn in Hhead. injection Hhead as Hhead.
  destruct (last (s :: k)) as [u|] eqn:Eu; [|rewrite last_cons in Eu; by destruct (last k)].
  destruct (last (t :: k')) as [w|] eqn:Ew; [|rewrite last_cons in Ew; by destruct (last k')].
  pose proof (chain_last_seq _ _ _ _ _ (proj2 (proj2 Hch)) Hs eq_refl Hf Eu) as E1.
  pose proof (chain_last_seq _ _ _ _ _ (proj2 (proj2 Hch')) Hs' eq_refl Hf' Ew) as E2.
  cbn in Hlast. injection Hlast as Hlast. rewrite Forall_forall in Hf, Hf'.
  assert (Hu : same_evidence u w).
  { pose proof (last_Some_elem_of _ _ Eu). pose proof (last_Some_elem_of _ _ Ew).
    apply (hash_determines c); [done|etrans; [by apply hashed_elem|done]|etrans; [by apply hashed_elem|done]|auto|auto| | |done].
    - by apply (last_sealed _ _ _ Hch). - by apply (last_sealed _ _ _ Hch'). }
  destruct Hu as [Hu _]. cbn [length]. lia.
Qed.

(** C7: two sets of segments that verify with the same head hash, back to the same earliest segment, hold
    the same evidence segment by segment, records included, unless a SHA-256 collision occurs among the
    texts the two hash: an edit, a removal, a reordering or a substitution under an unchanged head is
    detected. *)
Theorem tamper_evident segs segs'
    (Hfits : Forall fits segs) (Hfits' : Forall fits segs')
    (Hok : vOK (Verify segs) = true) (Hok' : vOK (Verify segs') = true)
    (Hhead : vHeadHash (Verify segs) = vHeadHash (Verify segs'))
    (Hbase : vBaseSeq (Verify segs) = vBaseSeq (Verify segs'))
    (Hfree : collision_free (hashed segs ++ hashed segs')) :
  Forall2 same_evidence (sorted_segs segs) (sorted_segs segs').
Proof.
  destruct (Verify_chain segs) as [Hc Hd]. destruct (Verify_chain segs') as [Hc' Hd'].
  destruct (Hd Hok) as (_ & Hh & Hb). destruct (Hd' Hok') as (_ & Hh' & Hb'). apply Hc in Hok. apply Hc' in Hok'.
  rewrite Hh, Hh' in Hhead. rewrite Hb, Hb' in Hbase.
  pose proof (hashed_Permutation _ _ (sorted_segs_Permutation segs)) as Hp.
  pose proof (hashed_Permutation _ _ (sorted_segs_Permutation segs')) as Hp'.
  rewrite <- (sorted_segs_Permutation segs) in Hfits. rewrite <- (sorted_segs_Permutation segs') in Hfits'.
  pose proof (sorted_segs_sorted segs) as Hs. pose proof (sorted_segs_sorted segs') as Hs'.
  set (l := sorted_segs segs) in *. set (l' := sorted_segs segs') in *.
  assert (Hsub : hashed l ⊆ hashed segs ++ hashed segs') by (intros x; rewrite Hp; set_solver).
  assert (Hsub' : hashed l' ⊆ hashed segs ++ hashed segs') by (intros x; rewrite Hp'; set_solver).
  assert (Hends : Hash <$> last l = Hash <$> last l' ∧ Seq <$> head l = Seq <$> head l').
  { destruct (last l) as [s|] eqn:E; destruct (last l') as [t|] eqn:E'.
    - split; [cbn; by rewrite Hhead|]. destruct l, l'; [done..|]. cbn. by rewrite Hbase.
    - pose proof (sealed_hash_length s (last_sealed _ _ _ Hok E)) as Hl. by rewrite Hhead in Hl.
    - pose proof (sealed_hash_length t (last_sealed _ _ _ Hok' E')) as Hl. by rewrite <- Hhead in Hl.
    - apply last_None in E as ->. by apply last_None in E' as ->. }
  destruct Hends. eapply chains_agree; [..|done]; eauto. eapply one_head_length; eauto.
Qed.

(** ** What the shipper builds *)

(** The segments of successive batches: their records and their first and last timestamps. *)
Definition batch : Type := list string * string * string.
Fixpoint build (prev : option Segment) (batches : list batch) : list Segment :=
  match batches with
  | [] => []
  | (records, firstTS, lastTS) :: batches =>
      let s := BuildSegment prev records firstTS lastTS in s :: build (Some s) batches
  end.

Definition next_seq (prev : option Segment) : Z := match prev with Some p => int64 (Seq p + 1) | None => 0 end.

Lemma BuildSegment_linked prev rs f t : sealed (BuildSegment prev rs f t) ∧ linked (link_of <$> prev) (BuildSegment prev rs f t).
Proof. split; [done|]. by destruct prev. Qed.

Lemma build_links prev batches :
  0 ≤ next_seq prev → next_seq prev + len batches < 2 ^ 63 →
  chain (link_of <$> prev) (build prev batches) ∧ map Seq (build prev batches) = seqZ (next_seq prev) (len batches) ∧
  map Records (build prev batches) = map (λ b, b.1.1) batches.
Proof.
  revert prev. induction batches as [|[[rs f] t] batches IH]; intros prev H0 Hn; [done|].
  cbn [build map]. rewrite len_cons in *. set (s := BuildSegment prev rs f t).
  pose proof (len_nonneg batches) as Hl.
  assert (Hs : next_seq (Some s) = next_seq prev + 1).
  { cbn. change (Seq s) with (next_seq prev). apply int64_id. unfold is_int64. lia. }
  destruct (IH (Some s)) as (Hc & Hseq & Hr); [lia..|]. split; [|split].
  - destruct (BuildSegment_linked prev rs f t). by repeat split.
  - rewrite Hseq, Hs, (seqZ_cons (next_seq prev) (1 + len batches)) by lia. f_equal. f_equal; lia.
  - by rewrite Hr.
Qed.

(** A chain of distinct sequence numbers is the only order its segments sort to. *)
Lemma sorted_segs_unique segs l :
  segs ≡ₚ l → StronglySorted by_seq l → NoDup (map Seq l) → sorted_segs segs = l.
Proof.
  intros Hp Hs Hn. apply (StronglySorted_unique_strong by_seq); [|apply sorted_segs_sorted|done|by rewrite sorted_segs_Permutation].
  intros x y Hx Hy Hxy Hyx. rewrite sorted_segs_Permutation, Hp in Hx. assert (Heq : Seq x = Seq y) by (unfold by_seq in *; lia).
  apply list_elem_of_lookup in Hx as [i Hi]. apply list_elem_of_lookup in Hy as [j Hj].
  assert (i = j) as ->; [|by simplify_eq]. apply (NoDup_lookup (map Seq l) i j (Seq x)); [done|..].
  - rewrite list_lookup_fmap, Hi. done.
  - rewrite list_lookup_fmap, Hj. cbn. by rewrite Heq.
Qed.

Lemma seqZ_sorted l q n : map Seq l = seqZ q n → StronglySorted by_seq l.
Proof.
  revert q n. induction l as [|s l IH]; intros q n Heq; [constructor|].
  destruct (decide (0 < n)) as [Hn|Hn]; [|rewrite seqZ_nil in Heq by lia; done].
  rewrite seqZ_cons in Heq by done. injection Heq as Hq Heq. constructor; [by eapply IH|].
  apply Forall_forall. intros t Ht. assert (Hin : Seq t ∈ map Seq l) by by apply list_elem_of_fmap_2.
  rewrite Heq in Hin. apply elem_of_seqZ in Hin. unfold by_seq. lia.
Qed.

(** the segments the shipper builds of any batches verify, in whatever order they are listed: from
    segment 0 to the last, with the head the next segment links to, and with the records of the batches
    in order. *)
Theorem built_verifies batches segs (Hsegs : segs ≡ₚ build None batches) (Hlen : len batches < 2 ^ 63) :
  vOK (Verify segs) = true ∧ vBaseSeq (Verify segs) = 0 ∧
  vHeadSeq (Verify segs) = Z.max 0 (len batches - 1) ∧
  vHeadHash (Verify segs) = match last (build None batches) with Some s => Hash s | None => "" end ∧
  flat_map Records (sorted_segs segs) = flat_map (λ b, b.1.1) batches.
Proof.
  destruct (build_links None batches) as (Hc & Hseq & Hr); [done|cbn; lia|]. cbn [next_seq] in Hseq.
  assert (Hl : sorted_segs segs = build None batches).
  { apply sorted_segs_unique; [done|by eapply seqZ_sorted|]. rewrite Hseq. apply NoDup_seqZ. }
  destruct (Verify_chain segs) as [H1 H2]. rewrite Hl in *. cbn [fmap option_fmap option_map] in Hc.
  pose proof (proj2 H1 Hc) as Hok. destruct (H2 Hok) as (Hs & Hh & Hb). split; [done|].
  rewrite Hs, Hh, Hb. clear H1 H2 Hs Hh Hb Hok. rewrite !flat_map_concat_map, Hr. split; [|split; [|done]].
  - destruct (build None batches) as [|s l]; [done|]. destruct (decide (0 < len batches)); [|by rewrite seqZ_nil in Hseq by lia].
    rewrite seqZ_cons in Hseq by done. by injection Hseq.
  - destruct (last (build None batches)) as [s|] eqn:E.
    + apply (f_equal last) in Hseq. change (map Seq) with (fmap (M:=list) Seq) in Hseq. rewrite fmap_last, E in Hseq. cbn in Hseq.
      destruct (decide (0 < len batches)) as [Hp|]; [|by rewrite seqZ_nil in Hseq by lia].
      replace (len batches) with (Z.of_nat (S (Z.to_nat (len batches - 1)))) in Hseq by lia.
      rewrite seqZ_S, last_snoc in Hseq. injection Hseq as Hseq. lia.
    + apply last_None in E. rewrite E in Hseq. symmetry in Hseq. apply (f_equal length) in Hseq. rewrite length_seqZ in Hseq. cbn in Hseq. lia.
Qed.

(** ** Incremental verification *)

(** Two verifiers that decide alike from here on: they differ in what they counted and in their base. *)
Definition agree (v w : StreamVerifier) : Prop :=
  svPrev v = svPrev w ∧ svPrev v ≠ None ∧ svBroken v = svBroken w ∧ vOK (svRes v) = vOK (svRes w) ∧
  vHeadSeq (svRes v) = vHeadSeq (svRes w) ∧ vHeadHash (svRes v) = vHeadHash (svRes w) ∧
  vBrokenAt (svRes v) = vBrokenAt (svRes w) ∧ vReason (svRes v) = vReason (svRes w).

Lemma Push_agree v w s : agree v w → agree (Push v s) (Push w s).
Proof.
  intros H. pose proof H as (Hp & Hn & Hb & Ho & Hs & Hh & Ha & Hr). unfold Push. rewrite <- Hb.
  destruct (svBroken v) eqn:E; [done|]. clear H.
  destruct (svPrev v) as [[q h]|] eqn:Ep; [|done].
  cbn [svPrev counted]. rewrite Ep, <- Hp. repeat case_match; repeat split; cbn; congruence.
Qed.

Lemma pushes_agree v w l : agree v w → agree (foldl Push v l) (foldl Push w l).
Proof. revert v w. induction l as [|s l IH]; intros v w H; [done|]. cbn. apply IH. by apply Push_agree. Qed.

(** The verdict a caller reads. *)
Definition verdict (r : VerifyResult) : bool * Z * string * option Z * string :=
  (vOK r, vHeadSeq r, vHeadHash r, vBrokenAt r, vReason r).

(** verification that continues from the recorded head of a chain that verified gives the verdict, the
    head and the break of a full verification of the chain and what was added to it. *)
Theorem incremental_as_full l k
    (Hne : l ≠ []) (Hok : vOK (Result (foldl Push zero l)) = true) :
  let r := Result (foldl Push zero l) in
  verdict (Result (foldl Push (NewStreamVerifierFrom (vHeadSeq r) (vHeadHash r)) k)) =
  verdict (Result (foldl Push zero (l ++ k))).
Proof.
  cbn zeta. rewrite foldl_app. destruct (pushes_spec zero l eq_refl eq_refl) as (H1 & H2 & H3).
  rewrite Result_OK in Hok by done. apply negb_true_iff in Hok. pose proof (proj1 H1 Hok) as Hc.
  destruct (H3 Hc) as (Hp & Hs & Hh & _). set (v := foldl Push zero l) in *.
  assert (Hunbroken : vBrokenAt (svRes v) = None ∧ vReason (svRes v) = "").
  { assert (Hg : ∀ w, vBrokenAt (svRes w) = None ∧ vReason (svRes w) = "" → svBroken w = false →
       svBroken (foldl Push w l) = false → vBrokenAt (svRes (foldl Push w l)) = None ∧ vReason (svRes (foldl Push w l)) = "").
    { clear. induction l as [|s l IH]; intros w Hw Hb Hl; [done|]. cbn in *.
      destruct (Push_spec w s Hb) as [(_ & _ & Heq)|(_ & Hb' & _)].
      - rewrite Heq in *. apply IH; [|by unfold accepts; destruct (svPrev w)|done]. unfold accepts. destruct (svPrev w); done.
      - by rewrite Push_all_broken, Hb' in Hl. }
    apply Hg; done. }
  destruct Hunbroken as [Ha Hr]. destruct (last l) as [s|] eqn:E; [|by apply last_None in E].
  assert (Hagree : agree (NewStreamVerifierFrom (vHeadSeq (Result v)) (vHeadHash (Result v))) v).
  { unfold agree. cbn. by rewrite Hp, Hs, Hh, Hok, H2, Ha, Hr. }
  destruct (pushes_agree _ _ k Hagree) as (_ & _ & Hb & Ho & Hs' & Hh' & Ha' & Hr').
  set (w := foldl Push (NewStreamVerifierFrom _ _) k) in *.
  unfold verdict, Result. cbn. by rewrite Hb, Ho, Hs', Hh', Ha', Hr'.
Qed.

(** ** What verification does not see *)

Lemma chain_distinct m : chain None m → Forall fits m → StronglySorted by_seq m → NoDup (map Seq m).
Proof.
  destruct m as [|s m]; [constructor|]. intros (_ & _ & Hc) Hfm H1.
  enough (Hall : NoDup (map Seq (s :: m)) ∧ Forall (λ t, Seq s ≤ Seq t) (s :: m)) by by destruct Hall.
  revert s H1 Hfm Hc. induction m as [|t m IH]; intros s H1 Hfm Hc.
  { split; [apply NoDup_singleton|by repeat constructor]. }
  inversion H1 as [|? ? H2 H3]; subst. inversion Hfm as [|? ? F1 F2]; subst.
  inversion F2 as [|? ? F3 _]; subst. inversion H3 as [|? ? Hle _]; subst.
  pose proof (chain_step _ _ _ _ Hc (proj1 F1) F3 Hle) as Hst. destruct Hc as (_ & _ & Hc).
  destruct (IH t H2 F2 Hc) as [IH1 IH2]. split.
  - cbn [map]. constructor; [|done]. intros H. change (Seq s ∈ Seq <$> (t :: m)) in H.
    apply list_elem_of_fmap in H as (u & Hu & Hin). rewrite Forall_forall in IH2. specialize (IH2 u Hin). lia.
  - constructor; [done|]. eapply Forall_impl; [exact IH2|]. cbn. lia.
Qed.

(** Any sort by sequence number gives the same verdict: equal numbers fail in any order. *)
Lemma Verify_any_sort segs l :
  Forall fits segs → l ≡ₚ segs → StronglySorted by_seq l → vOK (Result (foldl Push zero l)) = vOK (Verify segs).
Proof.
  intros Hf Hp Hs. destruct (pushes_spec zero l eq_refl eq_refl) as (H1 & H2 & _). rewrite Result_OK by done.
  cbn [svPrev zero] in H1. pose proof (proj1 (Verify_chain segs)) as Hv. apply eq_bool_prop_intro.
  rewrite !Is_true_true, negb_true_iff, H1, Hv. pose proof (sorted_segs_Permutation segs) as Hp'.
  split; intros Hc.
  - rewrite (sorted_segs_unique segs l); [done..|]. apply chain_distinct; [done|by rewrite Hp|done].
  - rewrite <- (sorted_segs_unique segs l); [done..|]. rewrite Hp, <- Hp'.
    apply chain_distinct; [done|by rewrite Hp'|apply sorted_segs_sorted].
Qed.

(** A chain whose newest segments were deleted still verifies. *)
Lemma tail_deletion_verifies l k :
  vOK (Result (foldl Push zero (l ++ k))) = true → vOK (Result (foldl Push zero l)) = true.
Proof.
  destruct (pushes_spec zero (l ++ k) eq_refl eq_refl) as (H1 & H2 & _).
  destruct (pushes_spec zero l eq_refl eq_refl) as (H3 & H4 & _).
  rewrite !Result_OK, !negb_true_iff, H1, H3, chain_app by done. tauto.
Qed.

(** The labelled serialization does not keep the two timestamps apart: a line feed in one of them moves
    the boundary, and the hash is the same. *)
Lemma timestamps_ambiguous seq prev count rh :
  ∃ f l f' l', (f, l) ≠ (f', l') ∧ segmentHash seq prev count f l rh = segmentHash seq prev count f' l' rh.
Proof.
  exists "a", ("b" +:+ nl +:+ "last:c"), ("a" +:+ nl +:+ "last:b"), "c". split; [done|].
  unfold segmentHash.
  enough (Hp : preimage seq prev count "a" ("b" +:+ nl +:+ "last:c") rh = preimage seq prev count ("a" +:+ nl +:+ "last:b") "c" rh)
    by by rewrite Hp.
  unfold preimage, field. by rewrite !append_assoc.
Qed.

End Chain.

(** ** An instance *)

(** A digest of 32 bytes, for the examples. *)
Fixpoint poly (s : string) (h : Z) : Z :=
  match s with "" => h | String c s => poly s ((h * 131 + byte_of c + 7) mod (2 ^ 61 - 1)) end.
Definition toy (s : string) : string := hexn 32 (poly s 5381).

Lemma hexn_length n v : String.length (hexn n v) = n.
Proof. revert v. induction n as [|n IH]; intros v; [done|]. cbn [hexn]. rewrite length_append, IH. cbn. lia. Qed.
Lemma toy_length s : String.length (toy s) = 32%nat.
Proof. apply hexn_length. Qed.

Lemma collision_free_test sha l :
  forallb (λ a, forallb (λ b, implb (sha a =? sha b)%string (a =? b)%string) l) l = true → collision_free sha l.
Proof.
  intros H a b Ha Hb Heq. rewrite forallb_forall in H. specialize (H a). rewrite <- list_elem_of_In in H. specialize (H Ha).
  rewrite forallb_forall in H. specialize (H b). rewrite <- list_elem_of_In in H. specialize (H Hb).
  rewrite Heq, String.eqb_refl in H. by apply String.eqb_eq.
Qed.

Definition batches_ex : list batch :=
  [(["login alice"; "create pod"], "09:00", "09:05"); (["delete pod"], "09:06", "09:06"); (["logout"], "09:07", "09:07")].
Definition segs_ex : list Segment := build toy None batches_ex.

Lemma fits_ex : Forall fits segs_ex.
Proof.
  assert (H : forallb (λ s, (- 2 ^ 63 <=? Seq s) && (Seq s <? 2 ^ 63) && (len (Records s) <? 2 ^ 63)) segs_ex = true)
    by (vm_compute; reflexivity).
  apply Forall_forall. intros s Hs%list_elem_of_In. rewrite forallb_forall in H. specialize (H s Hs). bool_to_prop.
  unfold fits, is_int64. lia.
Qed.
Lemma free_ex : collision_free toy (hashed toy segs_ex ++ hashed toy (reverse segs_ex)).
Proof. apply collision_free_test. vm_compute. reflexivity. Qed.

Lemma tamper_evident_witness :
  Forall2 same_evidence (sorted_segs segs_ex) (sorted_segs (reverse segs_ex)).
Proof.
  apply (tamper_evident toy toy_length); [apply fits_ex|rewrite reverse_Permutation; apply fits_ex|vm_compute; reflexivity..|apply free_ex].
Defined.

Lemma built_verifies_witness :
  vOK (Verify toy (reverse segs_ex)) = true ∧ vBaseSeq (Verify toy (reverse segs_ex)) = 0 ∧
  vHeadSeq (Verify toy (reverse segs_ex)) = 2 ∧
  flat_map Records (sorted_segs (reverse segs_ex)) = ["login alice"; "create pod"; "delete pod"; "logout"].
Proof.
  destruct (built_verifies toy batches_ex (reverse segs_ex)) as (H1 & H2 & H3 & _ & H5);
    [apply reverse_Permutation|vm_compute; reflexivity|]. auto.
Defined.

Lemma incremental_as_full_witness :
  let l := take 2 segs_ex in let k := drop 2 segs_ex in
  let r := Result (foldl (Push toy) zero l) in
  verdict (Result (foldl (Push toy) (NewStreamVerifierFrom (vHeadSeq r) (vHeadHash r)) k)) =
  verdict (Result (foldl (Push toy) zero (l ++ k))).
Proof. apply (incremental_as_full toy); [discriminate|vm_compute; reflexivity]. Defined.

(** An edited record and a segment taken out of the middle are found; a missing front, a missing tail and
    an empty bucket are not. *)
Definition edited (s : Segment) : Segment :=
  mkSegment (Seq s) (PrevHash s) (Count s) (FirstTS s) (LastTS s) (RecordsHash s) (Hash s) ["nothing"] 0 0.
Example breaks_ex :
  map (λ l, (vOK (Verify toy l), vBrokenAt (Verify toy l)))
    [segs_ex; map edited segs_ex; take 1 segs_ex ++ drop 2 segs_ex; drop 1 segs_ex; take 2 segs_ex; []] =
  [(true, None); (false, Some 0); (false, Some 2); (true, None); (true, None); (true, None)].
Proof. vm_compute. reflexivity. Qed.
