(* ===== verification/AuditShip.v ===== *)
(** * Shipping the audit log (cmd/audit-offsite, ship)

    [shipRun] reads what the chain does not hold yet from the live log and its rotated backups, in bounded
    segments of complete lines, and hands each segment to the object store.  A run resumes from the newest
    segment in the bucket.  The second half follows the log and the bucket over any sequence of writes,
    rotations, removals of old backups, and runs that end anywhere. *)

From stdpp Require Import sorting.
From S2P Require Import Prelude GoStrings GoTime AuditChain.
#[local] Open Scope string_scope.
#[local] Open Scope Z_scope.
#[local] Open Scope list_scope.

Definition newline : ascii := ascii_of 10.

(** A log file held open.  [lSize] and [lMtime] are those of the moment it was opened. *)
Record logFile := mkLog {
  lName : string;
  lContent : string;
  lInode : Z;
  lSize : Z;
  lMtime : Z }.

(** One file a run reads, and where it starts. *)
Record logSource := mkSource { sFile : logFile; sFrom : Z }.

Definition slen (s : string) : Z := Z.of_nat (String.length s).

(** f.ReadAt of [want] bytes at [off]: those that are there. *)
Definition ReadAt (content : string) (off want : Z) : string := stake (Z.to_nat want) (sdrop (Z.to_nat off) content).

(** ** Reading *)

(** b[:bytes.LastIndexByte(b, '\n')+1], if there is a newline. *)
Fixpoint through_newline (s : string) : option string :=
  match s with
  | "" => None
  | String c s =>
      match through_newline s with
      | Some p => Some (String c p)
      | None => if Ascii.eqb c newline then Some (String c "") else None
      end
  end.

(** The lines of a text, without those that bytes.TrimSpace empties. *)
Definition nonblank (l : string) : Prop := TrimSpace l ≠ "".
#[global] Instance nonblank_dec l : Decision (nonblank l) := _.
Definition records_of (s : string) : list string := filter nonblank (Split s newline).

Inductive read_error := TooLong (limit off : Z).
#[global] Instance read_error_eq_dec : EqDecision read_error.
Proof. solve_decision. Defined.

(** The loop of readSegment, with what it reads next; the last want is hardMax. *)
Fixpoint read_loop (fuel : nat) (content : string) (off want hardMax : Z) : option (res read_error (list string * Z)) :=
  match fuel with
  | O => None
  | S fuel =>
      let want := if hardMax <? want then hardMax else want in
      let b := ReadAt content off want in
      match through_newline b with
      | Some p => Some (Ok (records_of p, slen p))
      | None =>
          if slen b <? want then Some (Ok ([], 0))
          else if want =? hardMax then Some (Err (TooLong hardMax off))
          else read_loop fuel content off (want * 2) hardMax
      end
  end.
Definition read_fuel (hardMax : Z) : nat := S (S (Z.to_nat (Z.log2 hardMax))).
Definition readSegment (content : string) (off max hardMax : Z) : option (res read_error (list string * Z)) :=
  read_loop (read_fuel hardMax) content off max hardMax.

(** ** The files of a run *)

(** A directory entry, with the file os.Open and Stat give of it ([None]: it is gone). *)
Record entry := mkEntry { eName : string; eRegular : bool; eOpen : option logFile }.

Definition Base (path : string) : string := after_last "/" path.
Definition Ext (base : string) : string :=
  if contains_char "." base then String "." (after_last "." base) else "".

Definition is_backup (base : string) (cur : logFile) (e : entry) : option logFile :=
  let ext := Ext base in let stem := TrimSuffix base ext +:+ "-" in
  if String.eqb (eName e) base || negb (eRegular e) || negb (HasPrefix (eName e) stem) || negb (HasSuffix (eName e) ext)
  then None
  else lf ← eOpen e; if lInode lf =? lInode cur then None else Some lf.

Definition by_name (f g : logFile) : Prop := string_le (lName f) (lName g).
#[global] Instance by_name_dec : RelDecision by_name.
Proof. intros f g. unfold by_name. apply _. Defined.
Definition rotated_of (base : string) (cur : logFile) (entries : list entry) : list logFile :=
  merge_sort by_name (omap (is_backup base cur) entries).

Inductive gather_error := CannotOpen | CannotList.
(** gatherLogs, of what os.Open and os.ReadDir give; the live log is opened before the directory is read. *)
Definition gatherLogs (path : string) (opened : option logFile) (listing : option (list entry)) :
    res gather_error (logFile * list logFile) :=
  match opened with
  | None => Err CannotOpen
  | Some cur =>
      match listing with
      | None => Err CannotList
      | Some entries => Ok (cur, rotated_of (Base path) cur entries)
      end
  end.

(** ** Planning *)

(** Why records were missed. *)
Inductive missed := Shrank (size off : Z) | Gone (inode off : Z) (lastTS : string).

Definition is_trimmed (c : ascii) : bool := contains_char c (String " " (String (ascii_of 9) (String (ascii_of 13) (String newline "")))).
(** bytes.TrimRight of spaces, tabs, carriage returns and newlines. *)
Fixpoint TrimRight (s : string) : string :=
  match s with
  | "" => ""
  | String c s =>
      match TrimRight s with
      | "" => if is_trimmed c then "" else String c ""
      | t => String c t
      end
  end.

Definition endsAtRecord (lf : logFile) (off : Z) (rec : string) : bool :=
  if off <=? 0 then false
  else
    let w := Z.min (slen rec + 4096) off in
    HasSuffix (TrimRight (ReadAt (lContent lf) (off - w) w)) (TrimRight rec).

(** The backups from the one the chain last read, in rotation order. *)
Fixpoint resume_at (head : Segment) (last : string) (rotated : list logFile) : option (list logSource) :=
  match rotated with
  | [] => None
  | lf :: later =>
      if negb (lInode lf =? SourceInode head) || (lSize lf <? EndOffset head) || String.eqb last "" ||
         negb (endsAtRecord lf (EndOffset head) last)
      then resume_at head last later
      else Some (mkSource lf (EndOffset head) :: map (λ lf, mkSource lf 0) later)
  end.

Definition last_record (head : Segment) : string := default "" (last (Records head)).

Definition planSources (cur : logFile) (rotated : list logFile) (head : option Segment) : list logSource * option missed :=
  match head with
  | None => ([mkSource cur 0], None)
  | Some head =>
      if (SourceInode head =? 0) || (SourceInode head =? lInode cur) then
        if lSize cur <? EndOffset head then ([mkSource cur 0], Some (Shrank (lSize cur) (EndOffset head)))
        else ([mkSource cur (EndOffset head)], None)
      else
        match resume_at head (last_record head) rotated with
        | Some plan => (plan ++ [mkSource cur 0], None)
        | None =>
            (match ParseRFC3339 (LastTS head) with
             | Some after => map (λ lf, mkSource lf 0) (filter (λ lf, after < lMtime lf) rotated)
             | None => []
             end ++ [mkSource cur 0], Some (Gone (SourceInode head) (EndOffset head) (LastTS head)))
        end
  end.

(** ** A run *)

(** What a put does: the segment is stored; or the write to the primary fails; or it is in the primary when
    the off-site copy fails, or when the process dies. *)
Inductive put_result := Stored | Lost | Half.

(** How a run ends; [Running] is fuel run out. *)
Inductive ending := Finished | ReadFailed (e : read_error) | PutFailed | Running.
#[global] Instance ending_eq_dec : EqDecision ending.
Proof. solve_decision. Defined.

(** The last segment of the chain, the segments now in the primary bucket, and the puts made. *)
Record run := mkRun { rPrev : option Segment; rLanded : list Segment; rPuts : nat }.

Section Ship.
Context (sha256 : string → string).
(** The requestReceivedTimestamp that encoding/json reads off a line. *)
Context (tsOf : string → string).
(** SEGMENT_MAX_BYTES and the longest line. *)
Context (maxBytes hardMax : Z).

Definition segment_of (prev : option Segment) (lines : list string) (lf : logFile) (end_ : Z) : Segment :=
  let s := BuildSegment sha256 prev lines (tsOf (default "" (head lines))) (tsOf (default "" (last lines))) in
  mkSegment (Seq s) (PrevHash s) (Count s) (FirstTS s) (LastTS s) (RecordsHash s) (Hash s) (Records s) end_ (lInode lf).

Section Put.
(** What the puts of the run do, by their number. *)
Context (puts : nat → put_result).

Fixpoint ship_file (fuel : nat) (lf : logFile) (off : Z) (st : run) : run * ending :=
  match fuel with
  | O => (st, Running)
  | S fuel =>
      match readSegment (lContent lf) off maxBytes hardMax with
      | None => (st, Running)
      | Some (Err e) => (st, ReadFailed e)
      | Some (Ok (lines, consumed)) =>
          if consumed =? 0 then (st, Finished)
          else
            match lines with
            | [] => ship_file fuel lf (off + consumed) st
            | _ =>
                let seg := segment_of (rPrev st) lines lf (off + consumed) in
                match puts (rPuts st) with
                | Lost => (mkRun (rPrev st) (rLanded st) (S (rPuts st)), PutFailed)
                | Half => (mkRun (rPrev st) (rLanded st ++ [seg]) (S (rPuts st)), PutFailed)
                | Stored => ship_file fuel lf (EndOffset seg) (mkRun (Some seg) (rLanded st ++ [seg]) (S (rPuts st)))
                end
            end
      end
  end.

Fixpoint ship_plan (plan : list logSource) (st : run) : run * ending :=
  match plan with
  | [] => (st, Finished)
  | src :: plan =>
      match ship_file (S (String.length (lContent (sFile src)))) (sFile src) (sFrom src) st with
      | (st, Finished) => ship_plan plan st
      | stopped => stopped
      end
  end.

Definition shipRun (cur : logFile) (rotated : list logFile) (head : option Segment) : run * ending * option missed :=
  let '(plan, note) := planSources cur rotated head in
  (ship_plan plan (mkRun head [] 0), note).
End Put.
End Ship.

(** What is read back of a segment: encoding/json replaces invalid UTF-8 on the way out. *)
Definition stored (s : Segment) : Segment :=
  mkSegment (Seq s) (PrevHash s) (Count s) (json_string (FirstTS s)) (json_string (LastTS s)) (RecordsHash s) (Hash s)
    (map json_string (Records s)) (EndOffset s) (SourceInode s).

(** ** Lines *)

Definition has_newline (s : string) : bool := contains_char newline s.
(** A text that is empty or ends a line. *)
Definition ends_line (s : string) : Prop := s = "" ∨ ∃ a, s = a +:+ String newline "".
(** The records of a text: those of its complete lines. *)
Definition complete (s : string) : string := default "" (through_newline s).
Definition lines_of (s : string) : list string := records_of (complete s).

Lemma through_newline_None s : through_newline s = None ↔ has_newline s = false.
Proof.
  unfold has_newline. induction s as [|c s IH]; [done|]. cbn [through_newline contains_char].
  rewrite (Ascii.eqb_sym newline c). destruct (through_newline s) eqn:E.
  - split; [done|]. intros H%orb_false_iff. destruct H as [_ H]. by apply IH in H.
  - destruct (Ascii.eqb c newline); cbn [orb]; [done|]. rewrite <- IH. done.
Qed.

Lemma through_newline_Some s p :
  through_newline s = Some p → ∃ a r, p = a +:+ String newline "" ∧ s = p +:+ r ∧ has_newline r = false.
Proof.
  revert p. induction s as [|c s IH]; intros p; [done|]. cbn [through_newline].
  destruct (through_newline s) as [q|] eqn:E.
  - intros [= <-]. destruct (IH q eq_refl) as (a & r & -> & -> & Hr). by exists (String c a), r.
  - destruct (Ascii.eqb_spec c newline) as [->|]; [|done]. intros [= <-]. exists "", s.
    split; [done|]. split; [done|]. by apply through_newline_None.
Qed.

Lemma through_newline_app p q : has_newline q = false → through_newline (p +:+ String newline q) = Some (p +:+ String newline "").
Proof.
  intros Hq%through_newline_None. induction p as [|c p IH]; cbn [String.append through_newline];
    [by rewrite Hq, Ascii.eqb_refl|by rewrite IH].
Qed.

Lemma Split_app a b sep : Split (a +:+ String sep b) sep = Split a sep ++ Split b sep.
Proof.
  induction a as [|c a IH]; [cbn; by rewrite Ascii.eqb_refl|]. cbn [String.append Split]. rewrite IH.
  destruct (Ascii.eqb c sep); [done|]. destruct (Split a sep) as [|x l] eqn:E; [|done].
  exfalso. clear IH. destruct a as [|d a]; cbn in E; [done|]. destruct (Ascii.eqb d sep); [done|]. by destruct (Split a sep).
Qed.

Lemma records_of_app p q : ends_line p → records_of (p +:+ q) = records_of p ++ records_of q.
Proof.
  intros [->|[a ->]]; [done|]. unfold records_of.
  replace ((a +:+ String newline "") +:+ q) with (a +:+ String newline q) by by rewrite append_assoc.
  rewrite !Split_app, !filter_app. cbn [Split]. rewrite (filter_cons_False _ ""); [|intros H; by apply H].
  by rewrite filter_nil, app_nil_r.
Qed.

Lemma ends_line_app p q : ends_line p → ends_line q → ends_line (p +:+ q).
Proof.
  intros Hp [->|[a ->]]; [by rewrite append_nil_r|]. right. exists (p +:+ a). by rewrite append_assoc.
Qed.

Lemma complete_ends_line s : ends_line (complete s).
Proof.
  unfold complete. destruct (through_newline s) as [p|] eqn:E; [|by left].
  apply through_newline_Some in E as (a & r & -> & _). right. by exists a.
Qed.

Lemma complete_app p r : ends_line p → complete (p +:+ r) = p +:+ complete r.
Proof.
  intros Hp. unfold complete. destruct (through_newline r) as [q|] eqn:E.
  - apply through_newline_Some in E as (a & r' & -> & -> & Hr').
    replace (p +:+ (a +:+ String newline "") +:+ r') with ((p +:+ a) +:+ String newline r') by by rewrite !append_assoc.
    rewrite through_newline_app by done. cbn [default]. by rewrite append_assoc.
  - apply through_newline_None in E. destruct Hp as [->|[a ->]].
    + apply through_newline_None in E. change ("" +:+ r) with r. by rewrite E.
    + rewrite append_assoc. cbn [String.append]. rewrite through_newline_app by done.
      cbn [default]. by rewrite append_nil_r.
Qed.

Lemma lines_of_app p r : ends_line p → lines_of (p +:+ r) = records_of p ++ lines_of r.
Proof. intros Hp. unfold lines_of. by rewrite complete_app, records_of_app. Qed.

Lemma lines_of_none s : has_newline s = false → lines_of s = [].
Proof. intros H%through_newline_None. unfold lines_of, complete. by rewrite H. Qed.

(** ** Reading a segment *)

Lemma slen_app a b : slen (a +:+ b) = slen a + slen b.
Proof. unfold slen. rewrite length_append. lia. Qed.
Lemma slen_nonneg s : 0 ≤ slen s.
Proof. unfold slen. lia. Qed.

Lemma stake_all n s : (String.length s <= n)%nat → stake n s = s.
Proof. revert n. induction s as [|c s IH]; intros [|n] H; cbn in *; try done; [lia|]. by rewrite IH by lia. Qed.

Lemma ReadAt_app P R want : ReadAt (P +:+ R) (slen P) want = stake (Z.to_nat want) R.
Proof. unfold ReadAt, slen. by rewrite Nat2Z.id, sdrop_append. Qed.

Lemma stake_prefix n s : ∃ t, s = stake n s +:+ t.
Proof.
  destruct (decide (n <= String.length s)%nat) as [H|H].
  - exists (sdrop n s). by apply stake_sdrop.
  - exists "". by rewrite stake_all, append_nil_r by lia.
Qed.

Lemma slen_stake n s : slen (stake n s) = Z.of_nat (Nat.min n (String.length s)).
Proof.
  unfold slen. destruct (decide (n <= String.length s)%nat) as [H|H].
  - destruct (stake_sdrop n s H) as [_ ->]. lia.
  - rewrite stake_all by lia. lia.
Qed.

(** What one read gives, of the text [R] after the offset. *)
Definition read_spec (hardMax : Z) (R : string) (out : res read_error (list string * Z)) : Prop :=
  match out with
  | Ok (ls, k) =>
      (k = 0 ∧ ls = [] ∧ has_newline R = false) ∨
      (∃ q r, R = q +:+ r ∧ slen q = k ∧ 0 < k ∧ ends_line q ∧ ls = records_of q)
  | Err _ => hardMax ≤ slen R ∧ has_newline (stake (Z.to_nat hardMax) R) = false
  end.

Lemma read_loop_spec fuel P R want hardMax :
  0 < want → 0 < hardMax → (fuel ≠ O)%nat → hardMax ≤ want * 2 ^ (Z.of_nat fuel - 1) →
  ∃ out, read_loop fuel (P +:+ R) (slen P) want hardMax = Some out ∧ read_spec hardMax R out.
Proof.
  revert want. induction fuel as [|fuel IH]; intros want Hw Hh Hf Hle; [done|]. cbn [read_loop].
  set (w := if hardMax <? want then hardMax else want).
  assert (Hwb : 0 < w ≤ hardMax ∧ (w = hardMax ∨ w = want)) by (unfold w; destruct (Z.ltb_spec hardMax want); lia).
  rewrite ReadAt_app. destruct (through_newline (stake (Z.to_nat w) R)) as [q|] eqn:E.
  - eexists. split; [done|]. right. apply through_newline_Some in E as (a & r & -> & Hs & _).
    destruct (stake_prefix (Z.to_nat w) R) as (t & Ht). rewrite Hs in Ht. exists (a +:+ String newline ""), (r +:+ t).
    rewrite <- append_assoc. split; [done|]. split; [done|]. split; [|split; [right; by exists a|done]].
    rewrite slen_app. pose proof (slen_nonneg a). unfold slen at 2. cbn. lia.
  - rewrite slen_stake. apply through_newline_None in E. destruct (Z.ltb_spec (Z.of_nat (Nat.min (Z.to_nat w) (String.length R))) w) as [Hlt|Hge].
    + eexists. split; [done|]. left. rewrite stake_all in E by lia. done.
    + destruct (Z.eqb_spec w hardMax) as [Heq|Hne].
      * eexists. split; [done|]. cbn. rewrite Heq in *. split; [unfold slen; lia|done].
      * destruct Hwb as ([_ Hwle] & [|Hw']); [done|]. rewrite Hw' in *. apply IH; [lia|done|..].
        { intros ->. cbn in Hle. lia. }
        destruct fuel as [|fuel]; [cbn in Hle; lia|].
        replace (Z.of_nat (S (S fuel)) - 1) with (Z.of_nat fuel + 1) in Hle by lia.
        replace (Z.of_nat (S fuel) - 1) with (Z.of_nat fuel) by lia.
        rewrite Z.pow_add_r in Hle by lia. lia.
Qed.

(** A read ends, with the complete lines that follow the offset, up to the last that fits, or all there
    is of a longer one. *)
Lemma readSegment_spec P R max hardMax :
  0 < max → 0 < hardMax → ∃ out, readSegment (P +:+ R) (slen P) max hardMax = Some out ∧ read_spec hardMax R out.
Proof.
  intros Hm Hh. apply read_loop_spec; [done..|]. unfold read_fuel.
  pose proof (Z.log2_nonneg hardMax) as Hl. destruct (Z.log2_spec hardMax Hh) as [_ Hlt].
  replace (Z.of_nat (S (S (Z.to_nat (Z.log2 hardMax)))) - 1) with (Z.succ (Z.log2 hardMax)) by lia. nia.
Qed.

(** ** Where the chain stands in the log *)

Definition file_lines (f : logFile) : list string := lines_of (lContent f).

(** The segment [h] ends in one of the files, at the end of a line: [done] are the records up to there,
    [rest] those after it. *)
Definition stands (files : list logFile) (h : Segment) (done rest : list string) : Prop :=
  ∃ pre f post P R, files = pre ++ f :: post ∧ lInode f = SourceInode h ∧ lContent f = P +:+ R ∧ ends_line P ∧
    slen P = EndOffset h ∧ done = flat_map file_lines pre ++ records_of P ∧
    rest = lines_of R ++ flat_map file_lines post.

Lemma stands_split files h done rest : stands files h done rest → flat_map file_lines files = done ++ rest.
Proof.
  intros (pre & f & post & P & R & -> & _ & HP & He & _ & -> & ->). rewrite flat_map_app. cbn [flat_map].
  unfold file_lines at 2. rewrite HP, lines_of_app by done. by rewrite <- !app_assoc.
Qed.

Lemma stands_cons f files h done rest : stands files h done rest → stands (f :: files) h (file_lines f ++ done) rest.
Proof.
  intros (pre & g & post & P & R & -> & H1 & H2 & H3 & H4 & -> & ->). exists (f :: pre), g, post, P, R.
  cbn [flat_map]. by rewrite <- !app_assoc.
Qed.

Section Shipped.
Context (sha256 : string → string) (tsOf : string → string) (maxBytes hardMax : Z).
Hypothesis (max_pos : 0 < maxBytes) (hard_pos : 0 < hardMax).

(** What shipping adds to a chain that ends at [prev], of a text [q] of complete lines. *)
Record adds (prev : option Segment) (L : list Segment) (records : list string) : Prop := mkAdds {
  adds_chain : chain sha256 (link_of <$> prev) L;
  adds_records : flat_map Records L = records;
  adds_times : Forall (λ s, ∃ a b, FirstTS s = tsOf a ∧ LastTS s = tsOf b) L }.

Definition prev_of (prev : option Segment) (L : list Segment) : option Segment :=
  match last L with Some s => Some s | None => prev end.

Lemma adds_nil prev : adds prev [] [].
Proof. by split. Qed.

Lemma adds_app prev L K a b : adds prev L a → adds (prev_of prev L) K b → adds prev (L ++ K) (a ++ b).
Proof.
  intros [H1 <- H3] [H4 <- H6]. split; [|by rewrite flat_map_app|by apply Forall_app].
  apply chain_app. split; [done|]. unfold prev_of in H4. by destruct (last L).
Qed.

Lemma prev_of_app prev L K : prev_of prev (L ++ K) = prev_of (prev_of prev L) K.
Proof. unfold prev_of. rewrite last_app. by destruct (last K). Qed.

Lemma segment_adds prev lines lf end_ : adds prev [segment_of sha256 tsOf prev lines lf end_] lines.
Proof.
  split; [|by cbn; rewrite app_nil_r|by repeat econstructor]. cbn [chain]. split; [done|].
  split; [|done]. by destruct prev.
Qed.

(** A file read from the end of a line: what lands is what the text up to the last segment's end holds,
    and a run that finishes the file leaves no record in it. *)
Definition shipped_file (lf : logFile) (P R : string) (st st' : run) (e : ending) : Prop :=
  ∃ L q r, rLanded st' = rLanded st ++ L ∧ R = q +:+ r ∧ ends_line q ∧ adds (rPrev st) L (records_of q) ∧
    (L = [] → q = "") ∧
    (∀ s, last L = Some s → SourceInode s = lInode lf ∧ EndOffset s = slen (P +:+ q)) ∧ e ≠ Running ∧
    (e = Finished → lines_of r = [] ∧ rPrev st' = prev_of (rPrev st) L).

Lemma shipped_stop lf P R st e : e ≠ Running → (e = Finished → lines_of R = []) → shipped_file lf P R st st e.
Proof.
  intros He Hn. exists [], "", R. rewrite app_nil_r. split_and!; [done|done|by left|apply adds_nil|done|done|done|auto].
Qed.

(** A chunk without records is passed over; one with records makes a segment. *)
Lemma shipped_blank lf P q R st st' e :
  ends_line q → records_of q = [] → shipped_file lf (P +:+ q) R st st' e → shipped_file lf P (q +:+ R) st st' e.
Proof.
  intros Hq Els (L & q1 & r1 & H1 & -> & H3 & H4 & H5 & H6 & H7 & H8). destruct (decide (L = [])) as [->|HL].
  - exists [], "", (q +:+ q1 +:+ r1). rewrite (H5 eq_refl) in *. split_and!; try done.
    intros He. destruct (H8 He) as [H9 ->]. change ("" +:+ r1) with r1. by rewrite lines_of_app, Els, H9.
  - exists L, (q +:+ q1), r1. split_and!; try done; [by rewrite append_assoc|by apply ends_line_app| |].
    + by rewrite records_of_app, Els.
    + intros s Hs. by rewrite <- append_assoc; apply H6.
Qed.

Lemma shipped_segment lf P q R st st' e :
  ends_line q →
  let seg := segment_of sha256 tsOf (rPrev st) (records_of q) lf (slen (P +:+ q)) in
  shipped_file lf (P +:+ q) R (mkRun (Some seg) (rLanded st ++ [seg]) (S (rPuts st))) st' e →
  shipped_file lf P (q +:+ R) st st' e.
Proof.
  intros Hq seg (L & q1 & r1 & H1 & -> & H3 & H4 & H5 & H6 & H7 & H8). cbn [rLanded rPrev] in *.
  exists (seg :: L), (q +:+ q1), r1. split_and!; try done.
  - rewrite H1, <- app_assoc. done.
  - by rewrite append_assoc.
  - by apply ends_line_app.
  - rewrite records_of_app by done. apply (adds_app _ [seg]); [apply segment_adds|exact H4].
  - intros s Hs. rewrite last_cons in Hs. destruct (last L) as [t|] eqn:Et.
    { injection Hs as <-. rewrite <- append_assoc. by apply H6. }
    injection Hs as <-. apply last_None in Et. by rewrite (H5 Et), append_nil_r.
  - intros He. destruct (H8 He) as [H9 ->]. split; [done|]. unfold prev_of. rewrite last_cons. by destruct (last L).
Qed.

Lemma ship_file_spec puts fuel lf P R st :
  lContent lf = P +:+ R → ends_line P → (String.length R < fuel)%nat →
  let '(st', e) := ship_file sha256 tsOf maxBytes hardMax puts fuel lf (slen P) st in shipped_file lf P R st st' e.
Proof.
  revert P R st. induction fuel as [|fuel IH]; intros P R st Hc HP Hf; [lia|]. cbn [ship_file]. rewrite Hc.
  destruct (readSegment_spec P R maxBytes hardMax max_pos hard_pos) as (out & -> & Hout).
  destruct out as [[ls k]|err]; [|by apply shipped_stop]. cbn in Hout.
  destruct Hout as [(-> & -> & Hn)|(q & r & -> & Hk & Hkp & Hq & ->)].
  { apply shipped_stop; [done|]. intros _. by apply lines_of_none. }
  destruct (Z.eqb_spec k 0) as [->|_]; [lia|].
  assert (Hoff : slen P + k = slen (P +:+ q)) by by rewrite slen_app, Hk.
  rewrite Hoff. assert (HPq : ends_line (P +:+ q)) by by apply ends_line_app.
  assert (Hr : (String.length r < fuel)%nat) by (rewrite length_append in Hf; unfold slen in Hk; lia).
  assert (Hc' : lContent lf = (P +:+ q) +:+ r) by by rewrite append_assoc.
  pose proof (shipped_segment lf P q r st) as Hseg. cbn zeta in Hseg.
  destruct (records_of q) as [|l ls] eqn:Els.
  - specialize (IH (P +:+ q) r st Hc' HPq Hr). destruct (ship_file _ _ _ _ _ _ _ _ _) as [st' e]. by apply shipped_blank.
  - rewrite <- Els in *. set (seg := segment_of _ _ _ _ _ _) in *. destruct (puts (rPuts st)).
    + specialize (IH (P +:+ q) r (mkRun (Some seg) (rLanded st ++ [seg]) (S (rPuts st))) Hc' HPq Hr).
      cbn [EndOffset segment_of seg]. destruct (ship_file _ _ _ _ _ _ _ _ _) as [st' e]. by apply Hseg.
    + exists [], "", (q +:+ r). rewrite app_nil_r. split_and!; try done; by left.
    + exists [seg], q, r. split_and!; try done; [apply segment_adds|]. intros s [= <-]. done.
Qed.

Definition source_from0 (f : logFile) : logSource := mkSource f 0.

(** What a plan's run leaves: of the [rest] of the files from [f] on, what landed, and where it stands. *)
Definition shipped (files : list logFile) (rest : list string) (st st' : run) (e : ending) : Prop :=
  ∃ L, rLanded st' = rLanded st ++ L ∧ adds (rPrev st) L (flat_map Records L) ∧ e ≠ Running ∧
    (e = Finished → flat_map Records L = rest) ∧
    (∀ s, last L = Some s → ∃ done rest', stands files s done rest' ∧ flat_map Records L ++ rest' = rest).

Lemma shipped_of_file f post P R st st' e :
  lContent f = P +:+ R → ends_line P → shipped_file f P R st st' e → post = [] ∨ e ≠ Finished →
  shipped (f :: post) (lines_of R ++ flat_map file_lines post) st st' e.
Proof.
  intros Hc HP (L & q & r & H1 & -> & H3 & H4 & H5 & H6 & H7 & H8) Hpost. exists L. split; [done|].
  rewrite (adds_records _ _ _ H4). split; [done|]. split; [done|]. rewrite lines_of_app by done. split.
  - intros He. destruct Hpost as [->|]; [|done]. destruct (H8 He) as [-> _]. cbn. by rewrite !app_nil_r.
  - intros s Hs. destruct (H6 s Hs) as [Hi Ho]. eexists _, (lines_of r ++ flat_map file_lines post). split.
    + exists [], f, post, (P +:+ q), r. split_and!; [done|done|by rewrite append_assoc|by apply ends_line_app|done..].
    + by rewrite app_assoc.
Qed.

Lemma ship_plan_cons puts src plan st :
  ship_plan sha256 tsOf maxBytes hardMax puts (src :: plan) st =
  match ship_file sha256 tsOf maxBytes hardMax puts (S (String.length (lContent (sFile src)))) (sFile src) (sFrom src) st with
  | (st, Finished) => ship_plan sha256 tsOf maxBytes hardMax puts plan st
  | stopped => stopped
  end.
Proof. reflexivity. Qed.

Lemma ship_plan_spec puts post f P R st :
  lContent f = P +:+ R → ends_line P →
  let '(st', e) := ship_plan sha256 tsOf maxBytes hardMax puts (mkSource f (slen P) :: map source_from0 post) st in
  shipped (f :: post) (lines_of R ++ flat_map file_lines post) st st' e.
Proof.
  revert f P R st. induction post as [|g post IH]; intros f P R st Hc HP; rewrite ship_plan_cons; cbn [sFile sFrom];
    pose proof (ship_file_spec puts (S (String.length (lContent f))) f P R st Hc HP) as Hf;
    (destruct (ship_file _ _ _ _ _ _ _ _ _) as [st1 e1]; specialize (Hf ltac:(rewrite Hc, length_append; lia))).
  { destruct e1; apply (shipped_of_file f [] P R); auto. }
  destruct (decide (e1 = Finished)) as [->|Hne];
    [|destruct e1; [done|apply (shipped_of_file f (g :: post) P R); auto..]].
  specialize (IH g "" (lContent g) st1 eq_refl ltac:(by left)).
  change (map source_from0 (g :: post)) with (mkSource g (slen "") :: map source_from0 post).
  destruct (ship_plan _ _ _ _ _ _ _) as [st2 e2].
  destruct Hf as (L & q & r & H1 & -> & H3 & H4 & H5 & H6 & H7 & H8). destruct (H8 eq_refl) as [Hr Hp].
  destruct IH as (K & K1 & K2 & K3 & K4 & K5). rewrite Hp in K2. exists (L ++ K).
  rewrite flat_map_app, (adds_records _ _ _ H4), lines_of_app, Hr, app_nil_r by done. split_and!.
  - by rewrite K1, H1, app_assoc.
  - by apply adds_app.
  - done.
  - intros He. f_equal. by apply K4.
  - intros s Hs. rewrite last_app in Hs. destruct (last K) as [t|] eqn:EK.
    + injection Hs as <-. destruct (K5 t eq_refl) as (done & rest & Hst & Hrest). exists (file_lines f ++ done), rest.
      split; [by apply stands_cons|]. rewrite <- app_assoc. f_equal. done.
    + destruct (H6 s Hs) as [Hi Ho]. apply last_None in EK as ->. cbn [flat_map]. rewrite app_nil_r.
      eexists _, (flat_map file_lines (g :: post)). split; [|done].
      exists [], f, (g :: post), (P +:+ q), r. rewrite Hr. split_and!; [done|done|by rewrite append_assoc|by apply ends_line_app|done..].
Qed.

(** ** Planning from where the chain stands *)

(** Open files: inodes are distinct and not 0, and the size is that of the content. *)
Record wf_files (files : list logFile) : Prop := mkWf {
  wf_inodes : NoDup (map lInode files);
  wf_each : Forall (λ f, lInode f ≠ 0 ∧ lSize f = slen (lContent f)) files }.

(** The chain's file, where it has become a backup, is found to end the head's last record. *)
Definition recognised (rotated : list logFile) (h : Segment) : Prop :=
  Forall (λ f, lInode f = SourceInode h → last_record h ≠ "" ∧ endsAtRecord f (EndOffset h) (last_record h) = true) rotated.

Lemma resume_at_spec h pre f post :
  Forall (λ g, lInode g ≠ lInode f) pre → lInode f = SourceInode h → EndOffset h ≤ lSize f → recognised (pre ++ f :: post) h →
  resume_at h (last_record h) (pre ++ f :: post) = Some (mkSource f (EndOffset h) :: map source_from0 post).
Proof.
  intros Hpre Hi Hle Hrec. unfold recognised in Hrec. apply Forall_app in Hrec as [_ [Hf _]%Forall_cons_1].
  destruct (Hf Hi) as [Hl He]. induction Hpre as [|g pre Hg _ IH]; cbn [app resume_at].
  - rewrite Hi, Z.eqb_refl, He. destruct (Z.ltb_spec (lSize f) (EndOffset h)); [lia|].
    apply String.eqb_neq in Hl. by rewrite Hl.
  - rewrite <- Hi. destruct (Z.eqb_spec (lInode g) (lInode f)); [done|]. exact IH.
Qed.

Lemma plan_of_stands rot cur h done rest :
  wf_files (rot ++ [cur]) → stands (rot ++ [cur]) h done rest → recognised rot h →
  ∃ pre f P R post, rot ++ [cur] = pre ++ f :: post ∧ lContent f = P +:+ R ∧ ends_line P ∧
    done = flat_map file_lines pre ++ records_of P ∧ rest = lines_of R ++ flat_map file_lines post ∧
    planSources cur rot (Some h) = (mkSource f (slen P) :: map source_from0 post, None).
Proof.
  intros [Hnd Heach] (pre & f & post & P & R & Hfiles & Hi & Hc & HP & Ho & -> & ->) Hrec.
  exists pre, f, P, R, post. split_and!; try done. rewrite Hfiles in Hnd, Heach.
  apply Forall_app in Heach as [_ [[Hz Hs] _]%Forall_cons_1]. rewrite map_app in Hnd. cbn [map] in Hnd.
  apply NoDup_app in Hnd as (_ & Hdis & [Hnotin _]%NoDup_cons).
  assert (Hle : slen P ≤ lSize f) by (rewrite Hs, Hc, slen_app; pose proof (slen_nonneg R); lia).
  unfold planSources. rewrite <- Hi. destruct (Z.eqb_spec (lInode f) 0); [done|]. cbn [orb].
  destruct post as [|g post _] using rev_ind.
  - apply app_inj_tail in Hfiles as [-> ->]. rewrite Z.eqb_refl, <- Ho.
    destruct (Z.ltb_spec (lSize f) (slen P)); [lia|done].
  - rewrite app_comm_cons, app_assoc in Hfiles. apply app_inj_tail in Hfiles as [-> ->].
    destruct (Z.eqb_spec (lInode f) (lInode g)) as [E|_].
    { exfalso. apply Hnotin. rewrite E, map_app. apply list_elem_of_In, in_or_app. right. by left. }
    rewrite resume_at_spec; [|apply Forall_forall; intros x Hx E|done|lia|done].
    + rewrite map_app, Ho. done.
    + apply (Hdis (lInode x)); [by apply list_elem_of_fmap_2|]. rewrite E. by left.
Qed.

(** A run from where the chain stands. *)
Lemma shipRun_resumes puts rot cur h done rest :
  wf_files (rot ++ [cur]) → stands (rot ++ [cur]) h done rest → recognised rot h →
  ∃ st' e, shipRun sha256 tsOf maxBytes hardMax puts cur rot (Some h) = (st', e, None) ∧
    shipped (rot ++ [cur]) rest (mkRun (Some h) [] 0) st' e.
Proof.
  intros Hwf Hst Hrec. destruct (plan_of_stands _ _ _ _ _ Hwf Hst Hrec) as (pre & f & P & R & post & Hf & Hc & HP & _ & -> & Hplan).
  unfold shipRun. rewrite Hplan. pose proof (ship_plan_spec puts post f P R (mkRun (Some h) [] 0) Hc HP) as Hs.
  destruct (ship_plan _ _ _ _ _ _ _) as [st' e]. exists st', e. split; [done|].
  destruct Hs as (L & H1 & H2 & H3 & H4 & H5). exists L. split_and!; try done.
  intros s Hs. destruct (H5 s Hs) as (d & r & Hd & Hr). rewrite Hf. clear -Hd Hr.
  assert (Hpre : ∃ d', stands (pre ++ f :: post) s d' r); [|naive_solver].
  induction pre as [|g pre [d' IH]]; [by exists d|]. exists (file_lines g ++ d'). by apply stands_cons.
Qed.

(** The first run reads the live log only. *)
Lemma shipRun_starts puts rot cur :
  ∃ st' e, shipRun sha256 tsOf maxBytes hardMax puts cur rot None = (st', e, None) ∧
    shipped [cur] (file_lines cur) (mkRun None [] 0) st' e.
Proof.
  unfold shipRun, planSources.
  pose proof (ship_plan_spec puts [] cur "" (lContent cur) (mkRun None [] 0) eq_refl ltac:(by left)) as Hs.
  cbn [map slen String.length] in Hs. destruct (ship_plan _ _ _ _ _ _ _) as [st' e]. exists st', e. split; [done|].
  cbn [flat_map] in Hs. by rewrite app_nil_r in Hs.
Qed.

(** ** The log and the bucket over time *)

Definition utf8 (s : string) : Prop := json_string s = s.
(** What encoding/json decodes is valid UTF-8. *)
Hypothesis tsOf_utf8 : ∀ l, utf8 (tsOf l).

(** The files, the live log last; the bucket's segments, as they read back; and, to speak of what is shipped,
    the records of the files already rotated away when the chain started, and those of the files removed. *)
Record world := mkWorld {
  wFiles : list logFile;
  wBucket : list Segment;
  wBefore : list string;
  wGone : list string }.

Definition set_files (fs : list logFile) (w : world) : world := mkWorld fs (wBucket w) (wBefore w) (wGone w).

(** The bucket after a run: what landed is added, as it reads back. *)
Definition after_run (rot : list logFile) (L : list Segment) (w : world) : world :=
  mkWorld (wFiles w) (wBucket w ++ map stored L)
    (match wBucket w with [] => wGone w ++ flat_map file_lines rot | _ => wBefore w end) (wGone w).

Inductive step (w : world) : world → Prop :=
| step_write pre f g text :
    wFiles w = pre ++ [f] → lInode g = lInode f → lContent g = lContent f +:+ text → lSize g = slen (lContent g) →
    step w (set_files (pre ++ [g]) w)
| step_rotate f :
    lContent f = "" → lSize f = 0 → lInode f ≠ 0 → lInode f ∉ map lInode (wFiles w) →
    step w (set_files (wFiles w ++ [f]) w)
| step_remove f files :
    wFiles w = f :: files → files ≠ [] → (∀ h, last (wBucket w) = Some h → SourceInode h ≠ lInode f) →
    step w (mkWorld files (wBucket w) (wBefore w) (wGone w ++ file_lines f))
| step_run puts rot cur st e note :
    wFiles w = rot ++ [cur] → (∀ h, last (wBucket w) = Some h → recognised rot h) →
    Forall (λ f, Forall utf8 (file_lines f)) (wFiles w) →
    shipRun sha256 tsOf maxBytes hardMax puts cur rot (last (wBucket w)) = (st, e, note) →
    step w (after_run rot (rLanded st) w).

Inductive reach : world → Prop :=
| reach_start f : wf_files [f] → reach (mkWorld [f] [] [] [])
| reach_step w w' : reach w → step w w' → reach w'.

Record inv (w : world) : Prop := mkInv {
  inv_wf : wf_files (wFiles w);
  inv_chain : chain sha256 None (wBucket w);
  inv_stands : ∀ h, last (wBucket w) = Some h → ∃ done rest, stands (wFiles w) h done rest ∧
    wBefore w ++ flat_map Records (wBucket w) = wGone w ++ done }.

Lemma stands_app files h done rest f : stands files h done rest → stands (files ++ [f]) h done (rest ++ file_lines f).
Proof.
  intros (pre & g & post & P & R & -> & H1 & H2 & H3 & H4 & -> & ->). exists pre, g, (post ++ [f]), P, R.
  rewrite flat_map_app. cbn [flat_map]. rewrite app_nil_r, <- !app_assoc. done.
Qed.

Lemma stands_write pre f g text h done rest :
  lInode g = lInode f → lContent g = lContent f +:+ text →
  stands (pre ++ [f]) h done rest → ∃ rest', stands (pre ++ [g]) h done rest'.
Proof.
  intros Hi Hc (pre' & f' & post & P & R & Hfs & H1 & H2 & H3 & H4 & -> & ->).
  destruct post as [|x post _] using rev_ind.
  - apply app_inj_tail in Hfs as [-> ->]. exists (lines_of (R +:+ text) ++ flat_map file_lines []).
    exists pre', g, [], P, (R +:+ text). split_and!; try done; [by rewrite Hi|by rewrite Hc, H2, append_assoc].
  - rewrite app_comm_cons, app_assoc in Hfs. apply app_inj_tail in Hfs as [-> ->]. eexists.
    exists pre', f', (post ++ [g]), P, R. split_and!; try done. by rewrite <- app_assoc.
Qed.

Lemma stored_id s : utf8 (FirstTS s) → utf8 (LastTS s) → Forall utf8 (Records s) → stored s = s.
Proof.
  unfold stored, utf8. destruct s; cbn. intros -> -> Hr. f_equal. induction Hr as [|r l Hr _ IH]; [done|]. cbn. by rewrite Hr, IH.
Qed.

(** What lands reads back as it was. *)
Lemma landed_id prev L files rest :
  adds prev L (flat_map Records L) → Forall (λ f, Forall utf8 (file_lines f)) files →
  flat_map Records L ++ rest ⊆ flat_map file_lines files → map stored L = L.
Proof.
  intros [_ _ Ht] Hf Hsub. assert (Hr : Forall utf8 (flat_map Records L)).
  { apply Forall_forall. intros x Hx. assert (Hin : x ∈ flat_map file_lines files) by (apply Hsub, elem_of_app; by left).
    apply list_elem_of_In, in_flat_map in Hin as (f & Hfin%list_elem_of_In & Hin%list_elem_of_In).
    rewrite Forall_forall in Hf. specialize (Hf f Hfin). rewrite Forall_forall in Hf. by apply Hf. }
  clear Hsub. induction L as [|s L IH]; [done|]. cbn [flat_map map] in *. apply Forall_app in Hr as [Hr1 Hr2].
  apply Forall_cons_1 in Ht as [(a & b & Ha & Hb) Ht]. rewrite IH by done. f_equal.
  apply stored_id; [rewrite Ha|rewrite Hb|done]; apply tsOf_utf8.
Qed.

(** What is on the log after the newest segment, once one is stored. *)
Definition shipped_all (w : world) : Prop :=
  wBucket w ≠ [] → wBefore w ++ flat_map Records (wBucket w) = wGone w ++ flat_map file_lines (wFiles w).

Lemma run_first w puts rot cur :
  inv w → wBucket w = [] → wFiles w = rot ++ [cur] → Forall (λ f, Forall utf8 (file_lines f)) (wFiles w) →
  ∃ st e, shipRun sha256 tsOf maxBytes hardMax puts cur rot None = (st, e, None) ∧ e ≠ Running ∧
    inv (after_run rot (rLanded st) w) ∧ (e = Finished → shipped_all (after_run rot (rLanded st) w)).
Proof.
  intros [Hwf Hc Hs] Hb Hf Hu. destruct (shipRun_starts puts rot cur) as (st & e & Hrun & L & H1 & H2 & H3 & H4 & H5).
  exists st, e. split; [done|]. split; [done|]. cbn [rLanded rPrev app] in *. rewrite H1.
  assert (Hid : map stored L = L).
  { assert (Hsub : ∃ rest, flat_map Records L ++ rest = file_lines cur).
    { destruct (last L) as [s|] eqn:E; [destruct (H5 s eq_refl) as (_ & r & _ & Hr); by exists r|].
      apply last_None in E as ->. by exists (file_lines cur). }
    destruct Hsub as [rest Hrest]. eapply (landed_id _ _ (wFiles w) rest); [done..|].
    rewrite Hrest, Hf, flat_map_app. cbn [flat_map]. set_solver. }
  unfold after_run, shipped_all. rewrite Hid, Hb. cbn [app wBucket wFiles wBefore wGone]. split; [split|].
  - done.
  - apply (adds_chain _ _ _ H2).
  - cbn. intros h Hh. destruct (H5 h Hh) as (d & r & Hd & Hr). exists (flat_map file_lines rot ++ d), r. split.
    + rewrite Hf. clear -Hd. induction rot as [|g rot IH]; [done|]. cbn [app flat_map]. rewrite <- app_assoc. by apply stands_cons.
    + apply stands_split in Hd. cbn [flat_map] in Hd. rewrite app_nil_r, <- Hr in Hd. apply app_inv_tail in Hd.
      by rewrite Hd, <- app_assoc.
  - intros He _. rewrite (H4 He), Hf, flat_map_app. cbn [flat_map]. by rewrite app_nil_r, <- app_assoc.
Qed.

Lemma run_next w puts rot cur h :
  inv w → last (wBucket w) = Some h → wFiles w = rot ++ [cur] → recognised rot h →
  Forall (λ f, Forall utf8 (file_lines f)) (wFiles w) →
  ∃ st e, shipRun sha256 tsOf maxBytes hardMax puts cur rot (Some h) = (st, e, None) ∧ e ≠ Running ∧
    inv (after_run rot (rLanded st) w) ∧ (e = Finished → shipped_all (after_run rot (rLanded st) w)).
Proof.
  intros [Hwf Hc Hs] Hb Hf Hrec Hu. destruct (Hs h Hb) as (done & rest & Hst & Heq). rewrite Hf in Hst, Hwf.
  destruct (shipRun_resumes puts rot cur h done rest Hwf Hst Hrec) as (st & e & Hrun & L & H1 & H2 & H3 & H4 & H5).
  exists st, e. split; [done|]. split; [done|]. cbn [rLanded rPrev app] in *. rewrite H1. pose proof (stands_split _ _ _ _ Hst) as Hsplit.
  assert (Hid : map stored L = L).
  { assert (Hsub : ∃ r, flat_map Records L ++ r = rest).
    { destruct (last L) as [s|] eqn:E; [destruct (H5 s eq_refl) as (_ & r & _ & Hr); by exists r|].
      apply last_None in E as ->. by exists rest. }
    destruct Hsub as [r Hr]. eapply (landed_id _ _ (wFiles w) r); [done..|]. rewrite Hr, Hf, Hsplit. set_solver. }
  unfold after_run, shipped_all. rewrite Hid. destruct (wBucket w) as [|s0 B] eqn:EB; [done|]. rewrite <- EB in *.
  cbn [wBucket wFiles wBefore wGone]. split; [split|]; cbn [wBucket wFiles wBefore wGone].
  - by rewrite Hf.
  - apply chain_app. split; [done|]. rewrite Hb. apply (adds_chain _ _ _ H2).
  - intros t Ht. rewrite last_app in Ht. rewrite flat_map_app. destruct (last L) as [u|] eqn:EL.
    + injection Ht as <-. destruct (H5 u eq_refl) as (d & r & Hd & Hr). exists d, r. split; [by rewrite Hf|].
      apply stands_split in Hd. rewrite Hsplit, <- Hr, app_assoc in Hd. apply app_inv_tail in Hd.
      by rewrite <- Hd, !app_assoc, Heq.
    + apply last_None in EL as ->. cbn [flat_map]. rewrite app_nil_r. rewrite Hb in Ht. injection Ht as <-. exists done, rest. by rewrite Hf.
  - intros He _. by rewrite flat_map_app, (H4 He), Hf, Hsplit, !app_assoc, Heq.
Qed.

Lemma step_run_inv w puts rot cur st e note :
  inv w → wFiles w = rot ++ [cur] → (∀ h, last (wBucket w) = Some h → recognised rot h) →
  Forall (λ f, Forall utf8 (file_lines f)) (wFiles w) →
  shipRun sha256 tsOf maxBytes hardMax puts cur rot (last (wBucket w)) = (st, e, note) →
  note = None ∧ e ≠ Running ∧ inv (after_run rot (rLanded st) w) ∧
  (e = Finished → shipped_all (after_run rot (rLanded st) w)).
Proof.
  intros Hi Hf Hrec Hu Hrun. destruct (last (wBucket w)) as [h|] eqn:E.
  - destruct (run_next w puts rot cur h Hi E Hf (Hrec h eq_refl) Hu) as (st' & e' & Hrun' & ?). rewrite Hrun in Hrun'. by simplify_eq.
  - apply last_None in E. destruct (run_first w puts rot cur Hi E Hf Hu) as (st' & e' & Hrun' & ?). rewrite Hrun in Hrun'. by simplify_eq.
Qed.

Lemma step_inv w w' : inv w → step w w' → inv w'.
Proof.
  intros Hi Hstep. pose proof Hi as [[Hnd Heach] Hc Hs]. destruct Hstep as [pre f g text Hf Hin Hco Hsz|f Hco Hsz Hz Hfresh|f files Hf Hne Hh|puts rot cur st e note Hf Hrec Hu Hrun].
  - split; cbn [set_files wFiles wBucket wBefore wGone]; [|done|].
    + rewrite Hf in Hnd, Heach. apply Forall_app in Heach as [He [[Hz Hs1] _]%Forall_cons_1]. split.
      * rewrite map_app in *. cbn [map] in *. by rewrite Hin.
      * apply Forall_app. split; [done|]. constructor; [|done]. by rewrite Hin.
    + intros h Hl. destruct (Hs h Hl) as (d & r & Hd & Heq). rewrite Hf in Hd.
      destruct (stands_write pre f g text h d r Hin Hco Hd) as [r' Hd']. by exists d, r'.
  - split; cbn [set_files wFiles wBucket wBefore wGone]; [|done|].
    + split.
      * rewrite map_app. apply NoDup_app. split; [done|]. split; [|apply NoDup_singleton]. intros x Hx ->%list_elem_of_singleton. done.
      * apply Forall_app. split; [done|]. constructor; [|done]. by rewrite Hco, Hsz.
    + intros h Hl. destruct (Hs h Hl) as (d & r & Hd & Heq). exists d, (r ++ file_lines f). split; [by apply stands_app|done].
  - rewrite Hf in Hnd, Heach. cbn [map] in Hnd. apply NoDup_cons in Hnd as [_ Hnd]. apply Forall_cons_1 in Heach as [_ Heach].
    split; cbn [wFiles wBucket wBefore wGone]; [by split|done|].
    intros h Hl. destruct (Hs h Hl) as (d & r & Hd & Heq). specialize (Hh h Hl). rewrite Hf in Hd.
    destruct Hd as (pre & g & post & P & R & Hfs & Hi' & H2 & H3 & H4 & -> & ->). destruct pre as [|x pre]; injection Hfs as -> ->; [done|].
    eexists _, _. split; [exists pre, g, post, P, R; done|]. cbn [flat_map] in Heq. by rewrite Heq, <- !app_assoc.
  - by apply (step_run_inv w puts rot cur st e note).
Qed.

Lemma reach_inv w : reach w → inv w.
Proof.
  induction 1 as [f Hf|w w' _ IH Hs]; [|by eapply step_inv]. split; [done|done|]. by intros h.
Qed.

(** C8: over any sequence of writes to the log, rotations, removals of backups the chain is past, and runs
    that end anywhere, the bucket holds a chain that verifies, whose records are, once each and in order, the
    complete lines of the log from where the chain started to its newest segment. *)
Theorem shipped_once w (Hw : reach w) :
  vOK (Result (foldl (Push sha256) zero (wBucket w))) = true ∧
  (wBucket w ≠ [] → ∃ pending, wBefore w ++ flat_map Records (wBucket w) ++ pending = wGone w ++ flat_map file_lines (wFiles w)).
Proof.
  destruct (reach_inv w Hw) as [_ Hc Hs]. split.
  - destruct (pushes_spec sha256 zero (wBucket w) eq_refl eq_refl) as (H1 & H2 & _). rewrite Result_OK by done.
    apply negb_true_iff. by apply H1.
  - intros Hne. destruct (last (wBucket w)) as [h|] eqn:E; [|by apply last_None in E].
    destruct (Hs h eq_refl) as (d & r & Hd & Heq). exists r. apply stands_split in Hd. by rewrite app_assoc, Heq, Hd, app_assoc.
Qed.

(** every run ends, none misses records, and a run that is not stopped by a failed read or put leaves
    every complete line of the log in the bucket. *)
Theorem run_catches_up w puts rot cur st e note
    (Hw : reach w) (Hfiles : wFiles w = rot ++ [cur])
    (Hrec : ∀ h, last (wBucket w) = Some h → recognised rot h)
    (Hutf8 : Forall (λ f, Forall utf8 (file_lines f)) (wFiles w))
    (Hrun : shipRun sha256 tsOf maxBytes hardMax puts cur rot (last (wBucket w)) = (st, e, note)) :
  note = None ∧ e ≠ Running ∧ (e = Finished → shipped_all (after_run rot (rLanded st) w)).
Proof.
  destruct (step_run_inv w puts rot cur st e note (reach_inv w Hw) Hfiles Hrec Hutf8 Hrun) as (? & ? & _ & ?). done.
Qed.
End Shipped.

(** ** The chain's file recognised among the backups *)

Lemma TrimRight_blank x b : forall_char is_trimmed b = true → TrimRight (x +:+ b) = TrimRight x.
Proof.
  intros Hb. assert (Hn : TrimRight b = "").
  { induction b as [|c b IH]; [done|]. cbn in Hb |- *. apply andb_true_iff in Hb as [Hc Hb]. by rewrite IH, Hc. }
  induction x as [|c x IH]; [done|]. cbn [String.append TrimRight]. by rewrite IH.
Qed.

Lemma TrimRight_app a r : TrimRight r ≠ "" → TrimRight (a +:+ r) = a +:+ TrimRight r.
Proof.
  intros Hr. induction a as [|c a IH]; [done|]. cbn [String.append TrimRight]. rewrite IH.
  destruct (a +:+ TrimRight r) eqn:E; [|done]. destruct a; [cbn in E; congruence|done].
Qed.

(** A backup ends the head's last record at the offset, where at most 4096 bytes of spaces, tabs and line
    ends follow the record. *)
Lemma endsAtRecord_recognises lf A rec B R :
  lContent lf = A +:+ rec +:+ B +:+ R → forall_char is_trimmed B = true → slen B ≤ 4096 → 0 < slen (A +:+ rec +:+ B) →
  endsAtRecord lf (slen (A +:+ rec +:+ B)) rec = true.
Proof.
  intros Hc HB Hl Hpos. unfold endsAtRecord. destruct (Z.leb_spec (slen (A +:+ rec +:+ B)) 0); [lia|].
  set (off := slen (A +:+ rec +:+ B)) in *. set (w := Z.min (slen rec + 4096) off).
  assert (Hoff : off = slen A + slen rec + slen B) by (unfold off; rewrite !slen_app; lia).
  pose proof (slen_nonneg A) as HA. pose proof (slen_nonneg rec). pose proof (slen_nonneg B).
  destruct (stake_sdrop (Z.to_nat (off - w)) A) as [Hsplit Hlen]; [unfold slen in *; lia|].
  set (A1 := stake (Z.to_nat (off - w)) A) in *. set (A2 := sdrop (Z.to_nat (off - w)) A) in *.
  assert (Hread : ReadAt (lContent lf) (off - w) w = A2 +:+ rec +:+ B).
  { rewrite Hc, Hsplit, append_assoc. replace (off - w) with (slen A1) by (unfold slen; rewrite Hlen; lia).
    rewrite ReadAt_app. replace (A2 +:+ rec +:+ B +:+ R) with ((A2 +:+ rec +:+ B) +:+ R) by by rewrite !append_assoc.
    replace (Z.to_nat w) with (String.length (A2 +:+ rec +:+ B)); [apply stake_append|].
    apply (f_equal String.length) in Hsplit. rewrite !length_append in *. unfold slen in *. lia. }
  rewrite Hread, <- append_assoc, TrimRight_blank by done. apply HasSuffix_spec.
  destruct (decide (TrimRight rec = "")) as [E|E].
  - rewrite E. exists (TrimRight (A2 +:+ rec)). by rewrite append_nil_r.
  - exists A2. by apply TrimRight_app.
Qed.

(** ** Where records are missed *)

(** A chain whose file is gone from the log is told of, unless the live log has its inode. *)
Lemma gone_is_told cur rot h :
  SourceInode h ≠ 0 → SourceInode h ≠ lInode cur → Forall (λ f, lInode f ≠ SourceInode h) rot →
  (planSources cur rot (Some h)).2 = Some (Gone (SourceInode h) (EndOffset h) (LastTS h)).
Proof.
  intros H0 H1 Hall. unfold planSources. destruct (Z.eqb_spec (SourceInode h) 0); [done|].
  destruct (Z.eqb_spec (SourceInode h) (lInode cur)); [done|]. cbn [orb].
  assert (Hn : resume_at h (last_record h) rot = None); [|by rewrite Hn].
  induction Hall as [|f rot Hf _ IH]; [done|]. cbn [resume_at]. by destruct (Z.eqb_spec (lInode f) (SourceInode h)).
Qed.

(** The live log is taken for the chain's file by its inode alone: a new log that reuses the inode of the
    deleted one, and has grown past the offset, is read from the middle, and nothing is told. *)
Lemma live_inode_reused cur rot h :
  SourceInode h = lInode cur → EndOffset h ≤ lSize cur →
  planSources cur rot (Some h) = ([mkSource cur (EndOffset h)], None).
Proof.
  intros Hi Hle. unfold planSources. rewrite Hi, Z.eqb_refl, orb_true_r. by destruct (Z.ltb_spec (lSize cur) (EndOffset h)); [lia|].
Qed.

(** A record that is not valid UTF-8 is hashed as it is and stored as encoding/json writes it: the segment
    does not verify when it is read back. *)
Lemma invalid_utf8_breaks sha rs f t :
  HashRecords sha (map json_string rs) ≠ HashRecords sha rs →
  vOK (Verify sha [stored (BuildSegment sha None rs f t)]) = false.
Proof.
  intros Hne. destruct (Verify_chain sha [stored (BuildSegment sha None rs f t)]) as [[H _] _].
  destruct (vOK _) eqn:E; [|done]. destruct (H eq_refl) as ((Hr & _) & _). cbn in Hr. by rewrite Hr in Hne.
Qed.

(** ** An instance *)

Definition ex_ts (_ : string) : string := "12:00".
Definition ex_lf (name : string) (lines : list string) (inode mtime : Z) : logFile :=
  let c := String.concat "" (map (λ l, l +:+ nl) lines) in mkLog name c inode (slen c) mtime.
Definition ex_log1 := ex_lf "audit.log" ["login alice"; "create pod"] 7 100.
Definition ex_log1' := ex_lf "audit.log" ["login alice"; "create pod"; ""; "delete pod"] 7 200.
Definition ex_log2 := ex_lf "audit.log" [] 8 200.
Definition ex_log2' := ex_lf "audit.log" ["logout"] 8 300.
Definition ex_go (puts : nat → put_result) cur rot head := shipRun toy ex_ts 16 64 puts cur rot head.

(** A first run, whose second put dies; the log grows and is rotated; the next run takes up both files. *)
Definition ex_half (n : nat) : put_result := match n with O => Stored | _ => Lost end.
Definition ex_all (_ : nat) : put_result := Stored.
Definition ex_w0 := mkWorld [ex_log1] [] [] [].
Definition ex_w1 := after_run [] (rLanded (ex_go ex_half ex_log1 [] None).1.1) ex_w0.
Definition ex_w2 := set_files [ex_log1'] ex_w1.
Definition ex_w3 := set_files [ex_log1'; ex_log2] ex_w2.
Definition ex_w4 := set_files [ex_log1'; ex_log2'] ex_w3.
Definition ex_run4 := ex_go ex_all ex_log2' [ex_log1'] (last (wBucket ex_w4)).

Definition utf8_all (fs : list logFile) : bool := forallb (λ f, forallb (λ l, String.eqb (json_string l) l) (file_lines f)) fs.
Lemma utf8_all_spec fs : utf8_all fs = true → Forall (λ f, Forall utf8 (file_lines f)) fs.
Proof.
  intros H. apply Forall_forall. intros f Hf%list_elem_of_In. apply Forall_forall. intros l Hl%list_elem_of_In.
  unfold utf8_all in H. rewrite forallb_forall in H. specialize (H f Hf). rewrite forallb_forall in H.
  by apply String.eqb_eq, H.
Qed.

Definition recognised_test (rot : list logFile) (h : Segment) : bool :=
  forallb (λ f, negb (lInode f =? SourceInode h) ||
                (negb (String.eqb (last_record h) "") && endsAtRecord f (EndOffset h) (last_record h))) rot.
Lemma recognised_test_spec rot h : recognised_test rot h = true → recognised rot h.
Proof.
  intros H. apply Forall_forall. intros f Hf%list_elem_of_In Hi. unfold recognised_test in H. rewrite forallb_forall in H.
  specialize (H f Hf). rewrite Hi, Z.eqb_refl in H. cbn [negb orb] in H. bool_to_prop. done.
Qed.

Lemma reach_ex : reach toy ex_ts 16 64 ex_w4.
Proof.
  apply reach_step with ex_w3. 2:{ apply (step_write _ _ _ _ _ [ex_log1'] ex_log2 ex_log2' ("logout" +:+ nl)); done. }
  apply reach_step with ex_w2. 2:{ apply (step_rotate _ _ _ _ ex_w2 ex_log2); [done..|]. vm_compute. set_solver. }
  apply reach_step with ex_w1. 2:{ apply (step_write _ _ _ _ _ [] ex_log1 ex_log1' (nl +:+ "delete pod" +:+ nl)); done. }
  apply reach_step with ex_w0.
  - apply reach_start. split; [apply NoDup_singleton|]. repeat constructor. discriminate.
  - apply (step_run _ _ _ _ ex_w0 ex_half [] ex_log1 _ (ex_go ex_half ex_log1 [] None).1.2 (ex_go ex_half ex_log1 [] None).2); [done|done| |].
    + apply utf8_all_spec. vm_compute. reflexivity.
    + change (last (wBucket ex_w0)) with (@None Segment). fold (ex_go ex_half ex_log1 [] None). by destruct (ex_go ex_half ex_log1 [] None) as [[? ?] ?].
Qed.

Lemma shipped_once_witness :
  vOK (Result (foldl (Push toy) zero (wBucket ex_w4))) = true ∧ flat_map Records (wBucket ex_w4) = ["login alice"] ∧
  ∃ pending, flat_map Records (wBucket ex_w4) ++ pending = ["login alice"; "create pod"; "delete pod"; "logout"].
Proof.
  destruct (shipped_once toy ex_ts 16 64 ltac:(done) ltac:(done) ltac:(done) ex_w4 reach_ex) as [H1 H2].
  split; [exact H1|]. split; [vm_compute; reflexivity|]. destruct H2 as [p Hp]; [vm_compute; discriminate|].
  exists p. exact Hp.
Defined.

Lemma run_catches_up_witness :
  ex_run4.1.2 = Finished ∧ shipped_all (after_run [ex_log1'] (rLanded ex_run4.1.1) ex_w4) ∧
  flat_map Records (wBucket (after_run [ex_log1'] (rLanded ex_run4.1.1) ex_w4)) = ["login alice"; "create pod"; "delete pod"; "logout"].
Proof.
  assert (He : ex_run4.1.2 = Finished) by (vm_compute; reflexivity). split; [exact He|]. split; [|vm_compute; reflexivity].
  refine (proj2 (proj2 (run_catches_up toy ex_ts 16 64 ltac:(done) ltac:(done) ltac:(done) ex_w4 ex_all [ex_log1'] ex_log2' ex_run4.1.1 ex_run4.1.2 ex_run4.2 reach_ex _ _ _ _)) He).
  - reflexivity.
  - intros h Hh. apply recognised_test_spec. revert h Hh. apply (λ H, H). intros h Hh. vm_compute in Hh. injection Hh as <-. vm_compute. reflexivity.
  - apply utf8_all_spec. vm_compute. reflexivity.
  - unfold ex_run4, ex_go. by destruct (shipRun _ _ _ _ _ _ _ _) as [[? ?] ?].
Defined.

Example gather_ex :
  let cur := mkLog "audit.log" "" 3 0 0 in
  let e n i := mkEntry n true (Some (mkLog n "" i 0 0)) in
  gatherLogs "/var/log/audit.log" (Some cur)
    (Some [e "audit-2026-02.log" 2; e "audit.log" 3; e "audit-2026-01.log" 1; e "audit-2026-03.log" 3; e "other.log" 9;
           mkEntry "audit-2026-00.log" true None]) =
  Ok (cur, [mkLog "audit-2026-01.log" "" 1 0 0; mkLog "audit-2026-02.log" "" 2 0 0]).
Proof. vm_compute. reflexivity. Qed.

(** A blank line, a record longer than a segment, and an unfinished last line. *)
Example readSegment_ex :
  let t := "ab" +:+ nl +:+ "   " +:+ nl +:+ "a long record" +:+ nl +:+ "unfin" in
  map (λ off, readSegment t off 4 64) [0; 3; 7; 21] =
  [Some (Ok (["ab"], 3)); Some (Ok ([], 4)); Some (Ok (["a long record"], 14)); Some (Ok ([], 0))] ∧
  readSegment t 7 4 8 = Some (Err (TooLong 8 7)).
Proof. vm_compute. done. Qed.
