(* ===== verification/AuditVerify.v ===== *)
(** * Verifying the audit bucket (cmd/audit-offsite, verify)

    The bucket keeps every version of a segment's object; the oldest real one is the locked original.  Here
    are the choice of the segment a run resumes from, a verification pass over the originals with what counts
    as tampering and what as disposal after retention, the comparison with the anchored head, and the
    rotating sweep over the locked prefix. *)

From stdpp Require Import sorting.
From S2P Require Import Prelude GoStrings AuditChain.
#[local] Open Scope string_scope.
#[local] Open Scope Z_scope.
#[local] Open Scope list_scope.

(** ** Objects and keys *)

Record ObjectInfo := mkObject { oVersionID : string; oLastModified : Z; oIsDeleteMarker : bool }.

(** A listing with versions, by key. *)
Definition listing : Type := gmap string (list ObjectInfo).

Definition by_modified (a b : ObjectInfo) : Prop := oLastModified a ≤ oLastModified b.
#[global] Instance by_modified_dec : RelDecision by_modified.
Proof. intros a b. unfold by_modified. apply _. Defined.

Definition oldestReal (versions : list ObjectInfo) : option ObjectInfo :=
  head (filter (λ v, oIsDeleteMarker v = false) (merge_sort by_modified versions)).

Definition segmentPrefix : string := "segments/".
Definition jsonSuffix : string := ".json".
Definition seqFromKey (key : string) : option Z :=
  if negb (HasPrefix key segmentPrefix) || negb (HasSuffix key jsonSuffix) then None
  else ParseInt (TrimSuffix (TrimPrefix key segmentPrefix) jsonSuffix).

(** [%012d] of a sequence number. *)
Fixpoint zeros (n : nat) : string := match n with O => "" | S n => String "0" (zeros n) end.
Definition pad12 (n : Z) : string :=
  let d := FormatInt (Z.abs n) in
  let sign := if n <? 0 then "-" else "" in
  sign +:+ zeros (12 - String.length d - String.length sign) +:+ d.
Definition segmentKey (seq : Z) : string := segmentPrefix +:+ pad12 seq +:+ jsonSuffix.

(** The keys of a listing, sorted. *)
Definition keys_of (perKey : listing) : list string := merge_sort string_le (map fst (map_to_list perKey)).

Definition versions_at (perKey : listing) (key : string) : list ObjectInfo := default [] (perKey !! key).

(** ** The head a run resumes from *)

Inductive head_error := AllDisposed (highest : string) | NewestGone (best highest : string).

Definition string_lt (a b : string) : bool := String.ltb a b.
Definition head_scan (perKey : listing) (keys : list string) : string * string :=
  foldl (λ '(best, highest) key,
    match seqFromKey key with
    | None => (best, highest)
    | Some _ =>
        (if bool_decide (is_Some (oldestReal (versions_at perKey key))) && string_lt best key then key else best,
         if string_lt highest key then key else highest)
    end) ("", "") keys.

Definition chainHeadKey (perKey : listing) : res head_error string :=
  let '(best, highest) := head_scan perKey (keys_of perKey) in
  if String.eqb highest "" then Ok ""
  else if String.eqb best "" then Err (AllDisposed highest)
  else if negb (String.eqb highest best) then Err (NewestGone best highest)
  else Ok best.

(** ** A verification pass *)

(** What verification reads from the store; the listings are taken one after another. *)
Record segStore := mkStore {
  listVersions : nat → option listing;
  getVersion : string → string → option string;
  retainUntil : string → string → option Z }.

Inductive verify_error :=
| CannotList_ (round : nat)
| CannotGet (key version : string)
| CannotParse (key : string)
| NilOriginal (key : string).   (** the dereference of a nil original, which panics *)

Definition lockSkew : Z := 3600 * 1000000000.

(** What a pass has seen: the verifier, the heads pushed, the shadowing attempts and the disposal markers. *)
Record tally := mkTally { tSv : StreamVerifier; tHeads : list (Z * string); tShadow : Z; tDisposal : Z }.
Definition add_shadow (n : Z) (t : tally) : tally := mkTally (tSv t) (tHeads t) (tShadow t + n) (tDisposal t).
Definition add_disposal (n : Z) (t : tally) : tally := mkTally (tSv t) (tHeads t) (tShadow t) (tDisposal t + n).

Inductive note := PastNewest (anchor newest : Z) | NoOriginal (anchor : Z) | OtherHash (anchor : Z).

Record verifyOutcome := mkOutcome {
  voRes : VerifyResult;
  voHeads : list (Z * string);
  voShadow : Z;
  voDisposed : Z;
  voDisposalMarkers : Z;
  voRetainedFrom : Z;
  voMaxReal : Z;
  voAnchorNote : option note;
  voPerKey : listing }.

Definition countMarkers (versions : list ObjectInfo) : Z := len (filter (λ v, oIsDeleteMarker v = true) versions).

(** Seq to key, for the segments whose original exists, and the newest of them (-1: none). *)
Definition present_of (perKey : listing) (keys : list string) : gmap Z string * Z :=
  foldl (λ '(present, maxReal) k,
    match seqFromKey k, oldestReal (versions_at perKey k) with
    | Some seq, Some _ => (<[seq := k]> present, if maxReal <? seq then seq else maxReal)
    | _, _ => (present, maxReal)
    end) (∅, -1) keys.

Section Pass.
Context (sha256 : string → string).
(** encoding/json's decoding of a segment. *)
Context (decode : string → option Segment).
Context (st : segStore) (now retention : Z).

Definition lapsedBy (key : string) (v : ObjectInfo) (t : Z) : bool :=
  let until := default (oLastModified v + retention) (retainUntil st key (oVersionID v)) in
  until <=? t + lockSkew.

Definition classifyMarkers (key : string) (versions : list ObjectInfo) (orig : ObjectInfo) (t : tally) : tally :=
  foldl (λ t v,
    if negb (oIsDeleteMarker v) then t
    else if lapsedBy key orig (oLastModified v) then add_disposal 1 t
    else add_shadow 1 t) t versions.

(** The versions laid over an original whose content differs from it. *)
Fixpoint count_overlaid (key : string) (orig : ObjectInfo) (data : string) (versions : list ObjectInfo) (t : tally) : res verify_error tally :=
  match versions with
  | [] => Ok t
  | v :: versions =>
      if oIsDeleteMarker v || String.eqb (oVersionID v) (oVersionID orig) then count_overlaid key orig data versions t
      else
        match getVersion st key (oVersionID v) with
        | None => Err (CannotGet key (oVersionID v))
        | Some d => count_overlaid key orig data versions (if String.eqb d data then t else add_shadow 1 t)
        end
  end.

Definition pushSegment (key : string) (versions : list ObjectInfo) (orig : ObjectInfo) (t : tally) : res verify_error tally :=
  match getVersion st key (oVersionID orig) with
  | None => Err (CannotGet key (oVersionID orig))
  | Some data =>
      match decode data with
      | None => Err (CannotParse key)
      | Some s =>
          count_overlaid key orig data versions
            (mkTally (Push sha256 (tSv t) s) (tHeads t ++ [link_of s]) (tShadow t) (tDisposal t))
      end
  end.

(** From the newest segment down, the first missing one: what is retained starts after it, and it is a gap
    if the segment after it is still locked. *)
Fixpoint gap_scan (perKey : listing) (present : gmap Z string) (n : nat) : Z * option Z :=
  match n with
  | O => (0, None)
  | S n =>
      let seq := Z.of_nat n in
      match present !! seq with
      | Some _ => gap_scan perKey present n
      | None =>
          let next := default "" (present !! (seq + 1)) in
          let lapsed := match oldestReal (versions_at perKey next) with Some v => lapsedBy next v now | None => true end in
          (seq + 1, if lapsed then None else Some seq)
      end
  end.

(** The markers and shadowed originals of the listing. *)
Definition classify (perKey : listing) (retainedFrom : Z) (gap : option Z) (keys : list string) (t : tally) : tally :=
  foldl (λ t key,
    match seqFromKey key with
    | None => t
    | Some seq =>
        let versions := versions_at perKey key in
        match oldestReal versions with
        | None =>
            if (seq <? retainedFrom) && bool_decide (gap = None) then add_disposal (countMarkers versions) t
            else add_shadow 1 t
        | Some orig => classifyMarkers key versions orig t
        end
    end) t keys.

(** Whether the anchor stands for the prefix. *)
Definition trust_anchor (perKey : listing) (present : gmap Z string) (retainedFrom maxReal : Z) (anchor : option (Z * string)) :
    res verify_error (bool * option note) :=
  match anchor with
  | None => Ok (false, None)
  | Some (seq, hash) =>
      if seq <? retainedFrom then Ok (false, None)
      else if maxReal <? seq then Ok (false, Some (PastNewest seq maxReal))
      else
        match present !! seq with
        | None => Ok (false, Some (NoOriginal seq))
        | Some key =>
            match oldestReal (versions_at perKey key) with
            | None => Ok (false, Some (NoOriginal seq))
            | Some orig =>
                match getVersion st key (oVersionID orig) with
                | None => Err (CannotGet key (oVersionID orig))
                | Some data =>
                    match decode data with
                    | Some s => if (Seq s =? seq) && String.eqb (Hash s) hash then Ok (true, None) else Ok (false, Some (OtherHash seq))
                    | None => Ok (false, Some (OtherHash seq))
                    end
                end
            end
        end
  end.

(** The retained chain, from its originals; the anchored prefix is not read again, but an extra version on
    it is counted. *)
Definition push_key (perKey : listing) (retainedFrom maxReal verifiedSeq : Z) (key : string) (t : tally) : res verify_error tally :=
  match seqFromKey key with
  | None => Ok t
  | Some seq =>
      if (seq <? retainedFrom) || (maxReal <? seq) then Ok t
      else
        let versions := versions_at perKey key in
        if seq <=? verifiedSeq then
          let n := len versions - countMarkers versions in
          Ok (if 1 <? n then add_shadow (n - 1) t else t)
        else
          match oldestReal versions with
          | Some orig => pushSegment key versions orig t
          | None => Err (NilOriginal key)
          end
  end.
Fixpoint push_keys (perKey : listing) (retainedFrom maxReal verifiedSeq : Z) (keys : list string) (t : tally) : res verify_error tally :=
  match keys with
  | [] => Ok t
  | key :: keys => t ← push_key perKey retainedFrom maxReal verifiedSeq key t; push_keys perKey retainedFrom maxReal verifiedSeq keys t
  end.

(** The segments that arrived since: one round of the catch-up, and its eight. *)
Definition new_keys (fresh : listing) (curHead maxReal : Z) : list string :=
  filter (λ k, match seqFromKey k with Some seq => (curHead <? seq) && (maxReal <? seq) | None => false end = true) (keys_of fresh).
Fixpoint push_new (fresh perKey : listing) (keys : list string) (t : tally) : res verify_error (tally * listing) :=
  match keys with
  | [] => Ok (t, perKey)
  | key :: keys =>
      let versions := versions_at fresh key in
      match oldestReal versions with
      | None => push_new fresh perKey keys (add_shadow 1 t)
      | Some orig =>
          t ← pushSegment key versions orig (classifyMarkers key versions orig t);
          push_new fresh (<[key := versions]> perKey) keys t
      end
  end.
Definition newest (keys : list string) (maxReal : Z) : Z :=
  match last keys ≫= seqFromKey with Some seq => Z.max maxReal seq | None => maxReal end.
Fixpoint catch_up (rounds round : nat) (perKey : listing) (maxReal : Z) (t : tally) : res verify_error (tally * listing * Z) :=
  match rounds with
  | O => Ok (t, perKey, maxReal)
  | S rounds =>
      match listVersions st round with
      | None => Err (CannotList_ round)
      | Some fresh =>
          match new_keys fresh (vHeadSeq (Result (tSv t))) maxReal with
          | [] => Ok (t, perKey, maxReal)
          | keys =>
              '(t, perKey) ← push_new fresh perKey keys t;
              catch_up rounds (S round) perKey (newest keys maxReal) t
          end
      end
  end.

Definition gap_reason_ (gap : Z) : string :=
  "segment " +:+ FormatInt gap +:+ " is missing while segment " +:+ FormatInt (gap + 1) +:+
  " after it is still under retention: a gap in the retained chain (removed, not disposed)".
Definition shadow_reason (n : Z) : string :=
  FormatInt n +:+ " object-lock shadowing attempt(s) detected (overwrite/delete-marker on locked segments)".
Definition conclude (gap : option Z) (shadow : Z) (r : VerifyResult) : VerifyResult :=
  match gap with
  | Some g => mkResult false (vCount r) (vBaseSeq r) (vHeadSeq r) (vHeadHash r) (vRecords r) (Some g) (gap_reason_ g)
  | None =>
      if (0 <? shadow) && vOK r
      then mkResult (vOK r) (vCount r) (vBaseSeq r) (vHeadSeq r) (vHeadHash r) (vRecords r) (vBrokenAt r) (shadow_reason shadow)
      else r
  end.

Definition verifySegments (anchor : option (Z * string)) : res verify_error verifyOutcome :=
  match listVersions st 0 with
  | None => Err (CannotList_ 0)
  | Some perKey =>
      let keys := keys_of perKey in
      let '(present, maxReal) := present_of perKey keys in
      let '(retainedFrom, gap) := gap_scan perKey present (Z.to_nat maxReal) in
      '(trusted, anchorNote) ← trust_anchor perKey present retainedFrom maxReal anchor;
      let '(sv, heads, verifiedSeq) :=
        match anchor with
        | Some (seq, hash) => if (trusted : bool) then (NewStreamVerifierFrom seq hash, [(seq, hash)], seq) else (zero, [], -1)
        | None => (zero, [], -1)
        end in
      let t := classify perKey retainedFrom gap keys (mkTally sv heads 0 0) in
      t ← push_keys perKey retainedFrom maxReal verifiedSeq keys t;
      '(t, perKey, maxReal) ← catch_up 8 1 perKey maxReal t;
      Ok (mkOutcome (conclude gap (tShadow t) (Result (tSv t))) (tHeads t) (tShadow t) retainedFrom (tDisposal t)
            retainedFrom maxReal anchorNote perKey)
  end.

(** ** The rotating sweep *)

Inductive sweep :=
| Nothing | Gap (seq : Z) | Shadowed (seq : Z) | ReadError (seq : Z) | ParseError (seq : Z)
| Broken (lo end_ : Z) (reason : string) | Swept (lo end_ next : Z).
Definition sweep_ok (s : sweep) : bool := match s with Nothing | Swept _ _ _ => true | _ => false end.

(** The re-derivation of [seq .. end]: the end it reached, and the next cursor if it stopped at a segment
    disposed meanwhile. *)
Fixpoint sweep_loop (n : nat) (perKey : listing) (seq end_ : Z) (sv : StreamVerifier) : (StreamVerifier * Z * option Z) + sweep :=
  match n with
  | O => inl (sv, end_, None)
  | S n =>
      let key := segmentKey seq in
      match perKey !! key with
      | None => inr (Gap seq)
      | Some versions =>
          match oldestReal versions with
          | None => inr (Shadowed seq)
          | Some orig =>
              match getVersion st key (oVersionID orig) with
              | None => if lapsedBy key orig now then inl (sv, seq - 1, Some (seq + 1)) else inr (ReadError seq)
              | Some data =>
                  match decode data with
                  | None => inr (ParseError seq)
                  | Some s => sweep_loop n perKey (seq + 1) end_ (Push sha256 sv s)
                  end
              end
          end
      end
  end.

(** The newest segment whose original is listed. *)
Definition listed (perKey : listing) : Z := (present_of perKey (keys_of perKey)).2.

Definition resweepWindow (perKey : listing) (base head cursor window : Z) : sweep * Z :=
  let head := Z.min head (listed perKey) in
  if bool_decide (perKey = ∅) || (head <? base) then (Nothing, -1)
  else
    let cursor := if (cursor <? base) || (head <? cursor) then base else cursor in
    let end_ := Z.min (cursor + window - 1) head in
    let lo := Z.max (cursor - 1) base in
    match sweep_loop (Z.to_nat (end_ - lo + 1)) perKey lo end_ zero with
    | inr failed => (failed, -1)
    | inl (sv, end_, next) =>
        let r := Result sv in
        if negb (vOK r) then (Broken lo end_ (vReason r), -1)
        else
          let next := default (end_ + 1) next in
          let next := if head <? next then base else next in
          (Swept lo end_ next, next)
    end.
End Pass.

(** ** The anchored head *)

Inductive anchor_status := New | AnchorOk | Regressed | Rewritten.
#[global] Instance anchor_status_eq_dec : EqDecision anchor_status.
Proof. solve_decision. Defined.

(** The hashes of the verified segments by Seq, and their least Seq. *)
Definition by_seq_map (segs : list (Z * string)) : gmap Z string * Z :=
  foldl (λ '(m, base) s, (<[s.1 := s.2]> m, if s.1 <? base then s.1 else base)) (∅, 2 ^ 30) segs.

Definition anchorVerdict (prior : option (Z * string)) (segs : list (Z * string)) (r : VerifyResult) : anchor_status :=
  match prior with
  | None => New
  | Some (headSeq, headHash) =>
      let '(hashBySeq, baseSeq) := by_seq_map segs in
      if vHeadSeq r <? headSeq then Regressed
      else if headSeq <? baseSeq then AnchorOk
      else if negb (String.eqb (default "" (hashBySeq !! headSeq)) "") && negb (String.eqb (default "" (hashBySeq !! headSeq)) headHash)
      then Rewritten
      else AnchorOk
  end.

(** The run's own verdict (statusReport.Intact), and the anchor it leaves. *)
Definition Intact (out : verifyOutcome) (status : anchor_status) (resweepOK : bool) : bool :=
  vOK (voRes out) && (voShadow out =? 0) && bool_decide (status = AnchorOk ∨ status = New) && resweepOK.
Definition next_anchor (prior : option (Z * string)) (status : anchor_status) (r : VerifyResult) : option (Z * string) :=
  if bool_decide (status = AnchorOk ∨ status = New) then Some (vHeadSeq r, vHeadHash r) else prior.

(** ** What a listing holds *)

Lemma present_of_spec perKey keys present maxReal :
  present_of perKey keys = (present, maxReal) →
  (∀ seq k, present !! seq = Some k → k ∈ keys ∧ seqFromKey k = Some seq ∧ is_Some (oldestReal (versions_at perKey k))) ∧
  (∀ seq, is_Some (present !! seq) → seq ≤ maxReal) ∧
  (0 ≤ maxReal → is_Some (present !! maxReal)) ∧ -1 ≤ maxReal ∧
  (∀ k seq, k ∈ keys → seqFromKey k = Some seq → is_Some (oldestReal (versions_at perKey k)) → is_Some (present !! seq)).
Proof.
  revert present maxReal. induction keys as [|k keys IH] using rev_ind; intros present maxReal.
  { intros [= <- <-]. split_and!; [done|by intros ? []|lia|lia|]. intros ?? ?%not_elem_of_nil. done. }
  unfold present_of. rewrite foldl_app. cbn [foldl]. fold (present_of perKey keys).
  destruct (present_of perKey keys) as [p m]. destruct (IH p m eq_refl) as (H1 & H2 & H3 & H4 & H5).
  destruct (seqFromKey k) as [seq|] eqn:Ek; [destruct (oldestReal (versions_at perKey k)) as [o|] eqn:Eo|].
  - intros [= <- <-]. assert (Hin : k ∈ keys ++ [k]) by (apply elem_of_app; right; by left). split_and!.
    + intros s k'. destruct (decide (s = seq)) as [->|]; [rewrite lookup_insert_eq; intros [= <-]; by rewrite Eo|].
      rewrite lookup_insert_ne by done. intros Hs. destruct (H1 s k' Hs) as (? & ? & ?). split; [apply elem_of_app; by left|done].
    + intros s. destruct (decide (s = seq)) as [->|]; [intros _|rewrite lookup_insert_ne by done; intros Hs; specialize (H2 s Hs)];
        destruct (Z.ltb_spec m seq); lia.
    + intros Hm. destruct (Z.ltb_spec m seq); [rewrite lookup_insert_eq; by eexists|].
      destruct (decide (m = seq)) as [->|]; [rewrite lookup_insert_eq; by eexists|]. rewrite lookup_insert_ne by done. by apply H3.
    + destruct (Z.ltb_spec m seq); lia.
    + intros k' s Hk' Hs Ho. destruct (decide (s = seq)) as [->|]; [rewrite lookup_insert_eq; by eexists|].
      rewrite lookup_insert_ne by done. apply elem_of_app in Hk' as [Hk'| ->%list_elem_of_singleton]; [by eapply H5|congruence].
  - intros [= <- <-]. split_and!; [|done..|].
    + intros s k' Hs. destruct (H1 s k' Hs) as (? & ? & ?). split; [apply elem_of_app; by left|done].
    + intros k' s Hk' Hs [o Ho]. apply elem_of_app in Hk' as [Hk'| ->%list_elem_of_singleton]; [by eapply H5|congruence].
  - intros [= <- <-]. split_and!; [|done..|].
    + intros s k' Hs. destruct (H1 s k' Hs) as (? & ? & ?). split; [apply elem_of_app; by left|done].
    + intros k' s Hk' Hs Ho. apply elem_of_app in Hk' as [Hk'| ->%list_elem_of_singleton]; [by eapply H5|congruence].
Qed.

Section Sound.
Context (sha256 : string → string) (decode : string → option Segment) (st : segStore) (now retention : Z).
Let lapsed := lapsedBy st retention.

(** The segment of a key's locked original. *)
Definition original (perKey : listing) (key : string) (s : Segment) : Prop :=
  ∃ orig data, oldestReal (versions_at perKey key) = Some orig ∧ getVersion st key (oVersionID orig) = Some data ∧
    decode data = Some s.
(** No version over the original has another content; no marker was laid while the original was locked. *)
Definition not_overlaid (perKey : listing) (key : string) : Prop :=
  ∀ orig, oldestReal (versions_at perKey key) = Some orig →
  ∀ v, v ∈ versions_at perKey key → oIsDeleteMarker v = false → getVersion st key (oVersionID v) = getVersion st key (oVersionID orig).
Definition not_hidden (perKey : listing) (key : string) : Prop :=
  ∀ orig, oldestReal (versions_at perKey key) = Some orig →
  ∀ v, v ∈ versions_at perKey key → oIsDeleteMarker v = true → lapsed key orig (oLastModified v) = true.

Lemma gap_scan_spec perKey present n retainedFrom gap :
  gap_scan st now retention perKey present n = (retainedFrom, gap) →
  0 ≤ retainedFrom ≤ Z.of_nat n ∧ (∀ s, retainedFrom ≤ s < Z.of_nat n → is_Some (present !! s)) ∧
  (0 < retainedFrom → present !! (retainedFrom - 1) = None ∧
     (gap = None → ∀ v, oldestReal (versions_at perKey (default "" (present !! retainedFrom))) = Some v →
        lapsed (default "" (present !! retainedFrom)) v now = true)).
Proof.
  induction n as [|n IH]; cbn [gap_scan].
  { intros [= <- <-]. split_and!; [lia..|]. lia. }
  destruct (present !! Z.of_nat n) as [k|] eqn:E.
  - intros H. destruct (IH H) as (H1 & H2 & H3). split; [lia|]. split; [|done]. intros s Hs.
    destruct (decide (s = Z.of_nat n)) as [->|]; [by eexists|]. apply H2. lia.
  - intros [= <- <-]. split; [lia|]. split; [lia|]. intros _. replace (Z.of_nat n + 1 - 1) with (Z.of_nat n) by lia.
    split; [done|]. intros Hg v Hv. rewrite Hv in Hg. unfold lapsed. by destruct (lapsedBy _ _ _ _ _).
Qed.

Lemma classifyMarkers_spec key versions orig t :
  let t' := classifyMarkers st retention key versions orig t in
  tSv t' = tSv t ∧ tHeads t' = tHeads t ∧ tShadow t ≤ tShadow t' ∧
  (tShadow t' = tShadow t → ∀ v, v ∈ versions → oIsDeleteMarker v = true → lapsed key orig (oLastModified v) = true).
Proof.
  unfold classifyMarkers. revert t. induction versions as [|v versions IH]; intros t; cbn [foldl].
  { split_and!; [done|done|lia|]. intros _ v ?%not_elem_of_nil. done. }
  destruct (oIsDeleteMarker v) eqn:Em; cbn [negb].
  - destruct (lapsedBy st retention key orig (oLastModified v)) eqn:El.
    + destruct (IH (add_disposal 1 t)) as (H1 & H2 & H3 & H4). split_and!; [done|done|done|].
      intros Heq w [->|Hw]%elem_of_cons; [done|by apply H4].
    + destruct (IH (add_shadow 1 t)) as (H1 & H2 & H3 & H4). cbn [add_shadow tShadow tSv tHeads] in *. split_and!; [done|done|lia|lia].
  - destruct (IH t) as (H1 & H2 & H3 & H4). split_and!; [done..|]. intros Heq w [->|Hw]%elem_of_cons; [congruence|by apply H4].
Qed.

Lemma count_overlaid_spec key orig data versions t t' :
  getVersion st key (oVersionID orig) = Some data →
  count_overlaid st key orig data versions t = Ok t' →
  tSv t' = tSv t ∧ tHeads t' = tHeads t ∧ tShadow t ≤ tShadow t' ∧
  (tShadow t' = tShadow t → ∀ v, v ∈ versions → oIsDeleteMarker v = false → getVersion st key (oVersionID v) = Some data).
Proof.
  intros Ho. revert t. induction versions as [|v versions IH]; intros t; cbn [count_overlaid].
  { intros [= <-]. split_and!; [done|done|lia|]. intros _ v ?%not_elem_of_nil. done. }
  destruct (oIsDeleteMarker v) eqn:Em; cbn [orb].
  { intros H. destruct (IH t H) as (H1 & H2 & H3 & H4). split_and!; [done..|].
    intros Heq w [->|Hw]%elem_of_cons; [congruence|by apply H4]. }
  destruct (String.eqb_spec (oVersionID v) (oVersionID orig)) as [Ev|Ev].
  { intros H. destruct (IH t H) as (H1 & H2 & H3 & H4). split_and!; [done..|].
    intros Heq w [->|Hw]%elem_of_cons; [by rewrite Ev|by apply H4]. }
  destruct (getVersion st key (oVersionID v)) as [d|] eqn:Eg; [|done].
  destruct (String.eqb_spec d data) as [->|Hd]; intros H; destruct (IH _ H) as (H1 & H2 & H3 & H4); cbn [add_shadow tShadow tSv tHeads] in *.
  - split_and!; [done..|]. intros Heq w [->|Hw]%elem_of_cons; [done|by apply H4].
  - split_and!; [done|done|lia|lia].
Qed.

Lemma pushSegment_spec perKey key orig t t' :
  oldestReal (versions_at perKey key) = Some orig →
  pushSegment sha256 decode st key (versions_at perKey key) orig t = Ok t' →
  ∃ s, original perKey key s ∧ tSv t' = Push sha256 (tSv t) s ∧ tHeads t' = tHeads t ++ [link_of s] ∧
    tShadow t ≤ tShadow t' ∧ (tShadow t' = tShadow t → not_overlaid perKey key).
Proof.
  intros Ho. unfold pushSegment. destruct (getVersion st key (oVersionID orig)) as [data|] eqn:Eg; [|done].
  destruct (decode data) as [s|] eqn:Ed; [|done]. intros H.
  destruct (count_overlaid_spec _ _ _ _ _ _ Eg H) as (H1 & H2 & H3 & H4). exists s.
  split; [by exists orig, data|]. cbn [tSv tHeads tShadow] in *. split_and!; [done..|].
  intros Heq orig' Ho' v Hv Hm. rewrite Ho in Ho'. injection Ho' as <-. rewrite (H4 Heq v Hv Hm), Eg. done.
Qed.

(** What pushing adds to a tally: the segments [L], in order. *)
Record extends (t t' : tally) (L : list Segment) : Prop := mkExtends {
  ext_sv : tSv t' = foldl (Push sha256) (tSv t) L;
  ext_heads : tHeads t' = tHeads t ++ map link_of L;
  ext_shadow : tShadow t ≤ tShadow t' }.

Lemma extends_nil t : extends t t [].
Proof. split; [done|by rewrite app_nil_r|lia]. Qed.
Lemma extends_trans t t' t'' L K : extends t t' L → extends t' t'' K → extends t t'' (L ++ K).
Proof.
  intros [H1 H2 H3] [H4 H5 H6]. split; [by rewrite foldl_app, <- H1|by rewrite map_app, app_assoc, <- H2|lia].
Qed.

Definition in_window (lo hi : Z) (key : string) : bool :=
  match seqFromKey key with Some seq => (lo <=? seq) && (seq <=? hi) | None => false end.

Lemma push_keys_spec perKey lo hi keys t t' :
  0 ≤ lo → push_keys sha256 decode st perKey lo hi (-1) keys t = Ok t' →
  ∃ L, extends t t' L.*2 ∧ L.*1 = filter (λ k, in_window lo hi k = true) keys ∧ Forall (λ ks, original perKey ks.1 ks.2) L ∧
    (tShadow t' = tShadow t → Forall (λ ks, not_overlaid perKey ks.1) L).
Proof.
  intros Hlo. revert t. induction keys as [|key keys IH]; intros t; cbn [push_keys].
  { intros [= <-]. exists []. split; [apply extends_nil|]. split_and!; constructor. }
  intros (t1 & H1 & H2)%res_bind_Ok. destruct (IH t1 H2) as (L & HL & Hk & Ho & Hs). unfold push_key in H1.
  assert (Hskip : in_window lo hi key = false → t1 = t → ∃ L, extends t t' L.*2 ∧
    L.*1 = filter (λ k, in_window lo hi k = true) (key :: keys) ∧ Forall (λ ks, original perKey ks.1 ks.2) L ∧
    (tShadow t' = tShadow t → Forall (λ ks, not_overlaid perKey ks.1) L)).
  { intros Hw ->. exists L. rewrite filter_cons_False by congruence. done. }
  unfold in_window in Hskip. destruct (seqFromKey key) as [seq|] eqn:Es; [|injection H1 as <-; by apply Hskip].
  destruct ((seq <? lo) || (hi <? seq)) eqn:Er.
  { injection H1 as <-. apply Hskip; [|done]. apply orb_true_iff in Er as [?|?]; apply andb_false_iff; [left|right]; lia. }
  bool_to_prop. destruct (Z.leb_spec seq (-1)); [lia|].
  destruct (oldestReal (versions_at perKey key)) as [orig|] eqn:Eo; [|done].
  destruct (pushSegment_spec perKey key orig t t1 Eo H1) as (s & Hs1 & Hs2 & Hs3 & Hs4 & Hs5).
  exists ((key, s) :: L). cbn [fmap list_fmap fst snd]. split.
  { apply (extends_trans t t1 t' [s]); [|done]. by split. }
  destruct HL as [_ _ HL3]. split.
  { rewrite filter_cons_True; [by rewrite Hk|]. unfold in_window. rewrite Es. apply andb_true_iff. lia. }
  split; [by constructor|]. intros Heq. constructor; [apply Hs5; lia|apply Hs; lia].
Qed.

Lemma push_new_spec fresh perKey keys t t' perKey' :
  push_new sha256 decode st retention fresh perKey keys t = Ok (t', perKey') →
  ∃ L, extends t t' L ∧ Forall (λ s, ∃ key, key ∈ keys ∧ original fresh key s) L.
Proof.
  revert t perKey. induction keys as [|key keys IH]; intros t perKey; cbn [push_new].
  { intros [= <- <-]. exists []. split; [apply extends_nil|constructor]. }
  assert (Hw : ∀ L, Forall (λ s, ∃ k, k ∈ keys ∧ original fresh k s) L → Forall (λ s, ∃ k, k ∈ key :: keys ∧ original fresh k s) L).
  { intros L H. eapply Forall_impl; [exact H|]. cbn. intros s (k & Hk & Hs). exists k. split; [by right|done]. }
  destruct (oldestReal (versions_at fresh key)) as [orig|] eqn:Eo.
  - intros (t1 & H1 & H2)%res_bind_Ok. destruct (IH _ _ H2) as (L & HL & Ho).
    destruct (pushSegment_spec fresh key orig _ t1 Eo H1) as (s & Hs1 & Hs2 & Hs3 & Hs4 & _).
    destruct (classifyMarkers_spec key (versions_at fresh key) orig t) as (C1 & C2 & C3 & _).
    rewrite C1 in Hs2. rewrite C2 in Hs3. exists (s :: L). split.
    + apply (extends_trans t t1 t' [s]); [|done]. split; [done|done|lia].
    + constructor; [exists key; split; [by left|done]|by apply Hw].
  - intros H. destruct (IH _ _ H) as (L & [H1 H2 H3] & Ho). exists L. split; [|by apply Hw].
    cbn [add_shadow tSv tHeads tShadow] in *. split; [done|done|lia].
Qed.

Lemma catch_up_spec rounds round perKey maxReal t t' perKey' maxReal' :
  catch_up sha256 decode st retention rounds round perKey maxReal t = Ok (t', perKey', maxReal') →
  ∃ L, extends t t' L ∧ Forall (λ s, ∃ i fresh key, listVersions st i = Some fresh ∧ original fresh key s) L.
Proof.
  revert round perKey maxReal t. induction rounds as [|rounds IH]; intros round perKey maxReal t; cbn [catch_up].
  { intros [= <- <- <-]. exists []. split; [apply extends_nil|constructor]. }
  destruct (listVersions st round) as [fresh|] eqn:El; [|done].
  destruct (new_keys fresh _ maxReal) as [|k ks] eqn:En.
  { intros [= <- <- <-]. exists []. split; [apply extends_nil|constructor]. }
  rewrite <- En. clear En. intros ([t1 perKey1] & H1 & H2)%res_bind_Ok.
  destruct (push_new_spec _ _ _ _ _ _ H1) as (L & HL & Ho). destruct (IH _ _ _ _ H2) as (K & HK & Hk).
  exists (L ++ K). split; [by eapply extends_trans|]. apply Forall_app. split; [|done].
  eapply Forall_impl; [exact Ho|]. cbn. intros s (key & _ & Hs). by exists round, fresh, key.
Qed.

Lemma classify_spec perKey retainedFrom gap keys t :
  let t' := classify st retention perKey retainedFrom gap keys t in
  tSv t' = tSv t ∧ tHeads t' = tHeads t ∧ tShadow t ≤ tShadow t' ∧
  (tShadow t' = tShadow t → ∀ key seq, key ∈ keys → seqFromKey key = Some seq →
     not_hidden perKey key ∧ (oldestReal (versions_at perKey key) = None → seq < retainedFrom)).
Proof.
  unfold classify. revert t. induction keys as [|key keys IH]; intros t; cbn [foldl].
  { split_and!; [done|done|lia|]. intros _ key seq ?%not_elem_of_nil. done. }
  destruct (seqFromKey key) as [seq|] eqn:Es.
  2:{ destruct (IH t) as (H1 & H2 & H3 & H4). split_and!; [done..|]. intros Heq k s [->|Hk]%elem_of_cons Hs; [congruence|by eapply H4]. }
  destruct (oldestReal (versions_at perKey key)) as [orig|] eqn:Eo.
  - destruct (classifyMarkers_spec key (versions_at perKey key) orig t) as (C1 & C2 & C3 & C4).
    destruct (IH (classifyMarkers st retention key (versions_at perKey key) orig t)) as (H1 & H2 & H3 & H4).
    rewrite C1 in H1. rewrite C2 in H2. split_and!; [done|done|lia|].
    intros Heq k s [->|Hk]%elem_of_cons Hs; [|apply H4; [lia|done..]].
    split; [|congruence]. intros o Ho v Hv Hm. rewrite Eo in Ho. injection Ho as <-. apply C4; [lia|done..].
  - assert (Hn : not_hidden perKey key) by (intros o Ho; congruence).
    destruct ((seq <? retainedFrom) && bool_decide (gap = None)) eqn:Eb.
    + destruct (IH (add_disposal (countMarkers (versions_at perKey key)) t)) as (H1 & H2 & H3 & H4).
      split_and!; [done..|]. intros Heq k s [->|Hk]%elem_of_cons Hs; [|by eapply H4].
      split; [done|]. intros _. apply andb_true_iff in Eb as [Eb _]. rewrite Es in Hs. injection Hs as <-. lia.
    + destruct (IH (add_shadow 1 t)) as (H1 & H2 & H3 & H4). cbn [add_shadow tSv tHeads tShadow] in *. split_and!; [done|done|lia|lia].
Qed.

(** ** A full pass *)

(** The chain a pass walked. *)
Definition walked (out : verifyOutcome) (segs : list Segment) : Prop :=
  chain sha256 None segs ∧ voHeads out = map link_of segs ∧
  (∀ s, last segs = Some s → vHeadSeq (voRes out) = Seq s ∧ vHeadHash (voRes out) = Hash s).

(** What a full pass without findings says of a listed segment: its locked original is in the chain, nothing
    was laid over it, and no marker was laid on it while it was locked. *)
Definition untouched (perKey : listing) (segs : list Segment) (seq : Z) : Prop :=
  ∃ key s, seqFromKey key = Some seq ∧ original perKey key s ∧ s ∈ segs ∧ not_overlaid perKey key ∧ not_hidden perKey key.

Lemma keys_of_elem perKey key : key ∈ keys_of perKey ↔ is_Some (perKey !! key).
Proof.
  unfold keys_of. rewrite merge_sort_Permutation. split.
  - intros Hk. change (map fst (map_to_list perKey)) with ((map_to_list perKey).*1) in Hk.
    apply list_elem_of_fmap in Hk as ([k v] & -> & Hv). apply elem_of_map_to_list in Hv. by exists v.
  - intros [v Hv]. apply (list_elem_of_fmap_2 fst (map_to_list perKey) (key, v)). by apply elem_of_map_to_list.
Qed.

Lemma conclude_OK gap shadow r : vOK (conclude gap shadow r) = true → gap = None ∧ vOK r = true ∧
  vHeadSeq (conclude gap shadow r) = vHeadSeq r ∧ vHeadHash (conclude gap shadow r) = vHeadHash r ∧
  vBaseSeq (conclude gap shadow r) = vBaseSeq r.
Proof. unfold conclude. destruct gap; [done|]. by destruct ((0 <? shadow) && vOK r). Qed.


End Sound.

(** ** The anchor and the history *)

(** A segment whose successor's number is an int. *)
Definition in_range (s : Segment) : Prop := fits s ∧ Seq s < 2 ^ 63 - 1.

Lemma chain_seqs sha256 q h l :
  chain sha256 (Some (q, h)) l → - 2 ^ 63 ≤ q < 2 ^ 63 - 1 → Forall in_range l → map Seq l = seqZ (q + 1) (len l).
Proof.
  revert q h. induction l as [|s l IH]; intros q h; [done|].
  intros (_ & Hs & Hc) Hq Hl.
  apply Forall_cons_1 in Hl as [[[Hi _] Hb] Hl]. destruct Hs as [Hs _]. rewrite int64_id in Hs by (unfold is_int64; lia).
  cbn [map]. rewrite len_cons, seqZ_cons by (pose proof (len_nonneg l); lia). f_equal; [done|].
  rewrite (IH (Seq s) (Hash s)); [f_equal; lia|done|unfold is_int64 in Hi; lia|done].
Qed.

Lemma chain_numbers sha256 s l :
  chain sha256 None (s :: l) → Forall in_range (s :: l) → map Seq (s :: l) = seqZ (Seq s) (len (s :: l)).
Proof.
  intros (_ & _ & Hc) [[[Hi _] Hb] Hl]%Forall_cons_1. cbn [map]. rewrite len_cons, seqZ_cons by (pose proof (len_nonneg l); lia).
  f_equal. rewrite (chain_seqs sha256 (Seq s) (Hash s)); [f_equal; lia|done|unfold is_int64 in Hi; lia|done].
Qed.

Lemma by_seq_map_spec segs m base :
  by_seq_map segs = (m, base) → NoDup segs.*1 →
  (∀ q h, m !! q = Some h ↔ (q, h) ∈ segs) ∧ (∀ s, s ∈ segs → base ≤ s.1) ∧ (base = 2 ^ 30 ∨ ∃ s, s ∈ segs ∧ base = s.1).
Proof.
  revert m base. induction segs as [|s segs IH] using rev_ind; intros m base.
  { intros [= <- <-] _. split; [|split; [by intros s ?%not_elem_of_nil|by left]]. intros q h. rewrite lookup_empty.
    split; [done|by intros ?%not_elem_of_nil]. }
  unfold by_seq_map. rewrite foldl_app. cbn [foldl]. fold (by_seq_map segs). destruct (by_seq_map segs) as [m0 b0].
  intros [= <- <-] Hn. rewrite fmap_app in Hn. apply NoDup_app in Hn as (Hn & Hd & _). destruct (IH m0 b0 eq_refl Hn) as (H1 & H2 & H3).
  assert (Hfresh : ∀ h, (s.1, h) ∉ segs).
  { intros h Hin. apply (Hd s.1); [by apply (list_elem_of_fmap_2 fst segs (s.1, h))|by left]. }
  split; [|split].
  - intros q h. rewrite elem_of_app, list_elem_of_singleton. destruct (decide (q = s.1)) as [->|Hq].
    + rewrite lookup_insert_eq. split; [intros [= <-]; right; by destruct s|]. intros [Hin|Heq]; [by apply Hfresh in Hin|by rewrite <- Heq].
    + rewrite lookup_insert_ne by done. rewrite H1. split; [by left|]. intros [|Heq]; [done|]. by rewrite <- Heq in Hq.
  - intros x [Hx| ->%list_elem_of_singleton]%elem_of_app; [specialize (H2 x Hx)|]; destruct (Z.ltb_spec s.1 b0); lia.
  - destruct (Z.ltb_spec s.1 b0).
    + right. exists s. split; [apply elem_of_app; right; by left|done].
    + destruct H3 as [|(x & Hx & ->)]; [by left|]. right. exists x. split; [apply elem_of_app; by left|done].
Qed.

(** An anchor found in order is of a segment of the chain, or of one before its start. *)
Lemma anchor_in_chain sha256 (sha256_length : ∀ s, String.length (sha256 s) = 32%nat) out segs n h :
  walked sha256 out segs → segs ≠ [] → Forall in_range segs →
  anchorVerdict (Some (n, h)) (voHeads out) (voRes out) = AnchorOk →
  (n, h) ∈ map link_of segs ∨ (∀ s, s ∈ segs → n < Seq s).
Proof.
  intros (Hc & Hheads & Hlast) Hne Hr. destruct segs as [|s0 l]; [done|].
  pose proof (chain_numbers _ _ _ Hc Hr) as Hnum. unfold anchorVerdict. rewrite Hheads.
  assert (Hfst : (map link_of (s0 :: l)).*1 = map Seq (s0 :: l)).
  { change ((map link_of (s0 :: l)).*1) with (map fst (map link_of (s0 :: l))). by rewrite map_map. }
  destruct (by_seq_map (map link_of (s0 :: l))) as [m base] eqn:Em.
  destruct (by_seq_map_spec _ _ _ Em) as (H1 & H2 & H3); [rewrite Hfst, Hnum; apply NoDup_seqZ|].
  destruct (Z.ltb_spec (vHeadSeq (voRes out)) n) as [|Hn]; [done|]. destruct (Z.ltb_spec n base) as [Hb|Hb].
  { intros _. right. intros s Hs. specialize (H2 (link_of s) (list_elem_of_fmap_2 link_of _ _ Hs)). cbn in H2. lia. }
  destruct (decide (n < Seq s0)) as [Hlt|Hge].
  { intros _. right. intros s Hs. assert (Hin : Seq s ∈ map Seq (s0 :: l)) by by apply (list_elem_of_fmap_2 Seq).
    rewrite Hnum in Hin. apply elem_of_seqZ in Hin. lia. }
  assert (Hin : n ∈ map Seq (s0 :: l)).
  { rewrite Hnum. apply elem_of_seqZ. split; [lia|]. destruct (last (s0 :: l)) as [t|] eqn:Et; [|by apply last_None in Et].
    destruct (Hlast t eq_refl) as [Ht _]. assert (Hin : Seq t ∈ map Seq (s0 :: l)).
    { apply (list_elem_of_fmap_2 Seq (s0 :: l) t). by apply last_Some_elem_of. }
    rewrite Hnum in Hin. apply elem_of_seqZ in Hin. lia. }
  change (map Seq (s0 :: l)) with (Seq <$> (s0 :: l)) in Hin. apply list_elem_of_fmap in Hin as (s & -> & Hs).
  assert (Hm : m !! Seq s = Some (Hash s)) by (apply H1; by apply (list_elem_of_fmap_2 link_of)). rewrite Hm. cbn [default from_option id].
  assert (Hsealed : sealed sha256 s).
  { apply (Forall_forall (sealed sha256) (s0 :: l)); [by eapply chain_sealed|done]. }
  destruct (String.eqb_spec (Hash s) "") as [E|_].
  { apply (f_equal String.length) in E. by rewrite (sealed_hash_length _ sha256_length s Hsealed) in E. }
  destruct (String.eqb_spec (Hash s) h) as [<-|]; [|done]. intros _. left. by apply (list_elem_of_fmap_2 link_of).
Qed.


(** ** A full rotation *)

Lemma chain_glue sha256 pre s l : chain sha256 None (pre ++ [s]) → chain sha256 None (s :: l) → chain sha256 None (pre ++ s :: l).
Proof.
  intros H1 (_ & _ & H2). apply chain_app in H1 as [H1 H3]. apply chain_app. split; [done|].
  destruct H3 as (Hs & Hl & _). cbn [chain]. done.
Qed.

Section Rotation.
Context (sha256 : string → string) (decode : string → option Segment) (st : segStore) (now retention : Z).
Context (perKey : listing) (base head window : Z).
Hypothesis (base_head : base ≤ head) (head_listed : head ≤ listed perKey) (base_nonneg : 0 ≤ base) (window_pos : 0 < window).
(** The originals that are listed can be read. *)
Hypothesis readable : ∀ key orig, oldestReal (versions_at perKey key) = Some orig → is_Some (getVersion st key (oVersionID orig)).

(** The runs from a cursor, each at the cursor the one before left. *)
Fixpoint sweeps (n : nat) (cursor : Z) : list sweep :=
  match n with
  | O => []
  | S n =>
      let '(s, next) := resweepWindow sha256 decode st now retention perKey base head cursor window in
      s :: sweeps n next
  end.

Definition holds (seq : Z) (s : Segment) : Prop := original decode st perKey (segmentKey seq) s.

Lemma holds_fun seq s t : holds seq s → holds seq t → s = t.
Proof. intros (o & d & H1 & H2 & H3) (o' & d' & H4 & H5 & H6). congruence. Qed.

Lemma sweep_loop_spec n seq end_ sv sv' e next :
  sweep_loop sha256 decode st now retention n perKey seq end_ sv = inl (sv', e, next) →
  next = None ∧ e = end_ ∧ ∃ L, sv' = foldl (Push sha256) sv L ∧ Forall2 holds (seqZ seq (Z.of_nat n)) L.
Proof.
  revert seq sv. induction n as [|n IH]; intros seq sv; cbn [sweep_loop].
  { intros [= <- <- <-]. split; [done|]. split; [done|]. exists []. split; [done|constructor]. }
  destruct (perKey !! segmentKey seq) as [versions|] eqn:Ev; [|done].
  destruct (oldestReal versions) as [orig|] eqn:Eo; [|done].
  assert (Ho : oldestReal (versions_at perKey (segmentKey seq)) = Some orig) by (unfold versions_at; by rewrite Ev).
  destruct (readable _ _ Ho) as [data Hd]. rewrite Hd. destruct (decode data) as [s|] eqn:Ed; [|done].
  intros H. destruct (IH _ _ H) as (-> & -> & L & -> & HL). split; [done|]. split; [done|]. exists (s :: L). split; [done|].
  rewrite seqZ_cons by lia. replace (Z.pred (Z.of_nat (S n))) with (Z.of_nat n) by lia. constructor; [|by rewrite <- Z.add_1_r].
  by exists orig, data.
Qed.

(** One window that passes: its originals are a chain, and the cursor moves past it or back to the base. *)
Lemma resweepWindow_spec cursor s next :
  base ≤ cursor ≤ head → resweepWindow sha256 decode st now retention perKey base head cursor window = (s, next) → sweep_ok s = true →
  let e := Z.min (cursor + window - 1) head in let lo := Z.max (cursor - 1) base in
  (∃ L, Forall2 holds (seqZ lo (e - lo + 1)) L ∧ chain sha256 None L) ∧ next = (if head <? e + 1 then base else e + 1).
Proof.
  intros Hc. unfold resweepWindow. rewrite (Z.min_l head) by done.
  destruct (bool_decide (perKey = ∅) || (head <? base)) eqn:E0.
  { apply orb_true_iff in E0 as [E0%bool_decide_eq_true|E0]; [|lia]. pose proof head_listed as Hl. rewrite E0 in Hl.
    change (listed ∅) with (-1) in Hl. lia. }
  replace ((cursor <? base) || (head <? cursor)) with false by (symmetry; apply orb_false_iff; lia).
  set (e := Z.min (cursor + window - 1) head). set (lo := Z.max (cursor - 1) base).
  destruct (sweep_loop _ _ _ _ _ _ _ _ _ _) as [[[sv e'] nx]|bad] eqn:El; [|intros [= <- <-] Hok].
  - destruct (sweep_loop_spec _ _ _ _ _ _ _ El) as (-> & -> & L & -> & HL).
    destruct (pushes_spec sha256 zero L eq_refl eq_refl) as (V1 & V2 & _). rewrite Result_OK by done.
    destruct (svBroken _) eqn:Eb; cbn [negb]; intros [= <- <-] Hok; [done|]. cbn zeta. split; [|done].
    exists L. rewrite Z2Nat.id in HL by lia. split; [done|]. by apply V1.
  - exfalso. clear -El Hok. revert El. generalize (Z.to_nat (e - lo + 1)) at 1. generalize lo, zero.
    intros q sv n. revert q sv. induction n as [|n IH]; intros q sv; cbn [sweep_loop]; [done|].
    repeat case_match; try (intros [= <-]; done); try done. apply IH.
Qed.

Lemma sweeps_verify n cursor pre :
  base ≤ cursor ≤ head → head < cursor + Z.of_nat n * window → Forall (λ s, sweep_ok s = true) (sweeps n cursor) →
  Forall2 holds (seqZ base (cursor - base)) pre → chain sha256 None pre →
  ∃ segs, Forall2 holds (seqZ base (head - base + 1)) segs ∧ chain sha256 None segs.
Proof.
  revert cursor pre. induction n as [|n IH]; intros cursor pre Hc Hn Hall Hpre Hchain; [lia|].
  cbn [sweeps] in Hall. destruct (resweepWindow _ _ _ _ _ _ _ _ _ _) as [s next] eqn:Ew.
  apply Forall_cons_1 in Hall as [Hok Hall]. destruct (resweepWindow_spec cursor s next Hc Ew Hok) as ((L & HL & HcL) & Hnext).
  set (e := Z.min (cursor + window - 1) head) in *.
  assert (Hglue : ∃ segs, Forall2 holds (seqZ base (e - base + 1)) segs ∧ chain sha256 None segs).
  { destruct (decide (cursor = base)) as [->|Hne].
    - rewrite (Z.max_r (base - 1) base) in HL by lia. by exists L.
    - rewrite (Z.max_l (cursor - 1) base) in HL by lia. rewrite seqZ_cons in HL by lia.
      apply Forall2_cons_inv_l in HL as (t & L' & Ht & HL & ->). destruct pre as [|u pre _] using rev_ind.
      { apply Forall2_nil_inv_r in Hpre. apply (f_equal length) in Hpre. rewrite length_seqZ in Hpre. cbn in Hpre. lia. }
      replace (cursor - base) with (Z.of_nat (S (Z.to_nat (cursor - base - 1)))) in Hpre by lia. rewrite seqZ_S in Hpre.
      apply Forall2_app_inv in Hpre as [Hpre Hu]; [|apply Forall2_length in Hpre; rewrite !length_app in Hpre; cbn in Hpre; lia].
      inversion Hu as [|? ? ? ? Hu' _]; subst. replace (base + Z.of_nat (Z.to_nat (cursor - base - 1))) with (cursor - 1) in Hu' by lia.
      assert (u = t) as -> by (eapply holds_fun; done). exists (pre ++ t :: L'). split; [|by apply chain_glue].
      replace (e - base + 1) with (Z.of_nat (Z.to_nat (cursor - base - 1)) + (e - (cursor - 1) + 1)) by lia.
      rewrite seqZ_app by lia. apply Forall2_app; [done|].
      rewrite seqZ_cons by lia. replace (base + Z.of_nat (Z.to_nat (cursor - base - 1))) with (cursor - 1) by lia. by constructor. }
  destruct Hglue as (segs & Hsegs & Hcs). destruct (Z.ltb_spec head (e + 1)).
  - exists segs. by replace (head - base + 1) with (e - base + 1) by lia.
  - subst next. apply (IH (e + 1) segs); [lia|lia|done| |done]. by replace (e + 1 - base) with (e - base + 1) by lia.
Qed.
End Rotation.

(** when the originals listed can be read, runs of the rotating sweep that all pass, enough of them to
    reach the newest segment from the base, amount to a full verification: the originals from the base to the
    newest segment are one chain. *)
Theorem rotation_verifies sha256 decode st now retention perKey base head window n
    (Hbase : 0 ≤ base ≤ head) (Hhead : head ≤ listed perKey) (Hwindow : 0 < window)
    (Hread : ∀ key orig, oldestReal (versions_at perKey key) = Some orig → is_Some (getVersion st key (oVersionID orig)))
    (Henough : head < base + Z.of_nat n * window)
    (Hpass : Forall (λ s, sweep_ok s = true) (sweeps sha256 decode st now retention perKey base head window n base)) :
  ∃ segs, Forall2 (holds decode st perKey) (seqZ base (head - base + 1)) segs ∧ chain sha256 None segs.
Proof.
  apply (sweeps_verify sha256 decode st now retention perKey base head window ltac:(lia) Hhead ltac:(lia) Hwindow Hread n base []);
    [lia|done|done|by rewrite Z.sub_diag|done].
Qed.

(** ** The head of the bucket *)

(** A run resumes only from a segment whose original exists, and starts a chain only in a bucket without
    segments. *)
Lemma chainHeadKey_resumes perKey best :
  chainHeadKey perKey = Ok best →
  if String.eqb best "" then ∀ key, key ∈ keys_of perKey → seqFromKey key = None
  else is_Some (perKey !! best) ∧ is_Some (seqFromKey best) ∧ is_Some (oldestReal (versions_at perKey best)).
Proof.
  unfold chainHeadKey. assert (Hne : ∀ key, is_Some (seqFromKey key) → string_lt "" key = true).
  { intros [|c key]; [by intros []|done]. }
  assert (Hscan : ∀ keys, let '(b, h) := head_scan perKey keys in
    (b ≠ "" → b ∈ keys ∧ is_Some (seqFromKey b) ∧ is_Some (oldestReal (versions_at perKey b))) ∧
    (h = "" → ∀ key, key ∈ keys → seqFromKey key = None)).
  { induction keys as [|k keys IH] using rev_ind; [split; [done|by intros _ ? ?%not_elem_of_nil]|].
    unfold head_scan. rewrite foldl_app. cbn [foldl]. fold (head_scan perKey keys). destruct (head_scan perKey keys) as [b h].
    destruct IH as [IH1 IH2]. destruct (seqFromKey k) as [seq|] eqn:Ek.
    - split.
      + destruct (bool_decide (is_Some (oldestReal (versions_at perKey k))) && string_lt b k) eqn:E.
        * intros _. apply andb_true_iff in E as [E%bool_decide_eq_true _]. rewrite Ek. split; [apply elem_of_app; right; by left|done].
        * intros Hb. destruct (IH1 Hb) as (? & ? & ?). split; [apply elem_of_app; by left|done].
      + destruct (string_lt h k) eqn:E; [intros ->; by cbn in Ek|]. intros ->. rewrite Hne in E by by eexists. done.
    - split.
      + intros Hb. destruct (IH1 Hb) as (? & ? & ?). split; [apply elem_of_app; by left|done].
      + intros Hh key [Hk| ->%list_elem_of_singleton]%elem_of_app; [by apply IH2|done]. }
  specialize (Hscan (keys_of perKey)). destruct (head_scan perKey (keys_of perKey)) as [b h]. destruct Hscan as [H1 H2].
  destruct (String.eqb_spec h "") as [->|]; [intros [= <-]; exact (H2 eq_refl)|]. destruct (String.eqb_spec b "") as [|Hb]; [done|].
  destruct (String.eqb h b); [|done]. intros [= <-]. apply String.eqb_neq in Hb as Hb'. rewrite Hb'.
  destruct (H1 Hb) as (Hk & ? & ?). by apply keys_of_elem in Hk.
Qed.

(** ** An instance *)

Definition ex_decode (s : string) : option Segment :=
  if String.eqb s "0" then segs_ex !! 0%nat else if String.eqb s "1" then segs_ex !! 1%nat
  else if String.eqb s "2" then segs_ex !! 2%nat else None.
Definition ex_listing (n : Z) : listing :=
  list_to_map (map (λ i, (segmentKey i, [mkObject (FormatInt i) (i * 10) false])) (seqZ 0 n)).
(** The version of segment [i] is [i], and its blob as well; locks run to time 1000. *)
Definition ex_store (n : Z) : segStore :=
  mkStore (λ _, Some (ex_listing n)) (λ _ v, Some v) (λ _ _, Some (1000 * 1000000000000)).
Definition ex_none : verifyOutcome := mkOutcome (mkResult false 0 0 0 "" 0 None "") [] 0 0 0 0 (-1) None ∅.
Definition ex_pass (n : Z) : verifyOutcome :=
  match verifySegments toy ex_decode (ex_store n) 50 100 None with Ok o => o | Err _ => ex_none end.

Lemma ex_pass_runs : verifySegments toy ex_decode (ex_store 3) 50 100 None = Ok (ex_pass 3).
Proof. unfold ex_pass. destruct (verifySegments _ _ _ _ _ _) eqn:E; [done|]. exfalso. apply (f_equal is_ok) in E. by vm_compute in E. Qed.


Lemma chain_ex n : chain toy None (take n segs_ex).
Proof.
  assert (H : chain toy None segs_ex).
  { apply (pushes_spec toy zero segs_ex eq_refl eq_refl). vm_compute. reflexivity. }
  rewrite <- (take_drop n segs_ex) in H. by apply chain_app in H as [? _].
Qed.

Lemma in_range_ex n : Forall in_range (take n segs_ex).
Proof.
  apply Forall_take. apply Forall_forall. intros s Hs. pose proof fits_ex as Hf. rewrite Forall_forall in Hf. split; [by apply Hf|].
  assert (H : forallb (λ s, Seq s <? 2 ^ 63 - 1) segs_ex = true) by (vm_compute; reflexivity).
  rewrite forallb_forall in H. apply list_elem_of_In in Hs. specialize (H s Hs). lia.
Qed.

Lemma walked_ex n : n = 2%nat ∨ n = 3%nat → walked toy (ex_pass (Z.of_nat n)) (take n segs_ex).
Proof.
  intros [-> | ->]; (split; [apply chain_ex|split; [vm_compute; reflexivity|]]); intros s Hs; vm_compute in Hs; injection Hs as <-;
    vm_compute; done.
Qed.

Lemma free_prefix : collision_free toy (hashed toy (take 2 segs_ex) ++ hashed toy (take 3 segs_ex)).
Proof. apply collision_free_test. vm_compute. reflexivity. Qed.


Lemma readable_ex key orig :
  oldestReal (versions_at (ex_listing 3) key) = Some orig → is_Some (getVersion (ex_store 3) key (oVersionID orig)).
Proof. intros _. by eexists. Qed.

Lemma rotation_verifies_witness :
  map sweep_ok (sweeps toy ex_decode (ex_store 3) 50 100 (ex_listing 3) 0 2 2 2 0) = [true; true] ∧
  ∃ segs, Forall2 (holds ex_decode (ex_store 3) (ex_listing 3)) (seqZ 0 3) segs ∧ chain toy None segs.
Proof.
  assert (Hok : map sweep_ok (sweeps toy ex_decode (ex_store 3) 50 100 (ex_listing 3) 0 2 2 2 0) = [true; true])
    by (vm_compute; reflexivity).
  split; [exact Hok|].
  apply (rotation_verifies toy ex_decode (ex_store 3) 50 100 (ex_listing 3) 0 2 2 2).
  - lia.
  - replace (listed (ex_listing 3)) with 2 by (vm_compute; reflexivity). lia.
  - lia.
  - apply readable_ex.
  - lia.
  - destruct (sweeps _ _ _ _ _ _ _ _ _ _ _) as [|a [|b [|c l]]]; try discriminate. injection Hok as Ha Hb. by repeat constructor.
Defined.

(** A segment removed while the next is locked, one disposed of after retention, a hidden one, and a key
    that spells a retained number in another way, on which the pass dereferences nil. *)
Definition ex_with (f : listing → listing) (until : Z) : segStore :=
  mkStore (λ _, Some (f (ex_listing 3))) (λ _ v, Some v) (λ _ _, Some until).
Definition ex_verdict (st : segStore) : res verify_error (bool * Z * Z) :=
  o ← verifySegments toy ex_decode st 50 100 None; Ok (vOK (voRes o), voShadow o, voDisposed o).
Example passes_ex :
  ex_verdict (ex_with (delete (segmentKey 0)) (1000 * 1000000000000)) = Ok (false, 0, 1) ∧
  ex_verdict (ex_with (delete (segmentKey 0)) 20) = Ok (true, 0, 1) ∧
  ex_verdict (ex_with (<[segmentKey 1 := [mkObject "1" 10 false; mkObject "m" 40 true]]>) (1000 * 1000000000000)) = Ok (true, 1, 0).
Proof. split_and!; vm_compute; reflexivity. Qed.

Lemma odd_key_panics :
  ex_verdict (ex_with (<["segments/+1.json" := [mkObject "m" 40 true]]>) 20) = Err (NilOriginal "segments/+1.json").
Proof. vm_compute. reflexivity. Qed.
