(* ===== verification/LanAlloc.v ===== *)
(** * Addresses and routes of the LAN exposure (lan-expose/alloc.go)

    The pure helpers of the controller: the range external addresses are given from and the lowest free
    one, the routes of the default VPC with the controller's own replaced, comparisons, and the names of
    what it creates. *)

From stdpp Require Import sorting.
From S2P Require Import Prelude GoStrings GoTrim GoNet.
#[local] Open Scope string_scope.
#[local] Open Scope Z_scope.
#[local] Open Scope list_scope.

(** ** Ranges *)

(** Inclusive; both ends are uint32. *)
Record ipRange := mkRange { rStart : Z; rEnd : Z }.

Inductive range_error := InvalidRange | StartAfterEnd.

Section Parse.
Context (parseIPv6 : string → option Z).

Definition parseIPRange (s : string) : res range_error ipRange :=
  let s := TrimSpace s in
  let '(lo, hi) := match Cut s "-" with Some (lo, hi) => (lo, hi) | None => (s, s) end in
  match ParseIP4 parseIPv6 (TrimSpace lo), ParseIP4 parseIPv6 (TrimSpace hi) with
  | Some a, Some b => if b <? a then Err StartAfterEnd else Ok (mkRange a b)
  | _, _ => Err InvalidRange
  end.

Definition contains (r : ipRange) (ip : string) : bool :=
  match ParseIP4 parseIPv6 (TrimSpace ip) with
  | Some u => (rStart r <=? u) && (u <=? rEnd r)
  | None => false
  end.
End Parse.

Definition u32ToIP (u : Z) : string := dotted u.

(** The loop of allocate: u is a uint32, and wraps. *)
Fixpoint allocate_loop (fuel : nat) (u end_ : Z) (used : gset string) : option string :=
  match fuel with
  | O => None
  | S fuel =>
      if end_ <? u then Some ""
      else if bool_decide (u32ToIP u ∈ used) then allocate_loop fuel ((u + 1) mod 2 ^ 32) end_ used
      else Some (u32ToIP u)
  end.
Definition allocate (r : ipRange) (used : gset string) : option string :=
  allocate_loop (S (size used)) (rStart r) (rEnd r) used.

(** ** Routes *)

Record PolicyRoute := mkRoute { prPriority : Z; prMatch : string; prAction : string; prNextHopIP : string }.
#[global] Instance PolicyRoute_eq_dec : EqDecision PolicyRoute.
Proof. solve_decision. Defined.

Definition ownedPolicyMatch (podIP cidr : string) : string :=
  "ip4.src == " +:+ podIP +:+ " && ip4.dst == " +:+ cidr.

(** [\S], of ASCII. *)
Definition not_space (c : ascii) : bool := negb (contains_char c (String " " (string_of_list_ascii (map ascii_of [9; 10; 12; 13])))).
Fixpoint span_word (s : string) : string * string :=
  match s with
  | String c s' => if not_space c then let '(w, r) := span_word s' in (String c w, r) else ("", s)
  | "" => ("", "")
  end.

(** ^ip4\.src == \S+ && ip4\.dst == \S+$ : a word is followed by a space or by the end, so the first one is
    the longest. *)
Definition ownedPolicyRe (s : string) : bool :=
  match CutPrefix s "ip4.src == " with
  | Some r =>
      let '(src, r) := span_word r in
      negb (String.eqb src "") &&
      match CutPrefix r " && ip4.dst == " with
      | Some dst => negb (String.eqb dst "") && forall_char not_space dst
      | None => false
      end
  | None => false
  end.

Definition isOwnedPolicy (p : PolicyRoute) (priority : Z) : bool :=
  (prPriority p =? priority) && String.eqb (prAction p) "allow" && ownedPolicyRe (TrimSpace (prMatch p)).

(** Priority descending, then match. *)
Definition route_le (p q : PolicyRoute) : Prop :=
  prPriority q < prPriority p ∨ (prPriority p = prPriority q ∧ string_le (prMatch p) (prMatch q)).
#[global] Instance route_le_dec : RelDecision route_le.
Proof. intros p q. unfold route_le. apply _. Defined.
Definition sortRoutes (routes : list PolicyRoute) : list PolicyRoute := merge_sort route_le routes.

Definition own_route (priority : Z) (ip cidr : string) : PolicyRoute := mkRoute priority (ownedPolicyMatch ip cidr) "allow" "".
Definition routes_of (priority : Z) (cidrs : list string) (ip : string) : list PolicyRoute :=
  map (own_route priority ip) (filter (λ c, TrimSpace c ≠ "") cidrs).
(** The pods wanted, each once, in order. *)
Fixpoint distinct_ips (seen : gset string) (ips : list string) : list string :=
  match ips with
  | [] => []
  | ip :: ips => if String.eqb ip "" || bool_decide (ip ∈ seen) then distinct_ips seen ips
                 else ip :: distinct_ips ({[ip]} ∪ seen) ips
  end.
Definition wanted (wantPodIPs : list string) (priority : Z) (lanCIDRs : list string) : list PolicyRoute :=
  flat_map (routes_of priority lanCIDRs) (distinct_ips ∅ wantPodIPs).
Definition foreign (priority : Z) (routes : list PolicyRoute) : list PolicyRoute :=
  filter (λ p, isOwnedPolicy p priority = false) routes.

Definition mergePolicyRoutes (existing : list PolicyRoute) (wantPodIPs : list string) (priority : Z) (lanCIDRs : list string) :
    list PolicyRoute :=
  sortRoutes (foreign priority existing ++ wanted wantPodIPs priority lanCIDRs).

Definition policyRoutesEqual (a b : list PolicyRoute) : bool := bool_decide (a = b).

Definition cidr_set (l : list string) : gset string := list_to_set (filter (λ c, c ≠ "") (map TrimSpace l)).
Definition sameCIDRSet (a b : list string) : bool :=
  bool_decide (size (cidr_set a) = size (cidr_set b)) && forallb (λ k, bool_decide (k ∈ cidr_set b)) (elements (cidr_set a)).

Definition resourceName (ns svc : string) : string := "lanexpose-" +:+ ns +:+ "-" +:+ svc.

(** ** Addresses read back *)

Lemma Split_plain c s : contains_char c s = false → Split s c = [s].
Proof.
  induction s as [|d s IH]; [done|]. intros [Hd Hs]%contains_char_false_cons. cbn [Split]. rewrite IH by done.
  destruct (Ascii.eqb_spec d c) as [->|]; [by destruct Hd|done].
Qed.

Lemma Split_plain_app c s t : contains_char c s = false → Split (s +:+ String c t) c = s :: Split t c.
Proof.
  induction s as [|d s IH]; intros H.
  { cbn [String.append Split]. by rewrite Ascii.eqb_refl. }
  apply contains_char_false_cons in H as [Hd Hs]. cbn [String.append Split]. rewrite IH by done.
  destruct (Ascii.eqb_spec d c) as [->|]; [by destruct Hd|done].
Qed.

Lemma parseIPv4_dotted u : 0 ≤ u < 2 ^ 32 → parseIPv4 (dotted u) = Some u.
Proof.
  intros Hu. unfold dotted, parseIPv4. cbn [map Join String.concat String.append].
  rewrite !(Split_plain_app "."%char), Split_plain by apply FormatInt_byte_plain, octet_range.
  rewrite !FormatInt_byte by apply octet_range. cbn. by rewrite u32_octets.
Qed.

Lemma word_not_space c : in_range "!" "~" c = true → not_space c = true ∧ is_space_rune (byte_of c) = false.
Proof.
  intros H. pose proof (all_chars (λ c, implb (in_range "!" "~" c) (not_space c && negb (is_space_rune (byte_of c)))) ltac:(vm_compute; reflexivity) c) as Hc.
  cbn in Hc. rewrite H in Hc. cbn in Hc. apply andb_true_iff in Hc as [-> Hc]. by apply negb_true_iff in Hc.
Qed.

(** ** The controller's own routes *)

Lemma span_word_app w s : forall_char not_space w = true → span_word (w +:+ String " " s) = (w, String " " s).
Proof.
  induction w as [|c w IH]; intros H; [done|]. cbn in H. apply andb_true_iff in H as [Hc Hw].
  cbn [String.append span_word]. by rewrite Hc, IH.
Qed.

Lemma word_chars s : word s → forall_char not_space s = true ∧ forall_char is_ascii s = true ∧ ∃ c l, s = String c l ∧ is_space_rune (byte_of c) = false.
Proof.
  intros [Hne Hs]. split_and!; [eapply forall_char_impl, Hs; apply word_not_space|eapply forall_char_impl, Hs; apply word_ascii|].
  destruct s as [|c l]; [done|]. exists c, l. split; [done|]. cbn in Hs. apply andb_true_iff in Hs as [Hc _]. by apply word_not_space.
Qed.

Lemma word_last s : word s → ∃ l d, list_ascii_of_string s = l ++ [d] ∧ is_space_rune (byte_of d) = false.
Proof.
  intros [Hne Hs]. induction s as [|c s IH]; [done|]. cbn in Hs. apply andb_true_iff in Hs as [Hc Hs].
  destruct (decide (s = "")) as [->|Hs'].
  - exists [], c. split; [done|]. by apply word_not_space.
  - destruct (IH Hs' Hs) as (l & d & E & Hd). exists (c :: l), d. split; [|done]. cbn. by rewrite E.
Qed.

Lemma word_trim s : word s → TrimSpace s = s.
Proof.
  intros Hw. destruct (word_chars s Hw) as (_ & Ha & c & l & -> & Hc). destruct (word_last _ Hw) as (l' & d & E & Hd).
  by apply (TrimSpace_ends c (list_ascii_of_string l) d l').
Qed.

Lemma owned_trim ip cidr : word ip → word cidr → TrimSpace (ownedPolicyMatch ip cidr) = ownedPolicyMatch ip cidr.
Proof.
  intros Hi Hc. destruct (word_last _ Hc) as (l & d & E & Hd). unfold ownedPolicyMatch.
  eapply (TrimSpace_ends "i" _ d); [|cbn [String.append list_ascii_of_string]; done|rewrite !list_ascii_app, E, !app_assoc; done|done|done].
  rewrite !forall_char_app, (proj1 (proj2 (word_chars ip Hi))), (proj1 (proj2 (word_chars cidr Hc))). done.
Qed.

(** A route the controller writes is one it recognises. *)
Lemma own_route_owned priority ip cidr : word ip → word cidr → isOwnedPolicy (own_route priority ip cidr) priority = true.
Proof.
  intros Hi Hc. unfold isOwnedPolicy, own_route. cbn [prPriority prAction prMatch]. rewrite Z.eqb_refl, owned_trim by done.
  cbn [String.eqb Ascii.eqb Bool.eqb andb]. unfold ownedPolicyRe, ownedPolicyMatch.
  rewrite (proj2 (CutPrefix_spec _ "ip4.src == " _) eq_refl).
  change (" && ip4.dst == " +:+ cidr) with (String " " ("&& ip4.dst == " +:+ cidr)). rewrite span_word_app by (by apply word_chars).
  change (String " " ("&& ip4.dst == " +:+ cidr)) with (" && ip4.dst == " +:+ cidr). rewrite (proj2 (CutPrefix_spec _ " && ip4.dst == " cidr) eq_refl).
  destruct Hi as [Hi _]. apply String.eqb_neq in Hi. rewrite Hi. rewrite (proj1 (word_chars cidr Hc)).
  destruct Hc as [Hc _]. apply String.eqb_neq in Hc. by rewrite Hc.
Qed.

Lemma elem_of_distinct ip seen ips : ip ∈ distinct_ips seen ips ↔ ip ∈ ips ∧ ip ≠ "" ∧ ip ∉ seen.
Proof.
  revert seen. induction ips as [|i ips IH]; intros seen; cbn [distinct_ips]; [set_solver|].
  destruct (String.eqb_spec i "") as [->|Hi]; cbn [orb]; [rewrite IH; set_solver|].
  case_bool_decide; [rewrite IH; set_solver|]. rewrite elem_of_cons, IH. destruct (decide (ip = i)); set_solver.
Qed.

Lemma distinct_NoDup seen ips : NoDup (distinct_ips seen ips).
Proof.
  revert seen. induction ips as [|i ips IH]; intros seen; cbn [distinct_ips]; [constructor|].
  case_match; [apply IH|]. constructor; [|apply IH]. rewrite elem_of_distinct. set_solver.
Qed.

Lemma elem_of_routes p priority cidrs ip :
  p ∈ routes_of priority cidrs ip ↔ ∃ c, c ∈ cidrs ∧ TrimSpace c ≠ "" ∧ p = own_route priority ip c.
Proof.
  unfold routes_of. rewrite list_elem_of_fmap. setoid_rewrite list_elem_of_filter. naive_solver.
Qed.

Lemma elem_of_wanted p ips priority cidrs :
  p ∈ wanted ips priority cidrs ↔ ∃ ip c, ip ∈ ips ∧ ip ≠ "" ∧ c ∈ cidrs ∧ TrimSpace c ≠ "" ∧ p = own_route priority ip c.
Proof.
  unfold wanted. rewrite elem_of_flat_map. setoid_rewrite elem_of_distinct. setoid_rewrite elem_of_routes. set_solver.
Qed.

Lemma wanted_ext ips ips' priority cidrs : distinct_ips ∅ ips = distinct_ips ∅ ips' → wanted ips priority cidrs = wanted ips' priority cidrs.
Proof. unfold wanted. by intros ->. Qed.

(** ** The order of routes *)

#[global] Instance route_le_total : Total route_le.
Proof.
  intros p q. unfold route_le, string_le. destruct (Z.lt_trichotomy (prPriority p) (prPriority q)) as [?|[E|?]]; [by right; left| |by left; left].
  destruct (String.leb_total (prMatch p) (prMatch q)); [left|right]; right; done.
Qed.
#[global] Instance route_le_trans : Transitive route_le.
Proof.
  intros p q r. unfold route_le, string_le. intros [Hpq|[Epq Hpq]] [Hqr|[Eqr Hqr]]; [left; lia..|right].
  split; [congruence|by eapply string_leb_trans].
Qed.

(** What two routes are ordered by. *)
Definition route_key (p : PolicyRoute) : Z * string := (prPriority p, prMatch p).

Lemma route_le_key p q : route_le p q → route_le q p → route_key p = route_key q.
Proof.
  unfold route_le, string_le, route_key. intros [?|[E Hpq]] [?|[E' Hqp]]; try lia. f_equal; [done|].
  by apply String.leb_antisym.
Qed.

Lemma sorted_routes_unique l k : StronglySorted route_le l → StronglySorted route_le k → l ≡ₚ k → NoDup (map route_key l) → l = k.
Proof.
  intros Hl Hk HP Hnd. apply (StronglySorted_unique_strong route_le); [|done..]. intros p q Hp Hq Hpq Hqp.
  apply list_elem_of_lookup in Hp as [i Hi]. rewrite <- HP in Hq. apply list_elem_of_lookup in Hq as [j Hj].
  pose proof (route_le_key p q Hpq Hqp) as Ek.
  assert (i = j) as ->; [|by rewrite Hi in Hj; injection Hj].
  apply (NoDup_lookup (map route_key l) i j (route_key p)); [done|..]; rewrite list_lookup_fmap.
  - by rewrite Hi.
  - by rewrite Hj, Ek.
Qed.

Lemma sortRoutes_perm l : sortRoutes l ≡ₚ l.
Proof. apply merge_sort_Permutation. Qed.
Lemma sortRoutes_sorted l : StronglySorted route_le (sortRoutes l).
Proof. apply (StronglySorted_merge_sort route_le). Qed.

(** sort.Slice is not stable; with distinct keys every sort has the same result. *)
Lemma sortRoutes_any l k : StronglySorted route_le k → k ≡ₚ l → NoDup (map route_key l) → sortRoutes l = k.
Proof.
  intros Hk HP Hnd. apply sorted_routes_unique; [apply sortRoutes_sorted|done|by rewrite sortRoutes_perm, HP|].
  by rewrite sortRoutes_perm.
Qed.

(** ** Merging *)

Lemma merge_perm existing ips priority cidrs :
  mergePolicyRoutes existing ips priority cidrs ≡ₚ foreign priority existing ++ wanted ips priority cidrs.
Proof. apply sortRoutes_perm. Qed.

Lemma elem_of_foreign p priority routes : p ∈ foreign priority routes ↔ p ∈ routes ∧ isOwnedPolicy p priority = false.
Proof. unfold foreign. rewrite list_elem_of_filter. tauto. Qed.

Lemma foreign_perm priority l k : l ≡ₚ k → foreign priority l ≡ₚ foreign priority k.
Proof. intros H. unfold foreign. by rewrite H. Qed.

Lemma foreign_foreign priority l : foreign priority (foreign priority l) = foreign priority l.
Proof. unfold foreign. rewrite list_filter_filter_l; [done|tauto]. Qed.

Lemma foreign_wanted ips priority cidrs : Forall word ips → Forall word cidrs → foreign priority (wanted ips priority cidrs) = [].
Proof.
  intros Hi Hc. apply filter_none. intros p (ip & c & Hip & _ & Hcin & _ & ->)%elem_of_wanted.
  rewrite Forall_forall in Hi, Hc. by rewrite own_route_owned by auto.
Qed.

(** The entries of others are kept and no own entry is left but those wanted. *)
Lemma elem_of_merge p existing ips priority cidrs :
  p ∈ mergePolicyRoutes existing ips priority cidrs ↔
  (p ∈ existing ∧ isOwnedPolicy p priority = false) ∨
  ∃ ip c, ip ∈ ips ∧ ip ≠ "" ∧ c ∈ cidrs ∧ TrimSpace c ≠ "" ∧ p = own_route priority ip c.
Proof. by rewrite merge_perm, elem_of_app, elem_of_foreign, elem_of_wanted. Qed.

Lemma merge_foreign existing ips priority cidrs : Forall word ips → Forall word cidrs →
  foreign priority (mergePolicyRoutes existing ips priority cidrs) ≡ₚ foreign priority existing.
Proof.
  intros Hi Hc. rewrite (foreign_perm _ _ _ (merge_perm _ _ _ _)). unfold foreign at 1. rewrite filter_app.
  change (foreign priority (foreign priority existing) ++ foreign priority (wanted ips priority cidrs) ≡ₚ foreign priority existing).
  by rewrite foreign_foreign, foreign_wanted, app_nil_r.
Qed.

Lemma merge_replaces existing ips ips' priority cidrs cidrs' :
  Forall word ips → Forall word cidrs → NoDup (map route_key (foreign priority existing ++ wanted ips' priority cidrs')) →
  mergePolicyRoutes (mergePolicyRoutes existing ips priority cidrs) ips' priority cidrs' = mergePolicyRoutes existing ips' priority cidrs'.
Proof.
  intros Hi Hc Hnd. apply sortRoutes_any; [apply sortRoutes_sorted|..].
  - by rewrite merge_perm, merge_foreign.
  - by rewrite merge_foreign.
Qed.

Lemma merge_sorted existing ips priority cidrs : NoDup (map route_key (foreign priority existing ++ wanted ips priority cidrs)) →
  sortRoutes (mergePolicyRoutes existing ips priority cidrs) = mergePolicyRoutes existing ips priority cidrs.
Proof. intros Hnd. apply sortRoutes_any; [apply sortRoutes_sorted|done|by rewrite merge_perm]. Qed.

(** ** Allocation *)

Lemma u32ToIP_inj u v : 0 ≤ u < 2 ^ 32 → 0 ≤ v < 2 ^ 32 → u32ToIP u = u32ToIP v → u = v.
Proof. intros Hu Hv H. apply (f_equal parseIPv4) in H. unfold u32ToIP in H. rewrite !parseIPv4_dotted in H by done. by injection H. Qed.

Lemma u32ToIP_nonempty u : u32ToIP u ≠ "".
Proof.
  unfold u32ToIP, dotted. cbn [map Join String.concat]. intros E. destruct (FormatInt (octet u 3)); discriminate.
Qed.

(** A run of addresses all in use is no longer than the set. *)
Lemma used_run (used : gset string) s n : 0 ≤ s → s + Z.of_nat n ≤ 2 ^ 32 →
  (∀ v, s ≤ v < s + Z.of_nat n → u32ToIP v ∈ used) → (n <= size used)%nat.
Proof.
  intros Hs Hn Hused. set (l := map (λ k, u32ToIP (s + Z.of_nat k)) (seq 0 n)).
  assert (Hnd : NoDup l).
  { apply NoDup_fmap_2_strong; [|apply NoDup_seq]. intros i j Hi%elem_of_seq Hj%elem_of_seq E. apply u32ToIP_inj in E; lia. }
  transitivity (size (list_to_set l : gset string)).
  - rewrite size_list_to_set by done. unfold l. by rewrite length_map, length_seq.
  - apply subseteq_size. intros ip Hip. apply elem_of_list_to_set, list_elem_of_fmap in Hip as (k & -> & Hk%elem_of_seq). apply Hused. lia.
Qed.

Definition lowest_free (r : ipRange) (used : gset string) (ip : string) : Prop :=
  ∃ u, ip = u32ToIP u ∧ rStart r ≤ u ≤ rEnd r ∧ ip ∉ used ∧ ∀ v, rStart r ≤ v < u → u32ToIP v ∈ used.
Definition range_full (r : ipRange) (used : gset string) : Prop := ∀ v, rStart r ≤ v ≤ rEnd r → u32ToIP v ∈ used.

Lemma allocate_loop_spec r used n u : 0 ≤ rStart r → rEnd r < 2 ^ 32 - 1 → rStart r ≤ u ≤ rEnd r + 1 →
  (∀ v, rStart r ≤ v < u → u32ToIP v ∈ used) → (size used < n + Z.to_nat (u - rStart r))%nat →
  ∃ ip, allocate_loop n u (rEnd r) used = Some ip ∧ ((ip = "" ∧ range_full r used) ∨ lowest_free r used ip).
Proof.
  intros Hs He. revert u. induction n as [|n IH]; intros u Hu Hused Hn.
  { pose proof (used_run used (rStart r) (Z.to_nat (u - rStart r)) Hs ltac:(lia) ltac:(intros; apply Hused; lia)). lia. }
  cbn [allocate_loop]. destruct (Z.ltb_spec (rEnd r) u).
  { exists "". split; [done|]. left. split; [done|]. intros v Hv. apply Hused. lia. }
  case_bool_decide as Hin.
  - rewrite Z.mod_small by lia. apply IH; [lia| |lia]. intros v Hv. destruct (decide (v = u)) as [->|]; [done|]. apply Hused. lia.
  - exists (u32ToIP u). split; [done|]. right. exists u. split_and!; (done || lia).
Qed.

Definition wf_range (r : ipRange) : Prop := 0 ≤ rStart r ≤ rEnd r ∧ rEnd r < 2 ^ 32 - 1.

Lemma allocate_lowest r used : wf_range r →
  ∃ ip, allocate r used = Some ip ∧ ((ip = "" ∧ range_full r used) ∨ lowest_free r used ip).
Proof. intros [H1 H2]. apply allocate_loop_spec; try lia. Qed.

(** ** Ranges read and tested *)

Lemma digits_word n : 0 ≤ n < 256 → word (FormatInt n).
Proof.
  intros Hn. split; [intros E; pose proof (FormatInt_byte n Hn) as H; by rewrite E in H|].
  eapply forall_char_impl; [|by apply FormatInt_byte_plain]. intros c Hc.
  pose proof (all_chars (λ c, implb (is_digit c) (in_range "!" "~" c)) ltac:(vm_compute; reflexivity) c) as H. cbn in H. by rewrite Hc in H.
Qed.

Lemma word_app a b : word a → forall_char (in_range "!" "~") b = true → word (a +:+ b).
Proof. intros [Hne Ha] Hb. split; [by destruct a|]. by rewrite forall_char_app, Ha, Hb. Qed.

Lemma dot_digits u i s : forall_char (in_range "!" "~") s = true → forall_char (in_range "!" "~") (String "." (FormatInt (octet u i) +:+ s)) = true.
Proof.
  intros Hs. change (String "." (FormatInt (octet u i) +:+ s)) with ("." +:+ (FormatInt (octet u i) +:+ s)).
  rewrite !forall_char_app, Hs, (proj2 (digits_word _ (octet_range u i))). done.
Qed.

Lemma dotted_word u : word (dotted u).
Proof.
  unfold dotted. cbn [map Join String.concat String.append]. apply word_app; [apply digits_word, octet_range|].
  rewrite <- (append_nil_r (FormatInt (octet u 0))). by repeat apply dot_digits.
Qed.

Lemma dotted_no_colon u : contains_char ":" (dotted u) = false.
Proof.
  unfold dotted. cbn [map Join String.concat]. rewrite !contains_char_append.
  rewrite !(proj1 (proj2 (FormatInt_byte_plain _ (octet_range u _)))). done.
Qed.
Lemma dotted_no_dash u : contains_char "-" (dotted u) = false.
Proof.
  assert (H : ∀ n, 0 ≤ n < 256 → contains_char "-" (FormatInt n) = false).
  { intros n Hn. destruct (FormatInt_byte_plain n Hn) as (_ & _ & Hd). revert Hd. generalize (FormatInt n). clear.
    induction s as [|c s IH]; [done|]. cbn [forall_char]. intros [Hc Hs]%andb_true_iff. apply contains_char_false_cons.
    split; [|by apply IH]. intros E. by subst c. }
  unfold dotted. cbn [map Join String.concat]. rewrite !contains_char_append, !H by apply octet_range. done.
Qed.

Section Read.
Context (parseIPv6 : string → option Z).

Lemma ParseIP4_dotted u : 0 ≤ u < 2 ^ 32 → ParseIP4 parseIPv6 (TrimSpace (u32ToIP u)) = Some u.
Proof. intros Hu. unfold ParseIP4, u32ToIP. rewrite word_trim, dotted_no_colon by apply dotted_word. by apply parseIPv4_dotted. Qed.

Lemma contains_dotted r u : 0 ≤ u < 2 ^ 32 → contains parseIPv6 r (u32ToIP u) = (rStart r <=? u) && (u <=? rEnd r).
Proof. intros Hu. unfold contains. by rewrite ParseIP4_dotted. Qed.

Lemma is_digit_ge c : is_digit c = true → 48 ≤ byte_of c.
Proof. unfold is_digit, in_range. change (byte_of "0") with 48. intros H. bool_to_prop. lia. Qed.

Lemma digits_nonneg s acc n : 0 ≤ acc → digits s acc = Some n → 0 ≤ n.
Proof.
  revert acc. induction s as [|c s IH]; intros acc Ha; cbn [digits]; [by intros [= <-]|].
  destruct (is_digit c) eqn:Hc; [|done]. apply IH. apply is_digit_ge in Hc. lia.
Qed.

Lemma parse_octet_range s n : parse_octet s = Some n → 0 ≤ n < 256.
Proof.
  unfold parse_octet. repeat (case_match; [done|]). intros (m & Hm & Hn)%bind_Some. case_match; [|done]. bool_to_prop.
  injection Hn as <-. split; [by eapply (digits_nonneg s 0)|lia].
Qed.

Lemma parseIPv4_range s u : parseIPv4 s = Some u → 0 ≤ u < 2 ^ 32.
Proof.
  unfold parseIPv4. repeat (case_match; try done).
  intros (a & Ha%parse_octet_range & (b & Hb%parse_octet_range & (c & Hc%parse_octet_range & (d & Hd%parse_octet_range & [= <-])%bind_Some)%bind_Some)%bind_Some)%bind_Some.
  unfold u32_of. change (2 ^ 24) with 16777216. change (2 ^ 16) with 65536. change (2 ^ 8) with 256. change (2 ^ 32) with 4294967296. lia.
Qed.

Lemma ParseIP4_range s u : ParseIP4 parseIPv6 s = Some u → 0 ≤ u < 2 ^ 32.
Proof.
  unfold ParseIP4. case_match; [|apply parseIPv4_range]. intros (n & _ & Hn)%bind_Some. case_match; [|done]. injection Hn as <-.
  change (2 ^ 32 - 1) with (Z.ones 32). rewrite Z.land_ones by lia. by apply Z.mod_pos_bound.
Qed.

(** What is read is a range of addresses; its ends in dotted form, joined, read back. *)
Lemma parseIPRange_wf s r : parseIPRange parseIPv6 s = Ok r → 0 ≤ rStart r ≤ rEnd r ∧ rEnd r < 2 ^ 32.
Proof.
  unfold parseIPRange. destruct (match Cut (TrimSpace s) "-" with Some _ => _ | None => _ end) as [lo hi].
  destruct (ParseIP4 _ (TrimSpace lo)) as [a|] eqn:Ea; [|done]. destruct (ParseIP4 _ (TrimSpace hi)) as [b|] eqn:Eb; [|done].
  case_match eqn:E; [done|]. intros [= <-]. apply ParseIP4_range in Ea, Eb. bool_to_prop. cbn. lia.
Qed.

Lemma parseIPRange_dotted a b : 0 ≤ a ≤ b → b < 2 ^ 32 → parseIPRange parseIPv6 (u32ToIP a +:+ "-" +:+ u32ToIP b) = Ok (mkRange a b).
Proof.
  intros Ha Hb. unfold parseIPRange. rewrite word_trim.
  2:{ apply word_app; [apply dotted_word|]. unfold u32ToIP. rewrite forall_char_app, (proj2 (dotted_word b)). done. }
  rewrite (Cut_app_first "-" "") by apply dotted_no_dash. rewrite !ParseIP4_dotted by lia.
  by rewrite (proj2 (Z.ltb_ge b a)) by lia.
Qed.

(** An address given is in the range, and not in use. *)
Lemma lowest_free_in r used ip : wf_range r → lowest_free r used ip → contains parseIPv6 r ip = true ∧ ip ∉ used ∧ ip ≠ "".
Proof.
  intros [Hr He] (u & -> & Hu & Hn & _). split_and!; [|done|apply u32ToIP_nonempty].
  rewrite contains_dotted by lia. apply andb_true_iff. rewrite !Z.leb_le. lia.
Qed.
End Read.

(** ** Properties *)

(** Allocate ends with the lowest address of the range that is not in use, or with none when every one is. *)
Theorem allocate_gives parseIPv6 r used : wf_range r →
  ∃ ip, allocate r used = Some ip ∧
    ((ip = "" ∧ range_full r used) ∨ (lowest_free r used ip ∧ contains parseIPv6 r ip = true)).
Proof.
  intros Hr. destruct (allocate_lowest r used Hr) as (ip & Ha & Hip). exists ip. split; [done|].
  destruct Hip as [?|Hl]; [by left|right]. split; [done|]. by eapply lowest_free_in.
Qed.

Lemma allocate_gives_witness : ∃ ip, allocate (mkRange 3221225985 3221225987) {[ "192.0.2.1"; "192.0.2.3" ]} = Some ip ∧ ip = "192.0.2.2".
Proof.
  destruct (allocate_gives (λ _, None) (mkRange 3221225985 3221225987) {[ "192.0.2.1"; "192.0.2.3" ]}) as (ip & Ha & _).
  { unfold wf_range. cbn. lia. }
  exists ip. split; [exact Ha|]. vm_compute in Ha. injection Ha as <-. reflexivity.
Defined.

(** The routes after any number of sweeps are those of one: own entries follow what is wanted, and a list
    that is settled compares equal, so the VPC is not patched again. *)
Theorem merge_converges existing ips ips' priority cidrs cidrs' :
  Forall word ips → Forall word cidrs → Forall word ips' → Forall word cidrs' →
  NoDup (map route_key (foreign priority existing ++ wanted ips' priority cidrs')) →
  let once := mergePolicyRoutes existing ips' priority cidrs' in
  mergePolicyRoutes (mergePolicyRoutes existing ips priority cidrs) ips' priority cidrs' = once ∧
  policyRoutesEqual (sortRoutes once) (mergePolicyRoutes once ips' priority cidrs') = true.
Proof.
  intros Hi Hc Hi' Hc' Hnd once. split; [by apply merge_replaces|]. unfold policyRoutesEqual, once.
  rewrite merge_replaces, merge_sorted by done. by apply bool_decide_eq_true_2.
Qed.

Lemma merge_converges_witness :
  mergePolicyRoutes (mergePolicyRoutes [mkRoute 31000 "ip4.dst == 10.9.0.0/16" "reroute" "10.0.0.1"] ["10.0.0.5"; "10.0.0.6"] 29500 ["192.0.2.0/24"])
    ["10.0.0.7"] 29500 ["192.0.2.0/24"; "198.51.100.0/24"] =
  mergePolicyRoutes [mkRoute 31000 "ip4.dst == 10.9.0.0/16" "reroute" "10.0.0.1"] ["10.0.0.7"] 29500 ["192.0.2.0/24"; "198.51.100.0/24"].
Proof.
  apply merge_converges; apply (bool_decide_unpack _); vm_compute; exact I.
Defined.

(** ** Examples *)

(** A full range that ends at the last address wraps, and an address outside of it is given. *)
Example allocate_wraps :
  allocate (mkRange (2 ^ 32 - 2) (2 ^ 32 - 1)) {[ "255.255.255.254"; "255.255.255.255" ]} = Some "0.0.0.0".
Proof. vm_compute. reflexivity. Qed.

(** A return path with a space in it: the controller does not know its own route, and every sweep adds one. *)
Example spaced_cidr_grows :
  let m1 := mergePolicyRoutes [] ["10.0.0.5"] 29500 [" 10.1.0.0/16"] in
  let m2 := mergePolicyRoutes m1 ["10.0.0.5"] 29500 [" 10.1.0.0/16"] in
  length m1 = 1%nat ∧ length m2 = 2%nat ∧ policyRoutesEqual (sortRoutes m1) m2 = false.
Proof. vm_compute. done. Qed.

(** Two Services, one name. *)
Example resourceName_collides : resourceName "a-b" "c" = resourceName "a" "b-c".
Proof. reflexivity. Qed.
