(* ===== verification/LanClient.v ===== *)
(** * The cluster as the LAN exposure sees it (lan-expose/k8s.go)

    The client's calls as requests to the Kubernetes API: their method, path and document, and what is read
    of the answer.  Answers are inputs: a program is a tree over them.  A document is JSON that has been
    parsed; the host, the token and the wording of errors are left out. *)

From S2P Require Import Prelude GoStrings LanAlloc.
#[local] Open Scope string_scope.
#[local] Open Scope Z_scope.
#[local] Open Scope list_scope.

(** ** Documents *)

(** A number is its text; an object has its members in the order of the text. *)
Inductive doc :=
| DNull
| DBool (b : bool)
| DNum (lit : string)
| DStr (s : string)
| DArr (l : list doc)
| DObj (m : list (string * doc)).

(** Decoding into a variable: its value before, and after; [None] is json.Unmarshal's error. *)
Definition decoder (A : Type) := doc → A → option A.

Definition dec_string : decoder string := λ j cur, match j with DNull => Some cur | DStr s => Some s | _ => None end.
Definition dec_bool : decoder bool := λ j cur, match j with DNull => Some cur | DBool b => Some b | _ => None end.
Definition dec_int : decoder Z := λ j cur, match j with DNull => Some cur | DNum lit => ParseInt lit | _ => None end.
Definition dec_map : decoder (gmap string string) := λ j cur,
  match j with
  | DNull => Some ∅
  | DObj m => foldl (λ acc kv, cur ← acc; v ← dec_string kv.2 ""; Some (<[kv.1 := v]> cur)) (Some cur) m
  | _ => None
  end.
Definition dec_slice {A} (dec : decoder A) (zero : A) : decoder (list A) := λ j _,
  match j with
  | DNull => Some []
  | DArr l => mapM (λ j, dec j zero) l
  | _ => None
  end.
(** A member sets the field of its name, up to case; others are passed over. *)
Definition field_of {A} (fields : list (string * decoder A)) (k : string) : option (decoder A) :=
  snd <$> List.find (λ f, EqualFold (fst f) k) fields.
Definition dec_struct {A} (fields : list (string * decoder A)) : decoder A := λ j cur,
  match j with
  | DNull => Some cur
  | DObj m => foldl (λ acc kv, cur ← acc; match field_of fields kv.1 with Some dec => dec kv.2 cur | None => Some cur end) (Some cur) m
  | _ => None
  end.
(** A field of a record. *)
Definition on {A B} (dec : decoder B) (proj : A → B) (set : B → A → A) : decoder A := λ j a,
  b ← dec j (proj a); Some (set b a).

(** ** Objects *)

Record Service := mkService { svcName : string; svcNamespace : string; svcAnnotations : gmap string string;
  svcSelector : gmap string string; svcType : string }.
Definition zero_service : Service := mkService "" "" ∅ ∅ "".
Definition dec_service : decoder Service := dec_struct
  [("metadata", dec_struct
     [("name", on dec_string svcName (λ v s, mkService v (svcNamespace s) (svcAnnotations s) (svcSelector s) (svcType s)));
      ("namespace", on dec_string svcNamespace (λ v s, mkService (svcName s) v (svcAnnotations s) (svcSelector s) (svcType s)));
      ("annotations", on dec_map svcAnnotations (λ v s, mkService (svcName s) (svcNamespace s) v (svcSelector s) (svcType s)))]);
   ("spec", dec_struct
     [("selector", on dec_map svcSelector (λ v s, mkService (svcName s) (svcNamespace s) (svcAnnotations s) v (svcType s)));
      ("type", on dec_string svcType (λ v s, mkService (svcName s) (svcNamespace s) (svcAnnotations s) (svcSelector s) v))])].

Record Pod := mkPod { podName : string; podNamespace : string; podIP : string; podPhase : string }.
Definition zero_pod : Pod := mkPod "" "" "" "".
Definition dec_pod : decoder Pod := dec_struct
  [("metadata", dec_struct
     [("name", on dec_string podName (λ v p, mkPod v (podNamespace p) (podIP p) (podPhase p)));
      ("namespace", on dec_string podNamespace (λ v p, mkPod (podName p) v (podIP p) (podPhase p)))]);
   ("status", dec_struct
     [("podIP", on dec_string podIP (λ v p, mkPod (podName p) (podNamespace p) v (podPhase p)));
      ("phase", on dec_string podPhase (λ v p, mkPod (podName p) (podNamespace p) (podIP p) v))])].

Record OvnEip := mkEip { eipName : string; eipSubnet : string; eipType : string; eipSpecV4Ip : string;
  eipStatusV4Ip : string; eipReady : bool }.
Definition zero_eip : OvnEip := mkEip "" "" "" "" "" false.
Definition dec_eip : decoder OvnEip := dec_struct
  [("metadata", dec_struct
     [("name", on dec_string eipName (λ v e, mkEip v (eipSubnet e) (eipType e) (eipSpecV4Ip e) (eipStatusV4Ip e) (eipReady e)))]);
   ("spec", dec_struct
     [("externalSubnet", on dec_string eipSubnet (λ v e, mkEip (eipName e) v (eipType e) (eipSpecV4Ip e) (eipStatusV4Ip e) (eipReady e)));
      ("type", on dec_string eipType (λ v e, mkEip (eipName e) (eipSubnet e) v (eipSpecV4Ip e) (eipStatusV4Ip e) (eipReady e)));
      ("v4Ip", on dec_string eipSpecV4Ip (λ v e, mkEip (eipName e) (eipSubnet e) (eipType e) v (eipStatusV4Ip e) (eipReady e)))]);
   ("status", dec_struct
     [("v4Ip", on dec_string eipStatusV4Ip (λ v e, mkEip (eipName e) (eipSubnet e) (eipType e) (eipSpecV4Ip e) v (eipReady e)));
      ("ready", on dec_bool eipReady (λ v e, mkEip (eipName e) (eipSubnet e) (eipType e) (eipSpecV4Ip e) (eipStatusV4Ip e) v))])].

Record OvnFip := mkFip { fipName : string; fipOvnEip : string; fipIPName : string; fipType : string; fipReady : bool }.
Definition zero_fip : OvnFip := mkFip "" "" "" "" false.
Definition dec_fip : decoder OvnFip := dec_struct
  [("metadata", dec_struct
     [("name", on dec_string fipName (λ v f, mkFip v (fipOvnEip f) (fipIPName f) (fipType f) (fipReady f)))]);
   ("spec", dec_struct
     [("ovnEip", on dec_string fipOvnEip (λ v f, mkFip (fipName f) v (fipIPName f) (fipType f) (fipReady f)));
      ("ipName", on dec_string fipIPName (λ v f, mkFip (fipName f) (fipOvnEip f) v (fipType f) (fipReady f)));
      ("type", on dec_string fipType (λ v f, mkFip (fipName f) (fipOvnEip f) (fipIPName f) v (fipReady f)))]);
   ("status", dec_struct
     [("ready", on dec_bool fipReady (λ v f, mkFip (fipName f) (fipOvnEip f) (fipIPName f) (fipType f) v))])].

Definition zero_route : PolicyRoute := mkRoute 0 "" "" "".
Definition dec_route : decoder PolicyRoute := dec_struct
  [("priority", on dec_int prPriority (λ v p, mkRoute v (prMatch p) (prAction p) (prNextHopIP p)));
   ("match", on dec_string prMatch (λ v p, mkRoute (prPriority p) v (prAction p) (prNextHopIP p)));
   ("action", on dec_string prAction (λ v p, mkRoute (prPriority p) (prMatch p) v (prNextHopIP p)));
   ("nextHopIP", on dec_string prNextHopIP (λ v p, mkRoute (prPriority p) (prMatch p) (prAction p) v))].

Record Vpc := mkVpc { vpcName : string; vpcPolicyRoutes : list PolicyRoute }.
Definition zero_vpc : Vpc := mkVpc "" [].
Definition dec_vpc : decoder Vpc := dec_struct
  [("metadata", dec_struct [("name", on dec_string vpcName (λ v x, mkVpc v (vpcPolicyRoutes x)))]);
   ("spec", dec_struct [("policyRoutes", on (dec_slice dec_route zero_route) vpcPolicyRoutes (λ v x, mkVpc (vpcName x) v))])].

Record NetworkPolicy := mkNetpol { npName : string; npNamespace : string }.
Definition zero_netpol : NetworkPolicy := mkNetpol "" "".
Definition dec_netpol : decoder NetworkPolicy := dec_struct
  [("metadata", dec_struct
     [("name", on dec_string npName (λ v n, mkNetpol v (npNamespace n)));
      ("namespace", on dec_string npNamespace (λ v n, mkNetpol (npName n) v))])].

(** The members items of a list's document. *)
Definition dec_items {A} (dec : decoder A) (zero : A) : decoder (list A) := dec_struct [("items", dec_slice dec zero)].

(** ** Requests *)

Inductive method := MGet | MPost | MPatch | MDelete.
Record request := mkReq { rqMethod : method; rqPath : string; rqType : string; rqBody : option doc }.

(** No answer, or a status and a body; [None] of a body that is not JSON. *)
Inductive reply := Failed | Reply (code : Z) (body : option doc).

Inductive client_error := Transport | Status (code : Z) | Undecoded.

(** What is computed with the answers of the cluster; [Hang] is a loop that does not end. *)
Inductive prog (A : Type) :=
| Ret (a : A)
| Do (rq : request) (k : reply → prog A)
| Hang.
Arguments Ret {A} _.
Arguments Do {A} _ _.
Arguments Hang {A}.

Fixpoint prog_bind_go {A B} (f : A → prog B) (m : prog A) : prog B :=
  match m with
  | Ret a => f a
  | Do rq k => Do rq (λ r, prog_bind_go f (k r))
  | Hang => Hang
  end.
#[export] Instance prog_ret : MRet prog := @Ret.
#[export] Instance prog_bind : MBind prog := @prog_bind_go.

Definition do (m : method) (path contentType : string) (body : option doc) : prog reply := Do (mkReq m path contentType body) Ret.

Definition ovnAPI : string := "/apis/kubeovn.io/v1".
Definition coreAPI : string := "/api/v1".
Definition netpolAPI : string := "/apis/networking.k8s.io/v1".

Definition decode {A} (dec : decoder A) (zero : A) (body : option doc) : res client_error A :=
  match body ≫= λ j, dec j zero with Some a => Ok a | None => Err Undecoded end.

(** The answer of a GET: 200 is decoded. *)
Definition read_reply {A} (dec : decoder A) (zero : A) (r : reply) : res client_error A :=
  match r with
  | Failed => Err Transport
  | Reply code body => if code =? 200 then decode dec zero body else Err (Status code)
  end.
(** ... where 404 is an answer too. *)
Definition read_optional {A} (dec : decoder A) (zero : A) (r : reply) : res client_error (option A) :=
  match r with
  | Reply 404 _ => Ok None
  | _ => Some <$> read_reply dec zero r
  end.
(** The answer of a PATCH. *)
Definition patch_reply (r : reply) : res client_error () :=
  match r with
  | Failed => Err Transport
  | Reply code _ => if code =? 200 then Ok () else Err (Status code)
  end.

Definition merge_patch : string := "application/merge-patch+json".

(** url.QueryEscape. *)
Definition query_plain (c : ascii) : bool :=
  in_range "a" "z" c || in_range "A" "Z" c || in_range "0" "9" c || contains_char c "-_.~".
Definition upper_hex (d : Z) : string := String (ascii_of (if d <? 10 then 48 + d else 55 + d)) "".
Fixpoint QueryEscape (s : string) : string :=
  match s with
  | "" => ""
  | String c s =>
      (if query_plain c then String c "" else if Ascii.eqb c " " then "+"
       else "%" +:+ upper_hex (byte_of c / 16) +:+ upper_hex (byte_of c mod 16)) +:+ QueryEscape s
  end.

Definition listServices : prog (res client_error (list Service)) :=
  r ← do MGet (coreAPI +:+ "/services") "" None; Ret (read_reply (dec_items dec_service zero_service) [] r).

(** The pairs k=v of a selector; a Go map has them in any order. *)
Definition selector_text (selector : list (string * string)) : string :=
  foldl (λ sel kv, (if String.eqb sel "" then sel else sel +:+ ",") +:+ kv.1 +:+ "=" +:+ kv.2) "" selector.
Definition listPods (ns : string) (selector : gmap string string) : prog (res client_error (list Pod)) :=
  if bool_decide (selector = ∅) then Ret (Ok []) else
  r ← do MGet (coreAPI +:+ "/namespaces/" +:+ ns +:+ "/pods?labelSelector=" +:+ QueryEscape (selector_text (map_to_list selector))) "" None;
  Ret (read_reply (dec_items dec_pod zero_pod) [] r).

Definition annotations_doc (annos : gmap string string) : doc :=
  DObj [("metadata", DObj [("annotations", DObj (prod_map id DStr <$> map_to_list annos))])].
Definition service_path (ns name : string) : string := coreAPI +:+ "/namespaces/" +:+ ns +:+ "/services/" +:+ name.
Definition patchServiceAnnotations (ns name : string) (annos : gmap string string) : prog (res client_error ()) :=
  r ← do MPatch (service_path ns name) merge_patch (Some (annotations_doc annos)); Ret (patch_reply r).

(** *** Creating and deleting *)

(** 409 counts as created. *)
Definition create_reply (r : reply) : res client_error () :=
  match r with
  | Failed => Err Transport
  | Reply code _ => if code =? 409 then Ok () else if (code =? 201) || (code =? 200) then Ok () else Err (Status code)
  end.
Definition create (collectionPath name : string) (obj : doc) : prog (res client_error ()) :=
  r ← do MPost collectionPath "application/json" (Some obj); Ret (create_reply r).

Definition delete_reply (r : reply) : res client_error () :=
  match r with
  | Failed => Err Transport
  | Reply code _ => if (code =? 200) || (code =? 202) || (code =? 404) then Ok () else Err (Status code)
  end.
Definition delete (resourcePath : string) : prog (res client_error ()) :=
  r ← do MDelete resourcePath "" None; Ret (delete_reply r).

Definition ownerLabels : doc := DObj [("app.kubernetes.io/managed-by", DStr "lan-expose")].

(** *** OvnEip and OvnFip *)

Definition eips_path : string := ovnAPI +:+ "/ovn-eips".
Definition fips_path : string := ovnAPI +:+ "/ovn-fips".
Definition eip_path (name : string) : string := ovnAPI +:+ "/ovn-eips/" +:+ name.
Definition fip_path (name : string) : string := ovnAPI +:+ "/ovn-fips/" +:+ name.

Definition listOvnEips : prog (res client_error (list OvnEip)) :=
  r ← do MGet eips_path "" None; Ret (read_reply (dec_items dec_eip zero_eip) [] r).
Definition getOvnEip (name : string) : prog (res client_error (option OvnEip)) :=
  r ← do MGet (eip_path name) "" None; Ret (read_optional dec_eip zero_eip r).
Definition eip_doc (name subnet v4ip : string) : doc :=
  DObj [("apiVersion", DStr "kubeovn.io/v1"); ("kind", DStr "OvnEip");
        ("metadata", DObj [("name", DStr name); ("labels", ownerLabels)]);
        ("spec", DObj [("externalSubnet", DStr subnet); ("type", DStr "nat"); ("v4Ip", DStr v4ip)])].
Definition createOvnEip (name subnet v4ip : string) : prog (res client_error ()) :=
  create eips_path name (eip_doc name subnet v4ip).
Definition deleteOvnEip (name : string) : prog (res client_error ()) := delete (eip_path name).

Definition getOvnFip (name : string) : prog (res client_error (option OvnFip)) :=
  r ← do MGet (fip_path name) "" None; Ret (read_optional dec_fip zero_fip r).
Definition fip_doc (name eip ipName : string) : doc :=
  DObj [("apiVersion", DStr "kubeovn.io/v1"); ("kind", DStr "OvnFip");
        ("metadata", DObj [("name", DStr name); ("labels", ownerLabels)]);
        ("spec", DObj [("ovnEip", DStr eip); ("ipName", DStr ipName); ("type", DStr "centralized")])].
Definition createOvnFip (name eip ipName : string) : prog (res client_error ()) :=
  create fips_path name (fip_doc name eip ipName).
Definition deleteOvnFip (name : string) : prog (res client_error ()) := delete (fip_path name).

(** *** The VPC *)

Definition vpc_path (name : string) : string := ovnAPI +:+ "/vpcs/" +:+ name.
Definition getVpc (name : string) : prog (res client_error Vpc) :=
  r ← do MGet (vpc_path name) "" None; Ret (read_reply dec_vpc zero_vpc r).
Definition route_doc (p : PolicyRoute) : doc :=
  DObj ([("priority", DNum (FormatInt (prPriority p))); ("match", DStr (prMatch p)); ("action", DStr (prAction p))]
        ++ (if String.eqb (prNextHopIP p) "" then [] else [("nextHopIP", DStr (prNextHopIP p))])).
Definition routes_doc (routes : list PolicyRoute) : doc := DObj [("spec", DObj [("policyRoutes", DArr (map route_doc routes))])].
Definition patchVpcPolicyRoutes (name : string) (routes : list PolicyRoute) : prog (res client_error ()) :=
  r ← do MPatch (vpc_path name) merge_patch (Some (routes_doc routes)); Ret (patch_reply r).

(** *** Network policies *)

Definition netpols_path (ns : string) : string := netpolAPI +:+ "/namespaces/" +:+ ns +:+ "/networkpolicies".
Definition netpol_path (ns name : string) : string := netpolAPI +:+ "/namespaces/" +:+ ns +:+ "/networkpolicies/" +:+ name.

Definition listManagedNetpols : prog (res client_error (list NetworkPolicy)) :=
  r ← do MGet (netpolAPI +:+ "/networkpolicies?labelSelector=" +:+ QueryEscape "app.kubernetes.io/managed-by=lan-expose") "" None;
  Ret (read_reply (dec_items dec_netpol zero_netpol) [] r).

(** The CIDR of each peer, in each rule. *)
Definition dec_peer : decoder string := dec_struct [("ipBlock", dec_struct [("cidr", dec_string)])].
Definition dec_rule : decoder (list string) := dec_struct [("from", dec_slice dec_peer "")].
Definition dec_ingress : decoder (list (list string)) := dec_struct [("spec", dec_struct [("ingress", dec_slice dec_rule [])])].
Definition netpol_cidrs (ingress : list (list string)) : list string := filter (λ c, c ≠ "") (concat ingress).
Definition getLanNetpolCIDRs (ns name : string) : prog (res client_error (option (list string))) :=
  r ← do MGet (netpol_path ns name) "" None; Ret (option_map netpol_cidrs <$> read_optional dec_ingress [] r : res client_error (option (list string))).

Definition lanIngressFrom (lanCIDRs : list string) : list doc :=
  map (λ cidr, DObj [("ipBlock", DObj [("cidr", DStr cidr)])]) (filter (λ cidr, TrimSpace cidr ≠ "") lanCIDRs).
Definition ingress_doc (lanCIDRs : list string) : doc := DArr [DObj [("from", DArr (lanIngressFrom lanCIDRs))]].
Definition netpol_doc (ns name : string) (selector : gmap string string) (lanCIDRs : list string) : doc :=
  DObj [("apiVersion", DStr "networking.k8s.io/v1"); ("kind", DStr "NetworkPolicy");
        ("metadata", DObj [("name", DStr name); ("namespace", DStr ns); ("labels", ownerLabels)]);
        ("spec", DObj [("podSelector", DObj [("matchLabels", DObj (prod_map id DStr <$> map_to_list selector))]);
                       ("policyTypes", DArr [DStr "Ingress"]);
                       ("ingress", ingress_doc lanCIDRs)])].
Definition createLanNetpol (ns name : string) (selector : gmap string string) (lanCIDRs : list string) : prog (res client_error ()) :=
  create (netpols_path ns) name (netpol_doc ns name selector lanCIDRs).
Definition netpol_patch (lanCIDRs : list string) : doc := DObj [("spec", DObj [("ingress", ingress_doc lanCIDRs)])].
Definition updateLanNetpolCIDRs (ns name : string) (lanCIDRs : list string) : prog (res client_error ()) :=
  r ← do MPatch (netpol_path ns name) merge_patch (Some (netpol_patch lanCIDRs)); Ret (patch_reply r).
Definition deleteNetworkPolicy (ns name : string) : prog (res client_error ()) := delete (netpol_path ns name).

(** ** What is written reads back *)

Lemma dec_struct_nil {A} (fields : list (string * decoder A)) cur : dec_struct fields (DObj []) cur = Some cur.
Proof. done. Qed.

Lemma foldl_None {A B} (f : A → B → option A) m : foldl (λ acc kv, cur ← acc; f cur kv) None m = None.
Proof. by induction m. Qed.

Lemma dec_struct_member {A} (fields : list (string * decoder A)) k v m cur dec cur' :
  field_of fields k = Some dec → dec v cur = Some cur' → dec_struct fields (DObj ((k, v) :: m)) cur = dec_struct fields (DObj m) cur'.
Proof. intros Hf Hd. cbn [dec_struct foldl mbind option_bind fst snd]. by rewrite Hf, Hd. Qed.

Lemma dec_struct_skip {A} (fields : list (string * decoder A)) k v m cur :
  field_of fields k = None → dec_struct fields (DObj ((k, v) :: m)) cur = dec_struct fields (DObj m) cur.
Proof. intros Hf. cbn [dec_struct foldl mbind option_bind fst snd]. by rewrite Hf. Qed.

Lemma on_Some {A B} (dec : decoder B) (proj : A → B) set j a b : dec j (proj a) = Some b → on dec proj set j a = Some (set b a).
Proof. intros H. unfold on. by rewrite H. Qed.

(** Goes over the members of an object one by one. *)
Ltac member := first
  [ erewrite dec_struct_skip by reflexivity
  | eapply eq_trans; [eapply dec_struct_member; [reflexivity|cbn [snd]]|] ].

Lemma dec_route_doc p : is_int64 (prPriority p) → dec_route (route_doc p) zero_route = Some p.
Proof.
  intros Hp. destruct p as [pr m a n]. unfold route_doc, dec_route. cbn [prPriority prMatch prAction prNextHopIP app] in *.
  member. { apply on_Some. cbn [dec_int]. by apply ParseInt_FormatInt. }
  member. { by apply on_Some. } member. { by apply on_Some. }
  destruct (String.eqb_spec n "") as [->|_]; [done|]. member; [by apply on_Some|done].
Qed.

Lemma mapM_map_Some {A B C} (f : B → option C) (g : A → B) (h : A → C) l : Forall (λ a, f (g a) = Some (h a)) l → mapM f (map g l) = Some (map h l).
Proof. induction 1 as [|a l Ha _ IH]; [done|]. cbn. by rewrite Ha, IH. Qed.

Lemma dec_slice_map {A B} (dec : decoder B) zero (g : A → doc) (h : A → B) l cur :
  Forall (λ a, dec (g a) zero = Some (h a)) l → dec_slice dec zero (DArr (map g l)) cur = Some (map h l).
Proof. intros H. by apply (mapM_map_Some (λ j, dec j zero)). Qed.

Definition wf_routes (l : list PolicyRoute) : Prop := Forall (λ p, is_int64 (prPriority p)) l.

Lemma dec_vpc_routes l : wf_routes l → dec_vpc (routes_doc l) zero_vpc = Some (mkVpc "" l).
Proof.
  intros Hl. assert (H : dec_slice dec_route zero_route (DArr (map route_doc l)) [] = Some l).
  { rewrite <- (map_id l) at 2. apply dec_slice_map. eapply Forall_impl; [exact Hl|]. intros p. apply dec_route_doc. }
  unfold routes_doc, dec_vpc. member; [|apply dec_struct_nil]. member; [|apply dec_struct_nil]. exact (on_Some _ _ _ _ _ _ H).
Qed.

Lemma dec_eip_doc name subnet ip : dec_eip (eip_doc name subnet ip) zero_eip = Some (mkEip name subnet "nat" ip "" false).
Proof. reflexivity. Qed.

Lemma dec_fip_doc name eip ipName : dec_fip (fip_doc name eip ipName) zero_fip = Some (mkFip name eip ipName "centralized" false).
Proof. reflexivity. Qed.

Lemma sameCIDRSet_spec a b : sameCIDRSet a b = true ↔ cidr_set a = cidr_set b.
Proof.
  unfold sameCIDRSet. rewrite andb_true_iff, bool_decide_eq_true, forallb_forall. split.
  - intros [Hs Hsub]. apply leibniz_equiv, set_equiv_subseteq. assert (cidr_set a ⊆ cidr_set b) as H.
    { intros k Hk. specialize (Hsub k ltac:(by apply list_elem_of_In, elem_of_elements)). by apply bool_decide_eq_true in Hsub. }
    split; [done|]. intros k Hk. destruct (decide (k ∈ cidr_set a)) as [|Hn]; [done|].
    pose proof (subset_size (cidr_set a) (cidr_set b)). set_solver by lia.
  - intros E. rewrite E. split; [done|]. intros k Hk%list_elem_of_In%elem_of_elements. by apply bool_decide_eq_true.
Qed.

Lemma cidr_set_filter l : cidr_set (filter (λ c, TrimSpace c ≠ "") l) = cidr_set l.
Proof.
  apply leibniz_equiv. intros k. unfold cidr_set. rewrite !elem_of_list_to_set, !list_elem_of_filter, !list_elem_of_fmap.
  setoid_rewrite list_elem_of_filter. naive_solver.
Qed.

Lemma dec_rule_from l : dec_slice dec_peer "" (DArr (lanIngressFrom l)) [] = Some (filter (λ c, TrimSpace c ≠ "") l).
Proof.
  unfold lanIngressFrom. rewrite (dec_slice_map _ _ _ id); [by rewrite map_id|]. by apply Forall_forall.
Qed.

Lemma dec_ingress_of l : dec_slice dec_rule [] (ingress_doc l) [] = Some [filter (λ c, TrimSpace c ≠ "") l].
Proof.
  unfold ingress_doc. apply (dec_slice_map dec_rule [] id (λ _, filter (λ c, TrimSpace c ≠ "") l) [_]).
  constructor; [|done]. unfold dec_rule, id. member; [apply dec_rule_from|done].
Qed.

Lemma dec_ingress_netpol ns name sel l : dec_ingress (netpol_doc ns name sel l) [] = Some [filter (λ c, TrimSpace c ≠ "") l].
Proof. unfold netpol_doc, dec_ingress. do 3 member. member; [|done]. do 2 member. member; [apply dec_ingress_of|done]. Qed.

Lemma dec_ingress_patch l : dec_ingress (netpol_patch l) [] = Some [filter (λ c, TrimSpace c ≠ "") l].
Proof. unfold netpol_patch, dec_ingress. member; [|done]. member; [apply dec_ingress_of|done]. Qed.

(** The CIDRs of a policy it has written are the ones it compares with. *)
Lemma netpol_settled l : sameCIDRSet (netpol_cidrs [filter (λ c, TrimSpace c ≠ "") l]) l = true.
Proof.
  apply sameCIDRSet_spec. unfold netpol_cidrs. cbn [concat]. rewrite app_nil_r, list_filter_filter_r; [apply cidr_set_filter|].
  by intros c Hc ->.
Qed.

(** What the client writes, it reads back: the routes of a patch, the address and the pod of the objects it
    creates, and the CIDRs of a policy, which then need no update. *)
Theorem written_reads_back routes ns name sel cidrs subnet ip ipName : wf_routes routes →
  dec_vpc (routes_doc routes) zero_vpc = Some (mkVpc "" routes) ∧
  dec_eip (eip_doc name subnet ip) zero_eip = Some (mkEip name subnet "nat" ip "" false) ∧
  dec_fip (fip_doc name name ipName) zero_fip = Some (mkFip name name ipName "centralized" false) ∧
  ∀ j, j = netpol_doc ns name sel cidrs ∨ j = netpol_patch cidrs →
    ∃ ingress, dec_ingress j [] = Some ingress ∧ sameCIDRSet (netpol_cidrs ingress) cidrs = true.
Proof.
  intros Hr. split_and!; [by apply dec_vpc_routes|done|done|].
  intros j [->| ->]; eexists; (split; [|apply netpol_settled]); [apply dec_ingress_netpol|apply dec_ingress_patch].
Qed.

Lemma written_reads_back_witness :
  dec_vpc (routes_doc [mkRoute 29500 "ip4.src == 10.0.0.5 && ip4.dst == 192.0.2.0/24" "allow" ""]) zero_vpc =
  Some (mkVpc "" [mkRoute 29500 "ip4.src == 10.0.0.5 && ip4.dst == 192.0.2.0/24" "allow" ""]).
Proof.
  apply (written_reads_back _ "default" "lanexpose-default-web" {[ "app" := "web" ]} [" 192.0.2.0/24"; ""] "external" "192.0.2.1" "web-0.default").
  constructor; [split; cbn; lia|constructor].
Defined.
