(* ===== verification/LanExpose.v ===== *)
(** * The sweep of the LAN exposure (lan-expose/reconcile.go)

    reconcile as a program over the answers of the cluster, and what every sweep does whatever the cluster
    answers: which objects it touches, which addresses it gives, when it writes nothing. *)

From stdpp Require Import sorting.
From S2P Require Import Prelude GoStrings GoNet LanAlloc LanClient.
#[local] Open Scope string_scope.
#[local] Open Scope Z_scope.
#[local] Open Scope list_scope.

Record config := mkConfig { exposeAnno : string; ipAnno : string; assignedAnno : string; externalSubnet : string;
  lanCIDRs : list string; defaultVPC : string; eipRange : ipRange; policyPriority : Z }.

Definition managedPrefix : string := "lanexpose-".

(** s.Metadata.Annotations[k]. *)
Definition anno (s : Service) (k : string) : string := default "" (svcAnnotations s !! k).

Section Controller.
Context (cfg : config).

Definition exposed (s : Service) : bool := String.eqb (ToLower (anno s (exposeAnno cfg))) "true".

Definition running (p : Pod) : bool := String.eqb (podPhase p) "Running" && negb (String.eqb (podIP p) "").
Definition pickEndpoint (s : Service) : prog (option Pod) :=
  pods ← listPods (svcNamespace s) (svcSelector s);
  Ret (match pods with Ok pods => List.find running pods | Err _ => None end).

(** The address of a Service: the one asked for, the one it has, or a free one. *)
Definition choose_eip (s : Service) (existing : option OvnEip) (used : gset string) : prog (option string) :=
  let asked := TrimSpace (anno s (ipAnno cfg)) in
  let current := match existing with Some e => eipSpecV4Ip e | None => "" end in
  if negb (String.eqb asked "") then Ret (Some asked)
  else if negb (String.eqb current "") then Ret (Some current)
  else match allocate (eipRange cfg) used with
       | None => Hang
       | Some free => Ret (if String.eqb free "" then None else Some free)
       end.

Definition ensureEip (rn : string) (s : Service) (used : gset string) : prog (option string) :=
  existing ← getOvnEip rn;
  match existing with
  | Err _ => Ret None
  | Ok existing =>
      chosen ← choose_eip s existing used;
      match chosen, existing with
      | None, _ => Ret None
      | Some eip, Some e =>
          if String.eqb (eipSpecV4Ip e) eip then Ret (Some eip)
          else _ ← deleteOvnFip rn; _ ← deleteOvnEip rn; Ret None
      | Some eip, None =>
          created ← createOvnEip rn (externalSubnet cfg) eip;
          Ret (if is_ok created then Some eip else None)
      end
  end.

Definition wantIPName (pod : Pod) : string := podName pod +:+ "." +:+ podNamespace pod.
Definition ensureFip (rn : string) (pod : Pod) : prog bool :=
  fip ← getOvnFip rn;
  match fip with
  | Err _ => Ret false
  | Ok None => created ← createOvnFip rn rn (wantIPName pod); Ret (is_ok created)
  | Ok (Some fip) =>
      if String.eqb (fipIPName fip) (wantIPName pod) then Ret true
      else _ ← deleteOvnFip rn; Ret false
  end.

Definition ensureNetpol (rn ns : string) (selector : gmap string string) : prog (res client_error ()) :=
  if bool_decide (selector = ∅) then Ret (Ok ()) else
  cur ← getLanNetpolCIDRs ns rn;
  match cur with
  | Err e => Ret (Err e)
  | Ok None => createLanNetpol ns rn selector (lanCIDRs cfg)
  | Ok (Some cur) => if sameCIDRSet cur (lanCIDRs cfg) then Ret (Ok ()) else updateLanNetpolCIDRs ns rn (lanCIDRs cfg)
  end.

(** What a sweep collects: the addresses in use, the resources and the pods wanted. *)
Record sweep := mkSweep { swUsed : gset string; swWant : gset string; swPodIPs : list string }.

Definition publish (s : Service) (eip : string) : prog () :=
  if String.eqb (anno s (assignedAnno cfg)) eip then Ret ()
  else _ ← patchServiceAnnotations (svcNamespace s) (svcName s) {[ assignedAnno cfg := eip ]}; Ret ().

(** One round of the loop over the Services. *)
Definition expose (w : sweep) (s : Service) : prog sweep :=
  if negb (exposed s) then Ret w else
  let rn := resourceName (svcNamespace s) (svcName s) in
  pod ← pickEndpoint s;
  match pod with
  | None => Ret w
  | Some pod =>
      eip ← ensureEip rn s (swUsed w);
      match eip with
      | None => Ret w
      | Some eip =>
          let w := mkSweep ({[eip]} ∪ swUsed w) (swWant w) (swPodIPs w) in
          bound ← ensureFip rn pod;
          if negb bound then Ret w else
          let w := mkSweep (swUsed w) ({[rn]} ∪ swWant w) (swPodIPs w ++ [podIP pod]) in
          _ ← ensureNetpol rn (svcNamespace s) (svcSelector s);
          _ ← publish s eip;
          Ret w
      end
  end.

Fixpoint expose_all (w : sweep) (services : list Service) : prog sweep :=
  match services with
  | [] => Ret w
  | s :: services => w ← expose w s; expose_all w services
  end.

Fixpoint each {A} (f : A → prog ()) (l : list A) : prog () :=
  match l with
  | [] => Ret ()
  | a :: l => _ ← f a; each f l
  end.

(** The controller's by name, and not to be kept. *)
Definition dropped (keep : gset string) (n : string) : bool := HasPrefix n managedPrefix && negb (bool_decide (n ∈ keep)).
Definition gc_eip (keep : gset string) (e : OvnEip) : prog () :=
  if dropped keep (eipName e) then _ ← deleteOvnFip (eipName e); _ ← deleteOvnEip (eipName e); Ret () else Ret ().
Definition gc_netpol (keep : gset string) (n : NetworkPolicy) : prog () :=
  if dropped keep (npName n) then _ ← deleteNetworkPolicy (npNamespace n) (npName n); Ret () else Ret ().
Definition gc (eips : list OvnEip) (keep : gset string) : prog () :=
  _ ← each (gc_eip keep) eips;
  nps ← listManagedNetpols;
  match nps with
  | Err _ => Ret ()
  | Ok nps => each (gc_netpol keep) nps
  end.

Definition reconcilePolicy (wantPodIPs : list string) : prog () :=
  vpc ← getVpc (defaultVPC cfg);
  match vpc with
  | Err _ => Ret ()
  | Ok vpc =>
      let desired := mergePolicyRoutes (vpcPolicyRoutes vpc) wantPodIPs (policyPriority cfg) (lanCIDRs cfg) in
      if policyRoutesEqual (sortRoutes (vpcPolicyRoutes vpc)) desired then Ret ()
      else _ ← patchVpcPolicyRoutes (defaultVPC cfg) desired; Ret ()
  end.

(** Every address listed, in a spec or a status. *)
Definition addresses (eips : list OvnEip) : gset string :=
  list_to_set (filter (λ ip, ip ≠ "") (flat_map (λ e, [eipSpecV4Ip e; eipStatusV4Ip e]) eips)).

Definition reconcile : prog () :=
  services ← listServices;
  match services with
  | Err _ => Ret ()
  | Ok services =>
      eips ← listOvnEips;
      match eips with
      | Err _ => Ret ()
      | Ok eips =>
          w ← expose_all (mkSweep (addresses eips) ∅ []) services;
          _ ← gc eips (swWant w);
          reconcilePolicy (swPodIPs w)
      end
  end.
End Controller.

(** ** The configuration (main.go) *)

Section Main.
Context (parseIPv6 : string → option Z) (Getenv : string → string).

Definition env (key def : string) : string := if String.eqb (Getenv key) "" then def else Getenv key.
Definition envInt (key : string) (def : Z) : Z :=
  if String.eqb (Getenv key) "" then def else default def (ParseInt (Getenv key)).

(** What is comma-separated, trimmed, each once after what has been seen. *)
Fixpoint more_cidrs (seen : gset string) (l : list string) : list string :=
  match l with
  | [] => []
  | c :: l =>
      let c := TrimSpace c in
      if negb (String.eqb c "") && negb (bool_decide (c ∈ seen)) then c :: more_cidrs ({[c]} ∪ seen) l else more_cidrs seen l
  end.
Definition return_path (lanCIDR : string) : list string :=
  lanCIDR :: more_cidrs {[lanCIDR]} (Split (Getenv "RETURN_PATH_CIDRS") ",").

Inductive config_error := SiteMissing | BadRange (e : range_error).

(** The interval of the sweeps, and the controller's configuration. *)
Definition main_config : res config_error (Z * config) :=
  let poll := envInt "POLL_INTERVAL" 15 in
  let poll := if poll <=? 0 then 15 else poll in
  let lanCIDR := Getenv "LAN_CIDR" in
  let eipRangeStr := Getenv "EIP_RANGE" in
  if String.eqb lanCIDR "" || String.eqb eipRangeStr "" then Err SiteMissing else
  match parseIPRange parseIPv6 eipRangeStr with
  | Err e => Err (BadRange e)
  | Ok rng =>
      Ok (poll, mkConfig (env "EXPOSE_ANNOTATION" "openinfra.dev/lan-expose") (env "IP_ANNOTATION" "openinfra.dev/lan-ip")
                  (env "ASSIGNED_ANNOTATION" "openinfra.dev/lan-ip-assigned") (env "EXTERNAL_SUBNET" "external")
                  (return_path lanCIDR) (env "DEFAULT_VPC" "ovn-cluster") rng (envInt "POLICY_PRIORITY" 29500))
  end.

Lemma more_cidrs_spec seen l : NoDup (more_cidrs seen l) ∧ ∀ c, c ∈ more_cidrs seen l → c ≠ "" ∧ c ∉ seen.
Proof.
  revert seen. induction l as [|c l IH]; intros seen; cbn [more_cidrs]; [split; [constructor|by intros ? ?%not_elem_of_nil]|].
  case_match eqn:E; [|apply IH]. bool_to_prop. apply bool_decide_eq_false in H0. destruct (IH ({[TrimSpace c]} ∪ seen)) as [Hnd Hin]. split.
  - constructor; [|done]. intros Hc. apply Hin in Hc. set_solver.
  - intros c' [->|Hc]%elem_of_cons; [done|]. apply Hin in Hc. set_solver.
Qed.

(** The LAN's own subnet comes first, no return path is given twice or empty, and the addresses are a range. *)
Lemma main_config_ok poll cfg : main_config = Ok (poll, cfg) →
  0 < poll ∧ (∃ more, lanCIDRs cfg = Getenv "LAN_CIDR" :: more) ∧ NoDup (lanCIDRs cfg) ∧ "" ∉ lanCIDRs cfg ∧
  0 ≤ rStart (eipRange cfg) ≤ rEnd (eipRange cfg) ∧ rEnd (eipRange cfg) < 2 ^ 32.
Proof.
  unfold main_config. case_match eqn:E; [done|]. case_match eqn:Er; [|done]. intros [= <- <-]. cbn [lanCIDRs eipRange].
  apply parseIPRange_wf in Er. bool_to_prop. destruct (more_cidrs_spec {[Getenv "LAN_CIDR"]} (Split (Getenv "RETURN_PATH_CIDRS") ",")) as [Hnd Hin].
  split_and!; [case_match; bool_to_prop; lia|by eexists|..]; [| |lia..]; unfold return_path.
  - constructor; [|done]. intros Hc. apply Hin in Hc. set_solver.
  - intros [Hc|Hc]%elem_of_cons; [done|]. by apply Hin in Hc as [? _].
Qed.
End Main.

(** ** Sweeps against a cluster *)

(** What has been asked and answered, and a cluster: it answers by what was asked before. *)
Definition history := list (request * reply).
Definition cluster := history → request → reply.

Fixpoint trace {A} (srv : cluster) (p : prog A) (h : history) : history :=
  match p with
  | Ret _ | Hang => h
  | Do rq k => trace srv (k (srv h rq)) (h ++ [(rq, srv h rq)])
  end.
Fixpoint result {A} (srv : cluster) (p : prog A) (h : history) : option A :=
  match p with
  | Ret a => Some a
  | Hang => None
  | Do rq k => result srv (k (srv h rq)) (h ++ [(rq, srv h rq)])
  end.

(** Every request is [ok] after what came before it, whatever of [answers] is answered; the program ends, and
    then [Q]. *)
Section Logic.
Context (answers : request → reply → Prop) (ok : history → request → Prop).

Fixpoint wp {A} (p : prog A) (h : history) (Q : A → history → Prop) : Prop :=
  match p with
  | Ret a => Q a h
  | Hang => False
  | Do rq k => ok h rq ∧ ∀ r, answers rq r → wp (k r) (h ++ [(rq, r)]) Q
  end.

Lemma wp_bind {A B} (p : prog A) (f : A → prog B) h Q : wp p h (λ a h, wp (f a) h Q) → wp (p ≫= f) h Q.
Proof.
  revert h. induction p as [a|rq k IH|]; intros h; cbn; [done| |done]. intros [Hok Hk]. split; [done|].
  intros r Hr. by apply IH, Hk.
Qed.

Lemma wp_mono {A} (p : prog A) h (Q R : A → history → Prop) : (∀ a h, Q a h → R a h) → wp p h Q → wp p h R.
Proof.
  intros HQ. revert h. induction p as [a|rq k IH|]; intros h; cbn; [apply HQ| |done]. intros [Hok Hk]. split; [done|].
  intros r Hr. by apply IH, Hk.
Qed.

Lemma wp_do {B} m path ct body (f : reply → prog B) h Q :
  ok h (mkReq m path ct body) → (∀ r, answers (mkReq m path ct body) r → wp (f r) (h ++ [(mkReq m path ct body, r)]) Q) →
  wp (do m path ct body ≫= f) h Q.
Proof. intros Hok Hr. split; [done|exact Hr]. Qed.

(** Every request along a run. *)
Definition all_ok (h h' : history) : Prop :=
  ∃ t, h' = h ++ t ∧ ∀ t1 rq r t2, t = t1 ++ (rq, r) :: t2 → ok (h ++ t1) rq.

Lemma wp_sound {A} srv (p : prog A) h Q : (∀ h rq, answers rq (srv h rq)) → wp p h Q →
  all_ok h (trace srv p h) ∧ ∃ a, result srv p h = Some a ∧ Q a (trace srv p h).
Proof.
  intros Hsrv. revert h. induction p as [a|rq k IH|]; intros h; cbn [wp trace result]; [| |done].
  - intros HQ. split; [|by eauto]. exists []. rewrite app_nil_r. split; [done|]. intros [] ? ? ? [=].
  - intros [Hok Hk]. destruct (IH (srv h rq) _ (Hk _ (Hsrv _ _))) as [(t & Ht & Hall) Hres]. split; [|done].
    exists ((rq, srv h rq) :: t). split; [by rewrite Ht, <- app_assoc|]. intros [|e t1] rq' r t2 E.
    + injection E as <- <- <-. by rewrite app_nil_r.
    + injection E as <- ->. rewrite cons_middle, app_assoc. by eapply Hall.
Qed.

Lemma wp_each {A} (f : A → prog ()) l h (I : history → Prop) :
  I h → (∀ a h, a ∈ l → I h → wp (f a) h (λ _, I)) → wp (each f l) h (λ _, I).
Proof.
  revert h. induction l as [|a l IH]; intros h Hh Hf; [done|]. cbn [each]. apply wp_bind.
  eapply wp_mono; [|apply Hf; [by left|done]]. intros x h' Hh'. apply IH; [done|]. intros b h2 Hb. apply Hf. by right.
Qed.
End Logic.

(** ** What a sweep may ask *)

(** The addresses that a call shows in use: those listed, and one just given. *)
Definition uses (e : request * reply) : gset string :=
  if negb (String.eqb (rqPath e.1) eips_path) then ∅ else
  match rqMethod e.1 with
  | MGet => match read_reply (dec_items dec_eip zero_eip) [] e.2 with Ok eips => addresses eips | Err _ => ∅ end
  | MPost => if is_ok (create_reply e.2) then
               match rqBody e.1 ≫= λ j, dec_eip j zero_eip with Some eip => {[eipSpecV4Ip eip]} | None => ∅ end
             else ∅
  | _ => ∅
  end.
Definition in_use (h : history) : gset string := ⋃ map uses h.

Definition list_services_request : request := mkReq MGet (coreAPI +:+ "/services") "" None.
Definition saw_service (h : history) (s : Service) : Prop :=
  ∃ r services, (list_services_request, r) ∈ h ∧ read_reply (dec_items dec_service zero_service) [] r = Ok services ∧ s ∈ services.
Definition saw_vpc (name : string) (h : history) (v : Vpc) : Prop :=
  ∃ r, (mkReq MGet (vpc_path name) "" None, r) ∈ h ∧ read_reply dec_vpc zero_vpc r = Ok v.

Section Permitted.
Context (cfg : config).

(** An address the sweep gives by itself: of the range, and not one it has seen in use. *)
Definition fresh (h : history) (ip : string) : Prop :=
  ∃ u, ip = u32ToIP u ∧ rStart (eipRange cfg) ≤ u ≤ rEnd (eipRange cfg) ∧ ip ∉ in_use h.
Definition asked (s : Service) : string := TrimSpace (anno s (ipAnno cfg)).
Definition name_of (s : Service) : string := resourceName (svcNamespace s) (svcName s).
Definition exposed_in (h : history) (s : Service) : Prop := saw_service h s ∧ exposed cfg s = true.

Inductive permitted (h : history) : request → Prop :=
| may_read path : permitted h (mkReq MGet path "" None)
| may_create_eip s ip : exposed_in h s → (asked s ≠ "" ∧ ip = asked s) ∨ fresh h ip →
    permitted h (mkReq MPost eips_path "application/json" (Some (eip_doc (name_of s) (externalSubnet cfg) ip)))
| may_create_fip s pod : exposed_in h s → running pod = true →
    permitted h (mkReq MPost fips_path "application/json" (Some (fip_doc (name_of s) (name_of s) (wantIPName pod))))
| may_create_netpol s : exposed_in h s →
    permitted h (mkReq MPost (netpols_path (svcNamespace s)) "application/json"
                   (Some (netpol_doc (svcNamespace s) (name_of s) (svcSelector s) (lanCIDRs cfg))))
| may_update_netpol s : exposed_in h s →
    permitted h (mkReq MPatch (netpol_path (svcNamespace s) (name_of s)) merge_patch (Some (netpol_patch (lanCIDRs cfg))))
| may_publish s ip : exposed_in h s →
    permitted h (mkReq MPatch (service_path (svcNamespace s) (svcName s)) merge_patch (Some (annotations_doc {[ assignedAnno cfg := ip ]})))
| may_delete_eip n : HasPrefix n managedPrefix = true → permitted h (mkReq MDelete (eip_path n) "" None)
| may_delete_fip n : HasPrefix n managedPrefix = true → permitted h (mkReq MDelete (fip_path n) "" None)
| may_delete_netpol ns n : HasPrefix n managedPrefix = true → permitted h (mkReq MDelete (netpol_path ns n) "" None)
| may_route v ips routes : saw_vpc (defaultVPC cfg) h v →
    routes ≡ₚ foreign (policyPriority cfg) (vpcPolicyRoutes v) ++ wanted ips (policyPriority cfg) (lanCIDRs cfg) →
    permitted h (mkReq MPatch (vpc_path (defaultVPC cfg)) merge_patch (Some (routes_doc routes))).

Local Abbreviation wpp := (wp (λ _ _, True) permitted).

(** A later history that shows no other address in use. *)
Definition quiet (h h' : history) : Prop := (∃ t, h' = h ++ t) ∧ in_use h' = in_use h.

#[local] Instance quiet_refl : Reflexive quiet.
Proof. intros h. split; [exists []; by rewrite app_nil_r|done]. Qed.
#[local] Instance quiet_trans : Transitive quiet.
Proof. intros h1 h2 h3 [[t ->] E] [[t' ->] E']. split; [exists (t ++ t'); by rewrite app_assoc|congruence]. Qed.

Lemma in_use_snoc h e : in_use (h ++ [e]) = in_use h ∪ uses e.
Proof. unfold in_use. rewrite map_app, union_list_app_L. cbn. by rewrite union_empty_r_L. Qed.

Lemma quiet_snoc h rq r : String.eqb (rqPath rq) eips_path = false → quiet h (h ++ [(rq, r)]).
Proof.
  intros Hp. split; [by eexists|]. rewrite in_use_snoc. unfold uses. cbn [fst]. rewrite Hp. cbn. set_solver.
Qed.

Lemma exposed_in_app h t s : exposed_in h s → exposed_in (h ++ t) s.
Proof. intros [(r & l & Hr & Hl) He]. split; [|done]. exists r, l. split; [|done]. apply elem_of_app. by left. Qed.
Lemma exposed_in_quiet h h' s : quiet h h' → exposed_in h s → exposed_in h' s.
Proof. intros [[t ->] _]. apply exposed_in_app. Qed.

Lemma name_of_managed s : HasPrefix (name_of s) managedPrefix = true.
Proof. apply HasPrefix_spec. by eexists. Qed.

(** A call of another path shows nothing. *)
Lemma call_quiet {B} (g : reply → B) m path ct body h : permitted h (mkReq m path ct body) → String.eqb path eips_path = false →
  wpp (do m path ct body ≫= λ r, Ret (g r)) h (λ _ h', quiet h h').
Proof. intros Hp Hn. apply wp_do; [done|]. intros r _. cbn. by apply quiet_snoc. Qed.

Ltac call := apply call_quiet; [by constructor|by cbn].

Lemma pickEndpoint_wp h s : wpp (pickEndpoint s) h (λ pod h', quiet h h' ∧ ∀ p, pod = Some p → running p = true).
Proof.
  unfold pickEndpoint. apply wp_bind. unfold listPods.
  assert (Hf : ∀ (pods : res client_error (list Pod)) p, match pods with Ok pods => List.find running pods | Err _ => None end = Some p → running p = true).
  { intros [pods|e] p; [|done]. intros Hp%List.find_some. by destruct Hp. }
  case_bool_decide; cbn; [done|]. split; [constructor|]. intros r _. split; [by apply quiet_snoc|apply Hf].
Qed.

Lemma getOvnEip_wp h n : wpp (getOvnEip n) h (λ _ h', quiet h h').
Proof. call. Qed.
Lemma getOvnFip_wp h n : wpp (getOvnFip n) h (λ _ h', quiet h h').
Proof. call. Qed.
Lemma deleteOvnEip_wp h n : HasPrefix n managedPrefix = true → wpp (deleteOvnEip n) h (λ _ h', quiet h h').
Proof. intros Hn. call. Qed.
Lemma deleteOvnFip_wp h n : HasPrefix n managedPrefix = true → wpp (deleteOvnFip n) h (λ _ h', quiet h h').
Proof. intros Hn. call. Qed.
Lemma deleteNetworkPolicy_wp h ns n : HasPrefix n managedPrefix = true → wpp (deleteNetworkPolicy ns n) h (λ _ h', quiet h h').
Proof. intros Hn. call. Qed.
Lemma createOvnFip_wp h s pod : exposed_in h s → running pod = true →
  wpp (createOvnFip (name_of s) (name_of s) (wantIPName pod)) h (λ _ h', quiet h h').
Proof. intros Hs Hp. call. Qed.

Lemma createLanNetpol_wp h s : exposed_in h s →
  wpp (createLanNetpol (svcNamespace s) (name_of s) (svcSelector s) (lanCIDRs cfg)) h (λ _ h', quiet h h').
Proof. intros Hs. apply call_quiet; [by apply may_create_netpol|done]. Qed.
Lemma updateLanNetpolCIDRs_wp h s : exposed_in h s →
  wpp (updateLanNetpolCIDRs (svcNamespace s) (name_of s) (lanCIDRs cfg)) h (λ _ h', quiet h h').
Proof. intros Hs. apply call_quiet; [by apply may_update_netpol|done]. Qed.
Lemma getLanNetpolCIDRs_wp h ns n : wpp (getLanNetpolCIDRs ns n) h (λ _ h', quiet h h').
Proof. call. Qed.
Lemma patchServiceAnnotations_wp h s ip : exposed_in h s →
  wpp (patchServiceAnnotations (svcNamespace s) (svcName s) {[ assignedAnno cfg := ip ]}) h (λ _ h', quiet h h').
Proof. intros Hs. apply call_quiet; [by apply may_publish|done]. Qed.

(** Chains two programs, the second from a quiet extension of the history. *)
Ltac step lem := apply wp_bind; eapply wp_mono; [|apply lem; auto using name_of_managed]; cbn beta.

Lemma ensureFip_wp h s pod : exposed_in h s → running pod = true → wpp (ensureFip (name_of s) pod) h (λ _ h', quiet h h').
Proof.
  intros Hs Hp. unfold ensureFip. step getOvnFip_wp. intros fip h1 H1. pose proof (exposed_in_quiet _ _ _ H1 Hs) as Hs1.
  destruct fip as [[fip|]|]; [case_match; [done|]| |done].
  - step deleteOvnFip_wp. intros _ h2 H2. exact (quiet_trans _ _ _ H1 H2).
  - step createOvnFip_wp. intros created h2 H2. exact (quiet_trans _ _ _ H1 H2).
Qed.

Lemma ensureNetpol_wp h s : exposed_in h s → wpp (ensureNetpol cfg (name_of s) (svcNamespace s) (svcSelector s)) h (λ _ h', quiet h h').
Proof.
  intros Hs. unfold ensureNetpol. case_bool_decide; [by apply quiet_refl|]. step getLanNetpolCIDRs_wp.
  intros cur h1 H1. pose proof (exposed_in_quiet _ _ _ H1 Hs) as Hs1.
  destruct cur as [[cur|]|]; [case_match; [exact H1|]| |exact H1];
    (eapply wp_mono; [|first [by apply updateLanNetpolCIDRs_wp|by apply createLanNetpol_wp]]); intros x h2 H2; exact (quiet_trans _ _ _ H1 H2).
Qed.

Lemma publish_wp h s ip : exposed_in h s → wpp (publish cfg s ip) h (λ _ h', quiet h h').
Proof.
  intros Hs. unfold publish. case_match; [by apply quiet_refl|]. by step patchServiceAnnotations_wp.
Qed.

Lemma createOvnEip_wp h s ip : exposed_in h s → (asked s ≠ "" ∧ ip = asked s) ∨ fresh h ip →
  wpp (createOvnEip (name_of s) (externalSubnet cfg) ip) h
    (λ created h', (∃ t, h' = h ++ t) ∧ in_use h' ⊆ (if is_ok created then {[ip]} else ∅) ∪ in_use h).
Proof.
  intros Hs Hip. apply wp_do; [by constructor|]. intros r _. cbn. split; [by eexists|]. rewrite in_use_snoc.
  unfold uses. cbn [fst snd rqPath rqMethod rqBody]. rewrite String.eqb_refl. cbn [negb].
  cbn [mbind option_bind]. rewrite dec_eip_doc. cbn [eipSpecV4Ip]. case_match; set_solver.
Qed.

(** What a later history shows in use is in [used]. *)
Definition covered (h : history) (used : gset string) (h' : history) : Prop := (∃ t, h' = h ++ t) ∧ in_use h' ⊆ used.

Lemma covered_quiet h used h1 h2 : covered h used h1 → quiet h1 h2 → covered h used h2.
Proof. intros [[t ->] Hu] [[t' ->] E]. split; [exists (t ++ t'); by rewrite app_assoc|by rewrite E]. Qed.
Lemma quiet_covered h used h1 : in_use h ⊆ used → quiet h h1 → covered h used h1.
Proof. intros Hu. apply covered_quiet. split; [exists []; by rewrite app_nil_r|done]. Qed.
Lemma covered_exposed h used h1 s : covered h used h1 → exposed_in h s → exposed_in h1 s.
Proof. intros [[t ->] _]. apply exposed_in_app. Qed.
Lemma covered_trans h used used' h1 h2 : covered h used h1 → covered h1 used' h2 → covered h used' h2.
Proof. intros [[t ->] _] [[t' ->] Hu]. split; [exists (t ++ t'); by rewrite app_assoc|done]. Qed.

Hypothesis Hrange : wf_range (eipRange cfg).

Lemma choose_eip_wp h s existing used : in_use h ⊆ used →
  wpp (choose_eip cfg s existing used) h (λ chosen h', h' = h ∧
    ∀ ip, existing = None → chosen = Some ip → (asked s ≠ "" ∧ ip = asked s) ∨ fresh h ip).
Proof.
  intros Hu. unfold choose_eip. fold (asked s). destruct (String.eqb_spec (asked s) "") as [Ha|Ha]; cbn [negb].
  2:{ split; [done|]. intros ip _ [= <-]. by left. }
  destruct existing as [e|]; cbn [negb String.eqb].
  - case_match; [by split|]. destruct (allocate_lowest _ used Hrange) as (free & -> & _). by split.
  - destruct (allocate_lowest _ used Hrange) as (free & -> & Hfree). split; [done|]. intros ip _. case_match; [done|].
    intros [= <-]. right. bool_to_prop. destruct Hfree as [[? _]|(u & -> & Hr & Hn & _)]; [done|]. exists u. set_solver.
Qed.

Lemma ensureEip_wp h s used : exposed_in h s → in_use h ⊆ used →
  wpp (ensureEip cfg (name_of s) s used) h (λ eip h', covered h (match eip with Some ip => {[ip]} ∪ used | None => used end) h').
Proof.
  intros Hs Hu. unfold ensureEip. step getOvnEip_wp. intros existing h1 H1. pose proof (exposed_in_quiet _ _ _ H1 Hs) as Hs1.
  pose proof (quiet_covered _ _ _ Hu H1) as Hc. destruct existing as [existing|]; [|exact Hc].
  assert (Hu1 : in_use h1 ⊆ used) by apply Hc.
  step choose_eip_wp. intros chosen h' [-> Hchosen].
  destruct chosen as [ip|]; [|exact Hc]. destruct existing as [e|].
  - case_match; [split; [apply Hc|cbn; set_solver]|].
    step deleteOvnFip_wp. intros _ h2 H2. step deleteOvnEip_wp. intros _ h3 H3. cbn.
    eapply covered_quiet; [|exact H3]. by eapply covered_quiet.
  - apply wp_bind. eapply wp_mono; [|apply createOvnEip_wp; auto]. intros created h2 [Ht Hu2]. cbn.
    apply (covered_trans _ used _ h1); [done|]. split; [done|]. destruct (is_ok created); set_solver.
Qed.

Lemma expose_wp h w s : saw_service h s → in_use h ⊆ swUsed w → wpp (expose cfg w s) h (λ w' h', covered h (swUsed w') h').
Proof.
  intros Hsaw Hu. unfold expose. destruct (exposed cfg s) eqn:He; cbn [negb]; [|by apply quiet_covered, quiet_refl].
  fold (name_of s). assert (Hs : exposed_in h s) by done.
  step pickEndpoint_wp. intros pod h1 [H1 Hpod]. pose proof (quiet_covered _ _ _ Hu H1) as Hc1.
  destruct pod as [pod|]; [|exact Hc1]. specialize (Hpod pod eq_refl). apply wp_bind.
  eapply wp_mono; [|apply ensureEip_wp; [by eapply covered_exposed|apply Hc1]]. intros eip h2 Hc2.
  pose proof (covered_trans _ _ _ _ _ Hc1 Hc2) as Hc2'. clear Hc2. destruct eip as [eip|]; [|exact Hc2'].
  pose proof (covered_exposed _ _ _ _ Hc2' Hs) as Hs2.
  step ensureFip_wp. intros bound h3 H3. pose proof (covered_quiet _ _ _ _ Hc2' H3) as Hc3. destruct bound; cbn [negb]; [|exact Hc3].
  pose proof (covered_exposed _ _ _ _ Hc3 Hs) as Hs3.
  step ensureNetpol_wp. intros _ h4 H4. pose proof (covered_quiet _ _ _ _ Hc3 H4) as Hc4. pose proof (covered_exposed _ _ _ _ Hc4 Hs) as Hs4.
  step publish_wp. intros _ h5 H5. exact (covered_quiet _ _ _ _ Hc4 H5).
Qed.

Lemma expose_all_wp h w services : (∀ s, s ∈ services → saw_service h s) → in_use h ⊆ swUsed w →
  wpp (expose_all cfg w services) h (λ _ h', ∃ t, h' = h ++ t).
Proof.
  revert h w. induction services as [|s services IH]; intros h w Hsaw Hu; [exists []; by rewrite app_nil_r|].
  cbn [expose_all]. apply wp_bind. eapply wp_mono; [|apply expose_wp; [apply Hsaw; by left|done]].
  intros w' h1 [[t ->] Hu1]. eapply wp_mono; [|apply IH; [|done]].
  - intros _ h2 [t' ->]. exists (t ++ t'). by rewrite app_assoc.
  - intros s' Hs'. destruct (Hsaw s' ltac:(by right)) as (r & l & Hr & Hl). exists r, l. split; [|done]. apply elem_of_app. by left.
Qed.

Lemma dropped_managed keep n : dropped keep n = true → HasPrefix n managedPrefix = true.
Proof. unfold dropped. by intros [? _]%andb_true_iff. Qed.

Lemma gc_wp h eips keep : wpp (gc eips keep) h (λ _ _, True).
Proof.
  unfold gc. apply wp_bind. eapply wp_mono; [|apply (wp_each _ _ _ _ _ (λ _, True)); [done|]].
  - intros _ h1 _. apply wp_bind. eapply (wp_mono _ _ _ _ (λ _ _, True)); [|split; [constructor|done]]. intros nps h2 _.
    destruct nps as [nps|]; [|done]. apply wp_each; [done|]. intros n h3 _ _. unfold gc_netpol.
    destruct (dropped keep (npName n)) eqn:Hd; [|done]. apply dropped_managed in Hd. by step deleteNetworkPolicy_wp.
  - intros e h1 _ _. unfold gc_eip. destruct (dropped keep (eipName e)) eqn:Hd; [|done]. apply dropped_managed in Hd.
    step deleteOvnFip_wp. intros _ h2 _. by step deleteOvnEip_wp.
Qed.

Lemma reconcilePolicy_wp h ips : wpp (reconcilePolicy cfg ips) h (λ _ _, True).
Proof.
  unfold reconcilePolicy. apply wp_bind. unfold getVpc. apply wp_do; [constructor|]. intros r _. cbn [wp].
  destruct (read_reply dec_vpc zero_vpc r) as [v|] eqn:Hr; [|done]. case_match; [done|]. apply wp_bind. split; [|done].
  apply (may_route _ v ips); [|apply merge_perm]. exists r. split; [|done]. apply elem_of_app. right. by left.
Qed.

Lemma reconcile_wp : wpp (reconcile cfg) [] (λ _ _, True).
Proof.
  unfold reconcile. apply wp_bind. unfold listServices. apply wp_do; [constructor|]. intros r _. cbn [wp].
  destruct (read_reply (dec_items dec_service zero_service) [] r) as [services|] eqn:Hr; [|done].
  apply wp_bind. unfold listOvnEips. apply wp_do; [constructor|]. intros r' _. cbn [wp].
  destruct (read_reply (dec_items dec_eip zero_eip) [] r') as [eips|] eqn:Hr'; [|done].
  apply wp_bind. eapply wp_mono; [|apply expose_all_wp].
  - intros w h1 _. apply wp_bind. eapply wp_mono; [|apply gc_wp]. intros _ h2 _. apply reconcilePolicy_wp.
  - intros s Hs. exists r, services. split; [|done]. by left.
  - cbn [app swUsed]. unfold in_use. cbn [map]. unfold uses at 1 2. cbn -[addresses dec_items]. rewrite Hr'. set_solver.
Qed.
End Permitted.

(** ** A settled cluster *)

Section Settled.
Context (cfg : config) (view : request → reply).

Definition get (path : string) : reply := view (mkReq MGet path "" None).

(** The object behind an exposed Service is as the sweep would make it. *)
Record settled_service (s : Service) (pod : Pod) (e : OvnEip) : Prop := {
  st_selector : svcSelector s ≠ ∅;
  st_pod : ∃ pods, read_reply (dec_items dec_pod zero_pod) []
             (get (coreAPI +:+ "/namespaces/" +:+ svcNamespace s +:+ "/pods?labelSelector=" +:+
                   QueryEscape (selector_text (map_to_list (svcSelector s))))) = Ok pods ∧ List.find running pods = Some pod;
  st_eip : read_optional dec_eip zero_eip (get (eip_path (name_of s))) = Ok (Some e) ∧ eipSpecV4Ip e ≠ "";
  st_asked : asked cfg s = "" ∨ asked cfg s = eipSpecV4Ip e;
  st_fip : ∃ f, read_optional dec_fip zero_fip (get (fip_path (name_of s))) = Ok (Some f) ∧ fipIPName f = wantIPName pod;
  st_netpol : ∃ ingress, read_optional dec_ingress [] (get (netpol_path (svcNamespace s) (name_of s))) = Ok (Some ingress) ∧
                sameCIDRSet (netpol_cidrs ingress) (lanCIDRs cfg) = true;
  st_published : anno s (assignedAnno cfg) = eipSpecV4Ip e
}.

(** The Services that are exposed, each with the pod it is served by. *)
Inductive settled_services : list Service → list (Service * Pod) → Prop :=
| ss_nil : settled_services [] []
| ss_hidden s ss l : exposed cfg s = false → settled_services ss l → settled_services (s :: ss) l
| ss_exposed s ss l pod e : exposed cfg s = true → settled_service s pod e → settled_services ss l → settled_services (s :: ss) ((s, pod) :: l).

Record settled (services : list Service) (served : list (Service * Pod)) (eips : list OvnEip) (nps : list NetworkPolicy) (v : Vpc) : Prop := {
  st_services : read_reply (dec_items dec_service zero_service) [] (get (coreAPI +:+ "/services")) = Ok services;
  st_served : settled_services services served;
  st_eips : read_reply (dec_items dec_eip zero_eip) [] (get eips_path) = Ok eips;
  st_owned_eips : ∀ e, e ∈ eips → HasPrefix (eipName e) managedPrefix = true → ∃ sp, sp ∈ served ∧ eipName e = name_of sp.1;
  st_netpols : read_reply (dec_items dec_netpol zero_netpol) []
                 (get (netpolAPI +:+ "/networkpolicies?labelSelector=" +:+ QueryEscape "app.kubernetes.io/managed-by=lan-expose")) = Ok nps;
  st_owned_netpols : ∀ n, n ∈ nps → HasPrefix (npName n) managedPrefix = true → ∃ sp, sp ∈ served ∧ npName n = name_of sp.1;
  st_vpc : read_reply dec_vpc zero_vpc (get (vpc_path (defaultVPC cfg))) = Ok v;
  st_routes : sortRoutes (vpcPolicyRoutes v) = mergePolicyRoutes (vpcPolicyRoutes v) (map (λ sp, podIP sp.2) served) (policyPriority cfg) (lanCIDRs cfg)
}.

Local Abbreviation wps := (wp (λ rq r, r = view rq) (λ _ rq, rqMethod rq = MGet)).

Lemma settled_read {B} (g : reply → B) path h : wps (do MGet path "" None ≫= λ r, Ret (g r)) h (λ x _, x = g (get path)).
Proof. apply wp_do; [done|]. by intros r ->. Qed.

Ltac read_step := apply wp_bind; eapply wp_mono; [|apply settled_read]; cbn beta; intros ? ? ->.

Lemma settled_expose w s pod e h : exposed cfg s = true → settled_service s pod e →
  wps (expose cfg w s) h (λ w' _, swWant w' = {[name_of s]} ∪ swWant w ∧ swPodIPs w' = swPodIPs w ++ [podIP pod]).
Proof.
  intros He [Hsel (pods & Hpods & Hfind) [Heip Hne] Hasked (f & Hf & Hip) (ing & Hing & Hsame) Hpub]. unfold expose. rewrite He. cbn [negb].
  fold (name_of s). unfold pickEndpoint, listPods. rewrite bool_decide_eq_false_2 by done. apply wp_bind. read_step. rewrite Hpods. cbn [wp].
  rewrite Hfind. unfold ensureEip. apply wp_bind. unfold getOvnEip. read_step. rewrite Heip. unfold choose_eip. fold (asked cfg s).
  assert (Hc : ∀ (k : option string → prog (option string)), (if negb (String.eqb (asked cfg s) "") then Ret (Some (asked cfg s))
    else if negb (String.eqb (eipSpecV4Ip e) "") then Ret (Some (eipSpecV4Ip e)) else match allocate (eipRange cfg) (swUsed w) with None => Hang | Some free => Ret (if String.eqb free "" then None else Some free) end) ≫= k = k (Some (eipSpecV4Ip e))).
  { intros k. destruct Hasked as [->| ->]; apply String.eqb_neq in Hne; rewrite Hne; done. }
  rewrite Hc. rewrite String.eqb_refl. cbn [wp]. unfold ensureFip. apply wp_bind. unfold getOvnFip. read_step. rewrite Hf, Hip, String.eqb_refl. cbn [wp negb].
  unfold ensureNetpol. rewrite bool_decide_eq_false_2 by done. apply wp_bind. unfold getLanNetpolCIDRs. read_step. rewrite Hing. cbn [fmap res_fmap option_map].
  rewrite Hsame. cbn [wp]. unfold publish. rewrite Hpub, String.eqb_refl. done.
Qed.

Lemma settled_expose_all services served w h : settled_services services served →
  wps (expose_all cfg w services) h (λ w' _, (∀ sp, sp ∈ served → name_of sp.1 ∈ swWant w') ∧ swWant w ⊆ swWant w' ∧
    swPodIPs w' = swPodIPs w ++ map (λ sp, podIP sp.2) served).
Proof.
  intros Hs. revert w h. induction Hs as [|s ss l He _ IH|s ss l pod e He Hse _ IH]; intros w h; cbn [expose_all].
  - split_and!; [by intros ? ?%not_elem_of_nil|done|by rewrite app_nil_r].
  - apply wp_bind. unfold expose. rewrite He. apply IH.
  - apply wp_bind. eapply wp_mono; [|by eapply settled_expose]. intros w1 h1 [Hw1 Hp1]. eapply wp_mono; [|apply IH].
    intros w2 h2 (H1 & H2 & H3). split_and!; [|set_solver|by rewrite H3, Hp1, <- app_assoc].
    intros sp [->|Hsp]%elem_of_cons; [set_solver|by apply H1].
Qed.

Lemma settled_reconcile services served eips nps v : settled services served eips nps v → wps (reconcile cfg) [] (λ _ _, True).
Proof.
  intros []. unfold reconcile, listServices. apply wp_bind. read_step. rewrite st_services0. apply wp_bind. unfold listOvnEips. read_step. rewrite st_eips0.
  apply wp_bind. eapply wp_mono; [|by apply settled_expose_all]. intros w h2 (Hwant & _ & Hips). cbn [swPodIPs app] in Hips.
  assert (Hkeep : ∀ n, (∃ sp, sp ∈ served ∧ n = name_of sp.1) → dropped (swWant w) n = false).
  { intros n (sp & Hsp & ->). unfold dropped. rewrite bool_decide_eq_true_2 by auto. apply andb_false_r. }
  assert (Hk : ∀ n, (HasPrefix n managedPrefix = true → ∃ sp, sp ∈ served ∧ n = name_of sp.1) → dropped (swWant w) n = false).
  { intros n Hn. destruct (HasPrefix n managedPrefix) eqn:E; [by apply Hkeep, Hn|]. unfold dropped. by rewrite E. }
  apply wp_bind. eapply (wp_mono _ _ _ _ (λ _ _, True)).
  - intros _ h3 _. unfold reconcilePolicy. apply wp_bind. unfold getVpc. read_step. rewrite st_vpc0. cbn [wp]. cbn zeta. rewrite st_routes0, Hips.
    unfold policyRoutesEqual. by rewrite bool_decide_eq_true_2.
  - unfold gc. apply wp_bind. eapply wp_mono; [|apply (wp_each _ _ _ _ _ (λ _, True)); [done|]].
    + intros _ h3 _. apply wp_bind. unfold listManagedNetpols. read_step. rewrite st_netpols0. apply wp_each; [done|]. intros n h4 Hn _.
      unfold gc_netpol. by rewrite (Hk (npName n)) by auto.
    + intros e h3 Hin _. unfold gc_eip. by rewrite (Hk (eipName e)) by auto.
Qed.
End Settled.

(** ** Collecting what is not kept *)

Definition eip_deletions (keep : gset string) (eips : list OvnEip) : list request :=
  flat_map (λ e, [mkReq MDelete (fip_path (eipName e)) "" None; mkReq MDelete (eip_path (eipName e)) "" None])
    (filter (λ e, dropped keep (eipName e) = true) eips).
Definition netpol_deletions (keep : gset string) (nps : list NetworkPolicy) : list request :=
  map (λ n, mkReq MDelete (netpol_path (npNamespace n) (npName n)) "" None) (filter (λ n, dropped keep (npName n) = true) nps).

Definition list_netpols_request : request :=
  mkReq MGet (netpolAPI +:+ "/networkpolicies?labelSelector=" +:+ QueryEscape "app.kubernetes.io/managed-by=lan-expose") "" None.

Lemma trace_bind {A B} srv (p : prog A) (f : A → prog B) h :
  trace srv (p ≫= f) h = match result srv p h with Some a => trace srv (f a) (trace srv p h) | None => trace srv p h end.
Proof. revert h. induction p as [a|rq k IH|]; intros h; cbn; [done|apply IH|done]. Qed.
Lemma result_bind {A B} srv (p : prog A) (f : A → prog B) h :
  result srv (p ≫= f) h = result srv p h ≫= λ a, result srv (f a) (trace srv p h).
Proof. revert h. induction p as [a|rq k IH|]; intros h; cbn; [done|apply IH|done]. Qed.

(** The program sends [rqs], whatever is answered. *)
Definition sends (srv : cluster) (p : prog ()) (rqs : list request) : Prop :=
  ∀ h, ∃ t, trace srv p h = h ++ t ∧ map fst t = rqs ∧ result srv p h = Some ().

Lemma sends_each {A} srv (f : A → prog ()) (rqs : A → list request) l :
  (∀ a, sends srv (f a) (rqs a)) → sends srv (each f l) (flat_map rqs l).
Proof.
  intros Hf. induction l as [|a l IH]; intros h; cbn [each flat_map]; [exists []; by rewrite app_nil_r|].
  destruct (Hf a h) as (t & Ht & Hm & Hr). destruct (IH (h ++ t)) as (t' & Ht' & Hm' & Hr').
  exists (t ++ t'). by rewrite trace_bind, result_bind, Hr, Ht, Ht', app_assoc, map_app, Hm, Hm'.
Qed.

Lemma flat_map_if {A B} (P : A → bool) (f : A → list B) l :
  flat_map (λ a, if P a then f a else []) l = flat_map f (filter (λ a, P a = true) l).
Proof.
  induction l as [|a l IH]; [done|]. cbn [flat_map]. destruct (P a) eqn:E.
  - rewrite filter_cons_True by done. cbn. by rewrite IH.
  - rewrite filter_cons_False by congruence. done.
Qed.

Lemma gc_eips_sends srv keep eips : sends srv (each (gc_eip keep) eips) (eip_deletions keep eips).
Proof.
  unfold eip_deletions. rewrite <- (flat_map_if (λ e, dropped keep (eipName e))). apply sends_each. intros e h. unfold gc_eip.
  destruct (dropped keep (eipName e)); [|exists []; by rewrite app_nil_r].
  eexists. cbn [trace result mbind prog_bind prog_bind_go deleteOvnFip deleteOvnEip delete do]. rewrite <- app_assoc. done.
Qed.

Lemma gc_netpols_sends srv keep nps : sends srv (each (gc_netpol keep) nps) (netpol_deletions keep nps).
Proof.
  unfold netpol_deletions.
  replace (map _ _) with (flat_map (λ n, [mkReq MDelete (netpol_path (npNamespace n) (npName n)) "" None]) (filter (λ n, dropped keep (npName n) = true) nps)).
  2:{ induction (filter _ nps) as [|n l IH]; [done|]. cbn [flat_map map app]. by f_equal. }
  rewrite <- (flat_map_if (λ n, dropped keep (npName n))). apply sends_each. intros n h. unfold gc_netpol.
  destruct (dropped keep (npName n)); [|exists []; by rewrite app_nil_r].
  eexists. cbn [trace result mbind prog_bind prog_bind_go deleteNetworkPolicy delete do]. done.
Qed.

(** ** A cluster to evaluate on *)

Module Example.
Definition cfg : config := mkConfig "expose" "ip" "assigned" "external" ["192.0.2.0/24"] "ovn-cluster" (mkRange 3221225985 3221225986) 29500.
Definition meta (m : list (string * doc)) : doc := DObj [("metadata", DObj m)].
Definition web : doc := DObj [("metadata", DObj [("name", DStr "web"); ("namespace", DStr "default"); ("annotations", DObj [("expose", DStr "True")])]);
                              ("spec", DObj [("selector", DObj [("app", DStr "web")])])].
Definition pod : doc := DObj [("metadata", DObj [("name", DStr "web-0"); ("namespace", DStr "default")]);
                              ("status", DObj [("podIP", DStr "10.0.0.5"); ("phase", DStr "Running")])].
Definition items (l : list doc) : reply := Reply 200 (Some (DObj [("items", DArr l)])).
Definition other_route : PolicyRoute := mkRoute 31000 "ip4.dst == 10.9.0.0/16" "reroute" "10.0.0.1".

(** A Service, its pods, and the objects there are. *)
Definition serve (pods eips : list doc) (objects : list (string * doc)) : cluster := λ _ rq,
  match rqMethod rq with
  | MGet =>
      if String.eqb (rqPath rq) (coreAPI +:+ "/services") then items [web]
      else if HasPrefix (rqPath rq) "/api/v1/namespaces/default/pods" then items pods
      else if String.eqb (rqPath rq) eips_path then items eips
      else if HasPrefix (rqPath rq) "/apis/networking.k8s.io/v1/networkpolicies?" then items []
      else match List.find (λ o, String.eqb o.1 (rqPath rq)) objects with
           | Some o => Reply 200 (Some o.2)
           | None => Reply 404 None
           end
  | MPost => Reply 201 None
  | _ => Reply 200 None
  end.
Definition vpc : string * doc := (vpc_path "ovn-cluster", routes_doc [other_route]).
Definition fresh_cluster : cluster := serve [pod] [] [vpc].

(** The same cluster once it has stored what the first sweep wrote. *)
Definition service : Service := default zero_service (dec_service web zero_service).
Definition web_annotated : doc := DObj [("metadata", DObj [("name", DStr "web"); ("namespace", DStr "default");
                                                           ("annotations", DObj [("expose", DStr "True"); ("assigned", DStr "192.0.2.1")])]);
                                        ("spec", DObj [("selector", DObj [("app", DStr "web")])])].
Definition annotated : Service := default zero_service (dec_service web_annotated zero_service).
Definition the_pod : Pod := mkPod "web-0" "default" "10.0.0.5" "Running".
Definition rn : string := "lanexpose-default-web".
Definition eip_object : doc := eip_doc rn "external" "192.0.2.1".
Definition routes : list PolicyRoute := mergePolicyRoutes [other_route] ["10.0.0.5"] 29500 ["192.0.2.0/24"].
Definition stored (rq : request) : reply :=
  if String.eqb (rqPath rq) (coreAPI +:+ "/services") then items [web_annotated]
  else serve [pod] [eip_object]
    [(eip_path rn, eip_object); (fip_path rn, fip_doc rn rn "web-0.default");
     (netpol_path "default" rn, netpol_doc "default" rn {[ "app" := "web" ]} ["192.0.2.0/24"]); (vpc_path "ovn-cluster", routes_doc routes)] [] rq.
End Example.

(** ** Properties *)

Section Sweep.
Context (cfg : config).

(** C10: Whatever the cluster answers, a sweep ends, and writes only the objects of Services that are exposed and
    the collected ones of its own name, with addresses asked for or free, and the VPC routes with every
    foreign one kept. *)
Theorem sweep_permitted srv : wf_range (eipRange cfg) →
  result srv (reconcile cfg) [] = Some () ∧
  ∀ before rq r after, trace srv (reconcile cfg) [] = before ++ (rq, r) :: after → permitted cfg before rq.
Proof.
  intros Hr. destruct (wp_sound _ _ srv _ _ _ (λ _ _, I) (reconcile_wp cfg Hr)) as [(t & Ht & Hall) (a & Ha & _)].
  split; [by destruct a|]. intros before rq r after E. rewrite Ht in E. exact (Hall _ _ _ _ E).
Qed.

Lemma sweep_ok srv before rq r after : wf_range (eipRange cfg) → trace srv (reconcile cfg) [] = before ++ (rq, r) :: after → permitted cfg before rq.
Proof.
  intros Hr E. destruct (wp_sound _ _ srv _ _ _ (λ _ _, I) (reconcile_wp cfg Hr)) as [(t & Ht & Hall) _].
  rewrite Ht in E. exact (Hall _ _ _ _ E).
Qed.

Lemma in_use_listed h r eips ip : (mkReq MGet eips_path "" None, r) ∈ h → read_reply (dec_items dec_eip zero_eip) [] r = Ok eips →
  ip ∈ addresses eips → ip ∈ in_use h.
Proof.
  intros Hin Hr Hip. unfold in_use. apply elem_of_union_list. exists (uses (mkReq MGet eips_path "" None, r)).
  split; [by apply list_elem_of_fmap_2|]. unfold uses. cbn [fst snd rqPath rqMethod]. rewrite String.eqb_refl, Hr. done.
Qed.

Lemma in_use_created h n subnet ip r : (mkReq MPost eips_path "application/json" (Some (eip_doc n subnet ip)), r) ∈ h →
  is_ok (create_reply r) = true → ip ∈ in_use h.
Proof.
  intros Hin Hr. unfold in_use. apply elem_of_union_list. eexists. split; [by eapply list_elem_of_fmap_2|].
  unfold uses. cbn [fst snd rqPath rqMethod rqBody mbind option_bind]. rewrite String.eqb_refl, Hr, dec_eip_doc. cbn. set_solver.
Qed.

(** C17: An address the sweep gives by itself is of the range, listed by no OvnEip it saw, and given to none it
    created before in the same sweep. *)
Theorem addresses_fresh srv before n subnet ip r after : wf_range (eipRange cfg) →
  trace srv (reconcile cfg) [] = before ++ (mkReq MPost eips_path "application/json" (Some (eip_doc n subnet ip)), r) :: after →
  (∃ s, exposed_in cfg before s ∧ n = name_of s ∧ ip = asked cfg s ∧ ip ≠ "") ∨
  ((∃ u, ip = u32ToIP u ∧ rStart (eipRange cfg) ≤ u ≤ rEnd (eipRange cfg)) ∧
   (∀ r' eips, (mkReq MGet eips_path "" None, r') ∈ before → read_reply (dec_items dec_eip zero_eip) [] r' = Ok eips → ip ∉ addresses eips) ∧
   (∀ n' subnet' r', (mkReq MPost eips_path "application/json" (Some (eip_doc n' subnet' ip)), r') ∈ before → is_ok (create_reply r') = false)).
Proof.
  intros Hr E. apply sweep_ok in E; [|done]. inversion E as [|s ip' Hs Hip E1| | | | | | | | ]; subst.
  destruct Hip as [[Ha ->]|(u & -> & Hu & Hn)]; [left; by exists s|right]. split_and!; [by exists u|..].
  - intros r' eips Hin Hread Hip. by destruct Hn; eapply in_use_listed.
  - intros n' subnet' r' Hin. apply not_true_is_false. intros Hc. by destruct Hn; eapply in_use_created.
Qed.

(** A patch of the VPC holds every route that is not the controller's as it was last read, and otherwise
    only routes of exposed pods. *)
Theorem foreign_routes_kept srv before rq r after : wf_range (eipRange cfg) →
  trace srv (reconcile cfg) [] = before ++ (rq, r) :: after → rqMethod rq = MPatch → rqPath rq = vpc_path (defaultVPC cfg) →
  ∃ v (ips : list string) routes, saw_vpc (defaultVPC cfg) before v ∧ rqBody rq = Some (routes_doc routes) ∧
    ∀ p, p ∈ routes ↔ (p ∈ vpcPolicyRoutes v ∧ isOwnedPolicy p (policyPriority cfg) = false) ∨
      ∃ ip c, ip ∈ ips ∧ ip ≠ "" ∧ c ∈ lanCIDRs cfg ∧ TrimSpace c ≠ "" ∧ p = own_route (policyPriority cfg) ip c.
Proof.
  intros Hr E Hm Hp. apply sweep_ok in E; [|done]. destruct E; cbn in Hm, Hp; try discriminate.
  exists v, ips, routes. split_and!; [done..|]. intros p. by rewrite H0, elem_of_app, elem_of_foreign, elem_of_wanted.
Qed.

(** C25: Against a cluster where every exposed Service has what the sweep would make, and nothing else has the
    controller's name, a sweep only reads. *)
Theorem settled_sweep view services served eips nps v : settled cfg view services served eips nps v →
  result (λ _, view) (reconcile cfg) [] = Some () ∧
  ∀ rq r, (rq, r) ∈ trace (λ _, view) (reconcile cfg) [] → rqMethod rq = MGet.
Proof.
  intros Hs. destruct (wp_sound _ _ (λ _, view) _ _ _ (λ _ _, eq_refl) (settled_reconcile _ _ _ _ _ _ _ Hs)) as [(t & Ht & Hall) (a & Ha & _)].
  split; [by destruct a|]. intros rq r Hin. rewrite Ht in Hin. cbn in Hin. apply list_elem_of_split in Hin as (t1 & t2 & E). exact (Hall _ _ _ _ E).
Qed.
End Sweep.

(** The collection deletes exactly the listed objects of the controller's name that are not kept, whatever
    is answered. *)
Theorem gc_exact srv eips keep h :
  ∃ t nps, trace srv (gc eips keep) h = h ++ t ∧ result srv (gc eips keep) h = Some () ∧
    map fst t = eip_deletions keep eips ++ list_netpols_request :: netpol_deletions keep nps ∧
    ∃ before r, before `prefix_of` (h ++ t) ∧ r = srv before list_netpols_request ∧
      nps = match read_reply (dec_items dec_netpol zero_netpol) [] r with Ok l => l | Err _ => [] end.
Proof.
  destruct (gc_eips_sends srv keep eips h) as (t & Ht & Hm & Hr). set (rp := srv (h ++ t) list_netpols_request).
  set (nps := match read_reply (dec_items dec_netpol zero_netpol) [] rp with Ok l => l | Err _ => [] end).
  destruct (gc_netpols_sends srv keep nps (h ++ t ++ [(list_netpols_request, rp)])) as (t' & Ht' & Hm' & Hr').
  exists (t ++ (list_netpols_request, rp) :: t'), nps.
  assert (Hrest : ∀ x, x = match read_reply (dec_items dec_netpol zero_netpol) [] rp with Ok l => each (gc_netpol keep) l | Err _ => Ret () end →
    x = each (gc_netpol keep) nps).
  { unfold nps. by destruct (read_reply _ _ rp). }
  unfold gc. rewrite trace_bind, result_bind, Hr, Ht. cbn [mbind option_bind]. unfold listManagedNetpols.
  cbn [trace result mbind prog_bind prog_bind_go do]. fold list_netpols_request. fold rp. rewrite (Hrest _ eq_refl), <- app_assoc, Ht', Hr'.
  split_and!; [by rewrite <- !app_assoc|done|by rewrite map_app, Hm; cbn; rewrite Hm'|].
  exists (h ++ t), rp. split_and!; [|done..]. exists ((list_netpols_request, rp) :: t'). by rewrite <- app_assoc.
Qed.

(** ** Instances *)

Lemma example_range : wf_range (eipRange Example.cfg).
Proof. unfold wf_range. cbn. lia. Qed.

Lemma sweep_permitted_witness :
  wf_range (eipRange Example.cfg) ∧ length (trace Example.fresh_cluster (reconcile Example.cfg) []) = 13%nat ∧
  result Example.fresh_cluster (reconcile Example.cfg) [] = Some ().
Proof. split_and!; [apply example_range|vm_compute; reflexivity|apply (sweep_permitted Example.cfg Example.fresh_cluster example_range)]. Defined.

Lemma addresses_fresh_witness :
  trace Example.fresh_cluster (reconcile Example.cfg) [] =
    take 4 (trace Example.fresh_cluster (reconcile Example.cfg) []) ++
    (mkReq MPost eips_path "application/json" (Some Example.eip_object), Reply 201 None) ::
    drop 5 (trace Example.fresh_cluster (reconcile Example.cfg) []) ∧
  ((∃ s, exposed_in Example.cfg (take 4 (trace Example.fresh_cluster (reconcile Example.cfg) [])) s ∧ Example.rn = name_of s ∧
      "192.0.2.1" = asked Example.cfg s ∧ "192.0.2.1" ≠ "") ∨
   ∃ u, "192.0.2.1" = u32ToIP u ∧ rStart (eipRange Example.cfg) ≤ u ≤ rEnd (eipRange Example.cfg)).
Proof.
  assert (E : trace Example.fresh_cluster (reconcile Example.cfg) [] =
    take 4 (trace Example.fresh_cluster (reconcile Example.cfg) []) ++
    (mkReq MPost eips_path "application/json" (Some Example.eip_object), Reply 201 None) ::
    drop 5 (trace Example.fresh_cluster (reconcile Example.cfg) [])) by (vm_compute; reflexivity).
  split; [exact E|].
  destruct (addresses_fresh Example.cfg Example.fresh_cluster _ _ _ _ _ _ example_range E) as [Ha|[Hu _]]; [left; exact Ha|right; exact Hu].
Defined.

Lemma foreign_routes_kept_witness :
  trace Example.fresh_cluster (reconcile Example.cfg) [] =
    take 12 (trace Example.fresh_cluster (reconcile Example.cfg) []) ++
    [(mkReq MPatch (vpc_path "ovn-cluster") merge_patch (Some (routes_doc Example.routes)), Reply 200 None)] ∧
  ∃ v, saw_vpc "ovn-cluster" (take 12 (trace Example.fresh_cluster (reconcile Example.cfg) [])) v.
Proof.
  assert (E : trace Example.fresh_cluster (reconcile Example.cfg) [] =
    take 12 (trace Example.fresh_cluster (reconcile Example.cfg) []) ++
    [(mkReq MPatch (vpc_path "ovn-cluster") merge_patch (Some (routes_doc Example.routes)), Reply 200 None)]) by (vm_compute; reflexivity).
  split; [exact E|].
  destruct (foreign_routes_kept Example.cfg Example.fresh_cluster _ _ _ _ example_range E eq_refl eq_refl) as (v & _ & _ & Hv & _).
  exists v. exact Hv.
Defined.

Definition stored_eip : OvnEip := mkEip Example.rn "external" "nat" "192.0.2.1" "" false.

Lemma settled_sweep_witness :
  result (λ _, Example.stored) (reconcile Example.cfg) [] = Some () ∧
  length (trace (λ _, Example.stored) (reconcile Example.cfg) []) = 8%nat ∧
  ∀ rq r, (rq, r) ∈ trace (λ _, Example.stored) (reconcile Example.cfg) [] → rqMethod rq = MGet.
Proof.
  assert (Hs : settled Example.cfg Example.stored [Example.annotated] [(Example.annotated, Example.the_pod)] [stored_eip] [] (mkVpc "" Example.routes)).
  { constructor; try (vm_compute; reflexivity).
    - eapply ss_exposed; [vm_compute; reflexivity| |constructor]. apply (Build_settled_service _ _ _ _ stored_eip).
      + intros E. apply (f_equal size) in E. vm_compute in E. discriminate.
      + eexists. split; vm_compute; reflexivity.
      + split; [vm_compute; reflexivity|discriminate].
      + left. vm_compute. reflexivity.
      + eexists. split; vm_compute; reflexivity.
      + eexists. split; vm_compute; reflexivity.
      + vm_compute. reflexivity.
    - intros e He _. apply list_elem_of_singleton in He as ->. eexists. split; [by left|]. vm_compute. reflexivity.
    - by intros n ?%not_elem_of_nil. }
  destruct (settled_sweep Example.cfg _ _ _ _ _ _ Hs) as [Hr Ht]. split_and!; [exact Hr|vm_compute; reflexivity|exact Ht].
Defined.

(** A Service that is exposed and waits for a pod loses its address: the collection keeps what is bound in this
    sweep, not what is exposed. *)
Definition waiting_cluster : cluster :=
  Example.serve [] [Example.eip_object] [(eip_path Example.rn, Example.eip_object); Example.vpc].
Theorem waiting_torn_down :
  exposed Example.cfg Example.service = true ∧
  mkReq MDelete (eip_path (name_of Example.service)) "" None ∈ map fst (trace waiting_cluster (reconcile Example.cfg) []).
Proof. split; [vm_compute; reflexivity|]. apply list_elem_of_lookup. exists 4%nat. vm_compute. reflexivity. Qed.
