(* ===== verification/ResourcePolicy.v ===== *)
(** * Queue and topic policies (cfn/resourcepolicy)

    A policy of an SQS queue or an SNS topic read in the part that is honored, grants that let an AWS service
    deliver, and the decision of a delivery (with cmd/aws-shim/resource_policy.go around it).  Text is
    decoded by a parameter; a decoded object has each key once. *)

From S2P Require Import Prelude GoStrings Json.
#[local] Open Scope string_scope.
#[local] Open Scope Z_scope.
#[local] Open Scope list_scope.

(** ** Wildcards *)

(** The loop of Glob on what is left of the pattern and of the text; [star] is what follows the last star
    and where the text was at it. *)
Fixpoint Glob_loop (fuel : nat) (p x : string) (star : option (string * string)) : bool :=
  match fuel with
  | O => false
  | S fuel =>
      match x with
      | "" => forall_char (Ascii.eqb "*") p
      | String d x' =>
          let fail := match star with
                      | Some (q, m) => Glob_loop fuel q (sdrop 1 m) (Some (q, sdrop 1 m))
                      | None => false
                      end in
          match p with
          | String c p' =>
              if Ascii.eqb c "?" || Ascii.eqb c d then Glob_loop fuel p' x' star
              else if Ascii.eqb c "*" then Glob_loop fuel p' x (Some (p', x))
              else fail
          | "" => fail
          end
      end
  end.
Definition Glob_fuel (p s : string) : nat :=
  S ((String.length s) * (S (String.length p + String.length s)) + String.length p + String.length s)%nat.
Definition Glob (pattern s : string) : bool := Glob_loop (Glob_fuel pattern s) pattern s None.

(** ** Reading a policy *)

Record Condition := mkCond { cKey : string; cLike : bool; cValues : list string }.
Record Statement := mkStmt { sSid : string; sAllow : bool; sAny : bool; sServices : list string; sActions : list string;
  sConditions : list Condition }.
Definition Policy := list Statement.
Record Request := mkRequest { rService : string; rAction : string; rSourceArn : string; rSourceAccount : string }.

Inductive parse_error :=
| NotAResource | EmptyDocument | NotAnObject | NoStatement | MalformedStatement | ForOthersOnly
| NotHonored (k : string) | BadEffect | BadAction | OtherService (a : string) | BadResource | OtherResource (r : string)
| NoPrincipal | PrincipalNotHonored (k : string) | BadPrincipal (k : string) | PrincipalShape | IamPrincipal (a : string)
| RootWithOthers | DenyToAccount | Public
| ConditionShape | BadCondition (op k : string).

(** The i-th field of an ARN, counted from 0. *)
Definition arnPart (arn : string) (i : nat) : string :=
  match SplitN arn ":" 6 with
  | [a; b; c; d; e; f] => if String.eqb a "arn" then default "" ([a; b; c; d; e; f] !! i) else ""
  | _ => ""
  end.

Definition SameResource (a b : string) : bool :=
  negb (String.eqb (arnPart a 2) "") && String.eqb (arnPart a 2) (arnPart b 2) && negb (String.eqb (arnPart a 5) "")
  && String.eqb (arnPart a 5) (arnPart b 5) && negb (ContainsAny a "*?").

Definition strList (v : json) : option (list string) :=
  match v with
  | JStr s => Some [s]
  | JArr l => mapM (λ e, match e with JStr s => Some s | _ => None end) l
  | _ => None
  end.

Definition action (svc a : string) : res parse_error string :=
  let l := ToLower (TrimSpace a) in
  if String.eqb l "*" then Ok (svc +:+ ":*")
  else if HasPrefix l (svc +:+ ":") then Ok l
  else Err (OtherService a).
Definition actions (v : json) (svc : string) : res parse_error (list string) :=
  match strList v with
  | Some ((_ :: _) as raw) => mapM (action svc) raw
  | _ => Err BadAction
  end.

(** An entry names this resource (true), another of the service (false), or is refused. *)
Definition resource_entry (r resourceARN : string) : res parse_error bool :=
  if String.eqb r "*" || SameResource r resourceARN || (ContainsAny r "*?" && Glob r resourceARN) then Ok true
  else if negb (String.eqb (arnPart r 2) "") && String.eqb (arnPart r 2) (arnPart resourceARN 2) && negb (String.eqb (arnPart r 5) "") then Ok false
  else Err (OtherResource r).
Definition checkResource (v : json) (resourceARN : string) : res parse_error bool :=
  match v with
  | JNull => Ok true
  | _ => match strList v with
         | Some entries => applied ← mapM (λ r, resource_entry r resourceARN) entries; Ok (existsb id applied)
         | None => Err BadResource
         end
  end.

Definition isAccount (p : string) : bool :=
  if HasPrefix p "arn:" then String.eqb (arnPart p 2) "iam" && String.eqb (arnPart p 5) "root"
  else (String.length p =? 12)%nat && forall_char is_digit p.

Record principal := mkPrincipal { everyone : bool; services : list string; accounts : list string }.
Definition no_principal : principal := mkPrincipal false [] [].

Definition aws_principal (acc : principal) (a : string) : res parse_error principal :=
  if String.eqb a "*" then Ok (mkPrincipal true (services acc) (accounts acc))
  else if isAccount a then Ok (mkPrincipal (everyone acc) (services acc) (accounts acc ++ [a]))
  else Err (IamPrincipal a).
Definition principal_member (acc : principal) (kv : string * json) : res parse_error principal :=
  let '(k, v) := kv in
  match strList v with
  | Some ((_ :: _) as vals) =>
      if String.eqb k "Service" then
        Ok (mkPrincipal (everyone acc) (services acc ++ map (λ s, ToLower (TrimSpace s)) vals) (accounts acc))
      else if String.eqb k "AWS" then foldM aws_principal vals acc
      else Err (PrincipalNotHonored k)
  | _ => Err (BadPrincipal k)
  end.
Definition principals (v : json) : res parse_error principal :=
  match v with
  | JNull => Err NoPrincipal
  | JStr t => if String.eqb t "*" then Ok (mkPrincipal true [] []) else Err (PrincipalNotHonored t)
  | JObj m => foldM principal_member (by_key m) no_principal
  | _ => Err PrincipalShape
  end.

(** The key of a condition as it is compared, and whether its values are patterns. *)
Definition condition_kind (op k : string) : option (string * bool) :=
  let key := ToLower k in
  let key := if String.eqb key "aws:sourceowner" then "aws:sourceaccount" else key in
  let op_is (x : string) := String.eqb op x in
  if String.eqb key "aws:sourcearn" && (op_is "ArnEquals" || op_is "StringEquals") then Some (key, false)
  else if String.eqb key "aws:sourcearn" && (op_is "ArnLike" || op_is "StringLike") then Some (key, true)
  else if String.eqb key "aws:sourceaccount" && op_is "StringEquals" then Some (key, false)
  else if String.eqb key "aws:sourceaccount" && op_is "StringLike" then Some (key, true)
  else None.
Definition condition (op : string) (kv : string * json) : res parse_error Condition :=
  match condition_kind op kv.1 with
  | None => Err (BadCondition op kv.1)
  | Some (key, like_) =>
      match strList kv.2 with
      | Some ((_ :: _) as vals) => Ok (mkCond key like_ vals)
      | _ => Err (BadCondition op kv.1)
      end
  end.
Definition condition_op (kv : string * json) : res parse_error (list Condition) :=
  match kv.2 with
  | JObj keys => mapM (condition kv.1) (by_key keys)
  | _ => Err ConditionShape
  end.
Definition conditions (v : json) : res parse_error (list Condition) :=
  match v with
  | JNull => Ok []
  | JObj m => conds ← mapM condition_op (by_key m); Ok (concat conds)
  | _ => Err ConditionShape
  end.

Definition not_honored (st : list (string * json)) : option string :=
  List.find (has_key st) ["NotPrincipal"; "NotAction"; "NotResource"].

(** The statement, and whether it is left out. *)
Definition parseStatement (st : list (string * json)) (svc resourceARN : string) : res parse_error (Statement * bool) :=
  match not_honored st with
  | Some k => Err (NotHonored k)
  | None =>
      allow ← match get st "Effect" with
              | JStr e => if String.eqb e "Allow" then Ok true else if String.eqb e "Deny" then Ok false else Err BadEffect
              | _ => Err BadEffect
              end;
      acts ← actions (get st "Action") svc;
      applies ← checkResource (get st "Resource") resourceARN;
      conds ← conditions (get st "Condition");
      p ← principals (get st "Principal");
      let s := mkStmt (match get st "Sid" with JStr s => s | _ => "" end) allow (everyone p) (services p) acts conds in
      match accounts p with
      | _ :: _ =>
          if negb (bool_decide (services p = [])) || everyone p then Err RootWithOthers
          else if negb allow then Err DenyToAccount
          else Ok (mkStmt (sSid s) allow false [] acts conds, true)
      | [] =>
          if everyone p && bool_decide (conds = []) then Err Public
          else Ok (s, negb applies)
      end
  end.

Definition statements (raw : json) : res parse_error (list (list (string * json))) :=
  match raw with
  | JNull => Err NoStatement
  | JObj m => Ok [m]
  | JArr [] => Err NoStatement
  | JArr l => match mapM (λ e, match e with JObj m => Some m | JNull => Some [] | _ => None end) l with
              | Some many => Ok many
              | None => Err MalformedStatement
              end
  | _ => Err MalformedStatement
  end.

Section Parse.
(** json.Unmarshal into an any. *)
Context (Unmarshal : string → option json).

Definition Parse (doc resourceARN : string) : res parse_error Policy :=
  let svc := arnPart resourceARN 2 in
  if negb (String.eqb svc "sqs") && negb (String.eqb svc "sns") then Err NotAResource else
  if String.eqb (TrimSpace doc) "" then Err EmptyDocument else
  match Unmarshal doc with
  | Some (JObj _ as d) | Some (JNull as d) =>
      stmts ← statements (match d with JObj d => get d "Statement" | _ => JNull end);
      parsed ← mapM (λ st, s ← parseStatement st svc resourceARN; Ok (st, s)) stmts;
      let kept := omap (λ x, if (x.2.2 : bool) then None else Some x.2.1) parsed in
      let elsewhere := existsb (λ x, x.2.2 && match checkResource (get x.1 "Resource") resourceARN with Ok applies => negb applies | Err _ => true end) parsed in
      if bool_decide (kept = []) && elsewhere then Err ForOthersOnly else Ok kept
  | _ => Err NotAnObject
  end.

(** ** Deciding a delivery *)

Definition holds (c : Condition) (req : Request) : bool :=
  let have := if String.eqb (cKey c) "aws:sourcearn" then rSourceArn req else rSourceAccount req in
  if String.eqb have "" then false else
  existsb (λ v, (cLike c && Glob v have)
                || (negb (cLike c) && String.eqb (cKey c) "aws:sourcearn" && (String.eqb v have || SameResource v have))
                || (negb (cLike c) && String.eqb (cKey c) "aws:sourceaccount" && String.eqb v have)) (cValues c).
Definition matches (s : Statement) (req : Request) : bool :=
  (sAny s || existsb (λ x, String.eqb x (ToLower (rService req))) (sServices s))
  && existsb (λ a, Glob a (ToLower (rAction req))) (sActions s)
  && forallb (λ c, holds c req) (sConditions s).

Fixpoint allows_from (allowed : bool) (p : Policy) (req : Request) : bool :=
  match p with
  | [] => allowed
  | s :: p => if matches s req then if negb (sAllow s) then false else allows_from true p req else allows_from allowed p req
  end.
Definition Allows (p : Policy) (req : Request) : bool := allows_from false p req.

Definition checkResourcePolicy (doc resourceARN : string) : res parse_error () :=
  if String.eqb (TrimSpace doc) "" then Ok () else _ ← Parse doc resourceARN; Ok ().
Definition policyAccepts (doc resourceARN : string) (req : Request) : bool :=
  if String.eqb (TrimSpace doc) "" then true else
  match Parse doc resourceARN with Err _ => true | Ok p => Allows p req end.
Definition policyAcceptsFrom (doc resourceARN : string) (sameAccount : bool) (req : Request) : bool :=
  if sameAccount then policyAccepts doc resourceARN req else
  if String.eqb (TrimSpace doc) "" then false else
  match Parse doc resourceARN with Err _ => false | Ok p => Allows p req end.
End Parse.
(** ** What Glob matches *)

(** "*" stands for any bytes, "?" for one. *)
Fixpoint likeq (p s : string) : bool :=
  match p with
  | "" => String.eqb s ""
  | String c p' =>
      if Ascii.eqb c "*"
      then (fix star (s : string) : bool := likeq p' s || match s with "" => false | String _ s => star s end) s
      else match s with
           | "" => false
           | String d s => (Ascii.eqb c "?" || Ascii.eqb c d) && likeq p' s
           end
  end.

Inductive matches_q : string → string → Prop :=
| mq_nil : matches_q "" ""
| mq_byte c p s : c ≠ "*"%char → c ≠ "?"%char → matches_q p s → matches_q (String c p) (String c s)
| mq_one p d s : matches_q p s → matches_q (String "?" p) (String d s)
| mq_star p a s : matches_q p s → matches_q (String "*" p) (a +:+ s).

Lemma likeq_star p s : likeq (String "*" p) s = likeq p s || match s with "" => false | String _ s => likeq (String "*" p) s end.
Proof. by destruct s. Qed.

Lemma likeq_star_app p s : likeq (String "*" p) s = true ↔ ∃ a y, s = a +:+ y ∧ likeq p y = true.
Proof.
  induction s as [|d s IH]; rewrite likeq_star, orb_true_iff.
  - split; [intros [H|]; [by exists "", ""|done]|]. intros (a & y & E & H). destruct a, y; try done. by left.
  - rewrite IH. split.
    + intros [H|(a & y & -> & H)]; [by exists "", (String d s)|by exists (String d a), y].
    + intros ([|c a] & y & E & H); cbn in E; [left; by rewrite E|right]. injection E as -> ->. by exists a, y.
Qed.

Lemma likeq_spec p s : likeq p s = true ↔ matches_q p s.
Proof.
  revert s. induction p as [|c p IH]; intros s.
  { cbn. rewrite String.eqb_eq. split; [intros ->; constructor|by inversion 1]. }
  destruct (decide (c = "*"%char)) as [->|Hc].
  { rewrite likeq_star_app. setoid_rewrite IH. split; [intros (a & y & -> & H); by constructor|].
    inversion 1 as [|? ? ? Hn| |? a y]; subst; [by destruct Hn|]. by exists a, y. }
  cbn. rewrite (proj2 (Ascii.eqb_neq c "*") Hc). destruct s as [|d s]; [split; [done|by inversion 1]|].
  rewrite andb_true_iff, orb_true_iff, !Ascii.eqb_eq, IH. split.
  - intros [[->| ->] H]; [by constructor|]. destruct (decide (d = "?"%char)) as [->|]; by constructor.
  - inversion 1; subst; split; auto; congruence.
Qed.

Lemma likeq_cons c p d s : c ≠ "*"%char → likeq (String c p) (String d s) = (Ascii.eqb c "?" || Ascii.eqb c d) && likeq p s.
Proof. intros Hc. cbn. by rewrite (proj2 (Ascii.eqb_neq c "*") Hc). Qed.

(** A pattern that begins with plain bytes takes as many of the text. *)
Lemma likeq_plain a p y : contains_char "*" a = false → likeq (a +:+ p) y = true →
  ∃ y1 y2, y = y1 +:+ y2 ∧ String.length y1 = String.length a ∧ likeq p y2 = true.
Proof.
  revert y. induction a as [|c a IH]; intros y Ha H; [by exists "", y|].
  apply contains_char_false_cons in Ha as [Hc Ha]. change (String c a +:+ p) with (String c (a +:+ p)) in H.
  destruct y as [|d y]; [cbn in H; by rewrite (proj2 (Ascii.eqb_neq c "*")) in H by congruence|].
  rewrite likeq_cons in H by congruence. apply andb_true_iff in H as [_ H]. destruct (IH y Ha H) as (y1 & y2 & -> & Hl & H2).
  exists (String d y1), y2. cbn. by rewrite Hl.
Qed.

Lemma likeq_empty p : likeq p "" = forall_char (Ascii.eqb "*") p.
Proof.
  induction p as [|c p IH]; [done|]. cbn [forall_char]. destruct (Ascii.eqb_spec "*" c) as [<-|Hc].
  - rewrite likeq_star, orb_false_r. exact IH.
  - cbn. by rewrite (proj2 (Ascii.eqb_neq c "*")) by congruence.
Qed.

(** ** The loop *)

(** What is left where the loop goes back to the last star. *)
Definition star_rest (star : option (string * string)) : bool :=
  match star with Some (q, m) => likeq (String "*" q) (sdrop 1 m) | None => false end.
(** The pattern and the text since the last star were consumed together. *)
Definition in_step (p x : string) (star : option (string * string)) : Prop :=
  match star with
  | Some (q, m) => ∃ a b, q = a +:+ p ∧ m = b +:+ x ∧ String.length a = String.length b ∧ contains_char "*" a = false
  | None => True
  end.

Lemma sdrop_1 s : sdrop 1 s = match s with "" => "" | String _ s => s end.
Proof. destruct s as [|c s]; [done|]. cbn. by destruct s. Qed.

Lemma suffix_of_suffix (b x v y : string) : b +:+ x = v +:+ y → (String.length y <= String.length x)%nat → ∃ z, x = z +:+ y.
Proof.
  revert v. induction b as [|c b IH]; intros v E Hl; [by exists v|]. destruct v as [|d v].
  - cbn in E. subst y. exfalso. cbn in Hl. rewrite length_append in Hl. lia.
  - injection E as -> E. by eapply IH.
Qed.

(** Where a later start of the starred pattern matches, the rest of the pattern matches a suffix of what is left. *)
Lemma star_rest_suffix p x star : in_step p x star → star_rest star = true → ∃ z y, x = z +:+ y ∧ likeq p y = true.
Proof.
  destruct star as [[q m]|]; [|done]. intros (a & b & -> & -> & Hl & Ha). cbn [star_rest].
  intros (u & y & E & H)%likeq_star_app. destruct (likeq_plain _ _ _ Ha H) as (y1 & y2 & -> & Hy1 & H2).
  assert (∃ v, b +:+ x = v +:+ y2) as [v Ev].
  { rewrite sdrop_1 in E. destruct (b +:+ x) as [|c m'].
    - exists (u +:+ y1). by rewrite append_assoc.
    - exists (String c (u +:+ y1)). cbn. f_equal. by rewrite append_assoc. }
  destruct (suffix_of_suffix b x v y2 Ev) as [z Hz]; [|by exists z, y2].
  apply (f_equal String.length) in E. rewrite sdrop_1 in E. rewrite !length_append in E.
  assert (Hm : (String.length (match b +:+ x with "" => "" | String _ s => s end) <= String.length b + String.length x)%nat).
  { rewrite <- length_append. destruct (b +:+ x); cbn; lia. }
  lia.
Qed.

Lemma likeq_star_absorbs p z y : likeq (String "*" p) y = true → likeq (String "*" p) (z +:+ y) = true.
Proof. rewrite !likeq_star_app. intros (a & w & -> & H). exists (z +:+ a), w. by rewrite append_assoc. Qed.

Lemma in_step_next p c x d star : in_step (String c p) (String d x) star → c ≠ "*"%char → in_step p x star.
Proof.
  destruct star as [[q m]|]; [|done]. intros (a & b & -> & -> & Hl & Ha) Hc. exists (a +:+ String c ""), (b +:+ String d "").
  rewrite !append_assoc, !length_append, contains_char_append, Ha. split_and!; [done|done|cbn; lia|]. cbn [contains_char orb].
  by rewrite (proj2 (Ascii.eqb_neq "*" c)) by congruence.
Qed.

(** What the loop may still do. *)
Definition loop_rank (B : nat) (p x : string) (star : option (string * string)) : nat :=
  ((match star with Some (_, m) => String.length m | None => String.length x end) * B + String.length p + String.length x)%nat.
Definition bounded (B : nat) (p x : string) (star : option (string * string)) : Prop :=
  contains_char "*" x = false ∧ in_step p x star ∧
  match star with Some (q, m) => contains_char "*" m = false ∧ (String.length q + String.length m < B)%nat | None => (String.length p + String.length x < B)%nat end.

Lemma Glob_loop_spec B fuel p x star : bounded B p x star → (loop_rank B p x star < fuel)%nat →
  Glob_loop fuel p x star = likeq p x || star_rest star.
Proof.
  revert p x star. induction fuel as [|fuel IH]; intros p x star (Hx & Hstep & Hb) Hf; [lia|]. cbn [Glob_loop].
  destruct x as [|d x'].
  { rewrite <- likeq_empty. destruct (star_rest star) eqn:Es; [|by rewrite orb_false_r].
    destruct (star_rest_suffix _ _ _ Hstep Es) as (z & y & E & Hy). destruct z, y; try done. by rewrite Hy. }
  assert (Hfail : likeq p (String d x') = false → (match star with Some (q, m) => Glob_loop fuel q (sdrop 1 m) (Some (q, sdrop 1 m)) | None => false end) =
    likeq p (String d x') || star_rest star).
  { intros ->. destruct star as [[q m]|]; [|done]. cbn [orb star_rest]. destruct Hstep as (a & b & -> & -> & Hl & Ha). rewrite sdrop_1.
    destruct (b +:+ String d x') as [|c m'] eqn:Em; [by destruct b|]. cbn in Hb. destruct Hb as [[_ Hm]%orb_false_iff Hb].
    rewrite IH; [|split_and!; [done|by exists "", ""|done|lia]|].
    2:{ unfold loop_rank in *. cbn [String.length] in *. rewrite length_append in *. lia. }
    cbn [star_rest]. rewrite (likeq_star (a +:+ p) m'), sdrop_1. destruct m'; [|done]. by rewrite likeq_star, !orb_false_r, orb_diag. }
  apply contains_char_false_cons in Hx as [Hd Hx]. destruct p as [|c p']; [by apply Hfail|].
  destruct (decide (c = "*"%char)) as [->|Hc].
  - replace (Ascii.eqb "*" "?" || Ascii.eqb "*" d) with false by (symmetry; apply orb_false_iff; split; [done|by apply Ascii.eqb_neq]).
    cbn [Ascii.eqb Bool.eqb]. rewrite IH.
    + cbn [star_rest]. rewrite sdrop_1, <- likeq_star. destruct (star_rest star) eqn:Es; [|by rewrite orb_false_r].
      destruct (star_rest_suffix _ _ _ Hstep Es) as (z & y & -> & Hy). by rewrite (likeq_star_absorbs _ z y Hy).
    + split_and!; [by apply contains_char_false_cons|by exists "", ""|by apply contains_char_false_cons|].
      destruct star as [[q m]|]; [|cbn in Hb |- *; lia]. destruct Hstep as (a & b & -> & -> & Hl & Ha).
      rewrite !length_append in Hb. cbn in Hb |- *. lia.
    + unfold loop_rank in *. destruct star as [[q m]|]; [|cbn [String.length] in *; lia]. destruct Hstep as (a & b & -> & -> & Hl & Ha).
      rewrite !length_append in Hf. cbn [String.length] in *. nia.
  - destruct (Ascii.eqb c "?" || Ascii.eqb c d) eqn:Ec.
    + rewrite likeq_cons, Ec by done. cbn [andb]. apply IH.
      * split_and!; [done|by eapply in_step_next|]. destruct star as [[q m]|]; [done|cbn in Hb; lia].
      * unfold loop_rank in *. destruct star as [[q m]|]; cbn [String.length] in *; nia.
    + rewrite (proj2 (Ascii.eqb_neq c "*") Hc). apply Hfail. by rewrite likeq_cons, Ec.
Qed.

(** Of a text without a star, which no ARN and no action has. *)
Lemma Glob_likeq p s : contains_char "*" s = false → Glob p s = likeq p s.
Proof.
  intros Hs. unfold Glob, Glob_fuel. rewrite (Glob_loop_spec (S (String.length p + String.length s))); [by rewrite orb_false_r|split_and!; [done|done|lia]|].
  unfold loop_rank. lia.
Qed.

(** A star in the text takes the star of the pattern for itself. *)
Example Glob_star_in_text : Glob "sqs:*" "sqs:*x" = false ∧ likeq "sqs:*" "sqs:*x" = true.
Proof. split; reflexivity. Qed.

(** ** What a document says

    The reading of a document that Parse is to agree with: each statement applies when its principal, its
    action, its resource and all of its conditions do, a Deny that applies wins, and without an Allow nothing is
    allowed.  An ARN of a condition is compared as the resources are ([SameResource]). *)

Section Document.
Context (resourceARN : string) (req : Request).

Definition strings_in (v : json) : list string := default [] (strList v).

Definition says_principal (v : json) : bool :=
  match v with
  | JStr t => String.eqb t "*"
  | JObj m => existsb (λ a, String.eqb a "*") (strings_in (get m "AWS"))
              || existsb (λ s, String.eqb (ToLower (TrimSpace s)) (ToLower (rService req))) (strings_in (get m "Service"))
  | _ => false
  end.
Definition says_action (v : json) : bool := existsb (λ a, likeq (ToLower (TrimSpace a)) (ToLower (rAction req))) (strings_in v).
Definition says_resource (v : json) : bool :=
  match v with
  | JNull => true
  | _ => existsb (λ r, likeq r resourceARN || SameResource r resourceARN) (strings_in v)
  end.
Definition says_value (op k v : string) : bool :=
  let arn := String.eqb (ToLower k) "aws:sourcearn" in
  let have := if arn then rSourceArn req else rSourceAccount req in
  negb (String.eqb have "") &&
  if String.eqb op "ArnLike" || String.eqb op "StringLike" then likeq v have
  else String.eqb v have || (arn && SameResource v have).
Definition says_condition (v : json) : bool :=
  match v with
  | JObj m => forallb (λ op, match get m op with
                             | JObj keys => forallb (λ k, existsb (says_value op k) (strings_in (get keys k))) (map fst keys)
                             | _ => false
                             end) (map fst m)
  | _ => true
  end.
Definition says (st : list (string * json)) : bool :=
  says_principal (get st "Principal") && says_action (get st "Action") && says_resource (get st "Resource") && says_condition (get st "Condition").
Definition is_effect (e : string) (st : list (string * json)) : bool := match get st "Effect" with JStr s => String.eqb s e | _ => false end.
Definition document_allows (stmts : list (list (string * json))) : bool :=
  existsb (λ st, is_effect "Allow" st && says st) stmts && negb (existsb (λ st, is_effect "Deny" st && says st) stmts).

(** *** Reading agrees *)

Hypothesis Hact : contains_char "*" (ToLower (rAction req)) = false.
Hypothesis Harn : contains_char "*" (rSourceArn req) = false.
Hypothesis Hacct : contains_char "*" (rSourceAccount req) = false.
Hypothesis Hres : contains_char "*" resourceARN = false.

Lemma strList_strings v l : strList v = Some l → strings_in v = l.
Proof. unfold strings_in. by intros ->. Qed.

Lemma likeq_plain_eq p s : ContainsAny p "*?" = false → likeq p s = String.eqb p s.
Proof.
  revert s. induction p as [|c p IH]; intros s H; [destruct s; reflexivity|]. cbn [ContainsAny contains_char] in H.
  apply orb_false_iff in H as [[Hs [Hq _]%orb_false_iff]%orb_false_iff Hp]. apply Ascii.eqb_neq in Hs.
  destruct s as [|d s]; [cbn; by rewrite (proj2 (Ascii.eqb_neq c "*"))|].
  rewrite likeq_cons, Hq, IH by done. cbn [orb String.eqb]. by destruct (Ascii.eqb c d).
Qed.

Lemma likeq_app_same a p s : contains_char "*" a = false → likeq (a +:+ p) (a +:+ s) = likeq p s.
Proof.
  induction a as [|c a IH]; [done|]. intros [Hc Ha]%contains_char_false_cons. change (String c a +:+ ?x) with (String c (a +:+ x)).
  rewrite likeq_cons, Ascii.eqb_refl, orb_true_r by congruence. by apply IH.
Qed.

Lemma likeq_any s : likeq "*" s = true.
Proof. apply likeq_star_app. exists s, "". by rewrite append_nil_r. Qed.

Lemma action_says svc a l : contains_char "*" svc = false → HasPrefix (ToLower (rAction req)) (svc +:+ ":") = true →
  action svc a = Ok l → Glob l (ToLower (rAction req)) = likeq (ToLower (TrimSpace a)) (ToLower (rAction req)).
Proof.
  intros Hs Hp. unfold action. destruct (String.eqb_spec (ToLower (TrimSpace a)) "*") as [E|_].
  - intros [= <-]. rewrite Glob_likeq, E, likeq_any by done. apply HasPrefix_spec in Hp as [r ->].
    change (svc +:+ ":*") with (svc +:+ (":" +:+ "*")). rewrite append_assoc, likeq_app_same by done.
    change (likeq (":" +:+ "*") (":" +:+ r) = true). rewrite likeq_app_same by done. apply likeq_any.
  - case_match; [|done]. intros [= <-]. by apply Glob_likeq.
Qed.

Lemma actions_say svc v acts : contains_char "*" svc = false → HasPrefix (ToLower (rAction req)) (svc +:+ ":") = true →
  actions v svc = Ok acts → existsb (λ a, Glob a (ToLower (rAction req))) acts = says_action v.
Proof.
  intros Hs Hp. unfold actions. destruct (strList v) as [[|a raw]|] eqn:Ev; [done| |done]. intros Hm%mapM_res_Ok.
  unfold says_action. rewrite (strList_strings _ _ Ev). symmetry. apply Forall2_existsb. eapply Forall2_impl; [exact Hm|].
  intros x y Hx. symmetry. by eapply action_says.
Qed.

Lemma SameResource_refl r : arnPart r 2 ≠ "" → arnPart r 5 ≠ "" → ContainsAny r "*?" = false → SameResource r r = true.
Proof.
  intros H2%String.eqb_neq H5%String.eqb_neq Hw. unfold SameResource. by rewrite H2, H5, Hw, !String.eqb_refl.
Qed.

Lemma resource_entry_says r b : resource_entry r resourceARN = Ok b → b = likeq r resourceARN || SameResource r resourceARN.
Proof.
  unfold resource_entry. rewrite Glob_likeq by done. destruct (String.eqb_spec r "*") as [->|Hr]; cbn [orb].
  { intros [= <-]. by rewrite likeq_any. }
  destruct (SameResource r resourceARN) eqn:Es; cbn [orb]; [intros [= <-]; by rewrite orb_true_r|]. rewrite orb_false_r.
  destruct (ContainsAny r "*?") eqn:Ew; cbn [andb].
  - destruct (likeq r resourceARN); [by intros [= <-]|]. case_match; [by intros [= <-]|done].
  - case_match eqn:E; [|done]. intros [= <-]. rewrite likeq_plain_eq by done. destruct (String.eqb_spec r resourceARN) as [->|]; [|done].
    bool_to_prop. rewrite SameResource_refl in Es; done.
Qed.

Lemma checkResource_says v b : checkResource v resourceARN = Ok b → b = says_resource v.
Proof.
  unfold checkResource. assert (H : match strList v with Some entries => applied ← mapM (λ r, resource_entry r resourceARN) entries; Ok (existsb id applied) | None => Err BadResource end = Ok b →
    b = existsb (λ r, likeq r resourceARN || SameResource r resourceARN) (strings_in v)).
  { destruct (strList v) as [l|] eqn:Ev; [|done]. intros (applied & Hm%mapM_res_Ok & [= <-])%res_bind_Ok. rewrite (strList_strings _ _ Ev).
    symmetry. apply Forall2_existsb. eapply Forall2_impl; [exact Hm|]. intros r x Hx. symmetry. by apply resource_entry_says. }
  destruct v; try exact H. by intros [= <-].
Qed.

(** *** Principals *)

Lemma aws_fold vals acc p : foldM aws_principal vals acc = Ok p →
  everyone p = everyone acc || existsb (λ a, String.eqb a "*") vals ∧ services p = services acc.
Proof.
  revert acc. induction vals as [|a vals IH]; intros acc; [intros [= <-]; by rewrite orb_false_r|]. rewrite foldM_cons.
  intros (acc' & Ha & [H1 H2]%IH)%res_bind_Ok. rewrite H1, H2. unfold aws_principal in Ha. cbn [existsb].
  destruct (String.eqb a "*"); [injection Ha as <-; split; [by rewrite orb_true_r|done]|]. case_match; [|done]. by injection Ha as <-.
Qed.

Definition norm (s : string) : string := ToLower (TrimSpace s).

Lemma member_fold kvs acc p : foldM principal_member kvs acc = Ok p →
  everyone p = everyone acc || existsb (λ kv, String.eqb kv.1 "AWS" && existsb (λ a, String.eqb a "*") (strings_in kv.2)) kvs ∧
  ∀ x, existsb (λ s, String.eqb s x) (services p) = existsb (λ s, String.eqb s x) (services acc) ||
    existsb (λ kv, String.eqb kv.1 "Service" && existsb (λ s, String.eqb (norm s) x) (strings_in kv.2)) kvs.
Proof.
  revert acc. induction kvs as [|[k v] kvs IH]; intros acc; [intros [= <-]; split; intros; by rewrite orb_false_r|]. rewrite foldM_cons.
  intros (acc' & Ha & [H1 H2]%IH)%res_bind_Ok. unfold principal_member in Ha. cbn [existsb fst snd].
  destruct (strList v) as [[|y vals]|] eqn:Ev; [done| |done]. rewrite (strList_strings _ _ Ev).
  destruct (String.eqb_spec k "Service") as [->|Hk]; cbn [andb].
  { injection Ha as <-. cbn [everyone services] in *. split; [exact H1|]. intros x. rewrite H2, existsb_app, <- orb_assoc. f_equal. f_equal.
    exact (existsb_map norm (λ s, String.eqb s x) (y :: vals)). }
  destruct (String.eqb_spec k "AWS") as [->|]; [|done]. apply aws_fold in Ha as [Ha Hs].
  split; [by rewrite H1, Ha, orb_assoc|]. intros x. by rewrite H2, Hs.
Qed.

Lemma principals_say v p : principals v = Ok p →
  says_principal v = everyone p || existsb (λ x, String.eqb x (ToLower (rService req))) (services p).
Proof.
  destruct v as [| | |t| |m]; try done; cbn [principals says_principal].
  - destruct (String.eqb t "*"); [by intros [= <-]|done].
  - intros [H1 H2]%member_fold. rewrite H1, H2. cbn [everyone services no_principal existsb orb].
    by rewrite (by_key_member m "AWS" (λ v, existsb _ (strings_in v))), (by_key_member m "Service" (λ v, existsb _ (strings_in v))).
Qed.

(** *** Conditions *)

Lemma holds_values c have : (if String.eqb (cKey c) "aws:sourcearn" then rSourceArn req else rSourceAccount req) = have →
  contains_char "*" have = false →
  holds c req = existsb (λ v, negb (String.eqb have "") &&
    ((cLike c && likeq v have) || (negb (cLike c) && String.eqb (cKey c) "aws:sourcearn" && (String.eqb v have || SameResource v have))
     || (negb (cLike c) && String.eqb (cKey c) "aws:sourceaccount" && String.eqb v have))) (cValues c).
Proof.
  intros E Hs. unfold holds. rewrite E. destruct (String.eqb have ""); [by induction (cValues c)|]. cbn [negb andb].
  induction (cValues c) as [|v l IH]; [done|]. cbn [existsb]. by rewrite Glob_likeq, IH.
Qed.

Lemma condition_kind_spec op k key like_ : condition_kind op k = Some (key, like_) →
  like_ = (String.eqb op "ArnLike" || String.eqb op "StringLike") ∧
  ((key = "aws:sourcearn" ∧ ToLower k = "aws:sourcearn") ∨ (key = "aws:sourceaccount" ∧ ToLower k ≠ "aws:sourcearn")).
Proof.
  unfold condition_kind. set (key' := if String.eqb (ToLower k) "aws:sourceowner" then "aws:sourceaccount" else ToLower k).
  assert (Hk : (key' = "aws:sourcearn" ∧ ToLower k = "aws:sourcearn") ∨ (key' ≠ "aws:sourcearn" ∧ ToLower k ≠ "aws:sourcearn")).
  { unfold key'. destruct (String.eqb_spec (ToLower k) "aws:sourceowner") as [->|]; [by right|].
    destruct (decide (ToLower k = "aws:sourcearn")); [by left|by right]. }
  intros H. destruct Hk as [[-> Hk]|[Hn Hk]].
  - repeat case_match; try done; injection H as <- <-; cbn in *; bool_to_prop;
      (split; [|by left]); repeat match goal with H : (_ || _)%bool = true |- _ => apply orb_true_iff in H as [H%String.eqb_eq|H%String.eqb_eq] end; subst; done.
  - apply String.eqb_neq in Hn. rewrite Hn in H. cbn [andb] in H. repeat case_match; try done; injection H as <- <-; bool_to_prop; subst; (split; [done|by right]).
Qed.

Lemma condition_says op k v c : condition op (k, v) = Ok c → holds c req = existsb (says_value op k) (strings_in v).
Proof.
  unfold condition. cbn [fst snd]. destruct (condition_kind op k) as [[key like_]|] eqn:Ek; [|done].
  destruct (strList v) as [[|y l]|] eqn:Ev; [done| |done]. intros [= <-]. rewrite (strList_strings _ _ Ev).
  apply condition_kind_spec in Ek as [-> Hk]. unfold says_value. destruct Hk as [[-> Hk]|[-> Hk]].
  - rewrite (holds_values _ _ eq_refl) by done. cbn [cKey cLike cValues]. rewrite Hk. apply existsb_same.
    intros v'. cbn [String.eqb Ascii.eqb Bool.eqb]. f_equal. destruct (String.eqb op "ArnLike" || String.eqb op "StringLike"); cbn; by rewrite ?orb_false_r.
  - rewrite (holds_values _ _ eq_refl) by done. cbn [cKey cLike cValues]. apply String.eqb_neq in Hk. rewrite Hk. apply existsb_same.
    intros v'. cbn [String.eqb Ascii.eqb Bool.eqb]. f_equal. destruct (String.eqb op "ArnLike" || String.eqb op "StringLike"); cbn; by rewrite ?orb_false_r.
Qed.

Lemma condition_op_says op v cs : condition_op (op, v) = Ok cs →
  forallb (λ c, holds c req) cs = match v with JObj keys => forallb (λ k, existsb (says_value op k) (strings_in (get keys k))) (map fst keys) | _ => false end.
Proof.
  unfold condition_op. cbn [fst snd]. destruct v as [| | | | |keys]; try done. intros Hm%mapM_res_Ok.
  rewrite <- (forallb_by_key keys (λ k v, existsb (says_value op k) (strings_in v))). symmetry. apply Forall2_forallb.
  eapply Forall2_impl; [exact Hm|]. intros [k v] c Hc. symmetry. by apply condition_says.
Qed.

Lemma conditions_say v cs : conditions v = Ok cs → forallb (λ c, holds c req) cs = says_condition v.
Proof.
  destruct v as [| | | | |m]; try done; cbn [conditions says_condition]; [by intros [= <-]|].
  intros (conds & Hm%mapM_res_Ok & [= <-])%res_bind_Ok. rewrite forallb_concat.
  rewrite <- (forallb_by_key m (λ op v, match v with JObj keys => forallb (λ k, existsb (says_value op k) (strings_in (get keys k))) (map fst keys) | _ => false end)).
  symmetry. apply Forall2_forallb. eapply Forall2_impl; [exact Hm|]. intros [op v] c Hc. symmetry. by apply condition_op_says.
Qed.

(** *** Statements *)

Lemma parseStatement_says st svc s skip : contains_char "*" svc = false → HasPrefix (ToLower (rAction req)) (svc +:+ ":") = true →
  parseStatement st svc resourceARN = Ok (s, skip) →
  is_effect "Allow" st = negb (is_effect "Deny" st) ∧
  if skip then says st = false else sAllow s = is_effect "Allow" st ∧ matches s req = says st.
Proof.
  intros Hsvc Hp. unfold parseStatement. destruct (not_honored st); [done|]. unfold is_effect.
  intros (allow & Ha & (acts & Hacts & (applies & Hr & (conds & Hc & (p & Hpr & H)%res_bind_Ok)%res_bind_Ok)%res_bind_Ok)%res_bind_Ok)%res_bind_Ok.
  assert (He : allow = match get st "Effect" with JStr e => String.eqb e "Allow" | _ => false end ∧
    (match get st "Effect" with JStr e => String.eqb e "Allow" | _ => false end) = negb (match get st "Effect" with JStr e => String.eqb e "Deny" | _ => false end)).
  { destruct (get st "Effect") as [| | |e| |]; try discriminate Ha. destruct (String.eqb e "Allow") eqn:Ee.
    - apply String.eqb_eq in Ee. rewrite Ee. by injection Ha as <-.
    - destruct (String.eqb e "Deny"); [by injection Ha as <-|done]. }
  destruct He as [-> He]. split; [done|]. apply (actions_say svc) in Hacts; [|done..]. apply checkResource_says in Hr. apply conditions_say in Hc as Hc'.
  apply principals_say in Hpr as Hpr'. unfold says. rewrite <- Hacts, <- Hc', Hpr'.
  destruct (accounts p) as [|a l].
  - destruct (everyone p && bool_decide (conds = [])); [done|]. injection H as <- <-. rewrite <- Hr. destruct applies; cbn [negb].
    + split; [done|]. unfold matches. cbn [sAny sServices sActions sConditions]. by rewrite andb_true_r.
    + by rewrite andb_false_r.
  - destruct (negb (bool_decide (services p = [])) || everyone p) eqn:E; [done|].
    match type of H with (if ?b then _ else _) = _ => destruct b; [done|] end. injection H as <- <-. apply orb_false_iff in E as [E ->]. apply negb_false_iff, bool_decide_eq_true in E.
    by rewrite E.
Qed.

Lemma allows_from_spec allowed p : allows_from allowed p req = (allowed || existsb (λ s, sAllow s && matches s req) p) && negb (existsb (λ s, negb (sAllow s) && matches s req) p).
Proof.
  revert allowed. induction p as [|s p IH]; intros allowed; cbn [allows_from existsb]; [by rewrite orb_false_r, andb_true_r|].
  destruct (matches s req), (sAllow s), allowed; cbn [andb orb negb]; rewrite ?IH, ?orb_true_r; cbn; rewrite ?andb_false_r; done.
Qed.
End Document.

(** ** Properties *)

Section Faithful.
Context (Unmarshal : string → option json).

Lemma parsed_says resourceARN req svc stmts parsed :
  contains_char "*" (ToLower (rAction req)) = false → contains_char "*" (rSourceArn req) = false →
  contains_char "*" (rSourceAccount req) = false → contains_char "*" resourceARN = false →
  contains_char "*" svc = false → HasPrefix (ToLower (rAction req)) (svc +:+ ":") = true →
  Forall2 (λ st x, (s ← parseStatement st svc resourceARN; Ok (st, s)) = Ok x) stmts parsed →
  let kept := omap (λ x, if (x.2.2 : bool) then None else Some x.2.1) parsed in
  existsb (λ s, sAllow s && matches s req) kept = existsb (λ st, is_effect "Allow" st && says resourceARN req st) stmts ∧
  existsb (λ s, negb (sAllow s) && matches s req) kept = existsb (λ st, is_effect "Deny" st && says resourceARN req st) stmts.
Proof.
  intros H1 H2 H3 H4 H5 H6. induction 1 as [|st x stmts parsed Hx _ IH]; cbn zeta in *; [done|].
  apply res_bind_Ok in Hx as ([s skip] & Hp & [= <-]). apply (parseStatement_says resourceARN req) in Hp as [He Hp]; [|done..].
  destruct IH as [IH1 IH2]. cbn [omap list_omap existsb fst snd]. destruct skip.
  - rewrite Hp, !andb_false_r. by split.
  - destruct Hp as [Ha Hm]. cbn [existsb]. rewrite Ha, Hm, He, negb_involutive. by rewrite IH1, IH2.
Qed.

(** What Parse accepts: the statements, read one by one. *)
Lemma Parse_inv doc resourceARN p : Parse Unmarshal doc resourceARN = Ok p →
  (arnPart resourceARN 2 = "sqs" ∨ arnPart resourceARN 2 = "sns") ∧
  ∃ d stmts parsed, Unmarshal doc = Some (JObj d) ∧ statements (get d "Statement") = Ok stmts ∧
    Forall2 (λ st x, (s ← parseStatement st (arnPart resourceARN 2) resourceARN; Ok (st, s)) = Ok x) stmts parsed ∧
    p = omap (λ x, if (x.2.2 : bool) then None else Some x.2.1) parsed.
Proof.
  unfold Parse. destruct (negb (String.eqb (arnPart resourceARN 2) "sqs") && negb (String.eqb (arnPart resourceARN 2) "sns")) eqn:Es; [done|].
  destruct (String.eqb (TrimSpace doc) ""); [done|].
  assert (Hsvc : arnPart resourceARN 2 = "sqs" ∨ arnPart resourceARN 2 = "sns").
  { apply andb_false_iff in Es as [Es%negb_false_iff%String.eqb_eq|Es%negb_false_iff%String.eqb_eq]; auto. }
  intros H. split; [done|]. destruct (Unmarshal doc) as [[| | | | |d]|]; try discriminate.
  apply res_bind_Ok in H as (stmts & Hs & (parsed & Hm%mapM_res_Ok & Hk)%res_bind_Ok).
  match type of Hk with (if ?b then _ else _) = _ => destruct b; [done|] end. injection Hk as <-. by exists d, stmts, parsed.
Qed.

Lemma svc_plain svc : svc = "sqs" ∨ svc = "sns" → contains_char "*" svc = false.
Proof. by intros [-> | ->]. Qed.

Lemma Allows_says doc resourceARN p req :
  Parse Unmarshal doc resourceARN = Ok p →
  HasPrefix (ToLower (rAction req)) (arnPart resourceARN 2 +:+ ":") = true →
  contains_char "*" (ToLower (rAction req) +:+ rSourceArn req +:+ rSourceAccount req +:+ resourceARN) = false →
  ∃ d stmts, Unmarshal doc = Some (JObj d) ∧ statements (get d "Statement") = Ok stmts ∧
    Allows p req = document_allows resourceARN req stmts.
Proof.
  intros Hp Hact Hstar. rewrite !contains_char_append in Hstar. repeat (apply orb_false_iff in Hstar as [? Hstar]).
  apply Parse_inv in Hp as (Hsvc & d & stmts & parsed & Hd & Hs & Hall & ->). exists d, stmts. split_and!; [done..|].
  unfold Allows, document_allows. rewrite allows_from_spec. cbn [orb].
  destruct (parsed_says resourceARN req _ stmts parsed H H0 H1 Hstar (svc_plain _ Hsvc) Hact Hall) as [E1 E2]. by rewrite E1, E2.
Qed.

(** C31: *)
Theorem Parse_faithful doc resourceARN p req :
  Parse Unmarshal doc resourceARN = Ok p →
  HasPrefix (ToLower (rAction req)) (arnPart resourceARN 2 +:+ ":") = true →
  contains_char "*" (ToLower (rAction req) +:+ rSourceArn req +:+ rSourceAccount req +:+ resourceARN) = false →
  ∃ d stmts, Unmarshal doc = Some (JObj d) ∧ statements (get d "Statement") = Ok stmts ∧
    Allows p req = document_allows resourceARN req stmts.
Proof. apply Allows_says. Qed.

Lemma mem_omap_kept (parsed : list (list (string * json) * (Statement * bool))) s :
  s ∈ omap (λ x, if (x.2.2 : bool) then None else Some x.2.1) parsed → ∃ st, (st, (s, false)) ∈ parsed.
Proof.
  intros ([st [s' skip]] & Hin & H)%list_elem_of_omap. cbn in H. destruct skip; [done|]. injection H as <-. by exists st.
Qed.

Lemma parseStatement_kept st svc resourceARN s : parseStatement st svc resourceARN = Ok (s, false) → sAny s = true → sConditions s ≠ [].
Proof.
  unfold parseStatement. destruct (not_honored st); [done|].
  intros (allow & _ & (acts & _ & (applies & _ & (conds & _ & (p & _ & H)%res_bind_Ok)%res_bind_Ok)%res_bind_Ok)%res_bind_Ok)%res_bind_Ok.
  destruct (accounts p).
  - destruct (everyone p) eqn:E; cbn [andb] in H; [|by injection H as <- _]. case_bool_decide; [done|]. injection H as <- _. done.
  - destruct (negb (bool_decide (services p = [])) || everyone p); [done|]. destruct allow; done.
Qed.

Lemma holds_source c req : holds c req = true → rSourceArn req ≠ "" ∨ rSourceAccount req ≠ "".
Proof.
  unfold holds. destruct (String.eqb (cKey c) "aws:sourcearn").
  - destruct (String.eqb_spec (rSourceArn req) ""); [done|by left].
  - destruct (String.eqb_spec (rSourceAccount req) ""); [done|by right].
Qed.

(** *)
Theorem no_public_grant doc resourceARN p req : Parse Unmarshal doc resourceARN = Ok p → Allows p req = true →
  (∃ s, s ∈ p ∧ sAllow s = true ∧ ToLower (rService req) ∈ sServices s) ∨ rSourceArn req ≠ "" ∨ rSourceAccount req ≠ "".
Proof.
  intros (_ & d & stmts & parsed & _ & _ & Hall & ->)%Parse_inv. unfold Allows. rewrite allows_from_spec. cbn [orb].
  intros [(s & Hin%list_elem_of_In & [Ha Hm]%andb_true_iff)%existsb_exists _]%andb_true_iff.
  apply mem_omap_kept in Hin as Hst. destruct Hst as [st Hst]. unfold matches in Hm.
  apply andb_true_iff in Hm as [[Hs _]%andb_true_iff Hc]. apply orb_true_iff in Hs as [Hany|Hsvc].
  - right. apply list_elem_of_lookup in Hst as [i Hi]. destruct (Forall2_lookup_r _ _ _ _ _ Hall Hi) as (st' & _ & Hp).
    apply res_bind_Ok in Hp as (x & Hp & [= -> ->]). apply parseStatement_kept in Hp; [|done].
    destruct (sConditions s) as [|c cs]; [done|]. cbn in Hc. apply andb_true_iff in Hc as [Hc _]. by apply holds_source in Hc.
  - left. apply existsb_exists in Hsvc as (x & Hx%list_elem_of_In & ->%String.eqb_eq). by exists s.
Qed.

End Faithful.

(** ** Instances *)

Module Example.
Definition queue : string := "arn:aws:sqs:us-east-1:111111111111:jobs".
Definition topic (account : string) : string := "arn:aws:sns:us-east-1:" +:+ account +:+ ":orders".
(** The SNS fan-out policy, narrowed to one topic. *)
Definition fan_out : json := JObj [("Version", JStr "2012-10-17"); ("Statement", JArr [JObj [
  ("Effect", JStr "Allow"); ("Principal", JObj [("Service", JStr "sns.amazonaws.com")]); ("Action", JStr "sqs:SendMessage");
  ("Resource", JStr queue); ("Condition", JObj [("ArnEquals", JObj [("aws:SourceArn", JStr (topic "111111111111"))])])]])].
Definition Unmarshal : string → option json := λ _, Some fan_out.
Definition delivery (account : string) : Request := mkRequest "sns.amazonaws.com" "sqs:SendMessage" (topic account) account.
Definition policy : Policy := match Parse Unmarshal "{}" queue with Ok p => p | Err _ => [] end.
End Example.

Lemma Parse_faithful_witness :
  Parse Example.Unmarshal "{}" Example.queue = Ok Example.policy ∧ Allows Example.policy (Example.delivery "111111111111") = true ∧
  ∃ d stmts, Example.Unmarshal "{}" = Some (JObj d) ∧ statements (get d "Statement") = Ok stmts ∧
    Allows Example.policy (Example.delivery "111111111111") = document_allows Example.queue (Example.delivery "111111111111") stmts.
Proof.
  assert (Hp : Parse Example.Unmarshal "{}" Example.queue = Ok Example.policy) by (vm_compute; reflexivity).
  split; [exact Hp|]. split; [vm_compute; reflexivity|]. apply (Parse_faithful Example.Unmarshal "{}" Example.queue); [exact Hp|vm_compute; reflexivity..].
Defined.

Lemma no_public_grant_witness :
  (∃ s, s ∈ Example.policy ∧ sAllow s = true ∧ ToLower (rService (Example.delivery "111111111111")) ∈ sServices s) ∨
  rSourceArn (Example.delivery "111111111111") ≠ "" ∨ rSourceAccount (Example.delivery "111111111111") ≠ "".
Proof. apply (no_public_grant Example.Unmarshal "{}" Example.queue); vm_compute; reflexivity. Defined.


(** A topic of another account that has the name of the topic the policy admits is admitted too: the ARN of a
    source condition is compared by service and name. *)
Example same_name_other_account :
  policyAcceptsFrom Example.Unmarshal "{}" Example.queue false (Example.delivery "222222222222") = true ∧
  Example.topic "222222222222" ≠ Example.topic "111111111111".
Proof. split; [vm_compute; reflexivity|discriminate]. Qed.
