(* ===== verification/SnsFilter.v ===== *)
(** * SNS filter policies (cfn/snsfilter, aws-shim/sns_filter.go)

    Which published messages a subscription receives: a policy is parsed into conditions, and decides by a
    message's attributes or by its JSON body.  Text is decoded by a parameter (the first JSON value of it); a
    number whose literal is out of the range of float64 is decoded to an infinity. *)

From S2P Require Import Prelude GoStrings GoTrim Json GoNet.
#[local] Open Scope string_scope.
#[local] Open Scope Z_scope.
#[local] Open Scope list_scope.

(** ** Addresses (net/netip) *)

Inductive addr := A4 (bits : Z) | A6 (bits : Z) (zone : string).
Record prefix := mkPrefix { pIs4 : bool; pBase : Z; pBits : Z }.

Section Netip.
(** The reader of IPv6 text: the bits and the zone. *)
Context (parseIPv6 : string → option (Z * string)).

(** The first of these bytes decides. *)
Fixpoint addr_kind (s : string) : option ascii :=
  match s with
  | "" => None
  | String c s => if contains_char c ".:%" then Some c else addr_kind s
  end.
Definition ParseAddr (s : string) : option addr :=
  match addr_kind s with
  | Some c =>
      if Ascii.eqb c "." then A4 <$> parseIPv4 s
      else if Ascii.eqb c ":" then (λ bz, A6 bz.1 bz.2) <$> parseIPv6 s
      else None
  | None => None
  end.
Definition Unmap (a : addr) : addr :=
  match a with
  | A6 n _ => if Z.shiftr n 32 =? 0xFFFF then A4 (Z.land n (2 ^ 32 - 1)) else a
  | A4 _ => a
  end.
(** The length of a prefix: digits, without a leading zero. *)
Definition prefix_bits (s : string) (max : Z) : option Z :=
  if (1 <? String.length s)%nat && negb (match s with String c _ => in_range "1" "9" c | "" => false end) then None
  else n ← (if forall_char is_digit s && negb (String.eqb s "") then digits s 0 else None); if n <=? max then Some n else None.
(** Around the last slash. *)
Fixpoint CutLast (s : string) : option (string * string) :=
  match s with
  | "" => None
  | String c s' => match CutLast s' with
                   | Some (a, b) => Some (String c a, b)
                   | None => if Ascii.eqb c "/" then Some ("", s') else None
                   end
  end.
Definition masked (is4 : bool) (n bits : Z) : Z := let w := if is4 then 32 else 128 in Z.shiftl (Z.shiftr n (w - bits)) (w - bits).
(** netip.ParsePrefix(s).Masked(). *)
Definition ParsePrefix (s : string) : option prefix :=
  '(a, b) ← CutLast s;
  ip ← ParseAddr a;
  match ip with
  | A4 n => bits ← prefix_bits b 32; Some (mkPrefix true (masked true n bits) bits)
  | A6 n zone => if negb (String.eqb zone "") then None else bits ← prefix_bits b 128; Some (mkPrefix false (masked false n bits) bits)
  end.
Definition PrefixContains (p : prefix) (a : addr) : bool :=
  match a with
  | A4 n => pIs4 p && (masked true n (pBits p) =? pBase p)
  | A6 n zone => negb (pIs4 p) && String.eqb zone "" && (masked false n (pBits p) =? pBase p)
  end.

(** ** Policies *)

Inductive val := VNil | VStr (s : string) | VNum (f : spec_float) | VBool (b : bool) | VList (l : list val).
Record numCmp := mkCmp { nOp : string; nN : spec_float }.
Record cond := mkCond { cOp : string; cValue : val; cNum : list numCmp; cExist : bool; cCidr : option prefix }.
Definition op_cond (op : string) (v : val) : cond := mkCond op v [] false None.

Inductive object := Obj (keys : list (string * node)) (ors : list (list object))
with node := Leaf (cs : list cond) | Sub (o : object).

Inductive scope := ScopeAttributes | ScopeBody.
Record Policy := mkPolicy { pScope : scope; pRoot : object }.

Inductive parse_error :=
| BadScope | TooLarge | NotJSON | NotAnObject | TooDeep | BadOr | EmptyConditions (k : string) | NestedKey (k : string) | NotConditions (k : string)
| BadNumber | BodyOnly | OneOperator | BadCondition | TakesString (op : string) | BadExists | BadCidr (s : string) | BadNumeric | BadRange
| BadAnythingBut | UnknownOperator (op : string) | TooManyKeys (n : Z) | TooManyCombinations (n : Z).

Definition maxKeys : Z := 5.
Definition maxCombinations : Z := 150.
Definition maxSize : Z := 256 * 1024.

(** The value of a json.Number. *)
Definition number (v : json) : option spec_float :=
  match v with
  | JNum f => match f with S754_zero _ | S754_finite _ _ _ => Some f | _ => None end
  | _ => None
  end.

Definition SFle (a b : spec_float) : bool := SFleb a b.

Fixpoint comparisons (l : list json) : option (list numCmp) :=
  match l with
  | JStr o :: n :: l =>
      f ← number n;
      if existsb (String.eqb o) ["="; "<"; "<="; ">"; ">="] then cmps ← comparisons l; Some (mkCmp o f :: cmps) else None
  | [] => Some []
  | _ => None
  end.

Definition anything_but_value (e : json) : option val :=
  match e with
  | JStr s => Some (VStr s)
  | JNum _ => VNum <$> number e
  | _ => None
  end.

Definition parseOp (op : string) (arg : json) : res parse_error cond :=
  if String.eqb op "prefix" || String.eqb op "suffix" then
    match arg with JStr s => Ok (op_cond op (VStr s)) | _ => Err (TakesString op) end
  else if String.eqb op "equals-ignore-case" then
    match arg with JStr s => Ok (op_cond "eqic" (VStr s)) | _ => Err (TakesString op) end
  else if String.eqb op "exists" then
    match arg with JBool b => Ok (mkCond "exists" VNil [] b None) | _ => Err BadExists end
  else if String.eqb op "cidr" then
    match arg with
    | JStr s => match ParsePrefix s with Some p => Ok (mkCond "cidr" VNil [] false (Some p)) | None => Err (BadCidr s) end
    | _ => Err (TakesString op)
    end
  else if String.eqb op "numeric" then
    match arg with
    | JArr list =>
        if negb ((length list =? 2)%nat || (length list =? 4)%nat) then Err BadNumeric else
        match comparisons list with
        | None => Err BadNumeric
        | Some cmps =>
            match cmps with
            | [lo; hi] => if negb (HasPrefix (nOp lo) ">") || negb (HasPrefix (nOp hi) "<") || SFle (nN hi) (nN lo) then Err BadRange
                          else Ok (mkCond "numeric" VNil cmps false None)
            | _ => Ok (mkCond "numeric" VNil cmps false None)
            end
        end
    | _ => Err BadNumeric
    end
  else if String.eqb op "anything-but" then
    let of_list (l : list json) :=
      match l with
      | [] => Err BadAnythingBut
      | _ => match mapM anything_but_value l with Some vals => Ok (op_cond "anything-but" (VList vals)) | None => Err BadAnythingBut end
      end in
    match arg with
    | JStr _ | JNum _ => of_list [arg]
    | JObj [(k, JStr s)] => if String.eqb k "prefix" || String.eqb k "suffix" then Ok (op_cond ("anything-but-" +:+ k) (VStr s)) else Err BadAnythingBut
    | JArr l => of_list l
    | _ => Err BadAnythingBut
    end
  else Err (UnknownOperator op).

Definition parseCond (body : bool) (e : json) : res parse_error cond :=
  match e with
  | JStr s => Ok (op_cond "eq" (VStr s))
  | JNum _ => match number e with Some f => Ok (op_cond "eq" (VNum f)) | None => Err BadNumber end
  | JBool b => if body then Ok (op_cond "eq" (VBool b)) else Err BodyOnly
  | JNull => if body then Ok (op_cond "eq" VNil) else Err BodyOnly
  | JObj [(op, arg)] => parseOp op arg
  | JObj _ => Err OneOperator
  | JArr _ => Err BadCondition
  end.

(** What a member adds to the keys and to the alternatives. *)
Inductive member := Key (n : node) | Or (branch : list object).
Definition keys_of (ms : list (string * member)) : list (string * node) := omap (λ km, match km.2 with Key n => Some (km.1, n) | Or _ => None end) ms.
Definition ors_of (ms : list (string * member)) : list (list object) := omap (λ km, match km.2 with Or b => Some b | Key _ => None end) ms.

(** [depth] counts the levels that are left, 17 from the top. *)
Fixpoint parseObject (depth : nat) (nested : bool) (m : list (string * json)) : res parse_error object :=
  match depth with
  | O => Err TooDeep
  | S depth =>
      ms ← mapM (λ kv, let '(k, v) := kv in
        if String.eqb k "$or" then
          match v with
          | JArr list =>
              if (length list <? 2)%nat then Err BadOr else
              branch ← mapM (λ e, match e with JObj ((_ :: _) as em) => parseObject depth nested em | _ => Err BadOr end) list;
              Ok (k, Or branch)
          | _ => Err BadOr
          end
        else match v with
             | JArr [] => Err (EmptyConditions k)
             | JArr t => conds ← mapM (parseCond nested) t; Ok (k, Key (Leaf conds))
             | JObj t => if nested then sub ← parseObject depth nested t; Ok (k, Key (Sub sub)) else Err (NestedKey k)
             | _ => Err (NotConditions k)
             end) (by_key m);
      Ok (Obj (keys_of ms) (ors_of ms))
  end.

Fixpoint leafKeys (o : object) : Z :=
  match o with
  | Obj keys ors =>
      foldr (λ kn n, n + match kn.2 with Leaf _ => 1 | Sub s => leafKeys s end) 0 keys
      + foldr (λ branch n, n + foldr (λ b most, Z.max (leafKeys b) most) 0 branch) 0 ors
  end.

(** int is int64, and wraps. *)
Fixpoint combinations (o : object) : Z :=
  match o with
  | Obj keys ors =>
      let c := foldl (λ c kn, int64 (c * match kn.2 with Leaf cs => len cs | Sub s => combinations s end)) 1 keys in
      foldl (λ c branch, int64 (c * foldl (λ s b, int64 (s + combinations b)) 0 branch)) c ors
  end.

Definition read_scope (s : string) : option scope :=
  if String.eqb s "" || String.eqb s "MessageAttributes" then Some ScopeAttributes
  else if String.eqb s "MessageBody" then Some ScopeBody else None.
Definition is_body (s : scope) : bool := match s with ScopeBody => true | ScopeAttributes => false end.

Section Parse.
(** The first JSON value of a text. *)
Context (Decode : string → option json).

Definition Parse (doc scope_ : string) : res parse_error Policy :=
  match read_scope scope_ with
  | None => Err BadScope
  | Some sc =>
      if maxSize <? Z.of_nat (String.length doc) then Err TooLarge else
      match Decode doc with
      | None => Err NotJSON
      | Some (JObj ((_ :: _) as m)) =>
          root ← parseObject 17 (is_body sc) m;
          if (maxKeys <? leafKeys root) && negb (is_body sc) then Err (TooManyKeys (leafKeys root))
          else if maxCombinations <? combinations root then Err (TooManyCombinations (combinations root))
          else Ok (mkPolicy sc root)
      | Some _ => Err NotAnObject
      end
  end.
End Parse.
End Netip.

(** ** Matching *)

(** A message attribute as published. *)
Record Attr := mkAttr { aType : string; aValue : string }.

Inductive value := KString (s : string) | KNumber (n : spec_float) | KBool (b : bool) | KNull | KBinary.

Fixpoint jsonValue (e : json) : list value :=
  match e with
  | JStr s => [KString s]
  | JNum _ => match number e with Some f => [KNumber f] | None => [] end
  | JBool b => [KBool b]
  | JNull => [KNull]
  | JArr l => flat_map jsonValue l
  | JObj _ => []
  end.

Definition compare (x : spec_float) (c : numCmp) : bool :=
  if String.eqb (nOp c) "=" then SFeqb x (nN c)
  else if String.eqb (nOp c) "<" then SFltb x (nN c)
  else if String.eqb (nOp c) "<=" then SFleb x (nN c)
  else if String.eqb (nOp c) ">" then SFltb (nN c) x
  else if String.eqb (nOp c) ">=" then SFleb (nN c) x
  else false.

(** [None] is the panic of a type assertion. *)
Definition str_of (v : val) : option string := match v with VStr s => Some s | _ => None end.

Definition eq_value (x : val) (v : value) : bool :=
  match x, v with
  | VStr s, KString s' => String.eqb s' s
  | VNum f, KNumber n => SFeqb n f
  | VBool b, KBool b' => Bool.eqb b' b
  | VNil, KNull => true
  | _, _ => false
  end.

Section Matching.
Context (parseIPv6 : string → option (Z * string)).

Definition matches (c : cond) (v : value) : option bool :=
  if String.eqb (cOp c) "eq" then Some (eq_value (cValue c) v)
  else if String.eqb (cOp c) "prefix" then
    match v with KString s => p ← str_of (cValue c); Some (HasPrefix s p) | _ => Some false end
  else if String.eqb (cOp c) "suffix" then
    match v with KString s => p ← str_of (cValue c); Some (HasSuffix s p) | _ => Some false end
  else if String.eqb (cOp c) "eqic" then
    match v with KString s => p ← str_of (cValue c); Some (EqualFold s p) | _ => Some false end
  else if String.eqb (cOp c) "numeric" then
    match v with KNumber n => Some (forallb (compare n) (cNum c)) | _ => Some false end
  else if String.eqb (cOp c) "cidr" then
    match v with
    | KString s => match ParseAddr parseIPv6 s, cCidr c with
                   | Some ip, Some p => Some (PrefixContains p (Unmap ip))
                   | _, _ => Some false
                   end
    | _ => Some false
    end
  else Some false.

(** The loops of the matcher stop at the first element that decides. *)
Fixpoint exists_o {A} (f : A → option bool) (l : list A) : option bool :=
  match l with [] => Some false | a :: l => b ← f a; if (b : bool) then Some true else exists_o f l end.
Fixpoint forall_o {A} (f : A → option bool) (l : list A) : option bool :=
  match l with [] => Some true | a :: l => b ← f a; if (b : bool) then forall_o f l else Some false end.

Definition not_one (c : cond) (v : value) : option bool :=
  if String.eqb (cOp c) "anything-but-prefix" then
    match v with KString s => p ← str_of (cValue c); Some (negb (HasPrefix s p)) | _ => Some false end
  else if String.eqb (cOp c) "anything-but-suffix" then
    match v with KString s => p ← str_of (cValue c); Some (negb (HasSuffix s p)) | _ => Some false end
  else match cValue c with
       | VList xs => one ← exists_o (λ x, matches (op_cond "eq" x) v) xs;
                     Some (negb one && match v with KBinary => false | _ => true end)
       | _ => None
       end.
Definition allNot (c : cond) (vals : list value) : option bool := forall_o (not_one c) vals.

(** One condition of a key. *)
Definition cond_holds (vals : list value) (present : bool) (c : cond) : option bool :=
  if String.eqb (cOp c) "exists" then Some (Bool.eqb (cExist c) present)
  else if negb present then Some false
  else if String.eqb (cOp c) "anything-but" || String.eqb (cOp c) "anything-but-prefix" || String.eqb (cOp c) "anything-but-suffix" then
    match vals with [] => Some false | _ => allNot c vals end
  else exists_o (matches c) vals.
Definition anyCond (conds : list cond) (vals : list value) (present : bool) : option bool := exists_o (cond_holds vals present) conds.

(** A flat object; [lookup] gives the values of a key that is there. *)
Fixpoint match_flat (lookup : string → option (list value)) (o : object) : option bool :=
  match o with
  | Obj keys ors =>
      a ← forall_o (λ kn, let conds := match kn.2 with Leaf cs => cs | Sub _ => [] end in
                          match lookup kn.1 with
                          | Some vals => anyCond conds vals true
                          | None => anyCond conds [] false
                          end) keys;
      if (a : bool) then forall_o (λ branch, exists_o (match_flat lookup) branch) ors else Some false
  end.

(** A nested policy against a value: an object, or any object of an array. *)
Definition match_value (f : list (string * json) → option bool) (v : json) : option bool :=
  match v with
  | JObj m => f m
  | JArr l => exists_o (λ e, match e with JObj m => f m | _ => Some false end) l
  | _ => Some false
  end.
Fixpoint matchBody (o : object) (m : list (string * json)) : option bool :=
  match o with
  | Obj keys ors =>
      a ← forall_o (λ kn, match kn.2 with
                          | Sub s => match obj_get m kn.1 with Some got => match_value (matchBody s) got | None => Some false end
                          | Leaf cs => anyCond cs (jsonValue (get m kn.1)) (has_key m kn.1)
                          end) keys;
      if (a : bool) then forall_o (λ branch, exists_o (λ b, matchBody b m) branch) ors else Some false
  end.

Section Message.
Context (Decode : string → option json) (ParseFloat : string → option spec_float).

Definition base_type (t : string) : string :=
  if HasPrefix t "String.Array" then t else before t ".".
Definition attrValues (a : Attr) : list value :=
  if HasPrefix (aType a) "String.Array" then
    match Decode (aValue a) with
    | Some (JArr l) => flat_map jsonValue l
    | _ => []
    end
  else if String.eqb (base_type (aType a)) "Number" then
    match ParseFloat (TrimSpace (aValue a)) with Some f => [KNumber f] | None => [] end
  else if String.eqb (base_type (aType a)) "Binary" then [KBinary]
  else [KString (aValue a)].

Definition MatchAttributes (p : Policy) (attrs : gmap string Attr) : option bool :=
  match_flat (λ k, attrValues <$> attrs !! k) (pRoot p).
Definition MatchBody (p : Policy) (body : string) : option bool :=
  match Decode body with
  | Some (JObj m) => matchBody (pRoot p) m
  | _ => Some false
  end.

(** *** The subscription's filter *)

(** What a subscription keeps of its filter. *)
Record subscription := mkSub { FilterPolicy : string; FilterPolicyScope : string }.

Definition subscriptionFilter (policy scope_ : string) : res parse_error subscription :=
  let policy := TrimSpace policy in
  if String.eqb policy "" || String.eqb policy "{}" then
    if negb (String.eqb scope_ "") && negb (String.eqb scope_ "MessageAttributes") && negb (String.eqb scope_ "MessageBody")
    then Err BadScope else Ok (mkSub "" scope_)
  else _ ← Parse parseIPv6 Decode policy scope_; Ok (mkSub policy scope_).

(** The attribute that SetSubscriptionAttributes sets. *)
Inductive filter_attr := SetPolicy | SetScope.
(** What it checks, of the subscription it reads, and what it then writes to the one that is stored. *)
Definition set_check (sub : subscription) (name : filter_attr) (v : string) : res parse_error (filter_attr * string) :=
  match name with
  | SetPolicy =>
      let policy := TrimSpace v in
      let policy := if String.eqb policy "{}" then "" else policy in
      _ ← subscriptionFilter policy (FilterPolicyScope sub); Ok (SetPolicy, policy)
  | SetScope => _ ← subscriptionFilter (FilterPolicy sub) v; Ok (SetScope, v)
  end.
Definition set_write (sub : subscription) (w : filter_attr * string) : subscription :=
  match w with
  | (SetPolicy, v) => mkSub v (FilterPolicyScope sub)
  | (SetScope, v) => mkSub (FilterPolicy sub) v
  end.
Definition setSubscriptionFilter (sub : subscription) (name : filter_attr) (v : string) : res parse_error subscription :=
  w ← set_check sub name v; Ok (set_write sub w).

Definition passesFilter (sub : subscription) (message : string) (attrs : gmap string Attr) : option bool :=
  if String.eqb (FilterPolicy sub) "" then Some true else
  match Parse parseIPv6 Decode (FilterPolicy sub) (FilterPolicyScope sub) with
  | Err _ => Some false
  | Ok p => match pScope p with ScopeBody => MatchBody p message | ScopeAttributes => MatchAttributes p attrs end
  end.
End Message.
End Matching.

(** ** What a document says

    The reading of a filter policy, in the order of its document: a member of an object holds when one of its
    conditions does on the values of its key, and "$or" when one of its policies does. *)

Section Says.
Context (parseIPv6 : string → option (Z * string)).

Definition lit_says (e : json) (v : value) : bool :=
  match e, v with
  | JStr s, KString s' => String.eqb s' s
  | JNum f, KNumber n => SFeqb n f
  | JBool b, KBool b' => Bool.eqb b' b
  | JNull, KNull => true
  | _, _ => false
  end.
Definition on_text (f : string → bool) (v : value) : bool := match v with KString s => f s | _ => false end.

Fixpoint numeric_says (l : list json) (n : spec_float) : bool :=
  match l with
  | JStr o :: JNum f :: l => compare n (mkCmp o f) && numeric_says l n
  | _ => true
  end.
(** What anything-but leaves out; a binary value is no other value, and only text has no prefix. *)
Definition excluded (arg : json) (v : value) : bool :=
  match arg with
  | JObj [(k, JStr p)] => match v with KString s => if String.eqb k "prefix" then HasPrefix s p else HasSuffix s p | _ => true end
  | JArr l => existsb (λ e, lit_says e v) l || match v with KBinary => true | _ => false end
  | _ => lit_says arg v || match v with KBinary => true | _ => false end
  end.

(** The values of a key that is there. *)
Definition op_says (op : string) (arg : json) (vals : list value) : bool :=
  if String.eqb op "prefix" then match arg with JStr p => existsb (on_text (λ s, HasPrefix s p)) vals | _ => false end
  else if String.eqb op "suffix" then match arg with JStr p => existsb (on_text (λ s, HasSuffix s p)) vals | _ => false end
  else if String.eqb op "equals-ignore-case" then match arg with JStr p => existsb (on_text (λ s, EqualFold s p)) vals | _ => false end
  else if String.eqb op "numeric" then
    match arg with JArr l => existsb (λ v, match v with KNumber n => numeric_says l n | _ => false end) vals | _ => false end
  else if String.eqb op "cidr" then
    match arg with
    | JStr s => match ParsePrefix parseIPv6 s with
                | Some p => existsb (on_text (λ s, match ParseAddr parseIPv6 s with Some ip => PrefixContains p (Unmap ip) | None => false end)) vals
                | None => false
                end
    | _ => false
    end
  else if String.eqb op "anything-but" then negb (bool_decide (vals = [])) && forallb (λ v, negb (excluded arg v)) vals
  else false.
Definition cond_says (vals : list value) (present : bool) (e : json) : bool :=
  match e with
  | JObj [(op, arg)] =>
      if String.eqb op "exists" then match arg with JBool b => Bool.eqb b present | _ => false end
      else present && op_says op arg vals
  | _ => present && existsb (lit_says e) vals
  end.

Fixpoint flat_says (depth : nat) (lookup : string → option (list value)) (m : list (string * json)) : bool :=
  match depth with
  | O => false
  | S depth =>
      forallb (λ kv, match kv.2 with
        | JArr l => if String.eqb kv.1 "$or" then existsb (λ e, match e with JObj em => flat_says depth lookup em | _ => false end) l
                    else match lookup kv.1 with
                         | Some vals => existsb (cond_says vals true) l
                         | None => existsb (cond_says [] false) l
                         end
        | _ => false
        end) (by_key m)
  end.
Definition value_says (f : list (string * json) → bool) (v : json) : bool :=
  match v with
  | JObj m => f m
  | JArr l => existsb (λ e, match e with JObj m => f m | _ => false end) l
  | _ => false
  end.
Fixpoint body_says (depth : nat) (m : list (string * json)) (msg : list (string * json)) : bool :=
  match depth with
  | O => false
  | S depth =>
      forallb (λ kv, match kv.2 with
        | JArr l => if String.eqb kv.1 "$or" then existsb (λ e, match e with JObj em => body_says depth em msg | _ => false end) l
                    else existsb (cond_says (jsonValue (get msg kv.1)) (has_key msg kv.1)) l
        | JObj t => match obj_get msg kv.1 with Some got => value_says (body_says depth t) got | None => false end
        | _ => false
        end) (by_key m)
  end.

(** *** Conditions *)

Lemma exists_o_Some {A} (f : A → option bool) (g : A → bool) l : (∀ a, a ∈ l → f a = Some (g a)) → exists_o f l = Some (existsb g l).
Proof.
  induction l as [|a l IH]; intros H; [done|]. cbn. rewrite (H a) by left. cbn. destruct (g a); [done|]. apply IH. intros b Hb. apply H. by right.
Qed.
Lemma forall_o_Some {A} (f : A → option bool) (g : A → bool) l : (∀ a, a ∈ l → f a = Some (g a)) → forall_o f l = Some (forallb g l).
Proof.
  induction l as [|a l IH]; intros H; [done|]. cbn. rewrite (H a) by left. cbn. destruct (g a); [|done]. apply IH. intros b Hb. apply H. by right.
Qed.
Lemma exists_o_Forall2 {A B} (f : A → option bool) (g : B → bool) l k : Forall2 (λ b a, f a = Some (g b)) k l → exists_o f l = Some (existsb g k).
Proof. induction 1 as [|b a k l H _ IH]; [done|]. cbn. rewrite H. cbn. by destruct (g b). Qed.
Lemma forall_o_Forall2 {A B} (f : A → option bool) (g : B → bool) l k : Forall2 (λ b a, f a = Some (g b)) k l → forall_o f l = Some (forallb g k).
Proof. induction 1 as [|b a k l H _ IH]; [done|]. cbn. rewrite H. cbn. by destruct (g b). Qed.

Lemma number_id f g : number (JNum f) = Some g → g = f.
Proof. destruct f; cbn; congruence. Qed.

Lemma comparisons_say l cmps n : comparisons l = Some cmps → forallb (compare n) cmps = numeric_says l n.
Proof.
  revert cmps. assert (H : ∀ k l cmps, (length l <= k)%nat → comparisons l = Some cmps → forallb (compare n) cmps = numeric_says l n); [|eauto].
  induction k as [|k IH]; intros [|x [|y l']] cmps Hl; cbn in Hl; try lia; try (by destruct x); try (by intros [= <-]).
  destruct x as [| | |o| |]; try done. cbn [comparisons]. intros (f & Hf & H)%bind_Some. destruct y as [| |g| | |]; try done. apply number_id in Hf as ->.
  case_match; [|done]. apply bind_Some in H as (cs & Hcs & [= <-]). cbn [forallb numeric_says]. by rewrite (IH l' cs) by (done || lia).
Qed.

Lemma text_cond op p vals (f : string → string → bool) :
  (∀ v, matches parseIPv6 (op_cond op (VStr p)) v = match v with KString s => Some (f s p) | _ => Some false end) →
  exists_o (matches parseIPv6 (op_cond op (VStr p))) vals = Some (existsb (on_text (λ s, f s p)) vals).
Proof. intros H. apply exists_o_Some. intros v _. rewrite H. by destruct v. Qed.

Lemma present_if (present : bool) (f : option bool) b : (present = true → f = Some b) → (if negb present then Some false else f) = Some (present && b).
Proof. destruct present; cbn; auto. Qed.

Lemma eq_cond_says vals present x e : (∀ v, eq_value x v = lit_says e v) → (∀ m, e ≠ JObj m) →
  cond_holds parseIPv6 vals present (op_cond "eq" x) = Some (cond_says vals present e).
Proof.
  intros Hx He. unfold cond_holds. cbn [cOp op_cond String.eqb Ascii.eqb Bool.eqb orb].
  replace (cond_says vals present e) with (present && existsb (lit_says e) vals) by (destruct e as [| | | | |m]; try done; by destruct (He m)).
  apply present_if. intros _. apply exists_o_Some. intros v _. unfold matches. cbn [cOp cValue op_cond String.eqb Ascii.eqb Bool.eqb]. by rewrite Hx.
Qed.

Lemma anything_but_value_says e x v : anything_but_value e = Some x → matches parseIPv6 (op_cond "eq" x) v = Some (lit_says e v).
Proof.
  destruct e; try done; cbn [anything_but_value]; intros H.
  - apply fmap_Some in H as (g & Hg & ->). apply number_id in Hg as ->. by destruct v.
  - injection H as <-. by destruct v.
Qed.

Lemma anything_but_list l xs : mapM anything_but_value l = Some xs → ∀ v,
  not_one parseIPv6 (op_cond "anything-but" (VList xs)) v = Some (negb (existsb (λ e, lit_says e v) l || match v with KBinary => true | _ => false end)).
Proof.
  intros Hm%mapM_Some v. unfold not_one. cbn [cOp cValue op_cond String.eqb Ascii.eqb Bool.eqb].
  rewrite (exists_o_Forall2 _ (λ e, lit_says e v) xs l).
  - cbn. f_equal. destruct (existsb (λ e, lit_says e v) l); [done|]. by destruct v.
  - eapply Forall2_impl; [exact Hm|]. intros e x Hx. by apply anything_but_value_says.
Qed.

Lemma anything_but_says vals c (ex : value → bool) :
  (∀ v, not_one parseIPv6 c v = Some (negb (ex v))) →
  (match vals with [] => Some false | _ => allNot parseIPv6 c vals end) = Some (negb (bool_decide (vals = [])) && forallb (λ v, negb (ex v)) vals).
Proof.
  intros H. destruct vals as [|v vals]; [done|]. rewrite bool_decide_eq_false_2 by done. cbn [negb andb]. unfold allNot. by apply forall_o_Some.
Qed.

Lemma parseOp_says op arg c vals present : parseOp parseIPv6 op arg = Ok c → cond_holds parseIPv6 vals present c = Some (cond_says vals present (JObj [(op, arg)])).
Proof.
  unfold parseOp, cond_says. intros H.
  destruct (String.eqb_spec op "prefix") as [->|Hp]; [|destruct (String.eqb_spec op "suffix") as [->|Hs]].
  1,2: cbn [orb String.eqb Ascii.eqb Bool.eqb] in *; destruct arg; try done; injection H as <-; apply present_if; intros _;
    apply (text_cond _ _ _ (λ s p, _)); by intros [].
  cbn [orb] in H. destruct (String.eqb_spec op "equals-ignore-case") as [->|He].
  { destruct arg; try done. injection H as <-. apply present_if. intros _. apply (text_cond _ _ _ EqualFold). by intros []. }
  destruct (String.eqb_spec op "exists") as [->|Hx].
  { destruct arg; try done. injection H as <-. done. }
  unfold op_says. rewrite (proj2 (String.eqb_neq op "prefix") Hp), (proj2 (String.eqb_neq op "suffix") Hs), (proj2 (String.eqb_neq op "equals-ignore-case") He).
  destruct (String.eqb_spec op "cidr") as [->|Hc].
  { destruct arg; try done. destruct (ParsePrefix parseIPv6 s) as [p|] eqn:Ep; [|done]. injection H as <-. apply present_if. intros _.
    cbn [String.eqb Ascii.eqb Bool.eqb]. apply exists_o_Some. intros v _. unfold matches. cbn [cOp cCidr String.eqb Ascii.eqb Bool.eqb].
    destruct v; try done. cbn [on_text]. by destruct (ParseAddr parseIPv6 s0). }
  destruct (String.eqb_spec op "numeric") as [->|Hn].
  { destruct arg as [| | | |l|]; try done. destruct (negb _); [done|]. destruct (comparisons l) as [cmps|] eqn:Ec; [|done].
    assert (c = mkCond "numeric" VNil cmps false None) as ->.
    { destruct cmps as [|lo [|hi [|]]]; try (by injection H as <-). destruct (_ || _); [done|by injection H as <-]. }
    apply present_if. intros _. cbn [String.eqb Ascii.eqb Bool.eqb]. apply exists_o_Some. intros v _. unfold matches. cbn [cOp cNum String.eqb Ascii.eqb Bool.eqb].
    destruct v; try done. by rewrite (comparisons_say l cmps). }
  destruct (String.eqb_spec op "anything-but") as [->|]; [|done]. cbn [String.eqb Ascii.eqb Bool.eqb].
  assert (Hlist : ∀ l, match l with [] => Err BadAnythingBut | _ => match mapM anything_but_value l with Some vals => Ok (op_cond "anything-but" (VList vals)) | None => Err BadAnythingBut end end = Ok c →
    cond_holds parseIPv6 vals present c = Some (present && (negb (bool_decide (vals = [])) && forallb (λ v, negb (existsb (λ e, lit_says e v) l || match v with KBinary => true | _ => false end)) vals))).
  { intros [|e l] Hl; [done|]. destruct (mapM anything_but_value (e :: l)) as [xs|] eqn:Em; [|done]. injection Hl as <-. apply present_if. intros _.
    cbn [cOp op_cond String.eqb Ascii.eqb Bool.eqb orb]. apply anything_but_says. by apply anything_but_list. }
  destruct arg as [| |f|s|l|m]; try done.
  - rewrite (Hlist [JNum f] H). cbn [existsb excluded]. do 3 f_equal. apply forallb_same. intros v. by rewrite orb_false_r.
  - rewrite (Hlist [JStr s] H). cbn [existsb excluded]. do 3 f_equal. apply forallb_same. intros v. by rewrite orb_false_r.
  - exact (Hlist l H).
  - destruct m as [|[k [| | |p| |]] [|]]; try done. destruct (String.eqb_spec k "prefix") as [->|Hk]; cbn [orb] in H.
    + injection H as <-. apply present_if. intros _. apply anything_but_says. intros v. unfold not_one. cbn. by destruct v.
    + destruct (String.eqb_spec k "suffix") as [->|]; [|done]. injection H as <-. apply present_if. intros _. apply anything_but_says. intros v. unfold not_one. cbn. by destruct v.
Qed.

Lemma parseCond_says body e c vals present : parseCond parseIPv6 body e = Ok c → cond_holds parseIPv6 vals present c = Some (cond_says vals present e).
Proof.
  destruct e as [|b|f|s|l|m]; cbn [parseCond].
  - destruct body; [|done]. intros [= <-]. apply eq_cond_says; [|done]. by intros [].
  - destruct body; [|done]. intros [= <-]. apply eq_cond_says; [|done]. by intros [].
  - case_match eqn:E; [|done]. intros [= <-]. apply number_id in E as ->. apply eq_cond_says; [|done]. by intros [].
  - intros [= <-]. apply eq_cond_says; [|done]. by intros [].
  - done.
  - destruct m as [|[op arg] [|]]; try done. apply parseOp_says.
Qed.

Lemma conds_say body l conds vals present : Forall2 (λ e c, parseCond parseIPv6 body e = Ok c) l conds →
  anyCond parseIPv6 conds vals present = Some (existsb (cond_says vals present) l).
Proof.
  intros H. apply exists_o_Forall2. eapply Forall2_impl; [exact H|]. intros e c Hc. exact (parseCond_says _ _ _ _ _ Hc).
Qed.

(** *** Objects *)

Inductive parsed (depth : nat) (nested : bool) : string * json → string * member → Prop :=
| parsed_or l branch : Forall2 (λ e o, ∃ em, e = JObj em ∧ parseObject parseIPv6 depth nested em = Ok o) l branch →
    parsed depth nested ("$or", JArr l) ("$or", Or branch)
| parsed_leaf k t conds : k ≠ "$or" → Forall2 (λ e c, parseCond parseIPv6 nested e = Ok c) t conds → parsed depth nested (k, JArr t) (k, Key (Leaf conds))
| parsed_sub k t o : k ≠ "$or" → nested = true → parseObject parseIPv6 depth nested t = Ok o → parsed depth nested (k, JObj t) (k, Key (Sub o)).

Lemma parseObject_inv depth nested m o : parseObject parseIPv6 (S depth) nested m = Ok o →
  ∃ ms, Forall2 (parsed depth nested) (by_key m) ms ∧ o = Obj (keys_of ms) (ors_of ms).
Proof.
  cbn [parseObject]. intros (ms & Hm%mapM_res_Ok & [= <-])%res_bind_Ok. exists ms. split; [|done].
  eapply Forall2_impl; [exact Hm|]. clear. intros [k v] km H. destruct (String.eqb_spec k "$or") as [->|Hk].
  - destruct v as [| | | |l|]; try done. destruct (length l <? 2)%nat; [done|].
    apply res_bind_Ok in H as (branch & Hb%mapM_res_Ok & [= <-]). constructor. eapply Forall2_impl; [exact Hb|].
    intros e o He. destruct e as [| | | | |[|kv em]]; try done. by exists (kv :: em).
  - destruct v as [| | | |[|e t]|t]; try done.
    + apply res_bind_Ok in H as (conds & Hc%mapM_res_Ok & [= <-]). by constructor.
    + destruct nested; [|done]. apply res_bind_Ok in H as (sub & Hs & [= <-]). by constructor.
Qed.

(** The loops over keys and over alternatives, as one over the members. *)
Lemma members_hold (fk : string * node → option bool) (fo : list object → option bool) (g : string * json → bool) kvs (ms : list (string * member)) :
  Forall2 (λ kv km, match km.2 with Key n => fk (km.1, n) = Some (g kv) | Or b => fo b = Some (g kv) end) kvs ms →
  (a ← forall_o fk (keys_of ms); if (a : bool) then forall_o fo (ors_of ms) else Some false) = Some (forallb g kvs).
Proof.
  intros H.
  assert (Hk : ∃ bk, forall_o fk (keys_of ms) = Some bk ∧ ∃ bo, forall_o fo (ors_of ms) = Some bo ∧ forallb g kvs = bk && bo).
  { induction H as [|kv [k [n|b]] kvs ms Hg _ (bk & Hk & bo & Ho & Hb)].
    - exists true. split; [done|]. by exists true.
    - cbn [fst snd] in Hg. exists (g kv && bk). cbn. rewrite Hg, Hb. cbn. split; [by destruct (g kv)|]. exists bo. by rewrite andb_assoc.
    - cbn [fst snd] in Hg. exists bk. split; [done|]. exists (g kv && bo). cbn. rewrite Hg, Hb. cbn. split; [by destruct (g kv)|].
      rewrite !andb_assoc. f_equal. apply andb_comm. }
  destruct Hk as (bk & -> & bo & Ho & ->). cbn. destruct bk; [by rewrite Ho|done].
Qed.

Lemma flat_object_says lookup depth m o : parseObject parseIPv6 depth false m = Ok o →
  match_flat parseIPv6 lookup o = Some (flat_says depth lookup m).
Proof.
  revert m o. induction depth as [|depth IH]; intros m o H; [done|]. apply parseObject_inv in H as (ms & Hms & ->).
  cbn [match_flat flat_says]. apply members_hold. eapply Forall2_impl; [exact Hms|]. intros kv km Hp.
  inversion Hp as [l branch Hb|k t conds Hk Hc|]; subst; cbn [fst snd]; [| |done].
  - cbn [String.eqb Ascii.eqb Bool.eqb]. apply exists_o_Forall2. eapply Forall2_impl; [exact Hb|]. intros e o (em & -> & He). by apply IH.
  - rewrite (proj2 (String.eqb_neq k "$or") Hk). destruct (lookup k); by eapply conds_say.
Qed.

Lemma body_object_says depth m o msg : parseObject parseIPv6 depth true m = Ok o → matchBody parseIPv6 o msg = Some (body_says depth m msg).
Proof.
  revert m o msg. induction depth as [|depth IH]; intros m o msg H; [done|]. apply parseObject_inv in H as (ms & Hms & ->).
  cbn [matchBody body_says]. apply members_hold. eapply Forall2_impl; [exact Hms|]. intros kv km Hp.
  inversion Hp as [l branch Hb|k t conds Hk Hc|k t o Hk _ Ho]; subst; cbn [fst snd].
  - cbn [String.eqb Ascii.eqb Bool.eqb]. apply exists_o_Forall2. eapply Forall2_impl; [exact Hb|]. intros e o (em & -> & He). by apply IH.
  - rewrite (proj2 (String.eqb_neq k "$or") Hk). by eapply conds_say.
  - destruct (obj_get msg k) as [got|]; [|done]. unfold match_value, value_says. destruct got; try done; [|by apply IH].
    apply exists_o_Some. intros e _. destruct e; try done. by apply IH.
Qed.
End Says.

(** ** Properties *)

Section Filter.
Context (parseIPv6 : string → option (Z * string)) (Decode : string → option json) (ParseFloat : string → option spec_float).

Lemma Parse_decides doc scope_ p : Parse parseIPv6 Decode doc scope_ = Ok p →
  ∃ m, Decode doc = Some (JObj m) ∧
    (pScope p = ScopeAttributes → ∀ attrs, MatchAttributes parseIPv6 Decode ParseFloat p attrs =
       Some (flat_says parseIPv6 17 (λ k, attrValues Decode ParseFloat <$> attrs !! k) m)) ∧
    (pScope p = ScopeBody → ∀ body, MatchBody parseIPv6 Decode p body =
       Some (match Decode body with Some (JObj msg) => body_says parseIPv6 17 m msg | _ => false end)).
Proof.
  unfold Parse. destruct (read_scope scope_) as [sc|]; [|done]. destruct (maxSize <? _); [done|].
  destruct (Decode doc) as [[| | | | |[|kv m]]|] eqn:Ed; try done. intros (root & Hr & H)%res_bind_Ok.
  repeat match type of H with (if ?b then _ else _) = _ => destruct b; [done|] end. injection H as <-. exists (kv :: m). split; [done|].
  unfold MatchAttributes, MatchBody. cbn [pScope pRoot]. split; intros -> ?.
  - by apply flat_object_says.
  - destruct (Decode body) as [[| | | | |msg]|]; try done. by apply body_object_says.
Qed.

(** C34: A policy that is accepted decides every message, without a panic, as its document reads: an attribute policy by
    the attributes of the message and a body policy by its body, where a text that is not an object passes nothing. *)
Theorem filter_decides doc scope_ p : Parse parseIPv6 Decode doc scope_ = Ok p →
  ∃ m, Decode doc = Some (JObj m) ∧
    (pScope p = ScopeAttributes → ∀ attrs, MatchAttributes parseIPv6 Decode ParseFloat p attrs =
       Some (flat_says parseIPv6 17 (λ k, attrValues Decode ParseFloat <$> attrs !! k) m)) ∧
    (pScope p = ScopeBody → ∀ body, MatchBody parseIPv6 Decode p body =
       Some (match Decode body with Some (JObj msg) => body_says parseIPv6 17 m msg | _ => false end)).
Proof. apply Parse_decides. Qed.

(** *** The subscription *)

(** The filter can be applied. *)
Definition readable (sub : subscription) : Prop :=
  FilterPolicy sub = "" ∨ is_ok (Parse parseIPv6 Decode (FilterPolicy sub) (FilterPolicyScope sub)) = true.
Definition kept_well (sub : subscription) : Prop :=
  TrimSpace (FilterPolicy sub) = FilterPolicy sub ∧ FilterPolicy sub ≠ "{}" ∧ readable sub.

Lemma subscriptionFilter_kept policy scope_ sub : subscriptionFilter parseIPv6 Decode policy scope_ = Ok sub → kept_well sub.
Proof.
  unfold subscriptionFilter. destruct (String.eqb_spec (TrimSpace policy) "") as [E|E]; cbn [orb].
  { destruct (_ && _); [done|]. intros [= <-]. split_and!; [done|done|by left]. }
  destruct (String.eqb_spec (TrimSpace policy) "{}") as [E'|E'].
  { destruct (_ && _); [done|]. intros [= <-]. split_and!; [done|done|by left]. }
  intros (p & Hp & [= <-])%res_bind_Ok. split_and!; [apply TrimSpace_idem|done|]. right. cbn. by rewrite Hp.
Qed.

Lemma set_kept sub name v sub' : kept_well sub → setSubscriptionFilter parseIPv6 Decode sub name v = Ok sub' → kept_well sub'.
Proof.
  intros (Ht & Hb & _) (w & Hw & [= <-])%res_bind_Ok. destruct name; cbn [set_check] in Hw; apply res_bind_Ok in Hw as (s & Hs & [= <-]); cbn [set_write].
  - set (policy := if String.eqb (TrimSpace v) "{}" then "" else TrimSpace v) in *.
    assert (Hp : TrimSpace policy = policy ∧ policy ≠ "{}").
    { unfold policy. destruct (String.eqb_spec (TrimSpace v) "{}"); [done|]. split; [apply TrimSpace_idem|done]. }
    destruct Hp as [Hp1 Hp2]. split_and!; [done|done|]. unfold readable. cbn [FilterPolicy FilterPolicyScope].
    unfold subscriptionFilter in Hs. rewrite Hp1 in Hs. destruct (String.eqb_spec policy ""); [by left|right].
    rewrite (proj2 (String.eqb_neq policy "{}") Hp2) in Hs. cbn [orb] in Hs. apply res_bind_Ok in Hs as (p & -> & _). done.
  - split_and!; [done|done|]. unfold readable. cbn [FilterPolicy FilterPolicyScope]. unfold subscriptionFilter in Hs. rewrite Ht in Hs.
    destruct (String.eqb_spec (FilterPolicy sub) ""); [by left|right].
    rewrite (proj2 (String.eqb_neq (FilterPolicy sub) "{}") Hb) in Hs. cbn [orb] in Hs. apply res_bind_Ok in Hs as (p & -> & _). done.
Qed.

(** A subscription after a sequence of calls that set its filter, one after the other. *)
Inductive subscribed : subscription → Prop :=
| subscribe policy scope_ sub : subscriptionFilter parseIPv6 Decode policy scope_ = Ok sub → subscribed sub
| set_filter sub name v sub' : subscribed sub → setSubscriptionFilter parseIPv6 Decode sub name v = Ok sub' → subscribed sub'.

(** However its filter was set, one call after the other, a subscription has a filter that can be applied: no
    message is dropped because the stored policy cannot be read, and each is decided as the policy reads. *)
Theorem filter_never_unreadable sub message attrs : subscribed sub →
  (FilterPolicy sub = "" ∧ passesFilter parseIPv6 Decode ParseFloat sub message attrs = Some true) ∨
  ∃ p m, Parse parseIPv6 Decode (FilterPolicy sub) (FilterPolicyScope sub) = Ok p ∧ Decode (FilterPolicy sub) = Some (JObj m) ∧
    passesFilter parseIPv6 Decode ParseFloat sub message attrs =
      Some (match pScope p with
            | ScopeAttributes => flat_says parseIPv6 17 (λ k, attrValues Decode ParseFloat <$> attrs !! k) m
            | ScopeBody => match Decode message with Some (JObj msg) => body_says parseIPv6 17 m msg | _ => false end
            end).
Proof.
  intros Hs. assert (Hk : kept_well sub).
  { induction Hs as [policy scope_ sub H|sub name v sub' _ IH H]; [by eapply subscriptionFilter_kept|by eapply set_kept]. }
  destruct Hk as (_ & _ & [He|Hp]); unfold passesFilter; [left; by rewrite He|].
  destruct (String.eqb_spec (FilterPolicy sub) "") as [He|_]; [by left|right].
  destruct (Parse parseIPv6 Decode (FilterPolicy sub) (FilterPolicyScope sub)) as [p|] eqn:Ep; [|done].
  destruct (Parse_decides _ _ _ Ep) as (m & Hm & Ha & Hb). exists p, m. split_and!; [done|done|].
  destruct (pScope p) eqn:Es; [by apply Ha|by apply Hb].
Qed.
End Filter.

(** ** Instances *)

Module Example.
Definition key (c : ascii) : string := String c "".
Definition orders : json := JObj [("store", JArr [JStr "north"; JObj [("prefix", JStr "so")]]);
                                  ("kind", JArr [JObj [("anything-but", JArr [JStr "test"])]; JObj [("exists", JBool false)]])].
Definition nested : json := JObj [("order", JObj [("id", JArr [JStr "7"])])].
Definition message : json := JObj [("order", JObj [("id", JStr "7")])].
(** A policy of n keys with two conditions each. *)
Definition wide (n : nat) : json := JObj (map (λ i, (key (ascii_of_nat (33 + i)), JArr [JStr "a"; JStr "b"])) (seq 0 n)).
Definition Decode (s : string) : option json :=
  if String.eqb s "orders" then Some orders else if String.eqb s "nested" then Some nested
  else if String.eqb s "message" then Some message else if String.eqb s "wide" then Some (wide 64)
  else if String.eqb s "less" then Some (wide 8) else None.
Definition v6 (s : string) : option (Z * string) :=
  if String.eqb s "::ffff:10.0.0.0" then Some (Z.lor (Z.shiftl 0xFFFF 32) 0x0A000000, "") else None.
Definition no_float (s : string) : option spec_float := None.
Definition policy : Policy := match Parse v6 Decode "orders" "" with Ok p => p | Err _ => mkPolicy ScopeAttributes (Obj [] []) end.
End Example.

Lemma filter_decides_witness :
  Parse Example.v6 Example.Decode "orders" "" = Ok Example.policy ∧
  MatchAttributes Example.v6 Example.Decode Example.no_float Example.policy {[ "store" := mkAttr "String" "south" ]} = Some true ∧
  ∃ m, Example.Decode "orders" = Some (JObj m) ∧
    MatchAttributes Example.v6 Example.Decode Example.no_float Example.policy {[ "store" := mkAttr "String" "south" ]} =
    Some (flat_says Example.v6 17 (λ k, attrValues Example.Decode Example.no_float <$> ({[ "store" := mkAttr "String" "south" ]} : gmap string Attr) !! k) m).
Proof.
  assert (Hp : Parse Example.v6 Example.Decode "orders" "" = Ok Example.policy) by (vm_compute; reflexivity).
  split; [exact Hp|]. split; [vm_compute; reflexivity|].
  destruct (filter_decides Example.v6 Example.Decode Example.no_float _ _ _ Hp) as (m & Hm & Ha & _). exists m. split; [exact Hm|].
  apply Ha. vm_compute. reflexivity.
Defined.

Lemma filter_never_unreadable_witness :
  passesFilter Example.v6 Example.Decode Example.no_float (mkSub "nested" "MessageBody") "message" ∅ = Some true ∧
  ((FilterPolicy (mkSub "nested" "MessageBody") = "" ∧ passesFilter Example.v6 Example.Decode Example.no_float (mkSub "nested" "MessageBody") "message" ∅ = Some true) ∨
   ∃ p, Parse Example.v6 Example.Decode "nested" "MessageBody" = Ok p).
Proof.
  split; [vm_compute; reflexivity|].
  destruct (filter_never_unreadable Example.v6 Example.Decode Example.no_float (mkSub "nested" "MessageBody") "message" ∅) as [H|(p & m & Hp & _)].
  - apply (set_filter _ _ (mkSub "" "MessageBody") SetPolicy "nested"); [|vm_compute; reflexivity].
    apply (subscribe _ _ "" "MessageBody"). vm_compute. reflexivity.
  - left. exact H.
  - right. exists p. exact Hp.
Defined.

(** The number of combinations wraps: 64 keys of two conditions each are 2^64 combinations, which count as none,
    while 8 such keys are refused. *)
Example combinations_wrap :
  is_ok (Parse Example.v6 Example.Decode "wide" "MessageBody") = true ∧
  Parse Example.v6 Example.Decode "less" "MessageBody" = Err (TooManyCombinations 256).
Proof. split; vm_compute; reflexivity. Qed.

(** An IPv4-mapped prefix is accepted and holds of no address. *)
Example mapped_prefix_empty : ∃ p, ParsePrefix Example.v6 "::ffff:10.0.0.0/104" = Some p ∧
  PrefixContains p (Unmap (A6 (Z.lor (Z.shiftl 0xFFFF 32) 0x0A000001) "")) = false ∧ PrefixContains p (Unmap (A4 0x0A000001)) = false.
Proof. eexists. split; [vm_compute; reflexivity|]. split; vm_compute; reflexivity. Qed.

(** Two calls at once, each checked against the subscription it read: what they leave cannot be read, and no
    message passes. *)
Example unreadable_after_a_race :
  let sub := mkSub "" "MessageBody" in
  ∃ w1 w2, set_check Example.v6 Example.Decode sub SetPolicy "nested" = Ok w1 ∧
    set_check Example.v6 Example.Decode sub SetScope "MessageAttributes" = Ok w2 ∧
    passesFilter Example.v6 Example.Decode Example.no_float (set_write (set_write sub w1) w2) "message" ∅ = Some false ∧
    is_ok (Parse Example.v6 Example.Decode (FilterPolicy (set_write (set_write sub w1) w2)) (FilterPolicyScope (set_write (set_write sub w1) w2))) = false.
Proof. exists (SetPolicy, "nested"), (SetScope, "MessageAttributes"). split; [vm_compute; reflexivity|]. split; [vm_compute; reflexivity|]. split; vm_compute; reflexivity. Qed.
