(* ===== verification/DynItem.v ===== *)
(** * DynamoDB items (dynamodb/dynamodb.go, marshal.go)

    The plain values an item holds, the typed envelopes of the wire ({"S": ...}, {"N": "..."}, ...), the
    two conversions between them, and the identity a key gets in the store.  A Go map is the list of its
    entries in the order it is iterated. *)

From stdpp Require Import gmap.
From S2P Require Import Prelude GoStrings.
From S2P Require Export GoEncoding GoJson.
#[local] Open Scope string_scope.
#[local] Open Scope Z_scope.
#[local] Open Scope list_scope.

(** ** Values *)

Inductive any :=
| ANil
| ABool (b : bool)
| AInt (n : Z)
| AInt64 (n : Z)
| AFloat (f : spec_float)
| AStr (s : string)
| ABytes (b : string)
| AList (l : list any)
| AMap (m : list (string * any)).

Section Values.
Context (P : any → Prop).
Hypothesis H_nil : P ANil.
Hypothesis H_bool : ∀ b, P (ABool b).
Hypothesis H_int : ∀ n, P (AInt n).
Hypothesis H_int64 : ∀ n, P (AInt64 n).
Hypothesis H_float : ∀ f, P (AFloat f).
Hypothesis H_str : ∀ s, P (AStr s).
Hypothesis H_bytes : ∀ b, P (ABytes b).
Hypothesis H_list : ∀ l, Forall P l → P (AList l).
Hypothesis H_map : ∀ m, Forall (λ kv, P kv.2) m → P (AMap m).

Fixpoint any_nested_ind (v : any) : P v :=
  match v with
  | ANil => H_nil
  | ABool b => H_bool b
  | AInt n => H_int n
  | AInt64 n => H_int64 n
  | AFloat f => H_float f
  | AStr s => H_str s
  | ABytes b => H_bytes b
  | AList l =>
      H_list l ((fix go l : Forall P l := match l with
                                          | [] => Forall_nil_2 _
                                          | v :: l => Forall_cons_2 _ _ _ (any_nested_ind v) (go l)
                                          end) l)
  | AMap m =>
      H_map m ((fix go m : Forall (λ kv, P kv.2) m := match m with
                                                      | [] => Forall_nil_2 _
                                                      | kv :: m => Forall_cons_2 _ _ _ (any_nested_ind kv.2) (go m)
                                                      end) m)
  end.
End Values.

(** An item, and an operation: a map of attributes. *)
Abbreviation item := (gmap string any).

(** m[k] of a map of any, with the comma-ok form. *)
Fixpoint key_of (m : list (string * any)) (k : string) : option any :=
  match m with
  | [] => None
  | (k', v) :: m => if String.eqb k' k then Some v else key_of m k
  end.

(** ** Un-marshalling *)

Definition from_number (val : any) : any :=
  match val with
  | AFloat f => AFloat f
  | AInt64 n | AInt n => AFloat (float_of n)
  | AStr s => match ParseFloat s with Some f => AFloat f | None => val end
  | _ => val
  end.
Definition from_binary (val : any) : any :=
  match val with
  | AStr s => match base64_decode s with Some b => ABytes b | None => val end
  | _ => val
  end.

Fixpoint fromDynamoDB (v : any) : any :=
  match v with
  | AMap m =>
      let fromMap m := AMap (map (λ kv, (kv.1, fromDynamoDB kv.2)) m) in
      match m with
      | [(typ, val)] =>
          if String.eqb typ "S" then val
          else if String.eqb typ "N" then from_number val
          else if String.eqb typ "BOOL" then val
          else if String.eqb typ "NULL" then ANil
          else if String.eqb typ "B" then from_binary val
          else if String.eqb typ "L" then match val with AList l => AList (map fromDynamoDB l) | _ => fromMap m end
          else if String.eqb typ "M" then match val with AMap mm => fromMap mm | _ => fromMap m end
          else if String.eqb typ "SS" || String.eqb typ "NS" then val
          else if String.eqb typ "BS" then match val with AList l => AList (map from_binary l) | _ => val end
          else fromMap m
      | _ => fromMap m
      end
  | _ => v
  end.
Definition fromMap (m : list (string * any)) : list (string * any) := map (λ kv, (kv.1, fromDynamoDB kv.2)) m.

(** plainMap: nothing for what is no map. *)
Definition plainMap (v : any) : list (string * any) := match v with AMap m => m | _ => [] end.

(** ** Marshalling *)

Section Marshal.
(** strconv.FormatFloat(f, 'f', -1, 64). *)
Context (FormatFloat : spec_float → string).

Fixpoint ToDynamoDB (v : any) : any :=
  match v with
  | ANil => AMap [("NULL", ABool true)]
  | AStr s => AMap [("S", AStr s)]
  | ABool b => AMap [("BOOL", ABool b)]
  | ABytes b => AMap [("B", AStr (base64 b))]
  | AFloat f => AMap [("N", AStr (FormatFloat f))]
  | AInt n | AInt64 n => AMap [("N", AStr (FormatInt n))]
  | AList l => AMap [("L", AList (map ToDynamoDB l))]
  | AMap m => AMap [("M", AMap (map (λ kv, (kv.1, ToDynamoDB kv.2)) m))]
  end.
Definition ToItem (m : item) : item := ToDynamoDB <$> m.
End Marshal.

(** ** fmt.Sprint *)

Section Sprint.
(** The %v form of a float64. *)
Context (format_float : spec_float → string).

Fixpoint Sprint (v : any) : string :=
  match v with
  | ANil => "<nil>"
  | ABool b => if b then "true" else "false"
  | AInt n | AInt64 n => FormatInt n
  | AFloat f => format_float f
  | AStr s => s
  | ABytes b => "[" +:+ Join (map (λ c, FormatInt (byte_of c)) (list_ascii_of_string b)) " " +:+ "]"
  | AList l => "[" +:+ Join (map Sprint l) " " +:+ "]"
  | AMap m =>
      "map[" +:+ Join (map (λ kv, kv.1 +:+ ":" +:+ kv.2) (foldr insert_entry [] (map (λ kv : string * any, (kv.1, Sprint kv.2)) m))) " " +:+ "]"
  end.
End Sprint.

(** ** The identity of a key *)

Section Key.
(** encoding/json on a float64, which fails on an infinity and on a NaN, and the %v form of one. *)
Context (json_float : spec_float → option string) (format_float : spec_float → string).

(** json.Marshal. *)
Fixpoint Marshal (v : any) : option string :=
  match v with
  | ANil => Some "null"
  | ABool b => Some (if b then "true" else "false")
  | AInt n | AInt64 n => Some (FormatInt n)
  | AFloat f => json_float f
  | AStr s => Some (json_quote s)
  | ABytes b => Some (json_quote (base64 b))
  | AList l => xs ← mapM Marshal l; Some ("[" +:+ Join xs "," +:+ "]")
  | AMap m =>
      kvs ← mapM (λ kv, x ← Marshal kv.2; Some (kv.1, x)) m;
      Some ("{" +:+ Join (map (λ kv, json_quote kv.1 +:+ ":" +:+ kv.2) (foldr insert_entry [] kvs)) "," +:+ "}")
  end.

Definition keyString (key : list (string * any)) : string :=
  match Marshal (AMap key) with Some b => TrimSpace b | None => Sprint format_float (AMap key) end.

(** KeyID and PlainKey. *)
Definition PlainKey (keyAV : any) : list (string * any) := plainMap (fromDynamoDB keyAV).
Definition KeyID (keyAV : any) : string := keyString (PlainKey keyAV).

(** The entries of a map, and a map written over by another's entries. *)
Definition of_entries (m : list (string * any)) : item := list_to_map m.
Definition set_all (m : list (string * any)) (it : item) : item := foldl (λ it kv, <[kv.1 := kv.2]> it) it m.

(** The attributes of a Put with those of its key over them. *)
Definition put_item (keyAV itemAV : any) : item :=
  set_all (PlainKey keyAV) (set_all (plainMap (fromDynamoDB itemAV)) ∅).
Definition PutDoc (keyAV itemAV : any) : string * item :=
  let id := KeyID keyAV in (id, <["_id" := AStr id]> (put_item keyAV itemAV)).
End Key.

(** ** An item goes to the wire and comes back *)

Section RoundTrip.
Context (FormatFloat : spec_float → string).

(** What the store holds for a value: every number is a float64. *)
Fixpoint stored (v : any) : any :=
  match v with
  | AInt n | AInt64 n => AFloat (float_of n)
  | AList l => AList (map stored l)
  | AMap m => AMap (map (λ kv, (kv.1, stored kv.2)) m)
  | _ => v
  end.

(** The text of each number reads back as it. *)
Fixpoint readable (v : any) : Prop :=
  match v with
  | AFloat f => ParseFloat (FormatFloat f) = Some f
  | AInt n | AInt64 n => ParseFloat (FormatInt n) = Some (float_of n)
  | AList l => Forall id (map readable l)
  | AMap m => Forall id (map (λ kv, readable kv.2) m)
  | _ => True
  end.

Lemma wire_value v : readable v → fromDynamoDB (ToDynamoDB FormatFloat v) = stored v.
Proof.
  induction v as [|b|n|n|f|s|b|l IH|m IH] using any_nested_ind; intros Hr; cbn in Hr; try done.
  1-3: cbn; by rewrite Hr.
  - cbn. unfold from_binary. by rewrite base64_round_trip.
  - cbn. f_equal. rewrite map_map. apply map_ext_Forall. rewrite Forall_map in Hr.
    apply Forall_forall. intros x Hx. exact (proj1 (Forall_forall _ _) IH x Hx (proj1 (Forall_forall _ _) Hr x Hx)).
  - cbn. f_equal. rewrite map_map. apply map_ext_Forall. rewrite Forall_map in Hr.
    apply Forall_forall. intros kv Hx. cbn. f_equal. exact (proj1 (Forall_forall _ _) IH kv Hx (proj1 (Forall_forall _ _) Hr kv Hx)).
Qed.
End RoundTrip.

(** what is marshalled for the wire is un-marshalled to what the store holds: every attribute of an item
    comes back, binary values and nested lists and maps included, as long as the text of its numbers reads
    back; only an integer comes back as the float64 it is stored as. *)
Theorem wire_round_trip FormatFloat (it : item) : map_Forall (λ _, readable FormatFloat) it →
  fromDynamoDB <$> ToItem FormatFloat it = stored <$> it.
Proof.
  intros H. unfold ToItem. rewrite <-map_fmap_compose. apply map_fmap_ext. intros k v Hv. by apply wire_value, (H k v).
Qed.
Definition item_ex : item := {["n" := AFloat (float_of 5); "b" := ABytes "hi!"; "l" := AList [ANil; AMap [("S", AStr "x")]]]}.
Example wire_round_trip_witness : fromDynamoDB <$> ToItem (λ _, "5") item_ex = stored <$> item_ex.
Proof.
  apply (wire_round_trip (λ _, "5") item_ex). unfold item_ex.
  repeat (apply map_Forall_insert_2; [vm_compute; repeat constructor|]). apply map_Forall_empty.
Defined.

(** Two numbers that are one float64 are one key. *)
Example one_key_for_two json_float format_float :
  KeyID json_float format_float (AMap [("id", AMap [("N", AStr "9007199254740993")])]) =
  KeyID json_float format_float (AMap [("id", AMap [("N", AStr "9007199254740992")])]).
Proof. done. Qed.
(** A binary key and a string key with its text are one key. *)
Example binary_key_as_text json_float format_float :
  KeyID json_float format_float (AMap [("id", AMap [("B", AStr "aGk=")])]) =
  KeyID json_float format_float (AMap [("id", AMap [("S", AStr "aGk=")])]).
Proof. done. Qed.
