(* ===== verification/DynExpr.v ===== *)
(** * DynamoDB condition expressions (dynamodb/expr.go)

    An expression block of an operation, its tokens, and the evaluator of conditions and filters: a
    recursive-descent parser that evaluates as it reads. *)

From stdpp Require Import gmap.
From S2P Require Import Prelude GoStrings.
From S2P Require Export DynItem.
#[local] Open Scope string_scope.
#[local] Open Scope Z_scope.
#[local] Open Scope list_scope.

(** ** Errors *)

(** [Panicked]: an index past the end of a slice.  [OutOfFuel] is the model's own. *)
Inductive expr_error :=
| NoExpression (block : string)
| UndefinedName (tok : string)
| UndefinedValue (tok : string)
| NotAValue (tok : string)
| TrailingTokens (expr : string)
| ExpectedClose
| ExpectedOpenAfter (fn : string)
| ExpectedCloseOf (fn : string)
| BadOperator (op : string)
| UnsupportedAction (kw : string)
| MalformedAssignment (assign : string)
| BadCall (fn : string)
| NotANumber (tok : string)
| UnsupportedValue (rhs : string)
| AddToNonNumeric (name : string)
| UnsupportedTerm (part : string)
| UpdateRequired
| QueryRequired
| ConditionalCheckFailed
| NotImplemented (operation : string)
| Panicked
| OutOfFuel.

(** ** Expression blocks *)

Record exprBlock := mkBlock {
  bExpr : string;
  bNames : gmap string string;
  bValues : gmap string any;
}.

Section Expr.
(** The %v form of a float64. *)
Context (format_float : spec_float → string).
#[local] Abbreviation Sprint := (Sprint format_float).

(** What is held under [key] when it is a map. *)
Definition map_at (m : list (string * any)) (key : string) : list (string * any) :=
  match key_of m key with Some (AMap m) => m | _ => [] end.
Definition str_at (m : list (string * any)) (key : string) : string :=
  match key_of m key with Some (AStr s) => s | _ => "" end.

(** [None]: the operation has no such block. *)
Definition readBlock (op : item) (key : string) : res expr_error (option exprBlock) :=
  match op !! key with
  | Some (AMap raw) =>
      let expr := str_at raw "expression" in
      if String.eqb (TrimSpace expr) "" then Err (NoExpression key)
      else Ok (Some (mkBlock expr
                       (list_to_map (map (λ kv, (kv.1, Sprint kv.2)) (map_at raw "expressionNames")))
                       (list_to_map (map (λ kv, (kv.1, fromDynamoDB kv.2)) (map_at raw "expressionValues")))))
  | _ => Ok None
  end.

Definition attrName (b : exprBlock) (tok : string) : res expr_error string :=
  if HasPrefix tok "#" then
    match bNames b !! tok with Some n => Ok n | None => Err (UndefinedName tok) end
  else Ok tok.

Definition value (b : exprBlock) (tok : string) : res expr_error any :=
  if HasPrefix tok ":" then
    match bValues b !! tok with Some v => Ok v | None => Err (UndefinedValue tok) end
  else match ParseFloat tok with Some f => Ok (AFloat f) | None => Err (NotAValue tok) end.

(** ** Tokens *)

Definition is_blank (c : ascii) : bool :=
  Ascii.eqb c " " || (byte_of c =? 9) || (byte_of c =? 10) || (byte_of c =? 13) || Ascii.eqb c ",".
Definition is_single (c : ascii) : bool := Ascii.eqb c "(" || Ascii.eqb c ")" || Ascii.eqb c "+" || Ascii.eqb c "-".
Definition is_order (c : ascii) : bool := Ascii.eqb c "<" || Ascii.eqb c ">" || Ascii.eqb c "=".
Definition flush (cur : string) : list string := match cur with "" => [] | _ => [cur] end.

Fixpoint tokens (s cur : string) : list string :=
  match s with
  | "" => flush cur
  | String c t =>
      if is_blank c then flush cur ++ tokens t ""
      else if is_single c then flush cur ++ String c "" :: tokens t ""
      else if is_order c then
        match t with
        | String d t' =>
            if negb (Ascii.eqb c "=") && (Ascii.eqb d "=" || Ascii.eqb d ">")
            then flush cur ++ String c (String d "") :: tokens t' ""
            else flush cur ++ String c "" :: tokens t ""
        | "" => flush cur ++ String c "" :: tokens t ""
        end
      else tokens t (cur +:+ String c "")
  end.
(** The text is read rune by rune: what is no UTF-8 becomes U+FFFD. *)
Definition tokenize (s : string) : list string := tokens (json_string s) "".

(** ** Comparisons *)

Definition toFloat (v : any) : option spec_float :=
  match v with
  | AFloat f => Some f
  | AInt n | AInt64 n => Some (float_of n)
  | _ => None
  end.
Definition toList (v : any) : list any :=
  match v with AList l => l | ANil => [] | _ => [v] end.

Definition equalVals (a b : any) : bool :=
  match toFloat a, toFloat b with
  | Some x, Some y => SFeqb x y
  | _, _ => String.eqb (Sprint a) (Sprint b)
  end.
(** strings.Compare. *)
Definition Compare (a b : string) : Z :=
  match String.compare a b with Lt => -1 | Eq => 0 | Gt => 1 end.
Definition cmpVals (a b : any) : Z :=
  match toFloat a, toFloat b with
  | Some x, Some y => if SFltb x y then -1 else if SFltb y x then 1 else 0
  | _, _ => Compare (Sprint a) (Sprint b)
  end.
Definition compare (a : any) (op : string) (b : any) : res expr_error bool :=
  if String.eqb op "=" then Ok (equalVals a b)
  else if String.eqb op "<>" then Ok (negb (equalVals a b))
  else if String.eqb op "<" then Ok (cmpVals a b <? 0)
  else if String.eqb op "<=" then Ok (cmpVals a b <=? 0)
  else if String.eqb op ">" then Ok (0 <? cmpVals a b)
  else if String.eqb op ">=" then Ok (0 <=? cmpVals a b)
  else Err (BadOperator op).
Definition containsVal (container v : any) : bool :=
  match container with
  | AStr s => Contains s (Sprint v)
  | _ => existsb (λ e, equalVals e v) (toList container)
  end.

(** ** Conditions *)

Section Condition.
Context (it : item) (b : exprBlock).

(** item[name]: nil for an attribute the item has not. *)
Definition attr (name : string) : any := default ANil (it !! name).

(** args[i]. *)
Definition arg (args : list string) (i : nat) : res expr_error string :=
  match args !! i with Some a => Ok a | None => Err Panicked end.

Definition evalFunc (fn : string) (args : list string) : res expr_error bool :=
  if String.eqb fn "attribute_exists" then
    a ← arg args 0; name ← attrName b a; Ok (bool_decide (is_Some (it !! name)))
  else if String.eqb fn "attribute_not_exists" then
    a ← arg args 0; name ← attrName b a; Ok (negb (bool_decide (is_Some (it !! name))))
  else if String.eqb fn "begins_with" then
    a ← arg args 0; name ← attrName b a; a1 ← arg args 1; v ← value b a1;
    Ok (HasPrefix (Sprint (attr name)) (Sprint v))
  else if String.eqb fn "contains" then
    a ← arg args 0; name ← attrName b a; a1 ← arg args 1; v ← value b a1; Ok (containsVal (attr name) v)
  else Err (BadCall fn).

Definition functions : list string := ["attribute_exists"; "attribute_not_exists"; "begins_with"; "contains"].
Definition is_function (tok : string) : bool := existsb (String.eqb (ToLower tok)) functions.

(** path OP value. *)
Definition comparison (path op val : string) : res expr_error bool :=
  name ← attrName b path; v ← value b val; compare (attr name) op v.

Section Parser.
Context (toks : list string).

Definition peek (pos : nat) : string := default "" (toks !! pos).

(** The arguments up to the next ")" or the end, and where they stop. *)
Fixpoint args_from (l : list string) (pos : nat) : list string * nat :=
  match l with
  | [] => ([], pos)
  | t :: l => if String.eqb t ")" || String.eqb t "" then ([], pos)
              else let '(args, pos) := args_from l (S pos) in (t :: args, pos)
  end.

Definition parsePredicate (pos : nat) : res expr_error (bool * nat) :=
  if is_function (peek pos) then
    let fn := ToLower (peek pos) in
    if negb (String.eqb (peek (1 + pos)) "(") then Err (ExpectedOpenAfter fn)
    else
      let '(args, pos) := args_from (drop (2 + pos) toks) (2 + pos) in
      if negb (String.eqb (peek pos) ")") then Err (ExpectedCloseOf fn)
      else v ← evalFunc fn args; Ok (v, S pos)
  else v ← comparison (peek pos) (peek (1 + pos)) (peek (2 + pos)); Ok (v, (3 + pos)%nat).

Fixpoint parseOr (fuel : nat) (pos : nat) {struct fuel} : res expr_error (bool * nat) :=
  match fuel with
  | O => Err OutOfFuel
  | S fuel => '(v, pos) ← parseAnd fuel pos; orRest fuel v pos
  end
with orRest (fuel : nat) (v : bool) (pos : nat) {struct fuel} : res expr_error (bool * nat) :=
  match fuel with
  | O => Err OutOfFuel
  | S fuel =>
      if EqualFold (peek pos) "OR" then '(r, pos) ← parseAnd fuel (S pos); orRest fuel (v || r) pos
      else Ok (v, pos)
  end
with parseAnd (fuel : nat) (pos : nat) {struct fuel} : res expr_error (bool * nat) :=
  match fuel with
  | O => Err OutOfFuel
  | S fuel => '(v, pos) ← parseUnary fuel pos; andRest fuel v pos
  end
with andRest (fuel : nat) (v : bool) (pos : nat) {struct fuel} : res expr_error (bool * nat) :=
  match fuel with
  | O => Err OutOfFuel
  | S fuel =>
      if EqualFold (peek pos) "AND" then '(r, pos) ← parseUnary fuel (S pos); andRest fuel (v && r) pos
      else Ok (v, pos)
  end
with parseUnary (fuel : nat) (pos : nat) {struct fuel} : res expr_error (bool * nat) :=
  match fuel with
  | O => Err OutOfFuel
  | S fuel =>
      if EqualFold (peek pos) "NOT" then '(v, pos) ← parseUnary fuel (S pos); Ok (negb v, pos)
      else if String.eqb (peek pos) "(" then
        '(v, pos) ← parseOr fuel (S pos);
        if negb (String.eqb (peek pos) ")") then Err ExpectedClose else Ok (v, S pos)
      else parsePredicate pos
  end.
End Parser.

Definition evalBool : res expr_error bool :=
  let toks := tokenize (bExpr b) in
  '(v, pos) ← parseOr toks (5 * length toks + 3) 0;
  if bool_decide (pos = length toks) then Ok v else Err (TrailingTokens (bExpr b)).
End Condition.
End Expr.

Example tokenize_ex : tokenize "SET #n = :name, a=a+:one REMOVE x(y<=z)" =
  ["SET"; "#n"; "="; ":name"; "a"; "="; "a"; "+"; ":one"; "REMOVE"; "x"; "("; "y"; "<="; "z"; ")"].
Proof. vm_compute. done. Qed.

Example evalBool_ex :
  let it : item := {["version" := AFloat (float_of 1); "id" := AStr "u1"]} in
  let cond e := evalBool (λ _, "") it (mkBlock e ∅ {[":e" := AFloat (float_of 5); ":u" := AStr "u"]}) in
  cond "version = :e" = Ok false ∧ cond "NOT version = :e and begins_with(id, :u)" = Ok true ∧
  cond "attribute_not_exists(id) OR (version < :e AND NOT id <> :u)" = Ok false ∧
  cond "attribute_exists()" = Err Panicked ∧ cond "version = :e :e" = Err (TrailingTokens "version = :e :e").
Proof. vm_compute. done. Qed.
