(* ===== verification/DynCond.v ===== *)
(** * The grammar of DynamoDB conditions

    What a condition expression means, apart from how it is read: the grammar its tokens derive from, the
    value of a condition, and the theorems that dynamodb/expr.go's evaluator ends, accepts exactly the
    grammar and computes exactly that value. *)

From stdpp Require Import gmap.
From S2P Require Import Prelude GoStrings DynExpr.
#[local] Open Scope string_scope.
#[local] Open Scope nat_scope.
#[local] Open Scope list_scope.

Inductive cond :=
| CCmp (path op val : string)
| CFn (fn : string) (args : list string)
| CNot (c : cond)
| CAnd (a c : cond)
| COr (a c : cond).

Inductive level := LOr | LAnd | LUnary.

(** A token that opens something other than a predicate. *)
Definition opens (t : string) : bool := EqualFold t "NOT" || String.eqb t "(".

(** OR binds weaker than AND, AND weaker than NOT; both are read from the left. *)
Inductive derives : level → list string → cond → Prop :=
| D_or ts t us a c : derives LOr ts a → EqualFold t "OR" = true → derives LAnd us c → derives LOr (ts ++ t :: us) (COr a c)
| D_or_and ts c : derives LAnd ts c → derives LOr ts c
| D_and ts t us a c : derives LAnd ts a → EqualFold t "AND" = true → derives LUnary us c → derives LAnd (ts ++ t :: us) (CAnd a c)
| D_and_unary ts c : derives LUnary ts c → derives LAnd ts c
| D_not t ts c : EqualFold t "NOT" = true → derives LUnary ts c → derives LUnary (t :: ts) (CNot c)
| D_paren ts c : derives LOr ts c → derives LUnary ("(" :: ts ++ [")"]) c
| D_fn fn args : opens fn = false → is_function fn = true → Forall (λ a, a ≠ ")" ∧ a ≠ "") args →
    derives LUnary (fn :: "(" :: args ++ [")"]) (CFn fn args)
| D_cmp path op val : opens path = false → is_function path = false → derives LUnary [path; op; val] (CCmp path op val).

Section Meaning.
Context (format_float : spec_float → string) (it : item) (b : exprBlock).

(** The value of a condition: every part is evaluated, the first error from the left is the result. *)
Fixpoint eval (c : cond) : res expr_error bool :=
  match c with
  | CCmp path op val => comparison format_float it b path op val
  | CFn fn args => evalFunc format_float it b (ToLower fn) args
  | CNot c => v ← eval c; Ok (negb v)
  | CAnd a c => x ← eval a; y ← eval c; Ok (x && y)
  | COr a c => x ← eval a; y ← eval c; Ok (x || y)
  end.

(** ** The parser ends *)

Section Parser.
Context (toks : list string).
#[local] Abbreviation peek := (peek toks).
#[local] Abbreviation parseOr := (parseOr format_float it b toks).
#[local] Abbreviation orRest := (orRest format_float it b toks).
#[local] Abbreviation parseAnd := (parseAnd format_float it b toks).
#[local] Abbreviation andRest := (andRest format_float it b toks).
#[local] Abbreviation parseUnary := (parseUnary format_float it b toks).
#[local] Abbreviation parsePredicate := (parsePredicate format_float it b toks).

Definition need (k : nat) (pos : nat) : nat := 5 * (length toks - pos) + k.

Lemma peek_in pos t : peek pos = t → t ≠ "" → toks !! pos = Some t.
Proof. unfold DynExpr.peek. destruct (toks !! pos); cbn; congruence. Qed.
Lemma peek_lt pos : peek pos ≠ "" → pos < length toks.
Proof. intros H. eapply lookup_lt_Some, peek_in; [reflexivity|done]. Qed.
Lemma fold_lt pos w : EqualFold (peek pos) w = true → w ≠ "" → fold_case w ≠ "" → pos < length toks.
Proof. intros H _ Hw. apply peek_lt. intros E. rewrite E in H. apply String.eqb_eq in H. by rewrite <-H in Hw. Qed.
Lemma eqb_lt pos w : String.eqb (peek pos) w = true → w ≠ "" → pos < length toks.
Proof. intros H%String.eqb_eq Hw. apply peek_lt. by rewrite H. Qed.

Lemma args_from_le l pos args p : args_from l pos = (args, p) → pos ≤ p.
Proof.
  revert pos args. induction l as [|t l IH]; intros pos args; cbn; [intros [= _ ->]; lia|]. case_match; [intros [= _ ->]; lia|].
  destruct (args_from l (S pos)) as [args' p'] eqn:E. intros [= _ ->]. apply IH in E. lia.
Qed.

Lemma predicate_le pos v p : parsePredicate pos = Ok (v, p) → pos ≤ p.
Proof.
  unfold DynExpr.parsePredicate. repeat case_match; try done; intros Hok; apply res_bind_Ok in Hok as (x & _ & [= <- <-]); [|lia].
  match goal with H : args_from _ _ = _ |- _ => apply args_from_le in H end. lia.
Qed.

(** No part of the parser moves backwards. *)
Lemma advances f : ∀ pos,
  (∀ v p, parseOr f pos = Ok (v, p) → pos ≤ p) ∧ (∀ v0 v p, orRest f v0 pos = Ok (v, p) → pos ≤ p) ∧
  (∀ v p, parseAnd f pos = Ok (v, p) → pos ≤ p) ∧ (∀ v0 v p, andRest f v0 pos = Ok (v, p) → pos ≤ p) ∧
  (∀ v p, parseUnary f pos = Ok (v, p) → pos ≤ p).
Proof.
  induction f as [|f IH]; intros pos; [done|].
  assert (Ho : ∀ q, (∀ v p, parseOr f q = Ok (v, p) → q ≤ p)) by apply IH.
  assert (Hor : ∀ q v0 v p, orRest f v0 q = Ok (v, p) → q ≤ p) by apply IH.
  assert (Ha : ∀ q v p, parseAnd f q = Ok (v, p) → q ≤ p) by apply IH.
  assert (Har : ∀ q v0 v p, andRest f v0 q = Ok (v, p) → q ≤ p) by apply IH.
  assert (Hu : ∀ q v p, parseUnary f q = Ok (v, p) → q ≤ p) by apply IH.
  split_and!; intros *; cbn [DynExpr.parseOr DynExpr.orRest DynExpr.parseAnd DynExpr.andRest DynExpr.parseUnary].
  - intros ([x q] & ?%Ha & ?%Hor)%res_bind_Ok. lia.
  - case_match; [intros ([x q] & ?%Ha & ?%Hor)%res_bind_Ok; lia|]. intros [= _ <-]. lia.
  - intros ([x q] & ?%Hu & ?%Har)%res_bind_Ok. lia.
  - case_match; [intros ([x q] & ?%Hu & ?%Har)%res_bind_Ok; lia|]. intros [= _ <-]. lia.
  - case_match; [intros ([x q] & ?%Hu & [= _ <-])%res_bind_Ok; lia|]. case_match.
    + intros ([x q] & ?%Ho & Hp)%res_bind_Ok. destruct (negb _); [done|]. injection Hp as _ <-. lia.
    + apply predicate_le.
Qed.

Lemma evalFunc_fueled fn args : evalFunc format_float it b fn args ≠ Err OutOfFuel.
Proof.
  unfold evalFunc, arg, attrName, value. repeat case_match; try done; cbn; repeat case_match; try done;
    cbn; repeat case_match; done.
Qed.
Lemma comparison_fueled p o v : comparison format_float it b p o v ≠ Err OutOfFuel.
Proof. unfold comparison, attrName, value, compare. repeat (case_match; cbn; try done). Qed.
Lemma predicate_fueled pos : parsePredicate pos ≠ Err OutOfFuel.
Proof.
  unfold DynExpr.parsePredicate. repeat case_match; try done; intros Hf.
  - destruct (evalFunc _ _ _ _ _) eqn:E; [done|]. injection Hf as ->. by apply evalFunc_fueled in E.
  - destruct (comparison _ _ _ _ _ _) eqn:E; [done|]. injection Hf as ->. by apply comparison_fueled in E.
Qed.

(** Enough fuel: it does not run out, and more of it changes nothing. *)
Definition settled {A} (F : nat → res expr_error A) (f : nat) : Prop :=
  F f ≠ Err OutOfFuel ∧ ∀ g, f ≤ g → F g = F f.

Lemma settled_const {A} (r : res expr_error A) f : r ≠ Err OutOfFuel → settled (λ _, r) f.
Proof. done. Qed.
Lemma settled_bind {A B} (F : nat → res expr_error A) (K : nat → A → res expr_error B) f :
  settled F f → (∀ a, F f = Ok a → settled (λ g, K g a) f) → settled (λ g, F g ≫= K g) f.
Proof.
  intros [Hf Hg] HK. unfold settled. destruct (F f) as [a|e] eqn:E; cbn.
  - destruct (HK a eq_refl) as [Ha Hb]. split; [done|]. intros g Hle. rewrite (Hg g Hle). cbn. by apply Hb.
  - split; [congruence|]. intros g Hle. by rewrite (Hg g Hle).
Qed.
Lemma settled_S {A} (F G : nat → res expr_error A) f : (∀ g, F (S g) = G g) → settled G f → settled F (S f).
Proof.
  intros HF [H1 H2]. unfold settled. rewrite HF. split; [done|]. intros [|g] Hg; [lia|]. rewrite HF. apply H2. lia.
Qed.

Lemma fueled f : ∀ pos,
  (need 3 pos ≤ f → settled (λ g, parseOr g pos) f) ∧ (∀ v, need 1 pos ≤ f → settled (λ g, orRest g v pos) f) ∧
  (need 2 pos ≤ f → settled (λ g, parseAnd g pos) f) ∧ (∀ v, need 1 pos ≤ f → settled (λ g, andRest g v pos) f) ∧
  (need 1 pos ≤ f → settled (λ g, parseUnary g pos) f).
Proof.
  unfold need. induction f as [|f IH]; intros pos; [split_and!; intros; lia|].
  assert (Ho : ∀ q, need 3 q ≤ f → settled (λ g, parseOr g q) f) by apply IH.
  assert (Hor : ∀ q v, need 1 q ≤ f → settled (λ g, orRest g v q) f) by apply IH.
  assert (Ha : ∀ q, need 2 q ≤ f → settled (λ g, parseAnd g q) f) by apply IH.
  assert (Har : ∀ q v, need 1 q ≤ f → settled (λ g, andRest g v q) f) by apply IH.
  assert (Hu : ∀ q, need 1 q ≤ f → settled (λ g, parseUnary g q) f) by apply IH.
  clear IH. unfold need in *.
  assert (Hpa : ∀ q v p, parseAnd f q = Ok (v, p) → q ≤ p) by apply advances.
  assert (Hpu : ∀ q v p, parseUnary f q = Ok (v, p) → q ≤ p) by apply advances.
  split_and!; intros *; intros Hn; (eapply settled_S; [intros g; reflexivity|]);
    cbn [DynExpr.parseOr DynExpr.orRest DynExpr.parseAnd DynExpr.andRest DynExpr.parseUnary].
  - apply settled_bind; [apply Ha; lia|]. intros [v p] Hp%Hpa. apply Hor. lia.
  - destruct (EqualFold (peek pos) "OR") eqn:E; [|by apply settled_const]. apply fold_lt in E; [|done..].
    apply settled_bind; [apply Ha; lia|]. intros [r p] Hp%Hpa. apply Hor. lia.
  - apply settled_bind; [apply Hu; lia|]. intros [v p] Hp%Hpu. apply Har. lia.
  - destruct (EqualFold (peek pos) "AND") eqn:E; [|by apply settled_const]. apply fold_lt in E; [|done..].
    apply settled_bind; [apply Hu; lia|]. intros [r p] Hp%Hpu. apply Har. lia.
  - destruct (EqualFold (peek pos) "NOT") eqn:E; [|destruct (String.eqb (peek pos) "(") eqn:E2].
    + apply fold_lt in E; [|done..]. apply settled_bind; [apply Hu; lia|]. intros [r p] _. by apply settled_const.
    + apply eqb_lt in E2; [|done]. apply settled_bind; [apply Ho; lia|]. intros [r p] _. apply settled_const. by destruct (negb _).
    + apply settled_const, predicate_fueled.
Qed.

(** ** The parser with enough fuel *)

Definition or_at pos := parseOr (need 3 pos) pos.
Definition or_rest_at v pos := orRest (need 1 pos) v pos.
Definition and_at pos := parseAnd (need 2 pos) pos.
Definition and_rest_at v pos := andRest (need 1 pos) v pos.
Definition unary_at pos := parseUnary (need 1 pos) pos.

Lemma or_fuel f pos : need 3 pos ≤ f → parseOr f pos = or_at pos.
Proof. by apply fueled. Qed.
Lemma or_rest_fuel f v pos : need 1 pos ≤ f → orRest f v pos = or_rest_at v pos.
Proof. by apply fueled. Qed.
Lemma and_fuel f pos : need 2 pos ≤ f → parseAnd f pos = and_at pos.
Proof. by apply fueled. Qed.
Lemma and_rest_fuel f v pos : need 1 pos ≤ f → andRest f v pos = and_rest_at v pos.
Proof. by apply fueled. Qed.
Lemma unary_fuel f pos : need 1 pos ≤ f → parseUnary f pos = unary_at pos.
Proof. by apply fueled. Qed.

Lemma and_le f pos v p : parseAnd f pos = Ok (v, p) → pos ≤ p.
Proof. apply advances. Qed.
Lemma unary_le f pos v p : parseUnary f pos = Ok (v, p) → pos ≤ p.
Proof. apply advances. Qed.

Lemma bind_same {A B} (m : res expr_error A) (f g : A → res expr_error B) : (∀ a, m = Ok a → f a = g a) → m ≫= f = m ≫= g.
Proof. destruct m; cbn; auto. Qed.

Lemma need_S k pos : pos < length toks → need k pos = need (S (S (S (S (S k))))) (S pos).
Proof. unfold need. lia. Qed.
Lemma need_le k j pos p : pos ≤ p → k ≤ j → need k p ≤ need j pos.
Proof. unfold need. lia. Qed.

Lemma or_at_eq pos : or_at pos = '(v, p) ← and_at pos; or_rest_at v p.
Proof.
  unfold or_at. replace (need 3 pos) with (S (need 2 pos)) by (unfold need; lia). cbn [DynExpr.parseOr].
  apply bind_same. intros [v p] Hp. apply or_rest_fuel, need_le; [|lia]. by eapply and_le.
Qed.
Lemma or_rest_eq v pos : or_rest_at v pos =
  if EqualFold (peek pos) "OR" then '(r, p) ← and_at (S pos); or_rest_at (v || r) p else Ok (v, pos).
Proof.
  unfold or_rest_at at 1. replace (need 1 pos) with (S (need 0 pos)) by (unfold need; lia). cbn [DynExpr.orRest].
  destruct (EqualFold (peek pos) "OR") eqn:E; [|done]. apply fold_lt in E; [|done..]. rewrite need_S by done.
  rewrite and_fuel by (apply need_le; lia). apply bind_same. intros [r p] Hp. apply or_rest_fuel, need_le; [|lia]. by eapply and_le.
Qed.
Lemma and_at_eq pos : and_at pos = '(v, p) ← unary_at pos; and_rest_at v p.
Proof.
  unfold and_at. replace (need 2 pos) with (S (need 1 pos)) by (unfold need; lia). cbn [DynExpr.parseAnd].
  apply bind_same. intros [v p] Hp. apply and_rest_fuel, need_le; [|lia]. by eapply unary_le.
Qed.
Lemma and_rest_eq v pos : and_rest_at v pos =
  if EqualFold (peek pos) "AND" then '(r, p) ← unary_at (S pos); and_rest_at (v && r) p else Ok (v, pos).
Proof.
  unfold and_rest_at at 1. replace (need 1 pos) with (S (need 0 pos)) by (unfold need; lia). cbn [DynExpr.andRest].
  destruct (EqualFold (peek pos) "AND") eqn:E; [|done]. apply fold_lt in E; [|done..]. rewrite need_S by done.
  rewrite unary_fuel by (apply need_le; lia). apply bind_same. intros [r p] Hp. apply and_rest_fuel, need_le; [|lia]. by eapply unary_le.
Qed.
Lemma unary_at_eq pos : unary_at pos =
  if EqualFold (peek pos) "NOT" then '(v, p) ← unary_at (S pos); Ok (negb v, p)
  else if String.eqb (peek pos) "(" then
    '(v, p) ← or_at (S pos); if negb (String.eqb (peek p) ")") then Err ExpectedClose else Ok (v, S p)
  else parsePredicate pos.
Proof.
  unfold unary_at at 1. replace (need 1 pos) with (S (need 0 pos)) by (unfold need; lia). cbn [DynExpr.parseUnary].
  destruct (EqualFold (peek pos) "NOT") eqn:E; [|destruct (String.eqb (peek pos) "(") eqn:E2; [|done]].
  - apply fold_lt in E; [|done..]. rewrite need_S, unary_fuel by (done || apply need_le; lia). done.
  - apply eqb_lt in E2; [|done]. rewrite need_S, or_fuel by (done || apply need_le; lia). done.
Qed.

(** ** What derives is evaluated *)

Lemma peek_drop pos t post : drop pos toks = t :: post → peek pos = t ∧ drop (S pos) toks = post.
Proof.
  intros H. assert (Hl : toks !! pos = Some t) by (by rewrite <-(Nat.add_0_r pos), <-lookup_drop, H).
  split; [by unfold DynExpr.peek; rewrite Hl|]. rewrite (drop_S _ _ _ Hl) in H. congruence.
Qed.
Lemma drop_past pos ts post : drop pos toks = ts ++ post → drop (pos + length ts) toks = post.
Proof. intros H. by rewrite <-drop_drop, H, drop_app_length. Qed.
Lemma peek_post pos post : drop pos toks = post → peek pos = hd "" post.
Proof.
  destruct post as [|t post]; intros H; [|by apply peek_drop in H as [-> _]].
  unfold DynExpr.peek. rewrite <-(Nat.add_0_r pos), <-lookup_drop, H. done.
Qed.

Lemma args_from_spec args post pos :
  Forall (λ a, a ≠ ")" ∧ a ≠ "") args → args_from (args ++ ")" :: post) pos = (args, pos + length args).
Proof.
  intros H. revert pos. induction H as [|a args [H1 H2] _ IH]; intros pos; cbn; [by rewrite Nat.add_0_r|].
  apply String.eqb_neq in H1 as ->. apply String.eqb_neq in H2 as ->. cbn. rewrite IH. f_equal. lia.
Qed.

Lemma fold_or_and t : EqualFold t "OR" = true → EqualFold t "AND" = false.
Proof. unfold EqualFold. intros ->%String.eqb_eq. done. Qed.

Lemma complete l ts c : derives l ts c → ∀ pos post, drop pos toks = ts ++ post →
  match l with
  | LOr => EqualFold (hd "" post) "AND" = false → or_at pos = v ← eval c; or_rest_at v (pos + length ts)
  | LAnd => and_at pos = v ← eval c; and_rest_at v (pos + length ts)
  | LUnary => unary_at pos = v ← eval c; Ok (v, pos + length ts)
  end.
Proof.
  induction 1 as [ts t us a c _ IHa Ht _ IHc|ts c _ IH|ts t us a c _ IHa Ht _ IHc|ts c _ IH|t ts c Ht _ IH|ts c _ IH
                 |fn args Ho Hf Hargs|path op val Ho Hf]; intros pos post Hd.
  - intros Hand. rewrite <-app_assoc in Hd. rewrite (IHa _ _ Hd) by (by apply fold_or_and). cbn [eval].
    destruct (eval a) as [x|]; [|done]. cbn [mbind res_bind].
    rewrite or_rest_eq. apply drop_past in Hd. destruct (peek_drop _ _ _ Hd) as [-> Hd']. rewrite Ht.
    rewrite (IHc _ _ Hd'). destruct (eval c) as [y|]; [|done]. cbn [mbind res_bind].
    rewrite and_rest_eq, (peek_post _ _ (drop_past _ _ _ Hd')), Hand. cbn [mbind res_bind]. f_equal. rewrite length_app. cbn. lia.
  - intros Hand. rewrite or_at_eq, (IH _ _ Hd). destruct (eval c) as [y|]; [|done]. cbn [mbind res_bind].
    by rewrite and_rest_eq, (peek_post _ _ (drop_past _ _ _ Hd)), Hand.
  - rewrite <-app_assoc in Hd. rewrite (IHa _ _ Hd). cbn [eval]. destruct (eval a) as [x|]; [|done]. cbn [mbind res_bind].
    rewrite and_rest_eq. apply drop_past in Hd. destruct (peek_drop _ _ _ Hd) as [-> Hd']. rewrite Ht.
    rewrite (IHc _ _ Hd'). destruct (eval c) as [y|]; [|done]. cbn [mbind res_bind]. f_equal. rewrite length_app. cbn. lia.
  - rewrite and_at_eq, (IH _ _ Hd). by destruct (eval c).
  - rewrite unary_at_eq. destruct (peek_drop _ _ _ Hd) as [-> Hd']. rewrite Ht, (IH _ _ Hd'). cbn [eval].
    destruct (eval c); [|done]. cbn. do 2 f_equal. lia.
  - rewrite unary_at_eq. cbn in Hd. rewrite <-app_assoc in Hd. destruct (peek_drop _ _ _ Hd) as [-> Hd'].
    change (EqualFold "(" "NOT") with false. cbn [String.eqb].
    rewrite (IH _ _ Hd') by done. destruct (eval c) as [y|]; [|done]. cbn [mbind res_bind].
    rewrite or_rest_eq, (peek_post _ _ (drop_past _ _ _ Hd')). change (EqualFold (hd "" ([")"] ++ post)) "OR") with false.
    cbn [mbind res_bind]. rewrite (peek_post _ _ (drop_past _ _ _ Hd')). cbn. rewrite length_app. cbn. do 2 f_equal. lia.
  - rewrite unary_at_eq. destruct (peek_drop _ _ _ Hd) as [-> Hd']. apply orb_false_iff in Ho as [-> ->].
    unfold DynExpr.parsePredicate. destruct (peek_drop _ _ _ Hd) as [-> _]. rewrite Hf.
    change (drop (S pos) toks = "(" :: ((args ++ [")"]) ++ post)) in Hd'. rewrite <-app_assoc in Hd'.
    destruct (peek_drop _ _ _ Hd') as [E Hd2]. change (1 + pos) with (S pos). rewrite E.
    change (2 + pos) with (S (S pos)). rewrite Hd2. change ([")"] ++ post) with (")" :: post). rewrite (args_from_spec _ _ _ Hargs).
    change (negb (String.eqb "(" "(")) with false. cbv iota. rewrite (peek_post _ _ (drop_past _ _ _ Hd2)). cbn [app hd String.eqb negb eval].
    destruct (evalFunc _ _ _ _ _); [|done]. cbn. rewrite length_app. cbn. do 2 f_equal. lia.
  - rewrite unary_at_eq. destruct (peek_drop _ _ _ Hd) as [-> Hd']. apply orb_false_iff in Ho as [-> ->].
    unfold DynExpr.parsePredicate. destruct (peek_drop _ _ _ Hd) as [-> _]. rewrite Hf.
    destruct (peek_drop _ _ _ Hd') as [E Hd2]. destruct (peek_drop _ _ _ Hd2) as [E2 _].
    change (1 + pos) with (S pos). change (2 + pos) with (S (S pos)). rewrite E, E2. cbn [eval].
    destruct (comparison _ _ _ _ _ _); [|done]. cbn. do 2 f_equal. lia.
Qed.

(** ** What is evaluated derives *)

(** From [pos] to [p] the tokens are [ts]. *)
Definition reads (pos p : nat) (ts : list string) : Prop := drop pos toks = ts ++ drop p toks.

Lemma reads_app pos p q ts us : reads pos p ts → reads p q us → reads pos q (ts ++ us).
Proof. unfold reads. intros -> ->. by rewrite app_assoc. Qed.
Lemma reads_one pos t : peek pos = t → t ≠ "" → reads pos (S pos) [t].
Proof. intros H Ht. by apply drop_S, peek_in. Qed.
Lemma reads_cons pos p t ts : peek pos = t → t ≠ "" → reads (S pos) p ts → reads pos p (t :: ts).
Proof. intros H Ht. apply (reads_app _ (S pos) _ [t]). by apply reads_one. Qed.

Lemma args_from_reads l pos args p : drop pos toks = l → args_from l pos = (args, p) →
  reads pos p args ∧ Forall (λ a, a ≠ ")" ∧ a ≠ "") args.
Proof.
  revert pos args. induction l as [|t l IH]; intros pos args Hd; cbn; [by intros [= <- <-]|].
  destruct (String.eqb t ")" || String.eqb t "") eqn:E; [by intros [= <- <-]|].
  apply orb_false_iff in E as [E1%String.eqb_neq E2%String.eqb_neq].
  destruct (args_from l (S pos)) as [args' p'] eqn:Ea. intros [= <- <-]. destruct (peek_drop _ _ _ Hd) as [Hp Hd'].
  destruct (IH _ _ Hd' Ea) as [Hr Ha]. split; [by apply reads_cons|by constructor].
Qed.

Lemma value_empty : value b "" = Err (NotAValue "").
Proof. done. Qed.

Lemma predicate_sound pos v p : opens (peek pos) = false → parsePredicate pos = Ok (v, p) →
  ∃ ts c, reads pos p ts ∧ derives LUnary ts c ∧ eval c = Ok v.
Proof.
  intros Ho. unfold DynExpr.parsePredicate. destruct (is_function (peek pos)) eqn:Hf.
  - destruct (negb (String.eqb (peek (1 + pos)) "(")) eqn:E1; [done|]. apply negb_false_iff, String.eqb_eq in E1.
    destruct (args_from _ _) as [args q] eqn:Ea. destruct (negb (String.eqb (peek q) ")")) eqn:E2; [done|].
    apply negb_false_iff, String.eqb_eq in E2. intros (x & Hx & [= <- <-])%res_bind_Ok.
    apply args_from_reads in Ea as [Hr Hall]; [|done].
    exists (peek pos :: "(" :: args ++ [")"]), (CFn (peek pos) args). split_and!; [|by constructor|done].
    apply reads_cons; [done|by intros E; rewrite E in Hf|]. apply reads_cons; [done..|].
    eapply reads_app; [exact Hr|]. by apply reads_one.
  - intros (x & Hx & [= <- <-])%res_bind_Ok. pose proof Hx as Hv.
    unfold comparison in Hv. apply res_bind_Ok in Hv as (name & Hname & Hv). apply res_bind_Ok in Hv as (w & Hw & _).
    assert (Hlt : 2 + pos < length toks) by (apply peek_lt; intros E; rewrite E, value_empty in Hw; discriminate).
    exists [peek pos; peek (1 + pos); peek (2 + pos)], (CCmp (peek pos) (peek (1 + pos)) (peek (2 + pos))).
    split_and!; [|by constructor|done]. unfold reads, DynExpr.peek.
    destruct (lookup_lt_is_Some_2 toks pos) as [t0 H0]; [lia|]. destruct (lookup_lt_is_Some_2 toks (1 + pos)) as [t1 H1]; [lia|].
    destruct (lookup_lt_is_Some_2 toks (2 + pos)) as [t2 H2]; [lia|]. rewrite H0, H1, H2.
    rewrite (drop_S _ _ _ H0). change (S pos) with (1 + pos). rewrite (drop_S _ _ _ H1). change (S (1 + pos)) with (2 + pos).
    by rewrite (drop_S _ _ _ H2).
Qed.

Lemma sound f : ∀ pos v p,
  (parseOr f pos = Ok (v, p) → ∃ ts c, reads pos p ts ∧ derives LOr ts c ∧ eval c = Ok v) ∧
  (∀ ts0 c0 v0, derives LOr ts0 c0 → eval c0 = Ok v0 → orRest f v0 pos = Ok (v, p) →
     ∃ ts c, reads pos p ts ∧ derives LOr (ts0 ++ ts) c ∧ eval c = Ok v) ∧
  (parseAnd f pos = Ok (v, p) → ∃ ts c, reads pos p ts ∧ derives LAnd ts c ∧ eval c = Ok v) ∧
  (∀ ts0 c0 v0, derives LAnd ts0 c0 → eval c0 = Ok v0 → andRest f v0 pos = Ok (v, p) →
     ∃ ts c, reads pos p ts ∧ derives LAnd (ts0 ++ ts) c ∧ eval c = Ok v) ∧
  (parseUnary f pos = Ok (v, p) → ∃ ts c, reads pos p ts ∧ derives LUnary ts c ∧ eval c = Ok v).
Proof.
  induction f as [|f IH]; intros pos v p; [done|].
  split_and!; cbn [DynExpr.parseOr DynExpr.orRest DynExpr.parseAnd DynExpr.andRest DynExpr.parseUnary].
  - intros ([x q] & Ha & Hr)%res_bind_Ok. apply IH in Ha as (ts & c & Hts & Hc & He).
    eapply IH in Hr as (us & d & Hus & Hd & Hev); [|by apply D_or_and|done].
    exists (ts ++ us), d. split_and!; [by eapply reads_app|done..].
  - intros ts0 c0 v0 Hc0 He0. destruct (EqualFold (peek pos) "OR") eqn:E.
    + intros ([r q] & Ha & Hr)%res_bind_Ok. apply IH in Ha as (ts & c & Hts & Hc & He).
      eapply IH in Hr as (us & d & Hus & Hd & Hev); [|by apply D_or|by cbn; rewrite He0; cbn; rewrite He].
      exists ((peek pos :: ts) ++ us), d. rewrite app_assoc. split_and!; [|done..].
      eapply reads_app; [|done]. apply reads_cons; [done|by intros Ee; rewrite Ee in E|done].
    + intros [= <- <-]. exists [], c0. rewrite app_nil_r. by split_and!.
  - intros ([x q] & Ha & Hr)%res_bind_Ok. apply IH in Ha as (ts & c & Hts & Hc & He).
    eapply IH in Hr as (us & d & Hus & Hd & Hev); [|by apply D_and_unary|done].
    exists (ts ++ us), d. split_and!; [by eapply reads_app|done..].
  - intros ts0 c0 v0 Hc0 He0. destruct (EqualFold (peek pos) "AND") eqn:E.
    + intros ([r q] & Ha & Hr)%res_bind_Ok. apply IH in Ha as (ts & c & Hts & Hc & He).
      eapply IH in Hr as (us & d & Hus & Hd & Hev); [|by apply D_and|by cbn; rewrite He0; cbn; rewrite He].
      exists ((peek pos :: ts) ++ us), d. rewrite app_assoc. split_and!; [|done..].
      eapply reads_app; [|done]. apply reads_cons; [done|by intros Ee; rewrite Ee in E|done].
    + intros [= <- <-]. exists [], c0. rewrite app_nil_r. by split_and!.
  - destruct (EqualFold (peek pos) "NOT") eqn:E; [|destruct (String.eqb (peek pos) "(") eqn:E2].
    + intros ([x q] & Hu & [= <- <-])%res_bind_Ok. apply IH in Hu as (ts & c & Hts & Hc & He).
      exists (peek pos :: ts), (CNot c). split_and!; [|by apply D_not|by cbn; rewrite He].
      apply reads_cons; [done|by intros Ee; rewrite Ee in E|done].
    + intros ([x q] & Hu & Hr)%res_bind_Ok. apply IH in Hu as (ts & c & Hts & Hc & He). apply String.eqb_eq in E2.
      destruct (negb (String.eqb (peek q) ")")) eqn:E3; [done|]. apply negb_false_iff, String.eqb_eq in E3.
      injection Hr as <- <-. exists ("(" :: ts ++ [")"]), c. split_and!; [|by apply D_paren|done].
      apply reads_cons; [done..|]. eapply reads_app; [done|]. by apply reads_one.
    + apply predicate_sound. unfold opens. by rewrite E, E2.
Qed.
End Parser.

(** ** The theorems *)

Lemma need_all toks : 5 * length toks + 3 = need toks 3 0.
Proof. unfold need. lia. Qed.

(** The evaluation of a condition always ends with an answer or an error of its own. *)
Lemma evalBool_fueled : evalBool format_float it b ≠ Err OutOfFuel.
Proof.
  unfold evalBool. pose proof (proj1 (fueled (tokenize (bExpr b)) (need (tokenize (bExpr b)) 3 0) 0) (Nat.le_refl _)) as [Hs _].
  rewrite need_all. destruct (parseOr _ _ _ _ _ _) as [[v p]|e]; cbn; [by case_bool_decide|congruence].
Qed.

Lemma evalBool_derived c : derives LOr (tokenize (bExpr b)) c → evalBool format_float it b = eval c.
Proof.
  intros Hd. unfold evalBool. rewrite need_all. set (toks := tokenize (bExpr b)) in *.
  change (parseOr _ _ _ _ _ 0) with (or_at toks 0).
  rewrite (complete toks _ _ _ Hd 0 []) by (try done; by rewrite app_nil_r).
  destruct (eval c) as [v|e]; [|done]. cbn [mbind res_bind]. rewrite or_rest_eq, (peek_post _ _ []) by (apply drop_ge; lia).
  cbn [hd]. change (EqualFold "" "OR") with false. cbn [mbind res_bind]. by rewrite bool_decide_true.
Qed.

Lemma evalBool_sound v : evalBool format_float it b = Ok v → ∃ c, derives LOr (tokenize (bExpr b)) c ∧ eval c = Ok v.
Proof.
  unfold evalBool. set (toks := tokenize (bExpr b)) in *. intros ([x p] & Hp & Hr)%res_bind_Ok.
  case_bool_decide as Hl; [|done]. injection Hr as ->. apply sound in Hp as (ts & c & Hts & Hc & He).
  exists c. split; [|done]. unfold reads in Hts. rewrite drop_0, Hl, drop_all, app_nil_r in Hts. by rewrite Hts.
Qed.
End Meaning.

(** C26: the evaluator of conditions and filters always ends, and it is the grammar and its meaning: an
    expression whose tokens derive a condition has that condition's value or its first error, and an
    expression that has a value derives a condition with it. *)
Theorem condition_meaning format_float it b :
  evalBool format_float it b ≠ Err OutOfFuel ∧
  (∀ c, derives LOr (tokenize (bExpr b)) c → evalBool format_float it b = eval format_float it b c) ∧
  (∀ v, evalBool format_float it b = Ok v → ∃ c, derives LOr (tokenize (bExpr b)) c ∧ eval format_float it b c = Ok v).
Proof. split_and!; [apply evalBool_fueled|apply evalBool_derived|apply evalBool_sound]. Qed.

(** NOT binds tighter than AND, and AND than OR. *)
Example derives_ex : derives LOr (tokenize "NOT a = :x AND b = :y OR contains(c, :z)")
  (COr (CAnd (CNot (CCmp "a" "=" ":x")) (CCmp "b" "=" ":y")) (CFn "contains" ["c"; ":z"])).
Proof.
  change (tokenize _) with ((["NOT"; "a"; "="; ":x"] ++ "AND" :: ["b"; "="; ":y"]) ++ "OR" :: ["contains"; "("; "c"; ":z"; ")"]).
  apply D_or; [|done|].
  - apply D_or_and, D_and; [|done|by apply D_cmp]. by apply D_and_unary, D_not, D_cmp.
  - apply D_and_unary, (D_fn "contains" ["c"; ":z"]); [done..|]. by repeat constructor.
Qed.

(** A function called with nothing is an index out of range. *)
Example empty_call_panics format_float it b : eval format_float it b (CFn "attribute_exists" []) = Err Panicked.
Proof. done. Qed.
