(* ===== verification/DynUpdate.v ===== *)
(** * DynamoDB update expressions (dynamodb/expr.go)

    UpdateItem's clauses.  Lists are Go slices, and [append] writes into an array that other attributes may
    share: an attribute that holds a list with room to grow is a [Slice] of an array of the heap, and
    [Plain] is any other value, a list whose array is full included.  The clauses are run in the order the
    map of clauses is iterated, which is any order. *)

From stdpp Require Import gmap.
From S2P Require Import Prelude GoStrings.
From S2P Require Export DynExpr.
#[local] Open Scope string_scope.
#[local] Open Scope Z_scope.
#[local] Open Scope list_scope.

(** ** Slices *)

Inductive cell := Plain (v : any) | Slice (a n : nat).
(** The arrays made so far; an array is as long as the capacity it was given. *)
Abbreviation heap := (list (list any)).
Abbreviation cells := (gmap string cell).

Definition array (h : heap) (a : nat) : list any := default [] (h !! a).
Definition read (h : heap) (c : cell) : any :=
  match c with Plain v => v | Slice a n => AList (take n (array h a)) end.

(** ** The text of an update *)

Definition actions : list string := ["SET"; "REMOVE"; "ADD"; "DELETE"].
(** strings.ToUpper, when it is one of the four. *)
Definition action (t : string) : option string := List.find (λ k, EqualFold t k) actions.

Definition put_clause (cur : string) (buf : list string) (out : gmap string string) : gmap string string :=
  if String.eqb cur "" then out else <[cur := Join buf " "]> out.
Fixpoint split_clauses (toks : list string) (cur : string) (buf : list string) (out : gmap string string) : gmap string string :=
  match toks with
  | [] => put_clause cur buf out
  | t :: toks =>
      match action t with
      | Some up => split_clauses toks up [] (put_clause cur buf out)
      | None => split_clauses toks cur (buf ++ [t]) out
      end
  end.
Definition splitClauses (expr : string) : gmap string string := split_clauses (tokenize expr) "" [] ∅.

Definition isOperator (t : string) : bool :=
  existsb (String.eqb t) ["="; "<"; ">"; "<="; ">="; "<>"; "+"; "-"; "("; ")"].

Definition next_is_eq (toks : list string) : bool := match toks with t :: _ => String.eqb t "=" | [] => false end.
Fixpoint split_assignments (toks : list string) (cur : list string) (depth : Z) : list string :=
  match toks with
  | [] => match cur with [] => [] | _ => [Join cur " "] end
  | t :: toks =>
      let depth := if String.eqb t "(" then depth + 1 else if String.eqb t ")" then depth - 1 else depth in
      if (depth =? 0) && negb (bool_decide (cur = [])) && next_is_eq toks && negb (isOperator t)
      then Join cur " " :: split_assignments toks [t] depth
      else split_assignments toks (cur ++ [t]) depth
  end.
Definition splitSetAssignments (body : string) : list string := split_assignments (tokenize body) [] 0.

(** strings.Fields. *)
Fixpoint fields (l : list (Z * string)) (cur : string) : list string :=
  match l with
  | [] => flush cur
  | (r, s) :: l => if is_space_rune r then flush cur ++ fields l "" else fields l (cur +:+ s)
  end.
Definition Fields (s : string) : list string := fields (runes (String.length s) s) "".

(** toks: fn ( a b ). *)
Definition fnArgs (toks : list string) : option (list string) :=
  if (length toks <? 4)%nat || negb (String.eqb (default "" (toks !! 1%nat)) "(") ||
     negb (String.eqb (default "" (last toks)) ")") then None
  else Some (take (length toks - 3) (drop 2 toks)).

Section Update.
(** The %v form of a float64, and how much room beyond its elements a list's new array has. *)
Context (format_float : spec_float → string) (room : list any → nat).

(** An error, and the heap as it is then. *)
#[local] Abbreviation failure := (heap * expr_error)%type.
Definition fails {A} (h : heap) (r : res expr_error A) : res failure A :=
  match r with Ok a => Ok a | Err e => Err (h, e) end.

(** A list in a new array. *)
Definition alloc (h : heap) (l : list any) : heap * cell :=
  match room l with
  | O => (h, Plain (AList l))
  | n => (h ++ [l ++ replicate n ANil], Slice (length h) (length l))
  end.
Definition hold (h : heap) (v : any) : heap * cell :=
  match v with AList l => alloc h l | _ => (h, Plain v) end.
Fixpoint hold_all (h : heap) (m : list (string * any)) : heap * list (string * cell) :=
  match m with
  | [] => (h, [])
  | (k, v) :: m => let '(h, c) := hold h v in let '(h, cs) := hold_all h m in (h, (k, c) :: cs)
  end.

(** append(toList(c), ys...). *)
Definition append_list (h : heap) (c : cell) (ys : list any) : heap * cell :=
  match c with
  | Slice a n =>
      let xs := array h a in
      if (n + length ys <=? length xs)%nat
      then (<[a := take n xs ++ ys ++ drop (n + length ys) xs]> h, Slice a (n + length ys))
      else alloc h (take n xs ++ ys)
  | Plain v =>
      match ys with
      | [] => (h, Plain (AList (toList v)))
      | _ => alloc h (toList v ++ ys)
      end
  end.

Section Block.
(** The block of the update, and the values of its references. *)
Context (b : exprBlock) (vals : cells).

Definition value_cell (tok : string) : res expr_error cell :=
  if HasPrefix tok ":" then
    match vals !! tok with Some c => Ok c | None => Err (UndefinedValue tok) end
  else match ParseFloat tok with Some f => Ok (Plain (AFloat f)) | None => Err (NotAValue tok) end.

Definition operand (it : cells) (tok : string) : res expr_error cell :=
  if HasPrefix tok ":" then value_cell tok
  else match ParseFloat tok with
       | Some f => Ok (Plain (AFloat f))
       | None => name ← attrName b tok; Ok (default (Plain ANil) (it !! name))
       end.
Definition operandNum (h : heap) (it : cells) (tok : string) : res expr_error spec_float :=
  c ← operand it tok;
  match toFloat (read h c) with Some f => Ok f | None => Err (NotANumber tok) end.

Definition two_args (fn : string) (toks : list string) : res expr_error (string * string) :=
  match fnArgs toks with Some [a0; a1] => Ok (a0, a1) | _ => Err (BadCall fn) end.

Definition evalSetValue (h : heap) (it : cells) (rhs : string) : res expr_error (heap * cell) :=
  let toks := tokenize rhs in
  let fn := default "" (head toks) in
  if EqualFold fn "if_not_exists" then
    '(a0, a1) ← two_args "if_not_exists" toks;
    name ← attrName b a0;
    match it !! name with
    | Some existing => Ok (h, existing)
    | None => c ← value_cell a1; Ok (h, c)
    end
  else if EqualFold fn "list_append" then
    '(a0, a1) ← two_args "list_append" toks;
    l1 ← operand it a0;
    l2 ← operand it a1;
    Ok (append_list h l1 (toList (read h l2)))
  else
    match toks with
    | [tok] => c ← operand it tok; Ok (h, c)
    | [l; op; r] =>
        if String.eqb op "+" || String.eqb op "-" then
          x ← operandNum h it l;
          y ← operandNum h it r;
          Ok (h, Plain (AFloat (if String.eqb op "+" then SFadd 53 1024 x y else SFsub 53 1024 x y)))
        else Err (UnsupportedValue rhs)
    | _ => Err (UnsupportedValue rhs)
    end.

(** One assignment: up to the first "=", and what follows it. *)
Definition assign (st : heap * cells) (text : string) : res failure (heap * cells) :=
  let toks := tokenize text in
  fails st.1
    match list_find (λ t, t = "=") toks with
    | Some (S eq, _) =>
        if bool_decide (S eq = length toks - 1)%nat then Err (MalformedAssignment text)
        else
          name ← attrName b (default "" (head toks));
          '(h, c) ← evalSetValue st.1 st.2 (Join (drop (S (S eq)) toks) " ");
          Ok (h, <[name := c]> st.2)
    | _ => Err (MalformedAssignment text)
    end.
Definition applySet (st : heap * cells) (body : string) : res failure (heap * cells) :=
  foldM assign (splitSetAssignments body) st.

(** REMOVE's paths. *)
Definition remove (st : heap * cells) (path : string) : res failure (heap * cells) :=
  fails st.1 (name ← attrName b path; Ok (st.1, delete name st.2)).

(** One path and value of ADD. *)
Definition add_one (st : heap * cells) (path tok : string) : res failure (heap * cells) :=
  fails st.1 (name ← attrName b path;
  c ← value_cell tok;
  let cur := st.2 !! name in
  match toFloat (read st.1 c) with
  | Some f =>
      base ← match cur with
             | Some cur => match toFloat (read st.1 cur) with Some bf => Ok bf | None => Err (AddToNonNumeric name) end
             | None => Ok (S754_zero false)
             end;
      Ok (st.1, <[name := Plain (AFloat (SFadd 53 1024 base f))]> st.2)
  | None =>
      let '(h, l) := append_list st.1 (default (Plain ANil) cur) (toList (read st.1 c)) in
      Ok (h, <[name := l]> st.2)
  end).
Fixpoint add_pairs (st : heap * cells) (toks : list string) : res failure (heap * cells) :=
  match toks with
  | path :: tok :: toks => st ← add_one st path tok; add_pairs st toks
  | _ => Ok st
  end.
Definition applyAdd (st : heap * cells) (body : string) : res failure (heap * cells) := add_pairs st (tokenize body).

Definition clause (st : heap * cells) (kb : string * string) : res failure (heap * cells) :=
  if String.eqb kb.1 "SET" then applySet st kb.2
  else if String.eqb kb.1 "REMOVE" then foldM remove (Fields kb.2) st
  else if String.eqb kb.1 "ADD" then applyAdd st kb.2
  else Err (st.1, UnsupportedAction kb.1).

(** The clauses in the order they are met. *)
Definition run_clauses (st : heap * cells) (kbs : list (string * string)) : res failure (heap * cells) :=
  foldM clause kbs st.
End Block.

(** The order a map of clauses is iterated in. *)
Context (order : gmap string string → list (string * string)).

Definition applyUpdate (h : heap) (it : cells) (b : exprBlock) : res failure (heap * cells) :=
  let '(h, vals) := hold_all h (map_to_list (bValues b)) in
  run_clauses b (list_to_map vals) (h, it) (order (splitClauses (bExpr b))).

Definition put_key (it : cells) (key : list (string * cell)) : cells := foldl (λ it kc, <[kc.1 := kc.2]> it) it key.

(** The condition is met or there is none, and what the update is. *)
Definition checked_update (it : item) (op : item) : res expr_error exprBlock :=
  cond ← readBlock format_float op "condition";
  _ ← match cond with
      | Some c => pass ← evalBool format_float it c; if (pass : bool) then Ok tt else Err ConditionalCheckFailed
      | None => Ok tt
      end;
  upd ← readBlock format_float op "update";
  match upd with None => Err UpdateRequired | Some b => Ok b end.

Definition updateItem (h : heap) (it : cells) (key : list (string * any)) (op : item) : res failure (heap * cells) :=
  b ← fails h (checked_update (read h <$> it) op);
  '(h, it) ← applyUpdate h it b;
  let '(h, key) := hold_all h key in
  Ok (h, put_key it key).

(** ApplyUpdate: no item is an empty one. *)
Definition ApplyUpdate (h : heap) (current : option cells) (key : list (string * any)) (op : item) : res failure (heap * cells) :=
  updateItem h (default ∅ current) key op.
(** EvalCondition: whether the condition holds, and whether there is one. *)
Definition EvalCondition (current : option item) (op : item) : res expr_error (bool * bool) :=
  cond ← readBlock format_float op "condition";
  match cond with
  | None => Ok (true, false)
  | Some c => ok ← evalBool format_float (default ∅ current) c; Ok (ok, true)
  end.
End Update.

Definition num (n : Z) : any := AFloat (float_of n).
(** What an update leaves of an item, as plain values. *)
Definition shown (r : res (heap * expr_error) (heap * cells)) : res expr_error item :=
  match r with Ok (h, it) => Ok (read h <$> it) | Err (_, e) => Err e end.
Definition update_of (room : list any → nat) (order : gmap string string → list (string * string))
    (it vals : list (string * any)) (e : string) : res expr_error item :=
  let '(h, cs) := hold_all room [] it in
  shown (applyUpdate room order h (list_to_map cs) (mkBlock e {["#n" := "name"]} (list_to_map vals))).

Example update_ex :
  update_of (λ _, 0%nat) map_to_list [("version", num 1); ("stale", AStr "x")] [(":name", AStr "Alice2"); (":one", num 1)]
    "SET #n = :name, version = version + :one REMOVE stale" = Ok {["version" := num 2; "name" := AStr "Alice2"]}.
Proof. vm_compute. done. Qed.

(** An attribute renamed: what the new one holds depends on which clause the map of clauses gives first. *)
Example rename_ex :
  let run order := update_of (λ _, 0%nat) order [("a", num 1)] [] "SET b = a REMOVE a" in
  run (λ m, map_to_list m) ≠ run (λ m, rev (map_to_list m)).
Proof. vm_compute. discriminate. Qed.

(** Three appends to one list, in an array with room: the second loses its element. *)
Example append_ex :
  let one s := AList [AStr s] in
  update_of length map_to_list [("a", AList [AStr "1"; AStr "2"; AStr "3"])] [(":x", one "x"); (":y", one "y")]
    "SET b = list_append(a, :x), c = list_append(a, :y)" =
  Ok {["a" := AList [AStr "1"; AStr "2"; AStr "3"];
       "b" := AList [AStr "1"; AStr "2"; AStr "3"; AStr "y"]; "c" := AList [AStr "1"; AStr "2"; AStr "3"; AStr "y"]]}.
Proof. vm_compute. done. Qed.

(** A second SET takes the place of the first, and an expression with no keyword is no update. *)
Example dropped_clause_ex :
  let run := update_of (λ _, 0%nat) map_to_list [("a", num 1)] [(":x", num 2)] in
  run "SET a = :x SET b = :x" = Ok {["a" := num 1; "b" := num 2]} ∧ run "a = :x" = Ok {["a" := num 1]}.
Proof. vm_compute. done. Qed.
