(* ===== verification/DynUpdateSpec.v ===== *)
(** * What an update expression means

    The clauses of dynamodb/expr.go on plain values, where a list is its elements: with no room in any
    array nothing is shared.  [applyUpdate_any_order] says when the order of the clauses makes no
    difference. *)

From stdpp Require Import gmap.
From S2P Require Import Prelude GoStrings DynUpdate.
#[local] Open Scope string_scope.
#[local] Open Scope nat_scope.
#[local] Open Scope list_scope.

(** ** Folds of fallible steps *)

Section Folds.
Context {E A B : Type} (f : A → B → res E A).

Lemma foldM_app l k a : foldM f (l ++ k) a = foldM f l a ≫= foldM f k.
Proof.
  revert a. induction l as [|x l IH]; intros a; [done|]. cbn [app]. rewrite !foldM_cons. destruct (f a x) as [a'|e]; [apply IH|done].
Qed.

(** Steps that commute when their keys differ may be taken in any order. *)
Lemma foldM_perm {K} (key : B → K) (P : B → Prop) l k a r :
  l ≡ₚ k → NoDup (map key l) → Forall P l →
  (∀ x y a r, P x → P y → key x ≠ key y → (f a x ≫= λ a, f a y) = Ok r → (f a y ≫= λ a, f a x) = Ok r) →
  foldM f l a = Ok r → foldM f k a = Ok r.
Proof.
  intros Hp Hnd HP Hc. revert a r. induction Hp as [|x l k Hp IH|x y l|l k m Hp1 IH1 Hp2 IH2]; intros a r.
  - done.
  - rewrite !foldM_cons. cbn in Hnd. apply NoDup_cons in Hnd as [_ Hnd]. apply Forall_cons in HP as [_ HP].
    intros (a' & Ha & Hr)%res_bind_Ok. rewrite Ha. by apply IH.
  - rewrite !foldM_cons. cbn in Hnd. apply NoDup_cons in Hnd as [Hx _]. apply Forall_cons in HP as [HPy HP]. apply Forall_cons in HP as [HPx _].
    intros (a1 & H1 & H2)%res_bind_Ok. rewrite foldM_cons in H2. apply res_bind_Ok in H2 as (a2 & H2 & H3).
    assert (Hxy : (f a x ≫= λ a, f a y) = Ok a2).
    { apply (Hc y x); [done..| |by rewrite H1]. intros Hk. apply Hx. rewrite Hk. by left. }
    apply res_bind_Ok in Hxy as (a3 & H4 & H5). rewrite H4. cbn [mbind res_bind]. by rewrite foldM_cons, H5.
  - intros H. apply IH2; [|by rewrite <-Hp1|by apply IH1]. by rewrite <-Hp1.
Qed.
End Folds.

(** ** What a clause touches *)

Section Touch.
Context (b : exprBlock).

Definition names_of (toks : list string) : list string :=
  omap (λ t, match attrName b t with Ok n => Some n | Err _ => None end) toks.

(** What follows the first "=". *)
Definition rhs_of (text : string) : string :=
  match list_find (λ t, t = "=") (tokenize text) with
  | Some (i, _) => Join (drop (S i) (tokenize text)) " "
  | None => ""
  end.

Definition touches (kb : string * string) : list string :=
  if String.eqb kb.1 "SET" then
    flat_map (λ text, names_of (tokenize text) ++ names_of (tokenize (rhs_of text))) (splitSetAssignments kb.2)
  else if String.eqb kb.1 "REMOVE" then names_of (Fields kb.2)
  else names_of (tokenize kb.2).

Lemma names_of_elem toks t n : t ∈ toks → attrName b t = Ok n → n ∈ names_of toks.
Proof. intros Ht Hn. apply list_elem_of_omap. exists t. by rewrite Hn. Qed.

(** ** Steps that keep to some attributes *)

Definition agree (N : list string) (i1 i2 : cells) : Prop := ∀ n, n ∈ N → i1 !! n = i2 !! n.

(** What a step answers depends on the attributes [N] alone, and it leaves the others as they are. *)
Definition keeps_to (N : list string) (F : cells → res (heap * expr_error) (heap * cells)) : Prop := ∀ i1 i2, agree N i1 i2 →
  match F i1 with
  | Ok (h, o1) => h = [] ∧ (∀ n, n ∉ N → o1 !! n = i1 !! n) ∧
      ∃ o2, F i2 = Ok ([], o2) ∧ agree N o1 o2 ∧ ∀ n, n ∉ N → o2 !! n = i2 !! n
  | Err e => F i2 = Err e
  end.

Lemma keeps_to_weaken N M F : N ⊆ M → keeps_to N F → keeps_to M F.
Proof.
  intros Hs HF i1 i2 Ha. specialize (HF i1 i2 (λ n Hn, Ha n (Hs n Hn))). destruct (F i1) as [[h o1]|e]; [|done].
  destruct HF as (-> & H1 & o2 & -> & Ho & H2). split; [done|]. split; [intros n Hn; apply H1; set_solver|].
  exists o2. split_and!; [done| |intros n Hn; apply H2; set_solver]. intros n Hn.
  destruct (decide (n ∈ N)) as [Hin|Hin]; [by apply Ho|]. rewrite H1, H2 by done. by apply Ha.
Qed.

Lemma keeps_to_bind N (F G : cells → res (heap * expr_error) (heap * cells)) : keeps_to N F → keeps_to N G →
  keeps_to N (λ it, '(h, o) ← F it; G o).
Proof.
  intros HF HG i1 i2 Ha. specialize (HF i1 i2 Ha). destruct (F i1) as [[h o1]|e]; [|by rewrite HF].
  destruct HF as (-> & H1 & o2 & -> & Ho & H2). cbn [mbind res_bind]. specialize (HG o1 o2 Ho).
  destruct (G o1) as [[h q1]|e]; [|done]. destruct HG as (-> & H3 & q2 & -> & Hq & H4).
  split; [done|]. split; [intros n Hn; by rewrite H3, H1|]. exists q2. split_and!; [done..|]. intros n Hn. by rewrite H4, H2.
Qed.

Lemma keeps_to_nil N F it o h : keeps_to N F → F it = Ok (h, o) → h = [].
Proof. intros HF E. specialize (HF it it (λ _ _, eq_refl)). rewrite E in HF. by destruct HF. Qed.

Lemma keeps_to_foldM {X} N (f : heap * cells → X → res (heap * expr_error) (heap * cells)) l :
  (∀ x, x ∈ l → keeps_to N (λ it, f ([], it) x)) → keeps_to N (λ it, foldM f l ([], it)).
Proof.
  induction l as [|x l IH]; intros Hl.
  { intros i1 i2 Ha. cbn. split; [done|]. split; [done|]. by exists i2. }
  assert (Hx := Hl x (list_elem_of_here _ _)). assert (IH' := IH (λ y Hy, Hl y (list_elem_of_further _ _ _ Hy))).
  pose proof (keeps_to_bind _ _ _ Hx IH') as Hb. intros i1 i2 Ha. specialize (Hb i1 i2 Ha). rewrite !foldM_cons.
  pose proof (λ o h, keeps_to_nil N (λ it, f ([], it) x) i1 o h Hx) as Hn1.
  pose proof (λ o h, keeps_to_nil N (λ it, f ([], it) x) i2 o h Hx) as Hn2.
  destruct (f ([], i1) x) as [[h1 o1]|e1] eqn:E1; destruct (f ([], i2) x) as [[h2 o2]|e2] eqn:E2; cbn [mbind res_bind] in *;
    rewrite E1, E2 in Hb; try rewrite (Hn1 _ _ eq_refl); try rewrite (Hn2 _ _ eq_refl); exact Hb.
Qed.

Lemma keeps_to_commute N M F G : keeps_to N F → keeps_to M G → (∀ n, n ∈ N → n ∉ M) →
  ∀ it r, ('(_, o) ← F it; G o) = Ok r → ('(_, o) ← G it; F o) = Ok r.
Proof.
  intros HF HG Hd it [h r] ([h1 o1] & E1 & E2)%res_bind_Ok. cbn in E2.
  pose proof (HF it it (λ _ _, eq_refl)) as K. rewrite E1 in K. destruct K as (-> & K1 & _).
  assert (Ha : agree M o1 it) by (intros n Hn; apply K1; intros HN; by eapply Hd).
  pose proof (HG o1 it Ha) as K. rewrite E2 in K. destruct K as (-> & K2 & g & Eg & Kg & K3). rewrite Eg. cbn [mbind res_bind].
  assert (Hb : agree N it g) by (intros n Hn; symmetry; apply K3; intros HM; by eapply Hd).
  pose proof (HF it g Hb) as K. rewrite E1 in K. destruct K as (_ & _ & q & Eq & Kq & K4). rewrite Eq. do 2 f_equal.
  apply map_eq. intros n. destruct (decide (n ∈ N)) as [HN|HN].
  - rewrite <-Kq by done. symmetry. apply K2. by apply Hd.
  - rewrite K4 by done. destruct (decide (n ∈ M)) as [HM|HM]; [symmetry; by apply Kg|]. rewrite K3 by done. by rewrite K2, K1.
Qed.
End Touch.

(** No room in any array. *)
Definition full (l : list any) : nat := 0.

Section Clauses.
Context (b : exprBlock) (vals : cells).

Lemma operand_agree toks i1 i2 tok : agree (names_of b toks) i1 i2 → tok ∈ toks → operand b vals i1 tok = operand b vals i2 tok.
Proof.
  intros Ha Ht. unfold operand. case_match; [done|]. case_match; [done|]. destruct (attrName b tok) as [n|] eqn:En; [|done]. cbn.
  by rewrite (Ha n (names_of_elem b toks tok n Ht En)).
Qed.
Lemma operandNum_agree toks h i1 i2 tok : agree (names_of b toks) i1 i2 → tok ∈ toks → operandNum b vals h i1 tok = operandNum b vals h i2 tok.
Proof. intros Ha Ht. unfold operandNum. by rewrite (operand_agree toks i1 i2). Qed.

Lemma two_args_elem fn toks a0 a1 : two_args fn toks = Ok (a0, a1) → a0 ∈ toks ∧ a1 ∈ toks.
Proof.
  unfold two_args. destruct (fnArgs toks) as [l|] eqn:E; [|done]. destruct l as [|x0 [|x1 []]]; try done. intros [= <- <-].
  unfold fnArgs in E. destruct (_ || _ || _); [done|]. injection E as E.
  assert (Hin : ∀ a, a ∈ take (length toks - 3) (drop 2 toks) → a ∈ toks).
  { intros a Hx. rewrite <-(take_drop 2 toks), elem_of_app. right.
    rewrite <-(take_drop (length toks - 3) (drop 2 toks)), elem_of_app. by left. }
  split; apply Hin; rewrite E; set_solver.
Qed.

Lemma append_full h c ys : h = [] → ∃ c', append_list full h c ys = ([], c').
Proof.
  intros ->. destruct c as [v|a n]; cbn; [destruct ys; eauto|]. unfold array. rewrite lookup_nil. by case_match; eauto.
Qed.

Lemma evalSetValue_agree i1 i2 rhs : agree (names_of b (tokenize rhs)) i1 i2 →
  evalSetValue full b vals [] i1 rhs = evalSetValue full b vals [] i2 rhs ∧
  ∀ h c, evalSetValue full b vals [] i1 rhs = Ok (h, c) → h = [].
Proof.
  intros Ha. set (toks := tokenize rhs) in *. unfold evalSetValue. fold toks.
  destruct (EqualFold _ "if_not_exists"); [|destruct (EqualFold _ "list_append")].
  - destruct (two_args _ _) as [[a0 a1]|e] eqn:E; [|done]. cbn [mbind res_bind]. apply two_args_elem in E as [E0 E1].
    destruct (attrName b a0) as [n|] eqn:En; [|done]. cbn [mbind res_bind]. rewrite (Ha n (names_of_elem b toks a0 n E0 En)).
    split; [done|]. intros h c H. case_match; [by injection H as <- _|]. by apply res_bind_Ok in H as (x & _ & [= <- _]).
  - destruct (two_args _ _) as [[a0 a1]|e] eqn:E; [|done]. cbn [mbind res_bind]. apply two_args_elem in E as [E0 E1].
    rewrite (operand_agree toks i1 i2 a0), (operand_agree toks i1 i2 a1) by done. split; [done|]. intros h c.
    intros (l1 & _ & H)%res_bind_Ok. apply res_bind_Ok in H as (l2 & _ & [= H]).
    destruct (append_full [] l1 (toList (read [] l2)) eq_refl) as [c' Hc]. rewrite Hc in H. by injection H as <- _.
  - destruct toks as [|t0 [|t1 [|t2 [|]]]] eqn:Et; try done.
    + rewrite (operand_agree [t0] i1 i2) by (done || by left). split; [done|]. by intros h c (x & _ & [= <- _])%res_bind_Ok.
    + rewrite (operandNum_agree [t0; t1; t2] [] i1 i2 t0), (operandNum_agree [t0; t1; t2] [] i1 i2 t2) by (done || set_solver).
      split; [done|]. intros h c H. destruct (_ || _); [|done].
      apply res_bind_Ok in H as (x & _ & H). by apply res_bind_Ok in H as (y & _ & [= <- _]).
Qed.

Lemma agree_app N M i1 i2 : agree (N ++ M) i1 i2 → agree N i1 i2 ∧ agree M i1 i2.
Proof. intros H. split; intros n Hn; apply H, elem_of_app; auto. Qed.

Lemma keeps_to_insert N n c (i1 i2 : cells) : n ∈ N → agree N i1 i2 →
  @nil (list any) = [] ∧ (∀ m, m ∉ N → <[n := c]> i1 !! m = i1 !! m) ∧
  ∃ o2, @Ok (heap * expr_error) _ (@nil (list any), <[n := c]> i2) = Ok ([], o2) ∧ agree N (<[n := c]> i1) o2 ∧ ∀ m, m ∉ N → o2 !! m = i2 !! m.
Proof.
  intros Hn Ha. split; [done|]. split; [|eexists; split; [done|]; split].
  1,3: intros m Hm; rewrite lookup_insert_ne; [done|by intros ->].
  intros m Hm. destruct (decide (n = m)) as [->|Hne]; [by rewrite !lookup_insert_eq|]. rewrite !lookup_insert_ne by done. by apply Ha.
Qed.

Lemma assign_keeps text : keeps_to (names_of b (tokenize text) ++ names_of b (tokenize (rhs_of text)))
  (λ it, assign full b vals ([], it) text).
Proof.
  intros i1 i2 Ha. unfold assign, rhs_of, fails in *. destruct (list_find _ (tokenize text)) as [[i t]|] eqn:E; [|done].
  destruct i as [|i]; [done|]. case_bool_decide as Hl; [done|]. cbn [fst snd].
  destruct (attrName b _) as [n|] eqn:En; [|done]. cbn [mbind res_bind].
  pose proof (agree_app _ _ _ _ Ha) as [_ Hr]. destruct (evalSetValue_agree i1 i2 _ Hr) as [Heq Hh]. rewrite <-Heq.
  destruct (evalSetValue _ _ _ _ i1 _) as [[h c]|e]; [|done]. rewrite (Hh h c eq_refl). cbn [mbind res_bind].
  apply keeps_to_insert; [|exact Ha]. apply elem_of_app. left. eapply names_of_elem; [|exact En]. apply list_find_Some in E as (E & _ & _).
  destruct (tokenize text) as [|t0 ts]; [done|]. left.
Qed.

Lemma remove_keeps toks path : path ∈ toks → keeps_to (names_of b toks) (λ it, remove b ([], it) path).
Proof.
  intros Hp i1 i2 Ha. unfold remove, fails. destruct (attrName b path) as [n|] eqn:En; [|done]. cbn.
  pose proof (names_of_elem b toks path n Hp En) as Hn. split; [done|].
  split; [intros m Hm; rewrite lookup_delete_ne; [done|by intros ->]|]. eexists. split; [done|].
  split; intros m Hm; [|rewrite lookup_delete_ne; [done|by intros ->]].
  destruct (decide (n = m)) as [->|Hne]; [by rewrite !lookup_delete_eq|]. rewrite !lookup_delete_ne by done. by apply Ha.
Qed.

Lemma add_one_keeps toks path tok : path ∈ toks → keeps_to (names_of b toks) (λ it, add_one full b vals ([], it) path tok).
Proof.
  intros Hp i1 i2 Ha. unfold add_one, fails. destruct (attrName b path) as [n|] eqn:En; [|done]. cbn [mbind res_bind].
  pose proof (names_of_elem b toks path n Hp En) as Hn. destruct (value_cell vals tok) as [c|]; [|done]. cbn [mbind res_bind fst snd].
  rewrite <-(Ha n Hn). destruct (toFloat (read [] c)) as [f|].
  - destruct (i1 !! n) as [cur|]; [destruct (toFloat (read [] cur)) as [bf|]; [|done]|]; cbn [mbind res_bind]; by apply keeps_to_insert.
  - destruct (append_full [] (default (Plain ANil) (i1 !! n)) (toList (read [] c)) eq_refl) as [c' Hc]. rewrite Hc. by apply keeps_to_insert.
Qed.

Lemma add_pairs_keeps toks : ∀ n l, (length l ≤ n) → (∀ t, t ∈ l → t ∈ toks) → keeps_to (names_of b toks) (λ it, add_pairs full b vals ([], it) l).
Proof.
  induction n as [|n IH]; intros [|p [|t l]] Hlen Hin; cbn in Hlen; try lia;
    try (intros i1 i2 Ha; cbn; split; [done|]; split; [done|]; by exists i2).
  assert (H1 : keeps_to (names_of b toks) (λ it, add_one full b vals ([], it) p t)) by (apply add_one_keeps, Hin; by left).
  assert (H2 : keeps_to (names_of b toks) (λ it, add_pairs full b vals ([], it) l)) by (apply IH; [lia|]; intros; apply Hin; by do 2 right).
  pose proof (keeps_to_bind _ _ _ H1 H2) as Hb. intros i1 i2 Ha. specialize (Hb i1 i2 Ha). cbn [add_pairs].
  pose proof (λ o h, keeps_to_nil (names_of b toks) _ i1 o h H1) as Hn1. pose proof (λ o h, keeps_to_nil (names_of b toks) _ i2 o h H1) as Hn2.
  cbn beta in *. destruct (add_one full b vals ([], i1) p t) as [[h1 o1]|e1]; destruct (add_one full b vals ([], i2) p t) as [[h2 o2]|e2];
    cbn [mbind res_bind] in *; try rewrite (Hn1 _ _ eq_refl); try rewrite (Hn2 _ _ eq_refl); exact Hb.
Qed.

Lemma clause_keeps kb : keeps_to (touches b kb) (λ it, clause full b vals ([], it) kb).
Proof.
  unfold clause, touches. destruct (String.eqb kb.1 "SET"); [|destruct (String.eqb kb.1 "REMOVE"); [|destruct (String.eqb kb.1 "ADD")]].
  - apply keeps_to_foldM. intros text Ht. eapply keeps_to_weaken; [|apply assign_keeps]. intros n Hn.
    apply elem_of_flat_map. by exists text.
  - apply keeps_to_foldM. intros path Hp. by apply remove_keeps.
  - unfold applyAdd. by eapply add_pairs_keeps.
  - intros i1 i2 _. done.
Qed.

(** Clauses that touch different attributes. *)
Definition apart (k1 k2 : string * string) : Prop := ∀ n, n ∈ touches b k1 → n ∉ touches b k2.

Lemma clauses_commute k1 k2 it r : apart k1 k2 →
  (st ← clause full b vals ([], it) k1; clause full b vals st k2) = Ok r →
  (st ← clause full b vals ([], it) k2; clause full b vals st k1) = Ok r.
Proof.
  intros Hd H. pose proof (keeps_to_commute _ _ _ _ (clause_keeps k1) (clause_keeps k2) Hd it r) as K. cbn beta in K.
  apply res_bind_Ok in H as ([h o] & E1 & E2). pose proof (keeps_to_nil _ _ _ _ _ (clause_keeps k1) E1) as ->.
  assert (K' : (clause full b vals ([], it) k2 ≫= λ '(_, o), clause full b vals ([], o) k1) = Ok r) by (apply K; by rewrite E1).
  apply res_bind_Ok in K' as ([h' o'] & E3 & E4). pose proof (keeps_to_nil _ _ _ _ _ (clause_keeps k2) E3) as ->. by rewrite E3.
Qed.
End Clauses.

(** ** Any order of the clauses *)

Lemma hold_all_full h m : hold_all full h m = (h, map (λ kv, (kv.1, Plain kv.2)) m).
Proof. revert h. induction m as [|[k v] m IH]; intros h; [done|]. cbn. destruct v; cbn; by rewrite IH. Qed.

Section Order.
Context (b : exprBlock) (vals : cells).

Definition clause_on (it : cells) (kb : string * string) : res (heap * expr_error) cells :=
  '(_, o) ← clause full b vals ([], it) kb; Ok o.

Lemma clause_nil it kb h o : clause full b vals ([], it) kb = Ok (h, o) → h = [].
Proof. apply (keeps_to_nil (touches b kb) (λ it, clause full b vals ([], it) kb)), clause_keeps. Qed.

Lemma clause_on_run it kbs : run_clauses full b vals ([], it) kbs = o ← foldM clause_on kbs it; Ok ([], o).
Proof.
  unfold run_clauses. revert it. induction kbs as [|kb kbs IH]; intros it; [done|]. rewrite !foldM_cons.
  change (clause_on it kb) with ('(_, o) ← clause full b vals ([], it) kb; Ok o).
  destruct (clause full b vals ([], it) kb) as [[h o]|e] eqn:E; [|done]. apply clause_nil in E as ->. apply IH.
Qed.

Lemma run_clauses_perm it k1 k2 r : k1 ≡ₚ k2 → NoDup k1.*1 → (∀ x y, x ∈ k1 → y ∈ k1 → x.1 ≠ y.1 → apart b x y) →
  run_clauses full b vals ([], it) k1 = Ok r → run_clauses full b vals ([], it) k2 = Ok r.
Proof.
  intros Hp Hnd Hap. rewrite !clause_on_run. intros (o & Ho & [= <-])%res_bind_Ok.
  rewrite (foldM_perm clause_on fst (λ x, x ∈ k1) k1 k2 it o Hp Hnd); [done|by apply Forall_forall| |done].
  intros x y a q Hx Hy Hne H. apply res_bind_Ok in H as (a1 & H1 & H2). unfold clause_on in H1, H2.
  apply res_bind_Ok in H1 as ([h1 o1] & E1 & [= <-]). apply res_bind_Ok in H2 as ([h2 o2] & E2 & [= <-]).
  pose proof (clause_nil _ _ _ _ E1) as ->. pose proof (clause_nil _ _ _ _ E2) as ->.
  assert (K : (st ← clause full b vals ([], a) y; clause full b vals st x) = Ok ([], o2))
    by (apply clauses_commute; [by apply Hap|by rewrite E1]).
  apply res_bind_Ok in K as ([h o'] & E3 & E4). pose proof (clause_nil _ _ _ _ E3) as ->.
  assert (Ey : clause_on a y = Ok o') by (unfold clause_on; by rewrite E3). rewrite Ey. cbn [mbind res_bind]. unfold clause_on. by rewrite E4.
Qed.
End Order.

(** The clauses of an expression touch different attributes. *)
Definition independent (b : exprBlock) : Prop :=
  ∀ k1 b1 k2 b2, splitClauses (bExpr b) !! k1 = Some b1 → splitClauses (bExpr b) !! k2 = Some b2 → k1 ≠ k2 →
    apart b (k1, b1) (k2, b2).

Lemma applyUpdate_any_order it b order1 order2 r :
  (∀ m, order1 m ≡ₚ map_to_list m) → (∀ m, order2 m ≡ₚ map_to_list m) → independent b →
  applyUpdate full order1 [] it b = Ok r → applyUpdate full order2 [] it b = Ok r.
Proof.
  intros H1 H2 Hi. unfold applyUpdate. rewrite hold_all_full.
  assert (Hin : ∀ kb, kb ∈ order1 (splitClauses (bExpr b)) → splitClauses (bExpr b) !! kb.1 = Some kb.2).
  { intros [k v]. rewrite H1. apply elem_of_map_to_list. }
  apply run_clauses_perm.
  - by rewrite H1, H2.
  - rewrite H1. apply NoDup_fst_map_to_list.
  - intros [x x'] [y y'] Hx%Hin Hy%Hin Hne. by apply Hi.
Qed.
