(* ===== verification/DynUpdateAlias.v ===== *)
(** * When shared arrays make no difference to an update

    The append of dynamodb/expr.go writes into the array of the list it extends.  An update that extends
    one list at most computes what it would on plain values. *)

From stdpp Require Import gmap.
From S2P Require Import Prelude GoStrings DynUpdate DynUpdateSpec.
#[local] Open Scope string_scope.
#[local] Open Scope nat_scope.
#[local] Open Scope list_scope.

(** ** Slices of a heap *)

Definition wf_cell (h : heap) (c : cell) : Prop :=
  match c with Plain _ => True | Slice a n => ∃ xs, h !! a = Some xs ∧ n ≤ length xs end.
Definition flat (h : heap) (c : cell) : cell := Plain (read h c).

(** [d] is no longer than [c] when they share an array. *)
Definition within (c d : cell) : Prop := ∀ a n m, c = Slice a n → d = Slice a m → m ≤ n.
(** What was held is held unchanged. *)
Definition same (h h' : heap) (d : cell) : Prop := read h' d = read h d ∧ wf_cell h' d.

Section Alias.
Context (room : list any → nat).

Lemma alloc_same h l d : wf_cell h d → same h (alloc room h l).1 d.
Proof.
  unfold alloc. destruct (room l); [done|]. cbn. destruct d as [v|a m]; [done|]. intros (xs & Hx & Hm). unfold same, read, wf_cell, array.
  rewrite !lookup_app_l by (by eapply lookup_lt_Some). split; [done|]. by exists xs.
Qed.
Lemma alloc_read h l : read (alloc room h l).1 (alloc room h l).2 = AList l ∧ wf_cell (alloc room h l).1 (alloc room h l).2.
Proof.
  unfold alloc. destruct (room l) as [|n]; [done|]. cbn. unfold array. rewrite lookup_app_r, Nat.sub_diag by lia. cbn.
  split; [by rewrite take_app_length|]. eexists. split; [done|]. rewrite length_app. lia.
Qed.

Lemma append_same h c ys d : wf_cell h c → wf_cell h d → within c d → same h (append_list room h c ys).1 d.
Proof.
  intros Hc Hd Hw. unfold append_list. destruct c as [v|a n].
  { destruct ys; [done|]. by apply alloc_same. }
  case_match eqn:E; [|by apply alloc_same]. cbn [fst]. destruct Hc as (xs & Hx & Hn). apply Nat.leb_le in E.
  unfold array in *. rewrite Hx in *. cbn [default from_option id] in *. destruct d as [v|a' m]; [done|]. destruct Hd as (xs' & Hx' & Hm).
  unfold same, read, wf_cell, array. destruct (decide (a = a')) as [<-|Hne].
  - assert (Hmn : m ≤ n) by (by apply (Hw a)). rewrite list_lookup_insert_eq by (by eapply lookup_lt_Some). rewrite Hx. cbn [default from_option id].
    split.
    + f_equal. rewrite take_app_le by (rewrite length_take; lia). rewrite take_take. f_equal. lia.
    + eexists. split; [done|]. rewrite !length_app, length_take, length_drop. lia.
  - rewrite list_lookup_insert_ne by done. split; [done|]. by exists xs'.
Qed.

Lemma append_read h c ys : wf_cell h c →
  read (append_list room h c ys).1 (append_list room h c ys).2 = AList (toList (read h c) ++ ys) ∧
  wf_cell (append_list room h c ys).1 (append_list room h c ys).2.
Proof.
  intros Hc. unfold append_list. destruct c as [v|a n].
  { destruct ys; [by rewrite app_nil_r|]. apply alloc_read. }
  destruct Hc as (xs & Hx & Hn). unfold array. rewrite Hx. cbn [default from_option id read].
  case_match eqn:E; [|by unfold array; rewrite Hx; apply alloc_read]. apply Nat.leb_le in E. cbn [fst snd].
  unfold read, wf_cell, array. rewrite list_lookup_insert_eq by (by eapply lookup_lt_Some). rewrite Hx. cbn [default from_option id toList]. split.
  - f_equal. rewrite app_assoc. apply take_app_length'. rewrite length_app, length_take. lia.
  - eexists. split; [done|]. rewrite !length_app, length_take, length_drop. lia.
Qed.

Lemma append_full_plain v ys : append_list full [] (Plain v) ys = ([], Plain (AList (toList v ++ ys))).
Proof. destruct ys; cbn; [by rewrite app_nil_r|done]. Qed.

(** ** A state and its plain values *)

Section Block.
Context (b : exprBlock).

Definition held (it vals : cells) (c : cell) : Prop := (∃ n, it !! n = Some c) ∨ (∃ n, vals !! n = Some c).
Definition tight (it vals : cells) : Prop := ∀ c d, held it vals c → held it vals d → within c d.

(** [k] more lists may be extended. *)
Record sim (k : nat) (h : heap) (it vals : cells) : Prop := mkSim {
  sim_wf : ∀ c, held it vals c → wf_cell h c;
  sim_tight : 0 < k → tight it vals;
}.

(** A cell of the state, or one with no array. *)
Definition known (it vals : cells) (c : cell) : Prop := held it vals c ∨ ∃ v, c = Plain v.

Lemma known_wf k h it vals c : sim k h it vals → known it vals c → wf_cell h c.
Proof. intros [Hw _] [H|[v ->]]; [by apply Hw|done]. Qed.
Lemma known_within k h it vals c d : sim k h it vals → 0 < k → known it vals c → held it vals d → within c d.
Proof. intros [_ Ht] Hk [H|[v ->]] Hd; [by apply Ht|]. by intros a n m [=]. Qed.

Lemma value_cell_flat h vals it tok :
  value_cell (flat h <$> vals) tok = flat h <$> value_cell vals tok ∧ ∀ c, value_cell vals tok = Ok c → known it vals c.
Proof.
  unfold value_cell. case_match.
  - rewrite lookup_fmap. destruct (vals !! tok) as [c|] eqn:E; [|done]. split; [done|]. intros ? [= <-]. left. right. by exists tok.
  - case_match; [|done]. split; [done|]. intros ? [= <-]. right. by eexists.
Qed.
Lemma operand_flat h vals it tok :
  operand b (flat h <$> vals) (flat h <$> it) tok = flat h <$> operand b vals it tok ∧ ∀ c, operand b vals it tok = Ok c → known it vals c.
Proof.
  unfold operand. case_match; [apply value_cell_flat|]. case_match; [split; [done|]; intros ? [= <-]; right; by eexists|].
  destruct (attrName b tok) as [n|]; [|done]. cbn. rewrite lookup_fmap. destruct (it !! n) as [c|] eqn:E; cbn; split; try done; intros ? [= <-].
  - left. left. by exists n.
  - right. by eexists.
Qed.
Lemma operandNum_flat h vals it tok : operandNum b (flat h <$> vals) [] (flat h <$> it) tok = operandNum b vals h it tok.
Proof. unfold operandNum. rewrite (proj1 (operand_flat h vals it tok)). by destruct (operand b vals it tok). Qed.

(** Whether a right-hand side extends a list. *)
Definition extends (rhs : string) : bool := EqualFold (default "" (head (tokenize rhs))) "list_append".
Definition cost (b : bool) : nat := if b then 1 else 0.

(** A step with a new cell for an attribute, next to the same step on plain values. *)
Definition tracks (k : nat) (h : heap) (it vals : cells) (h' : heap) (c : cell) : Prop :=
  wf_cell h' c ∧ (∀ d, held it vals d → same h h' d) ∧ (0 < k → h' = h ∧ known it vals c).

Lemma append_tracks h it vals c ys : sim 1 h it vals → known it vals c →
  tracks 0 h it vals (append_list room h c ys).1 (append_list room h c ys).2.
Proof.
  intros Hs Hc. pose proof (known_wf _ _ _ _ _ Hs Hc) as Hw. split_and!; [by apply append_read| |lia].
  intros d Hd. apply append_same; [done|by apply Hs|]. eapply known_within; [exact Hs|lia|done|done].
Qed.
Lemma known_tracks k h it vals c : sim k h it vals → known it vals c → tracks k h it vals h c.
Proof. intros Hs Hc. split_and!; [by eapply known_wf|intros d Hd; split; [done|by apply Hs]|done]. Qed.

Lemma eval_flat k h it vals rhs : sim k h it vals → cost (extends rhs) ≤ k → k ≤ 1 →
  match evalSetValue room b vals h it rhs with
  | Ok (h', c) => evalSetValue full b (flat h <$> vals) [] (flat h <$> it) rhs = Ok ([], flat h' c) ∧ tracks (k - cost (extends rhs)) h it vals h' c
  | Err e => evalSetValue full b (flat h <$> vals) [] (flat h <$> it) rhs = Err e
  end.
Proof.
  intros Hs Hk H1. unfold extends in *. unfold evalSetValue. set (toks := tokenize rhs) in *.
  destruct (EqualFold _ "if_not_exists") eqn:Ei; [|destruct (EqualFold _ "list_append") eqn:El].
  - assert (El : EqualFold (default "" (head toks)) "list_append" = false)
      by (unfold EqualFold in *; apply String.eqb_eq in Ei as ->; done).
    rewrite El in *. cbn [cost] in *. rewrite Nat.sub_0_r. destruct (two_args _ _) as [[a0 a1]|]; [|done]. cbn [mbind res_bind].
    destruct (attrName b a0) as [n|]; [|done]. cbn [mbind res_bind]. rewrite lookup_fmap.
    destruct (it !! n) as [c|] eqn:E; cbn; [split; [done|]; apply known_tracks; [done|left; left; by exists n]|].
    destruct (value_cell_flat h vals it a1) as [-> Hv]. destruct (value_cell vals a1) as [c|]; [|done]. cbn.
    split; [done|]. apply known_tracks; [done|by apply Hv].
  - cbn [cost] in *. assert (k = 1) as -> by lia. cbn [Nat.sub].
    destruct (two_args _ _) as [[a0 a1]|]; [|done]. cbn [mbind res_bind].
    destruct (operand_flat h vals it a0) as [-> H0]. destruct (operand_flat h vals it a1) as [-> _].
    destruct (operand b vals it a0) as [c|]; [|done]. destruct (operand b vals it a1) as [d|]; [|done]. cbn [mbind res_bind fmap res_fmap].
    pose proof (append_tracks h it vals c (toList (read h d)) Hs (H0 c eq_refl)) as Ht.
    pose proof (append_read h c (toList (read h d)) (known_wf _ _ _ _ _ Hs (H0 c eq_refl))) as [Hr _].
    destruct (append_list room h c (toList (read h d))) as [h' c']. cbn [fst snd] in *.
    split; [|done]. unfold flat. by rewrite append_full_plain, Hr.
  - cbn [cost]. rewrite Nat.sub_0_r. destruct toks as [|t0 [|t1 [|t2 [|]]]]; try done.
    + destruct (operand_flat h vals it t0) as [-> H0]. destruct (operand b vals it t0) as [c|]; [|done]. cbn.
      split; [done|]. apply known_tracks; [done|by apply H0].
    + rewrite !operandNum_flat. destruct (_ || _); [|done]. destruct (operandNum b vals h it t0) as [x|]; [|done].
      destruct (operandNum b vals h it t2) as [y|]; [|done]. cbn. split; [done|]. apply known_tracks; [done|]. right. by eexists.
Qed.

(** ** Steps of an update *)

(** A step that is given [c] of the budget: from a state of the simulation, the same on plain values. *)
Definition follows (vals pv : cells) (c : nat) (F G : heap * cells → res (heap * expr_error) (heap * cells)) : Prop :=
  ∀ k h it, sim k h it vals → flat h <$> vals = pv → c ≤ k → k ≤ 1 →
  match F (h, it) with
  | Ok (h', it') => G ([], flat h <$> it) = Ok ([], flat h' <$> it') ∧ sim (k - c) h' it' vals ∧ flat h' <$> vals = pv
  | Err (_, e) => G ([], flat h <$> it) = Err ([], e)
  end.

Lemma held_flat h h' it vals : (∀ d, held it vals d → same h h' d) → flat h' <$> vals = flat h <$> vals ∧ flat h' <$> it = flat h <$> it.
Proof.
  intros Hs. split; apply map_eq; intros n; rewrite !lookup_fmap; destruct (_ !! n) as [c|] eqn:E; cbn; try done;
    unfold flat; rewrite (proj1 (Hs c ltac:(first [left; by exists n|right; by exists n]))); done.
Qed.

Lemma tracks_insert k h it vals h' c n : sim k h it vals → tracks k h it vals h' c →
  sim k h' (<[n := c]> it) vals ∧ flat h' <$> vals = flat h <$> vals ∧
  flat h' <$> <[n := c]> it = <[n := flat h' c]> (flat h <$> it).
Proof.
  intros Hs (Hw & Hsame & Hk). destruct (held_flat _ _ _ _ Hsame) as [Hv Hi]. split_and!; [|done|by rewrite fmap_insert, Hi].
  assert (Hin : ∀ d, held (<[n := c]> it) vals d → d = c ∨ held it vals d).
  { intros d [[m Hm]|[m Hm]]; [|right; right; by exists m]. apply lookup_insert_Some in Hm as [[_ <-]|[_ Hm]]; [by left|].
    right. left. by exists m. }
  split.
  - intros d [->|Hd]%Hin; [done|by apply Hsame].
  - intros Hpos. destruct (Hk Hpos) as [-> Hkn]. intros d1 d2 [->|H1]%Hin [->|H2]%Hin.
    + intros a i j -> [= ->]. lia.
    + eapply known_within; [exact Hs|done..].
    + destruct Hkn as [Hc|[v ->]]; [by eapply Hs|]. intros a i j _ [=].
    + by eapply Hs.
Qed.
Lemma sim_weaken k j h it vals : j ≤ k → sim k h it vals → sim j h it vals.
Proof. intros Hj [Hw Ht]. split; [done|]. intros Hp. apply Ht. lia. Qed.

Lemma follows_foldM {X} vals pv (f g : heap * cells → X → res (heap * expr_error) (heap * cells)) (c : X → nat) l :
  (∀ x, x ∈ l → follows vals pv (c x) (λ st, f st x) (λ st, g st x)) →
  follows vals pv (sum_list_with c l) (foldM f l) (foldM g l).
Proof.
  induction l as [|x l IH]; intros Hl k h it Hs Hpv Hc Hk.
  { cbn in *. rewrite Nat.sub_0_r. done. }
  cbn [sum_list_with] in *. rewrite !foldM_cons. pose proof (Hl x ltac:(left) k h it Hs Hpv ltac:(lia) Hk) as H. cbn beta in H.
  destruct (f (h, it) x) as [[h1 o1]|[h1 e]]; [|by rewrite H]. destruct H as (Hg & Hs1 & Hv). rewrite Hg. cbn [mbind res_bind].
  pose proof (IH ltac:(intros; apply Hl; by right) (k - c x) h1 o1 Hs1 Hv ltac:(lia) ltac:(lia)) as H.
  destruct (foldM f l (h1, o1)) as [[h2 o2]|[h2 e]]; [|done]. destruct H as (Hg2 & Hs2 & Hv2).
  split; [done|]. split; [|done]. by replace (k - (c x + sum_list_with c l)) with (k - c x - sum_list_with c l) by lia.
Qed.

(** How many lists an assignment, an addition and a clause extend. *)
Definition assign_cost (text : string) : nat := cost (extends (rhs_of text)).
Definition not_a_number (tok : string) : bool :=
  match value b tok with Ok v => negb (bool_decide (is_Some (toFloat v))) | Err _ => false end.
Fixpoint add_cost (toks : list string) : nat :=
  match toks with _ :: tok :: toks => cost (not_a_number tok) + add_cost toks | _ => 0 end.
Definition clause_cost (kb : string * string) : nat :=
  if String.eqb kb.1 "SET" then sum_list_with assign_cost (splitSetAssignments kb.2)
  else if String.eqb kb.1 "ADD" then add_cost (tokenize kb.2) else 0.

Section Steps.
Context (vals pv : cells).

Lemma assign_follows text : follows vals pv (assign_cost text) (λ st, assign room b vals st text) (λ st, assign full b pv st text).
Proof.
  intros k h it Hs Hpv Hc Hk. unfold assign, fails, assign_cost, rhs_of in *. destruct (list_find _ (tokenize text)) as [[i t]|]; [|done].
  destruct i as [|i]; [done|]. case_bool_decide; [done|]. cbn [fst snd]. destruct (attrName b _) as [n|]; [|done]. cbn [mbind res_bind].
  rewrite <-Hpv. pose proof (eval_flat k h it vals _ Hs Hc Hk) as He. destruct (evalSetValue room b vals h it _) as [[h' c]|e]; [|by rewrite He].
  destruct He as [-> Ht]. cbn [mbind res_bind].
  destruct (tracks_insert _ _ _ _ _ _ n (sim_weaken k (k - cost (extends (Join (drop (S (S i)) (tokenize text)) " "))) _ _ _ ltac:(lia) Hs) Ht) as (H1 & H2 & H3).
  by rewrite H3.
Qed.

Lemma remove_follows path : follows vals pv 0 (λ st, remove b st path) (λ st, remove b st path).
Proof.
  intros k h it Hs Hpv _ _. unfold remove, fails. destruct (attrName b path) as [n|]; [|done]. cbn. rewrite Nat.sub_0_r.
  split; [by rewrite fmap_delete|]. split; [|done].
  assert (Hin : ∀ d, held (delete n it) vals d → held it vals d).
  { intros d [[m Hm]|[m Hm]]; [left|right]; exists m; [|done]. by apply lookup_delete_Some in Hm as [_ Hm]. }
  split; [intros c Hc; by apply Hs, Hin|]. intros Hp c d Hc Hd. apply (sim_tight _ _ _ _ Hs Hp); by apply Hin.
Qed.

Hypothesis Hvals : pv = Plain <$> bValues b.

Lemma value_cell_value tok : value_cell pv tok = Plain <$> value b tok.
Proof. unfold value_cell, value. rewrite Hvals, lookup_fmap. repeat case_match; try done; destruct (bValues b !! tok); naive_solver. Qed.

Lemma add_one_follows path tok :
  follows vals pv (cost (not_a_number tok)) (λ st, add_one room b vals st path tok) (λ st, add_one full b pv st path tok).
Proof.
  intros k h it Hs Hpv Hc Hk. unfold add_one, fails, not_a_number in *. destruct (attrName b path) as [n|]; [|done]. cbn [mbind res_bind fst snd].
  destruct (value_cell_flat h vals it tok) as [Hflat Hkn]. rewrite Hpv, value_cell_value in Hflat.
  rewrite value_cell_value. destruct (value b tok) as [v|e]; [|by destruct (value_cell vals tok); [|injection Hflat as ->]].
  destruct (value_cell vals tok) as [c|]; [|done]. injection Hflat as Hread. cbn [mbind res_bind fmap res_fmap read].
  rewrite <-Hread, lookup_fmap. destruct (toFloat v) as [f|] eqn:Ev.
  - rewrite bool_decide_true by eauto. cbn [negb cost]. rewrite Nat.sub_0_r.
    assert (Hx : ∀ x, sim k h (<[n := Plain (AFloat x)]> it) vals ∧ flat h <$> <[n := Plain (AFloat x)]> it = <[n := Plain (AFloat x)]> (flat h <$> it)).
    { intros x. destruct (tracks_insert k h it vals h (Plain (AFloat x)) n Hs) as (H1 & _ & H3); [|done].
      apply known_tracks; [done|right; by eexists]. }
    destruct (it !! n) as [cur|]; cbn; [destruct (toFloat (read h cur)) as [bf|]; [|done]|]; cbn;
      (split; [by rewrite (proj2 (Hx _))|split; [apply Hx|done]]).
  - rewrite bool_decide_false in Hc |- * by (intros [? [=]]). cbn [negb cost] in *. assert (k = 1) as -> by lia. cbn [Nat.sub].
    assert (Hkc : known it vals (default (Plain ANil) (it !! n))).
    { destruct (it !! n) as [c'|] eqn:E; [left; left; by exists n|right; by eexists]. }
    pose proof (append_tracks h it vals _ (toList v) Hs Hkc) as Ht.
    pose proof (append_read h _ (toList v) (known_wf _ _ _ _ _ Hs Hkc)) as [Hr _].
    destruct (append_list room h _ _) as [h' c'] eqn:Ea. cbn [fst snd] in *.
    assert (Hfull : append_list full [] (default (Plain ANil) (flat h <$> it !! n)) (toList v) = ([], flat h' c')).
    { unfold flat at 2. rewrite Hr. destruct (it !! n) as [c0|]; cbn [default from_option id fmap option_fmap option_map]; unfold flat; by rewrite append_full_plain. }
    rewrite Hfull. destruct (tracks_insert 0 h it vals h' c' n (sim_weaken 1 0 _ _ _ ltac:(lia) Hs) Ht) as (H1 & H2 & H3).
    rewrite H3, H2. done.
Qed.

Lemma add_pairs_follows toks : ∀ n l, (length l ≤ n) → l = toks →
  follows vals pv (add_cost toks) (λ st, add_pairs room b vals st toks) (λ st, add_pairs full b pv st toks).
Proof.
  intros n. revert toks. induction n as [|n IH]; intros toks l Hlen ->; destruct toks as [|p [|t toks]]; cbn in Hlen; try lia;
    try (intros k h it Hs Hpv _ _; cbn; by rewrite Nat.sub_0_r).
  intros k h it Hs Hpv Hc Hk. cbn [add_pairs add_cost] in *.
  pose proof (add_one_follows p t k h it Hs Hpv ltac:(lia) Hk) as H. cbn beta in H.
  destruct (add_one room b vals (h, it) p t) as [[h1 o1]|[h1 e]]; [|by rewrite H]. destruct H as (Hg & Hs1 & Hv). rewrite Hg. cbn [mbind res_bind].
  pose proof (IH toks toks ltac:(lia) eq_refl (k - cost (not_a_number t)) h1 o1 Hs1 Hv ltac:(lia) ltac:(lia)) as H. cbn beta in H.
  destruct (add_pairs room b vals (h1, o1) toks) as [[h2 o2]|[h2 e]]; [|done]. destruct H as (Hg2 & Hs2 & Hv2).
  split; [done|]. split; [|done]. by rewrite Nat.sub_add_distr.
Qed.

Lemma clause_follows kb : follows vals pv (clause_cost kb) (λ st, clause room b vals st kb) (λ st, clause full b pv st kb).
Proof.
  unfold clause, clause_cost. destruct (String.eqb kb.1 "SET"); [|destruct (String.eqb kb.1 "REMOVE") eqn:Er; [|destruct (String.eqb kb.1 "ADD")]].
  - apply (follows_foldM vals pv (assign room b vals) (assign full b pv) assign_cost). intros text _. apply assign_follows.
  - apply String.eqb_eq in Er as ->. pose proof (follows_foldM vals pv (remove b) (remove b) (λ _, 0) (Fields kb.2) (λ x _, remove_follows x)) as H.
    intros k h it Hs Hpv _ Hk. specialize (H k h it Hs Hpv). 
    assert (Hz : ∀ l : list string, sum_list_with (λ _, 0) l = 0) by (intros l; by induction l).
    rewrite Hz in H. apply H; lia.
  - by eapply add_pairs_follows.
  - by intros k h it _ _ _ _.
Qed.
End Steps.
End Block.

(** ** The arrays of the values *)

Definition address (c : cell) : option nat := match c with Slice a _ => Some a | Plain _ => None end.

Lemma hold_spec h v : read (hold room h v).1 (hold room h v).2 = v ∧ wf_cell (hold room h v).1 (hold room h v).2 ∧
  (∀ d, wf_cell h d → same h (hold room h v).1 d) ∧
  ∀ a, address (hold room h v).2 = Some a → length h ≤ a < length (hold room h v).1.
Proof.
  destruct v; cbn [hold]; try by split_and!. destruct (alloc_read h l) as [H1 H2]. split_and!; [done..|intros d Hd; by apply alloc_same|].
  unfold alloc. destruct (room l); [done|]. cbn. intros a [= <-]. rewrite length_app. cbn. lia.
Qed.
Lemma hold_grows h v : length h ≤ length (hold room h v).1.
Proof. destruct v; cbn; try lia. unfold alloc. destruct (room l); cbn; [|rewrite length_app]; lia. Qed.

Lemma hold_all_spec m : ∀ h, 
  Forall2 (λ kv kc, kc.1 = kv.1 ∧ read (hold_all room h m).1 kc.2 = kv.2 ∧ wf_cell (hold_all room h m).1 kc.2 ∧
             ∀ a, address kc.2 = Some a → length h ≤ a) m (hold_all room h m).2 ∧
  (∀ d, wf_cell h d → same h (hold_all room h m).1 d) ∧
  ∀ x y, x ∈ (hold_all room h m).2 → y ∈ (hold_all room h m).2 → within x.2 y.2.
Proof.
  induction m as [|[k v] m IH]; intros h; cbn [hold_all].
  { split_and!; [constructor|done|]. by intros x y ?%not_elem_of_nil. }
  destruct (hold_spec h v) as (H1 & H2 & H3 & H4). pose proof (hold_grows h v) as Hg. destruct (hold room h v) as [h1 c]. cbn [fst snd] in *.
  destruct (IH h1) as (Hall & Hsame & Hin). destruct (hold_all room h1 m) as [h2 cs]. cbn [fst snd] in *.
  destruct (Hsame c H2) as [Hc1 Hc2]. split_and!.
  - constructor; cbn; [split_and!; [done|by rewrite Hc1|done|intros a Ha; by apply H4]|].
    eapply Forall2_impl; [exact Hall|]. intros x y (E1 & E2 & E3 & E4). split_and!; try done. intros a Ha. apply E4 in Ha. lia.
  - intros d Hd. destruct (H3 d Hd) as [E1 E2]. destruct (Hsame d E2) as [E3 E4]. split; [by rewrite E3|done].
  - assert (Hnew : ∀ z, z ∈ cs → ∀ a, address c = Some a → address z.2 = Some a → False).
    { intros z Hz a Ha1 Ha2. apply H4 in Ha1. apply list_elem_of_lookup in Hz as [i Hz].
      destruct (Forall2_lookup_r _ _ _ _ _ Hall Hz) as (w & _ & _ & _ & _ & E). apply E in Ha2. lia. }
    intros x y [->|Hx]%elem_of_cons [->|Hy]%elem_of_cons a i j Ei Ej; cbn in *; subst.
    + injection Ej as ->. lia.
    + exfalso. eapply (Hnew y Hy a); [done|by rewrite Ej].
    + exfalso. eapply (Hnew x Hx a); [done|by rewrite Ei].
    + by eapply (Hin x y Hx Hy).
Qed.

Lemma flat_list_to_map h (m : list (string * any)) (cs : list (string * cell)) :
  Forall2 (λ kv kc, kc.1 = kv.1 ∧ read h kc.2 = kv.2) m cs → flat h <$> (list_to_map cs : cells) = Plain <$> list_to_map m.
Proof.
  induction 1 as [|[k v] [k' c] m cs [E1 E2] _ IH]; [by rewrite !list_to_map_nil, !fmap_empty|]. cbn [fst snd] in *. subst.
  by rewrite !list_to_map_cons, !fmap_insert, IH.
Qed.

Definition wf_item (h : heap) (it : cells) : Prop := sim 1 h it ∅.

Lemma hold_all_sim h it m : wf_item h it → NoDup m.*1 →
  sim 1 (hold_all room h m).1 it (list_to_map (hold_all room h m).2) ∧
  flat (hold_all room h m).1 <$> (list_to_map (hold_all room h m).2 : cells) = Plain <$> list_to_map m ∧
  flat (hold_all room h m).1 <$> it = flat h <$> it.
Proof.
  intros Hs Hnd. destruct (hold_all_spec m h) as (Hall & Hsame & Hin). set (h' := (hold_all room h m).1) in *. set (cs := (hold_all room h m).2) in *.
  assert (Hk : cs.*1 = m.*1).
  { clear -Hall. induction Hall as [|kv kc m1 cs1 [E _] _ IH]; [done|]. cbn. by rewrite E, IH. }
  assert (Hit : ∀ c n, it !! n = Some c → wf_cell h c) by (intros c n Hc; eapply sim_wf; [exact Hs|left; by exists n]).
  assert (Hheld : ∀ c, held it (list_to_map cs) c → (∃ n, it !! n = Some c) ∨ ∃ n, (n, c) ∈ cs).
  { intros c [[n Hc]|[n Hc]]; [left; by exists n|]. right. exists n. by apply elem_of_list_to_map_2. }
  assert (Hcs : ∀ n c, (n, c) ∈ cs → wf_cell h' c ∧ ∀ a, address c = Some a → length h ≤ a).
  { intros n c Hc. apply list_elem_of_lookup in Hc as [i Hc]. by destruct (Forall2_lookup_r _ _ _ _ _ Hall Hc) as (w & _ & _ & _ & Hw & E). }
  split_and!.
  - split.
    + intros c [[n Hc]|[n Hc]]%Hheld; [by apply Hsame, (Hit c n)|by eapply Hcs].
    + intros _ c d Hc Hd. apply Hheld in Hc as [[n Hc]|[n Hc]]; apply Hheld in Hd as [[k Hd]|[k Hd]].
      * apply (sim_tight _ _ _ _ Hs); [lia|left; by exists n|left; by exists k].
      * intros a i j -> ->. destruct (Hit _ _ Hc) as (xs & Hx & _). apply lookup_lt_Some in Hx.
        pose proof (proj2 (Hcs _ _ Hd) a eq_refl). lia.
      * intros a i j -> ->. destruct (Hit _ _ Hd) as (xs & Hx & _). apply lookup_lt_Some in Hx.
        pose proof (proj2 (Hcs _ _ Hc) a eq_refl). lia.
      * by apply (Hin (n, c) (k, d)).
  - apply flat_list_to_map. eapply Forall2_impl; [exact Hall|]. by intros x y (E1 & E2 & _).
  - apply map_eq. intros n. rewrite !lookup_fmap. destruct (it !! n) as [c|] eqn:E; [|done]. cbn. unfold flat.
    by rewrite (proj1 (Hsame c (Hit c n E))).
Qed.

Lemma read_flat h it : read [] <$> (flat h <$> it) = read h <$> (it : cells).
Proof. rewrite <-map_fmap_compose. by apply map_fmap_ext. Qed.

Lemma applyUpdate_flat order h it b :
  wf_item h it → sum_list_with (clause_cost b) (order (splitClauses (bExpr b))) ≤ 1 →
  shown (applyUpdate room order h it b) = shown (applyUpdate full order [] (flat h <$> it) b).
Proof.
  intros Hw Hc. unfold applyUpdate. rewrite hold_all_full.
  destruct (hold_all_sim h it (map_to_list (bValues b)) Hw (NoDup_fst_map_to_list _)) as (Hs & Hv & Hi).
  destruct (hold_all room h (map_to_list (bValues b))) as [h1 cs]. cbn [fst snd] in *.
  set (vals := list_to_map cs : cells) in *. rewrite list_to_map_to_list in Hv.
  assert (Hpv : list_to_map (map (λ kv : string * any, (kv.1, Plain kv.2)) (map_to_list (bValues b))) = Plain <$> bValues b).
  { rewrite <-(list_to_map_to_list (bValues b)) at 2. symmetry. rewrite <-list_to_map_fmap. f_equal. }
  rewrite Hpv, <-Hi. unfold run_clauses.
  pose proof (follows_foldM vals (Plain <$> bValues b) (clause room b vals) (clause full b (Plain <$> bValues b)) (clause_cost b)
    (order (splitClauses (bExpr b))) (λ kb _, clause_follows b vals _ eq_refl kb) 1 h1 it Hs Hv Hc (le_n _)) as H.
  destruct (foldM (clause room b vals) _ (h1, it)) as [[h2 it2]|[h2 e]]; [|by rewrite H].
  destruct H as (Hg & _ & _). rewrite Hg. cbn. by rewrite read_flat.
Qed.

End Alias.

Lemma plain_wf h (m : item) : wf_item h (Plain <$> m).
Proof.
  assert (Hh : ∀ c, held (Plain <$> m) ∅ c → ∃ v, c = Plain v).
  { intros c [[n Hc]|[n Hc]]; [|by rewrite lookup_empty in Hc]. rewrite lookup_fmap in Hc. destruct (m !! n) as [v|]; [|done].
    injection Hc as <-. by eexists. }
  split; [intros c [v ->]%Hh; done|]. intros _ c d [v ->]%Hh _ a n k [=].
Qed.

Definition apart_all (b : exprBlock) (l : list (string * string)) : bool :=
  forallb (λ x, forallb (λ y, String.eqb x.1 y.1 || forallb (λ n, negb (bool_decide (n ∈ touches b y))) (touches b x)) l) l.
Lemma apart_all_spec b : apart_all b (map_to_list (splitClauses (bExpr b))) = true → independent b.
Proof.
  intros H k1 b1 k2 b2 H1 H2 Hne n Hn1 Hn2. unfold apart_all in H. rewrite forallb_forall in H.
  specialize (H (k1, b1) ltac:(by apply list_elem_of_In, elem_of_map_to_list)). rewrite forallb_forall in H.
  specialize (H (k2, b2) ltac:(by apply list_elem_of_In, elem_of_map_to_list)). cbn [fst] in H.
  rewrite (proj2 (String.eqb_neq _ _) Hne), orb_false_l, forallb_forall in H.
  specialize (H n ltac:(by apply list_elem_of_In)). by rewrite bool_decide_true in H.
Qed.

Definition rename_it : item := {["version" := num 1; "stale" := AStr "x"; "tags" := AList [AStr "a"]]}.
Definition rename_block : exprBlock :=
  mkBlock "SET #n = :name, version = version + :one, tags = list_append(tags, :t) REMOVE stale" {["#n" := "name"]}
    {[":name" := AStr "Alice2"; ":one" := num 1; ":t" := AList [AStr "b"]]}.
