(* ===== verification/DynGuard.v ===== *)
(** * Conditional updates

    What an UpdateItem that succeeds has checked and left: its condition is met on the item that was read,
    every clause is one that is supported, and the attributes of the key are those of the request. *)

From stdpp Require Import gmap.
From S2P Require Import Prelude GoStrings DynCond DynUpdate DynUpdateSpec DynUpdateAlias.
#[local] Open Scope string_scope.
#[local] Open Scope nat_scope.
#[local] Open Scope list_scope.

Section Guard.
Context (format_float : spec_float → string) (room : list any → nat) (order : gmap string string → list (string * string)).

(** The item meets the condition of the operation, if it has one. *)
Definition guarded (it : item) (op : item) (v : bool) : Prop :=
  ∃ b c, readBlock format_float op "condition" = Ok (Some b) ∧ derives LOr (tokenize (bExpr b)) c ∧ eval format_float it b c = Ok v.

Lemma checked_Ok it op b : checked_update format_float it op = Ok b →
  (readBlock format_float op "condition" = Ok None ∨ guarded it op true) ∧ readBlock format_float op "update" = Ok (Some b).
Proof.
  unfold checked_update. intros (cond & Hc & H)%res_bind_Ok. apply res_bind_Ok in H as ([] & Hp & H).
  apply res_bind_Ok in H as (upd & Hu & H). destruct upd; [|done]. injection H as ->. split; [|done].
  destruct cond as [c|]; [right|by left]. apply res_bind_Ok in Hp as ([] & He & [=]).
  destruct (evalBool_sound _ _ _ _ He) as (d & Hd & Hv). by exists c, d.
Qed.

Lemma checked_false it op : guarded it op false → checked_update format_float it op = Err ConditionalCheckFailed.
Proof.
  intros (b & c & Hb & Hd & Hv). unfold checked_update. rewrite Hb. cbn [mbind res_bind].
  by rewrite (evalBool_derived _ _ _ _ Hd), Hv.
Qed.

Lemma foldM_Ok_elem {E A B} (f : A → B → res E A) l a r x : foldM f l a = Ok r → x ∈ l → ∃ a' a'', f a' x = Ok a''.
Proof.
  revert a. induction l as [|y l IH]; intros a; [intros _ Hx; by apply not_elem_of_nil in Hx|]. rewrite foldM_cons.
  intros (a1 & H1 & H2)%res_bind_Ok [->|Hx]%elem_of_cons; [by exists a, a1|exact (IH a1 H2 Hx)].
Qed.

Lemma put_key_other it key k : k ∉ key.*1 → put_key it key !! k = it !! k.
Proof.
  revert it. induction key as [|[k' c'] key IH]; intros it Hk; [done|]. cbn in Hk. apply not_elem_of_cons in Hk as [Hne Hk].
  change (put_key (<[k' := c']> it) key !! k = it !! k). by rewrite IH, lookup_insert_ne.
Qed.
Lemma put_key_lookup it key k c : NoDup key.*1 → (k, c) ∈ key → put_key it key !! k = Some c.
Proof.
  revert it. induction key as [|[k' c'] key IH]; intros it Hnd Hin; [by apply not_elem_of_nil in Hin|].
  cbn in Hnd. apply NoDup_cons in Hnd as [Hn Hnd]. change (put_key (<[k' := c']> it) key !! k = Some c).
  apply elem_of_cons in Hin as [[= <- <-]|Hin]; [|by apply IH]. by rewrite put_key_other, lookup_insert_eq.
Qed.

(** C24: an UpdateItem whose condition does not hold of the item that was read fails with that and changes
    nothing; and one that succeeds had no condition or one that held, ran only the clauses SET, REMOVE and ADD,
    and leaves under each attribute of the key its value of the request, whatever the clauses assigned. *)
Theorem update_guarded h it key op :
  (∀ m, order m ≡ₚ map_to_list m) → NoDup key.*1 →
  (guarded (read h <$> it) op false → updateItem format_float room order h it key op = Err (h, ConditionalCheckFailed)) ∧
  ∀ h' it', updateItem format_float room order h it key op = Ok (h', it') →
    (readBlock format_float op "condition" = Ok None ∨ guarded (read h <$> it) op true) ∧
    (∃ b, readBlock format_float op "update" = Ok (Some b) ∧
       ∀ k, is_Some (splitClauses (bExpr b) !! k) → k ∈ ["SET"; "REMOVE"; "ADD"]) ∧
    Forall (λ kv, (read h' <$> it') !! kv.1 = Some kv.2) key.
Proof.
  intros Ho Hnd. split; [intros Hg; unfold updateItem; by rewrite (checked_false _ _ Hg)|].
  intros h' it' H. unfold updateItem in H. destruct (checked_update _ _ _) as [b|e] eqn:Ec; [|done]. cbn [fails mbind res_bind] in H.
  apply checked_Ok in Ec as [Hc Hb]. apply res_bind_Ok in H as ([h1 it1] & Hu & H).
  destruct (hold_all_spec room key h1) as (Hall & _ & _). destruct (hold_all room h1 key) as [h2 cs]. injection H as <- <-. cbn [fst snd] in Hall.
  split_and!; [done| |].
  - exists b. split; [done|]. intros k [body Hk]. unfold applyUpdate, run_clauses in Hu.
    destruct (hold_all room h (map_to_list (bValues b))) as [h0 vals].
    assert (Hin : (k, body) ∈ order (splitClauses (bExpr b))) by (rewrite Ho; by apply elem_of_map_to_list).
    destruct (foldM_Ok_elem _ _ _ _ _ Hu Hin) as (st & st' & Hs). unfold clause in Hs. cbn [fst] in Hs.
    destruct (String.eqb_spec k "SET") as [->|_]; [set_solver|]. destruct (String.eqb_spec k "REMOVE") as [->|_]; [set_solver|].
    destruct (String.eqb_spec k "ADD") as [->|_]; [set_solver|done].
  - assert (Hk : cs.*1 = key.*1) by (clear -Hall; induction Hall as [|kv kc l l' [E _] _ IH]; [done|]; cbn; by rewrite E, IH).
    apply Forall_forall. intros kv Hin. apply list_elem_of_lookup in Hin as [i Hi].
    destruct (Forall2_lookup_l _ _ _ _ _ Hall Hi) as ([k c] & Hi' & E & Hr & _). cbn [fst snd] in *. subst.
    rewrite lookup_fmap, (put_key_lookup _ cs kv.1 c); [cbn; by rewrite <-Hr| |by eapply list_elem_of_lookup_2]. by rewrite Hk.
Qed.
End Guard.

(** A counter that is moved on only from the version that was read; the update also assigns its key. *)
Definition counter_op (seen : Z) : item :=
  {["condition" := AMap [("expression", AStr "version = :seen"); ("expressionValues", AMap [(":seen", AMap [("N", AStr (FormatInt seen))])])];
    "update" := AMap [("expression", AStr "SET version = version + 1, id = :x"); ("expressionValues", AMap [(":x", AMap [("S", AStr "other")])])]]}.
Definition counter_it : cells := {["id" := Plain (AStr "c"); "version" := Plain (num 4)]}.
Definition update_counter (seen : Z) : res (heap * expr_error) (heap * cells) :=
  updateItem (λ _, "") (λ _, 0%nat) map_to_list [] counter_it [("id", AStr "c")] (counter_op seen).

Example update_guarded_witness :
  update_counter 3 = Err ([], ConditionalCheckFailed) ∧
  ∀ h' it', update_counter 4 = Ok (h', it') → guarded (λ _, "") (read [] <$> counter_it) (counter_op 4) true.
Proof.
  pose proof (update_guarded (λ _, "") (λ _, 0%nat) map_to_list [] counter_it [("id", AStr "c")]) as H. split.
  - apply (H (counter_op 3)); [done|by apply NoDup_singleton|]. exists (mkBlock "version = :seen" ∅ {[":seen" := num 3]}), (CCmp "version" "=" ":seen").
    split_and!; [vm_compute; done|apply D_or_and, D_and_unary, D_cmp; done|vm_compute; done].
  - intros h' it' E. destruct (H (counter_op 4) ltac:(done) (NoDup_singleton _)) as [_ H4].
    destruct (H4 h' it' E) as ([Hn|Hg] & _ & _); [by vm_compute in Hn|exact Hg].
Defined.

Example update_counter_ex : shown (update_counter 4) = Ok {["id" := AStr "c"; "version" := num 5]}.
Proof. vm_compute. done. Qed.
