(* ===== verification/DynQuery.v ===== *)
(** * DynamoDB queries, scans and the store (dynamodb/expr.go, dynamodb.go)

    The key condition of a Query, its order and its pages, the pages of a Scan, and the store of a table in
    memory, whose Execute is every operation. *)

From stdpp Require Import gmap sorting.
From S2P Require Import Prelude GoStrings.
From S2P Require Export DynUpdate.
#[local] Open Scope string_scope.
#[local] Open Scope Z_scope.
#[local] Open Scope list_scope.

(** ** The key condition *)

(** [between]: an AND that belongs to a BETWEEN is to come. *)
Fixpoint split_and (toks : list string) (buf : list string) (depth : Z) (between : bool) : list string :=
  match toks with
  | [] => match buf with [] => [] | _ => [Join buf " "] end
  | t :: toks =>
      let depth := if String.eqb t "(" then depth + 1 else if String.eqb t ")" then depth - 1 else depth in
      let between := between || EqualFold t "BETWEEN" in
      if (depth =? 0) && EqualFold t "AND" then
        if between then split_and toks (buf ++ [t]) depth false
        else Join buf " " :: split_and toks [] depth between
      else split_and toks (buf ++ [t]) depth between
  end.
Definition splitOnAnd (expr : string) : list string := split_and (tokenize expr) [] 0 false.

(** A BETWEEN after the first token, with three tokens after it: where it is. *)
Fixpoint find_between (i : nat) (toks : list string) : option nat :=
  match toks with
  | [] => None
  | t :: toks => if EqualFold t "BETWEEN" && (1 <=? i)%nat && (3 <=? length toks)%nat then Some i else find_between (S i) toks
  end.

Section Query.
(** The %v form of a float64, and the conversion to int of one outside int64. *)
Context (format_float : spec_float → string) (overflow : spec_float → Z).
#[local] Abbreviation Sprint := (Sprint format_float).
#[local] Abbreviation cmpVals := (cmpVals format_float).

(** Whether an item meets one term, and the attribute the term compares. *)
Definition evalKeyPart (it : item) (b : exprBlock) (part : string) : res expr_error (bool * string) :=
  let toks := tokenize part in
  let tok i := default "" (toks !! i) in
  if (4 <=? length toks)%nat && EqualFold (tok 0%nat) "begins_with" then
    match fnArgs toks with
    | Some [a0; a1] =>
        name ← attrName b a0; v ← value b a1;
        Ok (HasPrefix (Sprint (attr it name)) (Sprint v), name)
    | _ => Err (BadCall "begins_with")
    end
  else
    match find_between 0 toks with
    | Some i =>
        name ← attrName b (tok 0%nat); lo ← value b (tok (i + 1)%nat); hi ← value b (tok (i + 3)%nat);
        Ok ((0 <=? cmpVals (attr it name) lo) && (cmpVals (attr it name) hi <=? 0), name)
    | None =>
        match toks with
        | [path; op; val] =>
            name ← attrName b path; v ← value b val;
            ok ← compare format_float (attr it name) op v; Ok (ok, name)
        | _ => Err (UnsupportedTerm part)
        end
    end.

(** The terms from the left, up to one the item does not meet; with it the last attribute compared. *)
Fixpoint match_parts (it : item) (b : exprBlock) (parts : list string) (sortKey : string) : res expr_error (bool * string) :=
  match parts with
  | [] => Ok (true, sortKey)
  | p :: parts =>
      '(ok, sk) ← evalKeyPart it b (TrimSpace p);
      let sortKey := if String.eqb sk "" then sortKey else sk in
      if (ok : bool) then match_parts it b parts sortKey else Ok (false, sortKey)
  end.
Definition matchKeyCondition (it : item) (b : exprBlock) : res expr_error (bool * string) :=
  match_parts it b (splitOnAnd (bExpr b)) "".

(** ** The order of the results *)

(** The insertion sort sort.SliceStable runs on what is no longer than a block; on a longer slice, under a
    strict weak order, what it gives is the same: the one sorted list that keeps the order of equals. *)
Fixpoint insert_from_right {A} (less : A → A → bool) (x : A) (rl : list A) : list A :=
  match rl with
  | [] => [x]
  | y :: rl => if less x y then y :: insert_from_right less x rl else x :: y :: rl
  end.
Definition SliceStable {A} (less : A → A → bool) (l : list A) : list A :=
  rev (foldl (λ rl x, insert_from_right less x rl) [] l).

Definition less_by (sortKey : string) (forward : bool) (x y : item) : bool :=
  let c := cmpVals (attr x sortKey) (attr y sortKey) in if forward then c <? 0 else 0 <? c.

(** ** Pages *)

Record page := mkPage {
  pgItems : list item;
  pgScanned : nat;
  pgCount : nat;
  pgNext : option string;
}.

Definition decodeToken (v : option any) : Z :=
  match v with Some (AStr s) => default 0 (ParseInt s) | _ => 0 end.
Definition encodeToken (offset : Z) : string := FormatInt offset.

Definition limit_of (op : item) : Z :=
  match op !! "limit" with
  | Some v => match toFloat v with Some f => int_of_float overflow f | None => 0 end
  | None => 0
  end.

(** l[lo:hi]: what an index outside of the slice does is to panic. *)
Definition cut {A} (l : list A) (lo hi : Z) : res expr_error (list A) :=
  match slice l lo hi with Some s => Ok s | None => Err Panicked end.

(** ** Query *)

Definition meets (filter : option exprBlock) (it : item) : res expr_error bool :=
  match filter with Some f => evalBool format_float it f | None => Ok true end.

(** One candidate: the items matched so far, and the attribute to order by. *)
Definition candidate (kc : exprBlock) (filter : option exprBlock) (st : list item * string) (it : item) : res expr_error (list item * string) :=
  '(ok, sk) ← matchKeyCondition it kc;
  let sortKey := if String.eqb sk "" then st.2 else sk in
  if negb ok then Ok (st.1, sortKey)
  else fok ← meets filter it; Ok (if (fok : bool) then st.1 ++ [it] else st.1, sortKey).

(** The candidates that are matched, in order. *)
Definition select (candidates : list item) (op : item) : res expr_error (list item) :=
  kc ← readBlock format_float op "query";
  match kc with
  | None => Err QueryRequired
  | Some kc =>
      filter ← readBlock format_float op "filter";
      '(matched, sortKey) ← foldM (candidate kc filter) candidates ([], "");
      let forward := match op !! "scanIndexForward" with Some (ABool v) => v | _ => true end in
      Ok (if String.eqb sortKey "" then matched else SliceStable (less_by sortKey forward) matched)
  end.

(** The page of what is matched. *)
Definition query_page (scanned : nat) (matched : list item) (op : item) : res expr_error page :=
  let n := len matched in
  let start := decodeToken (op !! "nextToken") in
  let start := if (start <? 0) || (n <? start) then 0 else start in
  let limit := limit_of op in
  let stop := if (0 <? limit) && (int64 (start + limit) <? n) then int64 (start + limit) else n in
  items ← cut matched start stop;
  Ok (mkPage items scanned (length items) (if stop <? n then Some (encodeToken stop) else None)).

Definition runQuery (candidates : list item) (op : item) : res expr_error page :=
  matched ← select candidates op;
  query_page (length candidates) matched op.

(** ** Scan *)

Definition scanDefaultLimit : Z := 1000.

Definition scan_limit (op : item) : Z :=
  match op !! "limit" with
  | Some v => match toFloat v with
              | Some l => if SFltb (S754_zero false) l then int_of_float overflow l else 0
              | None => 0
              end
  | None => 0
  end.

Definition pageScanResult (all : list item) (op : item) : res expr_error page :=
  let countOnly := match op !! "select" with Some (AStr s) => String.eqb s "COUNT" | _ => false end in
  let n := len all in
  let offset := decodeToken (op !! "nextToken") in
  let offset := if (offset <? 0) || (n <? offset) then 0 else offset in
  let limit := scan_limit op in
  if countOnly && (limit <=? 0) && (offset =? 0) then Ok (mkPage [] (length all) (length all) None)
  else
    let size := if limit <=? 0 then scanDefaultLimit else limit in
    let stop := int64 (offset + size) in
    let stop := if n <? stop then n else stop in
    sl ← cut all offset stop;
    Ok (mkPage (if countOnly then [] else sl) (length sl) (length sl) (if stop <? n then Some (encodeToken stop) else None)).

(** ** The store *)

(** encoding/json on a float64, the room of a list's new array, and the order of a map of clauses. *)
Context (json_float : spec_float → option string) (room : list any → nat)
  (order : gmap string string → list (string * string)).

Record MemStore := mkStore {
  stHeap : heap;
  stItems : gmap string cells;
}.

Inductive answer := AItem (it : option item) | APage (p : page).

Definition sortedKeys (s : MemStore) : list string := merge_sort string_le (elements (dom (stItems s))).
Definition show (s : MemStore) (it : cells) : item := read (stHeap s) <$> it.
(** The items by ascending key. *)
Definition all_items (s : MemStore) : list item := omap (λ k, show s <$> (stItems s !! k)) (sortedKeys s).

(** The key of the operation, and its identity. *)
Definition op_key (op : item) : list (string * any) := PlainKey (default ANil (op !! "key")).
Definition op_id (op : item) : string := keyString json_float format_float (op_key op).

Definition Execute (s : MemStore) (op : item) : MemStore * res expr_error answer :=
  let ks := op_id op in
  let operation := match op !! "operation" with Some (AStr o) => o | _ => "" end in
  if String.eqb operation "GetItem" then (s, Ok (AItem (show s <$> (stItems s !! ks))))
  else if String.eqb operation "PutItem" then
    let it := put_item (default ANil (op !! "key")) (default ANil (op !! "attributeValues")) in
    let '(h, cs) := hold_all room (stHeap s) (map_to_list it) in
    (mkStore h (<[ks := list_to_map cs]> (stItems s)), Ok (AItem (Some it)))
  else if String.eqb operation "DeleteItem" then
    (mkStore (stHeap s) (delete ks (stItems s)), Ok (AItem (show s <$> (stItems s !! ks))))
  else if String.eqb operation "Scan" then (s, p ← pageScanResult (all_items s) op; Ok (APage p))
  else if String.eqb operation "UpdateItem" then
    match updateItem format_float room order (stHeap s) (default ∅ (stItems s !! ks)) (op_key op) op with
    | Err (h, e) => (mkStore h (stItems s), Err e)
    | Ok (h, it) => (mkStore h (<[ks := it]> (stItems s)), Ok (AItem (Some (read h <$> it))))
    end
  else if String.eqb operation "Query" then (s, p ← runQuery (all_items s) op; Ok (APage p))
  else (s, Err (NotImplemented operation)).
End Query.
