(* ===== verification/DynStore.v ===== *)
(** * The store refines a table of plain items

    What an update writes to beyond its own item, and the theorem that dynamodb's in-memory store behaves
    as a map from keys to items: no operation on one key is seen under another. *)

From stdpp Require Import gmap sorting.
From S2P Require Import Prelude GoStrings DynUpdate DynUpdateSpec DynUpdateAlias DynQuery.
#[local] Open Scope string_scope.
#[local] Open Scope nat_scope.
#[local] Open Scope list_scope.

(** ** Who owns an array *)

Section Owner.
Context (room : list any → nat) (mine : nat → Prop).

Definition own (h : heap) (c : cell) : Prop := wf_cell h c ∧ ∀ a, address c = Some a → mine a.
Definition foreign (h : heap) (d : cell) : Prop := wf_cell h d ∧ ∀ a, address d = Some a → ¬ mine a.

(** The arrays keep their length, new ones are [mine], and what is foreign reads as before. *)
Record ext (h h' : heap) : Prop := mkExt {
  ext_grow : ∀ a xs, h !! a = Some xs → ∃ xs', h' !! a = Some xs' ∧ length xs' = length xs;
  ext_foreign : ∀ d, foreign h d → same h h' d;
  ext_length : length h ≤ length h';
}.

Lemma ext_refl h : ext h h.
Proof. split; [eauto|by intros d [Hd _]|done]. Qed.
Lemma ext_trans h1 h2 h3 : ext h1 h2 → ext h2 h3 → ext h1 h3.
Proof.
  intros [G1 F1 L1] [G2 F2 L2]. split; [|intros d Hd|lia].
  - intros a xs H. destruct (G1 _ _ H) as (ys & H2 & E2). destruct (G2 _ _ H2) as (zs & H3 & E3). exists zs. by rewrite E3.
  - destruct (F1 d Hd) as [R1 W1]. destruct (F2 d (conj W1 (proj2 Hd))) as [R2 W2]. split; [by rewrite R2|done].
Qed.
Lemma wf_ext h h' c : ext h h' → wf_cell h c → wf_cell h' c.
Proof.
  intros He. destruct c as [v|a n]; [done|]. intros (xs & Hx & Hn). destruct (ext_grow _ _ He _ _ Hx) as (ys & Hy & El).
  exists ys. split; [done|]. lia.
Qed.
Lemma own_ext h h' c : ext h h' → own h c → own h' c.
Proof. intros He [Hw Hm]. split; [by eapply wf_ext|done]. Qed.

Definition new_mine (h : heap) : Prop := ∀ a, length h ≤ a → mine a.
Lemma new_mine_ext h h' : ext h h' → new_mine h → new_mine h'.
Proof. intros He H a Ha. apply H. pose proof (ext_length _ _ He). lia. Qed.

Lemma alloc_ext h l : new_mine h → ext h (alloc room h l).1 ∧ own (alloc room h l).1 (alloc room h l).2.
Proof.
  intros Hn. split.
  - split; [|intros d [Hd _]; by apply alloc_same|]; unfold alloc; destruct (room l); cbn; eauto.
    + intros a xs Ha. exists xs. by rewrite lookup_app_l by (by eapply lookup_lt_Some).
    + rewrite length_app. lia.
  - split; [apply alloc_read|]. unfold alloc. destruct (room l); cbn; [done|]. intros a [= <-]. by apply Hn.
Qed.

Lemma hold_ext h v : new_mine h → ext h (hold room h v).1 ∧ own (hold room h v).1 (hold room h v).2.
Proof. intros Hn. destruct v; cbn [hold]; try (split; [apply ext_refl|done]). by apply alloc_ext. Qed.

Lemma append_ext h c ys : new_mine h → own h c →
  ext h (append_list room h c ys).1 ∧ own (append_list room h c ys).1 (append_list room h c ys).2.
Proof.
  intros Hn [Hw Hm]. destruct c as [v|a n].
  { destruct ys; [split; [apply ext_refl|done]|by apply alloc_ext]. }
  pose proof (append_read room h (Slice a n) ys Hw) as [_ Hw']. unfold append_list in *.
  destruct (n + length ys <=? length (array h a)) eqn:E; [|by apply alloc_ext]. cbn [fst snd] in *. split; [|done].
  destruct Hw as (xs & Hx & Hle). unfold array in *. rewrite Hx in *. cbn [default from_option id] in *. apply Nat.leb_le in E. split.
  - intros a' zs Ha. destruct (decide (a = a')) as [<-|Hne]; [|rewrite list_lookup_insert_ne by done; eauto].
    rewrite list_lookup_insert_eq by (by eapply lookup_lt_Some). eexists. split; [done|].
    rewrite Hx in Ha. injection Ha as <-. rewrite !length_app, length_take, length_drop. lia.
  - intros d [Hd Hf]. destruct d as [v|a' m]; [done|]. assert (a ≠ a') by (intros <-; by eapply Hf, Hm).
    unfold same, read, wf_cell, array. rewrite list_lookup_insert_ne by done. done.
  - by rewrite length_insert.
Qed.

(** ** Steps that write to what is theirs *)

Definition owned (h : heap) (it : cells) : Prop := ∀ n c, it !! n = Some c → own h c.
Lemma owned_ext h h' it : ext h h' → owned h it → owned h' it.
Proof. intros He H n c Hc. eapply own_ext; [done|by eapply H]. Qed.
Lemma owned_insert h it n c : owned h it → own h c → owned h (<[n := c]> it).
Proof. intros H Hc m d [[_ <-]|[_ Hd]]%lookup_insert_Some; [done|by eapply H]. Qed.

(** A step from a heap whose later arrays are [mine], with [vals] at hand. *)
Definition keeps (vals : cells) (F : heap * cells → res (heap * expr_error) (heap * cells)) : Prop :=
  ∀ h it, new_mine h → owned h it → owned h vals →
  match F (h, it) with Ok (h', it') => ext h h' ∧ owned h' it' | Err (h', _) => ext h h' end.

Lemma keeps_foldM {X} vals (f : heap * cells → X → res (heap * expr_error) (heap * cells)) l :
  (∀ x, keeps vals (λ st, f st x)) → keeps vals (foldM f l).
Proof.
  intros Hf. induction l as [|x l IH]; intros h it Hn Hi Hv; [split; [apply ext_refl|done]|]. rewrite foldM_cons.
  pose proof (Hf x h it Hn Hi Hv) as H. cbn beta in H. destruct (f (h, it) x) as [[h1 o1]|[h1 e]]; [|done].
  destruct H as [He Ho]. cbn [mbind res_bind].
  pose proof (IH h1 o1 (new_mine_ext _ _ He Hn) Ho (owned_ext _ _ _ He Hv)) as H.
  destruct (foldM f l (h1, o1)) as [[h2 o2]|[h2 e]]; [destruct H as [H1 H2]; split; [by eapply ext_trans|done]|by eapply ext_trans].
Qed.

Section Block.
Context (b : exprBlock) (vals : cells).

Lemma value_cell_own h tok c : owned h vals → value_cell vals tok = Ok c → own h c.
Proof.
  intros Hv. unfold value_cell. case_match; [destruct (vals !! tok) eqn:E; [|done]|case_match; [|done]]; intros [= <-]; [by eapply Hv|done].
Qed.
Lemma operand_own h it tok c : owned h vals → owned h it → operand b vals it tok = Ok c → own h c.
Proof.
  intros Hv Hi. unfold operand. case_match; [by apply value_cell_own|]. case_match; [by intros [= <-]|].
  intros (n & _ & [= <-])%res_bind_Ok. destruct (it !! n) as [c'|] eqn:E; [by eapply Hi|done].
Qed.

Lemma eval_keeps h it rhs h' c : new_mine h → owned h it → owned h vals →
  evalSetValue room b vals h it rhs = Ok (h', c) → ext h h' ∧ own h' c.
Proof.
  intros Hn Hi Hv. unfold evalSetValue. destruct (EqualFold _ "if_not_exists"); [|destruct (EqualFold _ "list_append")].
  - intros ([a0 a1] & _ & H)%res_bind_Ok. apply res_bind_Ok in H as (n & _ & H).
    destruct (it !! n) as [x|] eqn:E; [injection H as <- <-; split; [apply ext_refl|by eapply Hi]|].
    apply res_bind_Ok in H as (x & Hx & [= <- <-]). split; [apply ext_refl|exact (value_cell_own _ _ _ Hv Hx)].
  - intros ([a0 a1] & _ & H)%res_bind_Ok. apply res_bind_Ok in H as (l1 & H1 & H). apply res_bind_Ok in H as (l2 & _ & [= H]).
    pose proof (append_ext h l1 (toList (read h l2)) Hn (operand_own _ _ _ _ Hv Hi H1)) as Ha. by rewrite H in Ha.
  - destruct (tokenize rhs) as [|t0 [|t1 [|t2 [|]]]]; try done.
    + intros (x & Hx & [= <- <-])%res_bind_Ok. split; [apply ext_refl|exact (operand_own _ _ _ _ Hv Hi Hx)].
    + destruct (_ || _); [|done]. intros (x & _ & H)%res_bind_Ok. apply res_bind_Ok in H as (y & _ & [= <- <-]).
      split; [apply ext_refl|done].
Qed.

Lemma assign_owns text : keeps vals (λ st, assign room b vals st text).
Proof.
  intros h it Hn Hi Hv. unfold assign, fails. destruct (list_find _ _) as [[[|i] t]|]; try apply ext_refl.
  case_bool_decide; [apply ext_refl|]. cbn [fst snd]. destruct (attrName b _) as [n|]; [|apply ext_refl]. cbn [mbind res_bind].
  destruct (evalSetValue room b vals h it _) as [[h' c]|] eqn:E; [|apply ext_refl]. cbn [mbind res_bind].
  destruct (eval_keeps _ _ _ _ _ Hn Hi Hv E) as [He Hc]. split; [done|]. apply owned_insert; [by eapply owned_ext|done].
Qed.
Lemma remove_owns path : keeps vals (λ st, remove b st path).
Proof.
  intros h it Hn Hi Hv. unfold remove, fails. destruct (attrName b path) as [n|]; [|apply ext_refl]. cbn. split; [apply ext_refl|].
  intros m c [_ Hc]%lookup_delete_Some. by eapply Hi.
Qed.
Lemma add_one_owns path tok : keeps vals (λ st, add_one room b vals st path tok).
Proof.
  intros h it Hn Hi Hv. unfold add_one, fails. destruct (attrName b path) as [n|]; [|apply ext_refl]. cbn [mbind res_bind fst snd].
  destruct (value_cell vals tok) as [c|]; [|apply ext_refl]. cbn [mbind res_bind]. destruct (toFloat (read h c)) as [f|].
  - destruct (it !! n) as [cur|]; [destruct (toFloat (read h cur)); [|apply ext_refl]|]; cbn; (split; [apply ext_refl|by apply owned_insert]).
  - assert (Hcur : own h (default (Plain ANil) (it !! n))) by (destruct (it !! n) as [x|] eqn:E; [by eapply Hi|done]).
    pose proof (append_ext h _ (toList (read h c)) Hn Hcur) as Ha. destruct (append_list room h _ _) as [h' c'].
    destruct Ha as [He Hc]. split; [done|]. apply owned_insert; [by eapply owned_ext|done].
Qed.
Lemma add_pairs_owns : ∀ n toks, length toks ≤ n → keeps vals (λ st, add_pairs room b vals st toks).
Proof.
  induction n as [|n IH]; intros [|p [|t toks]] Hlen; cbn in Hlen; try lia; try (intros h it Hn Hi Hv; split; [apply ext_refl|done]).
  intros h it Hn Hi Hv. cbn [add_pairs]. pose proof (add_one_owns p t h it Hn Hi Hv) as H. cbn beta in H.
  destruct (add_one room b vals (h, it) p t) as [[h1 o1]|[h1 e]]; [|done]. destruct H as [He Ho]. cbn [mbind res_bind].
  pose proof (IH toks ltac:(lia) h1 o1 (new_mine_ext _ _ He Hn) Ho (owned_ext _ _ _ He Hv)) as H. cbn beta in H.
  destruct (add_pairs room b vals (h1, o1) toks) as [[h2 o2]|[h2 e]];
    [destruct H as [H1 H2]; split; [by eapply ext_trans|done]|by eapply ext_trans].
Qed.
Lemma clause_owns kb : keeps vals (λ st, clause room b vals st kb).
Proof.
  unfold clause. destruct (String.eqb kb.1 "SET"); [|destruct (String.eqb kb.1 "REMOVE"); [|destruct (String.eqb kb.1 "ADD")]].
  - apply (keeps_foldM vals (assign room b vals)), assign_owns.
  - apply (keeps_foldM vals (remove b)), remove_owns.
  - by eapply add_pairs_owns.
  - intros h it _ _ _. apply ext_refl.
Qed.
End Block.

Lemma hold_all_owns m : ∀ h, new_mine h →
  ext h (hold_all room h m).1 ∧ Forall (λ kc, own (hold_all room h m).1 kc.2) (hold_all room h m).2.
Proof.
  induction m as [|[k v] m IH]; intros h Hn; cbn [hold_all]; [split; [apply ext_refl|constructor]|].
  destruct (hold_ext h v Hn) as [He Hc]. destruct (hold room h v) as [h1 c]. cbn [fst snd] in *.
  destruct (IH h1 (new_mine_ext _ _ He Hn)) as [He2 Hcs]. destruct (hold_all room h1 m) as [h2 cs]. cbn [fst snd] in *.
  split; [by eapply ext_trans|]. constructor; [by eapply own_ext|done].
Qed.
Lemma owned_list_to_map h (cs : list (string * cell)) : Forall (λ kc, own h kc.2) cs → owned h (list_to_map cs).
Proof. intros Hcs n c Hc%elem_of_list_to_map_2. by apply (proj1 (Forall_forall _ _) Hcs (n, c)). Qed.
Lemma owned_put_key h it cs : owned h it → Forall (λ kc, own h kc.2) cs → owned h (put_key it cs).
Proof. intros Hi Hcs. revert it Hi. induction Hcs as [|kc cs Hc _ IH]; intros it Hi; [done|]. cbn. by apply IH, owned_insert. Qed.

Lemma applyUpdate_owns order h it b : new_mine h → owned h it →
  match applyUpdate room order h it b with Ok (h', it') => ext h h' ∧ owned h' it' | Err (h', _) => ext h h' end.
Proof.
  intros Hn Hi. unfold applyUpdate. pose proof (hold_all_owns (map_to_list (bValues b)) h Hn) as [He Hcs].
  destruct (hold_all room h (map_to_list (bValues b))) as [h1 cs]. cbn [fst snd] in *.
  pose proof (keeps_foldM (list_to_map cs) (clause room b (list_to_map cs)) (order (splitClauses (bExpr b))) (clause_owns b _)
    h1 it (new_mine_ext _ _ He Hn) (owned_ext _ _ _ He Hi) (owned_list_to_map _ _ Hcs)) as H. unfold run_clauses.
  destruct (foldM _ _ (h1, it)) as [[h2 it2]|[h2 e]]; [|by eapply ext_trans]. destruct H as [He2 Hi2].
  split; [by eapply ext_trans|done].
Qed.

(** The attributes of the key written over those of an item. *)
Lemma put_key_owns h it key : new_mine h → owned h it →
  ext h (hold_all room h key).1 ∧ owned (hold_all room h key).1 (put_key it (hold_all room h key).2) ∧
  read (hold_all room h key).1 <$> put_key it (hold_all room h key).2 = set_all key (read h <$> it).
Proof.
  intros Hn Hi. pose proof (hold_all_owns key h Hn) as [He Hk]. destruct (hold_all_spec room key h) as (Hall & Hsame & _).
  destruct (hold_all room h key) as [h1 cs]. cbn [fst snd] in *.
  split_and!; [done|apply owned_put_key; [by eapply owned_ext|done]|].
  assert (Hr : read h1 <$> it = read h <$> it).
  { apply map_fmap_ext. intros n c Hc. by destruct (Hsame c (proj1 (Hi n c Hc))). }
  rewrite <-Hr. clear -Hall. revert it. induction Hall as [|kv kc key cs (E1 & E2 & _) _ IH]; intros it; [done|].
  cbn [put_key set_all foldl] in *. unfold put_key, set_all in *. rewrite IH, fmap_insert. by rewrite E1, E2.
Qed.
End Owner.

(** ** The store *)

Record wf_store (s : MemStore) : Prop := mkWfStore {
  ws_cells : ∀ k it n c, stItems s !! k = Some it → it !! n = Some c → wf_cell (stHeap s) c;
  ws_apart : ∀ k1 k2 it1 it2 n1 n2 c1 c2 a, stItems s !! k1 = Some it1 → stItems s !! k2 = Some it2 → k1 ≠ k2 →
    it1 !! n1 = Some c1 → it2 !! n2 = Some c2 → address c1 = Some a → address c2 = Some a → False;
}.

(** The table a store stands for. *)
Definition view (s : MemStore) : gmap string item := show s <$> stItems s.

(** The arrays an operation on [ks] may write to: the item's own and new ones. *)
Definition mine (s : MemStore) (ks : string) (a : nat) : Prop :=
  (∃ it n c, stItems s !! ks = Some it ∧ it !! n = Some c ∧ address c = Some a) ∨ length (stHeap s) ≤ a.

Lemma mine_new s ks : new_mine (mine s ks) (stHeap s).
Proof. intros a Ha. by right. Qed.

Section Store.
Context (s : MemStore) (ks : string) (Hs : wf_store s).
#[local] Abbreviation mine := (mine s ks).

Lemma owned_item : owned mine (stHeap s) (default ∅ (stItems s !! ks)).
Proof.
  destruct (stItems s !! ks) as [it|] eqn:E; [|cbn; intros n c; by rewrite lookup_empty]. intros n c Hc. split; [exact (ws_cells s Hs ks it n c E Hc)|].
  intros a Ha. left. by exists it, n, c.
Qed.

Lemma others_foreign k it n c : k ≠ ks → stItems s !! k = Some it → it !! n = Some c → foreign mine (stHeap s) c.
Proof.
  intros Hk Hit Hc. split; [exact (ws_cells s Hs k it n c Hit Hc)|]. intros a Ha [(it' & n' & c' & Hit' & Hc' & Ha')|Hlen].
  - by eapply (ws_apart s Hs k ks).
  - pose proof (ws_cells s Hs _ _ _ _ Hit Hc) as Hw. destruct c as [v|a' m]; [done|]. injection Ha as ->.
    destruct Hw as (xs & Hx & _). apply lookup_lt_Some in Hx. lia.
Qed.

Lemma view_other h' items k : ext mine (stHeap s) h' → k ≠ ks → items !! k = stItems s !! k →
  view (mkStore h' items) !! k = view s !! k.
Proof.
  intros He Hk Hi. unfold view. rewrite !lookup_fmap. cbn [stItems]. rewrite Hi. destruct (stItems s !! k) as [it|] eqn:E; [|done].
  cbn. f_equal. unfold show. cbn [stHeap]. apply map_fmap_ext. intros n c Hc.
  by destruct (ext_foreign _ _ _ He c (others_foreign k it n c Hk E Hc)).
Qed.

Lemma keep_spec h' : ext mine (stHeap s) h' →
  wf_store (mkStore h' (stItems s)) ∧ ∀ k, k ≠ ks → view (mkStore h' (stItems s)) !! k = view s !! k.
Proof.
  intros He. split; [|intros k Hk; by apply view_other]. split; [|by apply Hs].
  intros k it n c Hit Hc. eapply wf_ext; [exact He|]. exact (ws_cells s Hs k it n c Hit Hc).
Qed.

Lemma put_spec h' it' : ext mine (stHeap s) h' → owned mine h' it' →
  wf_store (mkStore h' (<[ks := it']> (stItems s))) ∧
  view (mkStore h' (<[ks := it']> (stItems s))) = <[ks := read h' <$> it']> (view s).
Proof.
  intros He Ho. split.
  - split; cbn [stItems stHeap].
    + intros k it n c [[<- <-]|[_ Hit]]%lookup_insert_Some Hc; [by eapply Ho|]. eapply wf_ext; [exact He|]. exact (ws_cells s Hs k it n c Hit Hc).
    + intros k1 k2 it1 it2 n1 n2 c1 c2 a H1 H2 Hne Hc1 Hc2 Ha1 Ha2.
      apply lookup_insert_Some in H1 as [[<- <-]|[Hk1 H1]]; apply lookup_insert_Some in H2 as [[<- <-]|[Hk2 H2]]; [done| | |].
      * by apply (proj2 (others_foreign k2 it2 n2 c2 (not_eq_sym Hk2) H2 Hc2) a Ha2), (proj2 (Ho n1 c1 Hc1)).
      * by apply (proj2 (others_foreign k1 it1 n1 c1 (not_eq_sym Hk1) H1 Hc1) a Ha1), (proj2 (Ho n2 c2 Hc2)).
      * by eapply (ws_apart s Hs k1 k2).
  - apply map_eq. intros k. destruct (decide (k = ks)) as [->|Hk].
    + rewrite lookup_insert_eq. unfold view. rewrite lookup_fmap. cbn [stItems]. by rewrite lookup_insert_eq.
    + rewrite lookup_insert_ne by done. apply view_other; [done..|]. by rewrite lookup_insert_ne.
Qed.
End Store.

Section Refines.
Context (format_float : spec_float → string) (overflow : spec_float → Z) (json_float : spec_float → option string)
  (room : list any → nat) (order : gmap string string → list (string * string)).
#[local] Abbreviation Execute := (Execute format_float overflow json_float room order).
#[local] Abbreviation op_id := (op_id format_float json_float).

Definition operation_of (op : item) : string := match op !! "operation" with Some (AStr o) => o | _ => "" end.
(** The items of a table by ascending key. *)
Definition table_items (m : gmap string item) : list item := omap (λ k, m !! k) (merge_sort string_le (elements (dom m))).

Definition no_lists (it : item) : Prop := ∀ n l, it !! n ≠ Some (AList l).
(** What an update gives of an item: what its clauses say of plain values, when the item has no list that
    could share its array and the update extends one list at most. *)
Definition gives (it : item) (b : exprBlock) (r : res expr_error item) : Prop :=
  no_lists it → sum_list_with (clause_cost b) (order (splitClauses (bExpr b))) ≤ 1 →
  shown (applyUpdate full order [] (Plain <$> it) b) = r.

(** What an operation does to a table, and what it answers. *)
Inductive table_step (op : item) (m : gmap string item) : gmap string item → res expr_error answer → Prop :=
| T_get : operation_of op = "GetItem" → table_step op m m (Ok (AItem (m !! op_id op)))
| T_put it : operation_of op = "PutItem" →
    it = put_item (default ANil (op !! "key")) (default ANil (op !! "attributeValues")) →
    table_step op m (<[op_id op := it]> m) (Ok (AItem (Some it)))
| T_delete : operation_of op = "DeleteItem" → table_step op m (delete (op_id op) m) (Ok (AItem (m !! op_id op)))
| T_scan : operation_of op = "Scan" → table_step op m m (p ← pageScanResult overflow (table_items m) op; Ok (APage p))
| T_query : operation_of op = "Query" →
    table_step op m m (p ← runQuery format_float overflow (table_items m) op; Ok (APage p))
| T_update it b : operation_of op = "UpdateItem" → checked_update format_float (default ∅ (m !! op_id op)) op = Ok b →
    gives (default ∅ (m !! op_id op)) b (Ok it) →
    table_step op m (<[op_id op := set_all (op_key op) it]> m) (Ok (AItem (Some (set_all (op_key op) it))))
| T_refused e : operation_of op = "UpdateItem" → checked_update format_float (default ∅ (m !! op_id op)) op = Err e →
    table_step op m m (Err e)
| T_failed e b m' : operation_of op = "UpdateItem" → checked_update format_float (default ∅ (m !! op_id op)) op = Ok b →
    gives (default ∅ (m !! op_id op)) b (Err e) → (∀ k, k ≠ op_id op → m' !! k = m !! k) →
    (no_lists (default ∅ (m !! op_id op)) → m' = m) → table_step op m m' (Err e)
| T_unknown : operation_of op ∉ ["GetItem"; "PutItem"; "DeleteItem"; "Scan"; "UpdateItem"; "Query"] →
    table_step op m m (Err (NotImplemented (operation_of op))).

Lemma all_items_view s : all_items s = table_items (view s).
Proof.
  unfold all_items, table_items, view, sortedKeys. rewrite dom_fmap_L. apply list_omap_ext. apply Forall2_same_length_lookup_2; [done|].
  intros i k k' H1 H2. rewrite H1 in H2. injection H2 as <-. by rewrite lookup_fmap.
Qed.
Lemma view_lookup s k : view s !! k = show s <$> (stItems s !! k).
Proof. unfold view. by rewrite lookup_fmap. Qed.

Lemma held_item h it : read (hold_all room h (map_to_list it)).1 <$> (list_to_map (hold_all room h (map_to_list it)).2 : cells) = it.
Proof.
  destruct (hold_all_spec room (map_to_list it) h) as (Hall & _ & _).
  pose proof (flat_list_to_map (hold_all room h (map_to_list it)).1 (map_to_list it) (hold_all room h (map_to_list it)).2) as Hf.
  rewrite list_to_map_to_list in Hf. apply map_eq. intros n. specialize (Hf ltac:(eapply Forall2_impl; [exact Hall|]; by intros x y (? & ? & _))).
  apply (f_equal (λ m : cells, m !! n)) in Hf. rewrite !lookup_fmap in *.
  destruct (list_to_map _ !! n) as [c|], (it !! n) as [v|]; cbn in *; unfold flat in *; congruence.
Qed.

Lemma read_item s k : read (stHeap s) <$> default ∅ (stItems s !! k) = default ∅ (view s !! k).
Proof. rewrite view_lookup. destruct (stItems s !! k); [done|]. cbn. apply fmap_empty. Qed.

Lemma no_lists_plain h (it : cells) : no_lists (read h <$> it) → ∀ n c, it !! n = Some c → ∃ v, c = Plain v.
Proof.
  intros Hl n [v|a m] Hc; [by eexists|]. destruct (Hl n (take m (array h a))). by rewrite lookup_fmap, Hc.
Qed.
Lemma no_lists_wf h (it : cells) : no_lists (read h <$> it) → wf_item h it.
Proof.
  intros Hl. assert (Hh : ∀ c, held it ∅ c → ∃ v, c = Plain v).
  { intros c [[n Hc]|[n Hc]]; [by eapply no_lists_plain|]. by rewrite lookup_empty in Hc. }
  split; [intros c [v ->]%Hh; done|]. intros _ c d [v ->]%Hh _ a n m [=].
Qed.

Lemma update_step s op : wf_store s → operation_of op = "UpdateItem" →
  let '(s', r) := match updateItem format_float room order (stHeap s) (default ∅ (stItems s !! op_id op)) (op_key op) op with
    | Err (h, e) => (mkStore h (stItems s), Err e)
    | Ok (h, it) => (mkStore h (<[op_id op := it]> (stItems s)), Ok (AItem (Some (read h <$> it))))
    end in wf_store s' ∧ table_step op (view s) (view s') r.
Proof.
  intros Hs Hop. set (it := default ∅ (stItems s !! op_id op)). pose proof (owned_item s (op_id op) Hs) as Hi. fold it in Hi.
  pose proof (applyUpdate_owns room (mine s (op_id op)) order (stHeap s) it) as Hu. pose proof (read_item s (op_id op)) as Hr. fold it in Hr.
  unfold updateItem. rewrite Hr. destruct (checked_update format_float _ op) as [b|e] eqn:Ec; cbn [fails mbind res_bind].
  2:{ split; [by destruct s|]. destruct s. by apply T_refused. }
  specialize (Hu b (mine_new s _) Hi).
  assert (Hg : gives (default ∅ (view s !! op_id op)) b (shown (applyUpdate room order (stHeap s) it b))).
  { intros Hl Hc. rewrite <-Hr in Hl. rewrite (applyUpdate_flat room order _ _ _ (no_lists_wf _ _ Hl) Hc), <-Hr.
    do 2 f_equal. rewrite <-map_fmap_compose. done. }
  destruct (applyUpdate room order (stHeap s) it b) as [[h it1]|[h e]]; cbn [mbind res_bind shown] in *.
  - destruct Hu as [He Ho]. destruct (put_key_owns room (mine s (op_id op)) h it1 (op_key op) (new_mine_ext _ _ _ He (mine_new s _)) Ho) as (He2 & Ho2 & Hk).
    destruct (hold_all room h (op_key op)) as [h2 kcs]. cbn [fst snd] in *.
    destruct (put_spec s (op_id op) Hs h2 _ (ext_trans _ _ _ _ He He2) Ho2) as [Hw Hv]. split; [done|]. rewrite Hv, Hk. by eapply T_update.
  - destruct (keep_spec s (op_id op) Hs h Hu) as [Hw Hv]. split; [done|]. eapply T_failed; [done..|].
    rewrite <-Hr. intros Hl. apply map_eq. intros k. destruct (decide (k = op_id op)) as [->|Hk]; [|by apply Hv].
    rewrite !view_lookup. cbn [stItems]. subst it. destruct (stItems s !! op_id op) as [it0|]; [|done]. cbn. f_equal. unfold show. cbn [stHeap].
    apply map_fmap_ext. intros n c Hc. destruct (no_lists_plain _ _ Hl n c Hc) as [v ->]. done.
Qed.

Lemma Execute_step s op : wf_store s → wf_store (Execute s op).1 ∧ table_step op (view s) (view (Execute s op).1) (Execute s op).2.
Proof.
  intros Hs. unfold DynQuery.Execute. fold (operation_of op).
  destruct (String.eqb_spec (operation_of op) "GetItem") as [E1|E1].
  { split; [done|]. cbn. rewrite <-view_lookup. by apply T_get. }
  destruct (String.eqb_spec (operation_of op) "PutItem") as [E2|E2].
  { set (it := put_item _ _). pose proof (held_item (stHeap s) it) as Hit.
    destruct (hold_all_owns room (mine s (op_id op)) (map_to_list it) (stHeap s) (mine_new s _)) as [He Hc].
    destruct (hold_all room (stHeap s) (map_to_list it)) as [h cs]. cbn [fst snd] in *.
    destruct (put_spec s (op_id op) Hs h (list_to_map cs) He (owned_list_to_map _ _ _ Hc)) as [Hw Hv].
    split; [done|]. rewrite Hv, Hit. by apply T_put. }
  destruct (String.eqb_spec (operation_of op) "DeleteItem") as [E3|E3].
  { cbn [fst snd]. split.
    - split; cbn [stItems stHeap]; intros *.
      + intros [_ Hit]%lookup_delete_Some. by eapply (ws_cells s Hs).
      + intros [_ H1]%lookup_delete_Some [_ H2]%lookup_delete_Some. by eapply (ws_apart s Hs).
    - assert (Hd : view (mkStore (stHeap s) (delete (op_id op) (stItems s))) = delete (op_id op) (view s))
        by (unfold view; cbn; by rewrite fmap_delete).
      rewrite <-view_lookup, Hd. by apply T_delete. }
  destruct (String.eqb_spec (operation_of op) "Scan") as [E4|E4].
  { split; [done|]. cbn [fst snd]. rewrite all_items_view. by apply T_scan. }
  destruct (String.eqb_spec (operation_of op) "UpdateItem") as [E5|E5].
  { pose proof (update_step s op Hs E5) as H. by destruct (updateItem _ _ _ _ _ _ _) as [[h it]|[h e]]. }
  destruct (String.eqb_spec (operation_of op) "Query") as [E6|E6].
  { split; [done|]. cbn [fst snd]. rewrite all_items_view. by apply T_query. }
  split; [done|]. apply T_unknown. rewrite !elem_of_cons, elem_of_nil. naive_solver.
Qed.

(** Operations on a store one after the other. *)
Definition executes (s : MemStore) (ops : list item) : MemStore := foldl (λ s op, (Execute s op).1) s ops.
(** A table taken from one state to another by operations, each with its answer. *)
Inductive table_run : list item → gmap string item → gmap string item → list (res expr_error answer) → Prop :=
| Run_nil m : table_run [] m m []
| Run_cons op ops m m1 m2 r rs : table_step op m m1 r → table_run ops m1 m2 rs → table_run (op :: ops) m m2 (r :: rs).
Fixpoint answers (s : MemStore) (ops : list item) : list (res expr_error answer) :=
  match ops with [] => [] | op :: ops => (Execute s op).2 :: answers (Execute s op).1 ops end.

Lemma executes_run ops : ∀ s, wf_store s →
  wf_store (executes s ops) ∧ table_run ops (view s) (view (executes s ops)) (answers s ops).
Proof.
  induction ops as [|op ops IH]; intros s Hs; [split; [done|constructor]|].
  destruct (Execute_step s op Hs) as [Hw Hstep]. destruct (IH _ Hw) as [Hw' Hrun].
  split; [done|]. by econstructor.
Qed.

Definition NewMemStore : MemStore := mkStore [] ∅.
Lemma NewMemStore_wf : wf_store NewMemStore.
Proof. split; cbn; intros *; by rewrite lookup_empty. Qed.

End Refines.

(** An update that fails, and the list it has changed by then: [c] extended [b] in its array, and the append
    that was refused with its update has written there too. *)
Definition op_ex (operation : string) (rest : list (string * any)) : item :=
  list_to_map (("operation", AStr operation) :: ("key", AMap [("id", AMap [("S", AStr "u")])]) :: rest).
Definition strings_av (l : list string) : any := AMap [("L", AList (map (λ s, AMap [("S", AStr s)]) l))].
Definition append_op (expr v : string) : item :=
  op_ex "UpdateItem" [("update", AMap [("expression", AStr expr); ("expressionValues", AMap [(":v", strings_av [v])])])].
(** A slice of four elements that append makes has room for two more. *)
Definition room_ex (l : list any) : nat := if length l =? 4 then 2 else 0.

Example failed_update_writes :
  let s ops := view (executes (λ _, "") (λ _, 0%Z) (λ _, None) room_ex map_to_list NewMemStore ops) in
  let before := [op_ex "PutItem" [("attributeValues", AMap [("a", strings_av ["1"; "2"; "3"])])];
                 append_op "SET b = list_append(a, :v)" "x"; append_op "SET c = list_append(b, :v)" "y"] in
  let failing := append_op "SET d = list_append(b, :v), e = f + :v" "z" in
  let c ops := map_to_list (omap (λ it : item, it !! "c") (s ops)) in
  (answers (λ _, "") (λ _, 0%Z) (λ _, None) room_ex map_to_list NewMemStore (before ++ [failing])) !! 3 = Some (Err (NotANumber "f")) ∧
  map snd (c before) = [AList (map AStr ["1"; "2"; "3"; "x"; "y"])] ∧
  map snd (c (before ++ [failing])) = [AList (map AStr ["1"; "2"; "3"; "x"; "z"])].
Proof. vm_compute. done. Qed.
