(* ===== verification/DynPages.v ===== *)
(** * Pages and order of DynamoDB results

    Following the token of each page of dynamodb/expr.go's Query or Scan gives every item once, in order,
    and no page is longer than it may be; and the order of a Query on a string attribute. *)

From stdpp Require Import gmap sorting.
From S2P Require Import Prelude GoStrings DynQuery.
#[local] Open Scope string_scope.
#[local] Open Scope Z_scope.
#[local] Open Scope list_scope.

(** ** Following the tokens *)

(** The operation with the token of the page before. *)
Definition with_token (op : item) (t : string) : item := <["nextToken" := AStr t]> op.

Fixpoint follow (fuel : nat) (get : item → res expr_error page) (op : item) : res expr_error (list page) :=
  match fuel with
  | O => Err OutOfFuel
  | S fuel =>
      p ← get op;
      match pgNext p with
      | None => Ok [p]
      | Some t => ps ← follow fuel get (with_token op t); Ok (p :: ps)
      end
  end.

(** The page of [l] from an offset on. *)
Definition is_page (l : list item) (size : Z) (off : Z) (p : page) : Prop :=
  let stop := Z.min (off + size) (len l) in
  slice l off stop = Some (pgItems p) ∧ pgNext p = if stop <? len l then Some (encodeToken stop) else None.

Lemma token_round_trip n : 0 ≤ n < 2 ^ 63 → decodeToken (Some (AStr (encodeToken n))) = n.
Proof. intros Hn. cbn. unfold encodeToken. by rewrite ParseInt_FormatInt by lia. Qed.

Lemma slice_Some {A} (l : list A) lo hi s : slice l lo hi = Some s →
  0 ≤ lo ≤ hi ∧ hi ≤ len l ∧ s = take (Z.to_nat (hi - lo)) (drop (Z.to_nat lo) l).
Proof. unfold slice. case_match eqn:E; [|done]. intros [= <-]. bool_to_prop. naive_solver lia. Qed.

Lemma slice_rest {A} (l : list A) lo hi s : slice l lo hi = Some s → drop (Z.to_nat lo) l = s ++ drop (Z.to_nat hi) l.
Proof.
  intros (H1 & H2 & ->)%slice_Some. rewrite <-(take_drop (Z.to_nat (hi - lo)) (drop (Z.to_nat lo) l)) at 1.
  rewrite drop_drop. do 2 f_equal. lia.
Qed.

Lemma follow_covers get l size op0 :
  0 < size → len l < 2 ^ 62 →
  (∀ op off, (op = op0 ∧ off = 0) ∨ op = with_token op0 (encodeToken off) → 0 ≤ off ≤ len l →
     ∃ p, get op = Ok p ∧ is_page l size off p) →
  ∀ fuel op off, (op = op0 ∧ off = 0) ∨ op = with_token op0 (encodeToken off) → 0 ≤ off ≤ len l →
    (Z.to_nat (len l - off) < fuel)%nat →
  ∃ ps, follow fuel get op = Ok ps ∧ concat (map pgItems ps) = drop (Z.to_nat off) l ∧
    Forall (λ p, len (pgItems p) ≤ size) ps.
Proof.
  intros Hsize Hlen Hget. induction fuel as [|fuel IH]; intros op off Hop Hoff Hf; [lia|]. cbn [follow].
  destruct (Hget op off Hop Hoff) as (p & -> & Hs & Hn). cbn [mbind res_bind]. set (stop := Z.min (off + size) (len l)) in *.
  pose proof (slice_rest _ _ _ _ Hs) as Hrest. assert (Hp : len (pgItems p) ≤ size).
  { apply slice_Some in Hs as (_ & _ & ->). rewrite len_take. lia. }
  rewrite Hn. destruct (stop <? len l) eqn:E; bool_to_prop.
  - assert (stop = off + size) by lia.
    destruct (IH (with_token op (encodeToken stop)) stop) as (ps & -> & Hc & Hall); [|lia|lia|].
    { right. destruct Hop as [[-> _]| ->]; [done|]. unfold with_token. by rewrite insert_insert_eq. }
    exists (p :: ps). cbn. split; [done|]. split; [by rewrite Hc, Hrest|by constructor].
  - exists [p]. split; [done|]. cbn. rewrite app_nil_r. split; [|by constructor].
    rewrite Hrest, (drop_ge l); [by rewrite app_nil_r|]. unfold len in *. lia.
Qed.

Section Pages.
Context (format_float : spec_float → string) (overflow : spec_float → Z).

Lemma int64_small n : - 2 ^ 63 ≤ n < 2 ^ 63 → int64 n = n.
Proof. apply int64_id. Qed.

(** Where a page starts. *)
Definition starts (op : item) (n off : Z) : Prop :=
  (let o := decodeToken (op !! "nextToken") in if (o <? 0) || (n <? o) then 0 else o) = off.

Lemma starts_at op0 n off op : op0 !! "nextToken" = None → n < 2 ^ 62 →
  (op = op0 ∧ off = 0) ∨ op = with_token op0 (encodeToken off) → 0 ≤ off ≤ n → starts op n off.
Proof.
  intros H0 Hn [[-> ->]| ->] Hoff; unfold starts.
  - rewrite H0. cbn. by case_match.
  - unfold with_token. rewrite lookup_insert_eq, token_round_trip by lia. case_match eqn:E; [|done]. apply orb_true_iff in E as [E|E]; bool_to_prop; lia.
Qed.

Lemma cut_ok {A} (l : list A) lo hi : 0 ≤ lo ≤ hi → hi ≤ len l → ∃ s, slice l lo hi = Some s ∧ cut l lo hi = Ok s.
Proof. intros H1 H2. destruct (slice_is_Some l lo hi) as (s & Hs & _); [lia..|]. exists s. split; [done|]. unfold cut. by rewrite Hs. Qed.

(** The size of a page of a Query: no limit is everything. *)
Definition query_size (op : item) (n : Z) : Z := if 0 <? limit_of overflow op then limit_of overflow op else Z.max 1 n.

Lemma query_page_is k l op off : len l < 2 ^ 62 → limit_of overflow op ≤ 2 ^ 62 → starts op (len l) off → 0 ≤ off ≤ len l →
  ∃ p, query_page overflow k l op = Ok p ∧ is_page l (query_size op (len l)) off p.
Proof.
  intros Hl Hlim Hs Hoff. unfold query_page, is_page, query_size. unfold starts in Hs. cbv zeta in *. rewrite Hs.
  set (L := limit_of overflow op) in *. set (n := len l) in *.
  assert (Hstop : (if (0 <? L) && (int64 (off + L) <? n) then int64 (off + L) else n)
                  = Z.min (off + (if 0 <? L then L else Z.max 1 n)) n).
  { destruct (0 <? L) eqn:EL; bool_to_prop; cbn [andb]; [|lia]. rewrite int64_small by lia. case_goal; bool_to_prop; lia. }
  rewrite Hstop. destruct (cut_ok l off (Z.min (off + (if 0 <? L then L else Z.max 1 n)) n)) as (s & Hsl & ->); [|lia|].
  { split; [lia|]. case_goal; bool_to_prop; lia. }
  eexists. split; [done|]. cbn. split; [done|]. done.
Qed.

Definition counts (op : item) : bool := match op !! "select" with Some (AStr s) => String.eqb s "COUNT" | _ => false end.
Definition scan_size (op : item) : Z := if scan_limit overflow op <=? 0 then scanDefaultLimit else scan_limit overflow op.

Lemma scan_page_is l op off : len l < 2 ^ 62 → scan_limit overflow op ≤ 2 ^ 62 → counts op = false → starts op (len l) off → 0 ≤ off ≤ len l →
  ∃ p, pageScanResult overflow l op = Ok p ∧ is_page l (scan_size op) off p.
Proof.
  intros Hl Hlim Hc Hs Hoff. unfold pageScanResult, is_page, scan_size. unfold counts in Hc. unfold starts in Hs. cbv zeta in *.
  rewrite Hs, Hc. cbn [andb].
  set (L := if scan_limit overflow op <=? 0 then scanDefaultLimit else scan_limit overflow op).
  assert (0 < L ≤ 2 ^ 62) by (unfold L, scanDefaultLimit; case_goal; bool_to_prop; lia).
  rewrite int64_small by lia. set (n := len l) in *.
  assert (Hstop : (if n <? off + L then n else off + L) = Z.min (off + L) n) by (case_goal; bool_to_prop; lia).
  rewrite Hstop. destruct (cut_ok l off (Z.min (off + L) n)) as (s & Hsl & ->); [lia|lia|]. eexists. split; [done|]. by split.
Qed.

(** What an operation selects and how much it may return do not depend on the token. *)
Lemma readBlock_token op t key : key ≠ "nextToken" → readBlock format_float (with_token op t) key = readBlock format_float op key.
Proof. intros Hk. unfold readBlock, with_token. by rewrite lookup_insert_ne. Qed.
Lemma select_token candidates op t : select format_float candidates (with_token op t) = select format_float candidates op.
Proof. unfold select. rewrite !readBlock_token by done. unfold with_token. by rewrite lookup_insert_ne. Qed.
Lemma limit_token op t : limit_of overflow (with_token op t) = limit_of overflow op.
Proof. unfold limit_of, with_token. by rewrite lookup_insert_ne. Qed.
Lemma scan_limit_token op t : scan_limit overflow (with_token op t) = scan_limit overflow op.
Proof. unfold scan_limit, with_token. by rewrite lookup_insert_ne. Qed.

Lemma query_covers candidates matched op :
  select format_float candidates op = Ok matched → op !! "nextToken" = None → len matched < 2 ^ 62 → limit_of overflow op ≤ 2 ^ 62 →
  ∃ ps, follow (S (length matched)) (runQuery format_float overflow candidates) op = Ok ps ∧ concat (map pgItems ps) = matched ∧
    Forall (λ p, len (pgItems p) ≤ query_size op (len matched)) ps.
Proof.
  intros Hsel Ht Hl Hlim. pose proof (follow_covers (runQuery format_float overflow candidates) matched (query_size op (len matched)) op) as H.
  specialize (H ltac:(unfold query_size; case_goal; bool_to_prop; lia) Hl). edestruct H as (ps & H1 & H2 & H3); [|by left| |
    |exists ps; rewrite drop_0 in H2; by split_and!].
  - intros op' off Hop Hoff. unfold runQuery.
    assert (Hs : select format_float candidates op' = Ok matched) by (destruct Hop as [[-> _]| ->]; [done|by rewrite select_token]).
    assert (Hlo : limit_of overflow op' = limit_of overflow op) by (destruct Hop as [[-> _]| ->]; [done|by rewrite limit_token]).
    rewrite Hs. cbn [mbind res_bind]. replace (query_size op (len matched)) with (query_size op' (len matched)) by (unfold query_size; by rewrite Hlo).
    apply query_page_is; [done|by rewrite Hlo| |done]. by apply (starts_at op).
  - pose proof (len_nonneg matched). lia.
  - unfold len. lia.
Qed.

Lemma scan_covers all op : op !! "nextToken" = None → counts op = false → len all < 2 ^ 62 → scan_limit overflow op ≤ 2 ^ 62 →
  ∃ ps, follow (S (length all)) (pageScanResult overflow all) op = Ok ps ∧ concat (map pgItems ps) = all ∧
    Forall (λ p, len (pgItems p) ≤ scan_size op) ps.
Proof.
  intros Ht Hc Hl Hlim. pose proof (follow_covers (pageScanResult overflow all) all (scan_size op) op) as H.
  specialize (H ltac:(unfold scan_size, scanDefaultLimit; case_goal; bool_to_prop; lia) Hl). edestruct H as (ps & H1 & H2 & H3); [|by left| |
    |exists ps; rewrite drop_0 in H2; by split_and!].
  - intros op' off Hop Hoff.
    assert (Hlo : scan_limit overflow op' = scan_limit overflow op) by (destruct Hop as [[-> _]| ->]; [done|by rewrite scan_limit_token]).
    replace (scan_size op) with (scan_size op') by (unfold scan_size; by rewrite Hlo).
    apply scan_page_is; [done|by rewrite Hlo| |by apply (starts_at op)|done].
    destruct Hop as [[-> _]| ->]; [done|]. unfold counts, with_token. by rewrite lookup_insert_ne.
  - pose proof (len_nonneg all). lia.
  - unfold len. lia.
Qed.
End Pages.

(** ** Order *)

Section Sort.
Context {A : Type} (less : A → A → bool).

(** [y] is not before [x]. *)
Definition le_by (x y : A) : Prop := less y x = false.
Definition equals (x y : A) : bool := negb (less x y) && negb (less y x).

Lemma insert_perm x rl : insert_from_right less x rl ≡ₚ x :: rl.
Proof. induction rl as [|y rl IH]; cbn; [done|]. case_match; [|done]. rewrite IH. apply Permutation_swap. Qed.
Lemma inserts_perm l rl : foldl (λ rl x, insert_from_right less x rl) rl l ≡ₚ l ++ rl.
Proof. revert rl. induction l as [|x l IH]; intros rl; [done|]. cbn. rewrite IH, insert_perm. by rewrite Permutation_middle. Qed.
Lemma SliceStable_perm l : SliceStable less l ≡ₚ l.
Proof. unfold SliceStable. rewrite <-Permutation_rev, inserts_perm. by rewrite app_nil_r. Qed.

Section Weak.
(** On these, [less] is a strict weak order. *)
Context (P : A → Prop).
Hypothesis less_asym : ∀ x y, P x → P y → less x y = true → less y x = false.
Hypothesis le_trans : ∀ x y z, P x → P y → P z → le_by x y → le_by y z → le_by x z.

Lemma insert_sorted x rl : P x → Forall P rl → StronglySorted (λ a b, le_by b a) rl → StronglySorted (λ a b, le_by b a) (insert_from_right less x rl).
Proof.
  intros Hx. induction rl as [|y rl IH]; intros HP Hs; cbn; [by repeat constructor|].
  apply Forall_cons in HP as [Hy HP]. apply StronglySorted_inv in Hs as [Hs Hall]. destruct (less x y) eqn:E.
  - constructor; [by apply IH|]. rewrite insert_perm. constructor; [by apply less_asym|done].
  - constructor; [by constructor|]. constructor; [done|]. apply Forall_forall. intros z Hz.
    apply (le_trans z y x); [by apply (proj1 (Forall_forall _ _) HP)|done|done| |done]. by apply (proj1 (Forall_forall _ _) Hall).
Qed.

Lemma inserts_sorted l : ∀ rl, Forall P l → Forall P rl → StronglySorted (λ a b, le_by b a) rl →
  StronglySorted (λ a b, le_by b a) (foldl (λ rl x, insert_from_right less x rl) rl l).
Proof.
  induction l as [|x l IH]; intros rl Hl Hrl Hs; [done|]. apply Forall_cons in Hl as [Hx Hl]. cbn. apply IH; [done| |by apply insert_sorted].
  rewrite insert_perm. by constructor.
Qed.

Lemma SliceStable_sorted l : Forall P l → StronglySorted le_by (SliceStable less l).
Proof.
  intros Hl. unfold SliceStable. pose proof (inserts_sorted l [] Hl (Forall_nil_2 _) (SSorted_nil _)) as H. revert H.
  generalize (foldl (λ rl x, insert_from_right less x rl) [] l) as k. induction k as [|x k IH]; intros H; [constructor|].
  apply StronglySorted_inv in H as [H Hall]. cbn. rewrite StronglySorted_app. split_and!; [|by apply IH|by repeat constructor].
  intros y z Hy ->%list_elem_of_singleton. apply (proj1 (Forall_forall _ _) Hall). by rewrite <-(rev_alt k), <-elem_of_reverse, reverse_involutive in Hy || by apply list_elem_of_In, in_rev, list_elem_of_In.
Qed.
End Weak.
End Sort.

Section StringKey.
Context (format_float : spec_float → string) (sortKey : string).

(** The item has a string under the attribute. *)
Definition keyed (it : item) : Prop := ∃ s, attr it sortKey = AStr s.
Definition key_text (it : item) : string := match attr it sortKey with AStr s => s | _ => "" end.
(** In the order of the text of the attribute, or against it. *)
Definition in_order (forward : bool) (x y : item) : Prop :=
  if forward then string_le (key_text x) (key_text y) else string_le (key_text y) (key_text x).

Lemma Compare_lt a b : (Compare a b <? 0) = negb (String.leb b a).
Proof. unfold Compare, String.leb. rewrite (String.compare_antisym b a). by destruct (String.compare a b). Qed.
Lemma Compare_gt a b : (0 <? Compare a b) = negb (String.leb a b).
Proof. unfold Compare, String.leb. by destruct (String.compare a b). Qed.

Lemma less_keyed forward x y : keyed x → keyed y →
  less_by format_float sortKey forward x y = negb (if forward then String.leb (key_text y) (key_text x) else String.leb (key_text x) (key_text y)).
Proof.
  intros [s Hs] [t Ht]. unfold less_by, key_text, cmpVals. rewrite Hs, Ht. cbn [toFloat Sprint].
  destruct forward; [apply Compare_lt|apply Compare_gt].
Qed.
Lemma le_keyed forward x y : keyed x → keyed y → le_by (less_by format_float sortKey forward) x y ↔ in_order forward x y.
Proof. intros Hx Hy. unfold le_by, in_order, string_le. rewrite less_keyed by done. destruct forward; by rewrite negb_false_iff. Qed.

Lemma sorted_keyed forward l : Forall keyed l → StronglySorted (in_order forward) (SliceStable (less_by format_float sortKey forward) l).
Proof.
  intros Hl. assert (Hp : Forall keyed (SliceStable (less_by format_float sortKey forward) l)) by (by rewrite SliceStable_perm).
  pose proof (SliceStable_sorted (less_by format_float sortKey forward) keyed) as H.
  assert (Hs : StronglySorted (le_by (less_by format_float sortKey forward)) (SliceStable (less_by format_float sortKey forward) l)).
  { apply H; [| |done].
    - intros x y Hx Hy. rewrite !less_keyed by done. destruct forward; rewrite negb_true_iff, negb_false_iff;
        [destruct (String.leb_total (key_text y) (key_text x))|destruct (String.leb_total (key_text x) (key_text y))]; congruence.
    - intros x y z Hx Hy Hz. rewrite !le_keyed by done. unfold in_order, string_le. destruct forward; eauto using string_leb_trans. }
  revert Hp Hs. generalize (SliceStable (less_by format_float sortKey forward) l) as k. induction k as [|x k IH]; intros Hp Hs; [constructor|].
  apply Forall_cons in Hp as [Hx Hp]. apply StronglySorted_inv in Hs as [Hs Hall]. constructor; [by apply IH|].
  apply Forall_forall. intros y Hy. apply le_keyed; [done|by apply (proj1 (Forall_forall _ _) Hp)|by apply (proj1 (Forall_forall _ _) Hall)].
Qed.
End StringKey.

(** ** What a query answers *)

Section Query.
Context (format_float : spec_float → string) (overflow : spec_float → Z).

(** The item meets the key condition and the filter. *)
Definition selected (kc : exprBlock) (filter : option exprBlock) (it : item) : bool :=
  match matchKeyCondition format_float it kc, meets format_float filter it with Ok (true, _), Ok true => true | _, _ => false end.
(** The attribute the key condition compares last in an item. *)
Definition compares (kc : exprBlock) (sk : string) (it : item) : Prop := ∃ ok, matchKeyCondition format_float it kc = Ok (ok, sk).

Lemma candidates_selected kc filter l : ∀ st st', foldM (candidate format_float kc filter) l st = Ok st' →
  st'.1 = st.1 ++ List.filter (selected kc filter) l ∧
  ∀ sk, sk ≠ "" → l ≠ [] → Forall (compares kc sk) l → st'.2 = sk.
Proof.
  induction l as [|it l IH]; intros st st'; [intros [= <-]; by rewrite app_nil_r|]. rewrite foldM_cons.
  intros (st1 & H1 & H2)%res_bind_Ok. destruct (IH _ _ H2) as [Hl Hsk]. cbn [List.filter]. unfold selected at 1. unfold candidate in H1.
  destruct (matchKeyCondition format_float it kc) as [[ok sk']|e] eqn:Em; [|done]. cbn [mbind res_bind] in H1.
  assert (Hst : st1.1 = st.1 ++ (if ok then match meets format_float filter it with Ok true => [it] | _ => [] end else []) ∧
    st1.2 = if String.eqb sk' "" then st.2 else sk').
  { destruct ok; cbn [negb] in H1; [|injection H1 as <-; by rewrite app_nil_r]. apply res_bind_Ok in H1 as (fok & -> & [= <-]).
    destruct fok; cbn; [done|by rewrite app_nil_r]. }
  destruct Hst as [Hst1 Hst2]. split.
  - rewrite Hl, Hst1, <-app_assoc. f_equal. destruct ok; [|done]. by destruct (meets format_float filter it) as [[]|].
  - intros sk Hne _ [[ok' Hc] Hrest]%Forall_cons. rewrite Em in Hc. injection Hc as -> ->. rewrite (proj2 (String.eqb_neq _ _) Hne) in Hst2.
    destruct l as [|it' l]; [injection H2 as <-; done|]. by apply Hsk.
Qed.

Lemma select_spec candidates op matched : select format_float candidates op = Ok matched →
  ∃ kc filter, readBlock format_float op "query" = Ok (Some kc) ∧ readBlock format_float op "filter" = Ok filter ∧
    matched ≡ₚ List.filter (selected kc filter) candidates ∧
    ∀ sk, sk ≠ "" → Forall (compares kc sk) candidates → Forall (keyed sk) matched →
      StronglySorted (in_order sk (match op !! "scanIndexForward" with Some (ABool v) => v | _ => true end)) matched.
Proof.
  unfold select. intros (kc & -> & H)%res_bind_Ok. destruct kc as [kc|]; [|done]. apply res_bind_Ok in H as (filter & -> & H).
  apply res_bind_Ok in H as ([l sk0] & Hf & H). cbv zeta in H. set (fw := match op !! "scanIndexForward" with Some (ABool v) => v | _ => true end) in *.
  injection H as <-.
  apply candidates_selected in Hf as [Hl Hsk]. cbn [fst snd] in *. rewrite app_nil_l in Hl. subst l. exists kc, filter. split_and!; [done..| |].
  - case_goal; [done|]. apply SliceStable_perm.
  - intros sk Hne Hc Hk. destruct candidates as [|it l].
    { cbn. destruct (String.eqb sk0 ""); constructor. }
    rewrite (Hsk sk Hne ltac:(done) Hc) in *. rewrite (proj2 (String.eqb_neq _ _) Hne) in *. apply sorted_keyed. by rewrite SliceStable_perm in Hk.
Qed.

End Query.

Definition orders : list item :=
  [{["customer" := AStr "c1"; "day" := AStr "05"]}; {["customer" := AStr "c1"; "day" := AStr "02"]}; {["customer" := AStr "c1"; "day" := AStr "09"]}].
Definition query_op (value limit : any) : item :=
  {["query" := AMap [("expression", AStr "customer = :c AND day > :d");
                     ("expressionValues", AMap [(":c", AMap [("S", value)]); (":d", AMap [("S", AStr "00")])])]; "limit" := limit]}.


(** One more candidate, of another partition: the key condition stops at its partition key, and the results
    are left in the order of that. *)
Example sort_key_of_last :
  let days l := map (λ it, key_text "day" it) (concat (map pgItems l)) in
  let run l := days <$> follow 9 (runQuery (λ _, "") (λ _, 0) l) (query_op (AStr "c1") ANil) in
  run orders = Ok ["02"; "05"; "09"] ∧ run (orders ++ [{["customer" := AStr "c2"; "day" := AStr "01"]}]) = Ok ["05"; "02"; "09"].
Proof. vm_compute. done. Qed.
