(* ===== verification/DynTxn.v ===== *)
(** * DynamoDB transactions (console-api/cmd/aws-shim/dynamo_transact.go, dynamo.go, dynamodb/txn.go)

    TransactWriteItems and TransactGetItems of the shim.  The table registry and the Postgres transaction
    are a [backend]: what the reads find when the transaction is open, and which calls fail.  The outcome of
    a request is its response, the statements that ran and whether the transaction was committed. *)

From stdpp Require Import gmap.
From S2P Require Import Prelude GoStrings.
From S2P Require Export DynUpdate.
#[local] Open Scope string_scope.
#[local] Open Scope Z_scope.
#[local] Open Scope list_scope.

Inductive kind := Put | Delete | Update | ConditionCheck.
#[export] Instance kind_eq_dec : EqDecision kind.
Proof. solve_decision. Defined.

Record txnAction := mkAction {
  taKind : kind;
  taTable : string;
  taId : string;
  taKey : list (string * any);
  taOp : item;
  taHasCond : bool;
  taDoc : option item;
}.

(** Why a request is refused before the transaction is opened. *)
Inductive refusal :=
| NotAList
| TooMany
| NotOneKind
| NoTableOrBody (what : string)
| NoSuchTable (table : string)
| MissingKey (attr : string)
| SameItemTwice
| NoUpdateExpression
| NoConditionExpression
| NoGet
| Projection.

Inductive response :=
| Done
| NotConfigured
| Refused (r : refusal)
| Internal (err : string)
| Invalid (e : expr_error)
| Canceled (reasons : list bool)
| CanceledBy (err : string)
| CommitFailed (err : string)
| Responses (items : list (option item)).

(** A statement: its text and its argument. *)
Definition statement : Type := string * string.
Record outcome := mkOutcome {
  ocResponse : response;
  ocExecuted : list statement;
  ocCommitted : bool;
}.
Definition failed (r : response) : outcome := mkOutcome r [] false.

(** [bkFind]: the item under an id as the open transaction sees it, before any write. *)
Record backend := mkBackend {
  bkPostgres : bool;
  bkKeyAttrs : string → option (list string);
  bkBegin : option string;
  bkFind : string → string → res string (option item);
  bkExec : list statement → statement → option string;
  bkCommit : option string;
}.

(** exprBlock of dynamo.go: names and values when there are any. *)
Definition exprBlock (expr : string) (names values : option any) : any :=
  let part key v := match v with None | Some ANil => [] | Some v => [(key, v)] end in
  AMap ((("expression", AStr expr) :: part "expressionNames" names) ++ part "expressionValues" values).

(** keyFromItem: the attributes of the key, or the first that is missing. *)
Fixpoint key_attrs (m : list (string * any)) (keyAttrs : list string) (key : item) : res string item :=
  match keyAttrs with
  | [] => Ok key
  | ka :: keyAttrs =>
      match key_of m ka with Some v => key_attrs m keyAttrs (<[ka := v]> key) | None => Err ka end
  end.
Definition keyFromItem (m : list (string * any)) (keyAttrs : list string) : res string (list (string * any)) :=
  key ← key_attrs m keyAttrs ∅; Ok (map_to_list key).

Definition sub_map (m : list (string * any)) (k : string) : option (list (string * any)) :=
  match key_of m k with Some (AMap m) => Some m | _ => None end.

Section Txn.
(** encoding/json on a float64, its %v and 'f' forms, the room of a list's new array, and the order of a map
    of clauses. *)
Context (json_float : spec_float → option string) (format_float FormatFloat : spec_float → string)
  (room : list any → nat) (order : gmap string string → list (string * string)).
Context (B : backend).
#[local] Abbreviation KeyID := (KeyID json_float format_float).
#[local] Abbreviation Marshal := (Marshal json_float).

(** ** Pass 1: the actions *)

Definition seen_key (table id : string) : string := table +:+ String (ascii_of 0) id.

(** The blocks of an action with an optional condition. *)
Definition with_condition (m : list (string * any)) (op : item) : item * bool :=
  match key_of m "ConditionExpression" with
  | Some (AStr ce) =>
      if String.eqb ce "" then (op, false)
      else (<["condition" := exprBlock ce (key_of m "ExpressionAttributeNames") (key_of m "ExpressionAttributeValues")]> op, true)
  | _ => (op, false)
  end.

Definition table_of (what : string) (m : list (string * any)) (body : string) : res refusal (string * list (string * any)) :=
  match sub_map m body with
  | Some b => if String.eqb (str_at m "TableName") "" then Err (NoTableOrBody what) else Ok (str_at m "TableName", b)
  | None => Err (NoTableOrBody what)
  end.
Definition known_table (table : string) : res refusal (list string) :=
  match bkKeyAttrs B table with Some ka => Ok ka | None => Err (NoSuchTable table) end.

Definition put_action (m : list (string * any)) : res refusal txnAction :=
  '(table, it) ← table_of "Put" m "Item";
  keyAttrs ← known_table table;
  match keyFromItem it keyAttrs with
  | Err missing => Err (MissingKey missing)
  | Ok key =>
      let '(id, doc) := PutDoc json_float format_float (AMap key) (AMap it) in
      let '(op, cond) := with_condition m ∅ in
      Ok (mkAction Put table id [] op cond (Some doc))
  end.
Definition delete_action (m : list (string * any)) : res refusal txnAction :=
  '(table, key) ← table_of "Delete" m "Key";
  _ ← known_table table;
  let '(op, cond) := with_condition m ∅ in
  Ok (mkAction Delete table (KeyID (AMap key)) [] op cond None).
Definition update_action (m : list (string * any)) : res refusal txnAction :=
  '(table, key) ← table_of "Update" m "Key";
  let ue := str_at m "UpdateExpression" in
  if String.eqb ue "" then Err NoUpdateExpression
  else
    _ ← known_table table;
    let upd := exprBlock ue (key_of m "ExpressionAttributeNames") (key_of m "ExpressionAttributeValues") in
    let '(op, cond) := with_condition m {["update" := upd]} in
    Ok (mkAction Update table (KeyID (AMap key)) (PlainKey (AMap key)) op cond None).
Definition check_action (m : list (string * any)) : res refusal txnAction :=
  '(table, key) ← table_of "ConditionCheck" m "Key";
  let ce := str_at m "ConditionExpression" in
  if String.eqb ce "" then Err NoConditionExpression
  else
    _ ← known_table table;
    let cond := exprBlock ce (key_of m "ExpressionAttributeNames") (key_of m "ExpressionAttributeValues") in
    Ok (mkAction ConditionCheck table (KeyID (AMap key)) [] {["condition" := cond]} true None).

(** One TransactItem: exactly one of the four. *)
Definition build_one (raw : any) : res refusal txnAction :=
  let it := plainMap raw in
  match sub_map it "Put", sub_map it "Delete", sub_map it "Update", sub_map it "ConditionCheck" with
  | Some m, None, None, None => put_action m
  | None, Some m, None, None => delete_action m
  | None, None, Some m, None => update_action m
  | None, None, None, Some m => check_action m
  | _, _, _, _ => Err NotOneKind
  end.

Fixpoint build (items : list any) (seen : gset string) : res refusal (list txnAction) :=
  match items with
  | [] => Ok []
  | raw :: items =>
      a ← build_one raw;
      if bool_decide (seen_key (taTable a) (taId a) ∈ seen) then Err SameItemTwice
      else rest ← build items ({[seen_key (taTable a) (taId a)]} ∪ seen); Ok (a :: rest)
  end.

(** ** Pass 2: the reads and the conditions *)

Definition item_cells (current : option item) : heap * option cells :=
  match current with
  | None => ([], None)
  | Some it => let '(h, cs) := hold_all room [] (map_to_list it) in (h, Some (list_to_map cs))
  end.

(** What an action comes to: itself with its document, or a failed condition. *)
Inductive checked := Passed (a : txnAction) | ConditionFailed.

Definition check_one (a : txnAction) : res response checked :=
  if negb (taHasCond a) && negb (bool_decide (taKind a = Update)) then Ok (Passed a)
  else
    match bkFind B (taTable a) (taId a) with
    | Err err => Err (Internal err)
    | Ok current =>
        if bool_decide (taKind a = Update) then
          let '(h, cs) := item_cells current in
          match shown (ApplyUpdate format_float room order h cs (taKey a) (taOp a)) with
          | Err ConditionalCheckFailed => Ok ConditionFailed
          | Err e => Err (Invalid e)
          | Ok newItem =>
              let doc := newItem ∪ {["_id" := AStr (taId a)]} in
              Ok (Passed (mkAction Update (taTable a) (taId a) (taKey a) (taOp a) (taHasCond a) (Some doc)))
          end
        else
          match EvalCondition format_float current (taOp a) with
          | Err e => Err (Invalid e)
          | Ok (ok, _) => Ok (if (ok : bool) then Passed a else ConditionFailed)
          end
    end.

Definition has_failed (c : checked) : bool := match c with ConditionFailed => true | Passed _ => false end.
Definition passed (c : checked) : option txnAction := match c with Passed a => Some a | ConditionFailed => None end.

(** ** Pass 3: the writes *)

Definition delete_sql : string := "SELECT documentdb_api.delete($1, $2::documentdb_core.bson)".
Definition update_sql : string := "SELECT documentdb_api.update($1, $2::documentdb_core.bson)".
Definition q (s : string) : string := String dquote "" +:+ s +:+ String dquote "".

(** The statement of an action, if it has one. *)
Definition statement_of (a : txnAction) : res response (option statement) :=
  let id := json_quote (taId a) in
  let table := json_quote (taTable a) in
  match taKind a with
  | ConditionCheck => Ok None
  | Delete =>
      Ok (Some (delete_sql, "{" +:+ q "delete" +:+ ":" +:+ table +:+ "," +:+ q "deletes" +:+ ":[{" +:+ q "q" +:+ ":{" +:+ q "_id" +:+ ":" +:+ id +:+
                            "}," +:+ q "limit" +:+ ":1}]}"))
  | Put | Update =>
      match Marshal (AMap (map_to_list (default ∅ (taDoc a)))) with
      | None => Err (Internal "json: unsupported value")
      | Some doc =>
          Ok (Some (update_sql, "{" +:+ q "update" +:+ ":" +:+ table +:+ "," +:+ q "updates" +:+ ":[{" +:+ q "q" +:+ ":{" +:+ q "_id" +:+ ":" +:+ id +:+
                                "}," +:+ q "u" +:+ ":" +:+ doc +:+ "," +:+ q "upsert" +:+ ":true}]}"))
      end
  end.

(** The writes one after the other: those that ran, and what stopped them. *)
Fixpoint run_writes (actions : list txnAction) (ran : list statement) : list statement * option response :=
  match actions with
  | [] => (ran, None)
  | a :: actions =>
      match statement_of a with
      | Err r => (ran, Some r)
      | Ok None => run_writes actions ran
      | Ok (Some st) =>
          match bkExec B ran st with
          | Some err => (ran, Some (CanceledBy err))
          | None => run_writes actions (ran ++ [st])
          end
      end
  end.

(** ** TransactWriteItems *)

Definition txn_items (body : list (string * any)) : res refusal (list any) :=
  match key_of body "TransactItems" with
  | Some (AList l) =>
      if bool_decide (l = []) then Err NotAList else if (100 <? length l)%nat then Err TooMany else Ok l
  | _ => Err NotAList
  end.

(** The transaction of actions that are validated. *)
Definition run_txn (actions : list txnAction) : outcome :=
  match bkBegin B with
  | Some err => failed (Internal err)
  | None =>
      match mapM check_one actions with
      | Err r => failed r
      | Ok cs =>
          if existsb has_failed cs then failed (Canceled (map has_failed cs))
          else
            match run_writes (omap passed cs) [] with
            | (ran, Some r) => mkOutcome r ran false
            | (ran, None) =>
                match bkCommit B with
                | Some err => mkOutcome (CommitFailed err) ran false
                | None => mkOutcome Done ran true
                end
            end
      end
  end.

Definition transactWriteItems (body : list (string * any)) : outcome :=
  if negb (bkPostgres B) then failed NotConfigured
  else
    match (items ← txn_items body; build items ∅) with
    | Err r => failed (Refused r)
    | Ok actions => run_txn actions
    end.

(** ** TransactGetItems *)

Definition get_request (raw : any) : res refusal (string * string) :=
  match sub_map (plainMap raw) "Get" with
  | None => Err NoGet
  | Some m =>
      if negb (String.eqb (str_at m "ProjectionExpression") "") then Err Projection
      else
        '(table, key) ← table_of "Get" m "Key";
        _ ← known_table table;
        Ok (table, KeyID (AMap key))
  end.
Definition transactGetItems (body : list (string * any)) : response :=
  if negb (bkPostgres B) then NotConfigured
  else
    match (items ← txn_items body; mapM get_request items) with
    | Err r => Refused r
    | Ok plan =>
        match bkBegin B with
        | Some err => Internal err
        | None =>
            match mapM (λ g, bkFind B g.1 g.2) plan with
            | Err err => Internal err
            | Ok items => Responses (map (fmap (ToItem FormatFloat)) items)
            end
        end
    end.
End Txn.

(** ** All or nothing *)

Section Atomic.
Context (json_float : spec_float → option string) (format_float : spec_float → string)
  (room : list any → nat) (order : gmap string string → list (string * string)).
Context (B : backend).
#[local] Abbreviation build := (build json_float format_float B).
#[local] Abbreviation check_one := (check_one format_float room order B).
#[local] Abbreviation statement_of := (statement_of json_float).
#[local] Abbreviation run_writes := (run_writes json_float B).
#[local] Abbreviation run_txn := (run_txn json_float format_float room order B).
#[local] Abbreviation transactWriteItems := (transactWriteItems json_float format_float room order B).

Definition target (a : txnAction) : string * string := (taTable a, taId a).

Lemma build_targets items : ∀ seen actions, build items seen = Ok actions →
  NoDup (map target actions) ∧ ∀ a, a ∈ actions → seen_key (taTable a) (taId a) ∉ seen.
Proof.
  induction items as [|raw items IH]; intros seen actions; cbn [DynTxn.build].
  { intros [= <-]. split; [constructor|]. by intros a ?%not_elem_of_nil. }
  intros (a & _ & H)%res_bind_Ok. case_bool_decide as Hs; [done|]. apply res_bind_Ok in H as (rest & Hr & [= <-]).
  destruct (IH _ _ Hr) as [Hnd Hns]. split.
  - cbn. constructor; [|done]. intros (a' & E & Ha')%list_elem_of_fmap. destruct (Hns a' Ha').
    unfold target in E. injection E as -> ->. set_solver.
  - intros a' [->|Ha']%elem_of_cons; [done|]. specialize (Hns a' Ha'). set_solver.
Qed.

Lemma run_writes_spec actions : ∀ ran ran', run_writes actions ran = (ran', None) →
  ∃ sts, mapM statement_of actions = Ok sts ∧ ran' = ran ++ omap id sts.
Proof.
  induction actions as [|a actions IH]; intros ran ran'; cbn [DynTxn.run_writes].
  { intros [= <-]. exists []. by rewrite app_nil_r. }
  destruct (statement_of a) as [[st|]|r] eqn:E; [| |done].
  - destruct (bkExec B ran st); [done|]. intros (sts & Hm & ->)%IH. exists (Some st :: sts).
    cbn. rewrite E. cbn. rewrite Hm. cbn. by rewrite <-app_assoc.
  - intros (sts & Hm & ->)%IH. exists (None :: sts). cbn. rewrite E. cbn. by rewrite Hm.
Qed.

(** The condition of an action holds on what the transaction reads, and an Update has its document from it. *)
Definition met (a a' : txnAction) : Prop :=
  target a' = target a ∧ taKind a' = taKind a ∧
  (taKind a = Update → ∃ current h cs newItem, bkFind B (taTable a) (taId a) = Ok current ∧ item_cells room current = (h, cs) ∧
     shown (ApplyUpdate format_float room order h cs (taKey a) (taOp a)) = Ok newItem ∧ taDoc a' = Some (newItem ∪ {["_id" := AStr (taId a)]})) ∧
  (taKind a ≠ Update → a' = a ∧ (taHasCond a = true → ∃ current present, bkFind B (taTable a) (taId a) = Ok current ∧
     EvalCondition format_float current (taOp a) = Ok (true, present))).

Lemma check_passed a a' : check_one a = Ok (Passed a') → met a a'.
Proof.
  unfold DynTxn.check_one, met. destruct (taHasCond a) eqn:Ec; destruct (decide (taKind a = Update)) as [Eu|Eu];
    rewrite ?(bool_decide_true _ Eu), ?(bool_decide_false _ Eu); cbn [negb andb].
  4: by intros [= <-].
  all: destruct (bkFind B (taTable a) (taId a)) as [current|err] eqn:Ef; [|done].
  1,3: destruct (item_cells room current) as [h cs] eqn:Ei; destruct (shown _) as [newItem|e] eqn:Es; [|by destruct e];
    intros [= <-]; cbn; split_and!; try done; intros _; by exists current, h, cs, newItem.
  destruct (EvalCondition format_float current (taOp a)) as [[[] present]|e] eqn:Ee; try done. intros [= <-]. split_and!; try done.
  intros _. split; [done|]. intros _. by exists current, present.
Qed.

Lemma existsb_none cs : existsb has_failed cs = false → ∃ actions, cs = map Passed actions ∧ omap passed cs = actions.
Proof.
  induction cs as [|[a|] cs IH]; cbn; [by exists []| |done]. intros (actions & -> & H)%IH. exists (a :: actions). cbn. by rewrite H.
Qed.

(** What stops a transaction between its opening and its end. *)
Definition stops (r : response) : Prop := match r with Internal _ | Invalid _ | CanceledBy _ => True | _ => False end.

Lemma check_stops actions r : mapM check_one actions = Err r → stops r.
Proof.
  induction actions as [|a actions IH]; cbn; [done|]. destruct (check_one a) as [c|r'] eqn:E; cbn.
  - destruct (mapM check_one actions); cbn; [done|]. intros [= ->]. by apply IH.
  - intros [= ->]. unfold DynTxn.check_one in E. repeat case_match; try done; by injection E as <-.
Qed.
Lemma writes_stop written : ∀ k ran r, run_writes written k = (ran, Some r) → stops r.
Proof.
  induction written as [|a written IH]; intros k ran r; cbn [DynTxn.run_writes]; [done|].
  destruct (statement_of a) as [[st|]|r'] eqn:E; [destruct (bkExec B k st); [by intros [= <- <-]|apply IH]|apply IH|].
  intros [= <- ->]. unfold DynTxn.statement_of in E. repeat case_match; try done; by injection E as <-.
Qed.

(** What a committed transaction has done. *)
Record applied (actions : list txnAction) (o : outcome) : Prop := mkApplied {
  ap_once : NoDup (map target actions);
  ap_met : ∃ written sts, Forall2 met actions written ∧ mapM statement_of written = Ok sts ∧ ocExecuted o = omap id sts;
}.

(** The condition of an action does not hold. *)
Definition unmet (a : txnAction) : Prop := ∃ current, bkFind B (taTable a) (taId a) = Ok current ∧
  if bool_decide (taKind a = Update) then
    shown (ApplyUpdate format_float room order (item_cells room current).1 (item_cells room current).2 (taKey a) (taOp a)) = Err ConditionalCheckFailed
  else ∃ present, EvalCondition format_float current (taOp a) = Ok (false, present).

Lemma check_failed a : check_one a = Ok ConditionFailed → unmet a.
Proof.
  unfold DynTxn.check_one, unmet. case_match; [done|]. destruct (bkFind B (taTable a) (taId a)) as [current|]; [|done].
  intros Hc. exists current. split; [done|]. case_bool_decide.
  - destruct (item_cells room current) as [h cs]. cbn [fst snd]. by destruct (shown _) as [newItem|[]].
  - destruct (EvalCondition format_float current (taOp a)) as [[[] present]|]; try done. by exists present.
Qed.

(** What each ending of a transaction means. *)
Definition meaning (actions : list txnAction) (o : outcome) : Prop :=
  match ocResponse o with
  | Done => ocCommitted o = true ∧ applied actions o
  | Canceled reasons => ocCommitted o = false ∧ ocExecuted o = [] ∧ true ∈ reasons ∧
      Forall2 (λ a r, if (r : bool) then unmet a else ∃ a', met a a') actions reasons
  | _ => ocCommitted o = false
  end.

Lemma run_txn_meaning actions : NoDup (map target actions) → meaning actions (run_txn actions).
Proof.
  intros Hnd. unfold DynTxn.run_txn, meaning. destruct (bkBegin B); [done|]. destruct (mapM check_one actions) as [cs|r] eqn:Ec.
  2:{ apply check_stops in Ec. cbn. by destruct r. }
  apply mapM_res_Ok in Ec. destruct (existsb has_failed cs) eqn:Ef.
  - cbn. split_and!; [done..| |].
    + apply existsb_exists in Ef as (c & Hin%list_elem_of_In & Hc). apply list_elem_of_fmap. by exists c.
    + clear -Ec. induction Ec as [|a c actions cs Hc _ IH]; cbn; constructor; [|done].
      destruct c as [a'|]; cbn; [exists a'; by apply check_passed|by apply check_failed].
  - apply existsb_none in Ef as (written & -> & Hw). rewrite Hw.
    destruct (run_writes written []) as [ran [r|]] eqn:Er; [|destruct (bkCommit B) as [err|]; [done|]].
    + apply writes_stop in Er. cbn. by destruct r.
    + cbn. split; [done|]. apply run_writes_spec in Er as (sts & Hs & ->). split; [done|]. exists written, sts. split_and!; [|done..].
      clear -Ec. remember (map Passed written) as cs eqn:E. revert written E.
      induction Ec as [|a c actions cs Hc _ IH]; intros [|a' written] E; try done. cbn in E. injection E as -> ->.
      constructor; [by apply check_passed|by apply IH].
Qed.

Definition opened (r : response) : Prop :=
  match r with NotConfigured | Refused _ | Responses _ => False | _ => True end.
Lemma run_txn_opened actions : opened (ocResponse (run_txn actions)).
Proof.
  unfold DynTxn.run_txn. destruct (bkBegin B); [done|]. destruct (mapM check_one actions) as [cs|r] eqn:Ec.
  2:{ apply check_stops in Ec. cbn. by destruct r. }
  destruct (existsb has_failed cs); [done|]. destruct (run_writes _ []) as [ran [r|]] eqn:Er; [|by destruct (bkCommit B)].
  apply writes_stop in Er. cbn. by destruct r.
Qed.

(** C19: a request for a transaction is refused before anything is done, or it comes to one of three ends:
    it is committed, and then every condition held on what was read and the statements run are exactly those
    of its actions, one per item and in order; it is canceled with nothing run, and then the reasons name
    exactly the actions whose condition failed; or a call failed and it is not committed. *)
Theorem all_or_nothing body :
  (¬ opened (ocResponse (transactWriteItems body)) ∧ ocExecuted (transactWriteItems body) = [] ∧ ocCommitted (transactWriteItems body) = false) ∨
  (opened (ocResponse (transactWriteItems body)) ∧ ∃ items actions,
    txn_items body = Ok items ∧ build items ∅ = Ok actions ∧ meaning actions (transactWriteItems body)).
Proof.
  unfold DynTxn.transactWriteItems. destruct (bkPostgres B); [|left; split; [by intros []|done]]. cbn [negb].
  destruct (txn_items body) as [items|r]; [|left; split; [by intros []|done]]. cbn [mbind res_bind].
  destruct (build items ∅) as [actions|r] eqn:Eb; [|left; split; [by intros []|done]].
  right. split; [apply run_txn_opened|]. exists items, actions. split_and!; [done..|]. apply run_txn_meaning. by eapply build_targets.
Qed.
End Atomic.

(** A backend of one table, whose reads find one item. *)
Definition backend_ex (found : option item) : backend :=
  mkBackend true (λ t, if String.eqb t "users" then Some ["id"] else None) None (λ _ _, Ok found) (λ _ _, None) None.
Definition request_ex : list (string * any) :=
  let key := AMap [("id", AMap [("S", AStr "u1")])] in
  let values := AMap [(":n", AMap [("N", AStr "1")])] in
  [("TransactItems", AList [
     AMap [("Update", AMap [("TableName", AStr "users"); ("Key", key); ("UpdateExpression", AStr "ADD hits :n");
                            ("ExpressionAttributeValues", values)])];
     AMap [("ConditionCheck", AMap [("TableName", AStr "users"); ("Key", AMap [("id", AMap [("S", AStr "u2")])]);
                                    ("ConditionExpression", AStr "attribute_exists(id)")])]])].
Example transact_ex :
  let run found := transactWriteItems (λ _, Some "1") (λ _, "1") (λ _, 0%nat) map_to_list (backend_ex found) request_ex in
  run (Some {["id" := AStr "u1"]}) =
    mkOutcome Done [(update_sql, "{" +:+ q "update" +:+ ":" +:+ q "users" +:+ "," +:+ q "updates" +:+ ":[{" +:+ q "q" +:+ ":{" +:+ q "_id" +:+ ":" +:+
      json_quote ("{" +:+ q "id" +:+ ":" +:+ q "u1" +:+ "}") +:+ "}," +:+ q "u" +:+ ":{" +:+ q "_id" +:+ ":" +:+ json_quote ("{" +:+ q "id" +:+ ":" +:+ q "u1" +:+ "}") +:+
      "," +:+ q "hits" +:+ ":1," +:+ q "id" +:+ ":" +:+ q "u1" +:+ "}," +:+ q "upsert" +:+ ":true}]}")] true ∧
  run None = mkOutcome (Canceled [false; true]) [] false.
Proof. vm_compute. done. Qed.
