(* ===== verification/DynAccess.v ===== *)
(** * Who may reach which DynamoDB table (console-api/cmd/aws-shim/dynamo.go, dynamo_accounts.go, account_scope.go)

    The front door's way from a request to its handler: the operation, the checks it needs, the names turned
    into the caller's account's keys, and the decision. *)

From stdpp Require Import gmap sorting.
From S2P Require Import Prelude GoStrings DynExpr.
#[local] Open Scope string_scope.
#[local] Open Scope Z_scope.
#[local] Open Scope list_scope.

(** ** Keys of accounts *)

(** Whom a request acts for: a member account, or the management account. *)
Record caller := mkCaller {
  clMember : bool;
  clAccount : string;
}.

Definition accountKey (c : caller) (name : string) : string :=
  if clMember c then clAccount c +:+ ":" +:+ name else name.

(** memberKeyRe: twelve digits, a colon, and a character that is no line feed. *)
Fixpoint digits_then (n : nat) (s : string) : option string :=
  match n, s with
  | O, _ => Some s
  | S n, String c s => if is_digit c then digits_then n s else None
  | S _, "" => None
  end.
Definition is_member_key (key : string) : bool :=
  match digits_then 12 key with
  | Some (String c (String d _)) => Ascii.eqb c ":" && negb (byte_of d =? 10)
  | _ => false
  end.

Definition nameOfAccountKey (c : caller) (key : string) : option string :=
  if clMember c then
    match CutPrefix key (clAccount c +:+ ":") with Some "" => None | r => r end
  else if is_member_key key then None else Some key.

(** splitAccountKey, in an install whose management account is [management]. *)
Definition splitAccountKey (management key : string) : string * string :=
  if is_member_key key then (stake 12 key, sdrop 13 key) else (management, key).

Definition tableNameRefusal (name : string) : bool := Contains name ":".
(** tableName. *)
Definition tableName (c : caller) (key : string) : string := default key (nameOfAccountKey c key).

(** ** Operations and the checks they need *)

(** opFromTarget. *)
Definition opFromTarget (target : string) : string := after_last "." target.

Definition verbForOp (op : string) : option string :=
  if existsb (String.eqb op) ["GetItem"; "Query"; "Scan"; "BatchGetItem"; "TransactGetItems"; "DescribeTable"; "DescribeTimeToLive"; "ListTables"; "DescribeContinuousBackups"]
  then Some "get"
  else if existsb (String.eqb op) ["PutItem"; "UpdateItem"; "BatchWriteItem"; "TransactWriteItems"; "CreateTable"; "UpdateTimeToLive"; "UpdateContinuousBackups"; "RestoreTableToPointInTime"]
  then Some "create"
  else if existsb (String.eqb op) ["DeleteItem"; "DeleteTable"] then Some "delete"
  else None.

Definition is_batch (op : string) : bool := String.eqb op "BatchGetItem" || String.eqb op "BatchWriteItem".
Definition is_txn (op : string) : bool := String.eqb op "TransactGetItems" || String.eqb op "TransactWriteItems".

Definition dynamoTxnKinds : list (string * string) :=
  [("Get", "dynamodb:GetItem"); ("Put", "dynamodb:PutItem"); ("Update", "dynamodb:UpdateItem");
   ("Delete", "dynamodb:DeleteItem"); ("ConditionCheck", "dynamodb:ConditionCheckItem")].

Definition anyResource : string := "*".

Definition list_at (m : list (string * any)) (k : string) : list any :=
  match key_of m k with Some (AList l) => l | _ => [] end.
(** The body under a kind of a TransactItem. *)
Definition kind_body (raw : any) (k : string) : option (list (string * any)) :=
  match key_of (plainMap raw) k with Some (AMap m) => Some m | _ => None end.

(** An action, and the table it is on: none is Table::*. *)
Definition check : Type := string * string.

Definition named (action t : string) : list check := if String.eqb t "" then [] else [(action, t)].
Definition txn_checks (raw : any) : list check :=
  flat_map (λ k : string * string, match kind_body raw k.1 with
                                   | Some m => let t := str_at m "TableName" in [(k.2, if String.eqb t "" then anyResource else t)]
                                   | None => []
                                   end) dynamoTxnKinds.

Definition dynamoRoleChecks (op table : string) (body : list (string * any)) : list check :=
  let action := "dynamodb:" +:+ op in
  let out :=
    if is_batch op then flat_map (named action) (merge_sort string_le (map fst (map_at body "RequestItems")))
    else if is_txn op then flat_map txn_checks (list_at body "TransactItems")
    else if String.eqb op "RestoreTableToPointInTime" then named action (str_at body "SourceTableName") ++ named action (str_at body "TargetTableName")
    else named action table in
  match out with [] => [(action, "")] | _ => out end.

(** ** The names turned into keys *)

(** m[k] = v. *)
Fixpoint put_entry (m : list (string * any)) (k : string) (v : any) : list (string * any) :=
  match m with
  | [] => [(k, v)]
  | (k', v') :: m => if String.eqb k' k then (k, v) :: m else (k', v') :: put_entry m k v
  end.

Section Scope.
Context (c : caller).

(** A name under [field], when there is one, becomes its key. *)
Definition scope_field (m : list (string * any)) (field : string) : list (string * any) :=
  let t := str_at m field in if String.eqb t "" then m else put_entry m field (AStr (accountKey c t)).
Definition field_names (m : list (string * any)) (field : string) : list string :=
  let t := str_at m field in if String.eqb t "" then [] else [t].

Definition scope_kind (raw : any) (k : string * string) : any :=
  match raw, kind_body raw k.1 with
  | AMap it, Some m => AMap (put_entry it k.1 (AMap (scope_field m "TableName")))
  | _, _ => raw
  end.
Definition scope_item (raw : any) : any := foldl scope_kind raw dynamoTxnKinds.
Definition item_names (raw : any) : list string :=
  flat_map (λ k : string * string, match kind_body raw k.1 with Some m => field_names m "TableName" | None => [] end) dynamoTxnKinds.

(** The names a request carries, in the order they are scoped. *)
Definition names_of_request (op table : string) (body : list (string * any)) : list string :=
  (if String.eqb table "" then [] else [table]) ++
  (if String.eqb op "ListTables" then field_names body "ExclusiveStartTableName"
   else if is_batch op then map fst (map_at body "RequestItems")
   else if is_txn op then flat_map item_names (list_at body "TransactItems")
   else if String.eqb op "RestoreTableToPointInTime" then field_names body "SourceTableName" ++ field_names body "TargetTableName"
   else []).

(** scopeDynamoRequest: the table's key, the first name that is refused, and the request as it is then. *)
Definition scopeDynamoRequest (op table : string) (body : list (string * any)) : string * option string * list (string * any) :=
  let refusal := List.find tableNameRefusal (names_of_request op table body) in
  let key := if String.eqb table "" then "" else accountKey c table in
  let body := if String.eqb table "" then body else put_entry body "TableName" (AStr key) in
  let body :=
    if is_batch op then
      match key_of body "RequestItems" with
      | Some (AMap items) => put_entry body "RequestItems" (AMap (map (λ kv, (accountKey c kv.1, kv.2)) items))
      | _ => body
      end
    else if is_txn op then
      match key_of body "TransactItems" with
      | Some (AList items) => put_entry body "TransactItems" (AList (map scope_item items))
      | _ => body
      end
    else if String.eqb op "RestoreTableToPointInTime" then scope_field (scope_field body "SourceTableName") "TargetTableName"
    else body in
  (key, refusal, body).

(** ** The front door *)

Inductive served :=
| MissingAction
| UnknownOperation
| NameRefused (name : string)
| AccessDenied (ch : check)
| Handled (op key : string) (body : list (string * any)).

(** decideEach: the first check that is not allowed. *)
Definition decideEach (decide : check → bool) (checks : list check) : option check := List.find (λ ch, negb (decide ch)) checks.

Definition serve (decide : check → bool) (target : string) (body : list (string * any)) : served :=
  let op := opFromTarget target in
  if String.eqb op "" then MissingAction
  else
    match verbForOp op with
    | None => UnknownOperation
    | Some _ =>
        let table := if String.eqb op "ListTables" then "" else str_at body "TableName" in
        let '(key, refusal, scoped) := scopeDynamoRequest op table body in
        match refusal with
        | Some name => NameRefused name
        | None =>
            match decideEach decide (dynamoRoleChecks op table body) with
            | Some ch => AccessDenied ch
            | None => Handled op key scoped
            end
        end
    end.
End Scope.

(** The keys of the tables a handler works on. *)
Definition touched (op key : string) (body : list (string * any)) : list string :=
  if String.eqb op "ListTables" then []
  else if is_batch op then map fst (map_at body "RequestItems")
  else if is_txn op then
    flat_map item_names (list_at body "TransactItems")
  else if String.eqb op "RestoreTableToPointInTime" then field_names body "SourceTableName" ++ field_names body "TargetTableName"
  else if String.eqb key "" then [] else [key].

Example serve_ex :
  let body := [("TransactItems", AList [AMap [("Put", AMap [("TableName", AStr "users"); ("Item", AMap [])])]])] in
  serve (mkCaller true "111122223333") (λ ch, bool_decide (ch = ("dynamodb:PutItem", "users"))) "DynamoDB_20120810.TransactWriteItems" body =
    Handled "TransactWriteItems" ""
      [("TransactItems", AList [AMap [("Put", AMap [("TableName", AStr "111122223333:users"); ("Item", AMap [])])]])] ∧
  serve (mkCaller true "111122223333") (λ _, true) "DynamoDB_20120810.GetItem" [("TableName", AStr "444455556666:users")] = NameRefused "444455556666:users" ∧
  splitAccountKey "999999999999" "111122223333:users" = ("111122223333", "users") ∧
  dynamoRoleChecks "ListTables" "" [] = [("dynamodb:ListTables", "")].
Proof. vm_compute. done. Qed.

(** ** Reading what was written *)

Lemma key_of_put m k v k' : key_of (put_entry m k v) k' = if String.eqb k k' then Some v else key_of m k'.
Proof.
  induction m as [|[x w] m IH]; cbn; [done|]. destruct (String.eqb_spec x k) as [->|Hx]; cbn.
  - by destruct (String.eqb k k').
  - rewrite IH. destruct (String.eqb_spec x k') as [->|]; [|done]. by rewrite (proj2 (String.eqb_neq _ _) (not_eq_sym Hx)).
Qed.
Lemma str_at_put m k v k' : str_at (put_entry m k v) k' = if String.eqb k k' then match v with AStr s => s | _ => "" end else str_at m k'.
Proof. unfold str_at. rewrite key_of_put. by destruct (String.eqb k k'). Qed.

Section Scoped.
Context (c : caller).

Lemma accountKey_nonempty t : t ≠ "" → accountKey c t ≠ "".
Proof. unfold accountKey. destruct (clMember c); [|done]. intros _. by destruct (clAccount c). Qed.

Lemma str_at_scope m f g : str_at (scope_field c m f) g =
  if String.eqb f g then (if String.eqb (str_at m g) "" then "" else accountKey c (str_at m g)) else str_at m g.
Proof.
  unfold scope_field. destruct (String.eqb_spec f g) as [->|Hf].
  - destruct (String.eqb_spec (str_at m g) "") as [E|E]; [done|]. by rewrite str_at_put, String.eqb_refl.
  - case_match; [done|]. rewrite str_at_put. by rewrite (proj2 (String.eqb_neq _ _) Hf).
Qed.
Lemma field_names_scope m f : field_names (scope_field c m f) f = map (accountKey c) (field_names m f).
Proof.
  unfold field_names. rewrite str_at_scope, String.eqb_refl. destruct (String.eqb_spec (str_at m f) "") as [E|E]; [done|].
  by rewrite (proj2 (String.eqb_neq _ _) (accountKey_nonempty _ E)).
Qed.
Lemma field_names_other m f g : f ≠ g → field_names (scope_field c m f) g = field_names m g.
Proof. intros Hf. unfold field_names. by rewrite str_at_scope, (proj2 (String.eqb_neq _ _) Hf). Qed.

Lemma kind_body_scope raw k k' : kind_body (scope_kind c raw k) k' =
  if String.eqb k.1 k' then (λ m, scope_field c m "TableName") <$> kind_body raw k' else kind_body raw k'.
Proof.
  unfold scope_kind. destruct raw as [| | | | | | | |it]; try by destruct (String.eqb k.1 k').
  destruct (kind_body (AMap it) k.1) as [m|] eqn:E.
  - unfold kind_body. cbn [plainMap]. rewrite key_of_put. destruct (String.eqb_spec k.1 k') as [<-|]; [|done].
    unfold kind_body in E. cbn [plainMap] in E. destruct (key_of it k.1) as [[]|]; try done. by injection E as ->.
  - destruct (String.eqb_spec k.1 k') as [<-|]; [|done]. by rewrite E.
Qed.
Lemma kind_body_foldl ks : ∀ raw k, NoDup (map fst ks) → kind_body (foldl (scope_kind c) raw ks) k =
  if existsb (λ k', String.eqb k'.1 k) ks then (λ m, scope_field c m "TableName") <$> kind_body raw k else kind_body raw k.
Proof.
  induction ks as [|k' ks IH]; intros raw k Hnd; [done|]. cbn in Hnd. apply NoDup_cons in Hnd as [Hn Hnd]. cbn [foldl existsb].
  rewrite IH, kind_body_scope by done. destruct (String.eqb_spec k'.1 k) as [<-|]; [|done]. cbn [orb].
  destruct (existsb _ ks) eqn:E; [|done]. apply existsb_exists in E as (x & Hx%list_elem_of_In & Hxk%String.eqb_eq).
  destruct Hn. rewrite <-Hxk. by apply list_elem_of_fmap_2.
Qed.
Lemma kind_body_item raw k : k ∈ dynamoTxnKinds → kind_body (scope_item c raw) k.1 = (λ m, scope_field c m "TableName") <$> kind_body raw k.1.
Proof.
  intros Hk. unfold scope_item. rewrite kind_body_foldl.
  - rewrite (proj2 (existsb_exists _ _)); [done|]. exists k. split; [by apply list_elem_of_In|apply String.eqb_refl].
  - vm_compute. repeat constructor; set_solver.
Qed.

Lemma map_flat_map {X} (f : string → string) (g : X → list string) l : map f (flat_map g l) = flat_map (λ x, map f (g x)) l.
Proof. induction l as [|x l IH]; cbn; [done|]. by rewrite map_app, IH. Qed.
Lemma flat_map_ext_in {X} (f g : X → list string) l : (∀ x, x ∈ l → f x = g x) → flat_map f l = flat_map g l.
Proof. intros H. induction l as [|x l IH]; cbn; [done|]. rewrite H by left. by rewrite IH by (intros; apply H; by right). Qed.
Lemma flat_map_map {X Y} (f : Y → list string) (g : X → Y) l : flat_map f (map g l) = flat_map (λ x, f (g x)) l.
Proof. induction l as [|x l IH]; cbn; [done|]. by rewrite IH. Qed.

Lemma item_names_scope raw : item_names (scope_item c raw) = map (accountKey c) (item_names raw).
Proof.
  unfold item_names. rewrite map_flat_map. apply flat_map_ext_in. intros k Hk. rewrite kind_body_item by done.
  destruct (kind_body raw k.1) as [m|]; [|done]. cbn. apply field_names_scope.
Qed.

(** What a handler works on is the keys of the tables the request names. *)
Lemma touched_scoped op table body key refusal body' : scopeDynamoRequest c op table body = (key, refusal, body') →
  touched op key body' = map (accountKey c) (touched op table body).
Proof.
  unfold scopeDynamoRequest, touched. cbv zeta. intros [= Hk _ <-].
  set (b1 := if String.eqb table "" then body else _).
  assert (Hb1 : ∀ f, f ≠ "TableName" → key_of b1 f = key_of body f).
  { intros f Hf. unfold b1. case_match; [done|]. rewrite key_of_put. by rewrite (proj2 (String.eqb_neq _ _) (not_eq_sym Hf)). }
  destruct (String.eqb op "ListTables"); [done|]. destruct (is_batch op); [|destruct (is_txn op)].
  - unfold map_at at 2. rewrite Hb1 by done. destruct (key_of body "RequestItems") as [[| | | | | | | |items]|] eqn:E;
      try (unfold map_at; by rewrite Hb1, E by done).
    unfold map_at. rewrite key_of_put, String.eqb_refl. by rewrite !map_map.
  - unfold list_at at 2. rewrite Hb1 by done. destruct (key_of body "TransactItems") as [[| | | | | | |items|]|] eqn:E;
      try (unfold list_at; by rewrite Hb1, E by done).
    unfold list_at. rewrite key_of_put, String.eqb_refl, flat_map_map, map_flat_map. apply flat_map_ext_in. intros raw _. apply item_names_scope.
  - destruct (String.eqb op "RestoreTableToPointInTime").
    + assert (Hstr : ∀ f, f ≠ "TableName" → field_names b1 f = field_names body f) by (intros f Hf; unfold field_names, str_at; by rewrite Hb1).
      rewrite (field_names_other _ "TargetTableName" "SourceTableName"), !field_names_scope by done.
      by rewrite (field_names_other _ "SourceTableName" "TargetTableName"), !Hstr, map_app by done.
    + subst key. destruct (String.eqb_spec table "") as [->|Ht]; [done|].
      by rewrite (proj2 (String.eqb_neq _ _) (accountKey_nonempty _ Ht)).
Qed.

(** The names a handler's tables have are among those that are scoped, and each is checked. *)
Lemma touched_names op table body n : n ∈ touched op table body → op ≠ "ListTables" → n ∈ names_of_request op table body.
Proof.
  unfold touched, names_of_request. intros Hn Hop. rewrite (proj2 (String.eqb_neq _ _) Hop) in *. rewrite elem_of_app.
  destruct (is_batch op); [by right|]. destruct (is_txn op); [by right|]. destruct (String.eqb op _); [by right|]. left. done.
Qed.

Lemma touched_checked op table body n : n ∈ touched op table body → n ≠ "" → ∃ action, (action, n) ∈ dynamoRoleChecks op table body.
Proof.
  unfold touched, dynamoRoleChecks. cbv zeta. intros Hn Hne.
  assert (Hl : ∀ (out : list check) d action, (action, n) ∈ out → (action, n) ∈ match out with [] => d | _ => out end)
    by (intros [|x out] d action Hin; [by apply not_elem_of_nil in Hin|done]).
  assert (Hnm : ∀ action, (action, n) ∈ named action n) by (intros action; unfold named; rewrite (proj2 (String.eqb_neq _ _) Hne); by left).
  assert (Hf : ∀ m f action, n ∈ field_names m f → (action, n) ∈ named action (str_at m f)).
  { intros m f action. unfold field_names. cbv zeta. destruct (String.eqb (str_at m f) ""); [by intros ?%not_elem_of_nil|].
    intros ->%list_elem_of_singleton. apply Hnm. }
  destruct (String.eqb op "ListTables"); [by apply not_elem_of_nil in Hn|]. destruct (is_batch op).
  { eexists. apply Hl. apply elem_of_flat_map. exists n. split; [by rewrite merge_sort_Permutation|apply Hnm]. }
  destruct (is_txn op).
  { apply elem_of_flat_map in Hn as (raw & Hraw & Hn). unfold item_names in Hn. apply elem_of_flat_map in Hn as (k & Hk & Hn).
    destruct (kind_body raw k.1) as [m|] eqn:Em; [|by apply not_elem_of_nil in Hn]. unfold field_names in Hn.
    destruct (String.eqb_spec (str_at m "TableName") "") as [E|E]; [by apply not_elem_of_nil in Hn|]. apply list_elem_of_singleton in Hn as ->.
    exists k.2. apply Hl. apply elem_of_flat_map. exists raw. split; [done|]. unfold txn_checks. apply elem_of_flat_map. exists k.
    split; [done|]. rewrite Em. cbv zeta. rewrite (proj2 (String.eqb_neq _ _) E). by left. }
  destruct (String.eqb op "RestoreTableToPointInTime").
  { eexists. apply Hl. apply elem_of_app. apply elem_of_app in Hn as [Hn|Hn]; [left|right]; by apply Hf. }
  destruct (String.eqb_spec table "") as [->|Ht]; [by apply not_elem_of_nil in Hn|]. apply list_elem_of_singleton in Hn as ->.
  eexists. apply Hl, Hnm.
Qed.

Lemma find_none {A} (f : A → bool) l : List.find f l = None → ∀ x, x ∈ l → f x = false.
Proof. intros H x Hx. by apply (find_none f l H), list_elem_of_In. Qed.
End Scoped.

(** ** Keys of different accounts *)

Definition account_ok (c : caller) : Prop := clMember c = true → contains_char ":" (clAccount c) = false.

Lemma Contains_colon s : Contains s ":" = contains_char ":" s.
Proof.
  unfold Contains. destruct (contains_char ":" s) eqn:E.
  - apply bool_decide_eq_true. destruct (Cut s ":") eqn:Ec; [done|]. apply Cut_None_char in Ec. congruence.
  - apply bool_decide_eq_false. apply Cut_None_char in E. rewrite E. by intros [? [=]].
Qed.

Lemma accountKey_inj c1 c2 n1 n2 : account_ok c1 → account_ok c2 → contains_char ":" n1 = false → contains_char ":" n2 = false →
  accountKey c1 n1 = accountKey c2 n2 → n1 = n2 ∧ clMember c1 = clMember c2 ∧ (clMember c1 = true → clAccount c1 = clAccount c2).
Proof.
  intros H1 H2 Hn1 Hn2. unfold accountKey. destruct (clMember c1) eqn:E1, (clMember c2) eqn:E2.
  - intros H. assert (Hc : Cut (clAccount c1 +:+ ":" +:+ n1) ":" = Cut (clAccount c2 +:+ ":" +:+ n2) ":") by (by rewrite H).
    rewrite (Cut_app_first ":" "" _ n1), (Cut_app_first ":" "" _ n2) in Hc by auto. by injection Hc as -> ->.
  - intros H. rewrite <-H, !contains_char_append in Hn2. cbn in Hn2. by rewrite orb_true_r in Hn2.
  - intros H. rewrite H, !contains_char_append in Hn1. cbn in Hn1. by rewrite orb_true_r in Hn1.
  - done.
Qed.

Lemma named_refusal n : tableNameRefusal n = false → contains_char ":" n = false.
Proof. unfold tableNameRefusal. by rewrite Contains_colon. Qed.

Lemma serve_handled c decide target body op key body' : serve c decide target body = Handled op key body' →
  ∃ table, op = opFromTarget target ∧ scopeDynamoRequest c op table body = (key, None, body') ∧
    decideEach decide (dynamoRoleChecks op table body) = None.
Proof.
  unfold serve. cbv zeta. destruct (String.eqb (opFromTarget target) ""); [done|]. destruct (verbForOp _); [|done].
  destruct (scopeDynamoRequest c _ _ body) as [[k r] b'] eqn:E. destruct r; [done|].
  destruct (decideEach _ _) eqn:Ed; [done|]. intros [= <- <- <-]. eexists. split_and!; [done|exact E|done].
Qed.
Lemma names_refused c op table body key body' n : scopeDynamoRequest c op table body = (key, None, body') →
  n ∈ names_of_request op table body → contains_char ":" n = false.
Proof.
  unfold scopeDynamoRequest. cbv zeta. intros [= _ Hr _] Hn. apply named_refusal. by apply (find_none _ _ Hr).
Qed.

(** C11: a request that reaches its handler works only on keys of the caller's own account: each is the key of a
    table the request names, the evaluator allowed an action on that name, and no other account has a table
    with that key.  It holds whatever the body is, in batches, transactions and restores too. *)
Theorem table_access c decide target body op key body' k :
  account_ok c → serve c decide target body = Handled op key body' → k ∈ touched op key body' →
  ∃ n, k = accountKey c n ∧ contains_char ":" n = false ∧
    (n ≠ "" → ∃ action table, (action, n) ∈ dynamoRoleChecks op table body ∧ decide (action, n) = true) ∧
    ∀ c' n', account_ok c' → contains_char ":" n' = false → accountKey c' n' = k →
      n' = n ∧ clMember c' = clMember c ∧ (clMember c = true → clAccount c' = clAccount c).
Proof.
  intros Hc (table & -> & Hs & Hd)%serve_handled Hk. rewrite (touched_scoped c _ _ _ _ _ _ Hs) in Hk.
  apply list_elem_of_fmap in Hk as (n & -> & Hn). exists n.
  assert (Hcol : contains_char ":" n = false).
  { eapply names_refused; [exact Hs|]. apply touched_names; [done|]. intros E. by rewrite E in Hn; apply not_elem_of_nil in Hn. }
  split_and!; [done..| |].
  - intros Hne. destruct (touched_checked _ _ _ _ Hn Hne) as [action Hin]. exists action, table. split; [done|].
    apply negb_false_iff, (find_none _ _ Hd _ Hin).
  - intros c' n' Hc' Hn' E. destruct (accountKey_inj c' c n' n Hc' Hc Hn' Hcol E) as (H1 & H2 & H3). split_and!; [done..|].
    intros Hm. apply H3. by rewrite H2.
Qed.

Example table_access_witness : ∃ n, "111122223333:users" = accountKey (mkCaller true "111122223333") n ∧ contains_char ":" n = false.
Proof.
  destruct (table_access (mkCaller true "111122223333") (λ _, true) "DynamoDB_20120810.GetItem" [("TableName", AStr "users")]
    "GetItem" "111122223333:users" [("TableName", AStr "111122223333:users")] "111122223333:users") as (n & H1 & H2 & _).
  - done.
  - vm_compute. done.
  - left.
  - exists n. exact (conj H1 H2).
Defined.

(** A table of a member account whose name begins with a line feed has a key that reads as the management
    account's. *)
Definition line_feed : string := String (ascii_of 10) "x".
Example line_feed_table :
  let key := accountKey (mkCaller true "111122223333") line_feed in
  nameOfAccountKey (mkCaller false "999999999999") key = Some key ∧ splitAccountKey "999999999999" key = ("999999999999", key).
Proof. vm_compute. done. Qed.
