(* ===== verification/VtlSyntax.v ===== *)
(** * Velocity expressions (vtl/parse.go, the trees of vtl/expr.go)

    The expressions of a mapping template: the tokens of a text, and the recursive-descent parser over
    them.  The lexer's index is the list of tokens that are left. *)

From stdpp Require Import list.
From S2P Require Import Prelude GoStrings.
From S2P Require Export GoEncoding.
#[local] Open Scope string_scope.
#[local] Open Scope Z_scope.
#[local] Open Scope list_scope.

(** ** Trees *)

Inductive lit := LNull | LBool (b : bool) | LNum (f : spec_float) | LStr (s : string).

(** .prop, .method(args) and [index]. *)
Inductive accessor (E : Type) :=
| AProp (name : string)
| AMethod (name : string) (args : list E)
| AIndex (index : E).
Arguments AProp {E} name.
Arguments AMethod {E} name args.
Arguments AIndex {E} index.

Inductive exprNode :=
| Lit (v : lit)
| Ref (root : string) (chain : list (accessor exprNode))
| Bin (op : string) (l r : exprNode)
| Un (op : string) (x : exprNode)
| MapExpr (pairs : list (exprNode * exprNode))
| ListExpr (elems : list exprNode).

(** [Panicked]: an index past the end of a slice.  [OutOfFuel] is the model's own. *)
Inductive vtl_error :=
| UnexpectedChar (c : ascii) (s : string)
| UnterminatedString (s : string)
| TrailingTokens (s : string)
| ExpectedIdent (after : string)
| Expected (what : string)
| UnexpectedKeyword (kw : string)
| UnexpectedToken (val : string)
| MalformedSet (arg : string)
| SetTarget (lhs : string)
| MalformedForeach (arg : string)
| ForeachVar (v : string)
| WithoutEnd (directive : string)
| UnknownOp (op : string)
| UnknownUtil (path : string)
| IndexOfUtil
| UtilNotCallable (path : string)
| Thrown (message : string)
| Panicked
| OutOfFuel.

(** ** Tokens *)

Inductive token :=
| TNum (val : string)
| TStr (val : string)
| TIdent (val : string)
| TOp (val : string)
| TPunct (val : string)
| TDollar
| TKw (val : string)
| TEof.

#[export] Instance token_eq_dec : EqDecision token.
Proof. solve_decision. Defined.

(** The val of a token. *)
Definition val_of (t : token) : string :=
  match t with TNum s | TStr s | TIdent s | TOp s | TPunct s | TKw s => s | TDollar => "$" | TEof => "" end.

Definition isIdentStart (c : ascii) : bool := in_range "a" "z" c || in_range "A" "Z" c || Ascii.eqb c "_".
Definition isIdentPart (c : ascii) : bool := isIdentStart c || is_digit c.
Definition is_quote (c : ascii) : bool := Ascii.eqb c dquote || Ascii.eqb c "'".
Definition is_blank (c : ascii) : bool := Ascii.eqb c " " || (byte_of c =? 9) || (byte_of c =? 10) || (byte_of c =? 13).

(** Up to the closing quote, and what follows it; a backslash stands for the character after it. *)
Fixpoint scanString (q : ascii) (s : string) : option (string * string) :=
  match s with
  | "" => None
  | String c t =>
      if Ascii.eqb c backslash then
        match t with
        | String d t => '(str, rest) ← scanString q t; Some (String d str, rest)
        | "" => None
        end
      else if Ascii.eqb c q then Some ("", t)
      else '(str, rest) ← scanString q t; Some (String c str, rest)
  end.

(** The characters of a kind that a text begins with, and the rest. *)
Fixpoint span (p : ascii → bool) (s : string) : string * string :=
  match s with
  | "" => ("", "")
  | String c t => if p c then let '(w, rest) := span p t in (String c w, rest) else ("", s)
  end.
Definition is_number_part (c : ascii) : bool := is_digit c || Ascii.eqb c ".".

Definition keywords : list string := ["true"; "false"; "null"; "in"].
Definition word_token (w : string) : token := if existsb (String.eqb w) keywords then TKw w else TIdent w.

(** The operator a text begins with. *)
Definition scanOp (s : string) : option (string * string) :=
  match s with
  | "" => None
  | String c t =>
      let one := if contains_char c "<>!+" then Some (String c "", t) else None in
      match t with
      | String d t' =>
          let two := String c (String d "") in
          if existsb (String.eqb two) ["=="; "!="; "<="; ">="; "&&"; "||"] then Some (two, t') else one
      | "" => one
      end
  end.

Fixpoint lex_go (fuel : nat) (s : string) : res vtl_error (list token) :=
  match fuel, s with
  | _, "" => Ok [TEof]
  | O, _ => Err OutOfFuel
  | S fuel, String c t =>
      if is_blank c then lex_go fuel t
      else if is_quote c then
        match scanString c t with
        | Some (str, rest) => ts ← lex_go fuel rest; Ok (TStr str :: ts)
        | None => Err (UnterminatedString s)
        end
      else if is_digit c then let '(n, rest) := span is_number_part s in ts ← lex_go fuel rest; Ok (TNum n :: ts)
      else if Ascii.eqb c "$" then ts ← lex_go fuel t; Ok (TDollar :: ts)
      else if isIdentStart c then let '(w, rest) := span isIdentPart s in ts ← lex_go fuel rest; Ok (word_token w :: ts)
      else if contains_char c "().[]{},:" then ts ← lex_go fuel t; Ok (TPunct (String c "") :: ts)
      else match scanOp s with
           | Some (op, rest) => ts ← lex_go fuel rest; Ok (TOp op :: ts)
           | None => Err (UnexpectedChar c s)
           end
  end.
Definition lex (s : string) : res vtl_error (list token) := lex_go (String.length s) s.

(** ** The parser *)

Abbreviation tokens := (list token).

(** toks[t], and the tokens after it. *)
Definition next (ts : tokens) : res vtl_error (token * tokens) :=
  match ts with t :: ts => Ok (t, ts) | [] => Err Panicked end.
(** acceptOp and acceptPunct: what is left when the next token is this one. *)
Definition accept (t : token) (ts : tokens) : res vtl_error (option tokens) :=
  '(t', rest) ← next ts; Ok (if decide (t = t') then Some rest else None).
Definition acceptPunct (p : string) : tokens → res vtl_error (option tokens) := accept (TPunct p).
Definition expectPunct (p : string) (ts : tokens) : res vtl_error tokens :=
  r ← acceptPunct p ts; match r with Some ts => Ok ts | None => Err (Expected p) end.

(** parseOr, parseAnd, parseEq, parseCmp and parseAdd are one loop each over operands of the next: the
    operators of each, from the loosest. *)
Definition level_ops (level : nat) : list string :=
  match level with
  | 0%nat => ["||"]
  | 1%nat => ["&&"]
  | 2%nat => ["=="; "!="]
  | 3%nat => ["<"; ">"; "<="; ">="]
  | 4%nat => ["+"]
  | _ => []
  end.
(** The next token when it is one of the operators. *)
Definition acceptOp (ops : list string) (ts : tokens) : res vtl_error (option (string * tokens)) :=
  '(t, rest) ← next ts; Ok (match t with TOp op => if bool_decide (op ∈ ops) then Some (op, rest) else None | _ => None end).

(** f, _ := strconv.ParseFloat(...) on digits and points: an error of range gives the infinity, one of
    syntax 0. *)
Definition number (s : string) : spec_float :=
  match ParseFloat s, mantissa false s 0 0 false false with
  | Some f, _ => f
  | None, Some (_, _, "") => S754_infinity false
  | None, _ => S754_zero false
  end.
Definition literal (kw : string) : res vtl_error exprNode :=
  if String.eqb kw "true" then Ok (Lit (LBool true))
  else if String.eqb kw "false" then Ok (Lit (LBool false))
  else if String.eqb kw "null" then Ok (Lit LNull)
  else Err (UnexpectedKeyword kw).

Fixpoint parse_level (fuel level : nat) (ts : tokens) {struct fuel} : res vtl_error (exprNode * tokens) :=
  match fuel with
  | O => Err OutOfFuel
  | S fuel =>
      if (5 <=? level)%nat then parseUnary fuel ts
      else '(n, ts) ← parse_level fuel (S level) ts; level_rest fuel level n ts
  end
(** for lx.acceptOp(...) *)
with level_rest (fuel level : nat) (n : exprNode) (ts : tokens) {struct fuel} : res vtl_error (exprNode * tokens) :=
  match fuel with
  | O => Err OutOfFuel
  | S fuel =>
      a ← acceptOp (level_ops level) ts;
      match a with
      | Some (op, ts) => '(r, ts) ← parse_level fuel (S level) ts; level_rest fuel level (Bin op n r) ts
      | None => Ok (n, ts)
      end
  end
with parseUnary (fuel : nat) (ts : tokens) {struct fuel} : res vtl_error (exprNode * tokens) :=
  match fuel with
  | O => Err OutOfFuel
  | S fuel =>
      a ← acceptOp ["!"] ts;
      match a with
      | Some (op, ts) => '(x, ts) ← parseUnary fuel ts; Ok (Un op x, ts)
      | None => parsePostfix fuel ts
      end
  end
with parsePostfix (fuel : nat) (ts : tokens) {struct fuel} : res vtl_error (exprNode * tokens) :=
  match fuel with
  | O => Err OutOfFuel
  | S fuel =>
      '(n, ts) ← parsePrimary fuel ts;
      match n with Ref root chain => chain_rest fuel root chain ts | _ => Ok (n, ts) end
  end
(** The accessors that follow a reference. *)
with chain_rest (fuel : nat) (root : string) (chain : list (accessor exprNode)) (ts : tokens) {struct fuel} : res vtl_error (exprNode * tokens) :=
  match fuel with
  | O => Err OutOfFuel
  | S fuel =>
      dot ← acceptPunct "." ts;
      match dot with
      | Some ts =>
          '(t, rest) ← next ts;
          match t with
          | TIdent name =>
              open ← acceptPunct "(" rest;
              match open with
              | Some ts =>
                  close ← acceptPunct ")" ts;
                  '(args, ts) ← match close with Some ts => Ok ([], ts) | None => parseElems fuel ")" [] ts end;
                  chain_rest fuel root (chain ++ [AMethod name args]) ts
              | None => chain_rest fuel root (chain ++ [AProp name]) rest
              end
          | _ => Err (ExpectedIdent ".")
          end
      | None =>
          open ← acceptPunct "[" ts;
          match open with
          | Some ts =>
              '(idx, ts) ← parse_level fuel 0 ts;
              ts ← expectPunct "]" ts;
              chain_rest fuel root (chain ++ [AIndex idx]) ts
          | None => Ok (Ref root chain, ts)
          end
      end
  end
(** parseArgs and parseList: the expressions up to a bracket, of which there is one. *)
with parseElems (fuel : nat) (close : string) (elems : list exprNode) (ts : tokens) {struct fuel} : res vtl_error (list exprNode * tokens) :=
  match fuel with
  | O => Err OutOfFuel
  | S fuel =>
      '(e, ts) ← parse_level fuel 0 ts;
      closed ← acceptPunct close ts;
      match closed with
      | Some ts => Ok (elems ++ [e], ts)
      | None => ts ← expectPunct "," ts; parseElems fuel close (elems ++ [e]) ts
      end
  end
with parsePrimary (fuel : nat) (ts : tokens) {struct fuel} : res vtl_error (exprNode * tokens) :=
  match fuel with
  | O => Err OutOfFuel
  | S fuel =>
      '(t, rest) ← next ts;
      match t with
      | TNum s => Ok (Lit (LNum (number s)), rest)
      | TStr s => Ok (Lit (LStr s), rest)
      | TKw kw => n ← literal kw; Ok (n, rest)
      | TDollar =>
          '(t, rest) ← next rest;
          match t with TIdent root => Ok (Ref root [], rest) | _ => Err (ExpectedIdent "$") end
      | TPunct p =>
          if String.eqb p "(" then
            '(n, ts) ← parse_level fuel 0 rest; ts ← expectPunct ")" ts; Ok (n, ts)
          else if String.eqb p "{" then
            close ← acceptPunct "}" rest;
            match close with
            | Some ts => Ok (MapExpr [], ts)
            | None => '(pairs, ts) ← parseMap fuel [] rest; Ok (MapExpr pairs, ts)
            end
          else if String.eqb p "[" then
            close ← acceptPunct "]" rest;
            match close with
            | Some ts => Ok (ListExpr [], ts)
            | None => '(elems, ts) ← parseElems fuel "]" [] rest; Ok (ListExpr elems, ts)
            end
          else Err (UnexpectedToken p)
      | TOp _ | TIdent _ | TEof => Err (UnexpectedToken (val_of t))
      end
  end
(** The pairs of a map that has one. *)
with parseMap (fuel : nat) (pairs : list (exprNode * exprNode)) (ts : tokens) {struct fuel} : res vtl_error (list (exprNode * exprNode) * tokens) :=
  match fuel with
  | O => Err OutOfFuel
  | S fuel =>
      '(k, rest) ← next ts;
      '(key, ts) ← match k with
                   | TStr s | TIdent s => Ok (Lit (LStr s), rest)
                   | _ => parse_level fuel 0 ts
                   end;
      ts ← expectPunct ":" ts;
      '(val, ts) ← parse_level fuel 0 ts;
      close ← acceptPunct "}" ts;
      match close with
      | Some ts => Ok (pairs ++ [(key, val)], ts)
      | None => ts ← expectPunct "," ts; parseMap fuel (pairs ++ [(key, val)]) ts
      end
  end.

(** Enough for every list of tokens ([VtlParse]). *)
Definition parse_fuel (ts : tokens) : nat := 16 * length ts + 16.

Definition parseExpression (s : string) : res vtl_error exprNode :=
  ts ← lex s;
  '(n, rest) ← parse_level (parse_fuel ts) 0 ts;
  '(t, _) ← next rest;
  if decide (t = TEof) then Ok n else Err (TrailingTokens s).

Example parse_ex :
  parseExpression "$ctx.args.get('id') == null || !$a[0].b && 1 + 2.5 < 4" =
    Ok (Bin "||" (Bin "==" (Ref "ctx" [AProp "args"; AMethod "get" [Lit (LStr "id")]]) (Lit LNull))
         (Bin "&&" (Un "!" (Ref "a" [AIndex (Lit (LNum (float_of 0))); AProp "b"]))
            (Bin "<" (Bin "+" (Lit (LNum (float_of 1))) (Lit (LNum (number "2.5")))) (Lit (LNum (float_of 4)))))) ∧
  parseExpression "{id: $x, 'k': [1, true]}" =
    Ok (MapExpr [(Lit (LStr "id"), Ref "x" []); (Lit (LStr "k"), ListExpr [Lit (LNum (float_of 1)); Lit (LBool true)])]) ∧
  parseExpression "($a).b" = Ok (Ref "a" [AProp "b"]) ∧
  parseExpression "$a.in" = Err (ExpectedIdent ".") ∧ parseExpression "$f(1)" = Err (TrailingTokens "$f(1)") ∧
  parseExpression "1 2" = Err (TrailingTokens "1 2") ∧ parseExpression "" = Err (UnexpectedToken "").
Proof. vm_compute. done. Qed.

(** A number with two points is 0. *)
Example two_points : parseExpression "1.2.3" = Ok (Lit (LNum (S754_zero false))).
Proof. vm_compute. done. Qed.
