(* ===== verification/VtlParse.v ===== *)
(** * The Velocity parser ends, and reads what is printed

    parse.go's parser neither runs out of tokens nor loops on any text, and it is a left inverse of a printer
    of expressions. *)

From stdpp Require Import list.
From S2P Require Import Prelude GoStrings GoFloat VtlSyntax.
#[local] Open Scope string_scope.
#[local] Open Scope nat_scope.
#[local] Open Scope list_scope.

(** ** Tokens that end in the end *)

Definition closed (ts : tokens) : Prop := last ts = Some TEof.

Lemma closed_cons t ts : closed (t :: ts) → t ≠ TEof → closed ts.
Proof. unfold closed. destruct ts as [|u ts]; [by intros [= ->]|by rewrite last_cons_cons]. Qed.
Lemma closed_next ts : closed ts → ∃ t rest, ts = t :: rest ∧ (t ≠ TEof → closed rest).
Proof. destruct ts as [|t ts]; [done|]. intros H. exists t, ts. split; [done|]. by apply closed_cons. Qed.

Lemma span_length p s : String.length (span p s).2 ≤ String.length s.
Proof. induction s as [|c s IH]; [done|]. cbn. destruct (p c); [|done]. destruct (span p s). cbn in *. lia. Qed.
Lemma scanString_length q n : ∀ s, String.length s ≤ n → match scanString q s with Some (_, rest) => String.length rest ≤ String.length s | None => True end.
Proof.
  induction n as [|n IH]; intros [|c s] Hl; cbn [scanString String.length] in *; try done; [lia|]. destruct (Ascii.eqb c backslash).
  - destruct s as [|d s]; [done|]. specialize (IH s). cbn in *. destruct (scanString q s) as [[str rest]|]; [|done]. cbn. lia.
  - destruct (Ascii.eqb c q); [lia|]. specialize (IH s). destruct (scanString q s) as [[str rest]|]; [|done]. cbn. lia.
Qed.
Lemma scanOp_length s op rest : scanOp s = Some (op, rest) → String.length rest < String.length s.
Proof.
  unfold scanOp. destruct s as [|c [|d s]]; [done|..].
  - destruct (contains_char c "<>!+"); [|done]. intros [= <- <-]. cbn. lia.
  - destruct (existsb _ _); [intros [= <- <-]; cbn; lia|]. destruct (contains_char c "<>!+"); [|done]. intros [= <- <-]. cbn. lia.
Qed.


Lemma lex_go_closed fuel : ∀ s, String.length s ≤ fuel → match lex_go fuel s with Ok ts => closed ts | Err e => e ≠ OutOfFuel ∧ e ≠ Panicked end.
Proof.
  assert (Hcons : ∀ (r : res vtl_error (list token)) t, match r with Ok ts => closed ts | Err e => e ≠ OutOfFuel ∧ e ≠ Panicked end →
    match (ts ← r; Ok (t :: ts)) with Ok ts => closed ts | Err e => e ≠ OutOfFuel ∧ e ≠ Panicked end).
  { intros [ts|e] t H; [|done]. cbn. unfold closed in *. destruct ts; [done|]. by rewrite last_cons_cons. }
  induction fuel as [|fuel IH]; intros [|c s] Hl; cbn [lex_go String.length] in *; try done; [lia|].
  destruct (is_blank c); [apply IH; lia|]. destruct (is_quote c).
  { pose proof (scanString_length c _ s (le_n _)) as H. destruct (scanString c s) as [[str rest]|]; [|done]. apply Hcons, IH. lia. }
  destruct (is_digit c) eqn:Ed.
  { cbn [span]. unfold is_number_part. rewrite Ed. cbn [orb]. fold is_number_part. pose proof (span_length is_number_part s) as H. destruct (span is_number_part s). apply Hcons, IH. cbn in H. lia. }
  destruct (Ascii.eqb c "$"); [apply Hcons, IH; lia|]. destruct (isIdentStart c) eqn:Ei.
  { cbn [span]. unfold isIdentPart. rewrite Ei. cbn [orb]. fold isIdentPart. pose proof (span_length isIdentPart s) as H. destruct (span isIdentPart s). apply Hcons, IH. cbn in H. lia. }
  destruct (contains_char c "().[]{},:"); [apply Hcons, IH; lia|]. destruct (scanOp (String c s)) as [[op rest]|] eqn:Eo; [|done].
  apply Hcons, IH. apply scanOp_length in Eo. cbn in Eo. lia.
Qed.

(** ** Every call ends *)

(** The outcome of a call on [ts]: it leaves fewer tokens, or it fails with an error of the grammar. *)
Definition fine {A} (ts : tokens) (r : res vtl_error (A * tokens)) : Prop :=
  match r with Ok (_, rest) => closed rest ∧ length rest < length ts | Err e => e ≠ OutOfFuel ∧ e ≠ Panicked end.
(** The same of a call that may leave all of them. *)
Definition fine_rest {A} (ts : tokens) (r : res vtl_error (A * tokens)) : Prop :=
  match r with Ok (_, rest) => closed rest ∧ length rest ≤ length ts | Err e => e ≠ OutOfFuel ∧ e ≠ Panicked end.

Lemma fine_bind {A B} ts (r : res vtl_error (A * tokens)) (k : A * tokens → res vtl_error (B * tokens)) :
  fine ts r → (∀ a rest, closed rest → length rest < length ts → fine ts (k (a, rest))) → fine ts (r ≫= k).
Proof. intros Hr Hk. destruct r as [[a rest]|e]; [|done]. destruct Hr. by apply Hk. Qed.
Lemma fine_rest_bind {A B} ts (r : res vtl_error (A * tokens)) (k : A * tokens → res vtl_error (B * tokens)) :
  fine_rest ts r → (∀ a rest, closed rest → length rest ≤ length ts → fine_rest ts (k (a, rest))) → fine_rest ts (r ≫= k).
Proof. intros Hr Hk. destruct r as [[a rest]|e]; [|done]. destruct Hr. by apply Hk. Qed.
Lemma fine_weaken {A} ts us (r : res vtl_error (A * tokens)) : fine_rest us r → length us < length ts → fine ts r.
Proof. intros Hr Hl. destruct r as [[a rest]|e]; [|done]. destruct Hr. split; [done|lia]. Qed.
Lemma fine_rest_weaken {A} ts us (r : res vtl_error (A * tokens)) : fine_rest us r → length us ≤ length ts → fine_rest ts r.
Proof. intros Hr Hl. destruct r as [[a rest]|e]; [|done]. destruct Hr. split; [done|lia]. Qed.
Lemma fine_fine_rest {A} ts (r : res vtl_error (A * tokens)) : fine ts r → fine_rest ts r.
Proof. intros Hr. destruct r as [[a rest]|e]; [|done]. destruct Hr. split; [done|lia]. Qed.

Lemma accept_spec t ts : closed ts → t ≠ TEof →
  (accept t ts = Ok None) ∨ ∃ rest, accept t ts = Ok (Some rest) ∧ ts = t :: rest ∧ closed rest.
Proof.
  intros (u & rest & -> & Hr)%closed_next Ht. unfold accept. cbn. destruct (decide (t = u)) as [<-|]; [right|by left]. exists rest. auto.
Qed.
Lemma expectPunct_spec p ts : closed ts →
  (expectPunct p ts = Err (Expected p)) ∨ ∃ rest, expectPunct p ts = Ok rest ∧ ts = TPunct p :: rest ∧ closed rest.
Proof.
  intros Hc. unfold expectPunct, acceptPunct. destruct (accept_spec (TPunct p) ts Hc) as [->|(rest & -> & -> & Hr)]; [done|by left|].
  right. by exists rest.
Qed.
Lemma acceptOp_spec ops ts : closed ts →
  (acceptOp ops ts = Ok None) ∨ ∃ op rest, acceptOp ops ts = Ok (Some (op, rest)) ∧ ts = TOp op :: rest ∧ op ∈ ops ∧ closed rest.
Proof.
  intros (u & rest & -> & Hr)%closed_next. unfold acceptOp. cbn. destruct u; try (by left). case_bool_decide; [|by left].
  right. exists val, rest. auto.
Qed.

#[local] Ltac accepts p ts := 
  let rest := fresh "rest" in let Hr := fresh "Hclosed" in
  unfold acceptPunct; destruct (accept_spec (TPunct p) ts ltac:(assumption) ltac:(discriminate)) as [->|(rest & -> & -> & Hr)]; cbn [mbind res_bind].
#[local] Ltac expects p ts :=
  let rest := fresh "rest" in let Hr := fresh "Hclosed" in
  destruct (expectPunct_spec p ts ltac:(assumption)) as [->|(rest & -> & -> & Hr)]; [by split|]; cbn [mbind res_bind].

Lemma parser_fine fuel : ∀ ts, closed ts →
  (∀ level, level ≤ 5 → 16 * length ts + (10 - level) ≤ fuel → fine ts (parse_level fuel level ts)) ∧
  (∀ level n, level < 5 → 16 * length ts + 1 ≤ fuel → fine_rest ts (level_rest fuel level n ts)) ∧
  (16 * length ts + 4 ≤ fuel → fine ts (parseUnary fuel ts)) ∧
  (16 * length ts + 3 ≤ fuel → fine ts (parsePostfix fuel ts)) ∧
  (∀ root chain, 16 * length ts + 1 ≤ fuel → fine_rest ts (chain_rest fuel root chain ts)) ∧
  (∀ close elems, 16 * length ts + 12 ≤ fuel → fine ts (parseElems fuel close elems ts)) ∧
  (16 * length ts + 2 ≤ fuel → fine ts (parsePrimary fuel ts)) ∧
  (∀ pairs, 16 * length ts + 12 ≤ fuel → fine ts (parseMap fuel pairs ts)).
Proof.
  induction fuel as [|fuel IH]; intros ts Hc; [split_and!; intros; lia|]. split_and!.
  - intros level Hlv Hf. cbn [parse_level]. destruct (5 <=? level) eqn:El.
    + apply Nat.leb_le in El. apply IH; first [done|lia].
    + apply Nat.leb_gt in El. apply fine_bind; [apply IH; first [done|lia]|]. intros n rest Hr Hl. eapply fine_weaken; [apply IH; first [done|lia]|done].
  - intros level n Hlv Hf. cbn [level_rest]. destruct (acceptOp_spec (level_ops level) ts Hc) as [->|(op & rest & -> & -> & _ & Hr)]; cbn [mbind res_bind]; [by split|].
    cbn [length] in *. apply (fine_rest_weaken _ rest); [|cbn; lia]. apply fine_rest_bind; [apply fine_fine_rest, IH; first [done|lia]|].
    intros r rest' Hr' Hl. eapply fine_rest_weaken; [apply IH; first [done|lia]|done].
  - intros Hf. cbn [parseUnary]. destruct (acceptOp_spec ["!"] ts Hc) as [->|(op & rest & -> & -> & _ & Hr)]; cbn [mbind res_bind]; [apply IH; first [done|lia]|].
    cbn [length] in *. apply (fine_weaken _ rest); [|cbn; lia]. apply fine_fine_rest. apply fine_bind; [apply IH; first [done|lia]|]. by intros x rest' Hr' Hl.
  - intros Hf. cbn [parsePostfix]. apply fine_bind; [apply IH; first [done|lia]|]. intros n rest Hr Hl. destruct n; try by split.
    eapply fine_weaken; [apply IH; first [done|lia]|done].
  - intros root chain Hf. cbn [chain_rest]. accepts "." ts.
    + accepts "[" ts; [by split|]. cbn [length] in *. apply (fine_rest_weaken _ rest); [|cbn; lia].
      apply fine_rest_bind; [apply fine_fine_rest, IH; first [done|lia]|]. intros idx rest' Hr' Hl. expects "]" rest'. cbn [length] in *.
      eapply fine_rest_weaken; [apply IH; first [done|lia]|lia].
    + destruct (closed_next rest Hclosed) as (t & rest' & -> & Ht). cbn [next mbind res_bind]. destruct t; try by split.
      specialize (Ht ltac:(done)). cbn [length] in *. accepts "(" rest'.
      * eapply fine_rest_weaken; [apply IH; first [done|lia]|cbn; lia].
      * cbn [length] in *. accepts ")" rest.
        -- apply (fine_rest_weaken _ rest); [|cbn; lia]. apply fine_rest_bind; [apply fine_fine_rest, IH; first [done|lia]|].
           intros args rest' Hr' Hl. eapply fine_rest_weaken; [apply IH; first [done|lia]|done].
        -- cbn [length] in *. eapply fine_rest_weaken; [apply IH; first [done|lia]|cbn; lia].
  - intros close elems Hf. cbn [parseElems]. apply fine_bind; [apply IH; first [done|lia]|]. intros a rest Hr Hl. accepts close rest.
    + expects "," rest. cbn [length] in *. eapply fine_weaken; [apply fine_fine_rest, IH; first [done|lia]|lia].
    + cbn [length] in *. split; [done|lia].
  - intros Hf. cbn [parsePrimary]. destruct (closed_next ts Hc) as (t & rest & -> & Ht). cbn [next mbind res_bind length] in *.
    destruct t; try by split. 4:{ apply fine_weaken with rest; [|cbn; lia]. specialize (Ht ltac:(done)).
      destruct (closed_next rest Ht) as (t & rest' & -> & Ht'). cbn [next mbind res_bind]. destruct t; try by split. split; [by apply Ht'|cbn; lia]. }
    + split; [by apply Ht|cbn; lia].
    + split; [by apply Ht|cbn; lia].
    + specialize (Ht ltac:(done)). apply fine_weaken with rest; [|cbn; lia]. case_match; [|case_match; [|case_match; [|by split]]].
      * apply fine_rest_bind; [apply fine_fine_rest, IH; first [done|lia]|]. intros n rest' Hr Hl. expects ")" rest'. cbn [length] in *. split; [done|lia].
      * accepts "}" rest; [|cbn [length]; split; [done|cbn; lia]]. apply fine_rest_bind; [apply fine_fine_rest, IH; first [done|lia]|]. by intros.
      * accepts "]" rest; [|cbn [length]; split; [done|cbn; lia]]. apply fine_rest_bind; [apply fine_fine_rest, IH; first [done|lia]|]. by intros.
    + specialize (Ht ltac:(done)). unfold literal. repeat case_match; try by split. all: cbn; split; [done|lia].
  - intros pairs Hf. cbn [parseMap]. destruct (closed_next ts Hc) as (t & rest & E & Ht). assert (Hn : next ts = Ok (t, rest)) by (by rewrite E). rewrite Hn. cbn [mbind res_bind].
    set (rk := match t with TStr s | TIdent s => Ok (Lit (LStr s), rest) | _ => parse_level fuel 0 ts end).
    assert (Hk : fine ts rk).
    { subst rk. assert (Hp : fine ts (parse_level fuel 0 ts)) by (apply IH; first [done|lia]). subst ts. destruct t; try exact Hp; (split; [by apply Ht|cbn; lia]). }
    apply fine_bind; [exact Hk|]. intros key rest1 Hr1 Hl1. expects ":" rest1. cbn [length] in *.
    apply fine_weaken with rest0; [|lia]. apply fine_fine_rest. apply fine_bind; [apply IH; first [done|lia]|]. intros v rest2 Hr2 Hl2. accepts "}" rest2.
    + expects "," rest2. cbn [length] in *. eapply fine_weaken; [apply fine_fine_rest, IH; first [done|lia]|lia].
    + cbn [length] in *. split; [done|lia].
Qed.

(** The parser answers every text: it never reads past the last token, and the fuel is never used up. *)
Lemma parseExpression_answers s : match parseExpression s with Ok _ => True | Err e => e ≠ OutOfFuel ∧ e ≠ Panicked end.
Proof.
  unfold parseExpression, lex. pose proof (lex_go_closed (String.length s) s (le_n _)) as Hl.
  destruct (lex_go _ s) as [ts|e]; [|done]. cbn [mbind res_bind].
  pose proof (proj1 (parser_fine (parse_fuel ts) ts Hl) 0) as Hp. unfold parse_fuel in *. specialize (Hp ltac:(lia) ltac:(lia)).
  destruct (parse_level _ 0 ts) as [[n rest]|e]; [|done]. destruct Hp as [Hr _]. cbn [mbind res_bind].
  destruct (closed_next rest Hr) as (t & rest' & -> & _). cbn [next mbind res_bind]. by destruct (decide (t = TEof)).
Qed.

(** ** Printing *)

Section NodeInd.
Context (P : exprNode → Prop).
Definition on_accessor (a : accessor exprNode) : Prop :=
  match a with AProp _ => True | AMethod _ args => Forall P args | AIndex e => P e end.
Hypothesis H_lit : ∀ v, P (Lit v).
Hypothesis H_ref : ∀ root chain, Forall on_accessor chain → P (Ref root chain).
Hypothesis H_bin : ∀ op l r, P l → P r → P (Bin op l r).
Hypothesis H_un : ∀ op x, P x → P (Un op x).
Hypothesis H_map : ∀ pairs, Forall (λ kv, P kv.1 ∧ P kv.2) pairs → P (MapExpr pairs).
Hypothesis H_list : ∀ elems, Forall P elems → P (ListExpr elems).

Fixpoint expr_tree (e : exprNode) : P e :=
  let all := fix go l : Forall P l := match l with [] => Forall_nil_2 _ | e :: l => Forall_cons_2 _ _ _ (expr_tree e) (go l) end in
  match e with
  | Lit v => H_lit v
  | Ref root chain =>
      H_ref root chain ((fix go c : Forall on_accessor c := match c with
        | [] => Forall_nil_2 _
        | a :: c => Forall_cons_2 _ _ _ (match a return on_accessor a with AProp _ => I | AMethod _ args => all args | AIndex e => expr_tree e end) (go c)
        end) chain)
  | Bin op l r => H_bin op l r (expr_tree l) (expr_tree r)
  | Un op x => H_un op x (expr_tree x)
  | MapExpr pairs =>
      H_map pairs ((fix go m : Forall (λ kv, P kv.1 ∧ P kv.2) m := match m with
        | [] => Forall_nil_2 _
        | kv :: m => Forall_cons_2 _ _ _ (conj (expr_tree kv.1) (expr_tree kv.2)) (go m)
        end) pairs)
  | ListExpr elems => H_list elems (all elems)
  end.
End NodeInd.

Section Print.
(** The text of a number. *)
Context (num_text : spec_float → string).

Fixpoint commas (l : list tokens) : tokens :=
  match l with [] => [] | [x] => x | x :: l => x ++ TPunct "," :: commas l end.

(** The tokens of an expression, with parentheses around every binary operation. *)
Fixpoint tokens_of (e : exprNode) : tokens :=
  match e with
  | Lit LNull => [TKw "null"]
  | Lit (LBool b) => [TKw (if b then "true" else "false")]
  | Lit (LNum f) => [TNum (num_text f)]
  | Lit (LStr s) => [TStr s]
  | Ref root chain =>
      TDollar :: TIdent root :: concat (map (λ a, match a with
        | AProp name => [TPunct "."; TIdent name]
        | AMethod name args => TPunct "." :: TIdent name :: TPunct "(" :: commas (map tokens_of args) ++ [TPunct ")"]
        | AIndex e => TPunct "[" :: tokens_of e ++ [TPunct "]"]
        end) chain)
  | Bin op l r => TPunct "(" :: tokens_of l ++ TOp op :: tokens_of r ++ [TPunct ")"]
  | Un op x => TOp op :: tokens_of x
  | MapExpr pairs =>
      TPunct "{" :: commas (map (λ kv : exprNode * exprNode, tokens_of kv.1 ++ TPunct ":" :: tokens_of kv.2) pairs) ++ [TPunct "}"]
  | ListExpr elems => TPunct "[" :: commas (map tokens_of elems) ++ [TPunct "]"]
  end.
Definition accessor_tokens (a : accessor exprNode) : tokens :=
  match a with
  | AProp name => [TPunct "."; TIdent name]
  | AMethod name args => TPunct "." :: TIdent name :: TPunct "(" :: commas (map tokens_of args) ++ [TPunct ")"]
  | AIndex e => TPunct "[" :: tokens_of e ++ [TPunct "]"]
  end.

(** An identifier that is no keyword. *)
Definition identifier (s : string) : Prop :=
  match s with String c t => isIdentStart c = true ∧ forall_char isIdentPart t = true | "" => False end ∧ s ∉ keywords.
Definition numeral (s : string) : Prop :=
  match s with String c t => is_digit c = true ∧ forall_char is_number_part t = true | "" => False end.

(** Expressions of the operators there are, with names and numbers that can be written. *)
Fixpoint writable (e : exprNode) : Prop :=
  match e with
  | Lit (LNum f) => numeral (num_text f) ∧ number (num_text f) = f
  | Lit _ => True
  | Ref root chain =>
      identifier root ∧ foldr and True (map (λ a, match a with
        | AProp name => identifier name
        | AMethod name args => identifier name ∧ foldr and True (map writable args)
        | AIndex e => writable e
        end) chain)
  | Bin op l r => (∃ level, level < 5 ∧ op ∈ level_ops level) ∧ writable l ∧ writable r
  | Un op x => op = "!" ∧ writable x
  | MapExpr pairs => foldr and True (map (λ kv : exprNode * exprNode, writable kv.1 ∧ writable kv.2) pairs)
  | ListExpr elems => foldr and True (map writable elems)
  end.
Definition writable_accessor (a : accessor exprNode) : Prop :=
  match a with
  | AProp name => identifier name
  | AMethod name args => identifier name ∧ foldr and True (map writable args)
  | AIndex e => writable e
  end.

Lemma foldr_and_Forall {A} (P : A → Prop) l : foldr and True (map P l) ↔ Forall P l.
Proof. induction l as [|x l IH]; cbn; [done|]. by rewrite Forall_cons, IH. Qed.

(** ** What is printed is parsed *)

(** What may follow an expression that stands alone. *)
Definition stops (rest : tokens) : Prop :=
  match rest with TOp _ :: _ => False | TPunct p :: _ => bool_decide (p ∈ ["."; "["; "("]) = false | [] => False | _ => True end.
(** The same, or an operator of a looser level. *)
Definition stops_at (level : nat) (rest : tokens) : Prop :=
  match rest with TOp op :: _ => ∀ k, level ≤ k → op ∉ level_ops k | _ => stops rest end.

Lemma stops_stops_at level rest : stops rest → stops_at level rest.
Proof. by destruct rest as [|[]]. Qed.
Lemma acceptOp_stop level rest : stops_at level rest → acceptOp (level_ops level) rest = Ok None.
Proof.
  unfold acceptOp. destruct rest as [|t rest]; [done|]. cbn. destruct t; try done. intros H. rewrite bool_decide_false; [done|]. by apply H.
Qed.
Lemma stops_at_S level rest : stops_at level rest → stops_at (S level) rest.
Proof. destruct rest as [|[]]; try done. intros H k Hk. apply H. lia. Qed.

Lemma level_reads e : (∀ f rest, 16 * length (tokens_of e ++ rest) + 4 ≤ f → stops_at 5 rest → parseUnary f (tokens_of e ++ rest) = Ok (e, rest)) →
  ∀ d f level rest, level + d = 5 → 16 * length (tokens_of e ++ rest) + (10 - level) ≤ f → stops_at level rest →
  parse_level f level (tokens_of e ++ rest) = Ok (e, rest).
Proof.
  intros He. induction d as [|d IH]; intros f level rest Hd Hf Hs; (destruct f as [|f]; [lia|]); cbn [parse_level].
  - assert (level = 5) as -> by lia. cbn [Nat.leb]. apply He; [lia|done].
  - rewrite (proj2 (Nat.leb_gt _ _)) by lia. rewrite IH; [|lia|lia|by apply stops_at_S]. cbn [mbind res_bind].
    destruct f as [|f]; [lia|]. cbn [level_rest]. by rewrite acceptOp_stop.
Qed.

(** What is read after an operand: a token that ends it. *)
Definition reads (e : exprNode) : Prop := ∀ f rest, 16 * length (tokens_of e ++ rest) + 4 ≤ f → stops_at 5 rest →
  parseUnary f (tokens_of e ++ rest) = Ok (e, rest).

#[local] Ltac fuel := repeat rewrite ?length_app, ?length_cons in *; cbn [length] in *; lia.

Lemma expr_reads e f rest : reads e → 16 * length (tokens_of e ++ rest) + 10 ≤ f → stops rest →
  parse_level f 0 (tokens_of e ++ rest) = Ok (e, rest).
Proof. intros He Hf Hs. apply (level_reads e He 5); [done|lia|by apply stops_stops_at]. Qed.

Lemma acceptPunct_eq p rest : acceptPunct p (TPunct p :: rest) = Ok (Some rest).
Proof. unfold acceptPunct, accept. cbn [next mbind res_bind]. by rewrite decide_True. Qed.
Lemma acceptPunct_ne p t rest : t ≠ TPunct p → acceptPunct p (t :: rest) = Ok None.
Proof. intros Ht. unfold acceptPunct, accept. cbn [next mbind res_bind]. by rewrite decide_False by congruence. Qed.
Lemma expectPunct_eq p rest : expectPunct p (TPunct p :: rest) = Ok rest.
Proof. unfold expectPunct. by rewrite acceptPunct_eq. Qed.

(** No expression begins with a bracket that closes. *)
Lemma tokens_of_head e : ∃ t ts, tokens_of e = t :: ts ∧ ∀ p, p ∈ [")"; "}"; "]"] → t ≠ TPunct p.
Proof. destruct e as [[]| | | | |]; cbn; eexists _, _; (split; [done|]); intros p Hp [=]; subst; set_solver. Qed.
Lemma commas_head e es : ∃ t ts, commas (map tokens_of (e :: es)) = t :: ts ∧ ∀ p, p ∈ [")"; "}"; "]"] → t ≠ TPunct p.
Proof.
  destruct (tokens_of_head e) as (t & ts & E & Ht). destruct es as [|e' es]; cbn; rewrite E; [by exists t, ts|]. eexists t, _. by split.
Qed.

Lemma commas_cons e e' es rest : commas (map tokens_of (e :: e' :: es)) ++ rest = tokens_of e ++ TPunct "," :: commas (map tokens_of (e' :: es)) ++ rest.
Proof. cbn. by rewrite <-app_assoc. Qed.

Lemma elems_read close es : close ∈ [")"; "]"] → ∀ e acc f rest, Forall reads (e :: es) →
  16 * length (commas (map tokens_of (e :: es)) ++ TPunct close :: rest) + 12 ≤ f →
  parseElems f close acc (commas (map tokens_of (e :: es)) ++ TPunct close :: rest) = Ok (acc ++ e :: es, rest).
Proof.
  intros Hclose. assert (Hc : close ≠ "," ∧ stops (TPunct close :: [])) by (apply elem_of_cons in Hclose as [->| ->%list_elem_of_singleton]; by split).
  destruct Hc as [Hcomma Hstop]. induction es as [|e' es IH]; intros e acc f rest Hall Hf; apply Forall_cons in Hall as [He Hall]; (destruct f as [|f]; [lia|]); cbn [parseElems].
  - change (commas (map tokens_of [e])) with (tokens_of e) in *. rewrite (expr_reads e f _ He) by (exact Hstop || fuel). cbn [mbind res_bind].
    by rewrite acceptPunct_eq.
  - rewrite commas_cons in *. rewrite (expr_reads e f _ He) by (done || fuel). cbn [mbind res_bind].
    rewrite acceptPunct_ne by congruence. cbn [mbind res_bind]. rewrite expectPunct_eq. cbn [mbind res_bind].
    rewrite IH by (done || fuel). by rewrite <-app_assoc.
Qed.

Definition pair_tokens (kv : exprNode * exprNode) : tokens := tokens_of kv.1 ++ TPunct ":" :: tokens_of kv.2.
Definition key_reads (e : exprNode) : Prop := reads e ∧ writable e.

(** A key is a string token of its own, or an expression. *)
Lemma key_read k f rest : reads k → writable k → stops rest → 16 * length (tokens_of k ++ rest) + 10 ≤ f →
  ∃ t ts, tokens_of k ++ rest = t :: ts ∧
  match t with TStr s | TIdent s => Ok (Lit (LStr s), ts) | _ => parse_level f 0 (t :: ts) end = Ok (k, rest).
Proof.
  intros Hr Hw Hs Hf. pose proof (expr_reads k f rest Hr Hf Hs) as H.
  destruct k as [[| |n|str]| | | | |]; cbn [tokens_of app] in *; try (eexists _, _; split; [done|exact H]).
  by eexists _, _.
Qed.

Lemma pairs_read ps : ∀ kv acc f rest, Forall (λ kv, (reads kv.1 ∧ reads kv.2) ∧ writable kv.1) (kv :: ps) →
  16 * length (commas (map pair_tokens (kv :: ps)) ++ TPunct "}" :: rest) + 12 ≤ f →
  parseMap f acc (commas (map pair_tokens (kv :: ps)) ++ TPunct "}" :: rest) = Ok (acc ++ kv :: ps, rest).
Proof.
  induction ps as [|kv' ps IH]; intros [k v] acc f rest Hall Hf; apply Forall_cons in Hall as [[[Hk Hv] Hw] Hall]; (destruct f as [|f]; [lia|]); cbn [parseMap].
  - change (commas (map pair_tokens [(k, v)])) with (tokens_of k ++ TPunct ":" :: tokens_of v) in *. rewrite <-app_assoc in *. cbn [app fst snd] in *.
    destruct (key_read k f (TPunct ":" :: tokens_of v ++ TPunct "}" :: rest) Hk Hw) as (t & ts & E1 & E2); [done|fuel|].
    rewrite E1. cbn [next mbind res_bind]. rewrite E2. cbn [mbind res_bind].
    rewrite expectPunct_eq. cbn [mbind res_bind]. rewrite (expr_reads v f _ Hv) by (done || fuel). cbn [mbind res_bind]. by rewrite acceptPunct_eq.
  - assert (E : commas (map pair_tokens ((k, v) :: kv' :: ps)) ++ TPunct "}" :: rest =
      tokens_of k ++ TPunct ":" :: tokens_of v ++ TPunct "," :: commas (map pair_tokens (kv' :: ps)) ++ TPunct "}" :: rest)
      by (change (commas (map pair_tokens ((k, v) :: kv' :: ps))) with ((tokens_of k ++ TPunct ":" :: tokens_of v) ++ TPunct "," :: commas (map pair_tokens (kv' :: ps)));
          by rewrite <-!app_assoc).
    rewrite E in *. cbn [fst snd] in *.
    destruct (key_read k f (TPunct ":" :: tokens_of v ++ TPunct "," :: commas (map pair_tokens (kv' :: ps)) ++ TPunct "}" :: rest) Hk Hw)
      as (t & ts & E1 & E2); [done|fuel|].
    rewrite E1. cbn [next mbind res_bind]. rewrite E2. cbn [mbind res_bind].
    rewrite expectPunct_eq. cbn [mbind res_bind]. rewrite (expr_reads v f _ Hv) by (done || fuel). cbn [mbind res_bind].
    rewrite acceptPunct_ne by done. cbn [mbind res_bind]. rewrite expectPunct_eq. cbn [mbind res_bind].
    rewrite IH by (done || fuel). by rewrite <-app_assoc.
Qed.

Lemma op_level op : (∃ level, level < 5 ∧ op ∈ level_ops level) → ∃ level, level < 5 ∧ op ∈ level_ops level ∧ (∀ k, k ≠ level → op ∉ level_ops k) ∧ op ≠ "!".
Proof.
  intros (level & Hl & Hop). exists level. split_and!; [done..| |].
  - intros k Hk Hin. destruct level as [|[|[|[|[|]]]]]; try lia; cbn in Hop; rewrite ?elem_of_cons, ?elem_of_nil in Hop;
      destruct k as [|[|[|[|[|]]]]]; try lia; cbn in Hin; rewrite ?elem_of_cons, ?elem_of_nil in Hin; naive_solver.
  - intros ->. destruct level as [|[|[|[|[|]]]]]; try lia; cbn in Hop; rewrite ?elem_of_cons, ?elem_of_nil in Hop; naive_solver.
Qed.

(** An operation in parentheses, from the level of its operator up. *)
Lemma binary_reads op l r level : level < 5 → op ∈ level_ops level → (∀ k, k ≠ level → op ∉ level_ops k) → reads l → reads r →
  ∀ d f k rest, k + d = level → 16 * length (tokens_of l ++ TOp op :: tokens_of r ++ TPunct ")" :: rest) + (10 - k) ≤ f →
  parse_level f k (tokens_of l ++ TOp op :: tokens_of r ++ TPunct ")" :: rest) = Ok (Bin op l r, TPunct ")" :: rest).
Proof.
  intros Hlv Hop Huniq Hl Hr. induction d as [|d IH]; intros f k rest Hk Hf; (destruct f as [|f]; [lia|]); cbn [parse_level];
    rewrite (proj2 (Nat.leb_gt _ _)) by lia.
  - assert (k = level) as -> by lia.
    rewrite (level_reads l Hl (5 - S level)); [|lia|lia|]; [cbn [mbind res_bind]|intros j Hj; apply Huniq; lia].
    destruct f as [|f]; [lia|]. cbn [level_rest]. unfold acceptOp. cbn [next mbind res_bind]. rewrite bool_decide_true by done. cbn [mbind res_bind].
    rewrite (level_reads r Hr (5 - S level)); [|lia|fuel|by apply stops_stops_at]. cbn [mbind res_bind].
    destruct f as [|f]; [fuel|]. cbn [level_rest]. by rewrite acceptOp_stop.
  - rewrite IH by lia. cbn [mbind res_bind]. destruct f as [|f]; [lia|]. cbn [level_rest]. by rewrite acceptOp_stop.
Qed.

Lemma chain_reads root chain : Forall (on_accessor reads) chain → ∀ acc f rest, 16 * length (concat (map accessor_tokens chain) ++ rest) + 1 ≤ f → stops_at 5 rest →
  chain_rest f root acc (concat (map accessor_tokens chain) ++ rest) = Ok (Ref root (acc ++ chain), rest).
Proof.
  induction 1 as [|a chain Ha _ IH]; intros acc f rest Hf Hs; cbn [map concat] in *; (destruct f as [|f]; [fuel|]); cbn [chain_rest].
  - cbn [app]. rewrite app_nil_r. destruct rest as [|t rest]; [done|]. destruct t; try done.
    unfold stops_at, stops in Hs. apply bool_decide_eq_false in Hs.
    rewrite acceptPunct_ne by set_solver. cbn [mbind res_bind]. by rewrite acceptPunct_ne by set_solver.
  - rewrite <-app_assoc in *. destruct a as [name|name args|e]; cbn [accessor_tokens app] in *.
    + rewrite acceptPunct_eq. cbn [mbind res_bind next].
      assert (Hno : acceptPunct "(" (concat (map accessor_tokens chain) ++ rest) = Ok None).
      { destruct chain as [|[] chain]; cbn [map concat accessor_tokens app]; [|by apply acceptPunct_ne..].
        destruct rest as [|t rest]; [done|]. apply acceptPunct_ne. destruct t; try done. unfold stops_at, stops in Hs. apply bool_decide_eq_false in Hs. set_solver. }
      rewrite Hno. cbn [mbind res_bind]. rewrite IH by (done || fuel). by rewrite <-app_assoc.
    + rewrite acceptPunct_eq. cbn [mbind res_bind next]. rewrite acceptPunct_eq. cbn [mbind res_bind]. destruct args as [|e es].
      * cbn [map commas app] in *. rewrite acceptPunct_eq. cbn [mbind res_bind]. rewrite IH by (done || fuel). by rewrite <-app_assoc.
      * rewrite <-app_assoc in *. cbn [app] in *. destruct (commas_head e es) as (t & ts & E & Ht).
        rewrite E at 1. cbn [app]. rewrite acceptPunct_ne by (apply Ht; set_solver). cbn [mbind res_bind].
        rewrite elems_read; [|set_solver|exact Ha|fuel]. cbn [mbind res_bind app]. rewrite IH by (done || fuel). by rewrite <-app_assoc.
    + rewrite <-app_assoc in *. cbn [app] in *. rewrite (acceptPunct_ne ".") by done. cbn [mbind res_bind]. rewrite acceptPunct_eq. cbn [mbind res_bind].
      rewrite (expr_reads e f _ Ha) by (done || fuel). cbn [mbind res_bind]. rewrite expectPunct_eq. cbn [mbind res_bind].
      rewrite IH by (done || fuel). by rewrite <-app_assoc.
Qed.

Lemma tokens_of_Ref root chain : tokens_of (Ref root chain) = TDollar :: TIdent root :: concat (map accessor_tokens chain).
Proof. done. Qed.
Lemma tokens_of_Map pairs : tokens_of (MapExpr pairs) = TPunct "{" :: commas (map pair_tokens pairs) ++ [TPunct "}"].
Proof. done. Qed.
Lemma primary_reads f t ts n rest : (∀ op, t ≠ TOp op) → match n with Ref _ _ => False | _ => True end →
  parsePrimary f (t :: ts) = Ok (n, rest) → parseUnary (S (S f)) (t :: ts) = Ok (n, rest).
Proof.
  intros Ht Hn Hp. cbn [parseUnary]. unfold acceptOp. cbn [next mbind res_bind].
  assert (E : match t with TOp op => if bool_decide (op ∈ ["!"]) then Some (op, ts) else None | _ => None end = None) by (destruct t; naive_solver).
  rewrite E. cbn [parsePostfix]. rewrite Hp. cbn [mbind res_bind]. by destruct n.
Qed.
Lemma commas_pairs_head kv ps : ∃ t ts, commas (map pair_tokens (kv :: ps)) = t :: ts ∧ ∀ p, p ∈ [")"; "}"; "]"] → t ≠ TPunct p.
Proof.
  destruct (tokens_of_head kv.1) as (t & ts & E & Ht). destruct ps as [|kv' ps]; cbn; unfold pair_tokens; rewrite E; eexists t, _; by split.
Qed.

(** What is printed is read back, with nothing left but what followed. *)
Lemma tokens_read e : writable e → reads e.
Proof.
  induction e as [v|root chain IH|op l r IHl IHr|op x IH|pairs IH|elems IH] using expr_tree; intros Hw f rest Hf Hs; cbn [writable] in Hw.
  - destruct v as [|b|n|s]; cbn [tokens_of app] in *; (destruct f as [|[|[|f]]]; try fuel); apply primary_reads; try done;
      cbn [parsePrimary next mbind res_bind]; [by destruct b|by rewrite (proj2 Hw)].
  - destruct Hw as [_ Hw]. rewrite tokens_of_Ref in *. cbn [app] in *. (destruct f as [|[|[|f]]]; try fuel).
    cbn [parseUnary acceptOp next mbind res_bind parsePostfix parsePrimary]. apply chain_reads; [|fuel|done].
    apply foldr_and_Forall in Hw. clear -IH Hw. induction IH as [|a chain Ha _ IH]; constructor; apply Forall_cons in Hw as [Hwa Hw]; [|by apply IH].
    destruct a as [|name args|e]; cbn in *; [done| |by apply Ha]. destruct Hwa as [_ Hwa]. apply foldr_and_Forall in Hwa.
    apply Forall_forall. intros e He. by apply (proj1 (Forall_forall _ _) Ha), (proj1 (Forall_forall _ _) Hwa).
  - destruct Hw as (Hop & Hl & Hr). destruct (op_level op Hop) as (level & Hlv & Hin & Huniq & _). cbn [tokens_of app] in *.
    rewrite <-!app_assoc in *. cbn [app] in *. rewrite <-!app_assoc in *. cbn [app] in *. (destruct f as [|[|[|f]]]; try fuel). apply primary_reads; [done|done|].
    cbn [parsePrimary next mbind res_bind]. change (String.eqb "(" "(") with true. cbn iota.
    rewrite (binary_reads op l r level Hlv Hin Huniq (IHl Hl) (IHr Hr) level _ 0) by (lia || fuel). cbn [mbind res_bind]. by rewrite expectPunct_eq.
  - destruct Hw as [-> Hw]. cbn [tokens_of app] in *. destruct f as [|f]; [lia|]. cbn [parseUnary]. unfold acceptOp. cbn [next mbind res_bind].
    rewrite bool_decide_true by set_solver. cbn [mbind res_bind]. rewrite (IH Hw f rest) by (done || fuel). done.
  - apply foldr_and_Forall in Hw. rewrite tokens_of_Map in *. cbn [app] in *. rewrite <-app_assoc in *. cbn [app] in *. (destruct f as [|[|[|f]]]; try fuel).
    apply primary_reads; [done|done|]. cbn [parsePrimary next mbind res_bind]. change (String.eqb "{" "(") with false. change (String.eqb "{" "{") with true. cbn iota.
    destruct pairs as [|kv ps]; [cbn [map commas app]; by rewrite acceptPunct_eq|].
    destruct (commas_pairs_head kv ps) as (t & ts & E & Ht). rewrite E at 1. cbn [app]. rewrite acceptPunct_ne by (apply Ht; set_solver). cbn [mbind res_bind].
    rewrite pairs_read; [done| |fuel]. apply Forall_forall. intros x Hx. destruct (proj1 (Forall_forall _ _) IH x Hx) as [H1 H2].
    destruct (proj1 (Forall_forall _ _) Hw x Hx). auto.
  - apply foldr_and_Forall in Hw. cbn [tokens_of app] in *. rewrite <-app_assoc in *. cbn [app] in *. (destruct f as [|[|[|f]]]; try fuel).
    apply primary_reads; [done|done|]. cbn [parsePrimary next mbind res_bind].
    change (String.eqb "[" "(") with false. change (String.eqb "[" "{") with false. change (String.eqb "[" "[") with true. cbn iota.
    destruct elems as [|e es]; [cbn [map commas app]; by rewrite acceptPunct_eq|].
    destruct (commas_head e es) as (t & ts & E & Ht). rewrite E at 1. cbn [app]. rewrite acceptPunct_ne by (apply Ht; set_solver). cbn [mbind res_bind].
    rewrite elems_read; [done|set_solver| |fuel]. apply Forall_forall. intros x Hx.
    apply (proj1 (Forall_forall _ _) IH x Hx), (proj1 (Forall_forall _ _) Hw x Hx).
Qed.

(** ** What is printed is lexed *)

(** A string between double quotes. *)
Fixpoint escape (s : string) : string :=
  match s with
  | "" => ""
  | String c s => if Ascii.eqb c backslash || Ascii.eqb c dquote then String backslash (String c (escape s)) else String c (escape s)
  end.
Definition token_text (t : token) : string :=
  match t with TStr s => String dquote (escape s) +:+ String dquote "" | _ => val_of t end.
(** Tokens with a space after each. *)
Fixpoint text_of (ts : tokens) : string :=
  match ts with [] => "" | t :: ts => token_text t +:+ String " " (text_of ts) end.

Definition operators : list string := ["=="; "!="; "<="; ">="; "&&"; "||"; "<"; ">"; "!"; "+"].
Definition puncts : list string := ["("; ")"; "."; "["; "]"; "{"; "}"; ","; ":"].
Definition lexable (t : token) : Prop :=
  match t with
  | TNum s => numeral s
  | TIdent s => identifier s
  | TKw s => s ∈ keywords
  | TOp s => s ∈ operators
  | TPunct s => s ∈ puncts
  | TStr _ | TDollar => True
  | TEof => False
  end.

Lemma scan_escape s rest : scanString dquote (escape s +:+ String dquote rest) = Some (s, rest).
Proof.
  induction s as [|c s IH]; [done|]. cbn [escape]. destruct (Ascii.eqb c backslash || Ascii.eqb c dquote) eqn:E; cbn [String.append scanString].
  - rewrite IH. done.
  - apply orb_false_iff in E as [-> ->]. by rewrite IH.
Qed.
Lemma span_stop p w d rest : forall_char p w = true → p d = false → span p (w +:+ String d rest) = (w, String d rest).
Proof.
  intros Hw Hd. induction w as [|c w IH]; cbn in *; [by rewrite Hd|]. apply andb_true_iff in Hw as [-> Hw]. by rewrite IH.
Qed.
(** More fuel makes no difference. *)
Lemma lex_go_fuel f1 : ∀ f2 s, String.length s ≤ f1 → String.length s ≤ f2 → lex_go f1 s = lex_go f2 s.
Proof.
  induction f1 as [|f1 IH]; intros [|f2] [|c s] H1 H2; cbn [String.length] in *; try done; try lia. cbn [lex_go].
  assert (Hrec : ∀ s', String.length s' ≤ String.length s → lex_go f1 s' = lex_go f2 s') by (intros; apply IH; lia).
  destruct (is_blank c); [by apply Hrec|]. destruct (is_quote c).
  { pose proof (scanString_length c _ s (le_n _)) as H. destruct (scanString c s) as [[str rest]|]; [|done]. by rewrite Hrec. }
  destruct (is_digit c) eqn:Ed.
  { cbn [span]. unfold is_number_part at 1 3. rewrite Ed. cbn [orb]. pose proof (span_length is_number_part s) as H. destruct (span is_number_part s). by rewrite Hrec. }
  destruct (Ascii.eqb c "$"); [by rewrite Hrec|]. destruct (isIdentStart c) eqn:Ei.
  { cbn [span]. unfold isIdentPart at 1 3. rewrite Ei. cbn [orb]. pose proof (span_length isIdentPart s) as H. destruct (span isIdentPart s). by rewrite Hrec. }
  destruct (contains_char c "().[]{},:"); [by rewrite Hrec|]. destruct (scanOp (String c s)) as [[op rest]|] eqn:Eo; [|done].
  apply scanOp_length in Eo. cbn in Eo. rewrite Hrec; [done|lia].
Qed.
Lemma lex_go_lex f s : String.length s ≤ f → lex_go f s = lex s.
Proof. intros Hf. by apply lex_go_fuel. Qed.

Lemma lex_step s t rest : String.length rest < String.length s →
  (∀ f, lex_go (S f) s = ts ← lex_go f rest; Ok (t :: ts)) → lex s = ts ← lex rest; Ok (t :: ts).
Proof.
  intros Hl H. unfold lex at 1. destruct (String.length s) as [|f] eqn:E; [lia|]. rewrite H, lex_go_lex by lia. done.
Qed.
Lemma lex_blank t : lex (String " " t) = lex t.
Proof. done. Qed.

Lemma letter_facts c : isIdentStart c = true → is_blank c = false ∧ is_quote c = false ∧ is_digit c = false ∧ Ascii.eqb c "$" = false.
Proof. destruct c as [[] [] [] [] [] [] [] []]; intros H; try discriminate H; by vm_compute. Qed.
Lemma digit_facts c : is_digit c = true → is_blank c = false ∧ is_quote c = false.
Proof. destruct c as [[] [] [] [] [] [] [] []]; intros H; try discriminate H; by vm_compute. Qed.

Lemma span_word p c w rest : p c = true → forall_char p w = true → p " "%char = false →
  span p (String c w +:+ String " " rest) = (String c w, String " " rest).
Proof. intros Hc Hw Hsp. apply span_stop; [cbn; by rewrite Hc|done]. Qed.
Lemma length_word w rest : String.length (String " " rest) < S (String.length w + String.length (String " " rest)).
Proof. lia. Qed.

Lemma lex_word w rest : identifier w ∨ w ∈ keywords → lex (w +:+ String " " rest) = ts ← lex (String " " rest); Ok (word_token w :: ts).
Proof.
  intros Hw. assert (H : match w with String c t => isIdentStart c = true ∧ forall_char isIdentPart t = true | "" => False end).
  { destruct Hw as [[H _]|H]; [done|]. unfold keywords in H. rewrite !elem_of_cons, elem_of_nil in H. naive_solver. }
  destruct w as [|c w]; [done|]. destruct H as [Hc Hp]. destruct (letter_facts c Hc) as (E1 & E2 & E3 & E4).
  apply lex_step; [rewrite length_append; cbn [String.length]; lia|]. intros f. cbn [String.append lex_go]. rewrite E1, E2, E3, E4, Hc.
  change (String c (w +:+ String " " rest)) with (String c w +:+ String " " rest). by rewrite span_word by (done || unfold isIdentPart; by rewrite Hc).
Qed.

Lemma lex_token t rest : lexable t → lex (token_text t +:+ String " " rest) = ts ← lex rest; Ok (t :: ts).
Proof.
  intros Ht. rewrite <-(lex_blank rest). destruct t as [s|s|s|s|s| |s|]; cbn [token_text val_of lexable] in *; try done.
  - destruct s as [|c s]; [done|]. destruct Ht as [Hd Hs]. destruct (digit_facts c Hd) as [E1 E2].
    apply lex_step; [rewrite length_append; cbn [String.length]; lia|]. intros f. cbn [String.append lex_go]. rewrite E1, E2, Hd.
    change (String c (s +:+ String " " rest)) with (String c s +:+ String " " rest). by rewrite span_word by (done || unfold is_number_part; by rewrite Hd).
  - apply lex_step; [rewrite length_append; cbn [String.length String.append]; rewrite length_append; cbn; lia|]. intros f.
    cbn [String.append lex_go]. rewrite append_assoc. cbn [String.append]. change (is_blank dquote) with false. change (is_quote dquote) with true. cbn iota.
    by rewrite scan_escape.
  - rewrite lex_word by auto. destruct Ht as [_ Hk]. unfold word_token. destruct (existsb (String.eqb s) keywords) eqn:E; [|done].
    apply existsb_exists in E as (k & Hin%list_elem_of_In & ->%String.eqb_eq). done.
  - unfold operators in Ht. rewrite !elem_of_cons, elem_of_nil in Ht. 
    repeat (destruct Ht as [->|Ht]; [by apply lex_step; [cbn; lia|]|]). done.
  - unfold puncts in Ht. rewrite !elem_of_cons, elem_of_nil in Ht.
    repeat (destruct Ht as [->|Ht]; [by apply lex_step; [cbn; lia|]|]). done.
  - rewrite lex_word by auto. unfold word_token. rewrite (proj2 (existsb_exists _ _)); [done|]. exists s. split; [by apply list_elem_of_In|apply String.eqb_refl].
Qed.

Lemma lex_text ts : Forall lexable ts → lex (text_of ts) = Ok (ts ++ [TEof]).
Proof. induction 1 as [|t ts Ht _ IH]; [done|]. cbn [text_of]. by rewrite lex_token, IH. Qed.

Lemma commas_Forall (P : token → Prop) l : P (TPunct ",") → Forall (Forall P) l → Forall P (commas l).
Proof.
  intros Hc. induction 1 as [|x l Hx Hl IH]; [constructor|]. destruct l as [|y l]; [done|].
  change (Forall P (x ++ TPunct "," :: commas (y :: l))). by apply Forall_app_2; [|constructor].
Qed.

Lemma tokens_lexable e : writable e → Forall lexable (tokens_of e).
Proof.
  assert (Hp : ∀ p, p ∈ puncts → lexable (TPunct p)) by done.
  induction e as [v|root chain IH|op l r IHl IHr|op x IH|pairs IH|elems IH] using expr_tree; intros Hw; cbn [writable] in Hw.
  - destruct v as [|[]|n|s]; cbn; repeat constructor; try (unfold keywords; set_solver); by destruct Hw.
  - destruct Hw as [Hr Hw]. rewrite tokens_of_Ref. do 2 (constructor; [done|]). apply foldr_and_Forall in Hw.
    induction IH as [|a chain Ha _ IH]; [constructor|]. apply Forall_cons in Hw as [Hwa Hw]. cbn [map concat]. apply Forall_app_2; [|by apply IH].
    destruct a as [name|name args|e]; cbn [accessor_tokens] in *.
    + constructor; [apply Hp; unfold puncts; set_solver|by constructor].
    + destruct Hwa as [Hn Hwa]. apply foldr_and_Forall in Hwa. do 3 (constructor; [first [done|apply Hp; unfold puncts; set_solver]|]).
      apply Forall_app_2; [|apply Forall_singleton, Hp; unfold puncts; set_solver]. apply commas_Forall; [apply Hp; unfold puncts; set_solver|].
      apply Forall_map, Forall_forall. intros e He. by apply (proj1 (Forall_forall _ _) Ha), (proj1 (Forall_forall _ _) Hwa).
    + constructor; [apply Hp; unfold puncts; set_solver|]. apply Forall_app_2; [by apply Ha|apply Forall_singleton, Hp; unfold puncts; set_solver].
  - destruct Hw as (Hop & Hl & Hr). cbn [tokens_of]. constructor; [apply Hp; unfold puncts; set_solver|]. apply Forall_app_2; [by apply IHl|].
    constructor; [|apply Forall_app_2; [by apply IHr|apply Forall_singleton, Hp; unfold puncts; set_solver]].
    destruct Hop as (level & Hlv & Hin). cbn. destruct level as [|[|[|[|[|]]]]]; try lia; cbn in Hin; unfold operators; set_solver.
  - destruct Hw as [-> Hw]. cbn [tokens_of]. constructor; [cbn; unfold operators; set_solver|by apply IH].
  - rewrite tokens_of_Map. constructor; [apply Hp; unfold puncts; set_solver|]. apply Forall_app_2; [|apply Forall_singleton, Hp; unfold puncts; set_solver].
    apply commas_Forall; [apply Hp; unfold puncts; set_solver|]. apply foldr_and_Forall in Hw. apply Forall_map, Forall_forall. intros kv Hkv.
    destruct (proj1 (Forall_forall _ _) IH kv Hkv) as [H1 H2]. destruct (proj1 (Forall_forall _ _) Hw kv Hkv) as [W1 W2].
    unfold pair_tokens. cbn. apply Forall_app_2; [by apply H1|]. constructor; [apply Hp; unfold puncts; set_solver|by apply H2].
  - cbn [tokens_of]. constructor; [apply Hp; unfold puncts; set_solver|]. apply Forall_app_2; [|apply Forall_singleton, Hp; unfold puncts; set_solver].
    apply commas_Forall; [apply Hp; unfold puncts; set_solver|]. apply foldr_and_Forall in Hw. apply Forall_map, Forall_forall. intros x Hx.
    apply (proj1 (Forall_forall _ _) IH x Hx), (proj1 (Forall_forall _ _) Hw x Hx).
Qed.

(** The text of an expression, and what it parses to. *)
Definition print (e : exprNode) : string := text_of (tokens_of e).

Lemma print_parses e : writable e → parseExpression (print e) = Ok e.
Proof.
  intros Hw. unfold parseExpression, print. rewrite lex_text by (by apply tokens_lexable). cbn [mbind res_bind].
  rewrite (expr_reads e _ [TEof] (tokens_read e Hw)); [done| |done]. unfold parse_fuel. lia.
Qed.
End Print.

(** C39: the parser of expressions answers every text, with an expression or with an error of its grammar: it
    never reads past its last token and never loops.  And it is a left inverse of the printer of
    expressions, strings with quotes and backslashes, nested references and every operator included. *)
Theorem expression_round_trip num_text s e :
  match parseExpression s with Ok _ => True | Err err => err ≠ OutOfFuel ∧ err ≠ Panicked end ∧
  (writable num_text e → parseExpression (print num_text e) = Ok e).
Proof. split; [apply parseExpression_answers|apply print_parses]. Qed.

Definition printed_example : exprNode :=
  Bin "&&" (Un "!" (Ref "ctx" [AProp "args"; AMethod "get" [Lit (LStr (String dquote "it's"))]; AIndex (Lit (LNum (float_of 3)))]))
    (Bin "==" (MapExpr [(Lit (LStr "k"), ListExpr [Lit LNull; Lit (LBool true)])]) (Ref "x" [])).

Example expression_round_trip_witness :
  parseExpression (print FormatFloat printed_example) = Ok printed_example.
Proof.
  refine (proj2 (expression_round_trip FormatFloat "" printed_example) _).
  assert (Hkw : ∀ s : string, bool_decide (s ∈ keywords) = false → s ∉ keywords) by (intros s; apply bool_decide_eq_false).
  unfold printed_example. cbn -[identifier numeral number float_of FormatFloat level_ops].
  repeat match goal with |- identifier _ => split | |- _ ∧ _ => split | |- True => exact I | |- _ ∉ keywords => apply Hkw; by vm_compute | |- ∃ _, _ => idtac | |- _ => by vm_compute end.
  all: [> exists 1 | exists 2]; (split; [lia|]); cbn; set_solver.
Defined.
