(* ===== verification/VtlEval.v ===== *)
(** * Velocity expressions, evaluated (vtl/expr.go)

    The values of a template are references to maps and lists that it shares with its caller, so the
    evaluator is a state monad over a heap; what a method of the host does to that heap, and the order in
    which Go ranges over a map, are the host's. *)

From stdpp Require Import list gmap sorting.
From S2P Require Import Prelude GoStrings GoJson GoFloat VtlSyntax.
#[local] Open Scope string_scope.
#[local] Open Scope Z_scope.
#[local] Open Scope list_scope.

(** ** Values *)

(** An any.  A map or a slice is nil or a location; [VHost] is a value of any other type, which only the
    host makes. *)
Inductive val :=
| VNil
| VBool (b : bool)
| VNum (f : spec_float)
| VInt (n : Z)
| VInt64 (n : Z)
| VStr (s : string)
| VMap (l : option nat)
| VList (l : option nat)
| VHost (i : Z).

(** The maps and the slices there are. *)
Record heap := Heap { maps : list (gmap string val); lists : list (list val) }.

(** The entries of a map and the elements of a list; nil has none. *)
Definition map_of (h : heap) (l : option nat) : gmap string val := default ∅ (l ≫= λ l, maps h !! l).
Definition list_of (h : heap) (l : option nat) : list val := default [] (l ≫= λ l, lists h !! l).
(** How many objects there are. *)
Definition objects (h : heap) : nat := length (maps h) + length (lists h).

(** ** What the host supplies *)

(** The injected $util (Invoke: [None] is no such method, [inr] an error), the Receivers ([None]: not one,
    or not handled), the order of a range over a map, and what fmt, encoding/json and reflect make of the
    host's own values.  [W] is the state of it all. *)
Class Host (W : Type) := {
  Invoke : string → list val → W → heap → option (val + string) * (W * heap);
  GetProp : Z → string → W → heap → option val * (W * heap);
  CallMethod : Z → string → list val → W → heap → option val * (W * heap);
  range_keys : list string → W → list string * W;
  host_text : W → heap → Z → string;
  host_json : W → heap → Z → option string;
  host_equal : W → heap → Z → Z → bool;
  unicode_upper : string → string;
  unicode_lower : string → string;
  overflow : spec_float → Z
}.

(** env, with the heap its values are in. *)
Record state W := State { st_heap : heap; vars : gmap string val; world : W }.
Arguments State {W} _ _ _.
Arguments st_heap {W} _.
Arguments vars {W} _.
Arguments world {W} _.

(** What an error leaves changed stays changed. *)
Definition M (W A : Type) : Type := state W → res vtl_error A * state W.
#[export] Instance M_ret W : MRet (M W) := λ A a st, (Ok a, st).
#[export] Instance M_bind W : MBind (M W) :=
  λ A B f m st, match m st with (Ok a, st) => f a st | (Err e, st) => (Err e, st) end.
Definition fail {W A} (e : vtl_error) : M W A := λ st, (Err e, st).
Definition reads {W A} (f : state W → A) : M W A := λ st, (Ok (f st), st).
Definition on_heap {W A} (f : heap → A * heap) : M W A :=
  λ st, let '(a, h) := f (st_heap st) in (Ok a, State h (vars st) (world st)).
(** A new map, and a new []any. *)
Definition new_map {W} (m : gmap string val) : M W val :=
  on_heap (λ h, (VMap (Some (length (maps h))), Heap (maps h ++ [m]) (lists h))).
Definition new_list {W} (vs : list val) : M W val :=
  on_heap (λ h, (VList (Some (length (lists h))), Heap (maps h) (lists h ++ [vs]))).
Definition write {W} (l : nat) (m : gmap string val) : M W unit :=
  on_heap (λ h, (tt, Heap (<[l := m]> (maps h)) (lists h))).
(** A call of the host. *)
Definition call {W A} (f : W → heap → A * (W * heap)) : M W A :=
  λ st, let '(a, (w, h)) := f (world st) (st_heap st) in (Ok a, State h (vars st) w).

Section Eval.
Context {W : Type} {host : Host W}.
#[local] Abbreviation run := (M W).

(** ** Texts and numbers of values *)

(** encoding/json; a cycle is an error, as are a NaN and an infinity.  A path of more objects than there
    are goes round one. *)
Fixpoint Marshal (fuel : nat) (w : W) (h : heap) (v : val) : option string :=
  match v with
  | VNil | VMap None | VList None => Some "null"
  | VBool b => Some (if b then "true" else "false")
  | VNum f => json_float f
  | VInt n | VInt64 n => Some (FormatInt n)
  | VStr s => Some (json_quote s)
  | VHost i => host_json w h i
  | VMap (Some l) =>
      match fuel with
      | O => None
      | S fuel =>
          entries ← mapM (λ kv, s ← Marshal fuel w h kv.2; Some (kv.1, json_quote kv.1 +:+ ":" +:+ s)) (map_to_list (map_of h (Some l)));
          Some ("{" +:+ Join (map snd (foldr insert_entry [] entries)) "," +:+ "}")
      end
  | VList (Some l) =>
      match fuel with
      | O => None
      | S fuel => elems ← mapM (Marshal fuel w h) (list_of h (Some l)); Some ("[" +:+ Join elems "," +:+ "]")
      end
  end.
Definition jsonString (w : W) (h : heap) (v : val) : string := default "null" (Marshal (objects h) w h v).

(** numStr of a float64. *)
Definition numStr (f : spec_float) : string :=
  if SFeqb f (float_of (int_of_float overflow f)) then FormatInt (int_of_float overflow f) else FormatFloat f.

Definition toStr (st : state W) (v : val) : string :=
  match v with
  | VNil => ""
  | VStr s => s
  | VBool b => if b then "true" else "false"
  | VNum f => numStr f
  | VMap _ | VList _ => jsonString (world st) (st_heap st) v
  | VInt n | VInt64 n => FormatInt n
  | VHost i => host_text (world st) (st_heap st) i
  end.

Definition truthy (v : val) : bool := match v with VNil => false | VBool b => b | _ => true end.

Definition toNum (v : val) : option spec_float :=
  match v with
  | VNum f => Some f
  | VInt n | VInt64 n => Some (float_of n)
  | VStr s => ParseFloat s
  | _ => None
  end.

(** reflect.DeepEqual: one object is equal to itself, and a pair of objects that is met again is taken to
    be; a path with more steps than there are pairs meets one again. *)
Fixpoint DeepEqual (fuel : nat) (w : W) (h : heap) (a b : val) : bool :=
  match a, b with
  | VNil, VNil => true
  | VBool a, VBool b => Bool.eqb a b
  | VNum a, VNum b => SFeqb a b
  | VInt a, VInt b | VInt64 a, VInt64 b => a =? b
  | VStr a, VStr b => String.eqb a b
  | VHost a, VHost b => host_equal w h a b
  | VMap None, VMap None | VList None, VList None => true
  | VMap (Some a), VMap (Some b) =>
      if bool_decide (a = b) then true
      else match fuel with
           | O => true
           | S fuel =>
               let ma := map_of h (Some a) in let mb := map_of h (Some b) in
               bool_decide (size ma = size mb) &&
               forallb (λ kv, match mb !! kv.1 with Some v => DeepEqual fuel w h kv.2 v | None => false end) (map_to_list ma)
           end
  | VList (Some a), VList (Some b) =>
      if bool_decide (a = b) then true
      else match fuel with
           | O => true
           | S fuel =>
               let la := list_of h (Some a) in let lb := list_of h (Some b) in
               bool_decide (length la = length lb) && forallb (λ ab, DeepEqual fuel w h ab.1 ab.2) (zip la lb)
           end
  | _, _ => false
  end.

Definition is_nil (v : val) : bool := match v with VNil => true | _ => false end.
Definition valuesEqual (st : state W) (a b : val) : bool :=
  let h := st_heap st in
  let deep := if is_nil a || is_nil b then is_nil a && is_nil b else DeepEqual (objects h * objects h) (world st) h a b in
  match a with
  | VNum f => match toNum b with Some g => SFeqb f g | None => deep end
  | _ => deep
  end.

(** ** Strings *)

Definition ascii_only (s : string) : bool := forall_char (λ c, byte_of c <? 0x80) s.
Fixpoint smap (f : ascii → ascii) (s : string) : string :=
  match s with "" => "" | String c s => String (f c) (smap f s) end.
Definition ToUpper (s : string) : string :=
  if ascii_only s then smap (λ c, if in_range "a" "z" c then ascii_of (byte_of c - 32) else c) s else unicode_upper s.
Definition ToLower (s : string) : string :=
  if ascii_only s then smap lower_byte s else unicode_lower s.
(** strings.ReplaceAll; the empty string is found before each character and at the end. *)
Definition ReplaceAll (s old new : string) : string :=
  if String.eqb old "" then new +:+ String.concat "" (map (λ r, r.2 +:+ new) (runes (String.length s) s))
  else GoStrings.ReplaceAll s old new.

(** ** Members *)

Definition arg (args : list val) (i : nat) : val := default VNil (args !! i).

(** v[int(f)], with the guard before it. *)
Definition element (l : list val) (idx : val) : val :=
  match toNum idx with
  | Some f =>
      let i := int_of_float overflow f in
      if (0 <=? i) && (i <? Z.of_nat (length l)) then default VNil (l !! Z.to_nat i) else VNil
  | None => VNil
  end.

Definition float_len (n : nat) : val := VNum (float_of (Z.of_nat n)).

(** The methods of a map; an entry cannot be put into a nil one. *)
Definition map_method (l : option nat) (name : string) (args : list val) : run val :=
  st ← reads id;
  let m := map_of (st_heap st) l in
  let key := toStr st (arg args 0) in
  if String.eqb name "get" then mret (default VNil (m !! key))
  else if String.eqb name "containsKey" then mret (VBool (bool_decide (is_Some (m !! key))))
  else if String.eqb name "put" then
    match l with
    | None => fail Panicked
    | Some i => _ ← write i (<[key := arg args 1]> m); mret (VStr "")
    end
  else if String.eqb name "size" then mret (float_len (size m))
  else if String.eqb name "isEmpty" then mret (VBool (bool_decide (m = ∅)))
  else if String.eqb name "keySet" then
    keys ← call (λ w h, let '(keys, w) := range_keys (map fst (map_to_list m)) w in (keys, (w, h)));
    new_list (map VStr keys)
  else mret VNil.

Definition list_method (l : option nat) (name : string) (args : list val) : run val :=
  st ← reads id;
  let v := list_of (st_heap st) l in
  mret (if String.eqb name "size" then float_len (length v)
        else if String.eqb name "isEmpty" then VBool (bool_decide (length v = 0%nat))
        else if String.eqb name "get" then element v (arg args 0)
        else if String.eqb name "contains" then VBool (existsb (λ e, valuesEqual st e (arg args 0)) v)
        else VNil).

Definition string_method (v name : string) (args : list val) : run val :=
  st ← reads id;
  mret (if String.eqb name "length" then float_len (String.length v)
        else if String.eqb name "toUpperCase" then VStr (ToUpper v)
        else if String.eqb name "toLowerCase" then VStr (ToLower v)
        else if String.eqb name "trim" then VStr (TrimSpace v)
        else if String.eqb name "contains" then VBool (Contains v (toStr st (arg args 0)))
        else if String.eqb name "replace" then VStr (ReplaceAll v (toStr st (arg args 0)) (toStr st (arg args 1)))
        else if String.eqb name "isEmpty" then VBool (String.eqb v "")
        else VNil).

(** A call has arguments, if none; a property has not. *)
Definition memberOrMethod (recv : val) (name : string) (args : option (list val)) : run val :=
  handled ← match recv with
            | VHost i => call (match args with Some args => CallMethod i name args | None => GetProp i name end)
            | _ => mret None
            end;
  match handled, args with
  | Some v, _ => mret v
  | None, Some args =>
      match recv with
      | VMap l => map_method l name args
      | VList l => list_method l name args
      | VStr s => string_method s name args
      | _ => mret VNil
      end
  | None, None => reads (λ st, match recv with VMap l => default VNil (map_of (st_heap st) l !! name) | _ => VNil end)
  end.

Definition indexInto (recv idx : val) : run val :=
  reads (λ st, match recv with
               | VMap l => default VNil (map_of (st_heap st) l !! toStr st idx)
               | VList l => element (list_of (st_heap st) l) idx
               | _ => VNil
               end).

(** ** Operators *)

(** The operators of both values. *)
Definition binary (op : string) (l r : val) : run val :=
  st ← reads id;
  let order (test : spec_float → spec_float → bool) :=
    VBool (match toNum l, toNum r with Some lf, Some rf => test lf rf | _, _ => false end) in
  if String.eqb op "==" then mret (VBool (valuesEqual st l r))
  else if String.eqb op "!=" then mret (VBool (negb (valuesEqual st l r)))
  else if String.eqb op "<" then mret (order SFltb)
  else if String.eqb op ">" then mret (order (λ a b, SFltb b a))
  else if String.eqb op "<=" then mret (order SFleb)
  else if String.eqb op ">=" then mret (order (λ a b, SFleb b a))
  else if String.eqb op "+" then
    mret (match toNum l, toNum r with
          | Some lf, Some rf => VNum (SFadd 53 1024 lf rf)
          | _, _ => VStr (toStr st l +:+ toStr st r)
          end)
  else fail (UnknownOp op).

(** path + "." + name. *)
Definition dotted (path name : string) : string := if String.eqb path "" then name else path +:+ "." +:+ name.

Definition invoke (path : string) (args : list val) : run val :=
  r ← call (Invoke path args);
  match r with
  | Some (inl v) => mret v
  | Some (inr e) => fail (Thrown e)
  | None => fail (UnknownUtil path)
  end.

Definition lit_val (v : lit) : val :=
  match v with LNull => VNil | LBool b => VBool b | LNum f => VNum f | LStr s => VStr s end.

(** What evaluates the parts of an expression is an argument of each of these. *)
Section Parts.
Context (eval : exprNode → run val).

Definition evalArgs : list exprNode → run (list val) := mapM eval.

(** The entries of a map literal. *)
Definition eval_pairs : list (exprNode * exprNode) → gmap string val → run (gmap string val) :=
  fix go pairs out {struct pairs} :=
    match pairs with
    | [] => mret out
    | (k, v) :: pairs =>
        k ← eval k; v ← eval v;
        key ← reads (λ st, toStr st k);
        go pairs (<[key := v]> out)
    end.

Definition evalBin (op : string) (l r : exprNode) : run val :=
  if String.eqb op "&&" then
    v ← eval l; if truthy v then v ← eval r; mret (VBool (truthy v)) else mret (VBool false)
  else if String.eqb op "||" then
    v ← eval l; if truthy v then mret (VBool true) else v ← eval r; mret (VBool (truthy v))
  else a ← eval l; b ← eval r; binary op a b.

(** From the path walked so far. *)
Definition evalUtilChain : string → list (accessor exprNode) → run val :=
  fix walk path chain {struct chain} :=
    match chain with
    | [] => fail (UtilNotCallable path)
    | AProp name :: chain => walk (dotted path name) chain
    | AMethod name args :: _ => args ← evalArgs args; invoke (dotted path name) args
    | AIndex _ :: _ => fail IndexOfUtil
    end.

(** From the value walked to so far. *)
Definition walk_chain : val → list (accessor exprNode) → run val :=
  fix walk cur chain {struct chain} :=
    match chain with
    | [] => mret cur
    | AProp name :: chain => cur ← memberOrMethod cur name None; walk cur chain
    | AMethod name args :: chain => args ← evalArgs args; cur ← memberOrMethod cur name (Some args); walk cur chain
    | AIndex e :: chain => idx ← eval e; cur ← indexInto cur idx; walk cur chain
    end.

Definition evalRef (root : string) (chain : list (accessor exprNode)) : run val :=
  if String.eqb root "util" || String.eqb root "utils" then evalUtilChain "" chain
  else cur ← reads (λ st, default VNil (vars st !! root)); walk_chain cur chain.
End Parts.

Fixpoint evalExpr (n : exprNode) {struct n} : run val :=
  match n with
  | Lit v => mret (lit_val v)
  | ListExpr elems => vs ← mapM evalExpr elems; new_list vs
  | MapExpr pairs => out ← eval_pairs evalExpr pairs ∅; new_map out
  | Un op x => v ← evalExpr x; if String.eqb op "!" then mret (VBool (negb (truthy v))) else fail (UnknownOp op)
  | Bin op l r => evalBin evalExpr op l r
  | Ref root chain => evalRef evalExpr root chain
  end.
End Eval.
