(* ===== verification/VtlTemplate.v ===== *)
(** * Mapping templates (vtl/vtl.go)

    A template is scanned into items, the items are folded into a tree of blocks, and the tree is rendered.
    An index into the text or into the items is the text or the items from there on. *)

From stdpp Require Import list gmap.
From S2P Require Import Prelude GoStrings GoFloat VtlSyntax VtlEval.
#[local] Open Scope string_scope.
#[local] Open Scope Z_scope.
#[local] Open Scope list_scope.

(** ** The flat scan *)

Inductive item :=
| IText (text : string)
| IRef (node : exprNode) (raw : string) (quiet : bool)
| IDir (name arg : string).

(** Up to the quote that closes a literal and past it, and what follows. *)
Fixpoint literal_text (q : ascii) (s : string) : string * string :=
  match s with
  | "" => ("", "")
  | String c t =>
      if Ascii.eqb c q then (String c "", t)
      else if Ascii.eqb c backslash then
        match t with
        | String d t => let '(w, rest) := literal_text q t in (String c (String d w), rest)
        | "" => (s, "")
        end
      else let '(w, rest) := literal_text q t in (String c w, rest)
  end.
(** The loop of balanced, from a depth that is not 0. *)
Fixpoint balanced_from (fuel : nat) (oc cc : ascii) (depth : nat) (s : string) : option (string * string) :=
  match fuel, s with
  | O, _ | _, "" => None
  | S fuel, String c t =>
      if is_quote c then
        let '(w, rest) := literal_text c t in
        '(content, next) ← balanced_from fuel oc cc depth rest; Some (String c w +:+ content, next)
      else if Ascii.eqb c oc then
        '(content, next) ← balanced_from fuel oc cc (S depth) t; Some (String c content, next)
      else if Ascii.eqb c cc && (depth =? 1)%nat then Some ("", t)
      else
        '(content, next) ← balanced_from fuel oc cc (if Ascii.eqb c cc then pred depth else depth) t;
        Some (String c content, next)
  end.
(** The content of the brackets a text begins with, and what follows them. *)
Definition balanced (s : string) (oc cc : ascii) : option (string * string) :=
  match s with String _ t => balanced_from (String.length t) oc cc 1 t | "" => None end.

(** s[0] == c *)
Definition at_char (c : ascii) (s : string) : bool := match s with String d _ => Ascii.eqb d c | "" => false end.
Definition skip_char (c : ascii) (s : string) : string := if at_char c s then sdrop 1 s else s.

Definition directives : list string := ["set"; "if"; "elseif"; "else"; "end"; "foreach"].

(** From the text after the '#': the name, what is in the brackets, and what follows. *)
Definition scanDirective (s : string) : option (string * string * string) :=
  let '(name, s) := span isIdentPart (skip_char "{" s) in
  if existsb (String.eqb name) directives then
    let s := skip_char "}" s in
    if at_char "(" s then '(content, rest) ← balanced s "(" ")"; Some (name, content, rest)
    else Some (name, "", s)
  else None.

(** What follows the accessors a text begins with. *)
Fixpoint after_chain (fuel : nat) (s : string) : string :=
  match fuel, s with
  | S fuel, String "." (String c t) =>
      if isIdentStart c then
        let s := (span isIdentPart t).2 in
        if at_char "(" s then
          match balanced s "(" ")" with Some (_, rest) => after_chain fuel rest | None => s end
        else after_chain fuel s
      else s
  | S fuel, String "[" _ =>
      match balanced s "[" "]" with Some (_, rest) => after_chain fuel rest | None => s end
  | _, _ => s
  end.

(** What of a text is before a rest of it. *)
Definition before (s rest : string) : string := stake (String.length s - String.length rest) s.

(** From the text after the '$': the reference, its text, whether it is quiet, and what follows. *)
Definition scanRef (s : string) : option (exprNode * string * bool * string) :=
  let quiet := at_char "!" s in
  let t := skip_char "!" s in
  if at_char "{" t then
    '(inner, rest) ← balanced t "{" "}";
    match parseExpression (String "$" inner) with
    | Ok n => Some (n, String "$" (before s rest), quiet, rest)
    | Err _ => None
    end
  else
    match t with
    | String c _ =>
        if isIdentStart c then
          let rest := after_chain (String.length t) (span isIdentPart t).2 in
          match parseExpression (String "$" (before t rest)) with
          | Ok n => Some (n, String "$" (before s rest), quiet, rest)
          | Err _ => None
          end
        else None
    | "" => None
    end.

(** flush, before more items. *)
Definition flush (text : string) (items : list item) : list item :=
  if String.eqb text "" then items else IText text :: items.

(** The rest of a text after a comment it begins with. *)
Definition skip_comment (s : string) : option string :=
  match s with
  | String "#" (String "#" t) => Some (match Cut t (String (ascii_of 10) "") with Some (_, rest) => String (ascii_of 10) rest | None => "" end)
  | String "#" (String "*" _) => Some (match Cut s "*#" with Some (_, rest) => rest | None => "" end)
  | _ => None
  end.

Fixpoint scan (fuel : nat) (text s : string) : list item :=
  match fuel, s with
  | _, "" | O, _ => flush text []
  | S fuel, String c t =>
      match skip_comment s with
      | Some rest => scan fuel text rest
      | None =>
          match (if Ascii.eqb c "#" then scanDirective t else None) with
          | Some (name, arg, rest) => flush text (IDir name arg :: scan fuel "" rest)
          | None =>
              match (if Ascii.eqb c "$" then scanRef t else None) with
              | Some (n, raw, quiet, rest) => flush text (IRef n raw quiet :: scan fuel "" rest)
              | None => scan fuel (text +:+ String c "") t
              end
          end
      end
  end.
Definition scanTemplate (s : string) : list item := scan (String.length s) "" s.

(** ** The tree of blocks *)

(** A branch without a condition is an #else. *)
Inductive node :=
| TextN (s : string)
| RefN (node : exprNode) (raw : string) (quiet : bool)
| SetN (name : string) (expr : exprNode)
| IfN (branches : list (option exprNode * list node))
| ForeachN (varName : string) (expr : exprNode) (body : list node).

Definition parseSet (arg : string) : res vtl_error (string * exprNode) :=
  match Cut arg "=" with
  | None => Err (MalformedSet arg)
  | Some (lhs, rhs) =>
      let lhs := TrimSpace lhs in
      if HasPrefix lhs "$" then e ← parseExpression (TrimSpace rhs); Ok (TrimPrefix lhs "$", e)
      else Err (SetTarget lhs)
  end.

Definition parseForeach (arg : string) : res vtl_error (string * string) :=
  match Cut arg " in " with
  | None => Err (MalformedForeach arg)
  | Some (v, e) =>
      let v := TrimSpace v in
      if HasPrefix v "$" then Ok (TrimPrefix v "$", TrimSpace e) else Err (ForeachVar v)
  end.

Definition terminators : list string := ["end"; "else"; "elseif"].
Definition without_end {A} (name : string) : res vtl_error A := Err (WithoutEnd name).

(** The nodes up to a terminator, and the items from it on. *)
Fixpoint buildBlock (fuel : nat) (items : list item) {struct fuel} : res vtl_error (list node * list item) :=
  match fuel with
  | O => Err OutOfFuel
  | S fuel =>
      match items with
      | [] => Ok ([], [])
      | IText s :: items => '(ns, rest) ← buildBlock fuel items; Ok (TextN s :: ns, rest)
      | IRef n raw quiet :: items => '(ns, rest) ← buildBlock fuel items; Ok (RefN n raw quiet :: ns, rest)
      | IDir name arg :: tail =>
          if existsb (String.eqb name) terminators then Ok ([], items)
          else if String.eqb name "set" then
            '(v, e) ← parseSet arg; '(ns, rest) ← buildBlock fuel tail; Ok (SetN v e :: ns, rest)
          else if String.eqb name "if" then
            '(branches, tail) ← buildIf fuel arg tail; '(ns, rest) ← buildBlock fuel tail; Ok (IfN branches :: ns, rest)
          else if String.eqb name "foreach" then
            '(n, tail) ← buildForeach fuel arg tail; '(ns, rest) ← buildBlock fuel tail; Ok (n :: ns, rest)
          else buildBlock fuel tail
      end
  end
(** From the argument of an #if or an #elseif and the items after it: the branches, and the items after
    the #end. *)
with buildIf (fuel : nat) (arg : string) (items : list item) {struct fuel} : res vtl_error (list (option exprNode * list node) * list item) :=
  match fuel with
  | O => Err OutOfFuel
  | S fuel =>
      cond ← parseExpression arg;
      '(body, rest) ← buildBlock fuel items;
      match rest with
      | IDir name arg :: rest =>
          if String.eqb name "end" then Ok ([(Some cond, body)], rest)
          else if String.eqb name "elseif" then
            '(branches, rest) ← buildIf fuel arg rest; Ok ((Some cond, body) :: branches, rest)
          else
            '(last, rest) ← buildBlock fuel rest;
            match rest with
            | IDir "end" _ :: rest => Ok ([(Some cond, body); (None, last)], rest)
            | _ => without_end "else"
            end
      | _ => without_end "if"
      end
  end
with buildForeach (fuel : nat) (arg : string) (items : list item) {struct fuel} : res vtl_error (node * list item) :=
  match fuel with
  | O => Err OutOfFuel
  | S fuel =>
      '(v, list_text) ← parseForeach arg;
      e ← parseExpression list_text;
      '(body, rest) ← buildBlock fuel items;
      match rest with
      | IDir "end" _ :: rest => Ok (ForeachN v e body, rest)
      | _ => without_end "foreach"
      end
  end.

(** Enough for every list of items ([VtlBlocks]). *)
Definition build (items : list item) : res vtl_error (list node * list item) := buildBlock (S (2 * length items)) items.

Definition Validate (tmpl : string) : res vtl_error unit := _ ← build (scanTemplate tmpl); Ok tt.

(** ** Rendering *)

Section Render.
Context {W : Type} {host : Host W}.

Definition set_var (name : string) (v : val) : M W unit :=
  λ st, (Ok tt, State (st_heap st) (<[name := v]> (vars st)) (world st)).

(** What is written to the builder, by the nodes of a list with what renders one; by the first branch whose
    condition holds; and by the body for each element, which is read when its turn comes. *)
Section Parts.
Context (render : node → M W string).

Definition render_all : list node → M W string :=
  fix go ns {struct ns} := match ns with [] => mret "" | n :: ns => a ← render n; b ← go ns; mret (a +:+ b) end.

Definition render_branches : list (option exprNode * list node) → M W string :=
  fix go brs {struct brs} :=
    match brs with
    | [] => mret ""
    | (None, body) :: _ => render_all body
    | (Some cond, body) :: brs => c ← evalExpr cond; if truthy c then render_all body else go brs
    end.

Definition elements (c : val) (st : state W) : list val :=
  match c with VList l => list_of (st_heap st) l | _ => [] end.
Definition render_each (varName : string) (c : val) (body : list node) : list nat → M W string :=
  fix go ixs {struct ixs} :=
    match ixs with
    | [] => mret ""
    | i :: ixs =>
        el ← reads (λ st, default VNil (elements c st !! i));
        _ ← set_var varName el; a ← render_all body; b ← go ixs; mret (a +:+ b)
    end.
End Parts.

Fixpoint renderNode (n : node) {struct n} : M W string :=
  match n with
  | TextN s => mret s
  | RefN e raw quiet =>
      v ← evalExpr e;
      if is_nil v && negb quiet then mret raw else reads (λ st, toStr st v)
  | SetN name e => v ← evalExpr e; _ ← set_var name v; mret ""
  | IfN branches => render_branches renderNode branches
  | ForeachN v e body =>
      c ← evalExpr e;
      n ← reads (λ st, length (elements c st));
      render_each renderNode v c body (seq 0 n)
  end.
Definition renderNodes : list node → M W string := render_all renderNode.

Definition RenderVars (tmpl : string) : M W string :=
  λ st, match build (scanTemplate tmpl) with
        | Ok (nodes, _) => renderNodes nodes st
        | Err e => (Err e, st)
        end.
(** ctx is a map, or nil. *)
Definition Render (tmpl : string) (ctx : option nat) (h : heap) (w : W) : res vtl_error string * state W :=
  RenderVars tmpl (State h (<["ctx" := VMap ctx]> {["context" := VMap ctx]}) w).
End Render.

(** ** The package's tests *)

(** A host of nothing. *)
Definition nop_host : Host unit := {|
  Invoke _ _ w h := (None, (w, h));
  GetProp i name w h := (if (i =? 0) && String.eqb name "body" then Some (VStr "B") else None, (w, h));
  CallMethod i name args w h :=
    (if (i =? 0) && String.eqb name "echo" then args !! 0%nat else None, (w, h));
  range_keys ks w := (ks, w);
  host_text _ _ _ := ""; host_json _ _ _ := None; host_equal _ _ := Z.eqb;
  unicode_upper s := s; unicode_lower s := s; overflow _ := - 2 ^ 63
|}.
#[local] Existing Instance nop_host.

(** {"args": args} as the context. *)
Definition with_args (args : list (string * val)) (more : list (list val)) : heap :=
  Heap [{["args" := VMap (Some 1%nat)]}; list_to_map args] more.
Definition rendered (tmpl : string) (args : list (string * val)) (more : list (list val)) : res vtl_error string :=
  (Render tmpl (Some 0%nat) (with_args args more) tt).1.

Example render_tests :
  rendered "hello $ctx.args.name!" [("name", VStr "erin")] [] = Ok "hello erin!" ∧
  map (λ n, rendered "#set($n = $ctx.args.n)#if($n > 10)big#{elseif}($n > 0)small#else none#end" [("n", VNum (float_of n))] [])
    [42; 3; -1] = [Ok "big"; Ok "small"; Ok " none"] ∧
  rendered "#foreach($x in $ctx.args.list)[$x]#end" [("list", VList (Some 0%nat))] [[VStr "a"; VStr "b"; VStr "c"]] = Ok "[a][b][c]" ∧
  rendered "x=$ctx.args.missing" [] [] = Ok "x=$ctx.args.missing" ∧ rendered "x=$!ctx.args.missing" [] [] = Ok "x=" ∧
  (RenderVars "$input.body|$input.echo('hi')" (State (Heap [] []) {["input" := VHost 0]} tt)).1 = Ok "B|hi" ∧
  (RenderVars "$a-$b" (State (Heap [] []) {["a" := VStr "x"; "b" := VStr "y"]} tt)).1 = Ok "x-y".
Proof. vm_compute. done. Qed.

(** ** What templates meet *)

(** A stray #end ends the template, and so does an #else: what follows is dropped, and validation passes. *)
Example stray_end :
  rendered "a#end b" [] [] = Ok "a" ∧ Validate "a#end b" = Ok tt ∧ rendered "{#else$ctx.args.x}" [] [] = Ok "{" ∧
  Validate "a#if($x)b" = Err (WithoutEnd "if").
Proof. vm_compute. done. Qed.

(** A bracket after an #end or an #else is taken for its argument. *)
Example bracket_swallowed : rendered "#if(true)a#end(b)" [] [] = Ok "a" ∧ rendered "#if(false)a#else(b)#end" [] [] = Ok "".
Proof. vm_compute. done. Qed.

(** An entry named like a keyword cannot be read, and a reference that does not parse is text. *)
Example keyword_property :
  rendered "$ctx.args.in" [("in", VStr "x")] [] = Ok "$ctx.args.in" ∧ rendered "$ctx.args.out" [("out", VStr "x")] [] = Ok "x" ∧
  rendered "${ctx.args.}" [] [] = Ok "${ctx.args.}" ∧ Validate "${ctx.args.}" = Ok tt.
Proof. vm_compute. done. Qed.

(** A number is equal to a text that reads as it, and the text is not equal to the number. *)
Example equality_one_way :
  rendered "#if(1 == $ctx.args.n)a#end#if($ctx.args.n == 1)b#end" [("n", VStr "1")] [] = Ok "a" ∧
  rendered "$ctx.args.n.length()+#if($ctx.args.n + 1 == 2)c#end" [("n", VStr "1")] [] = Ok "1+c".
Proof. vm_compute. done. Qed.

(** An entry put into the map of a nil context is a panic. *)
Example put_into_nil : (Render "$ctx.put('a', 1)" None (Heap [] []) tt).1 = Err Panicked.
Proof. vm_compute. done. Qed.

(** A map that holds itself is written as null. *)
Example cycle_is_null : rendered "$ctx.put('me', $ctx)|$ctx" [] [] = Ok "|null" ∧ rendered "$ctx.put('me', $ctx)#if($ctx == $ctx.me)a#end" [] [] = Ok "a".
Proof. vm_compute. done. Qed.
