(* ===== verification/VtlBlocks.v ===== *)
(** * The block tree of a template, as a grammar

    buildBlock, buildIf and buildForeach end on every list of items, and read exactly the grammar of blocks
    below; scanning ends, too. *)

From stdpp Require Import list.
From S2P Require Import Prelude GoStrings VtlSyntax VtlParse VtlTemplate.
#[local] Open Scope string_scope.
#[local] Open Scope nat_scope.
#[local] Open Scope list_scope.

(** ** Scanning ends *)

Lemma literal_text_length q n : ∀ s, String.length s ≤ n → String.length (literal_text q s).2 ≤ String.length s.
Proof.
  induction n as [|n IH]; intros [|c s] Hl; cbn [literal_text String.length] in *; try done; [lia|]. destruct (Ascii.eqb c q); [cbn; lia|].
  destruct (Ascii.eqb c backslash).
  - destruct s as [|d s]; [cbn; lia|]. cbn [String.length] in Hl. specialize (IH s ltac:(lia)). destruct (literal_text q s). cbn in *. lia.
  - specialize (IH s ltac:(lia)). destruct (literal_text q s). cbn in *. lia.
Qed.
Lemma sdrop_length n s : String.length (sdrop n s) ≤ String.length s.
Proof. revert s. induction n as [|n IH]; intros [|c s]; cbn; try lia. specialize (IH s). lia. Qed.
Lemma skip_char_length c s : String.length (skip_char c s) ≤ String.length s.
Proof. unfold skip_char. destruct (at_char c s); [apply sdrop_length|done]. Qed.

Lemma balanced_from_length oc cc fuel : ∀ depth s, match balanced_from fuel oc cc depth s with Some (_, rest) => String.length rest < String.length s | None => True end.
Proof.
  induction fuel as [|fuel IH]; intros depth [|c s]; cbn [balanced_from]; try done. destruct (is_quote c).
  { pose proof (literal_text_length c _ s (le_n _)) as Hl. destruct (literal_text c s) as [w rest]. specialize (IH depth rest). destruct (balanced_from _ _ _ _ rest) as [[]|]; cbn in *; [lia|done]. }
  destruct (Ascii.eqb c oc); [specialize (IH (S depth) s); destruct (balanced_from _ _ _ _ s) as [[]|]; cbn in *; [lia|done]|].
  destruct (Ascii.eqb c cc && (depth =? 1)); [cbn; lia|].
  match goal with |- context [balanced_from fuel oc cc ?d s] => specialize (IH d s); destruct (balanced_from _ _ _ d s) as [[]|]; cbn in *; [lia|done] end.
Qed.
Lemma balanced_length s oc cc content rest : balanced s oc cc = Some (content, rest) → String.length rest < String.length s.
Proof.
  unfold balanced. destruct s as [|c s]; [done|]. pose proof (balanced_from_length oc cc (String.length s) 1 s) as H. intros E. rewrite E in H. cbn. lia.
Qed.
(** More fuel makes no difference to any of the loops over the text. *)
Lemma balanced_fuel oc cc f1 : ∀ f2 depth s, String.length s ≤ f1 → String.length s ≤ f2 → balanced_from f1 oc cc depth s = balanced_from f2 oc cc depth s.
Proof.
  induction f1 as [|f1 IH]; intros [|f2] depth [|c s] H1 H2; cbn [String.length] in *; try done; try lia. cbn [balanced_from]. destruct (is_quote c).
  { pose proof (literal_text_length c _ s (le_n _)) as Hl. destruct (literal_text c s) as [w rest]. cbn in Hl. by rewrite (IH f2) by lia. }
  destruct (Ascii.eqb c oc); [by rewrite (IH f2) by lia|]. destruct (Ascii.eqb c cc && (depth =? 1)); [done|]. by rewrite (IH f2) by lia.
Qed.

Lemma after_chain_length fuel : ∀ s, String.length (after_chain fuel s) ≤ String.length s.
Proof.
  induction fuel as [|fuel IH]; intros s; [by destruct s|]. destruct s as [|c s]; [done|]. cbn [after_chain].
  destruct (ascii_dec c ".") as [->|Hd].
  - destruct s as [|d s]; [done|]. destruct (isIdentStart d); [|done]. pose proof (span_length isIdentPart s) as Hs. destruct (span isIdentPart s) as [w t]. cbn in Hs |- *.
    destruct (at_char "(" t); [|specialize (IH t); lia]. destruct (balanced t "(" ")") as [[content rest]|] eqn:Eb; [|lia]. apply balanced_length in Eb. specialize (IH rest). lia.
  - destruct (ascii_dec c "[") as [->|Hb].
    + destruct (balanced (String "[" s) "[" "]") as [[content rest]|] eqn:Eb; [|done]. apply balanced_length in Eb. specialize (IH rest). lia.
    + destruct c as [[] [] [] [] [] [] [] []]; done.
Qed.

Lemma scanDirective_length s name arg rest : scanDirective s = Some (name, arg, rest) → String.length rest ≤ String.length s.
Proof.
  unfold scanDirective. pose proof (skip_char_length "{" s) as H1. pose proof (span_length isIdentPart (skip_char "{" s)) as H2.
  destruct (span isIdentPart (skip_char "{" s)) as [w t]. destruct (existsb _ _); [|done]. pose proof (skip_char_length "}" t) as H3. cbn in H2. destruct (at_char "(" _).
  - destruct (balanced _ _ _) as [[content r]|] eqn:Eb; [|done]. apply balanced_length in Eb. cbn. intros [= <- <- <-]. lia.
  - intros [= <- <- <-]. lia.
Qed.
Lemma scanRef_length s n raw quiet rest : scanRef s = Some (n, raw, quiet, rest) → String.length rest ≤ String.length s.
Proof.
  unfold scanRef. pose proof (skip_char_length "!" s) as H1. destruct (at_char "{" (skip_char "!" s)).
  - destruct (balanced _ _ _) as [[content r]|] eqn:Eb; [|done]. apply balanced_length in Eb. cbn. case_match; [|done]. intros [= <- <- <- <-]. lia.
  - set (t := skip_char "!" s) in *. destruct t as [|c t]; [done|]. destruct (isIdentStart c); [|done].
    pose proof (span_length isIdentPart (String c t)) as H2. pose proof (after_chain_length (String.length (String c t)) (span isIdentPart (String c t)).2) as H3.
    case_match; [|done]. intros Ho. assert (rest = after_chain (String.length (String c t)) (span isIdentPart (String c t)).2) as -> by congruence. lia.
Qed.
Lemma Cut_length s sep a b : Cut s sep = Some (a, b) → String.length b ≤ String.length s.
Proof. intros ->%Cut_spec. rewrite !length_append. lia. Qed.
Lemma skip_comment_length c s rest : skip_comment (String c s) = Some rest → String.length rest ≤ String.length s.
Proof.
  unfold skip_comment. destruct (ascii_dec c "#") as [->|Hc]; [|destruct c as [[] [] [] [] [] [] [] []]; done]. destruct s as [|d s]; [done|].
  destruct (ascii_dec d "#") as [->|Hd].
  - destruct (Cut s _) as [[a b]|] eqn:Ec; intros [= <-]; [|cbn; lia]. apply Cut_spec in Ec as ->. cbn. rewrite length_append. cbn. lia.
  - destruct (ascii_dec d "*") as [->|Hd2]; [|destruct d as [[] [] [] [] [] [] [] []]; done].
    destruct (Cut _ _) as [[a b]|] eqn:Ec; intros [= <-]; [|cbn; lia]. apply Cut_spec in Ec. assert (Hl : String.length (String "#" (String "*" s)) = String.length (a +:+ "*#" +:+ b)) by by rewrite Ec.
    rewrite !length_append in Hl. destruct a as [|x a]; [done|]. cbn in *. lia.
Qed.

Lemma scan_fuel f1 : ∀ f2 text s, String.length s ≤ f1 → String.length s ≤ f2 → scan f1 text s = scan f2 text s.
Proof.
  induction f1 as [|f1 IH]; intros [|f2] text [|c s] H1 H2; cbn [String.length] in *; try done; try lia. cbn [scan].
  destruct (skip_comment (String c s)) as [rest|] eqn:Ek; [apply skip_comment_length in Ek; apply IH; lia|].
  destruct (if Ascii.eqb c "#" then scanDirective s else None) as [[[name arg] rest]|] eqn:Ed.
  { destruct (Ascii.eqb c "#"); [|done]. apply scanDirective_length in Ed. by rewrite (IH f2) by lia. }
  destruct (if Ascii.eqb c "$" then scanRef s else None) as [[[[n raw] quiet] rest]|] eqn:Er.
  { destruct (Ascii.eqb c "$"); [|done]. apply scanRef_length in Er. by rewrite (IH f2) by lia. }
  apply IH; lia.
Qed.

(** ** The grammar *)

(** Items that a sequence of blocks is written with, and those of an #if or #elseif after its argument, up
    to the #end. *)
Inductive blocks : list item → list node → Prop :=
| blocks_nil : blocks [] []
| blocks_text s items ns : blocks items ns → blocks (IText s :: items) (TextN s :: ns)
| blocks_ref e raw quiet items ns : blocks items ns → blocks (IRef e raw quiet :: items) (RefN e raw quiet :: ns)
| blocks_set arg v e items ns :
    parseSet arg = Ok (v, e) → blocks items ns → blocks (IDir "set" arg :: items) (SetN v e :: ns)
| blocks_if arg items brs rest ns :
    branches arg items brs → blocks rest ns → blocks (IDir "if" arg :: items ++ rest) (IfN brs :: ns)
| blocks_foreach arg v t e items body end_arg rest ns :
    parseForeach arg = Ok (v, t) → parseExpression t = Ok e → blocks items body → blocks rest ns →
    blocks (IDir "foreach" arg :: items ++ IDir "end" end_arg :: rest) (ForeachN v e body :: ns)
| blocks_unknown name arg items ns : name ∉ directives → blocks items ns → blocks (IDir name arg :: items) ns
with branches : string → list item → list (option exprNode * list node) → Prop :=
| branches_end arg c items body end_arg :
    parseExpression arg = Ok c → blocks items body → branches arg (items ++ [IDir "end" end_arg]) [(Some c, body)]
| branches_elseif arg c items body arg2 items2 brs :
    parseExpression arg = Ok c → blocks items body → branches arg2 items2 brs →
    branches arg (items ++ IDir "elseif" arg2 :: items2) ((Some c, body) :: brs)
| branches_else arg c items body else_arg items2 body2 end_arg :
    parseExpression arg = Ok c → blocks items body → blocks items2 body2 →
    branches arg (items ++ IDir "else" else_arg :: items2 ++ [IDir "end" end_arg]) [(Some c, body); (None, body2)].

Scheme blocks_mind := Induction for blocks Sort Prop with branches_mind := Induction for branches Sort Prop.
Combined Scheme blocks_branches_ind from blocks_mind, branches_mind.

(** Where a sequence of blocks stops: at the end, or at a directive that an enclosing block takes. *)
Definition stops (rest : list item) : Prop :=
  match rest with [] => True | IDir name _ :: _ => name ∈ terminators | _ => False end.

Lemma terminator_test name : existsb (String.eqb name) terminators = bool_decide (name ∈ terminators).
Proof.
  apply eq_true_iff_eq. rewrite existsb_exists, bool_decide_eq_true, list_elem_of_In. split.
  - by intros (x & Hx & ->%String.eqb_eq).
  - intros H. exists name. by rewrite String.eqb_refl.
Qed.

(** ** What is built is of the grammar *)

(** An answer the model would not make up. *)
Definition own_error (e : vtl_error) : Prop := e ≠ OutOfFuel ∧ e ≠ Panicked.

Definition sound {A} (G : list item → A → Prop) (items : list item) (r : res vtl_error (A * list item)) : Prop :=
  match r with Ok (a, rest) => ∃ used, items = used ++ rest ∧ G used a | Err e => own_error e end.

Lemma parse_own s : match parseExpression s with Ok _ => True | Err e => own_error e end.
Proof. apply parseExpression_answers. Qed.
Lemma parseSet_own arg : match parseSet arg with Ok _ => True | Err e => own_error e end.
Proof.
  unfold parseSet. destruct (Cut arg "=") as [[l r]|]; [|done]. destruct (HasPrefix _ _); [|done].
  pose proof (parse_own (TrimSpace r)) as H. by destruct (parseExpression (TrimSpace r)).
Qed.
Lemma parseForeach_own arg : match parseForeach arg with Ok _ => True | Err e => own_error e end.
Proof. unfold parseForeach. destruct (Cut arg " in ") as [[l r]|]; [|done]. by destruct (HasPrefix _ _). Qed.

Lemma sound_bind {A B} (G : list item → A → Prop) (G' : list item → B → Prop) items r (k : A * list item → res vtl_error (B * list item)) :
  sound G items r →
  (∀ a used rest, items = used ++ rest → G used a → sound (λ later, G' (used ++ later)) rest (k (a, rest))) →
  sound G' items (r ≫= k).
Proof.
  intros Hr Hk. destruct r as [[a rest]|e]; [|done]. destruct Hr as (used & -> & Ha). cbn.
  specialize (Hk a used rest eq_refl Ha). destruct (k (a, rest)) as [[b rest']|e]; [|done].
  destruct Hk as (later & -> & Hb). exists (used ++ later). by rewrite <-app_assoc.
Qed.
Lemma sound_weaken {A} (G G' : list item → A → Prop) items r : sound G items r → (∀ used a, G used a → G' used a) → sound G' items r.
Proof. intros Hr H. destruct r as [[a rest]|e]; [|done]. destruct Hr as (used & E & Ha). exists used. eauto. Qed.
(** A construct that is read, and the blocks after it. *)
Lemma sound_cons {A} (G G' : list item → A → Prop) i items r : sound G items r → (∀ used a, G used a → G' (i :: used) a) → sound G' (i :: items) r.
Proof. intros Hr H. destruct r as [[a rest]|e]; [|done]. destruct Hr as (used & -> & Ha). exists (i :: used). eauto. Qed.
Lemma sound_ok {A} (G : list item → A → Prop) items a : G [] a → sound G items (Ok (a, items)).
Proof. by exists []. Qed.

(** With what it stops at. *)
Definition block_of (items : list item) (rest : list item) (ns : list node) : Prop := ∃ used, items = used ++ rest ∧ blocks used ns ∧ stops rest.
Definition block_answer (items : list item) (r : res vtl_error (list node * list item)) : Prop :=
  match r with Ok (ns, rest) => block_of items rest ns | Err e => own_error e end.

Lemma answer_map (f : list node → list node) i pre items r :
  block_answer items r → (∀ used ns, blocks used ns → blocks (i :: pre ++ used) (f ns)) →
  block_answer (i :: pre ++ items) ('(ns, rest) ← r; Ok (f ns, rest)).
Proof.
  intros Hr Hf. destruct r as [[ns rest]|e]; [|done]. destruct Hr as (used & -> & Hb & Hs). cbn. exists (i :: pre ++ used).
  split; [by rewrite app_assoc|]. eauto.
Qed.
(** The answer to a block, and what is made of it and of what follows. *)
Lemma answer_bind {A} (G : list item → A → Prop) items r (k : list node * list item → res vtl_error (A * list item)) :
  block_answer items r →
  (∀ used rest ns, items = used ++ rest → blocks used ns → stops rest → sound (λ later, G (used ++ later)) rest (k (ns, rest))) →
  sound G items (r ≫= k).
Proof.
  intros Hr Hk. destruct r as [[ns rest]|e]; [|done]. destruct Hr as (used & -> & Hb & Hs). cbn.
  specialize (Hk used rest ns eq_refl Hb Hs). destruct (k (ns, rest)) as [[b rest']|e]; [|done].
  destruct Hk as (later & -> & Hl). exists (used ++ later). by rewrite <-app_assoc.
Qed.

Lemma builders_sound fuel : ∀ items,
  (2 * length items + 1 ≤ fuel → block_answer items (buildBlock fuel items)) ∧
  (∀ arg, 2 * length items + 2 ≤ fuel → sound (branches arg) items (buildIf fuel arg items)) ∧
  (∀ arg, 2 * length items + 2 ≤ fuel → sound (λ used n, ∀ rest ns, blocks rest ns → blocks (IDir "foreach" arg :: used ++ rest) (n :: ns)) items (buildForeach fuel arg items)).
Proof.
  induction fuel as [|fuel IH]; intros items; [split_and!; intros; lia|]. split_and!.
  - intros Hf. cbn [buildBlock]. destruct items as [|[s|e raw quiet|name arg] items]; cbn [length] in *.
    + exists []. split_and!; [done|constructor|done].
    + apply (answer_map _ _ []); [apply IH; lia|]. intros. by constructor.
    + apply (answer_map _ _ []); [apply IH; lia|]. intros. by constructor.
    + rewrite terminator_test. case_bool_decide as Ht; [exists []; split_and!; [done|constructor|done]|].
      destruct (String.eqb_spec name "set") as [->|Hset].
      { pose proof (parseSet_own arg) as Hp. destruct (parseSet arg) as [[v e]|] eqn:Ep; [|done]. cbn [mbind res_bind].
        apply (answer_map _ _ []); [apply IH; lia|]. intros. by constructor. }
      destruct (String.eqb_spec name "if") as [->|Hif].
      { pose proof (proj1 (proj2 (IH items)) arg ltac:(lia)) as Hi. destruct (buildIf fuel arg items) as [[brs tail]|]; [|done].
        destruct Hi as (used & -> & Hb). cbn [mbind res_bind]. rewrite length_app in Hf. apply answer_map; [apply IH; lia|]. intros. by constructor. }
      destruct (String.eqb_spec name "foreach") as [->|Hfe].
      { pose proof (proj2 (proj2 (IH items)) arg ltac:(lia)) as Hi. destruct (buildForeach fuel arg items) as [[n tail]|]; [|done].
        destruct Hi as (used & -> & Hb). cbn [mbind res_bind]. rewrite length_app in Hf. apply answer_map; [apply IH; lia|]. intros. by apply Hb. }
      pose proof (proj1 (IH items) ltac:(lia)) as Hb. destruct (buildBlock fuel items) as [[ns rest]|]; [|done]. destruct Hb as (used & -> & Hb & Hs).
      exists (IDir name arg :: used). split_and!; [done| |done]. constructor; [|done]. unfold directives, terminators in *. set_solver.
  - intros arg Hf. cbn [buildIf]. pose proof (parse_own arg) as Hp. destruct (parseExpression arg) as [c|] eqn:Ec; [|done]. cbn [mbind res_bind].
    apply answer_bind; [apply IH; lia|]. intros used rest ns -> Hb Hs. rewrite length_app in Hf.
    destruct rest as [|[|?|name arg2] rest]; try done. cbn [stops length] in *.
    destruct (String.eqb_spec name "end") as [->|He]; [exists [IDir "end" arg2]; split; [done|by apply branches_end]|].
    destruct (String.eqb_spec name "elseif") as [->|Hei].
    { pose proof (proj1 (proj2 (IH rest)) arg2 ltac:(lia)) as Hi. destruct (buildIf fuel arg2 rest) as [[brs tail]|]; [|done].
      destruct Hi as (used2 & -> & Hb2). cbn. exists (IDir "elseif" arg2 :: used2). split; [done|]. by apply branches_elseif. }
    assert (name = "else") as -> by (unfold terminators in *; set_solver).
    pose proof (proj1 (IH rest) ltac:(lia)) as Hl. destruct (buildBlock fuel rest) as [[last tail]|]; [|done]. destruct Hl as (used2 & -> & Hb2 & Hs2).
    cbn [mbind res_bind]. destruct tail as [|[|?|name arg3] tail]; try done. destruct (String.eqb_spec name "end") as [->|Hne].
    + exists (IDir "else" arg2 :: used2 ++ [IDir "end" arg3]). split; [by cbn; rewrite <-app_assoc|]. by apply branches_else.
    + cbn. repeat (case_match; try done).
  - intros arg Hf. cbn [buildForeach]. pose proof (parseForeach_own arg) as Hp. destruct (parseForeach arg) as [[v t]|] eqn:Ef; [|done]. cbn [mbind res_bind].
    pose proof (parse_own t) as He. destruct (parseExpression t) as [e|] eqn:Ee; [|done]. cbn [mbind res_bind].
    apply answer_bind; [apply IH; lia|]. intros used rest ns -> Hb Hs. 
    destruct rest as [|[|?|name arg2] rest]; try done. destruct (String.eqb_spec name "end") as [->|Hne].
    + exists [IDir "end" arg2]. split; [done|]. intros rest' ns' Hr. rewrite <-app_assoc. by eapply blocks_foreach.
    + cbn. repeat (case_match; try done).
Qed.

(** ** What is of the grammar is built *)

Lemma stops_branches items : (∃ a tl, items = IDir "end" a :: tl) ∨ (∃ a tl, items = IDir "else" a :: tl) ∨ (∃ a tl, items = IDir "elseif" a :: tl) → stops items.
Proof. intros [(a & tl & ->)|[(a & tl & ->)|(a & tl & ->)]]; cbn; unfold terminators; set_solver. Qed.

#[local] Ltac items_len := repeat (rewrite ?length_app in *; cbn [length app] in * ); lia.

Lemma builders_complete :
  (∀ used ns, blocks used ns → ∀ rest fuel, stops rest → 2 * length (used ++ rest) + 1 ≤ fuel → buildBlock fuel (used ++ rest) = Ok (ns, rest)) ∧
  (∀ arg used brs, branches arg used brs → ∀ rest fuel, 2 * length (used ++ rest) + 2 ≤ fuel → buildIf fuel arg (used ++ rest) = Ok (brs, rest)).
Proof.
  apply blocks_branches_ind.
  - intros rest [|fuel] Hs Hf; [lia|]. cbn [app]. destruct rest as [|[|?|name arg] rest]; try done. cbn [buildBlock].
    cbn in Hs. by rewrite terminator_test, bool_decide_true.
  - intros s items ns _ IH rest [|fuel] Hs Hf; [lia|]. cbn in *. rewrite IH by (done || lia). done.
  - intros e raw quiet items ns _ IH rest [|fuel] Hs Hf; [lia|]. cbn in *. rewrite IH by (done || lia). done.
  - intros arg v e items ns Hp _ IH rest [|fuel] Hs Hf; [lia|]. cbn in *. rewrite Hp. cbn. rewrite IH by (done || lia). done.
  - intros arg items brs more ns _ IHb _ IH rest [|fuel] Hs Hf; [lia|]. cbn in *. rewrite <-app_assoc in *.
    rewrite IHb by items_len. cbn. rewrite IH; [done|done|items_len].
  - intros arg v t e items body end_arg more ns Hp He _ IHb _ IH rest [|[|fuel]] Hs Hf; [cbn in Hf; lia|cbn in Hf; lia|].
    cbn [app] in *. rewrite <-app_assoc in *.
    remember (S fuel) as f. cbn -[buildForeach]. rewrite Heqf at 1. cbn -[buildBlock]. rewrite Hp. cbn -[buildBlock]. rewrite He. cbn -[buildBlock].
    rewrite IHb; [|apply stops_branches; eauto|rewrite length_app; cbn; items_len]. cbn -[buildBlock].
    rewrite IH; [done|done|items_len].
  - intros name arg items ns Hn _ IH rest [|fuel] Hs Hf; [lia|]. cbn [app length] in *. cbn [buildBlock]. rewrite terminator_test, bool_decide_false by (unfold directives, terminators in *; set_solver).
    destruct (String.eqb_spec name "set"); [subst; unfold directives in Hn; set_solver|]. destruct (String.eqb_spec name "if"); [subst; unfold directives in Hn; set_solver|].
    destruct (String.eqb_spec name "foreach"); [subst; unfold directives in Hn; set_solver|]. apply IH; [done|items_len].
  - intros arg c items body end_arg Hc _ IH rest [|fuel] Hf; [lia|]. rewrite <-app_assoc in *. cbn -[buildBlock]. rewrite Hc. cbn -[buildBlock].
    rewrite IH; [done|apply stops_branches; eauto|items_len].
  - intros arg c items body arg2 items2 brs Hc _ IH _ IHb rest [|fuel] Hf; [lia|]. rewrite <-app_assoc in *. cbn -[buildBlock]. rewrite Hc. cbn -[buildBlock].
    rewrite IH; [|apply stops_branches; eauto|items_len]. cbn -[buildBlock].
    rewrite IHb; [done|items_len].
  - intros arg c items body else_arg items2 body2 end_arg Hc _ IH _ IH2 rest [|fuel] Hf; [lia|]. rewrite <-app_assoc in *. cbn -[buildBlock]. rewrite Hc. cbn -[buildBlock].
    rewrite IH; [|apply stops_branches; eauto|items_len]. cbn -[buildBlock]. rewrite <-app_assoc in *. cbn -[buildBlock].

    rewrite IH2; [done|apply stops_branches; eauto|items_len].
Qed.

(** C35: building the tree of a template always ends with an answer of the code's own, and reads exactly the
    grammar of blocks: a list of nodes is built if and only if the items up to the first directive that
    closes no open block are written from those nodes, each #if with its branches in order and each
    #foreach with its body. *)
Theorem block_grammar items :
  match build items with Err e => e ≠ OutOfFuel ∧ e ≠ Panicked | Ok _ => True end ∧
  ∀ ns rest, build items = Ok (ns, rest) ↔ ∃ used, items = used ++ rest ∧ blocks used ns ∧ stops rest.
Proof.
  unfold build. pose proof (proj1 (builders_sound (S (2 * length items)) items) ltac:(lia)) as Hs. split.
  - by destruct (buildBlock _ items) as [[]|].
  - intros ns rest. split.
    + intros E. by rewrite E in Hs.
    + intros (used & -> & Hb & Hr). apply builders_complete; [done|done|items_len].
Qed.
