(* ===== verification/VtlFrame.v ===== *)
(** * What rendering a template changes

    The caller's maps and lists are shared with the template.  A rendering adds objects, puts entries into
    maps where a method named put is called, and sets the variables of its #set and #foreach directives; it
    changes nothing else.  Where no keySet is asked for, the order of Go's maps does not show. *)

From stdpp Require Import list gmap.
From S2P Require Import Prelude GoStrings VtlSyntax VtlParse VtlEval VtlTemplate.
#[local] Open Scope string_scope.
#[local] Open Scope list_scope.

(** ** The methods and variables a template names *)

Fixpoint calls (m : string) (e : exprNode) : bool :=
  match e with
  | Lit _ => false
  | Ref _ chain =>
      existsb (λ a, match a with
                    | AProp _ => false
                    | AMethod name args => String.eqb name m || existsb (calls m) args
                    | AIndex e => calls m e
                    end) chain
  | Bin _ l r => calls m l || calls m r
  | Un _ x => calls m x
  | MapExpr pairs => existsb (λ kv, calls m kv.1 || calls m kv.2) pairs
  | ListExpr elems => existsb (calls m) elems
  end.

Fixpoint node_calls (m : string) (n : node) : bool :=
  match n with
  | TextN _ => false
  | RefN e _ _ | SetN _ e => calls m e
  | IfN brs => existsb (λ br, from_option (calls m) false br.1 || existsb (node_calls m) br.2) brs
  | ForeachN _ e body => calls m e || existsb (node_calls m) body
  end.

(** The variables of #set and #foreach. *)
Fixpoint assigned (n : node) : list string :=
  match n with
  | TextN _ | RefN _ _ _ => []
  | SetN name _ => [name]
  | IfN brs => concat (map (λ br, concat (map assigned br.2)) brs)
  | ForeachN v _ body => v :: concat (map assigned body)
  end.

(** An expression that calls a method of the name only where that is allowed. *)
Definition within (m : string) (P : Prop) (e : exprNode) : Prop := calls m e = true → P.
Definition accessor_within (m : string) (P : Prop) (a : accessor exprNode) : Prop :=
  match a with
  | AProp _ => True
  | AMethod name args => (name = m → P) ∧ Forall (within m P) args
  | AIndex e => within m P e
  end.
Definition node_within (m : string) (P : Prop) (n : node) : Prop := node_calls m n = true → P.

Lemma within_existsb {A} (f : A → bool) (P : Prop) l : (existsb f l = true → P) → Forall (λ a, f a = true → P) l.
Proof. intros H. apply Forall_forall. intros a Ha Hc. apply H, existsb_exists. exists a. by split; [apply list_elem_of_In|]. Qed.
Lemma within_Ref m P root chain : within m P (Ref root chain) → Forall (accessor_within m P) chain.
Proof.
  intros Hw%within_existsb. eapply Forall_impl; [exact Hw|]. intros [name|name args|e] Ha; [done| |exact Ha]. split.
  - intros ->. apply Ha. by rewrite String.eqb_refl.
  - apply within_existsb. intros H. apply Ha, orb_true_iff. by right.
Qed.
Lemma within_Bin m P op l r : within m P (Bin op l r) → within m P l ∧ within m P r.
Proof. unfold within. cbn [calls]. intros Hw. split; intros H; apply Hw; rewrite H, ?orb_true_r; done. Qed.
Lemma within_Map m P k v pairs : within m P (MapExpr ((k, v) :: pairs)) → within m P k ∧ within m P v ∧ within m P (MapExpr pairs).
Proof. unfold within. cbn [calls existsb fst snd]. intros Hw. split_and!; intros H; apply Hw; rewrite H, ?orb_true_r; done. Qed.
Lemma within_List m P elems : within m P (ListExpr elems) → Forall (within m P) elems.
Proof. exact (within_existsb (calls m) P elems). Qed.
Lemma within_If m P cond body brs :
  node_within m P (IfN ((cond, body) :: brs)) → (∀ c, cond = Some c → within m P c) ∧ Forall (node_within m P) body ∧ node_within m P (IfN brs).
Proof.
  unfold node_within, within. cbn [node_calls existsb fst snd]. intros Hw. split_and!.
  - intros c -> H. apply Hw. cbn. by rewrite H.
  - apply within_existsb. intros H. apply Hw. rewrite H. by destruct cond as [c|]; cbn; [destruct (calls m c)|].
  - intros H. apply Hw. by rewrite H, orb_true_r.
Qed.
Lemma within_Foreach m P v e body : node_within m P (ForeachN v e body) → within m P e ∧ Forall (node_within m P) body.
Proof.
  unfold node_within, within. cbn [node_calls]. intros Hw. split.
  - intros H. apply Hw. by rewrite H.
  - apply within_existsb. intros H. apply Hw. by rewrite H, orb_true_r.
Qed.

Section NodeTree.
Context (P : node → Prop).
Hypothesis T_text : ∀ s, P (TextN s).
Hypothesis T_ref : ∀ e raw quiet, P (RefN e raw quiet).
Hypothesis T_set : ∀ name e, P (SetN name e).
Hypothesis T_if : ∀ brs, Forall (λ br : option exprNode * list node, Forall P br.2) brs → P (IfN brs).
Hypothesis T_foreach : ∀ v e body, Forall P body → P (ForeachN v e body).

Fixpoint node_tree (n : node) : P n :=
  let all := fix go ns : Forall P ns := match ns with [] => Forall_nil_2 _ | n :: ns => Forall_cons_2 _ _ _ (node_tree n) (go ns) end in
  match n with
  | TextN s => T_text s
  | RefN e raw quiet => T_ref e raw quiet
  | SetN name e => T_set name e
  | IfN brs =>
      T_if brs ((fix go brs : Forall (λ br : option exprNode * list node, Forall P br.2) brs := match brs with
        | [] => Forall_nil_2 _
        | br :: brs => Forall_cons_2 _ _ _ (all br.2) (go brs)
        end) brs)
  | ForeachN v e body => T_foreach v e body (all body)
  end.
End NodeTree.

(** ** What a heap keeps *)

(** What a map may become: with [puts], it may have entries set. *)
Definition kept (puts : bool) (m m' : gmap string val) : Prop := if puts then dom m ⊆ dom m' else m = m'.
(** There may be more objects; the lists there were are as they were, and the maps are kept. *)
Definition grows (puts : bool) (h h' : heap) : Prop :=
  lists h `prefix_of` lists h' ∧ ∀ l m, maps h !! l = Some m → ∃ m', maps h' !! l = Some m' ∧ kept puts m m'.

#[export] Instance kept_preorder puts : PreOrder (kept puts).
Proof. destruct puts; split; unfold kept; [by intros a|intros a b c; set_solver|by intros a|intros a b c; congruence]. Qed.
#[export] Instance grows_preorder puts : PreOrder (grows puts).
Proof.
  split.
  - intros h. split; [done|]. intros l m Hl. by exists m.
  - intros h1 h2 h3 [L12 H12] [L23 H23]. split; [by etrans|]. intros l m (m2 & Hm2 & K2)%H12. destruct (H23 l m2 Hm2) as (m3 & Hm3 & K3).
    exists m3. split; [done|by etrans].
Qed.
Lemma kept_weaken puts m m' : kept false m m' → kept puts m m'.
Proof. intros ->. done. Qed.
Lemma grows_weaken puts h h' : grows false h h' → grows puts h h'.
Proof. intros [HL H]. split; [done|]. intros l m (m' & Hm & K)%H. exists m'. split; [done|by apply kept_weaken]. Qed.
Lemma grows_more puts h ms ls : grows puts h (Heap (maps h ++ ms) (lists h ++ ls)).
Proof. split; [by apply prefix_app_r|]. intros l m Hl. exists m. split; [by apply lookup_app_l_Some|done]. Qed.
Lemma grows_put h i key v : grows true h (Heap (<[i := <[key := v]> (map_of h (Some i))]> (maps h)) (lists h)).
Proof.
  split; [done|]. intros l m Hl. cbn. destruct (decide (i = l)) as [->|Hne]; [|exists m; by rewrite list_lookup_insert_ne].
  eexists. split; [apply list_lookup_insert_eq; by eapply lookup_lt_Some|]. unfold map_of. cbn. rewrite Hl. cbn. set_solver.
Qed.

(** What the host promises: its methods add objects of their own, and change no other. *)
Class HostKeeps (W : Type) `{Host W} := {
  Invoke_keeps path args w h : grows false h (Invoke path args w h).2.2;
  GetProp_keeps i name w h : grows false h (GetProp i name w h).2.2;
  CallMethod_keeps i name args w h : grows false h (CallMethod i name args w h).2.2
}.

(** ** The frame of a computation *)

(** Whatever it answers, it sets entries only with [puts], and no variable but those of [xs]. *)
Definition frame {W A} (puts : bool) (xs : list string) (m : M W A) : Prop :=
  ∀ st, grows puts (st_heap st) (st_heap (m st).2) ∧ ∀ x, x ∉ xs → vars (m st).2 !! x = vars st !! x.

Lemma frame_bind {W A B} puts xs (m : M W A) (f : A → M W B) : frame puts xs m → (∀ a, frame puts xs (f a)) → frame puts xs (m ≫= f).
Proof.
  intros Hm Hf st. unfold mbind, M_bind. destruct (Hm st) as [G V]. destruct (m st) as [[a|e] st']; [|done]. destruct (Hf a st') as [G' V'].
  split; [by etrans|]. intros x Hx. by rewrite V', V.
Qed.
Lemma frame_still {W A} puts xs (m : M W A) : (∀ st, (m st).2 = st) → frame puts xs m.
Proof. intros H st. rewrite H. done. Qed.
Lemma frame_heap {W A} puts xs (f : heap → A * heap) : (∀ h, grows puts h (f h).2) → frame puts xs (on_heap (W := W) f).
Proof. intros H st. unfold on_heap. specialize (H (st_heap st)). destruct (f (st_heap st)). by split. Qed.
Lemma frame_call {W A} puts xs (f : W → heap → A * (W * heap)) : (∀ w h, grows false h (f w h).2.2) → frame puts xs (call f).
Proof. intros H st. unfold call. specialize (H (world st) (st_heap st)). destruct (f _ _) as [a [w h]]. split; [by apply grows_weaken|done]. Qed.
Lemma frame_new_map {W} puts xs m : frame puts xs (new_map (W := W) m).
Proof. apply frame_heap. intros h. pose proof (grows_more puts h [m] []) as H. by rewrite app_nil_r in H. Qed.
Lemma frame_new_list {W} puts xs vs : frame puts xs (new_list (W := W) vs).
Proof. apply frame_heap. intros h. pose proof (grows_more puts h [] [vs]) as H. by rewrite app_nil_r in H. Qed.
Lemma frame_mapM {W A B} puts xs (f : A → M W B) l : Forall (λ a, frame puts xs (f a)) l → frame puts xs (mapM f l).
Proof.
  induction 1 as [|a l Ha _ IH]; cbn [mapM]; [by apply frame_still|]. apply frame_bind; [done|]. intros b. apply frame_bind; [done|]. intros bs. by apply frame_still.
Qed.
Lemma frame_vars {W A} puts xs ys (m : M W A) : frame puts xs m → xs ⊆ ys → frame puts ys m.
Proof. intros Hm Hs st. destruct (Hm st) as [G V]. split; [done|]. intros x Hx. apply V. set_solver. Qed.

Create HintDb vtl.
#[export] Hint Resolve frame_bind frame_new_map frame_new_list frame_mapM : vtl.
#[export] Hint Extern 1 (frame _ _ (mret _)) => by apply frame_still : vtl.
#[export] Hint Extern 1 (frame _ _ (reads _)) => by apply frame_still : vtl.
#[export] Hint Extern 1 (frame _ _ (fail _)) => by apply frame_still : vtl.

Section Frame.
Context {W : Type} {host : Host W} {keeps : HostKeeps W}.
Context (puts : bool).

Lemma put_frame xs l args : frame true xs (map_method l "put" args).
Proof. intros st. destruct l as [i|]; [|done]. split; [apply grows_put|done]. Qed.
Lemma map_method_frame xs l name args : (name = "put" → puts = true) → frame puts xs (map_method l name args).
Proof.
  intros Hput. destruct (decide (name = "put")) as [->|Hne]; [rewrite Hput by done; apply put_frame|].
  unfold map_method. apply frame_bind; [auto with vtl|]. intros st. rewrite (proj2 (String.eqb_neq name "put")) by done.
  destruct (String.eqb name "get"); [auto with vtl|]. destruct (String.eqb name "containsKey"); [auto with vtl|].
  destruct (String.eqb name "size"); [auto with vtl|]. destruct (String.eqb name "isEmpty"); [auto with vtl|].
  destruct (String.eqb name "keySet"); [|auto with vtl]. apply frame_bind; [|auto with vtl].
  apply frame_call. intros w h. by destruct (range_keys _ w).
Qed.
Lemma memberOrMethod_frame xs recv name args : (name = "put" → args = None ∨ puts = true) → frame puts xs (memberOrMethod recv name args).
Proof using keeps.
  intros Hput. unfold memberOrMethod. apply frame_bind.
  - destruct recv; try by apply frame_still. apply frame_call. intros w h. destruct args; [apply CallMethod_keeps|apply GetProp_keeps].
  - intros [v|]; [auto with vtl|]. destruct args as [args|]; [|auto with vtl]. destruct recv; try by apply frame_still.
    apply map_method_frame. intros ->. by destruct Hput.
Qed.
Lemma binary_frame xs op l r : frame puts xs (binary op l r).
Proof. intros st. unfold binary, mbind, M_bind. cbn. repeat case_match; done. Qed.
Lemma invoke_frame xs path args : frame puts xs (invoke path args).
Proof using keeps.
  unfold invoke. apply frame_bind; [apply frame_call; intros; apply Invoke_keeps|]. intros [[v|e]|]; auto with vtl.
Qed.
Hint Resolve memberOrMethod_frame binary_frame invoke_frame : vtl.

Lemma evalExpr_frame xs e : within "put" (puts = true) e → frame puts xs (evalExpr e).
Proof using keeps.
  induction e as [v|root chain IH|op l r IHl IHr|op x IH|pairs IH|elems IH] using expr_tree; intros Hw; cbn [evalExpr].
  - auto with vtl.
  - apply within_Ref in Hw. unfold evalRef.
    assert (Hargs : ∀ args, Forall (λ e, within "put" (puts = true) e → frame puts xs (evalExpr e)) args → Forall (within "put" (puts = true)) args → frame puts xs (evalArgs evalExpr args)).
    { intros args Hi Ha. apply frame_mapM. apply Forall_forall. intros e He. by apply (proj1 (Forall_forall _ _) Hi e He), (proj1 (Forall_forall _ _) Ha). }
    destruct (String.eqb root "util" || String.eqb root "utils").
    + generalize "" as path. induction IH as [|a chain Ha _ IH]; intros path; cbn; [auto with vtl|]. apply Forall_cons in Hw as [Hwa Hw].
      destruct a as [name|name args|e]; [by apply IH| |auto with vtl]. destruct Hwa. apply frame_bind; [by apply Hargs|auto with vtl].
    + apply frame_bind; [auto with vtl|]. induction IH as [|a chain Ha _ IH]; intros cur; cbn; [auto with vtl|]. apply Forall_cons in Hw as [Hwa Hw].
      destruct a as [name|name args|e].
      * apply frame_bind; [auto with vtl|by apply IH].
      * destruct Hwa. apply frame_bind; [by apply Hargs|]. intros vs. apply frame_bind; [auto with vtl|by apply IH].
      * apply frame_bind; [by apply Ha|]. intros idx. apply frame_bind; [by apply frame_still|by apply IH].
  - apply within_Bin in Hw as [Hl Hr]. specialize (IHl Hl). specialize (IHr Hr). unfold evalBin.
    destruct (String.eqb op "&&"); [apply frame_bind; [done|]; intros v; destruct (truthy v); auto with vtl|].
    destruct (String.eqb op "||"); [apply frame_bind; [done|]; intros v; destruct (truthy v); auto with vtl|]. auto with vtl.
  - apply frame_bind; [by apply IH|]. intros v. destruct (String.eqb op "!"); auto with vtl.
  - apply frame_bind; [|auto with vtl]. generalize (∅ : gmap string val).
    induction IH as [|[k v] pairs [Hk Hv] _ IH]; intros out; cbn; [auto with vtl|]. apply within_Map in Hw as (Wk & Wv & Hw).
    apply frame_bind; [by apply Hk|]. intros vk. apply frame_bind; [by apply Hv|]. intros vv. apply frame_bind; [auto with vtl|].
    intros key. by apply IH.
  - apply frame_bind; [|auto with vtl]. apply frame_mapM. apply within_List in Hw. apply Forall_forall. intros e He.
    by apply (proj1 (Forall_forall _ _) IH e He), (proj1 (Forall_forall _ _) Hw).
Qed.

Lemma set_var_frame xs name v : name ∈ xs → frame puts xs (set_var (W := W) name v).
Proof. intros Hin st. split; [done|]. intros x Hx. cbn. apply lookup_insert_ne. congruence. Qed.
Hint Resolve set_var_frame evalExpr_frame : vtl.

(** The nodes of a list, each in its frame. *)
Definition framed (n : node) : Prop := ∀ xs, assigned n ⊆ xs → node_within "put" (puts = true) n → frame puts xs (renderNode n).
Lemma render_all_frame xs ns :
  Forall framed ns → concat (map assigned ns) ⊆ xs → Forall (node_within "put" (puts = true)) ns → frame puts xs (render_all renderNode ns).
Proof.
  intros Hf Hs Hw. induction Hf as [|n ns Hn _ IH]; cbn; [auto with vtl|]. apply Forall_cons in Hw as [Hwn Hw]. cbn in Hs.
  apply frame_bind; [apply Hn; [set_solver|done]|]. intros a. apply frame_bind; [apply IH; [set_solver|done]|auto with vtl].
Qed.

Lemma renderNode_frame n : framed n.
Proof using keeps.
  induction n as [s|e raw quiet|name e|brs IH|v e body IH] using node_tree; intros xs Hs Hw; cbn [renderNode].
  - auto with vtl.
  - apply frame_bind; [auto with vtl|]. intros v. destruct (is_nil v && negb quiet); auto with vtl.
  - apply frame_bind; [auto with vtl|]. intros v. apply frame_bind; [|auto with vtl]. apply set_var_frame. cbn in Hs. set_solver.
  - cbn [assigned] in Hs. induction IH as [|[cond body] brs Hb _ IH]; cbn; [auto with vtl|].
    apply within_If in Hw as (Hc & Hwb & Hw). cbn in Hs, Hb.
    assert (Hbody : frame puts xs (render_all renderNode body)) by (apply render_all_frame; [done|set_solver|done]).
    destruct cond as [cond|]; [|done]. apply frame_bind; [by apply evalExpr_frame, Hc|]. intros c.
    destruct (truthy c); [done|]. apply IH; [set_solver|done].
  - apply within_Foreach in Hw as [He Hwb]. cbn [assigned] in Hs. apply frame_bind; [by apply evalExpr_frame|]. intros c.
    apply frame_bind; [auto with vtl|]. intros n. generalize (seq 0 n) as ixs. induction ixs as [|i ixs IHi]; cbn; [auto with vtl|].
    apply frame_bind; [auto with vtl|]. intros el. apply frame_bind; [apply set_var_frame; set_solver|]. intros _.
    apply frame_bind; [apply render_all_frame; [done|set_solver|done]|]. intros a. apply frame_bind; [apply IHi|auto with vtl].
Qed.
End Frame.

(** ** The order of maps *)

(** The host, with another order of ranges. *)
Definition reordered {W} (host : Host W) (f : list string → W → list string * W) : Host W := {|
  Invoke := Invoke; GetProp := GetProp; CallMethod := CallMethod; range_keys := f; host_text := host_text;
  host_json := host_json; host_equal := host_equal; unicode_upper := unicode_upper; unicode_lower := unicode_lower;
  overflow := overflow
|}.

Lemma bind_ext {W A B} (m m' : M W A) (f f' : A → M W B) :
  (∀ st, m st = m' st) → (∀ a st, f a st = f' a st) → ∀ st, (m ≫= f) st = (m' ≫= f') st.
Proof. intros Hm Hf st. unfold mbind, M_bind. rewrite <-Hm. by destruct (m st) as [[a|e] st']. Qed.
Lemma mapM_ext_M {W A B} (f f' : A → M W B) l : Forall (λ a, ∀ st, f a st = f' a st) l → ∀ st, mapM f l st = mapM f' l st.
Proof. induction 1 as [|a l Ha _ IH]; [done|]. cbn [mapM]. apply bind_ext; [done|]. intros b. by apply bind_ext. Qed.

Section Order.
Context {W : Type} (host : Host W) (f : list string → W → list string * W).
#[local] Abbreviation host' := (reordered host f).

Lemma memberOrMethod_order recv name args st : name ≠ "keySet" → memberOrMethod (host := host) recv name args st = memberOrMethod (host := host') recv name args st.
Proof.
  intros Hn. apply bind_ext; [done|]. intros [v|]; [done|]. destruct args as [args|]; [|done]. destruct recv; try done.
  unfold map_method. apply bind_ext; [done|]. intros s1 s2. by rewrite (proj2 (String.eqb_neq name "keySet")).
Qed.

Lemma evalExpr_order e : within "keySet" False e → ∀ st, evalExpr (host := host) e st = evalExpr (host := host') e st.
Proof.
  induction e as [v|root chain IH|op l r IHl IHr|op x IH|pairs IH|elems IH] using expr_tree; intros Hw; cbn [evalExpr].
  - done.
  - apply within_Ref in Hw. unfold evalRef.
    assert (Hargs : ∀ args, Forall (λ e, within "keySet" False e → ∀ st, evalExpr (host := host) e st = evalExpr (host := host') e st) args →
      Forall (within "keySet" False) args → ∀ st, evalArgs (evalExpr (host := host)) args st = evalArgs (evalExpr (host := host')) args st).
    { intros args Hi Ha. apply mapM_ext_M. apply Forall_forall. intros e He. by apply (proj1 (Forall_forall _ _) Hi e He), (proj1 (Forall_forall _ _) Ha). }
    destruct (String.eqb root "util" || String.eqb root "utils").
    + generalize "" as path. induction IH as [|a chain Ha _ IH]; intros path; cbn; [done|]. apply Forall_cons in Hw as [Hwa Hw].
      destruct a as [name|name args|e]; [by apply IH| |done]. destruct Hwa. by apply bind_ext; [apply Hargs|].
    + apply bind_ext; [done|]. induction IH as [|a chain Ha _ IH]; intros cur; cbn; [done|]. apply Forall_cons in Hw as [Hwa Hw].
      destruct a as [name|name args|e].
      * apply bind_ext; [|by apply IH]. intros st. apply bind_ext; [done|]. intros [v|]; done.
      * destruct Hwa. apply bind_ext; [by apply Hargs|]. intros vs. apply bind_ext; [|by apply IH]. intros st. by apply memberOrMethod_order.
      * apply bind_ext; [by apply Ha|]. intros idx. apply bind_ext; [done|by apply IH].
  - apply within_Bin in Hw as [Hl Hr]. specialize (IHl Hl). specialize (IHr Hr). unfold evalBin.
    destruct (String.eqb op "&&"); [apply bind_ext; [done|]; intros v st; destruct (truthy v); [by apply bind_ext|done]|].
    destruct (String.eqb op "||"); [apply bind_ext; [done|]; intros v st; destruct (truthy v); [done|by apply bind_ext]|].
    apply bind_ext; [done|]. intros a. by apply bind_ext.
  - by apply bind_ext; [apply IH|].
  - apply bind_ext; [|done]. generalize (∅ : gmap string val).
    induction IH as [|[k v] pairs [Hk Hv] _ IH]; intros out; cbn; [done|]. apply within_Map in Hw as (Wk & Wv & Hw).
    apply bind_ext; [by apply Hk|]. intros vk. apply bind_ext; [by apply Hv|]. intros vv. apply bind_ext; [done|]. intros key. by apply IH.
  - apply bind_ext; [|done]. apply mapM_ext_M. apply within_List in Hw. apply Forall_forall. intros e He.
    by apply (proj1 (Forall_forall _ _) IH e He), (proj1 (Forall_forall _ _) Hw).
Qed.

Definition unordered (n : node) : Prop := node_within "keySet" False n → ∀ st, renderNode (host := host) n st = renderNode (host := host') n st.
Lemma render_all_order ns : Forall unordered ns → Forall (node_within "keySet" False) ns →
  ∀ st, render_all (renderNode (host := host)) ns st = render_all (renderNode (host := host')) ns st.
Proof.
  intros Hu Hw. induction Hu as [|n ns Hn _ IH]; [done|]. apply Forall_cons in Hw as [Hwn Hw]. cbn.
  apply bind_ext; [by apply Hn|]. intros a. by apply bind_ext; [apply IH|].
Qed.

Lemma renderNode_order n : unordered n.
Proof.
  induction n as [s|e raw quiet|name e|brs IH|v e body IH] using node_tree; intros Hw; cbn [renderNode].
  - done.
  - by apply bind_ext; [apply evalExpr_order|].
  - by apply bind_ext; [apply evalExpr_order|].
  - induction IH as [|[cond body] brs Hb _ IH]; cbn; [done|]. apply within_If in Hw as (Hc & Hwb & Hw). cbn in Hb.
    destruct cond as [cond|]; [|by apply render_all_order]. apply bind_ext; [by apply evalExpr_order, Hc|]. intros c.
    destruct (truthy c); [by apply render_all_order|by apply IH].
  - apply within_Foreach in Hw as [He Hwb]. apply bind_ext; [by apply evalExpr_order|]. intros c. apply bind_ext; [done|]. intros n.
    generalize (seq 0 n) as ixs. induction ixs as [|i ixs IHi]; cbn; [done|]. apply bind_ext; [done|]. intros el. apply bind_ext; [done|].
    intros u. apply bind_ext; [by apply render_all_order|]. intros a. by apply bind_ext; [apply IHi|].
Qed.
End Order.

(** the output of a template that asks no map for its keySet does not depend on the order in which Go
    ranges over maps, nor does anything else the rendering leaves: maps are written with their keys sorted. *)
Theorem rendering_deterministic {W} (host : Host W) f tmpl nodes rest (st : state W) :
  build (scanTemplate tmpl) = Ok (nodes, rest) → existsb (node_calls "keySet") nodes = false →
  RenderVars (host := reordered host f) tmpl st = RenderVars (host := host) tmpl st.
Proof.
  intros Hb Hk. unfold RenderVars, renderNodes. rewrite Hb. symmetry. apply render_all_order.
  - apply Forall_forall. intros n _. apply renderNode_order.
  - apply within_existsb. by rewrite Hk.
Qed.


Section Witness.
#[local] Existing Instance nop_host.
#[local] Instance nop_keeps : HostKeeps unit.
Proof. split; done. Qed.

(** A map of the caller, a loop over a list of it, and a map of the template's own. *)
Definition sample : string := "#set($m = {'a': 1})#foreach($x in $ctx.list)$x,#end$m.get('a')".
Definition sample_state : state unit :=
  State (Heap [{["list" := VList (Some 0)]}] [[VStr "p"; VBool true]]) {["ctx" := VMap (Some 0)]} tt.


(** The keys of a map literal, in an order of the host's own: the first template shows it, the second does
    not. *)
Definition literal_template : string := "#set($m = {'b': 2, 'a': 1})$m $m.size()".
Definition two_entries : string :=
  let q s := String dquote (s +:+ String dquote "") in "{" +:+ q "a" +:+ ":1," +:+ q "b" +:+ ":2}".
Definition ordered_state : state unit := State (Heap [{["a" := VNil; "b" := VNil]}] []) {["ctx" := VMap (Some 0)]} tt.
Definition downwards (keys : list string) (w : unit) : list string * unit := (reverse keys, w).

Example rendering_deterministic_witness :
  (RenderVars (host := reordered nop_host downwards) literal_template sample_state).1 = Ok (two_entries +:+ " 2").
Proof.
  destruct (build (scanTemplate literal_template)) as [[nodes rest]|] eqn:Hb; [|by vm_compute in Hb].
  rewrite (rendering_deterministic nop_host downwards literal_template nodes rest sample_state Hb); [by vm_compute|].
  vm_compute in Hb. injection Hb as <- <-. by vm_compute.
Defined.
Example keySet_order :
  (RenderVars (host := reordered nop_host downwards) "$ctx.keySet()" ordered_state).1 ≠ (RenderVars "$ctx.keySet()" ordered_state).1.
Proof. by vm_compute. Qed.
End Witness.
