(* ===== verification/JsonText.v ===== *)
(** * encoding/json's strings, read back

    A quoted string is followed by nothing of its own, and of two texts of valid UTF-8 each has a quoted form
    of its own. *)

From S2P Require Import Prelude GoStrings GoTrim GoEncoding GoJson.
#[local] Open Scope string_scope.
#[local] Open Scope Z_scope.
#[local] Open Scope list_scope.

(** ** Reading *)

Definition hex_value (c : ascii) : Z := if is_digit c then byte_of c - 48 else byte_of c - 87.
(** The text of a rune that is written as \u. *)
Definition escaped_rune (v : Z) : string :=
  if v <? 0x80 then String (ascii_of v) ""
  else String (ascii_of (0xE0 + v / 4096)) (String (ascii_of (0x80 + v / 64 mod 64)) (String (ascii_of (0x80 + v mod 64)) "")).
Definition unescape (c : ascii) : ascii :=
  if Ascii.eqb c "b" then ascii_of 8 else if Ascii.eqb c "f" then ascii_of 12 else if Ascii.eqb c "n" then ascii_of 10
  else if Ascii.eqb c "r" then ascii_of 13 else if Ascii.eqb c "t" then ascii_of 9 else c.

(** From after the opening quote: the string, and what follows the closing quote. *)
Fixpoint unquote (s : string) : option (string * string) :=
  match s with
  | "" => None
  | String c t =>
      if Ascii.eqb c dquote then Some ("", t)
      else if Ascii.eqb c backslash then
        match t with
        | String "u" (String h1 (String h2 (String h3 (String h4 t)))) =>
            '(x, rest) ← unquote t;
            Some (escaped_rune (hex_value h1 * 4096 + hex_value h2 * 256 + hex_value h3 * 16 + hex_value h4) +:+ x, rest)
        | String d t => '(x, rest) ← unquote t; Some (String (unescape d) x, rest)
        | "" => None
        end
      else '(x, rest) ← unquote t; Some (String c x, rest)
  end.

(** ** Runes *)

(** Bytes that are no ASCII. *)
Definition high (s : string) : Prop := forall_char (λ c, 0x80 <=? byte_of c) s = true.

Lemma unquote_high s rest : high s → unquote (s +:+ rest) = '(x, k) ← unquote rest; Some (s +:+ x, k).
Proof.
  unfold high. induction s as [|c s IH]; cbn [forall_char String.append].
  - intros _. by destruct (unquote rest) as [[]|].
  - intros [Hc Hs]%andb_true_iff. cbn [unquote].
    assert (Ascii.eqb c dquote = false ∧ Ascii.eqb c backslash = false) as [-> ->].
    { split; apply Ascii.eqb_neq; intros ->; by vm_compute in Hc. }
    rewrite (IH Hs). by destruct (unquote rest) as [[]|].
Qed.

(** The bytes of a rune that decodes to it: one of ASCII, or none. *)
Lemma decode_shape c u r : decode_rune c u = (r, S (String.length u)) →
  (u = "" ∧ r = byte_of c ∧ r < 0x80) ∨ (u = "" ∧ r = 0xFFFD) ∨ (u ≠ "" ∧ 0x80 <= r ∧ high (String c u) ∧ (r = 0x2028 ∨ r = 0x2029 → String c u = escaped_rune r)).
Proof.
  pose proof (byte_of_range c) as Hc. unfold decode_rune, high, is_cont.
  destruct u as [|x1 [|x2 [|x3 [|x4 u]]]]; cbn [String.get String.length forall_char];
    try pose proof (byte_of_range x1); try pose proof (byte_of_range x2); try pose proof (byte_of_range x3);
    repeat match goal with |- context [if ?b then _ else _] => destruct b eqn:? end; intros [= <-]; bool_to_prop; auto; try (exfalso; lia).
  all: right; right; split_and!; [done|lia|by rewrite !(proj2 (Z.leb_le _ _)) by lia|].
  all: repeat match goal with H : _ && _ = false |- _ => apply andb_false_iff in H end; bool_to_prop; intros Hr; try (exfalso; lia).
  - rewrite <-(ascii_of_byte_of c) at 1. rewrite <-(ascii_of_byte_of x1) at 1. rewrite <-(ascii_of_byte_of x2) at 1.
    assert (byte_of c = 226 ∧ byte_of x1 = 128 ∧ byte_of x2 = (if (byte_of x2 =? 168) then 168 else 169)) as (-> & -> & Ex) by (destruct (Z.eqb_spec (byte_of x2) 168); lia).
    rewrite Ex. by destruct (byte_of x2 =? 168).
Qed.

(** A rune of a text of valid UTF-8: what stands for an invalid byte is not one. *)
Definition valid_rune (rs : Z * string) : Prop := ¬ (rs.1 = 0xFFFD ∧ String.length rs.2 = 1%nat).
Definition valid_utf8 (s : string) : Prop := Forall valid_rune (runes (String.length s) s).

(** A form that is read back as a text. *)
Definition reads_back (x s : string) : Prop := ∀ rest, unquote (x +:+ rest) = '(y, k) ← unquote rest; Some (s +:+ y, k).

Lemma reads_plain c : c ≠ dquote → c ≠ backslash → reads_back (String c "") (String c "").
Proof. intros H1 H2 rest. cbn [String.append unquote]. by rewrite (proj2 (Ascii.eqb_neq _ _) H1), (proj2 (Ascii.eqb_neq _ _) H2). Qed.
Lemma unquote_escape d t : d ≠ "u"%char → unquote (String backslash (String d t)) = '(y, k) ← unquote t; Some (String (unescape d) y, k).
Proof.
  intros Hd. change (unquote (String backslash (String d t))) with
    (match String d t with
     | String "u" (String h1 (String h2 (String h3 (String h4 t)))) =>
         '(x, rest) ← unquote t;
         Some (escaped_rune (hex_value h1 * 4096 + hex_value h2 * 256 + hex_value h3 * 16 + hex_value h4) +:+ x, rest)
     | String d t => '(x, rest) ← unquote t; Some (String (unescape d) x, rest)
     | "" => None
     end).
  destruct d as [[] [] [] [] [] [] [] []]; try reflexivity. by destruct Hd.
Qed.
Lemma reads_short d : d ≠ "u"%char → reads_back (String backslash (String d "")) (String (unescape d) "").
Proof. intros Hd rest. cbn [String.append]. by rewrite unquote_escape. Qed.
Lemma reads_long h1 h2 h3 h4 :
  reads_back (String backslash (String "u" (String h1 (String h2 (String h3 (String h4 ""))))))
    (escaped_rune (hex_value h1 * 4096 + hex_value h2 * 256 + hex_value h3 * 16 + hex_value h4)).
Proof. intros rest. reflexivity. Qed.

(** How the runes of ASCII are written, one by one. *)
Definition ascii_form (c : ascii) : bool :=
  match json_rune (byte_of c) (String c "") with
  | String x "" => Ascii.eqb x c && negb (Ascii.eqb x dquote) && negb (Ascii.eqb x backslash)
  | String x (String d "") => Ascii.eqb x backslash && negb (Ascii.eqb d "u") && Ascii.eqb (unescape d) c
  | String x (String d (String h1 (String h2 (String h3 (String h4 ""))))) =>
      Ascii.eqb x backslash && Ascii.eqb d "u" &&
      String.eqb (escaped_rune (hex_value h1 * 4096 + hex_value h2 * 256 + hex_value h3 * 16 + hex_value h4)) (String c "")
  | _ => false
  end.
Lemma ascii_form_reads c : ascii_form c = true → reads_back (json_rune (byte_of c) (String c "")) (String c "").
Proof.
  unfold ascii_form. destruct (json_rune _ _) as [|x [|d [|h1 [|h2 [|h3 [|h4 []]]]]]]; try done; rewrite !andb_true_iff, ?negb_true_iff, ?Ascii.eqb_eq, ?Ascii.eqb_neq.
  - intros [[-> H1] H2]. by apply reads_plain.
  - intros [[-> Hd] <-]. by apply reads_short.
  - intros [[-> ->] E%String.eqb_eq]. rewrite <-E. apply reads_long.
Qed.
Lemma reads_ascii c : byte_of c < 0x80 → reads_back (json_rune (byte_of c) (String c "")) (String c "").
Proof.
  intros Hc. apply ascii_form_reads. pose proof (all_chars (λ c, implb (byte_of c <? 0x80) (ascii_form c)) ltac:(vm_compute; reflexivity) c) as H.
  cbn beta in H. by rewrite (proj2 (Z.ltb_lt _ _) Hc) in H.
Qed.

Lemma reads_rune c u r : decode_rune c u = (r, S (String.length u)) → valid_rune (r, String c u) → reads_back (json_rune r (String c u)) (String c u).
Proof.
  intros Hd Hv. destruct (decode_shape c u r Hd) as [(-> & -> & Hr)|[(-> & ->)|(Hu & Hr & Hh & Hs)]].
  - by apply reads_ascii.
  - by destruct Hv.
  - unfold json_rune. rewrite !(proj2 (Z.eqb_neq r _)) by lia. rewrite (proj2 (Z.ltb_ge r 32)) by lia. cbn [orb].
    destruct (Z.eqb_spec r 0x2028) as [->|H1]; [|destruct (Z.eqb_spec r 0x2029) as [->|H2]]; cbn [orb].
    + rewrite Hs by auto. apply reads_long.
    + rewrite Hs by auto. apply reads_long.
    + replace (bool_decide (String.length (String c u) = 1%nat)) with false; [rewrite andb_false_r; intros rest; by apply unquote_high|].
      symmetry. apply bool_decide_eq_false. destruct u; [done|cbn; lia].
Qed.

Definition quoted_runes (l : list (Z * string)) : string := String.concat "" (map (λ rs, json_rune rs.1 rs.2) l).
Lemma reads_runes l : pieces l → Forall valid_rune l → reads_back (quoted_runes l) (text_of l).
Proof.
  unfold quoted_runes. induction 1 as [|r c u l Hd Hp IH]; intros Hv rest.
  - cbn. by destruct (unquote rest) as [[]|].
  - apply Forall_cons in Hv as [Hr Hv].
    assert (String.concat "" (map (λ rs, json_rune rs.1 rs.2) ((r, String c u) :: l)) = json_rune r (String c u) +:+ String.concat "" (map (λ rs, json_rune rs.1 rs.2) l)) as ->.
    { cbn. destruct l; cbn; [by rewrite append_nil_r|done]. }
    assert (Hd' : decode_rune c u = (r, S (String.length u))) by (eapply decode_rune_prefix; [exact Hd|lia]).
    rewrite append_assoc, (reads_rune c u r Hd' Hr), (IH Hv rest), text_of_cons. destruct (unquote rest) as [[y k]|]; [|done]. cbn [mbind option_bind snd]. by rewrite append_assoc.
Qed.

(** A quoted text is read back, up to its closing quote. *)
Lemma unquote_quote s rest : valid_utf8 s → ∃ body, json_quote s +:+ rest = String dquote body ∧ unquote body = Some (s, rest).
Proof.
  intros Hv. unfold json_quote. eexists. split; [reflexivity|]. destruct (runes_pieces (String.length s) s (le_n _)) as [Hp Ht].
  cbn [String.append]. rewrite append_assoc. fold (quoted_runes (runes (String.length s) s)). rewrite (reads_runes _ Hp Hv), Ht. cbn. by rewrite append_nil_r.
Qed.
Lemma json_quote_inj s1 s2 r1 r2 : valid_utf8 s1 → valid_utf8 s2 → json_quote s1 +:+ r1 = json_quote s2 +:+ r2 → s1 = s2 ∧ r1 = r2.
Proof.
  intros H1 H2 E. destruct (unquote_quote s1 r1 H1) as (b1 & E1 & U1), (unquote_quote s2 r2 H2) as (b2 & E2 & U2).
  rewrite E1, E2 in E. injection E as <-. rewrite U1 in U2. by injection U2.
Qed.
