(* ===== verification/AppValue.v ===== *)
(** * Values of the AppSync engine

    What an [any] of open-appsync holds: decoded JSON, literals of a query (numbers are float64), and the
    integers its data sources give.  A map is a list of entries with distinct keys. *)

From stdpp Require Import list.
From S2P Require Import Prelude GoStrings.
From S2P Require Export GoEncoding.
#[local] Open Scope string_scope.
#[local] Open Scope Z_scope.
#[local] Open Scope list_scope.

Inductive any :=
| ANil
| ABool (b : bool)
| AInt (n : Z)
| AInt64 (n : Z)
| AFloat (f : spec_float)
| AStr (s : string)
| AList (l : list any)
| AMap (m : list (string * any)).

(** m[k], with its ok. *)
Fixpoint entry (m : list (string * any)) (k : string) : option any :=
  match m with
  | [] => None
  | (k', v) :: m => if String.eqb k' k then Some v else entry m k
  end.
(** m[k] of a map that may be nil. *)
Definition get (m : list (string * any)) (k : string) : any := default ANil (entry m k).
(** m[k] = v *)
Fixpoint put (m : list (string * any)) (k : string) (v : any) : list (string * any) :=
  match m with
  | [] => [(k, v)]
  | (k', v') :: m => if String.eqb k' k then (k, v) :: m else (k', v') :: put m k v
  end.

(** toFloat, of both the filters and the coercion. *)
Definition toFloat (v : any) : option spec_float :=
  match v with
  | AFloat f => Some f
  | AInt n | AInt64 n => Some (float_of n)
  | _ => None
  end.

(** authz.Identity and authz.Requirement. *)
Record Identity := mkIdentity { Username : string; Groups : list string }.
Record Requirement := mkRequirement { rGroup : string; rResource : string; rVerb : string; rNamespace : string; rName : string }.
Definition IsZero (r : Requirement) : bool :=
  String.eqb (rGroup r) "" && String.eqb (rResource r) "" && String.eqb (rVerb r) "" && String.eqb (rNamespace r) "" && String.eqb (rName r) "".

Definition identityMap (id : Identity) : any :=
  AMap [("username", AStr (Username id)); ("groups", AList (map AStr (Groups id)))].

(** ** Maps *)

Lemma entry_put m k v k' : entry (put m k v) k' = if String.eqb k k' then Some v else entry m k'.
Proof.
  induction m as [|[k0 v0] m IH]; cbn; [done|]. destruct (String.eqb_spec k0 k) as [->|Hne]; cbn.
  - destruct (String.eqb_spec k k'); [done|]. done.
  - rewrite IH. destruct (String.eqb_spec k0 k') as [->|]; [|done]. by rewrite (proj2 (String.eqb_neq k k')) by congruence.
Qed.
Lemma entry_elem m k v : NoDup m.*1 → entry m k = Some v ↔ (k, v) ∈ m.
Proof.
  induction m as [|[k0 v0] m IH]; cbn; [by intros _; split; [|intros ?%not_elem_of_nil]|]. intros [Hk Hnd]%NoDup_cons. rewrite elem_of_cons.
  destruct (String.eqb_spec k0 k) as [->|Hne].
  - split; [intros [= ->]; by left|]. intros [[= ->]|Hin]; [done|]. destruct Hk. apply list_elem_of_fmap. by exists (k, v).
  - rewrite (IH Hnd). split; [by right|]. intros [[= -> _]|?]; done.
Qed.

Lemma entry_put_eq m k v : entry (put m k v) k = Some v.
Proof. by rewrite entry_put, String.eqb_refl. Qed.
Lemma entry_put_Some m k v k' : is_Some (entry m k') → is_Some (entry (put m k v) k').
Proof. intros H. rewrite entry_put. by destruct (String.eqb k k'). Qed.
Lemma put_elem m k v kv : kv ∈ put m k v → kv = (k, v) ∨ kv ∈ m.
Proof.
  induction m as [|[k0 v0] m IH]; cbn; [set_solver|]. destruct (String.eqb k0 k); [set_solver|].
  intros [->|H]%elem_of_cons; [right; by left|]. destruct (IH H); [by left|right; by right].
Qed.
Lemma put_NoDup m k v : NoDup m.*1 → NoDup (put m k v).*1.
Proof.
  induction m as [|[k0 v0] m IH]; cbn; [intros _; repeat constructor; set_solver|]. intros [Hk Hnd]%NoDup_cons.
  destruct (String.eqb_spec k0 k) as [->|Hne]; cbn; [by constructor|]. constructor; [|by apply IH].
  intros ([k1 v1] & -> & [E|H]%put_elem)%list_elem_of_fmap; [by injection E|]. apply Hk, list_elem_of_fmap. by exists (k1, v1).
Qed.

(** Induction through lists and maps. *)
Lemma any_tree (P : any → Prop) :
  P ANil → (∀ b, P (ABool b)) → (∀ n, P (AInt n)) → (∀ n, P (AInt64 n)) → (∀ f, P (AFloat f)) → (∀ s, P (AStr s)) →
  (∀ l, Forall P l → P (AList l)) → (∀ m, Forall (λ kv, P kv.2) m → P (AMap m)) → ∀ v, P v.
Proof.
  intros Hn Hb Hi Hj Hf Hs Hl Hm. fix IH 1. intros [|b|n|n|f|s|l|m]; [done|apply Hb|apply Hi|apply Hj|apply Hf|apply Hs| |].
  - apply Hl. induction l as [|v l IHl]; constructor; [apply IH|exact IHl].
  - apply Hm. induction m as [|[k v] m IHm]; constructor; [apply IH|exact IHm].
Qed.
