(* ===== verification/AppSubscribe.v ===== *)
(** * Subscriptions (open-appsync/internal/subscription, server/subscription_ws.go)

    A node keeps one registry of open subscriptions for all its connections; a mutation's result is published
    to a subject, and each subject's handler delivers it to the subscribers of its field whose filter matches.
    [None] is a panic. *)

From stdpp Require Import list gmap.
From S2P Require Import Prelude GoStrings AppValue.
#[local] Open Scope string_scope.
#[local] Open Scope Z_scope.
#[local] Open Scope list_scope.

(** ** Filters (filter.go) *)

Record Condition := mkCondition { cField : string; cOperator : string; cValue : any }.
Definition Filter := list Condition.
Definition FilterGroup := list Filter.

(** Go's == on two interfaces panics on two maps, and on two slices. *)
Definition equal (a b : any) : option bool :=
  match toFloat a, toFloat b with
  | Some x, Some y => Some (SFeqb x y)
  | _, _ =>
      match a, b with
      | ANil, ANil => Some true
      | ABool x, ABool y => Some (Bool.eqb x y)
      | AStr x, AStr y => Some (String.eqb x y)
      | AList _, AList _ | AMap _, AMap _ => None
      | _, _ => Some false
      end
  end.

(** Whether the test holds of one of them, and of all: up to the first that decides. *)
Fixpoint some_of {A} (test : A → option bool) (l : list A) : option bool :=
  match l with [] => Some false | x :: l => b ← test x; if (b : bool) then Some true else some_of test l end.
Fixpoint all_of {A} (test : A → option bool) (l : list A) : option bool :=
  match l with [] => Some true | x :: l => b ← test x; if (b : bool) then all_of test l else Some false end.

Definition inList (a list_ : any) : option bool :=
  match list_ with AList items => some_of (equal a) items | _ => Some false end.
Definition contains (a v : any) : option bool :=
  match a, v with
  | AStr s, AStr t => Some (Contains s t)
  | AStr _, _ => Some false
  | AList items, _ => some_of (λ it, equal it v) items
  | _, _ => Some false
  end.
Definition compareOK (a b : any) (op : string) : bool :=
  match toFloat a, toFloat b with
  | Some x, Some y =>
      if String.eqb op "lt" then SFltb x y else if String.eqb op "le" then SFleb x y
      else if String.eqb op "gt" then SFltb y x else if String.eqb op "ge" then SFleb y x else false
  | _, _ => false
  end.

(** The value at a dotted path. *)
Fixpoint walk (cur : any) (segs : list string) : option any :=
  match segs with
  | [] => Some cur
  | seg :: segs => match cur with AMap m => v ← entry m seg; walk v segs | _ => None end
  end.
Definition lookup_path (event : list (string * any)) (field : string) : option any := walk (AMap event) (Split field ".").

Definition cond_match (event : list (string * any)) (c : Condition) : option bool :=
  let found := lookup_path event (cField c) in
  let ok := bool_decide (is_Some found) in
  let actual := default ANil found in
  let op := cOperator c in
  if String.eqb op "eq" then if ok then equal actual (cValue c) else Some false
  else if String.eqb op "ne" then negb <$> equal actual (cValue c)
  else if String.eqb op "in" then if ok then inList actual (cValue c) else Some false
  else if String.eqb op "notIn" then negb <$> inList actual (cValue c)
  else if String.eqb op "contains" then if ok then contains actual (cValue c) else Some false
  else if String.eqb op "notContains" then negb <$> contains actual (cValue c)
  else if String.eqb op "beginsWith" then
    Some (match actual, cValue c with AStr a, AStr v => HasPrefix a v | _, _ => false end)
  else if existsb (String.eqb op) ["lt"; "le"; "gt"; "ge"] then Some (ok && compareOK actual (cValue c) op)
  else if String.eqb op "between" then
    Some (match cValue c with
          | AList [lo; hi] => ok && compareOK actual lo "ge" && compareOK actual hi "le"
          | _ => false
          end)
  else Some false.

Definition filter_match (event : list (string * any)) (f : Filter) : option bool := all_of (cond_match event) f.
Definition Match (g : FilterGroup) (event : list (string * any)) : option bool :=
  match g with [] => Some true | _ => some_of (filter_match event) g end.

(** A subscription's arguments, in an order of the map: one equality for each. *)
Definition filterFromArgs (args : list (string * any)) : FilterGroup :=
  match args with [] => [] | _ => [map (λ kv, mkCondition kv.1 "eq" kv.2) args] end.

(** ** The node *)

(** A subscriber delivers to a connection, as the message of its id. *)
Record Subscriber := mkSubscriber {
  sID : string; sField : string; sFilter : FilterGroup; sResponse : nat; sIdentity : Identity; sConn : nat
}.
Record Field := mkField { fName : string; fSubject : string; fResponse : nat; fAuth : Requirement }.

(** The registry, the subscriptions each connection has open, and the handlers of each subject on the bus, by
    the field they deliver to. *)
Record node := mkNode {
  registry : gmap string Subscriber;
  open_ids : gmap nat (gset string);
  bus : gmap string (list string)
}.

(** What a connection is sent: {"id", "next", {"data": {field: payload}}}. *)
Record delivery := mkDelivery { dConn : nat; dID : string; dField : string; dPayload : any }.

(** NewManager's catalog: by name, a later field in place of an earlier one. *)
Definition NewManager (fs : list Field) : gmap string Field := foldl (λ m f, <[fName f := f]> m) ∅ fs.

Section Node.
Context (fields : gmap string Field).
Context (authorize : Identity → Requirement → bool) (RenderResponse : nat → any → res string any).

(** Manager.Start, the fields in an order of the map: one handler for each subject, delivering to the field
    that is met first. *)
Definition start_field (b : gmap string (list string)) (f : Field) : gmap string (list string) :=
  match b !! fSubject f with Some _ => b | None => <[fSubject f := [fName f]]> b end.
Definition Start (order : list Field) (n : node) : node :=
  mkNode (registry n) (open_ids n) (foldl start_field (bus n) order).

Definition Register (s : Subscriber) (n : node) : node := mkNode (<[sID s := s]> (registry n)) (open_ids n) (bus n).
Definition Unregister (id : string) (n : node) : node := mkNode (delete id (registry n)) (open_ids n) (bus n).

Inductive refusal := NoField (name : string) | Denied | NotAcked.
Definition Subscribe (id name : string) (filter : FilterGroup) (who : Identity) (conn : nat) (n : node) : res refusal node :=
  match fields !! name with
  | None => Err (NoField name)
  | Some f =>
      if negb (IsZero (fAuth f)) && negb (authorize who (fAuth f)) then Err Denied
      else Ok (Register (mkSubscriber id name filter (fResponse f) who conn) n)
  end.

Definition ids_of (n : node) (conn : nat) : gset string := default ∅ (open_ids n !! conn).
Definition set_ids (conn : nat) (ids : gset string) (n : node) : node := mkNode (registry n) (<[conn := ids]> (open_ids n)) (bus n).

(** What a connection does.  The id is the client's own. *)
Definition onSubscribe (acked : bool) (conn : nat) (id name : string) (args : list (string * any)) (who : Identity) (n : node) : res refusal node :=
  if negb acked then Err NotAcked
  else n ← Subscribe id name (filterFromArgs args) who conn n; Ok (set_ids conn ({[id]} ∪ ids_of n conn) n).
Definition stop (conn : nat) (id : string) (n : node) : node :=
  if bool_decide (id ∈ ids_of n conn) then Unregister id (set_ids conn (ids_of n conn ∖ {[id]}) n) else n.
Definition closeAll (conn : nat) (n : node) : node :=
  set_ids conn ∅ (foldl (λ n id, Unregister id n) n (elements (ids_of n conn))).

(** The subscribers of the field whose filter matches, of those in the order given. *)
Fixpoint targets (name : string) (event : list (string * any)) (subs : list Subscriber) : option (list Subscriber) :=
  match subs with
  | [] => Some []
  | s :: subs =>
      b ← (if String.eqb (sField s) name then Match (sFilter s) event else Some false);
      l ← targets name event subs;
      Some (if (b : bool) then s :: l else l)
  end.
Definition payload_for (event : list (string * any)) (s : Subscriber) : res string any :=
  RenderResponse (sResponse s) (AMap [("result", AMap event); ("identity", identityMap (sIdentity s))]).
(** Deliveries, and the errors of those that were dropped. *)
Fixpoint deliver_all (event : list (string * any)) (subs : list Subscriber) : list delivery * list string :=
  match subs with
  | [] => ([], [])
  | s :: subs =>
      let '(ds, errs) := deliver_all event subs in
      match payload_for event s with
      | Ok p => (mkDelivery (sConn s) (sID s) (sField s) p :: ds, errs)
      | Err e => (ds, e :: errs)
      end
  end.
Definition Fanout (name : string) (event : list (string * any)) (subs : list Subscriber) : option (list delivery * list string) :=
  deliver_all event <$> targets name event subs.

(** MemBus.Publish: each handler of the subject in turn. *)
Fixpoint handle (event : list (string * any)) (subs : list Subscriber) (handlers : list string) : option (list delivery) :=
  match handlers with
  | [] => Some []
  | name :: handlers => '(ds, _) ← Fanout name event subs; more ← handle event subs handlers; Some (ds ++ more)
  end.
Definition bus_publish (n : node) (subject : string) (event : list (string * any)) (subs : list Subscriber) : option (list delivery) :=
  handle event subs (default [] (bus n !! subject)).
(** Manager.Publish; a field that is not there is an error the publisher drops. *)
Definition Publish (n : node) (name : string) (event : list (string * any)) (subs : list Subscriber) : option (list delivery) :=
  match fields !! name with Some f => bus_publish n (fSubject f) event subs | None => Some [] end.

Definition event_of (result : any) : list (string * any) := match result with AMap m => m | v => [("result", v)] end.
Fixpoint publish_each (n : node) (names : list string) (event : list (string * any)) (subs : list Subscriber) : option (list delivery) :=
  match names with
  | [] => Some []
  | name :: names => ds ← Publish n name event subs; more ← publish_each n names event subs; Some (ds ++ more)
  end.
(** [trigger]: the subscriptions of a mutation. *)
Definition PublishForMutation (trigger : string → list string) (n : node) (mutation : string) (result : any) (subs : list Subscriber) : option (list delivery) :=
  publish_each n (trigger mutation) (event_of result) subs.
End Node.
