(* ===== verification/AppDeliver.v ===== *)
(** * Who a published event is delivered to

    Over everything connections do: every subscriber was let in, and an event reaches exactly the open
    subscriptions of its field whose arguments it has, once each.  For the second, no two connections may
    use one id: the registry of a node is keyed by the id that the client chose. *)

From stdpp Require Import list gmap.
From S2P Require Import Prelude GoStrings AppValue AppSubscribe.
#[local] Open Scope string_scope.
#[local] Open Scope list_scope.

(** ** Filters that cannot panic *)

Definition scalar (v : any) : Prop := match v with AList _ | AMap _ => False | _ => True end.
Definition same (a b : any) : bool := default false (equal a b).

Lemma equal_scalar a b : scalar b → equal a b = Some (same a b).
Proof. intros Hb. unfold same. destruct b; try done; by destruct a. Qed.

Lemma all_of_total {A} (test : A → option bool) (b : A → bool) l : (∀ x, x ∈ l → test x = Some (b x)) → all_of test l = Some (forallb b l).
Proof.
  induction l as [|x l IH]; intros H; cbn; [done|]. rewrite H by set_solver. cbn. destruct (b x); [|done]. apply IH. set_solver.
Qed.

(** The event has this value at this path. *)
Definition has (event : list (string * any)) (kv : string * any) : bool :=
  match lookup_path event kv.1 with Some a => same a kv.2 | None => false end.

(** A subscription's arguments are met when the event has each of them. *)
Lemma Match_args args event : Forall (λ kv, scalar kv.2) args → Match (filterFromArgs args) event = Some (forallb (has event) args).
Proof.
  intros Hs. destruct args as [|kv args]; [done|]. unfold Match, filterFromArgs. set (l := kv :: args) in *. cbn [some_of].
  assert (Hf : filter_match event (map (λ kv, mkCondition kv.1 "eq" kv.2) l) = Some (forallb (has event) l)).
  { clearbody l. unfold filter_match. induction Hs as [|x l Hx _ IH]; [done|]. cbn [map all_of forallb].
    assert (cond_match event (mkCondition x.1 "eq" x.2) = Some (has event x)) as ->.
    { unfold cond_match, has. cbn [cField cOperator cValue]. change (String.eqb "eq" "eq") with true. cbn match. destruct (lookup_path event x.1) as [a|].
      - rewrite bool_decide_true by eauto. by apply equal_scalar.
      - rewrite bool_decide_false; [done|]. by intros [? [=]]. }
    cbn. destruct (has event x); [exact IH|done]. }
  rewrite Hf. clearbody l. cbn [mbind option_bind]. by destruct (forallb (has event) l).
Qed.

(** ** Runs *)

Inductive action :=
| ASubscribe (acked : bool) (conn : nat) (id name : string) (args : list (string * any)) (who : Identity)
| AStop (conn : nat) (id : string)
| AClose (conn : nat).

Section Runs.
Context (fs : list Field) (authorize : Identity → Requirement → bool).
#[local] Abbreviation fields := (NewManager fs).

Definition act (n : node) (a : action) : node :=
  match a with
  | ASubscribe acked conn id name args who =>
      match onSubscribe fields authorize acked conn id name args who n with Ok n' => n' | Err _ => n end
  | AStop conn id => stop conn id n
  | AClose conn => closeAll conn n
  end.
Definition after (order : list Field) (actions : list action) : node := foldl act (Start order (mkNode ∅ ∅ ∅)) actions.

Lemma NewManager_named name f : fields !! name = Some f → fName f = name.
Proof.
  assert (H : ∀ m : gmap string Field, (∀ name f, m !! name = Some f → fName f = name) → ∀ name f, foldl (λ m f, <[fName f := f]> m) m fs !! name = Some f → fName f = name).
  { induction fs as [|g l IH]; intros m Hm; [done|]. cbn. apply IH. intros k h [[<- <-]|[_ Hk]]%lookup_insert_Some; [done|by apply Hm]. }
  intros Hf. eapply H; [|exact Hf]. done.
Qed.

(** ** What connections do leaves the bus alone, and registers who was let in *)

Definition let_in (s : Subscriber) : Prop :=
  ∃ f, fields !! sField s = Some f ∧ sResponse s = fResponse f ∧ (IsZero (fAuth f) = true ∨ authorize (sIdentity s) (fAuth f) = true).

Lemma foldl_unregister ids n : foldl (λ n id, Unregister id n) n ids = mkNode (foldl (λ m id, delete id m) (registry n) ids) (open_ids n) (bus n).
Proof. revert n. induction ids as [|id ids IH]; intros n; [by destruct n|]. cbn. by rewrite IH. Qed.
Lemma foldl_delete (m : gmap string Subscriber) ids id s :
  foldl (λ m id, delete id m) m ids !! id = Some s ↔ m !! id = Some s ∧ id ∉ ids.
Proof.
  revert m. induction ids as [|i ids IH]; intros m; cbn; [set_solver|]. rewrite IH, lookup_delete_Some. set_solver.
Qed.

Lemma onSubscribe_Ok acked conn id name args who n n' :
  onSubscribe fields authorize acked conn id name args who n = Ok n' →
  ∃ f, fields !! name = Some f ∧ (IsZero (fAuth f) = true ∨ authorize who (fAuth f) = true) ∧
    n' = set_ids conn ({[id]} ∪ ids_of n conn) (Register (mkSubscriber id name (filterFromArgs args) (fResponse f) who conn) n).
Proof.
  unfold onSubscribe, Subscribe. destruct acked; [|done]. cbn [negb]. destruct (fields !! name) as [f|] eqn:Ef; [|done].
  destruct (IsZero (fAuth f)) eqn:Ez; cbn.
  - intros [= <-]. exists f. auto.
  - destruct (authorize who (fAuth f)) eqn:Ea; [|done]. cbn. intros [= <-]. exists f. auto.
Qed.

Lemma act_bus n a : bus (act n a) = bus n.
Proof.
  destruct a as [acked conn id name args who|conn id|conn]; cbn.
  - destruct (onSubscribe _ _ _ _ _ _ _ _ _) as [n'|] eqn:E; [|done]. by apply onSubscribe_Ok in E as (f & _ & _ & ->).
  - unfold stop. by case_bool_decide.
  - unfold closeAll. by rewrite foldl_unregister.
Qed.
Lemma act_let_in n a : map_Forall (λ _, let_in) (registry n) → map_Forall (λ _, let_in) (registry (act n a)).
Proof.
  intros Hn. destruct a as [acked conn id name args who|conn id|conn]; cbn.
  - destruct (onSubscribe _ _ _ _ _ _ _ _ _) as [n'|] eqn:E; [|done]. apply onSubscribe_Ok in E as (f & Hf & Ha & ->).
    cbn. apply map_Forall_insert_2; [|done]. exists f. auto.
  - unfold stop. case_bool_decide; [|done]. cbn. by apply map_Forall_delete.
  - unfold closeAll. rewrite foldl_unregister. cbn. intros i s [Hs _]%foldl_delete. by eapply Hn.
Qed.
Lemma after_let_in order actions : map_Forall (λ _, let_in) (registry (after order actions)).
Proof.
  unfold after. assert (H : map_Forall (λ _, let_in) (registry (Start order (mkNode ∅ ∅ ∅)))) by done. revert H.
  generalize (Start order (mkNode ∅ ∅ ∅)). induction actions as [|a actions IH]; intros n Hn; [done|]. cbn. by apply IH, act_let_in.
Qed.
Lemma after_bus order actions : bus (after order actions) = foldl start_field ∅ order.
Proof.
  unfold after. change (foldl start_field ∅ order) with (bus (Start order (mkNode ∅ ∅ ∅))). generalize (Start order (mkNode ∅ ∅ ∅)).
  induction actions as [|a actions IH]; intros n; [done|]. cbn. by rewrite IH, act_bus.
Qed.

(** With a subject of its own, a field has a handler of its own. *)
Lemma start_bus order f : NoDup (map fSubject order) → f ∈ order → foldl start_field ∅ order !! fSubject f = Some [fName f].
Proof.
  intros Hnd. assert (H : ∀ b : gmap string (list string), (∀ g, g ∈ order → b !! fSubject g = None) → f ∈ order → foldl start_field b order !! fSubject f = Some [fName f]);
    [|apply H; intros; apply lookup_empty].
  assert (Hstay : ∀ order' (b : gmap string (list string)) x, b !! fSubject f = Some x → foldl start_field b order' !! fSubject f = Some x).
  { clear. induction order' as [|g l IH]; intros b x Hb; [done|]. cbn. apply IH. unfold start_field. destruct (b !! fSubject g) eqn:Eg; [done|].
    rewrite lookup_insert_ne; [done|]. intros E. by rewrite E, Hb in Eg. }
  induction order as [|g l IH]; intros b Hb Hin; [by apply not_elem_of_nil in Hin|]. cbn in Hnd. apply NoDup_cons in Hnd as [Hg Hnd].
  cbn [foldl]. assert (Hstep : start_field b g = <[fSubject g := [fName g]]> b) by (unfold start_field; by rewrite Hb by set_solver).
  rewrite Hstep. apply elem_of_cons in Hin as [->|Hin]; [apply Hstay, lookup_insert_eq|]. apply IH; [done| |done].
  intros h Hh. rewrite lookup_insert_ne; [apply Hb; set_solver|]. intros E. apply Hg. rewrite E. apply list_elem_of_fmap. by exists h.
Qed.

(** ** Ids of one connection each *)

(** The connection that uses an id. *)
Definition own_id (owner : string → nat) (a : action) : Prop := match a with ASubscribe _ conn id _ _ _ => owner id = conn | _ => True end.

(** What is registered is what connections have open, under the id it has. *)
Definition served (owner : string → nat) (n : node) : Prop :=
  (∀ conn id, id ∈ ids_of n conn → owner id = conn) ∧
  (∀ id s, registry n !! id = Some s → sID s = id ∧ sConn s = owner id ∧ id ∈ ids_of n (owner id)) ∧
  (∀ conn id, id ∈ ids_of n conn → is_Some (registry n !! id)).

Lemma ids_set conn ids n conn' : ids_of (set_ids conn ids n) conn' = if decide (conn = conn') then ids else ids_of n conn'.
Proof. unfold ids_of, set_ids. cbn. destruct (decide (conn = conn')) as [->|]; [by rewrite lookup_insert_eq|by rewrite lookup_insert_ne]. Qed.

Lemma act_served owner n a : own_id owner a → served owner n → served owner (act n a).
Proof.
  intros Ho (H1 & H2 & H3). destruct a as [acked conn id name args who|conn id|conn]; cbn in *.
  - destruct (onSubscribe _ _ _ _ _ _ _ _ _) as [n'|] eqn:E; [|done]. apply onSubscribe_Ok in E as (f & _ & _ & ->). split_and!.
    + intros c i. rewrite ids_set. change (ids_of (Register _ n) c) with (ids_of n c). destruct (decide (conn = c)) as [->|]; [|apply H1]. intros [->%elem_of_singleton|?]%elem_of_union; auto.
    + intros i s Hs. cbn in Hs. rewrite ids_set. change (ids_of (Register _ n) (owner i)) with (ids_of n (owner i)). apply lookup_insert_Some in Hs as [[<- <-]|[Hne Hs]].
      * cbn. rewrite Ho, decide_True by done. set_solver.
      * destruct (H2 i s Hs) as (? & ? & ?). split_and!; [done|done|]. destruct (decide (conn = owner i)) as [->|]; set_solver.
    + intros c i. rewrite ids_set. change (ids_of (Register _ n) c) with (ids_of n c). cbn. intros Hi. destruct (decide (id = i)) as [->|Hne]; [by rewrite lookup_insert_eq|].
      rewrite lookup_insert_ne by done. apply (H3 c). destruct (decide (conn = c)) as [->|]; set_solver.
  - unfold stop. case_bool_decide as Hid; [|done]. split_and!.
    + intros c i. change (ids_of (Unregister id ?x) c) with (ids_of x c). rewrite ids_set. destruct (decide (conn = c)) as [->|]; [|apply H1]. intros Hi. apply H1. set_solver.
    + intros i s Hs. cbn in Hs. apply lookup_delete_Some in Hs as [Hne Hs]. destruct (H2 i s Hs) as (? & ? & ?). split_and!; [done|done|].
      change (ids_of (Unregister id ?x) (owner i)) with (ids_of x (owner i)). rewrite ids_set. destruct (decide (conn = owner i)) as [->|]; set_solver.
    + intros c i. change (ids_of (Unregister id ?x) c) with (ids_of x c). rewrite ids_set. intros Hi. cbn. rewrite lookup_delete_ne; [apply (H3 c); destruct (decide (conn = c)) as [->|]; set_solver|].
      intros <-. destruct (decide (conn = c)) as [->|Hne]; [set_solver|]. apply Hne. by rewrite <-(H1 conn id Hid), <-(H1 c id Hi).
  - unfold closeAll. rewrite foldl_unregister. split_and!.
    + intros c i. rewrite ids_set. destruct (decide (conn = c)) as [->|]; [set_solver|apply H1].
    + intros i s Hs. cbn in Hs. apply foldl_delete in Hs as [Hs Hi]. rewrite elem_of_elements in Hi. destruct (H2 i s Hs) as (? & ? & ?). split_and!; [done|done|].
      rewrite ids_set. destruct (decide (conn = owner i)) as [->|]; done.
    + intros c i. rewrite ids_set. destruct (decide (conn = c)) as [->|Hne]; [set_solver|]. intros Hi. cbn. change (ids_of n c) with (ids_of n c) in Hi.
      destruct (H3 c i Hi) as [s Hs]. exists s. apply foldl_delete. split; [done|]. rewrite elem_of_elements. intros Hc. apply Hne. by rewrite <-(H1 conn i Hc), <-(H1 c i Hi).
Qed.
Lemma after_served owner order actions : Forall (own_id owner) actions → served owner (after order actions).
Proof.
  intros Ho. unfold after. assert (H : served owner (Start order (mkNode ∅ ∅ ∅))).
  { split_and!; [intros c i Hi; by apply not_elem_of_empty in Hi|done|intros c i Hi; by apply not_elem_of_empty in Hi]. }
  revert H. generalize (Start order (mkNode ∅ ∅ ∅)). induction Ho as [|a actions Ha _ IH]; intros n Hn; [done|]. cbn. by apply IH, act_served.
Qed.
End Runs.

(** ** What is delivered *)

Section Deliveries.
Context (RenderResponse : nat → any → res string any).

Definition matches (name : string) (event : list (string * any)) (s : Subscriber) : bool :=
  String.eqb (sField s) name && default false (Match (sFilter s) event).

Lemma targets_spec name event subs :
  (∀ s, s ∈ subs → sField s = name → is_Some (Match (sFilter s) event)) →
  targets name event subs = Some (base.filter (λ s, matches name event s = true) subs).
Proof.
  induction subs as [|s subs IH]; intros H; [done|]. cbn [targets]. rewrite IH by (intros; apply H; set_solver). rewrite filter_cons.
  destruct (decide (matches name event s = true)) as [Hm|Hm]; unfold matches in Hm; destruct (String.eqb_spec (sField s) name) as [E|]; cbn in *; try done.
  all: destruct (H s ltac:(set_solver) E) as [[] Hb]; rewrite Hb in *; done.
Qed.
(** Without a panic, what is delivered is to a target whether or not the filters are scalar. *)
Lemma targets_sound name event subs l : targets name event subs = Some l → ∀ s, s ∈ l → s ∈ subs ∧ matches name event s = true.
Proof.
  revert l. induction subs as [|s subs IH]; intros l; cbn; [intros [= <-]; set_solver|].
  intros (b & Hb & (l' & Hl & [= <-])%bind_Some)%bind_Some t Ht. assert (t = s ∧ b = true ∨ t ∈ l') as [[-> ->]|Hin] by (destruct b; set_solver).
  - split; [set_solver|]. unfold matches. destruct (String.eqb (sField s) name); [|done]. by rewrite Hb.
  - destruct (IH l' Hl t Hin). split; [set_solver|done].
Qed.

Lemma deliver_all_spec event subs d :
  d ∈ (deliver_all RenderResponse event subs).1 ↔
  ∃ s, s ∈ subs ∧ dConn d = sConn s ∧ dID d = sID s ∧ dField d = sField s ∧ payload_for RenderResponse event s = Ok (dPayload d).
Proof.
  induction subs as [|s subs IH]; cbn; [split; [intros ?%not_elem_of_nil; done|intros (? & ?%not_elem_of_nil & _); done]|].
  destruct (deliver_all RenderResponse event subs) as [ds errs] eqn:Ed. destruct (payload_for RenderResponse event s) as [p|e] eqn:Ep; cbn in *.
  - rewrite elem_of_cons, IH. split.
    + intros [->|(t & Ht & H)]; [exists s; cbn; split_and!; [set_solver|done..]|exists t; split; [set_solver|done]].
    + intros (t & Ht & H1 & H2 & H3 & H4). apply elem_of_cons in Ht as [->|Ht]; [left|right; exists t; auto].
      destruct d; cbn in *. rewrite Ep in H4. by injection H4 as ->; subst.
  - rewrite IH. split; intros (t & Ht & H); [exists t; split; [set_solver|done]|]. apply elem_of_cons in Ht as [->|Ht]; [|exists t; auto].
    destruct H as (_ & _ & _ & H). congruence.
Qed.
Lemma deliver_all_ids event subs : map dID (deliver_all RenderResponse event subs).1 `sublist_of` map sID subs.
Proof.
  induction subs as [|s subs IH]; cbn; [done|]. destruct (deliver_all RenderResponse event subs) as [ds errs].
  destruct (payload_for RenderResponse event s); cbn in *; by constructor.
Qed.
End Deliveries.

(** Subscriptions whose arguments are scalars. *)
Definition scalar_args (a : action) : Prop := match a with ASubscribe _ _ _ _ args _ => Forall (λ kv, scalar kv.2) args | _ => True end.
Definition scalar_filter (s : Subscriber) : Prop := ∃ args, Forall (λ kv, scalar kv.2) args ∧ sFilter s = filterFromArgs args.
Lemma after_scalar fs authorize order actions : Forall scalar_args actions → map_Forall (λ _, scalar_filter) (registry (after fs authorize order actions)).
Proof.
  unfold after. assert (H : map_Forall (λ _, scalar_filter) (registry (Start order (mkNode ∅ ∅ ∅)))) by done. revert H.
  generalize (Start order (mkNode ∅ ∅ ∅)). intros n Hn Ha. revert n Hn. induction Ha as [|a actions Ha _ IH]; intros n Hn; [done|]. cbn. apply IH.
  destruct a as [acked conn id name args who|conn id|conn]; cbn.
  - destruct (onSubscribe _ _ _ _ _ _ _ _ _) as [n'|] eqn:E; [|done]. apply onSubscribe_Ok in E as (f & _ & _ & ->). cbn.
    apply map_Forall_insert_2; [|done]. exists args. auto.
  - unfold stop. case_bool_decide; [|done]. cbn. by apply map_Forall_delete.
  - unfold closeAll. rewrite foldl_unregister. cbn. intros i s [Hs _]%foldl_delete. by eapply Hn.
Qed.

Lemma values_registry (m : gmap string Subscriber) subs s : subs ≡ₚ (map_to_list m).*2 → s ∈ subs ↔ ∃ id, m !! id = Some s.
Proof.
  intros ->. rewrite list_elem_of_fmap. split.
  - intros ([id t] & -> & Hin%elem_of_map_to_list). by exists id.
  - intros [id Hid]. exists (id, s). split; [done|]. by apply elem_of_map_to_list.
Qed.
Lemma registry_ids (m : gmap string Subscriber) subs : (∀ id s, m !! id = Some s → sID s = id) → subs ≡ₚ (map_to_list m).*2 → NoDup (map sID subs).
Proof.
  intros Hid ->. assert (map sID (map_to_list m).*2 = (map_to_list m).*1) as ->; [|apply NoDup_fst_map_to_list].
  change (map sID (map_to_list m).*2) with (sID <$> (map_to_list m).*2). rewrite <-list_fmap_compose. apply list_fmap_ext. intros i [id s] Hi%list_elem_of_lookup_2%elem_of_map_to_list. cbn. by apply Hid.
Qed.


(** C28: whatever connections do and whatever ids they choose, an event is delivered only to subscribers of a
    field that is in the catalog, who met its requirement when they subscribed: a denied caller is never
    registered. *)
Theorem delivered_authorized fs authorize RenderResponse order actions trigger mutation result subs ds d :
  subs ≡ₚ (map_to_list (registry (after fs authorize order actions))).*2 →
  PublishForMutation (NewManager fs) RenderResponse trigger (after fs authorize order actions) mutation result subs = Some ds → d ∈ ds →
  ∃ s f, s ∈ subs ∧ NewManager fs !! dField d = Some f ∧ sField s = dField d ∧ sConn s = dConn d ∧ sID s = dID d ∧
    (IsZero (fAuth f) = true ∨ authorize (sIdentity s) (fAuth f) = true) ∧ Match (sFilter s) (event_of result) = Some true.
Proof.
  intros Hs Hp Hd. pose proof (after_let_in fs authorize order actions) as Hl. set (n := after fs authorize order actions) in *. clearbody n.
  assert (Hh : ∀ handlers ds, handle RenderResponse (event_of result) subs handlers = Some ds → d ∈ ds → ∃ s, s ∈ subs ∧ sField s = dField d ∧ sConn s = dConn d ∧ sID s = dID d ∧ Match (sFilter s) (event_of result) = Some true).
  { induction handlers as [|h handlers IH]; intros l; cbn; [intros [= <-]; by intros ?%not_elem_of_nil|].
    intros ([ds1 errs] & Hf & (more & Hm & [= <-])%bind_Some)%bind_Some [Hin|Hin]%elem_of_app; [|by eapply IH].
    unfold Fanout in Hf. apply fmap_Some in Hf as (ts & Ht & E).
    assert (ds1 = (deliver_all RenderResponse (event_of result) ts).1) as -> by by rewrite <-E.
    apply deliver_all_spec in Hin as (s & Hst & E1 & E2 & E3 & _). destruct (targets_sound _ _ _ _ Ht s Hst) as [Hsub Hma]. exists s.
    unfold matches in Hma. apply andb_true_iff in Hma as [_ Hma]. split_and!; try done. destruct (Match _ _) as [[]|]; done. }
  unfold PublishForMutation in Hp. revert ds Hp Hd. induction (trigger mutation) as [|t ts IH]; intros ds; cbn; [intros [= <-]; by intros ?%not_elem_of_nil|].
  intros (ds1 & H1 & (more & Hm & [= <-])%bind_Some)%bind_Some [Hin|Hin]%elem_of_app; [|by eapply IH].
  unfold Publish in H1. destruct (NewManager fs !! t) as [g|]; [|injection H1 as <-; by apply not_elem_of_nil in Hin].
  destruct (Hh _ _ H1 Hin) as (s & Hsub & E1 & E2 & E3 & Hma). destruct (proj1 (values_registry _ _ _ Hs) Hsub) as [id Hr].
  destruct (Hl id s Hr) as (f & Hf & _ & Ha). rewrite E1 in Hf. exists s, f. auto 10.
Qed.

(** ** Runs that show it *)

Definition public : Requirement := mkRequirement "" "" "" "" "".
Definition todos : list Field := [mkField "onAdd" "sub.onAdd" 0 public; mkField "onDel" "sub.onDel" 0 (mkRequirement "openinfra.dev" "graphqlapis" "get" "" "")].
(** Only ada may read what is not public; the response step is the event. *)
Definition only_ada (who : Identity) (_ : Requirement) : bool := String.eqb (Username who) "ada".
Definition the_result (_ : nat) (ctx : any) : res string any := match ctx with AMap m => Ok (get m "result") | _ => Err "no context" end.
Definition ada : Identity := mkIdentity "ada" [].
Definition bob : Identity := mkIdentity "bob" [].
Definition todo_actions : list action :=
  [ASubscribe true 0 "a" "onAdd" [("owner", AStr "ada")] ada; ASubscribe true 1 "b" "onAdd" [] bob;
   ASubscribe true 1 "c" "onDel" [] bob; ASubscribe true 2 "d" "onAdd" [("owner", AStr "eve")] bob; AStop 2 "d"].
Definition todo_order : list Field := (map_to_list (NewManager todos)).*2.
Definition todo_node : node := after todos only_ada todo_order todo_actions.
Definition todo_subs : list Subscriber := (map_to_list (registry todo_node)).*2.
Definition todo_event : list (string * any) := [("id", AInt 1); ("owner", AStr "ada")].
Definition todo_owner (id : string) : nat := if String.eqb id "a" then 0 else if String.eqb id "d" then 2 else 1.


Example delivered_authorized_witness :
  ∃ ds, PublishForMutation (NewManager todos) the_result (λ _, ["onAdd"; "onDel"]) todo_node "addTodo" (AMap todo_event) todo_subs = Some ds ∧
    length ds = 2 ∧ Forall (λ d, ∃ s, s ∈ todo_subs ∧ sID s = dID d ∧ Match (sFilter s) todo_event = Some true) ds.
Proof.
  destruct (PublishForMutation (NewManager todos) the_result (λ _, ["onAdd"; "onDel"]) todo_node "addTodo" (AMap todo_event) todo_subs) as [ds|] eqn:Ep; [|by vm_compute in Ep].
  exists ds. split_and!; [done|vm_compute in Ep; by injection Ep as <-|]. apply Forall_forall. intros d Hd.
  destruct (delivered_authorized todos only_ada the_result todo_order todo_actions _ _ _ todo_subs ds d (reflexivity _) Ep Hd) as (s & f & Hs & _ & _ & _ & Hi & _ & Hm).
  exists s. exact (conj Hs (conj Hi Hm)).
Defined.

(** The registry is keyed by the id of the client's message, and clients choose the same ones: the second
    connection takes the place of the first, and the first takes the second away when it closes. *)
Definition both_one : list action := [ASubscribe true 0 "1" "onAdd" [] ada; ASubscribe true 1 "1" "onAdd" [] bob].
Definition delivered_to (actions : list action) : option (list nat) :=
  map dConn <$> Publish (NewManager todos) the_result (after todos only_ada todo_order actions) "onAdd" todo_event
    (map_to_list (registry (after todos only_ada todo_order actions))).*2.
Example one_id_twice : delivered_to both_one = Some [1] ∧ delivered_to (both_one ++ [AClose 0]) = Some [].
Proof. vm_compute. done. Qed.

(** A list or an object as an argument: the comparison with a list or an object of the event panics. *)
Example composite_argument :
  delivered_to [ASubscribe true 0 "a" "onAdd" [] ada; ASubscribe true 1 "b" "onAdd" [("tags", AList [])] bob] = Some [0] ∧
  Publish (NewManager todos) the_result (after todos only_ada todo_order [ASubscribe true 1 "b" "onAdd" [("tags", AList [])] bob]) "onAdd"
    [("tags", AList [AStr "x"])] [mkSubscriber "b" "onAdd" (filterFromArgs [("tags", AList [])]) 0 bob 1] = None.
Proof. vm_compute. done. Qed.

(** Two fields of one subject: the events of both go to the subscribers of the field that was met first. *)
Definition shared : list Field := [mkField "onAdd" "todos" 0 public; mkField "onDel" "todos" 0 public].
Example shared_subject :
  let n := after shared only_ada shared [ASubscribe true 0 "a" "onAdd" [] ada; ASubscribe true 1 "b" "onDel" [] bob] in
  map dConn <$> Publish (NewManager shared) the_result n "onDel" todo_event (map_to_list (registry n)).*2 = Some [0].
Proof. vm_compute. done. Qed.
