(* ===== verification/AppCache.v ===== *)
(** * The response cache (open-appsync/internal/cache/cache.go, graphql/execute.go)

    A bounded table of responses, the key a resolution has, and a resolver run through it.  SHA-256 is a
    parameter; instants are nanoseconds. *)

From stdpp Require Import list gmap sorting.
From S2P Require Import Prelude GoStrings GoTrim GoJson GoFloat JsonText AppValue.
#[local] Open Scope string_scope.
#[local] Open Scope Z_scope.
#[local] Open Scope list_scope.

(** ** Mem *)

Record memEntry := mkEntry { value : string; expiresAt : Z }.
Abbreviation Mem := (gmap string memEntry).
Definition maxMemEntries : nat := 10000.

Definition expired (now : Z) (e : memEntry) : bool := expiresAt e <? now.
Definition Get (m : Mem) (now : Z) (key : string) : option string :=
  match m !! key with
  | Some e => if expired now e then None else Some (value e)
  | None => None
  end.
(** [victim]: the key that a range over the map meets first. *)
Definition Set_ (victim : Mem → option string) (m : Mem) (now later : Z) (key v : string) (ttl : Z) : Mem :=
  if ttl <=? 0 then m
  else
    let m' :=
      if bool_decide (m !! key = None) && (maxMemEntries <=? size m)%nat then
        let live := base.filter (λ kv : string * memEntry, expired now kv.2 = false) m in
        if (maxMemEntries <=? size live)%nat then match victim live with Some k => delete k live | None => live end else live
      else m in
    <[key := mkEntry v (later + ttl)]> m'.

(** ** Keys *)

(** encoding/json. *)
Fixpoint Marshal (v : any) : option string :=
  match v with
  | ANil => Some "null"
  | ABool b => Some (if b then "true" else "false")
  | AInt n | AInt64 n => Some (FormatInt n)
  | AFloat f => json_float f
  | AStr s => Some (json_quote s)
  | AList l => elems ← mapM Marshal l; Some ("[" +:+ Join elems "," +:+ "]")
  | AMap m =>
      entries ← mapM (λ kv : string * any, s ← Marshal kv.2; Some (kv.1, json_quote kv.1 +:+ ":" +:+ s)) m;
      Some ("{" +:+ Join (map snd (foldr insert_entry [] entries)) "," +:+ "}")
  end.

(** A []string; one that was appended nothing is nil. *)
Definition marshal_strings (l : list string) : string :=
  match l with [] => "null" | _ => "[" +:+ Join (map json_quote l) "," +:+ "]" end.
Definition member (name text : string) : string := json_quote name +:+ ":" +:+ text.
Definition payload (typeField username : string) (groups : list string) (keyValues : list any) : option string :=
  k ← Marshal (AList keyValues);
  Some ("{" +:+ member "f" (json_quote typeField) +:+ "," +:+ member "u" (json_quote username) +:+ "," +:+
        member "g" (marshal_strings (merge_sort string_le groups)) +:+ "," +:+ member "k" k +:+ "}").

Definition ResolveKeyPath (gctx : list (string * any)) (path : string) : any :=
  let p := TrimPrefix (TrimPrefix (TrimSpace path) "$context.") "$ctx." in
  match Split p "." with
  | [] => ANil
  | root :: segs =>
      let under root := (fix walk cur segs := match segs with
        | [] => cur
        | s :: segs => match cur with AMap m => walk (get m s) segs | _ => ANil end
        end) (AMap gctx) (root :: segs) in
      if String.eqb root "arguments" then under "args"
      else if existsb (String.eqb root) ["args"; "identity"; "source"; "stash"] then under root
      else AStr path
  end.

Record CachingConfig := mkCaching { TTL : Z; Keys : list string }.

Section Cache.
Context (sha256hex : string → string).

Definition Key (typeField username : string) (groups : list string) (keyValues : list any) : option string :=
  sha256hex <$> payload typeField username groups keyValues.

(** What the values of a key are: the arguments, or the paths that are declared. *)
Definition key_values (c : CachingConfig) (gctx : list (string * any)) : list any :=
  match Keys c with [] => [get gctx "args"] | ks => map (ResolveKeyPath gctx) ks end.

Definition cacheKey (parentType field : string) (caching : option CachingConfig) (id : Identity) (gctx : list (string * any)) : option string :=
  match caching with
  | None => None
  | Some c =>
      if String.eqb parentType "Mutation" then None
      else Key (parentType +:+ "." +:+ field) (Username id) (Groups id) (key_values c gctx)
  end.

(** One resolution: what it is of, when, and what the resolver would give. *)
Record resolution := mkResolution {
  rParent : string; rField : string; rCaching : option CachingConfig; rIdentity : Identity; rCtx : list (string * any);
  rNow : Z; rLater : Z; rResult : res string any
}.

Section Engine.
(** The decoder of what was cached; a corrupt entry is a miss. *)
Context (decode : string → option any) (victim : Mem → option string).

Definition cacheGet (m : Mem) (now : Z) (key : string) : option any := Get m now key ≫= decode.
Definition cacheSet (m : Mem) (now later : Z) (key : string) (ttl : Z) (v : any) : Mem :=
  match Marshal v with Some b => Set_ victim m now later key b ttl | None => m end.

(** The answer, the cache after it, and whether the resolver ran. *)
Definition resolveWithCache (m : Mem) (r : resolution) : res string any * Mem * bool :=
  match cacheKey (rParent r) (rField r) (rCaching r) (rIdentity r) (rCtx r) with
  | None => (rResult r, m, true)
  | Some key =>
      match cacheGet m (rNow r) key with
      | Some v => (Ok v, m, false)
      | None =>
          match rResult r with
          | Err e => (Err e, m, true)
          | Ok v => (Ok v, cacheSet m (rNow r) (rLater r) key (default 0 (TTL <$> rCaching r)) v, true)
          end
      end
  end.

Fixpoint resolve_each (m : Mem) (rs : list resolution) : list (res string any * bool) * Mem :=
  match rs with
  | [] => ([], m)
  | r :: rs => let '(a, m, ran) := resolveWithCache m r in let '(l, m) := resolve_each m rs in ((a, ran) :: l, m)
  end.
End Engine.
End Cache.
