(* ===== verification/AppCacheSafe.v ===== *)
(** * The response cache is bounded, and never crosses identities

    What a resolution is served from the cache was resolved for the same field, the same caller and the same
    caching keys, and is not stale; the table never holds more than its ceiling. *)

From stdpp Require Import list gmap sorting.
From S2P Require Import Prelude GoStrings GoTrim GoJson JsonText AppValue AppCache.
#[local] Open Scope string_scope.
#[local] Open Scope Z_scope.
#[local] Open Scope list_scope.

(** ** The ceiling *)

(** What a range over a map that has entries meets first is one of them. *)
Definition picks (victim : Mem → option string) : Prop := ∀ m, m ≠ ∅ → ∃ k, victim m = Some k ∧ is_Some (m !! k).

Lemma Set_bounded victim m now later key v ttl :
  picks victim → (size m ≤ maxMemEntries)%nat → (size (Set_ victim m now later key v ttl) ≤ maxMemEntries)%nat.
Proof.
  intros Hv Hm. unfold Set_. destruct (ttl <=? 0); [done|]. destruct (m !! key) as [e|] eqn:Ek.
  { rewrite bool_decide_false by done. cbn [andb]. rewrite map_size_insert_Some by eauto. done. }
  rewrite bool_decide_true by done. cbn [andb]. destruct (maxMemEntries <=? size m)%nat eqn:Es.
  2:{ apply Nat.leb_gt in Es. rewrite map_size_insert_None by done. lia. }
  set (live := base.filter _ m). assert (Hl : (size live ≤ size m)%nat) by (apply map_subseteq_size, map_filter_subseteq).
  assert (Hk : live !! key = None) by (apply map_lookup_filter_None; auto).
  destruct (maxMemEntries <=? size live)%nat eqn:El.
  - assert (Hne : live ≠ ∅) by (intros E; rewrite E, map_size_empty in El; by vm_compute in El). destruct (Hv live Hne) as (k & -> & Hin).
    rewrite map_size_insert_None by (apply lookup_delete_None; auto). rewrite map_size_delete_Some by done. 
    apply Nat.leb_le in El. assert (0 < maxMemEntries)%nat by (apply Nat.ltb_lt; by vm_compute). lia.
  - apply Nat.leb_gt in El. rewrite map_size_insert_None by done. lia.
Qed.

Lemma Set_lookup victim m now later key v ttl k e :
  Set_ victim m now later key v ttl !! k = Some e → m !! k = Some e ∨ (k = key ∧ e = mkEntry v (later + ttl)).
Proof.
  unfold Set_. destruct (ttl <=? 0); [auto|]. intros [[-> <-]|[_ H]]%lookup_insert_Some; [auto|]. left. revert H.
  destruct (bool_decide _ && _); [|done]. set (live := base.filter _ m).
  assert (Hl : ∀ k e, live !! k = Some e → m !! k = Some e) by (intros k' e' H; by apply map_lookup_filter_Some in H as [H _]).
  destruct (_ <=? _)%nat; [|apply Hl]. destruct (victim live); [|apply Hl]. intros [_ H]%lookup_delete_Some. by apply Hl.
Qed.

(** ** Keys tell callers apart *)

#[local] Opaque json_quote.

Lemma marshal_strings_inj l1 l2 r1 r2 : Forall valid_utf8 l1 → Forall valid_utf8 l2 →
  marshal_strings l1 +:+ "," +:+ r1 = marshal_strings l2 +:+ "," +:+ r2 → l1 = l2 ∧ r1 = r2.
Proof.
  assert (Hj : ∀ l1 l2 r1 r2, Forall valid_utf8 l1 → Forall valid_utf8 l2 → l1 ≠ [] → l2 ≠ [] →
    Join (map json_quote l1) "," +:+ "]" +:+ r1 = Join (map json_quote l2) "," +:+ "]" +:+ r2 → l1 = l2 ∧ r1 = r2).
  { clear. intros l1. induction l1 as [|a l1 IH]; intros [|b l2] r1 r2 H1 H2 N1 N2 E; try done.
    apply Forall_cons in H1 as [Ha H1], H2 as [Hb H2]. destruct l1 as [|a' l1], l2 as [|b' l2]; unfold Join in E; cbn [map String.concat] in E; rewrite ?append_assoc in E.
    - apply json_quote_inj in E as [-> E]; [|done..]. by injection E.
    - apply json_quote_inj in E as [_ E]; [|done..]. discriminate E.
    - apply json_quote_inj in E as [_ E]; [|done..]. discriminate E.
    - apply json_quote_inj in E as [-> E]; [|done..]. apply (append_inj_l ",") in E.
      destruct (IH (b' :: l2) r1 r2) as [-> ->]; try done. }
  intros H1 H2 E. destruct l1 as [|a l1], l2 as [|b l2]; unfold marshal_strings in E; rewrite ?append_assoc in E.
  - by injection E.
  - discriminate E.
  - discriminate E.
  - apply (append_inj_l "["), Hj in E as [E' E]; [|done..]. by injection E.
Qed.

Definition payload_text (f u g k : string) : string :=
  "{" +:+ member "f" f +:+ "," +:+ member "u" u +:+ "," +:+ member "g" g +:+ "," +:+ member "k" k +:+ "}".
Lemma payload_text_inj f1 u1 g1 k1 f2 u2 g2 k2 :
  valid_utf8 f1 → valid_utf8 u1 → Forall valid_utf8 g1 → valid_utf8 f2 → valid_utf8 u2 → Forall valid_utf8 g2 →
  payload_text (json_quote f1) (json_quote u1) (marshal_strings g1) k1 = payload_text (json_quote f2) (json_quote u2) (marshal_strings g2) k2 →
  f1 = f2 ∧ u1 = u2 ∧ g1 = g2 ∧ k1 = k2.
Proof.
  intros Hf1 Hu1 Hg1 Hf2 Hu2 Hg2 E. unfold payload_text, member in E. rewrite !append_assoc in E.
  repeat apply append_inj_l in E. apply json_quote_inj in E as [-> E]; [|done..].
  repeat apply append_inj_l in E. apply json_quote_inj in E as [-> E]; [|done..].
  repeat apply append_inj_l in E. apply marshal_strings_inj in E as [Hg E]; [|done..].
  repeat apply append_inj_l in E. apply append_inj_r in E as ->. done.
Qed.
Lemma payload_inj f1 u1 g1 k1 f2 u2 g2 k2 p :
  valid_utf8 f1 → valid_utf8 u1 → Forall valid_utf8 g1 → valid_utf8 f2 → valid_utf8 u2 → Forall valid_utf8 g2 →
  payload f1 u1 g1 k1 = Some p → payload f2 u2 g2 k2 = Some p →
  f1 = f2 ∧ u1 = u2 ∧ g1 ≡ₚ g2 ∧ Marshal (AList k1) = Marshal (AList k2).
Proof.
  intros Hf1 Hu1 Hg1 Hf2 Hu2 Hg2. unfold payload. destruct (Marshal (AList k1)) as [t1|]; [|done]. destruct (Marshal (AList k2)) as [t2|]; [|done].
  cbn [mbind option_bind]. fold (payload_text (json_quote f1) (json_quote u1) (marshal_strings (merge_sort string_le g1)) t1).
  fold (payload_text (json_quote f2) (json_quote u2) (marshal_strings (merge_sort string_le g2)) t2). intros E1 E2.
  destruct (payload_text_inj f1 u1 (merge_sort string_le g1) t1 f2 u2 (merge_sort string_le g2) t2) as (-> & -> & Hg & ->); try done; [by rewrite merge_sort_Permutation..|congruence|].
  split_and!; try done. by rewrite <-(merge_sort_Permutation string_le g1), <-(merge_sort_Permutation string_le g2), Hg.
Qed.

(** ** What is served *)

Section Served.
Context (sha256hex : string → string) (decode : string → option any) (victim : Mem → option string).

Definition key_of (r : resolution) : option string := cacheKey sha256hex (rParent r) (rField r) (rCaching r) (rIdentity r) (rCtx r).
Definition ttl_of (r : resolution) : Z := default 0 (TTL <$> rCaching r).

(** Each entry is the result of a resolution that was made. *)
Definition stored (made : list resolution) (m : Mem) : Prop :=
  ∀ key e, m !! key = Some e → ∃ s w, s ∈ made ∧ key_of s = Some key ∧ rResult s = Ok w ∧ Marshal w = Some (value e) ∧ expiresAt e = rLater s + ttl_of s.

Definition served_from (made : list resolution) (r : resolution) (v : any) : Prop :=
  ∃ s w b key, s ∈ made ∧ key_of s = Some key ∧ key_of r = Some key ∧ rResult s = Ok w ∧ Marshal w = Some b ∧ decode b = Some v ∧ rNow r <= rLater s + ttl_of s.

Lemma resolve_stored made m r a m' ran :
  stored made m → resolveWithCache sha256hex decode victim m r = (a, m', ran) →
  stored (made ++ [r]) m' ∧ (ran = false → ∃ v, a = Ok v ∧ served_from made r v) ∧ (ran = true → a = rResult r).
Proof.
  intros Hm. unfold resolveWithCache. fold (key_of r). destruct (key_of r) as [key|] eqn:Ek.
  2:{ intros [= <- <- <-]. split_and!; try done. intros k e He. destruct (Hm k e He) as (s & w & Hs & H). exists s, w. split; [set_solver|done]. }
  assert (Hweak : stored (made ++ [r]) m).
  { intros k e He. destruct (Hm k e He) as (s & w & Hs & H). exists s, w. split; [set_solver|done]. }
  unfold cacheGet. destruct (Get m (rNow r) key ≫= decode) as [v|] eqn:Eg.
  - intros [= <- <- <-]. split_and!; try done. intros _. exists v. split; [done|]. apply bind_Some in Eg as (b & Hb & Hv).
    unfold Get in Hb. destruct (m !! key) as [e|] eqn:Ee; [|done]. destruct (expired (rNow r) e) eqn:Ex; [done|]. injection Hb as <-.
    destruct (Hm key e Ee) as (s & w & Hs & Hk & Hr & Hb & Ht). exists s, w, (value e), key. unfold expired in Ex. bool_to_prop. split_and!; try done. lia.
  - destruct (rResult r) as [w|e] eqn:Er; intros [= <- <- <-]; [|by split_and!]. split_and!; try done.
    unfold cacheSet. destruct (Marshal w) as [b|] eqn:Eb; [|done]. intros k e He. apply Set_lookup in He as [He|[-> ->]]; [by apply Hweak|].
    exists r, w. split_and!; try done; set_solver.
Qed.

Lemma resolve_each_served rs : ∀ made m i v, stored made m → (resolve_each sha256hex decode victim m rs).1 !! i = Some (Ok v, false) →
  ∃ r, rs !! i = Some r ∧ served_from (made ++ take i rs) r v.
Proof.
  induction rs as [|r rs IH]; intros made m i v Hm Hi; [done|]. cbn [resolve_each] in Hi.
  destruct (resolveWithCache sha256hex decode victim m r) as [[a m'] ran] eqn:Er. destruct (resolve_stored made m r a m' ran Hm Er) as (Hm' & Hs & _).
  destruct (resolve_each sha256hex decode victim m' rs) as [l m''] eqn:El. destruct i as [|i]; cbn in Hi.
  - injection Hi as -> ->. exists r. split; [done|]. destruct (Hs eq_refl) as (v' & [= <-] & H). by rewrite take_0, app_nil_r.
  - destruct (IH (made ++ [r]) m' i v Hm') as (r' & Hr' & H); [by rewrite El|]. exists r'. split; [done|]. by rewrite <-app_assoc in H.
Qed.

(** The texts a run hashes, and the names in them. *)
Definition payload_of (r : resolution) : option string :=
  c ← rCaching r; payload (rParent r +:+ "." +:+ rField r) (Username (rIdentity r)) (Groups (rIdentity r)) (key_values c (rCtx r)).
Definition valid_names (r : resolution) : Prop :=
  valid_utf8 (rParent r +:+ "." +:+ rField r) ∧ valid_utf8 (Username (rIdentity r)) ∧ Forall valid_utf8 (Groups (rIdentity r)).

Lemma key_of_payload r key : key_of r = Some key → ∃ p, payload_of r = Some p ∧ sha256hex p = key ∧ rParent r ≠ "Mutation".
Proof.
  unfold key_of, cacheKey, payload_of, Key. destruct (rCaching r) as [c|]; [|done]. destruct (String.eqb_spec (rParent r) "Mutation"); [done|].
  intros (p & Hp & ->)%fmap_Some. exists p. by split_and!.
Qed.
End Served.

(** C29: a response that is served from the cache was resolved earlier in the run, without error and no
    longer ago than its time to live, for the same field, a caller of the same name and the same groups, and
    the same caching keys; a mutation is never served from it.  That holds as long as the names are valid
    UTF-8 and no two texts of the run have one SHA-256. *)
Theorem cache_separates sha256hex decode victim rs i v :
  Forall valid_names rs →
  (∀ r s p q, r ∈ rs → s ∈ rs → payload_of r = Some p → payload_of s = Some q → sha256hex p = sha256hex q → p = q) →
  (resolve_each sha256hex decode victim ∅ rs).1 !! i = Some (Ok v, false) →
  ∃ r j s w b c d, rs !! i = Some r ∧ rs !! j = Some s ∧ (j < i)%nat ∧ rResult s = Ok w ∧ Marshal w = Some b ∧ decode b = Some v ∧
    rNow r <= rLater s + ttl_of s ∧ rParent r ≠ "Mutation" ∧
    rParent s +:+ "." +:+ rField s = rParent r +:+ "." +:+ rField r ∧
    Username (rIdentity s) = Username (rIdentity r) ∧ Groups (rIdentity s) ≡ₚ Groups (rIdentity r) ∧
    rCaching r = Some c ∧ rCaching s = Some d ∧ Marshal (AList (key_values d (rCtx s))) = Marshal (AList (key_values c (rCtx r))).
Proof.
  intros Hv Hc Hi. destruct (resolve_each_served sha256hex decode victim rs [] ∅ i v) as (r & Hr & s & w & b & key & Hs & Ks & Kr & Hw & Hb & Hd & Ht); [by intros k e|done|].
  cbn in Hs. apply list_elem_of_lookup in Hs as [j Hj]. apply lookup_take_Some in Hj as [Hj Hlt].
  destruct (key_of_payload _ _ _ Kr) as (p & Hp & <- & Hmut), (key_of_payload _ _ _ Ks) as (q & Hq & Hpq & _).
  assert (Hrin : r ∈ rs) by by eapply list_elem_of_lookup_2. assert (Hsin : s ∈ rs) by by eapply list_elem_of_lookup_2.
  assert (q = p) as -> by exact (Hc s r q p Hsin Hrin Hq Hp Hpq).
  destruct (proj1 (Forall_forall _ _) Hv r Hrin) as (V1 & V2 & V3). destruct (proj1 (Forall_forall _ _) Hv s Hsin) as (W1 & W2 & W3).
  unfold payload_of in Hp, Hq. destruct (rCaching r) as [c|] eqn:Ec; [|done]. destruct (rCaching s) as [d|] eqn:Ed; [|done]. cbn in Hp, Hq.
  destruct (payload_inj _ _ _ _ _ _ _ _ _ W1 W2 W3 V1 V2 V3 Hq Hp) as (E1 & E2 & E3 & E4).
  exists r, j, s, w, b, c, d. auto 20.
Qed.

(** the table of responses never has more than its ceiling of entries, whatever is stored when and
    whichever entry gives way. *)
Theorem cache_bounded sha256hex decode victim m rs :
  picks victim → (size m ≤ maxMemEntries)%nat → (size (resolve_each sha256hex decode victim m rs).2 ≤ maxMemEntries)%nat.
Proof.
  intros Hp. revert m. induction rs as [|r rs IH]; intros m Hm; [done|]. cbn [resolve_each].
  destruct (resolveWithCache sha256hex decode victim m r) as [[a m'] ran] eqn:Er.
  assert (Hm' : (size m' ≤ maxMemEntries)%nat).
  { unfold resolveWithCache in Er. destruct (cacheKey _ _ _ _ _ _) as [key|]; [|by injection Er as _ <- _]. destruct (cacheGet _ _ _ _); [by injection Er as _ <- _|].
    destruct (rResult r) as [w|]; injection Er as _ <- _; [|done]. unfold cacheSet. destruct (Marshal w); [|done]. by apply Set_bounded. }
  specialize (IH m' Hm'). destruct (resolve_each sha256hex decode victim m' rs). exact IH.
Qed.

(** ** Runs that show it *)

Definition any_key : Mem → option string := λ m, head (map_to_list m).*1.
Definition decode_names (b : string) : option any := Some (AStr b).
(** A resolution of Query.me, or of an author, by a caller at an instant. *)
Definition asks (parent field : string) (keys : list string) (who : Identity) (ctx : list (string * any)) (now : Z) (result : string) : resolution :=
  mkResolution parent field (Some (mkCaching 60 keys)) who ctx now now (Ok (AStr result)).
Definition ann : Identity := mkIdentity "ann" ["dev"; "ops"].
Definition runs : list resolution :=
  [asks "Query" "me" [] ann [("args", AMap [])] 0 "ann's"; asks "Query" "me" [] (mkIdentity "ben" []) [("args", AMap [])] 10 "ben's";
   asks "Query" "me" [] (mkIdentity "ann" ["ops"; "dev"]) [("args", AMap [])] 20 "ann's again"; asks "Query" "me" [] ann [("args", AMap [])] 61 "ann's later"].

Example cache_separates_witness :
  ∃ r j s, runs !! 2%nat = Some r ∧ runs !! j = Some s ∧ (j < 2)%nat ∧ Username (rIdentity s) = Username (rIdentity r) ∧
    map snd (resolve_each id decode_names any_key ∅ runs).1 = [true; true; false; true].
Proof.
  assert (Hi : (resolve_each id decode_names any_key ∅ runs).1 !! 2%nat = Some (Ok (AStr (json_quote "ann's")), false)) by by vm_compute.
  assert (Hv : Forall valid_names runs).
  { repeat constructor; try (apply Forall_nil; done); unfold valid_utf8; repeat (apply Forall_cons; split); try apply Forall_nil; intros [E _]; by vm_compute in E. }
  destruct (cache_separates id decode_names any_key runs 2 (AStr (json_quote "ann's")) Hv ltac:(intros; assumption) Hi) as (r & j & s & _ & _ & _ & _ & Hr & Hs & Hj & _ & _ & _ & _ & _ & _ & Hu & _).
  exists r, j, s. split_and!; try done; by vm_compute.
Defined.

Example cache_bounded_witness : (size (resolve_each id decode_names any_key ∅ runs).2 ≤ maxMemEntries)%nat.
Proof.
  apply (cache_bounded id decode_names any_key ∅ runs).
  - intros m Hm. unfold any_key. destruct (map_to_list m) as [|[k e] l] eqn:E; [by apply map_to_list_empty_iff in E|].
    exists k. split; [done|]. exists e. apply elem_of_map_to_list. rewrite E. by left.
  - rewrite map_size_empty. apply Nat.leb_le. by vm_compute.
Defined.

(** Without keys of the author's, two objects of a list share an entry of a field that takes no arguments:
    the object is not part of the key. *)
Example sibling_entry :
  map fst (resolve_each id decode_names any_key ∅
    [asks "Post" "author" [] ann [("args", AMap []); ("source", AMap [("id", AInt 1)])] 0 "first";
     asks "Post" "author" [] ann [("args", AMap []); ("source", AMap [("id", AInt 2)])] 1 "second"]).1 =
  [Ok (AStr "first"); Ok (AStr (json_quote "first"))].
Proof. by vm_compute. Qed.

(** Two names that differ in a byte that is no UTF-8 are one name to the key. *)
Example invalid_names_share :
  payload "Query.me" (String (ascii_of 0xFF) "") [] [] = payload "Query.me" (String (ascii_of 0xFE) "") [] [].
Proof. by vm_compute. Qed.
